(* ===== verification/_CoqProject ===== *)
-Q . S2P
Prelude.v
Std.v
Crates.v
Block.v
Iterator.v
BlockIter.v
Io.v
Log.v
Config.v
Bloom.v
Lru.v
Builder.v
MemTable.v
Scope.v
BTreeTable.v
SSTable.v
SSTableIter.v
Version.v
VersionIter.v
Cleaner.v
Status.v
Compactor.v
Loader.v
CompactorCorrect.v
Storage.v
StorageCorrect.v
StorageRefine.v
Mvcc.v
MvccCorrect.v
MvccIter.v
Reclaim.v
Recovery.v
Engine.v
System.v
Database.v
Backend.v
Server.v
Cli.v
UnitTests.v
