(* ===== verification/Prelude.v ===== *)
(** * KipDB: a verification development

    KipDB is an embedded key-value store, a log-structured merge tree with multi-version
    transactions, written in Rust (src/src/kernel/).  This library models the storage engine
    as executable definitions, one file per part, and proves the parts and their composition
    correct.

    ** The program and its parts

    A write goes to the write-ahead log and to the memory table under a fresh sequence
    number.  When the memory table is full it is swapped out and flushed to a table of
    level 0; the compactor merges tables of one level into the next.  A version lists the
    tables of all levels; every change is an edit, logged before it is applied.  A read goes
    through the memory table, then through the version from the newest data to the oldest;
    tables are found through a cache, in memory or in a file of prefix-compressed blocks with
    a bloom filter.  A transaction reads from the version and the sequence number of its
    beginning and commits all its writes under one new number.

    ** Which file models what

    - Prelude.v: byte strings, errors and panics ([KernelResult]), orders, sorted lists,
      notations, tactics and hints.  Std.v: bounds, [BTreeMap] and slices.  Crates.v: the
      third-party crates (varints, CRC32, LZ4, skip map, bincode, itertools, hasher, floating
      point) as classes of operations with named laws, and a module [Reference] that shows
      each of them can be satisfied.
    - Block.v, Builder.v, BlockIter.v: ss_table/block.rs and block_iter.rs.  Bloom.v:
      utils/bloom_filter.rs.  SSTable.v, SSTableIter.v: ss_table/mod.rs, footer.rs, iter.rs.
      BTreeTable.v: btree_table/.  Scope.v: the trait [Table] (as a class with the contract
      [table_holds]), table/scope.rs, meta.rs.  Lru.v: utils/lru_cache.rs, nodes and pointers
      in an explicit heap.  Loader.v: table/loader.rs.
    - Iterator.v: iterator/mod.rs, merging_iter.rs.  VersionIter.v: iterator/level_iter.rs,
      version/iter.rs.
    - Io.v: io/.  Log.v: lsm/log.rs.  MemTable.v: mem_table.rs, trigger.rs.  Config.v: the
      configuration and the counters of storage.rs.
    - Version.v: version/mod.rs, edit.rs, meta.rs.  Cleaner.v: version/cleaner.rs.  Status.v:
      version/status.rs.  Compactor.v, CompactorCorrect.v: compactor.rs and [data_sharding] of
      lsm/mod.rs.
    - Storage.v, StorageCorrect.v, StorageRefine.v: storage.rs, lsm/mod.rs and kernel/mod.rs.
      Mvcc.v, MvccCorrect.v, MvccIter.v: mvcc.rs.  Recovery.v: what both logs hold along a
      run, and opening again.  The compactor and the storage are proved over any kind of
      table that keeps the laws of [TableBuilderLaws], whose [buildable] is what the format
      of the table can hold; Engine.v discharges them for the tables of the loader, in files
      or in memory, and reads the files back.  System.v: clients, the background task and
      transactions together, against a specification of snapshot isolation.  Reclaim.v: the
      edits of flushes and compactions against what the cleaner asks of them.  Database.v:
      the system with the handles on its versions, the cleaner in its own task and the files
      of tables and logs, and its restart from the bytes on disk.
    - Backend.v: the trait [Storage] of kernel/mod.rs as a class with laws over a map, and its
      implementations, KipDB, sled_storage.rs and rocksdb_storage.rs.  Server.v: the handlers
      of server/server.rs over that class and the calls of server/client.rs.  Cli.v: the
      commands of bin/cli.rs over that client, and the default addresses.
    - UnitTests.v: the unit tests of the sources, translated and evaluated on the
      definitions.

    State is passed explicitly; a function that can fail returns [KernelResult], with [Panic]
    for a failed assertion, index, subtraction or [unwrap]; one that may not return, or that
    waits, returns an [option] with [None] for that.  Concurrency is interleaving: the cleaner,
    the storage, the system and the database are step relations, each step being what the
    code does under one lock or in one task.  A removal is two steps and a commit three, its
    check, the drawing of its number and its insertion ([commit_check], [commit_draw],
    [commit_insert]), since the code takes the lock anew for each; both can also be one step.
    The relations carry no condition the code does not test: a task is run whatever it has
    selected.  What the theorems need of a run is said of its trace, the list of its steps with
    the state each was taken in.

    ** Conditions

    Most theorems on runs are false of some runs of the code, and say of which:

    - Safe tasks ([task_safe], [event_safe], [op_safe]).  A compaction keeps the map only if
      at level 0 it takes, with a table, the older ones that overlap it, if the tables it
      takes meet a table of the next level or come before all of them ([selection_ok]), and if
      the tables can be built.  The code tests none of it; [level_0_stale_read] and
      [unsorted_level_lost_key] are what happens.  A task is ready ([task_ready]) when its
      level exists and, for a flush, no transaction is alive: otherwise it fails or waits.
    - No races ([races], [race_free], [event_timely]).  No key of a commit is written between
      its check and its insertion, no transaction begins between the draw of a commit and its
      insertion, no key is removed by another between the halves of its removal.  The code
      does not exclude them: [racing_commits_both_succeed], [snapshot_changes_under_commit],
      [racing_removals_both_succeed].
    - Values.  The encoding of a present empty value is that of a deletion, and it is read
      back as one ([stored]); the theorems on blocks, tables and the rebuilt level 0 say so,
      those on recovery exclude such writes ([data_wf], [op_wf]).
    - Checksums.  The test of a block is inverted ([checksum_not_checked]) and would refuse a
      block whose checksum is that of the whole buffer; [crc_clear] and [sst_clear] exclude it.
    - The disk.  A crash comes between two steps, not inside a task
      ([crash_in_flush_loses_writes]); what is on disk of a log is what its writer has passed
      on ([log_on_disk]), which by default is all but the last 8 KiB, and recovery asks for all
      of it ([buffered_log_loses_writes]).  The version log has not been replaced by a snapshot
      ([snapshot_recovery_loses_key]), and it is the first restart
      ([second_restart_loses_writes], [reopened_log_misaligned]).
    - Keys are not empty, sequence numbers stay below [SEQ_MAX], lengths below [2 ^ 32],
      restart intervals are two at least where a block is iterated.

    ** What the theorems show

    - Composition.  [system_refines_spec]: clients, the background task and any number of
      transactions, interleaved, with safe tasks and without races, get the answers of a map
      under snapshot isolation.  [storage_refines_map] is the part without transactions,
      [storage_live] says that commands are answered and that tasks that are ready and safe
      are finished, [storage_stays_typed] that the state stays within its types,
      [open_empty_correct] where the runs start; [flush_complete].  [snapshot_isolation] and
      [first_committer_wins] are about one transaction among others that may race with each
      other; [commit_atomic], [transaction_iter_correct].  [client_refines_map]: a client of
      the server sees a map, over any storage that keeps the laws of the trait, which KipDB
      and sled do; [cli_refines_map]: the command line programs act on a map of strings.
    - Durability.  [database_recovery]: a database over table files, opened again on the
      bytes of a running one as the cleaner left them, represents the committed map.
      [database_files_safe]: no file that the current version or a transaction needs is ever
      deleted; [database_close_exact]: a database that ends in order leaves no other table
      file.  [storage_recovery] is the restart over any kind of table, for clients alone;
      [wal_recovery], [version_log_recovery], [log_load_written], [wal_table_rebuilt] are
      about the logs by themselves.
    - Compaction and versions.  [compaction_round_correct], [query_correct],
      [version_iter_correct], [data_sharding_correct], [cleaner_safe], [cleaner_no_leak],
      [snapshot_roundtrip], [statistical_process_total].
    - Tables.  [sst_query_correct], [sst_reload_correct], [sst_iter_correct],
      [block_reload_find], [block_iter_refines_cursor], [bloom_no_false_negative],
      [bloom_raw_roundtrip], [merging_iter_correct], [table_loader_create_correct],
      [lru_refines_list], [sharding_transparent].
    - Where the code does less than it means to, besides the theorems named under the
      conditions: [snapshot_reorders_level], [log_read_torn_header],
      [log_read_truncated_record], [version_iter_skips_last_level],
      [transaction_iter_unbounded_min], [sst_iter_seek_past_end], [rocksdb_remove_missing],
      [batch_get_missing_panics] and others.

    ** Bounds and fuel

    Sequence numbers stay below [SEQ_MAX], and lengths written to files below [2 ^ 32], by
    hypothesis.  Loops that are not structural take fuel that is proved enough:
    [S MAX_LEVEL] rounds of a compaction, since the level rises with each; one round of the
    merging loop per input; one round of a log reader per byte, since every record has a
    header; four attempts at the lock file; the skip loop of a transaction iterator takes
    any fuel above the number of items left.

    ** Not modelled

    Benchmarks, the examples, the unit tests UnitTests.v names, the parsing of command
    line arguments, the start-up of the server, and what the gRPC library and its generated
    code do between a client and a handler.  Interleaving inside a background task: clients and
    transactions act, the cleaner takes its messages, and versions are dropped, between the
    tasks of the compactor and not inside one ([cleaner_safe] is for any order).  The sums of
    the sizes in the statistics of a version are not bounded; they are below [2 ^ 64] for any
    files that fit on a disk.  Operating-system errors
    other than a missing file or a bad position, and the release of leaked buffers.  A failed
    compaction leaves what it had created behind; the model does not follow the store past
    such an error. *)

From Stdlib Require Import ZArith Lia Strings.Byte Sorted Permutation.
From stdpp Require Import base list gmap strings sorting.

Set Default Goal Selector "!".

(** ** Byte strings

    [bytes::Bytes], [Vec<u8>] and [&[u8]] are all byte strings here. *)

Abbreviation bytes := (list byte).

#[global] Instance byte_eq_decision : EqDecision byte := Byte.byte_eq_dec.

Definition byte_to_Z (b : byte) : Z := Z.of_N (Byte.to_N b).

Definition byte_of_Z (z : Z) : byte :=
  match Byte.of_N (Z.to_N (z `mod` 256)) with
  | Some b => b
  | None => x00
  end.

Lemma byte_to_Z_range b : (0 ≤ byte_to_Z b < 256)%Z.
Proof. unfold byte_to_Z. pose proof (Byte.to_N_bounded b). lia. Qed.

Lemma byte_of_to_Z b : byte_of_Z (byte_to_Z b) = b.
Proof.
  unfold byte_of_Z. rewrite Z.mod_small by apply byte_to_Z_range.
  unfold byte_to_Z. rewrite N2Z.id, Byte.of_to_N. done.
Qed.

Lemma byte_to_of_Z z : byte_to_Z (byte_of_Z z) = (z `mod` 256)%Z.
Proof.
  unfold byte_of_Z, byte_to_Z.
  pose proof (Z.mod_pos_bound z 256 ltac:(lia)) as Hr.
  destruct (Byte.of_N _) as [b|] eqn:E.
  - apply Byte.to_of_N in E. rewrite E. lia.
  - apply Byte.of_N_None_iff in E. lia.
Qed.

Lemma byte_to_Z_inj a b : byte_to_Z a = byte_to_Z b → a = b.
Proof. intros H. by rewrite <- (byte_of_to_Z a), <- (byte_of_to_Z b), H. Qed.

(** ** Errors, results and panics

    [KernelError] of src/error.rs, without the payload of the variants that wrap the
    errors of libraries.  A computation of the kernel
    returns a value, returns an error, or panics (an index out of range, a failed
    [assert!], an arithmetic underflow, an [unwrap] of [None]). *)

Inductive io_error : Type :=
  | UnexpectedEof
  | NotFound
  | OtherIo.

Inductive KernelError : Type :=
  | Io (e : io_error)
  | RecvError
  | SendCompactTaskError
  | SendCleanTagError
  | SerdeBinCode
  | KeyNotFound
  | DataEmpty
  | LevelOver
  | NotMatchCmd
  | CrcMisMatch
  | SledErr
  | RocksdbErr
  | CacheSizeOverFlow
  | CacheShardingNotAlign
  | FileNotFound
  | WalLoad
  | UnexpectedCommandType
  | ProcessExists
  | ChannelClose
  | NotSupport (msg : string)
  | ShardingNotAlign
  | RepeatedWrite.

Inductive KernelResult (A : Type) : Type :=
  | Ok (a : A)
  | Err (e : KernelError)
  | Panic.
Arguments Ok {A} a.
Arguments Err {A} e.
Arguments Panic {A}.

Definition res_bind {A B} (m : KernelResult A) (f : A → KernelResult B) : KernelResult B :=
  match m with
  | Ok a => f a
  | Err e => Err e
  | Panic => Panic
  end.

Definition res_map {A B} (f : A → B) (m : KernelResult A) : KernelResult B :=
  res_bind m (λ a, Ok (f a)).

(** [opt.ok_or(e)]: an option turned into a result. *)
Definition ok_or {A} (o : option A) (e : KernelError) : KernelResult A :=
  match o with Some a => Ok a | None => Err e end.

(** An indexing or unwrapping that panics on [None]. *)
Definition or_panic {A} (o : option A) : KernelResult A :=
  match o with Some a => Ok a | None => Panic end.

Declare Scope kip_scope.
Delimit Scope kip_scope with kip.
Notation "'let?' x ':=' m 'in' k" := (res_bind m (λ x, k))
  (at level 10, x pattern, m at level 100, k at level 200,
   format "'let?'  x  ':='  m  'in' '//' k") : kip_scope.
Notation "'assert?' b 'in' k" := (if b then k else Panic)
  (at level 10, b at level 100, k at level 200, only parsing) : kip_scope.
Open Scope kip_scope.

(** [usize] subtraction; it panics on underflow when overflow checks are on. *)
Definition usize_sub (a b : nat) : KernelResult nat :=
  if decide (b ≤ a) then Ok (a - b) else Panic.

(** [u32] addition; it panics on overflow when overflow checks are on. *)
Definition u32_add (a b : Z) : KernelResult Z :=
  if decide (a + b < 2 ^ 32)%Z then Ok (a + b)%Z else Panic.

(** [x as u32], [x as u8]: truncation. *)
Definition as_u32 (n : nat) : Z := (Z.of_nat n `mod` 2 ^ 32)%Z.
Definition as_u8 (n : nat) : Z := (Z.of_nat n `mod` 2 ^ 8)%Z.

Definition fits_u32 (n : nat) : Prop := (Z.of_nat n < 2 ^ 32)%Z.

Lemma as_u32_small n : fits_u32 n → as_u32 n = Z.of_nat n.
Proof. unfold fits_u32, as_u32. intros H. apply Z.mod_small. lia. Qed.

Lemma as_u32_range n : (0 ≤ as_u32 n < 2 ^ 32)%Z.
Proof. unfold as_u32. apply Z.mod_pos_bound. lia. Qed.

Lemma as_u32_to_nat n : fits_u32 n → Z.to_nat (as_u32 n) = n.
Proof. intros H. rewrite as_u32_small by done. lia. Qed.

(** ** Total orders: the [Ord] trait

    [Ord A] carries Rust's [cmp]; [OrdLaws A] says that it is a total order whose
    [Equal] is equality, which is what the sorted containers rely on. *)

Class Ord (A : Type) := cmp : A → A → comparison.

Class OrdLaws (A : Type) `{Ord A} : Prop := {
  cmp_eq_1 : ∀ x y : A, cmp x y = Eq → x = y;
  cmp_antisym : ∀ x y : A, cmp y x = CompOpp (cmp x y);
  cmp_lt_trans : ∀ x y z : A, cmp x y = Lt → cmp y z = Lt → cmp x z = Lt;
}.

Definition lt_b `{Ord A} (x y : A) : bool :=
  match cmp x y with Lt => true | _ => false end.
Definition le_b `{Ord A} (x y : A) : bool :=
  match cmp x y with Gt => false | _ => true end.

Section ord_lemmas.
Context {A : Type} {OA : Ord A} {OL : OrdLaws A}.

Lemma cmp_refl (x : A) : cmp x x = Eq.
Proof. pose proof (cmp_antisym x x) as E. by destruct (cmp x x). Qed.

Lemma cmp_eq_iff (x y : A) : cmp x y = Eq ↔ x = y.
Proof. split; [apply cmp_eq_1 | intros ->; apply cmp_refl]. Qed.

Lemma cmp_gt_iff (x y : A) : cmp x y = Gt ↔ cmp y x = Lt.
Proof. rewrite (cmp_antisym x y). by destruct (cmp x y). Qed.

Lemma cmp_lt_ne (x y : A) : cmp x y = Lt → x ≠ y.
Proof. intros E ->. by rewrite cmp_refl in E. Qed.

Lemma cmp_lt_irrefl (x : A) : cmp x x ≠ Lt.
Proof. by rewrite cmp_refl. Qed.

Lemma lt_b_true (x y : A) : lt_b x y = true ↔ cmp x y = Lt.
Proof. unfold lt_b. by destruct (cmp x y). Qed.

Lemma le_b_true (x y : A) : le_b x y = true ↔ cmp x y = Lt ∨ x = y.
Proof.
  unfold le_b. rewrite <- cmp_eq_iff. destruct (cmp x y); naive_solver.
Qed.

Lemma le_b_false (x y : A) : le_b x y = false ↔ cmp y x = Lt.
Proof. unfold le_b. rewrite <- cmp_gt_iff. by destruct (cmp x y). Qed.

Lemma lt_b_false (x y : A) : lt_b x y = false ↔ le_b y x = true.
Proof. unfold lt_b, le_b. rewrite (cmp_antisym x y). by destruct (cmp x y). Qed.

Lemma le_b_refl (x : A) : le_b x x = true.
Proof. unfold le_b. by rewrite cmp_refl. Qed.

Lemma le_b_antisym (x y : A) : le_b x y = true → le_b y x = true → x = y.
Proof.
  rewrite !le_b_true. intros [H1|H1] [H2|H2]; try congruence.
  by destruct (cmp_lt_irrefl x); apply (cmp_lt_trans x y x).
Qed.

Lemma cmp_le_lt_trans (x y z : A) : le_b x y = true → cmp y z = Lt → cmp x z = Lt.
Proof. rewrite le_b_true. intros [H1| ->] H2; [by eapply cmp_lt_trans | done]. Qed.

Lemma cmp_lt_le_trans (x y z : A) : cmp x y = Lt → le_b y z = true → cmp x z = Lt.
Proof. rewrite le_b_true. intros H1 [H2| <-]; [by eapply cmp_lt_trans | done]. Qed.

Lemma le_b_trans (x y z : A) : le_b x y = true → le_b y z = true → le_b x z = true.
Proof.
  intros H1 H2. rewrite le_b_true in H2. destruct H2 as [H2| <-]; [|done].
  apply le_b_true. left. by eapply cmp_le_lt_trans.
Qed.

Lemma le_b_total (x y : A) : le_b x y = true ∨ le_b y x = true.
Proof. unfold le_b. rewrite (cmp_antisym x y). destruct (cmp x y); naive_solver. Qed.

Lemma cmp_lt_le (x y : A) : cmp x y = Lt → le_b x y = true.
Proof. intros H. apply le_b_true. by left. Qed.

#[local] Instance ord_eq_dec : EqDecision A.
Proof.
  intros x y. destruct (cmp x y) eqn:E.
  - left. by apply cmp_eq_iff.
  - right. by apply cmp_lt_ne.
  - right. apply cmp_gt_iff in E. intros ->. by apply cmp_lt_irrefl in E.
Defined.
End ord_lemmas.

Create HintDb kip_ord.
#[export] Hint Resolve cmp_refl le_b_refl cmp_lt_trans cmp_le_lt_trans
  cmp_lt_le_trans le_b_trans cmp_lt_le : kip_ord.

#[global] Instance Z_ord : Ord Z := Z.compare.
#[global] Instance Z_ord_laws : OrdLaws Z.
Proof.
  split; unfold cmp, Z_ord.
  - apply Z.compare_eq.
  - intros x y. apply Z.compare_antisym.
  - intros x y z. rewrite !Z.compare_lt_iff. lia.
Qed.

#[global] Instance nat_ord : Ord nat := Nat.compare.
#[global] Instance nat_ord_laws : OrdLaws nat.
Proof.
  split; unfold cmp, nat_ord.
  - apply Nat.compare_eq.
  - intros x y. apply Nat.compare_antisym.
  - intros x y z. rewrite !Nat.compare_lt_iff. lia.
Qed.

#[global] Instance byte_ord : Ord byte := λ a b, Z.compare (byte_to_Z a) (byte_to_Z b).
#[global] Instance byte_ord_laws : OrdLaws byte.
Proof.
  split; unfold cmp, byte_ord.
  - intros x y H. by apply byte_to_Z_inj, Z.compare_eq.
  - intros x y. apply Z.compare_antisym.
  - intros x y z. rewrite !Z.compare_lt_iff. lia.
Qed.

(** [a.cmp(b).then_with(|| c)] *)
Definition then_with (a b : comparison) : comparison :=
  match a with Eq => b | _ => a end.

(** Slices compare lexicographically. *)
Fixpoint list_cmp `{Ord A} (a b : list A) : comparison :=
  match a, b with
  | [], [] => Eq
  | [], _ :: _ => Lt
  | _ :: _, [] => Gt
  | x :: a', y :: b' => then_with (cmp x y) (list_cmp a' b')
  end.

#[global] Instance list_ord `{Ord A} : Ord (list A) := list_cmp.
#[global] Instance list_ord_laws `{OrdLaws A} : OrdLaws (list A).
Proof.
  split; unfold cmp, list_ord.
  - induction x as [|x a IH]; intros [|y b]; simpl; try done.
    destruct (cmp x y) eqn:E; simpl; try done.
    intros Hl. apply cmp_eq_1 in E as ->. f_equal. by apply IH.
  - induction x as [|x a IH]; intros [|y b]; simpl; try done.
    rewrite (cmp_antisym x y). destruct (cmp x y); simpl; try done; apply IH.
  - induction x as [|x a IH]; intros [|y b] [|z c]; simpl; try done.
    destruct (cmp x y) eqn:E1; simpl; try done.
    + apply cmp_eq_1 in E1 as ->. destruct (cmp y z) eqn:E2; simpl; try done; apply IH.
    + intros _. destruct (cmp y z) eqn:E2; simpl; try done.
      * apply cmp_eq_1 in E2 as ->. by rewrite E1.
      * by rewrite (cmp_lt_trans x y z).
Qed.

(** Lexicographic pairs. *)
#[global] Instance prod_ord `{Ord A, Ord B} : Ord (A * B) :=
  λ p q, then_with (cmp p.1 q.1) (cmp p.2 q.2).
#[global] Instance prod_ord_laws `{OrdLaws A, OrdLaws B} : OrdLaws (A * B).
Proof.
  split; unfold cmp, prod_ord.
  - intros [a b] [a' b']; simpl. destruct (cmp a a') eqn:E; simpl; try done.
    intros Hb. f_equal; by apply cmp_eq_1.
  - intros [a b] [a' b']; simpl. rewrite (cmp_antisym a a').
    destruct (cmp a a'); simpl; try done; apply cmp_antisym.
  - intros [a b] [a' b'] [a'' b'']; simpl.
    destruct (cmp a a') eqn:E1; simpl; try done.
    + apply cmp_eq_1 in E1 as ->. destruct (cmp a' a'') eqn:E2; simpl; try done.
      apply cmp_lt_trans.
    + intros _. destruct (cmp a' a'') eqn:E2; simpl; try done.
      * apply cmp_eq_1 in E2 as ->. by rewrite E1.
      * by rewrite (cmp_lt_trans a a' a'').
Qed.

(** ** Lists strictly sorted by key

    The shape of every ordered container of the code: the entries of a skip map,
    a [BTreeMap], a data block, an SSTable, a merged scan. *)

Definition kv_lt `{Ord K} {V} (a b : K * V) : Prop := cmp a.1 b.1 = Lt.

Abbreviation ksorted l := (StronglySorted kv_lt l).

#[export] Hint Constructors StronglySorted : kip_ord.

#[global] Instance comparison_eq_dec : EqDecision comparison.
Proof. solve_decision. Defined.

#[global] Instance strongly_sorted_dec {A} (R : A → A → Prop) `{∀ x y, Decision (R x y)} :
  ∀ l, Decision (StronglySorted R l).
Proof.
  induction l as [|x l IH]; [left; constructor|].
  destruct (decide (Forall (R x) l)) as [Hx|Hx].
  - destruct IH as [Hl|Hl]; [left; by constructor|right; intros Hs; apply Hl].
    by apply StronglySorted_inv in Hs as [].
  - right. intros Hs. apply Hx. by apply StronglySorted_inv in Hs as [].
Defined.

#[global] Instance kv_lt_dec `{Ord K} {V} (a b : K * V) : Decision (kv_lt a b).
Proof. unfold kv_lt. apply _. Defined.

Section ksorted.
Context {K V : Type} {OK : Ord K} {OL : OrdLaws K}.
Implicit Types l : list (K * V).

Lemma ksorted_cons_inv a l :
  ksorted (a :: l) → ksorted l ∧ ∀ b, b ∈ l → kv_lt a b.
Proof.
  intros [Hl Ha]%StronglySorted_inv. split; [done|]. by apply Forall_forall.
Qed.

Lemma ksorted_cons a l :
  ksorted l → (∀ b, b ∈ l → kv_lt a b) → ksorted (a :: l).
Proof. intros Hl Ha. constructor; [done|]. by apply Forall_forall. Qed.

Lemma ksorted_filter (P : K * V → Prop) `{∀ x, Decision (P x)} l :
  ksorted l → ksorted (filter P l).
Proof.
  induction l as [|a l IH]; [done|]. intros [Hl Ha]%ksorted_cons_inv.
  rewrite filter_cons. case_decide; [|by apply IH].
  apply ksorted_cons; [by apply IH|].
  intros b [_ Hb]%list_elem_of_filter. by apply Ha.
Qed.

Lemma ksorted_functional l k v v' :
  ksorted l → (k, v) ∈ l → (k, v') ∈ l → v = v'.
Proof.
  induction l as [|[k0 v0] l IH]; [by intros _ ?%not_elem_of_nil|].
  intros [Hl Ha]%ksorted_cons_inv. rewrite !elem_of_cons.
  intros [E1|H1] [E2|H2]; simplify_eq; [done| | |by apply IH];
    destruct (cmp_lt_irrefl k0); by eapply Ha in H1 || eapply Ha in H2.
Qed.

Lemma ksorted_ext l1 l2 :
  ksorted l1 → ksorted l2 → (∀ x, x ∈ l1 ↔ x ∈ l2) → l1 = l2.
Proof.
  revert l2. induction l1 as [|a l1 IH]; intros [|b l2] H1 H2 He.
  - done.
  - exfalso. eapply not_elem_of_nil, (He b). by left.
  - exfalso. eapply not_elem_of_nil, (He a). by left.
  - apply ksorted_cons_inv in H1 as [H1 Ha], H2 as [H2 Hb].
    assert (a = b) as ->.
    { destruct (proj1 (elem_of_cons _ _ _) (proj1 (He a) ltac:(by left))) as [|Hab];
        [done|].
      destruct (proj1 (elem_of_cons _ _ _) (proj2 (He b) ltac:(by left))) as [|Hba];
        [done|].
      destruct (cmp_lt_irrefl a.1).
      apply (cmp_lt_trans _ b.1); [by apply Ha|by apply Hb]. }
    f_equal. apply IH; [done|done|]. intros x. specialize (He x).
    rewrite !elem_of_cons in He. split; intros Hx.
    + destruct (proj1 He (or_intror Hx)) as [->|]; [|done].
      by destruct (cmp_lt_irrefl b.1); apply Ha.
    + destruct (proj2 He (or_intror Hx)) as [->|]; [|done].
      by destruct (cmp_lt_irrefl b.1); apply Hb.
Qed.

Lemma ksorted_NoDup l : ksorted l → NoDup l.*1.
Proof.
  induction l as [|a l IH]; [constructor|]. intros [Hl Ha]%ksorted_cons_inv.
  simpl. constructor; [|by apply IH].
  intros (b & Hb & Hin)%list_elem_of_fmap. apply Ha in Hin.
  unfold kv_lt in Hin. rewrite Hb in Hin. by apply cmp_lt_irrefl in Hin.
Qed.

Lemma ksorted_app l1 l2 :
  ksorted (l1 ++ l2) ↔
  ksorted l1 ∧ ksorted l2 ∧ ∀ a b, a ∈ l1 → b ∈ l2 → kv_lt a b.
Proof. rewrite StronglySorted_app. naive_solver. Qed.

Lemma ksorted_lookup_lt l i j a b :
  ksorted l → l !! i = Some a → l !! j = Some b → i < j → kv_lt a b.
Proof.
  revert i j. induction l as [|c l IH]; [done|].
  intros i j [Hl Hc]%ksorted_cons_inv Hi Hj Hij.
  destruct j as [|j]; [lia|]. destruct i as [|i]; simplify_eq/=.
  - apply Hc. by eapply list_elem_of_lookup_2.
  - eapply IH; eauto with lia.
Qed.
End ksorted.

(** ** Generic list lemmas *)

Lemma lookup_take_app {A} (l1 l2 : list A) : take (length l1) (l1 ++ l2) = l1.
Proof. by rewrite take_app_length. Qed.

Lemma fold_left_inv {A B} (P : A → Prop) (f : A → B → A) (l : list B) a :
  P a → (∀ a b, P a → b ∈ l → P (f a b)) → P (fold_left f l a).
Proof.
  revert a. induction l as [|b l IH]; intros a Ha Hf; [done|]. simpl.
  apply IH; [apply Hf; [done|by left]|]. intros. apply Hf; [done|by right].
Qed.

Lemma filter_all {A} (P : A → Prop) `{∀ x, Decision (P x)} (l : list A) :
  (∀ x, x ∈ l → P x) → filter P l = l.
Proof.
  induction l as [|x l IH]; intros Hl; [done|].
  rewrite filter_cons_True by (apply Hl; by left). f_equal. apply IH. intros; apply Hl. by right.
Qed.

Lemma filter_none {A} (P : A → Prop) `{∀ x, Decision (P x)} (l : list A) :
  (∀ x, x ∈ l → ¬ P x) → filter P l = [].
Proof.
  induction l as [|x l IH]; intros Hl; [done|].
  rewrite filter_cons_False by (apply Hl; by left). apply IH. intros; apply Hl. by right.
Qed.

Lemma filter_iff_in {A} (P Q : A → Prop) `{∀ x, Decision (P x)} `{∀ x, Decision (Q x)}
    (l : list A) : (∀ x, x ∈ l → P x ↔ Q x) → filter P l = filter Q l.
Proof.
  induction l as [|x l IH]; intros Hl; [done|]. rewrite !filter_cons.
  rewrite IH by (intros y Hy; apply Hl; by right).
  specialize (Hl x ltac:(by left)). destruct (decide (P x)), (decide (Q x)); naive_solver.
Qed.

Lemma filter_fmap {A B} (f : A → B) (P : B → Prop) `{∀ x, Decision (P x)} (l : list A) :
  filter P (f <$> l) = f <$> filter (λ x, P (f x)) l.
Proof.
  induction l as [|x l IH]; [done|]. rewrite fmap_cons, !filter_cons, IH.
  by destruct (decide (P (f x))).
Qed.

Lemma StronglySorted_filter {A} (R : A → A → Prop) (P : A → Prop) `{∀ x, Decision (P x)}
    (l : list A) : StronglySorted R l → StronglySorted R (filter P l).
Proof.
  induction 1 as [|x l Hl IH Hx]; [constructor|]. rewrite filter_cons.
  destruct (decide (P x)); [|done]. constructor; [done|].
  apply Forall_forall. intros y [_ Hy]%list_elem_of_filter.
  rewrite Forall_forall in Hx. by apply Hx.
Qed.

Lemma StronglySorted_reverse {A} (R : A → A → Prop) (l : list A) :
  StronglySorted R l → StronglySorted (flip R) (reverse l).
Proof.
  induction 1 as [|x l Hl IH Hx]; [constructor|]. rewrite reverse_cons.
  apply StronglySorted_app. rewrite Forall_forall in Hx. split_and!.
  - intros a b Ha Hb. apply list_elem_of_singleton in Hb as ->. apply Hx. by apply elem_of_reverse.
  - done.
  - by repeat constructor.
Qed.

Lemma StronglySorted_impl {A} (R R' : A → A → Prop) (l : list A) :
  (∀ x y, x ∈ l → y ∈ l → R x y → R' x y) → StronglySorted R l → StronglySorted R' l.
Proof.
  intros Himpl Hs. induction Hs as [|x l Hl IH Hx]; [constructor|].
  rewrite Forall_forall in Hx. constructor.
  - apply IH. intros y z Hy Hz. apply Himpl; by right.
  - apply Forall_forall. intros y Hy. apply Himpl; [by left|by right|by apply Hx].
Qed.

Lemma StronglySorted_map {A B} (f : A → B) (R : B → B → Prop) (l : list A) :
  StronglySorted R (f <$> l) ↔ StronglySorted (λ x y, R (f x) (f y)) l.
Proof.
  induction l as [|x l IH]; cbn; [split; constructor|]. split.
  - intros [Hl Hx]%StronglySorted_inv. constructor; [by apply IH|].
    rewrite Forall_fmap in Hx. exact Hx.
  - intros [Hl Hx]%StronglySorted_inv. constructor; [by apply IH|]. by apply Forall_fmap.
Qed.

Lemma NoDup_fmap_elem {A B} (f : A → B) (l : list A) x y :
  NoDup (f <$> l) → x ∈ l → y ∈ l → f x = f y → x = y.
Proof.
  induction l as [|z l IH]; [set_solver|]. rewrite fmap_cons, NoDup_cons, !elem_of_cons.
  intros [Hz Hnd] [->|Hx] [->|Hy] E; [done| | |by apply IH]; destruct Hz;
    [rewrite E|rewrite <- E]; by apply list_elem_of_fmap_2.
Qed.

Lemma NoDup_fmap_filter {A B} (f : A → B) (P : A → Prop) `{∀ x, Decision (P x)} (l : list A) :
  NoDup (f <$> l) → NoDup (f <$> filter P l).
Proof.
  induction l as [|x l IH]; [done|]. rewrite fmap_cons, NoDup_cons. intros [Hx Hnd].
  rewrite filter_cons. case_decide; [|by apply IH]. rewrite fmap_cons.
  constructor; [|by apply IH]. intros (y & E & [_ Hy]%list_elem_of_filter)%list_elem_of_fmap.
  apply Hx. rewrite E. by apply list_elem_of_fmap_2.
Qed.

Lemma elem_of_concat {A} (ls : list (list A)) x : x ∈ concat ls ↔ ∃ l, l ∈ ls ∧ x ∈ l.
Proof.
  induction ls as [|l ls IH]; cbn; [set_solver|]. rewrite elem_of_app, IH. set_solver.
Qed.

(** The last element of a list satisfying a predicate. *)
Lemma last_filter_ksorted `{OrdLaws K} {V} (P : K * V → Prop) `{∀ x, Decision (P x)}
    (l : list (K * V)) e :
  ksorted l →
  last (filter P l) = Some e ↔ e ∈ l ∧ P e ∧ ∀ e', e' ∈ l → P e' → e' = e ∨ kv_lt e' e.
Proof.
  intros Hs. split.
  - intros (l' & Hl')%last_Some.
    assert (e ∈ filter P l) as [HP He]%list_elem_of_filter by (rewrite Hl'; set_solver).
    split_and!; [done..|]. intros e' He' HP'.
    assert (e' ∈ filter P l) as Hin by (by apply list_elem_of_filter).
    pose proof (ksorted_filter P l Hs) as Hsf. rewrite Hl' in Hin, Hsf.
    apply ksorted_app in Hsf as (_ & _ & Hlt).
    apply elem_of_app in Hin as [Hin|Hin]; [right; apply Hlt; set_solver|set_solver].
  - intros (He & HP & Hmax).
    destruct (last (filter P l)) as [e'|] eqn:E.
    + apply last_Some in E as (l' & Hl').
      assert (e' ∈ filter P l) as [HP' He']%list_elem_of_filter
        by (rewrite Hl'; set_solver).
      destruct (Hmax _ He' HP') as [->|Hlt]; [done|].
      assert (e ∈ filter P l) as Hin by (by apply list_elem_of_filter).
      pose proof (ksorted_filter P l Hs) as Hsf. rewrite Hl' in Hin, Hsf.
      apply ksorted_app in Hsf as (_ & _ & Hlt').
      apply elem_of_app in Hin as [Hin|Hin]; [|set_solver].
      destruct (cmp_lt_irrefl e.1).
      apply (cmp_lt_trans _ e'.1); [by apply Hlt'; set_solver|done].
    + apply last_None in E. assert (e ∈ filter P l) as Hin by (by apply list_elem_of_filter).
      rewrite E in Hin. by apply not_elem_of_nil in Hin.
Qed.

Lemma head_filter_ksorted `{OrdLaws K} {V} (P : K * V → Prop) `{∀ x, Decision (P x)}
    (l : list (K * V)) e :
  ksorted l →
  head (filter P l) = Some e ↔ e ∈ l ∧ P e ∧ ∀ e', e' ∈ l → P e' → e' = e ∨ kv_lt e e'.
Proof.
  intros Hs. pose proof (ksorted_filter P l Hs) as Hsf. split.
  - intros Hh. destruct (filter P l) as [|e0 r] eqn:E; [done|]. simplify_eq/=.
    assert (e ∈ filter P l) as [HP He]%list_elem_of_filter by (rewrite E; by left).
    split_and!; [done..|]. intros e' He' HP'.
    assert (e' ∈ filter P l) as Hin by (by apply list_elem_of_filter).
    rewrite E in Hin. apply ksorted_cons_inv in Hsf as [_ Hlt].
    apply elem_of_cons in Hin as [->|Hin]; [by left|right; by apply Hlt].
  - intros (He & HP & Hmin).
    assert (e ∈ filter P l) as Hin by (by apply list_elem_of_filter).
    destruct (filter P l) as [|e0 r] eqn:E; [by apply not_elem_of_nil in Hin|]. simpl.
    f_equal. apply ksorted_cons_inv in Hsf as [_ Hlt].
    apply elem_of_cons in Hin as [->|Hin]; [done|].
    assert (e0 ∈ filter P l) as [HP0 H0e]%list_elem_of_filter by (rewrite E; by left).
    destruct (Hmin _ H0e HP0) as [|Hc]; [done|].
    destruct (cmp_lt_irrefl e.1). by apply (cmp_lt_trans _ e0.1); [|apply Hlt].
Qed.

(** A proof step that splits every boolean conjunction of the context. *)
Ltac destruct_bools :=
  repeat match goal with
  | H : _ && _ = true |- _ => apply andb_true_iff in H; destruct H
  | H : _ || _ = true |- _ => apply orb_true_iff in H; destruct H
  end.

(** ** Traversals in the result type *)

Fixpoint res_mapM {A B} (f : A → KernelResult B) (l : list A) : KernelResult (list B) :=
  match l with
  | [] => Ok []
  | x :: l' => let? y := f x in let? ys := res_mapM f l' in Ok (y :: ys)
  end.

Fixpoint res_foldM {A B} (f : A → B → KernelResult A) (a : A) (l : list B) : KernelResult A :=
  match l with
  | [] => Ok a
  | x :: l' => let? a' := f a x in res_foldM f a' l'
  end.

Lemma res_mapM_Ok {A B} (f : A → KernelResult B) (g : A → B) l :
  (∀ x, x ∈ l → f x = Ok (g x)) → res_mapM f l = Ok (g <$> l).
Proof.
  induction l as [|x l IH]; intros Hf; [done|]. simpl.
  rewrite (Hf x ltac:(by left)). simpl. rewrite IH; [done|].
  intros y Hy. apply Hf. by right.
Qed.

Lemma res_mapM_Forall2 {A B} (f : A → KernelResult B) l l' :
  res_mapM f l = Ok l' ↔ Forall2 (λ x y, f x = Ok y) l l'.
Proof.
  revert l'. induction l as [|x l IH]; intros l'; simpl.
  - split; [intros [= <-]; constructor|by inversion 1].
  - split.
    + destruct (f x) as [y| |] eqn:E; try done. simpl.
      destruct (res_mapM f l) as [ys| |] eqn:E'; try done. simpl.
      intros [= <-]. constructor; [done|]. by apply IH.
    + inversion 1 as [|? y ? ys Hy Hys]; subst. rewrite Hy. simpl.
      apply IH in Hys as ->. done.
Qed.

Lemma res_foldM_app {A B} (f : A → B → KernelResult A) a l1 l2 :
  res_foldM f a (l1 ++ l2) = let? a' := res_foldM f a l1 in res_foldM f a' l2.
Proof.
  revert a. induction l1 as [|x l1 IH]; intros a; [done|]. simpl.
  destruct (f a x); simpl; [apply IH|done..].
Qed.

(** [iter().enumerate()] from a given number. *)
Fixpoint enum_from {A} (n : nat) (l : list A) : list (nat * A) :=
  match l with
  | [] => []
  | x :: l' => (n, x) :: enum_from (S n) l'
  end.

Definition enumerate {A} (l : list A) : list (nat * A) := enum_from 0 l.

Lemma enum_from_lookup {A} n (l : list A) j :
  enum_from n l !! j = (λ x, (n + j, x)) <$> l !! j.
Proof.
  revert n j. induction l as [|x l IH]; intros n [|j]; simpl; try done.
  - by rewrite Nat.add_0_r.
  - rewrite IH. by rewrite Nat.add_succ_r.
Qed.

Lemma enumerate_lookup {A} (l : list A) j : enumerate l !! j = (λ x, (j, x)) <$> l !! j.
Proof. apply enum_from_lookup. Qed.

Lemma enum_from_length {A} n (l : list A) : length (enum_from n l) = length l.
Proof. revert n. induction l as [|x l IH]; intros n; [done|]. simpl. by rewrite IH. Qed.

Lemma enumerate_length {A} (l : list A) : length (enumerate l) = length l.
Proof. apply enum_from_length. Qed.

Lemma enum_from_snd {A} n (l : list A) : (enum_from n l).*2 = l.
Proof. revert n. induction l as [|x l IH]; intros n; [done|]. simpl. by rewrite IH. Qed.

Lemma enum_from_elem {A} n (l : list A) i x :
  (i, x) ∈ enum_from n l ↔ n ≤ i ∧ l !! (i - n) = Some x.
Proof.
  rewrite list_elem_of_lookup. split.
  - intros [j Hj]. rewrite enum_from_lookup in Hj.
    destruct (l !! j) as [y|] eqn:E; simplify_eq/=.
    split; [lia|]. by replace (n + j - n) with j by lia.
  - intros [Hle Hx]. exists (i - n). rewrite enum_from_lookup, Hx. simpl.
    by replace (n + (i - n)) with i by lia.
Qed.

Lemma enum_from_app {A} n (l1 l2 : list A) :
  enum_from n (l1 ++ l2) = enum_from n l1 ++ enum_from (n + length l1) l2.
Proof.
  revert n. induction l1 as [|x l1 IH]; intros n; simpl.
  - by rewrite Nat.add_0_r.
  - rewrite IH. by rewrite Nat.add_succ_r.
Qed.

(** Lexicographic comparison of concatenations. *)
Lemma list_cmp_app `{OrdLaws A} (a b x y : list A) :
  length a = length b →
  list_cmp (a ++ x) (b ++ y) = then_with (list_cmp a b) (list_cmp x y).
Proof.
  revert b. induction a as [|p a IH]; intros [|q b] Hl; simplify_eq/=; [done|].
  rewrite IH by done. by destruct (cmp p q).
Qed.
