(* ===== verification/Std.v ===== *)
(** * The parts of Rust's standard library the kernel uses

    [Bound] ranges, [BTreeMap] (a list strictly sorted by key, with the map's own
    operations), [slice::binary_search_by] (the loop of the standard library over a
    comparator that may panic) and [Cursor<Vec<u8>>] reads. *)

From S2P Require Import Prelude.
From Stdlib Require Import ZArith Lia Strings.Byte Sorted.
From stdpp Require Import base list gmap.

Set Default Goal Selector "!".

(** ** Bounds *)

Inductive Bound (A : Type) : Type :=
  | Included (a : A)
  | Excluded (a : A)
  | Unbounded.
Arguments Included {A} a.
Arguments Excluded {A} a.
Arguments Unbounded {A}.

Definition bound_map {A B} (f : A → B) (b : Bound A) : Bound B :=
  match b with
  | Included a => Included (f a)
  | Excluded a => Excluded (f a)
  | Unbounded => Unbounded
  end.

(** [k] lies above a lower bound, below an upper bound. *)
Definition above `{Ord A} (lo : Bound A) (k : A) : bool :=
  match lo with
  | Included a => le_b a k
  | Excluded a => lt_b a k
  | Unbounded => true
  end.

Definition below `{Ord A} (hi : Bound A) (k : A) : bool :=
  match hi with
  | Included a => le_b k a
  | Excluded a => lt_b k a
  | Unbounded => true
  end.

Definition in_range `{Ord A} (lo hi : Bound A) (k : A) : bool := above lo k && below hi k.

(** ** [BTreeMap] *)

Section btree_map.
Context {K V : Type} {OK : Ord K}.

Fixpoint btree_insert (k : K) (v : V) (m : list (K * V)) : list (K * V) :=
  match m with
  | [] => [(k, v)]
  | (k', v') :: m' =>
      match cmp k k' with
      | Lt => (k, v) :: m
      | Eq => (k', v) :: m'
      | Gt => (k', v') :: btree_insert k v m'
      end
  end.

Fixpoint btree_get (k : K) (m : list (K * V)) : option V :=
  match m with
  | [] => None
  | (k', v') :: m' =>
      match cmp k k' with
      | Lt => None
      | Eq => Some v'
      | Gt => btree_get k m'
      end
  end.

Definition btree_from_iter (l : list (K * V)) : list (K * V) :=
  fold_left (λ m kv, btree_insert kv.1 kv.2 m) l [].

Definition btree_range (lo hi : Bound K) (m : list (K * V)) : list (K * V) :=
  filter (λ kv, in_range lo hi kv.1 = true) m.

Definition btree_pop_first (m : list (K * V)) : option ((K * V) * list (K * V)) :=
  match m with [] => None | e :: m' => Some (e, m') end.

Context {OL : OrdLaws K}.

Lemma btree_insert_elem k v m e :
  ksorted m → e ∈ btree_insert k v m ↔ e = (k, v) ∨ (e ∈ m ∧ e.1 ≠ k).
Proof.
  induction m as [|[k' v'] m IH]; intros Hs; simpl; [set_solver|].
  apply ksorted_cons_inv in Hs as [Hs Ha]. destruct (cmp k k') eqn:E.
  - apply cmp_eq_iff in E as ->. rewrite !elem_of_cons. split.
    + intros [->|He]; [by left|]. right. split; [by right|].
      intros <-. by apply Ha, cmp_lt_irrefl in He.
    + intros [->|[[->|He] Hn]]; [by left|done|by right].
  - rewrite !elem_of_cons. split.
    + intros [->|[->|He]]; [by left|right|right].
      * split; [by left|]. simpl. intros ->. by apply cmp_lt_irrefl in E.
      * split; [by right|]. intros <-. apply Ha in He. unfold kv_lt in He; simpl in He.
        apply (cmp_lt_irrefl k'). by eapply cmp_lt_trans.
    + intros [->|[[->|He] Hn]]; auto.
  - rewrite !elem_of_cons, IH by done. split.
    + intros [->|[->|[He Hn]]]; [right|by left|by right; auto].
      split; [by left|]. simpl. intros <-. by rewrite cmp_refl in E.
    + intros [->|[[->|He] Hn]]; auto.
Qed.

Lemma btree_insert_sorted k v m : ksorted m → ksorted (btree_insert k v m).
Proof.
  induction m as [|[k' v'] m IH]; intros Hs; simpl.
  - by repeat constructor.
  - pose proof Hs as [Hs' Ha]%ksorted_cons_inv. destruct (cmp k k') eqn:E.
    + apply ksorted_cons; [done|]. intros b Hb. by apply Ha in Hb.
    + apply ksorted_cons; [done|]. intros b [->|Hb]%elem_of_cons; [done|].
      apply Ha in Hb. by eapply cmp_lt_trans.
    + apply ksorted_cons; [by apply IH|].
      intros b [->|[Hb _]]%btree_insert_elem; [| by apply Ha|done].
      by apply cmp_gt_iff.
Qed.

Lemma btree_get_Some k v m : ksorted m → btree_get k m = Some v ↔ (k, v) ∈ m.
Proof.
  induction m as [|[k' v'] m IH]; intros Hs; simpl; [set_solver|].
  apply ksorted_cons_inv in Hs as [Hs Ha]. rewrite elem_of_cons.
  destruct (cmp k k') eqn:E.
  - apply cmp_eq_iff in E as ->. split; [naive_solver|].
    intros [|Hin]; [naive_solver|]. by apply Ha, cmp_lt_irrefl in Hin.
  - split; [done|]. intros [Heq|Hin].
    + simplify_eq. by apply cmp_lt_irrefl in E.
    + apply Ha in Hin. exfalso. apply (cmp_lt_irrefl k). by eapply cmp_lt_trans.
  - rewrite IH by done. split; [by right|]. intros [|]; [|done].
    simplify_eq. by rewrite cmp_refl in E.
Qed.

Lemma btree_get_None k m : ksorted m → btree_get k m = None ↔ ∀ v, (k, v) ∉ m.
Proof.
  intros Hs. destruct (btree_get k m) as [v|] eqn:E.
  - split; [done|]. intros Hn. by apply btree_get_Some, Hn in E.
  - split; [|done]. intros _ v Hv%btree_get_Some; [|done]. congruence.
Qed.

Lemma btree_get_insert k v k' m :
  ksorted m →
  btree_get k' (btree_insert k v m) =
    match cmp k' k with Eq => Some v | _ => btree_get k' m end.
Proof.
  intros Hs. pose proof (btree_insert_sorted k v m Hs) as Hs'.
  assert (cmp k' k = Eq ∨ k' ≠ k) as [E|Hne].
  { destruct (cmp k' k) eqn:E; [by left|right|right].
    - by apply cmp_lt_ne.
    - intros ->. by rewrite cmp_refl in E. }
  - rewrite E. apply cmp_eq_iff in E as ->. apply btree_get_Some; [done|].
    apply btree_insert_elem; [done|]. by left.
  - replace (match cmp k' k with Eq => Some v | _ => btree_get k' m end)
      with (btree_get k' m).
    2: { destruct (cmp k' k) eqn:E; [|done..]. by apply cmp_eq_iff in E. }
    destruct (btree_get k' m) as [w|] eqn:E.
    + apply btree_get_Some in E; [|done]. apply btree_get_Some; [done|].
      apply btree_insert_elem; [done|]. by right.
    + rewrite btree_get_None in E by done. apply btree_get_None; [done|].
      intros w [Heq|[Hw _]]%btree_insert_elem; [naive_solver|by apply (E w)|done].
Qed.

Lemma btree_from_iter_snoc l k v :
  btree_from_iter (l ++ [(k, v)]) = btree_insert k v (btree_from_iter l).
Proof. unfold btree_from_iter. by rewrite fold_left_app. Qed.

Lemma btree_from_iter_sorted l : ksorted (btree_from_iter l).
Proof.
  unfold btree_from_iter. apply fold_left_inv; [constructor|].
  intros m [k v] Hm _. by apply btree_insert_sorted.
Qed.

(** Building a map from a list that is already sorted keeps the list. *)
Lemma btree_insert_last k v m :
  (∀ e, e ∈ m → cmp e.1 k = Lt) → btree_insert k v m = m ++ [(k, v)].
Proof.
  induction m as [|[k' v'] m IH]; intros Hlt; [done|]. simpl.
  assert (cmp k' k = Lt) as E by (apply (Hlt (k', v')); by left).
  apply cmp_gt_iff in E as ->. rewrite IH; [done|]. intros e He. apply Hlt. by right.
Qed.

Lemma btree_from_sorted l : ksorted l → btree_from_iter l = l.
Proof.
  induction l as [|[k v] l IH] using rev_ind; [done|].
  intros (Hl & _ & Hlt)%ksorted_app. rewrite btree_from_iter_snoc, IH by done.
  apply btree_insert_last. intros e He. apply (Hlt e (k, v)); [done|by left].
Qed.

Lemma btree_from_iter_subset l e : e ∈ btree_from_iter l → e ∈ l.
Proof.
  induction l as [|[k v] l IH] using rev_ind; [done|].
  rewrite btree_from_iter_snoc, btree_insert_elem by apply btree_from_iter_sorted.
  intros [->|[He _]]; [set_solver|]. apply IH in He. set_solver.
Qed.

(** Two sorted maps with the same bindings are the same list. *)
Lemma btree_get_ext m1 m2 :
  ksorted m1 → ksorted m2 → (∀ k, btree_get k m1 = btree_get k m2) → m1 = m2.
Proof.
  intros H1 H2 He. apply ksorted_ext; [done..|]. intros [k v].
  by rewrite <- !btree_get_Some, He.
Qed.

(** Later elements override earlier ones. *)
Lemma btree_get_from_iter `{EqDecision K} l k :
  btree_get k (btree_from_iter l) = snd <$> last (filter (λ e : K * V, e.1 = k) l).
Proof.
  induction l as [|[k' v'] l IH] using rev_ind; [done|].
  rewrite btree_from_iter_snoc, btree_get_insert by apply btree_from_iter_sorted.
  rewrite filter_app, filter_cons, filter_nil. cbn [fst].
  destruct (decide (k' = k)) as [->|Hne].
  - by rewrite cmp_refl, last_snoc.
  - rewrite app_nil_r. destruct (cmp k k') eqn:E; [|done..].
    apply cmp_eq_iff in E. by subst k'.
Qed.

Lemma btree_get_last `{EqDecision K} m k :
  ksorted m → btree_get k m = snd <$> last (filter (λ e : K * V, e.1 = k) m).
Proof. intros Hs. by rewrite <- btree_get_from_iter, btree_from_sorted. Qed.

Lemma btree_get_filter (P : K → Prop) `{∀ k, Decision (P k)} m k :
  ksorted m →
  btree_get k (filter (λ e, P e.1) m) = if decide (P k) then btree_get k m else None.
Proof.
  intros Hs. pose proof (ksorted_filter (λ e : K * V, P e.1) m Hs) as Hs'.
  destruct (btree_get k (filter _ m)) as [v|] eqn:E.
  - apply btree_get_Some in E; [|done]. apply list_elem_of_filter in E as [HP Hin].
    rewrite decide_True by done. symmetry. by apply btree_get_Some.
  - rewrite btree_get_None in E by done. destruct (decide (P k)) as [HP|]; [|done].
    symmetry. apply btree_get_None; [done|]. intros v Hv. apply (E v).
    by apply list_elem_of_filter.
Qed.
End btree_map.

(** ** [slice::binary_search_by]

    [Ok(i)] is [inl i] (the comparator answered [Equal] at [i]); [Err(i)] is [inr i]
    (the insertion point).  The loop runs on [right - left], so the length of the
    slice is fuel enough: [binary_search_by_spec] shows that it always answers. *)

Section binary_search.
Context {A : Type} (f : A → KernelResult comparison).

Fixpoint binary_search_loop (fuel : nat) (l : list A) (size left right : nat)
    : KernelResult (nat + nat) :=
  match fuel with
  | O => Ok (inr left)
  | S fuel' =>
      if decide (left < right) then
        let mid := left + size / 2 in
        let? x := or_panic (l !! mid) in
        let? c := f x in
        let left' := match c with Lt => mid + 1 | _ => left end in
        let right' := match c with Gt => mid | _ => right end in
        match c with
        | Eq => Ok (inl mid)
        | _ => binary_search_loop fuel' l (right' - left') left' right'
        end
      else Ok (inr left)
  end.

Definition binary_search_by (l : list A) : KernelResult (nat + nat) :=
  binary_search_loop (length l) l (length l) 0 (length l).

(** The comparator is [Less] exactly on the first [n] elements, and [Equal] at most
    at position [n]. *)
Definition partitioned (l : list A) (n : nat) (hit : bool) : Prop :=
  n + (if hit then 1 else 0) ≤ length l ∧
  ∀ j x, l !! j = Some x →
    f x = Ok (if decide (j < n) then Lt
              else if decide (hit = true ∧ j = n) then Eq else Gt).

Lemma binary_search_loop_spec fuel l n hit left right :
  partitioned l n hit →
  left ≤ n → n + (if hit then 1 else 0) ≤ right → right ≤ length l →
  right - left ≤ fuel →
  binary_search_loop fuel l (right - left) left right
  = Ok (if hit then inl n else inr n).
Proof.
  intros [Hn Hf]. revert left right.
  induction fuel as [|fuel IH]; intros left right Hl Hr Hlen Hfuel;
    cbn [binary_search_loop].
  - destruct hit; [lia|]. do 2 f_equal. lia.
  - destruct (decide (left < right)) as [Hlt|Hlt]; [|destruct hit; [lia|do 2 f_equal; lia]].
    set (mid := left + (right - left) / 2).
    assert (mid < right) as Hmid.
    { subst mid. pose proof (Nat.div_lt (right - left) 2 ltac:(lia) ltac:(lia)). lia. }
    destruct (lookup_lt_is_Some_2 l mid ltac:(lia)) as [x Hx].
    rewrite Hx. simpl. rewrite (Hf _ _ Hx). simpl.
    destruct (decide (mid < n)) as [Hm|Hm]; [|destruct (decide _) as [[-> ->]|Hh]].
    + apply IH; lia.
    + done.
    + apply IH; destruct hit; naive_solver lia.
Qed.

Lemma binary_search_by_spec l n hit :
  partitioned l n hit →
  binary_search_by l = Ok (if hit then inl n else inr n).
Proof.
  intros Hp. unfold binary_search_by.
  rewrite <- (Nat.sub_0_r (length l)) at 2.
  destruct (id Hp) as [Hn _].
  apply binary_search_loop_spec; auto with lia.
Qed.
End binary_search.

(** *** Binary search over a list sorted by key

    [rank key kvs] is the number of keys below [key]: the insertion point. *)

Definition rank `{Ord K} {V} (key : K) (kvs : list (K * V)) : nat :=
  length (filter (λ kv, cmp kv.1 key = Lt) kvs).

Section rank.
Context {K V : Type} {OK : Ord K} {OL : OrdLaws K}.
Implicit Types kvs : list (K * V).

Lemma rank_le key kvs : rank key kvs ≤ length kvs.
Proof. apply length_filter. Qed.

Lemma rank_above key kvs :
  (∀ e, e ∈ kvs → cmp e.1 key ≠ Lt) → rank key kvs = 0.
Proof.
  intros Hn. unfold rank. destruct (filter _ kvs) as [|e r] eqn:E; [done|].
  assert (e ∈ filter (λ kv, cmp kv.1 key = Lt) kvs) as [He Hin]%list_elem_of_filter
    by (rewrite E; by left).
  by destruct (Hn e).
Qed.

(** The keys below [key] are the first [rank key kvs] ones. *)
Lemma rank_spec key kvs j kv :
  ksorted kvs → kvs !! j = Some kv → cmp kv.1 key = Lt ↔ j < rank key kvs.
Proof.
  intros Hs. revert j. induction kvs as [|kv0 kvs IH]; [done|].
  apply ksorted_cons_inv in Hs as [Hs Ha].
  destruct (decide (cmp kv0.1 key = Lt)) as [Hc|Hc].
  - intros [|j] Hj; simplify_eq/=; unfold rank; rewrite filter_cons_True by done; simpl.
    + split; [lia|done].
    + unfold rank in IH. rewrite (IH Hs j Hj). lia.
  - intros j Hj. rewrite rank_above.
    + split; [|lia]. intros Hlt. exfalso. apply Hc.
      apply list_elem_of_lookup_2, elem_of_cons in Hj as [->|Hj]; [done|].
      eapply cmp_lt_trans; [by apply Ha|done].
    + intros e [->|He]%elem_of_cons; [done|]. intros Hlt. apply Hc.
      eapply cmp_lt_trans; [by apply Ha|done].
Qed.

(** A key of the list sits at its rank. *)
Lemma rank_at key kvs j kv :
  ksorted kvs → kvs !! j = Some kv → kv.1 = key → j = rank key kvs.
Proof.
  intros Hs Hj Hk. assert (¬ j < rank key kvs) as Hge.
  { intros Hlt. apply (rank_spec _ _ _ _ Hs Hj) in Hlt. rewrite Hk in Hlt.
    by apply cmp_lt_irrefl in Hlt. }
  destruct (decide (j = rank key kvs)) as [|Hne]; [done|]. exfalso.
  destruct (lookup_lt_is_Some_2 kvs (rank key kvs)) as [e He].
  { apply lookup_lt_Some in Hj. lia. }
  pose proof (ksorted_lookup_lt _ _ _ _ _ Hs He Hj ltac:(lia)) as Hlt.
  unfold kv_lt in Hlt. rewrite Hk in Hlt. apply (rank_spec _ _ _ _ Hs He) in Hlt. lia.
Qed.

(** What is not below the key is what follows its rank. *)
Lemma drop_rank key kvs :
  ksorted kvs → drop (rank key kvs) kvs = filter (λ kv, le_b key kv.1 = true) kvs.
Proof.
  induction kvs as [|kv kvs IH]; intros Hs; [done|].
  apply ksorted_cons_inv in Hs as [Hs Ha]. unfold rank.
  destruct (decide (cmp kv.1 key = Lt)) as [Hc|Hc].
  - rewrite filter_cons_True by done. simpl.
    rewrite filter_cons_False by (by apply not_true_iff_false, le_b_false). by apply IH.
  - fold (rank key (kv :: kvs)).
    assert (∀ e, e ∈ kv :: kvs → le_b key e.1 = true) as Hall.
    { assert (le_b key kv.1 = true) as Hkv.
      { destruct (le_b key kv.1) eqn:E; [done|]. by apply le_b_false in E. }
      intros e [->|He]%elem_of_cons; [done|].
      apply cmp_lt_le. eapply cmp_le_lt_trans; [done|]. by apply Ha. }
    rewrite rank_above, filter_all by (done || intros e He Hlt; apply Hall in He;
      apply le_b_false in Hlt; congruence). done.
Qed.

Definition rank_hit (key : K) (kvs : list (K * V)) : bool :=
  match kvs !! rank key kvs with
  | Some kv => match cmp kv.1 key with Eq => true | _ => false end
  | None => false
  end.

Lemma rank_hit_true key kvs :
  rank_hit key kvs = true → ∃ v, kvs !! rank key kvs = Some (key, v).
Proof.
  unfold rank_hit. destruct (kvs !! rank key kvs) as [[k v]|]; [|done]. simpl.
  destruct (cmp k key) eqn:E; try done. apply cmp_eq_iff in E as ->. by exists v.
Qed.

Lemma rank_hit_elem key v kvs : ksorted kvs → (key, v) ∈ kvs → rank_hit key kvs = true.
Proof.
  intros Hs (j & Hj)%list_elem_of_lookup.
  pose proof (rank_at key _ _ _ Hs Hj eq_refl) as ->.
  unfold rank_hit. rewrite Hj. simpl. by rewrite cmp_refl.
Qed.

Lemma rank_hit_false key v kvs : ksorted kvs → rank_hit key kvs = false → (key, v) ∉ kvs.
Proof. intros Hs Hf Hin. by rewrite (rank_hit_elem _ _ _ Hs Hin) in Hf. Qed.

(** The keys not below [key] are the others. *)
Lemma filter_drop_rank key kvs :
  ksorted kvs → filter (λ e, le_b key e.1 = true) kvs = drop (rank key kvs) kvs.
Proof.
  intros Hs. induction kvs as [|e l IH]; [done|]. apply ksorted_cons_inv in Hs as [Hs Ha].
  rewrite filter_cons. unfold rank. rewrite filter_cons. case_decide as Hd; case_decide as Hl.
  - exfalso. apply le_b_true in Hd as [Hd|Hd].
    + apply (cmp_lt_irrefl key). by eapply cmp_lt_trans.
    + subst key. by apply (cmp_lt_irrefl e.1).
  - rewrite filter_all, (filter_none (λ kv, cmp kv.1 key = Lt)); [done| |].
    + intros e' He' Hlt. apply Hl. eapply cmp_lt_trans; [|exact Hlt]. by apply Ha.
    + intros e' He'. apply le_b_true. left. eapply cmp_le_lt_trans; [exact Hd|]. by apply Ha.
  - cbn [length drop]. by apply IH.
  - exfalso. apply not_true_is_false, le_b_false in Hd. done.
Qed.

(** The comparison of a sorted list with any key is partitioned at the key's rank. *)
Lemma rank_partitioned {A} (f : A → KernelResult comparison) (l : list A) kvs key :
  ksorted kvs → length l = length kvs →
  (∀ j x kv, l !! j = Some x → kvs !! j = Some kv → f x = Ok (cmp kv.1 key)) →
  partitioned f l (rank key kvs) (rank_hit key kvs).
Proof.
  intros Hs Hlen Hf. split.
  { destruct (rank_hit key kvs) eqn:E.
    - apply rank_hit_true in E as [v ?%lookup_lt_Some]. lia.
    - pose proof (rank_le key kvs). lia. }
  intros j x Hx. destruct (lookup_lt_is_Some_2 kvs j) as [kv Hkv].
  { apply lookup_lt_Some in Hx. lia. }
  rewrite (Hf _ _ _ Hx Hkv). f_equal.
  pose proof (rank_spec key kvs j kv Hs Hkv) as Hj.
  case_decide as Hlt; [by apply Hj|]. case_decide as Hh.
  - destruct Hh as [[v Hv]%rank_hit_true ->]. simplify_eq. apply cmp_refl.
  - destruct (cmp kv.1 key) eqn:Ec; [|by destruct Hlt; apply Hj|done].
    apply cmp_eq_iff in Ec. exfalso. apply Hh. split; [|by eapply rank_at].
    destruct kv as [k v]. simplify_eq/=. eapply rank_hit_elem; [done|].
    by eapply list_elem_of_lookup_2.
Qed.

Lemma binary_search_rank {A} (f : A → KernelResult comparison) (l : list A) kvs key :
  ksorted kvs → length l = length kvs →
  (∀ j x kv, l !! j = Some x → kvs !! j = Some kv → f x = Ok (cmp kv.1 key)) →
  binary_search_by f l
  = Ok (if rank_hit key kvs then inl (rank key kvs) else inr (rank key kvs)).
Proof. intros Hs Hlen Hf. by apply binary_search_by_spec, rank_partitioned. Qed.
End rank.

(** ** [Cursor<Vec<u8>>] and [Read]

    A cursor is the bytes it has not read yet.  [read] fills a zeroed buffer of [n]
    bytes with what is left, [read_exact] fails when less than [n] bytes are left. *)

Definition cursor_is_empty (c : bytes) : bool :=
  match c with [] => true | _ => false end.

Definition cursor_read (n : nat) (c : bytes) : bytes * bytes :=
  (take n c ++ replicate (n - length c) x00, drop n c).

Arguments cursor_read : simpl never.

Definition cursor_read_exact (n : nat) (c : bytes) : KernelResult (bytes * bytes) :=
  if decide (n ≤ length c) then Ok (take n c, drop n c) else Err (Io UnexpectedEof).

Lemma cursor_read_app (a b : bytes) : cursor_read (length a) (a ++ b) = (a, b).
Proof.
  unfold cursor_read. rewrite take_app_length, drop_app_length, length_app.
  replace (_ - _) with 0 by lia. simpl. by rewrite app_nil_r.
Qed.
