(* ===== verification/Crates.v ===== *)
(** * Interfaces of the third-party crates

    The kernel calls crates that are not part of the repository.  Each is a class of
    operations, which the definitions of the components take as a parameter, and a
    class of laws: the documented behaviour the components rely on.  The last section
    gives one concrete instance of each interface, used to evaluate the models. *)

From S2P Require Import Prelude Std.
From Stdlib Require Import ZArith QArith Lia Strings.Byte Sorted.
From stdpp Require Import base list gmap sorting.

Set Default Goal Selector "!".

(** ** integer-encoding: [VarInt] for [u32], [FixedInt] for unsigned widths and [i8] *)

Class IntegerEncoding := {
  write_varint : Z → bytes;
  read_varint : bytes → option (Z * bytes);
  encode_fixed : nat → Z → bytes;
  decode_fixed : bytes → Z;
  encode_i8 : Z → byte;
  decode_i8 : byte → Z;
}.

Class IntegerEncodingLaws `{IntegerEncoding} : Prop := {
  read_write_varint v rest :
    (0 ≤ v < 2 ^ 32)%Z → read_varint (write_varint v ++ rest) = Some (v, rest);
  read_varint_consumes bs v rest :
    read_varint bs = Some (v, rest) → ∃ pre, pre ≠ [] ∧ bs = pre ++ rest;
  read_varint_range bs v rest :
    read_varint bs = Some (v, rest) → (0 ≤ v < 2 ^ 32)%Z;
  write_varint_nonempty v : write_varint v ≠ [];
  encode_fixed_length n v : length (encode_fixed n v) = n;
  decode_encode_fixed n v :
    (0 ≤ v < 2 ^ (8 * Z.of_nat n))%Z → decode_fixed (encode_fixed n v) = v;
  decode_fixed_range bs : (0 ≤ decode_fixed bs < 2 ^ (8 * Z.of_nat (length bs)))%Z;
  decode_encode_i8 v : (-128 ≤ v < 128)%Z → decode_i8 (encode_i8 v) = v;
  decode_i8_range b : (-128 ≤ decode_i8 b < 128)%Z;
}.

(** ** crc32fast *)

Class Crc32 := crc32_hash : bytes → Z.

Class Crc32Laws `{Crc32} : Prop :=
  crc32_range bs : (0 ≤ crc32_hash bs < 2 ^ 32)%Z.

(** ** lz4: a whole-buffer encoder and decoder *)

Class Lz4 := {
  lz4_encode : bytes → bytes;
  lz4_decode : bytes → option bytes;
}.

Class Lz4Laws `{Lz4} : Prop :=
  lz4_decode_encode bs : lz4_decode (lz4_encode bs) = Some bs.

(** ** itertools: [unique_by], [sorted_by_key], [group_by] *)

Class Itertools := {
  unique_by {A B : Type} `{EqDecision B} : (A → B) → list A → list A;
  sorted_by_key {A K : Type} `{Ord K} : (A → K) → list A → list A;
  sorted_unstable_by_key {A K : Type} `{Ord K} : (A → K) → list A → list A;
  group_by {A B : Type} `{EqDecision B} : (A → B) → list A → list (B * list A);
}.

Definition key_le `{Ord K} {A} (f : A → K) (x y : A) : Prop := le_b (f x) (f y) = true.

Class ItertoolsLaws `{Itertools} : Prop := {
  unique_by_nil {A B} `{EqDecision B} (f : A → B) : unique_by f [] = [];
  unique_by_cons {A B} `{EqDecision B} (f : A → B) x l :
    unique_by f (x :: l) = x :: filter (λ y, f y ≠ f x) (unique_by f l);
  sorted_by_key_perm {A K} `{OrdLaws K} (f : A → K) l : sorted_by_key f l ≡ₚ l;
  sorted_by_key_sorted {A K} `{OrdLaws K} (f : A → K) l :
    StronglySorted (key_le f) (sorted_by_key f l);
  sorted_by_key_stable {A K} `{OrdLaws K} (f : A → K) l k :
    filter (λ x, cmp (f x) k = Eq) (sorted_by_key f l)
    = filter (λ x, cmp (f x) k = Eq) l;
  sorted_unstable_by_key_perm {A K} `{OrdLaws K} (f : A → K) l :
    sorted_unstable_by_key f l ≡ₚ l;
  sorted_unstable_by_key_sorted {A K} `{OrdLaws K} (f : A → K) l :
    StronglySorted (key_le f) (sorted_unstable_by_key f l);
  group_by_nil {A B} `{EqDecision B} (f : A → B) : group_by f [] = [];
  group_by_cons {A B} `{EqDecision B} (f : A → B) x l :
    group_by f (x :: l) =
      match group_by f l with
      | (k, g) :: r => if decide (k = f x) then (k, x :: g) :: r
                       else (f x, [x]) :: (k, g) :: r
      | [] => [(f x, [x])]
      end;
}.

Section itertools_facts.
Context `{IT : Itertools} {ITL : ItertoolsLaws}.

Lemma unique_by_subset {A B} `{EqDecision B} (f : A → B) l x :
  x ∈ unique_by f l → x ∈ l.
Proof.
  induction l as [|y l IH]; [by rewrite unique_by_nil|].
  rewrite unique_by_cons, !elem_of_cons.
  intros [->|[_ Hx]%list_elem_of_filter]; [by left|right; by apply IH].
Qed.

(** Every key survives, with its first element. *)
Lemma unique_by_find {A B} `{EqDecision B} (f : A → B) l k :
  filter (λ x, f x = k) (unique_by f l) = option_list (head (filter (λ x, f x = k) l)).
Proof.
  induction l as [|y l IH]; [by rewrite unique_by_nil|].
  rewrite unique_by_cons, !filter_cons.
  rewrite list_filter_filter.
  case_decide as Hy; simpl.
  - f_equal. rewrite (list_filter_iff _ (λ _, False)); [|naive_solver].
    clear. by induction (unique_by f l).
  - rewrite (list_filter_iff _ (λ x, f x = k)); [done|naive_solver].
Qed.

Lemma unique_by_NoDup {A B} `{EqDecision B} (f : A → B) l : NoDup (f <$> unique_by f l).
Proof.
  induction l as [|y l IH]; [rewrite unique_by_nil; constructor|].
  rewrite unique_by_cons. simpl. constructor.
  - intros (x & Hx & [Hne _]%list_elem_of_filter)%list_elem_of_fmap. congruence.
  - clear -IH. induction (unique_by f l) as [|z r IHr]; [done|].
    rewrite fmap_cons in IH. apply NoDup_cons in IH as [Hz Hr].
    rewrite filter_cons. case_decide; [|by apply IHr].
    rewrite fmap_cons. constructor; [|by apply IHr].
    intros (x & Hx & [_ Hin]%list_elem_of_filter)%list_elem_of_fmap.
    apply Hz. rewrite Hx. by apply list_elem_of_fmap_2.
Qed.

(** Sorting pairs with distinct keys by key gives a strictly sorted list. *)
Lemma sorted_distinct_ksorted `{OrdLaws K} {V} (l : list (K * V)) :
  StronglySorted (key_le fst) l → NoDup l.*1 → ksorted l.
Proof.
  induction 1 as [|a l Hl IH Ha]; [constructor|]. simpl. rewrite NoDup_cons.
  intros [Hn Hd]. apply ksorted_cons; [by apply IH|]. intros b Hb.
  rewrite Forall_forall in Ha. specialize (Ha b Hb). unfold key_le in Ha.
  apply le_b_true in Ha as [|Heq]; [done|]. exfalso. apply Hn. rewrite Heq.
  by apply list_elem_of_fmap_2.
Qed.

Lemma sorted_unstable_ksorted `{OrdLaws K} {V} (l : list (K * V)) :
  NoDup l.*1 → ksorted (sorted_unstable_by_key fst l).
Proof.
  intros Hd. apply sorted_distinct_ksorted; [apply sorted_unstable_by_key_sorted|].
  by rewrite sorted_unstable_by_key_perm.
Qed.
(** A list without repetitions is left as it is. *)
Lemma unique_by_id {A B} `{EqDecision B} (f : A → B) l : NoDup (f <$> l) → unique_by f l = l.
Proof.
  induction l as [|x l IH]; [by rewrite unique_by_nil|]. rewrite fmap_cons, NoDup_cons.
  intros [Hx Hl]. rewrite unique_by_cons, IH by done. f_equal. apply filter_all.
  intros y Hy E. apply Hx. rewrite <- E. by apply list_elem_of_fmap_2.
Qed.

(** A list that is sorted already is left as it is. *)
Lemma key_sorted_unique `{OrdLaws K} {A} (f : A → K) (l1 l2 : list A) :
  StronglySorted (key_le f) l1 → StronglySorted (key_le f) l2 → l1 ≡ₚ l2 →
  (∀ k, filter (λ x, cmp (f x) k = Eq) l1 = filter (λ x, cmp (f x) k = Eq) l2) → l1 = l2.
Proof.
  intros H1. revert l2. induction H1 as [|x l1 Hl1 IH Hx]; intros l2 H2 Hp Hf.
  { by apply Permutation_nil_l in Hp. }
  destruct H2 as [|y l2 Hl2 Hy]; [by apply Permutation_nil_r in Hp|].
  rewrite Forall_forall in Hx, Hy.
  assert (f x = f y) as Exy.
  { apply le_b_antisym.
    - assert (y ∈ x :: l1) as [->|Hin]%elem_of_cons by (rewrite Hp; by left);
        [apply le_b_refl|by apply Hx].
    - assert (x ∈ y :: l2) as [->|Hin]%elem_of_cons by (rewrite <- Hp; by left);
        [apply le_b_refl|by apply Hy]. }
  assert (x = y) as ->.
  { specialize (Hf (f x)). rewrite !filter_cons_True in Hf by (rewrite ?Exy; apply cmp_refl).
    by simplify_eq. }
  f_equal. apply IH; [done|by apply Permutation_cons_inv in Hp|].
  intros k. specialize (Hf k). rewrite !filter_cons in Hf. case_decide; by simplify_eq.
Qed.

Lemma sorted_by_key_id `{OrdLaws K} {A} (f : A → K) (l : list A) :
  StronglySorted (key_le f) l → sorted_by_key f l = l.
Proof.
  intros Hs. apply (key_sorted_unique f); [apply sorted_by_key_sorted|done| |].
  - apply sorted_by_key_perm.
  - intros k. apply sorted_by_key_stable.
Qed.
End itertools_facts.

(** ** skiplist: [SkipMap]

    An ordered map: [iter] walks the entries in key order, [insert] adds an entry or
    replaces the value of an existing key, [range], [lower_bound] (the first entry
    above a bound) and [upper_bound] (the last entry below a bound) select entries. *)

Class SkipMapOps (K V : Type) `{Ord K} := {
  skipmap : Type;
  sm_new : skipmap;
  sm_insert : K → V → skipmap → skipmap;
  sm_iter : skipmap → list (K * V);
  sm_range : Bound K → Bound K → skipmap → list (K * V);
  sm_lower_bound : Bound K → skipmap → option (K * V);
  sm_upper_bound : Bound K → skipmap → option (K * V);
  sm_len : skipmap → nat;
  sm_is_empty : skipmap → bool;
}.
Arguments skipmap K V {_ _}.

Class SkipMapLaws (K V : Type) `{SkipMapOps K V} : Prop := {
  sm_iter_sorted m : ksorted (sm_iter m);
  sm_iter_new : sm_iter sm_new = [];
  sm_iter_insert k v m : sm_iter (sm_insert k v m) = btree_insert k v (sm_iter m);
  sm_range_spec lo hi m :
    sm_range lo hi m = filter (λ e, in_range lo hi e.1 = true) (sm_iter m);
  sm_lower_bound_spec b m :
    sm_lower_bound b m = head (filter (λ e, above b e.1 = true) (sm_iter m));
  sm_upper_bound_spec b m :
    sm_upper_bound b m = last (filter (λ e, below b e.1 = true) (sm_iter m));
  sm_len_spec m : sm_len m = length (sm_iter m);
  sm_is_empty_spec m : sm_is_empty m = true ↔ sm_iter m = [];
}.

(** [SkipMap::from_iter] inserts the elements in turn. *)
Definition sm_from_iter `{SkipMapOps K V} (l : list (K * V)) : skipmap K V :=
  fold_left (λ m kv, sm_insert kv.1 kv.2 m) l sm_new.

Lemma sm_iter_from_iter `{SkipMapLaws K V} (l : list (K * V)) :
  sm_iter (sm_from_iter l) = btree_from_iter l.
Proof.
  induction l as [|[k v] l IH] using rev_ind; [apply sm_iter_new|].
  unfold sm_from_iter. rewrite fold_left_app. simpl.
  rewrite sm_iter_insert, btree_from_iter_snoc. by f_equal.
Qed.

(** ** bincode: [serialize] and [deserialize] of a value *)

Class Bincode (T : Type) := {
  serialize : T → bytes;
  deserialize : bytes → option T;
}.

Class BincodeLaws (T : Type) `{Bincode T} : Prop := {
  deserialize_serialize x : deserialize (serialize x) = Some x;
  serialize_nonempty x : serialize x ≠ [];
  deserialize_nil : deserialize [] = None;
}.

(** ** std's [DefaultHasher], whose algorithm the documentation leaves open

    The 64-bit hash of a seed followed by the bytes written. *)

Class DefaultHasher := default_hash : Z → bytes → Z.

Class DefaultHasherLaws `{DefaultHasher} : Prop :=
  default_hash_range s bs : (0 ≤ default_hash s bs < 2 ^ 64)%Z.

(** ** [f64]: the operations the program uses, whose rounding (and, for the logarithms,
    precision) depends on the platform *)

Class F64 := {
  f64 : Type;
  f64_literal : Q → f64;
  f64_from_usize : nat → f64;
  f64_mul : f64 → f64 → f64;
  f64_div : f64 → f64 → f64;
  f64_powf : f64 → f64 → f64;
  f64_ln : f64 → f64;
  f64_log2 : f64 → f64;
  f64_ceil : f64 → f64;
  f64_as_u64 : f64 → Z;
  f64_LN_2 : f64;
}.

Class F64Laws `{F64} : Prop :=
  f64_as_u64_range x : (0 ≤ f64_as_u64 x < 2 ^ 64)%Z.

(** ** Concrete instances

    One function per interface, with its laws proved: little-endian base-128 and
    fixed-width integers, a checksum, a framed copy for the compressor, insertion
    sort, and a skip map kept as the list of its insertions. *)

Module Reference.

Fixpoint leb128 (fuel : nat) (v : Z) : bytes :=
  match fuel with
  | O => [byte_of_Z v]
  | S fuel' =>
      if decide (v < 128)%Z then [byte_of_Z v]
      else byte_of_Z (v `mod` 128 + 128) :: leb128 fuel' (v / 128)%Z
  end.

Fixpoint leb128_read (bs : bytes) : option (Z * bytes) :=
  match bs with
  | [] => None
  | b :: bs' =>
      if decide (byte_to_Z b < 128)%Z then Some (byte_to_Z b, bs')
      else match leb128_read bs' with
           | Some (v, r) => Some (byte_to_Z b - 128 + 128 * v, r)%Z
           | None => None
           end
  end.

Lemma leb128_roundtrip fuel v rest :
  (0 ≤ v < 128 ^ (Z.of_nat fuel + 1))%Z → leb128_read (leb128 fuel v ++ rest) = Some (v, rest).
Proof.
  revert v. induction fuel as [|fuel IH]; intros v Hv.
  - change (128 ^ (Z.of_nat 0 + 1))%Z with 128%Z in Hv. simpl.
    rewrite byte_to_of_Z, Z.mod_small, decide_True by lia. done.
  - simpl. case_decide as Hlt; simpl; rewrite byte_to_of_Z.
    + rewrite Z.mod_small, decide_True by lia. done.
    + pose proof (Z.mod_pos_bound v 128 ltac:(lia)).
      rewrite (Z.mod_small (_ + 128)), decide_False by lia.
      rewrite IH.
      * f_equal. f_equal. pose proof (Z.div_mod v 128). lia.
      * split; [apply Z.div_pos; lia|]. apply Z.div_lt_upper_bound; [lia|].
        replace (Z.of_nat (S fuel) + 1)%Z with (Z.succ (Z.of_nat fuel + 1)) in Hv by lia.
        rewrite Z.pow_succ_r in Hv by lia. lia.
Qed.

Lemma leb128_read_consumes bs v rest :
  leb128_read bs = Some (v, rest) → (0 ≤ v)%Z ∧ ∃ pre, pre ≠ [] ∧ bs = pre ++ rest.
Proof.
  revert v. induction bs as [|b bs IH]; intros v; [done|]. simpl.
  pose proof (byte_to_Z_range b). case_decide.
  - intros ?; simplify_eq. split; [lia|]. by exists [b].
  - destruct (leb128_read bs) as [[v' r]|]; [|done]. intros ?; simplify_eq.
    destruct (IH v' eq_refl) as (Hv & pre & Hpre & ->).
    split; [lia|]. by exists (b :: pre).
Qed.

Fixpoint le_bytes (n : nat) (v : Z) : bytes :=
  match n with
  | O => []
  | S n' => byte_of_Z v :: le_bytes n' (v / 256)%Z
  end.

Fixpoint le_value (bs : bytes) : Z :=
  match bs with
  | [] => 0
  | b :: bs' => byte_to_Z b + 256 * le_value bs'
  end%Z.

Lemma le_bytes_length n v : length (le_bytes n v) = n.
Proof. revert v. induction n as [|n IH]; intros v; [done|]. simpl. by rewrite IH. Qed.

Lemma pow_256_succ n : (2 ^ (8 * Z.of_nat (S n)) = 256 * 2 ^ (8 * Z.of_nat n))%Z.
Proof.
  replace (8 * Z.of_nat (S n))%Z with (8 + 8 * Z.of_nat n)%Z by lia.
  by rewrite Z.pow_add_r by lia.
Qed.

Lemma le_value_le_bytes n v :
  (0 ≤ v < 2 ^ (8 * Z.of_nat n))%Z → le_value (le_bytes n v) = v.
Proof.
  revert v. induction n as [|n IH]; intros v Hv.
  - change (2 ^ (8 * Z.of_nat 0))%Z with 1%Z in Hv. simpl. lia.
  - rewrite pow_256_succ in Hv. simpl. rewrite byte_to_of_Z, IH.
    + pose proof (Z.div_mod v 256). lia.
    + split; [apply Z.div_pos; lia|]. apply Z.div_lt_upper_bound; lia.
Qed.

Lemma le_value_range bs : (0 ≤ le_value bs < 2 ^ (8 * Z.of_nat (length bs)))%Z.
Proof.
  induction bs as [|b bs IH]; [done|]. cbn [length]. rewrite pow_256_succ. simpl.
  pose proof (byte_to_Z_range b). lia.
Qed.

#[export] Instance integer_encoding : IntegerEncoding := {
  write_varint := leb128 4;
  read_varint bs :=
    match leb128_read bs with
    | Some (v, r) => if decide (v < 2 ^ 32)%Z then Some (v, r) else None
    | None => None
    end;
  encode_fixed := le_bytes;
  decode_fixed := le_value;
  encode_i8 := byte_of_Z;
  decode_i8 b := if decide (byte_to_Z b < 128)%Z then byte_to_Z b else (byte_to_Z b - 256)%Z;
}.

#[export] Instance integer_encoding_laws : IntegerEncodingLaws.
Proof.
  split; cbn -[Z.pow leb128].
  - intros v rest Hv. rewrite leb128_roundtrip by lia. by rewrite decide_True by lia.
  - intros bs v rest. destruct (leb128_read bs) as [[v' r]|] eqn:E; [|done].
    case_decide; [|done]. intros ?; simplify_eq. by apply leb128_read_consumes in E as [].
  - intros bs v rest. destruct (leb128_read bs) as [[v' r]|] eqn:E; [|done].
    case_decide; [|done]. intros ?; simplify_eq. apply leb128_read_consumes in E as []. lia.
  - intros v. simpl. by case_decide.
  - apply le_bytes_length.
  - apply le_value_le_bytes.
  - apply le_value_range.
  - intros v Hv. rewrite byte_to_of_Z.
    destruct (decide (0 ≤ v)%Z).
    + rewrite Z.mod_small by lia. rewrite decide_True by lia. done.
    + rewrite <- (Z.mod_unique v 256 (-1) (v + 256)) by lia. rewrite decide_False by lia. lia.
  - intros b. pose proof (byte_to_Z_range b). case_decide; lia.
Qed.

#[export] Instance crc32 : Crc32 :=
  λ bs, (fold_left (λ a b, (a * 31 + byte_to_Z b + 1) `mod` 2 ^ 32) bs 7)%Z.

#[export] Instance crc32_laws : Crc32Laws.
Proof.
  intros bs. unfold crc32_hash, crc32.
  apply (fold_left_inv (λ a, 0 ≤ a < 2 ^ 32)%Z); [lia|].
  intros a b _ _. apply Z.mod_pos_bound. lia.
Qed.

#[export] Instance lz4 : Lz4 := {
  lz4_encode bs := x04 :: bs;
  lz4_decode bs := match bs with x04 :: bs' => Some bs' | _ => None end;
}.

#[export] Instance lz4_laws : Lz4Laws.
Proof. by intros bs. Qed.

Section itertools.
Context {A : Type}.

Fixpoint uniq {B} `{EqDecision B} (f : A → B) (l : list A) : list A :=
  match l with
  | [] => []
  | x :: l' => x :: filter (λ y, f y ≠ f x) (uniq f l')
  end.

Fixpoint insert_by {K} `{Ord K} (f : A → K) (x : A) (l : list A) : list A :=
  match l with
  | [] => [x]
  | y :: l' => if le_b (f x) (f y) then x :: l else y :: insert_by f x l'
  end.

Definition isort {K} `{Ord K} (f : A → K) (l : list A) : list A :=
  foldr (insert_by f) [] l.

Fixpoint groups {B} `{EqDecision B} (f : A → B) (l : list A) : list (B * list A) :=
  match l with
  | [] => []
  | x :: l' =>
      match groups f l' with
      | (k, g) :: r => if decide (k = f x) then (k, x :: g) :: r
                       else (f x, [x]) :: (k, g) :: r
      | [] => [(f x, [x])]
      end
  end.

Context `{OrdLaws K} (f : A → K).

Lemma insert_by_perm x l : insert_by f x l ≡ₚ x :: l.
Proof.
  induction l as [|y l IH]; [done|]. simpl. destruct (le_b _ _); [done|].
  rewrite IH. by rewrite Permutation_swap.
Qed.

Lemma isort_perm l : isort f l ≡ₚ l.
Proof. induction l as [|x l IH]; [done|]. simpl. by rewrite insert_by_perm, IH. Qed.

Lemma insert_by_sorted x l :
  StronglySorted (key_le f) l → StronglySorted (key_le f) (insert_by f x l).
Proof.
  induction 1 as [|y l Hl IH Hy]; simpl; [by repeat constructor|].
  destruct (le_b (f x) (f y)) eqn:E.
  - constructor; [by constructor|]. constructor; [done|].
    eapply Forall_impl; [done|]. intros z Hz. by eapply le_b_trans.
  - constructor; [done|]. rewrite insert_by_perm. constructor; [|done].
    apply le_b_false in E. by apply cmp_lt_le.
Qed.

Lemma isort_sorted l : StronglySorted (key_le f) (isort f l).
Proof. induction l as [|x l IH]; [constructor|]. by apply insert_by_sorted. Qed.

Lemma insert_by_filter x l k :
  filter (λ y, cmp (f y) k = Eq) (insert_by f x l)
  = filter (λ y, cmp (f y) k = Eq) (x :: l).
Proof.
  induction l as [|y l IH]; [done|]. cbn [insert_by].
  destruct (le_b (f x) (f y)) eqn:E; [done|].
  rewrite filter_cons, IH, !filter_cons. apply le_b_false in E.
  case_decide as H1; case_decide as H2; [|done..].
  apply cmp_eq_iff in H1, H2. rewrite H1, H2 in E. by apply cmp_lt_irrefl in E.
Qed.

Lemma isort_stable l k :
  filter (λ y, cmp (f y) k = Eq) (isort f l) = filter (λ y, cmp (f y) k = Eq) l.
Proof.
  induction l as [|x l IH]; [done|]. simpl isort.
  by rewrite insert_by_filter, !filter_cons, IH.
Qed.
End itertools.

#[export] Instance itertools : Itertools := {
  unique_by _ _ _ := uniq;
  sorted_by_key _ _ _ := isort;
  sorted_unstable_by_key _ _ _ := isort;
  group_by _ _ _ := groups;
}.

#[export] Instance itertools_laws : ItertoolsLaws.
Proof.
  split; intros; try done;
    first [apply isort_perm | apply isort_sorted | apply isort_stable].
Qed.

#[export] Instance skipmap_ops {K V} `{Ord K} : SkipMapOps K V := {
  skipmap := list (K * V);
  sm_new := [];
  sm_insert k v m := m ++ [(k, v)];
  sm_iter := btree_from_iter;
  sm_range lo hi m := btree_range lo hi (btree_from_iter m);
  sm_lower_bound b m := head (filter (λ e, above b e.1 = true) (btree_from_iter m));
  sm_upper_bound b m := last (filter (λ e, below b e.1 = true) (btree_from_iter m));
  sm_len m := length (btree_from_iter m);
  sm_is_empty m := match btree_from_iter m with [] => true | _ => false end;
}.

#[export] Instance skipmap_laws {K V} `{OrdLaws K} : SkipMapLaws K V.
Proof.
  split; simpl; intros; try done.
  - apply btree_from_iter_sorted.
  - apply btree_from_iter_snoc.
  - by destruct (btree_from_iter m).
Qed.

(** A serialisation of any countable type: the digits of its code. *)
Fixpoint pos_bytes (p : positive) : bytes :=
  match p with
  | xH => []
  | xO p' => x00 :: pos_bytes p'
  | xI p' => x01 :: pos_bytes p'
  end.

Fixpoint bytes_pos (bs : bytes) : option positive :=
  match bs with
  | [] => Some xH
  | x00 :: bs' => xO <$> bytes_pos bs'
  | x01 :: bs' => xI <$> bytes_pos bs'
  | _ => None
  end.

Lemma bytes_pos_bytes p : bytes_pos (pos_bytes p) = Some p.
Proof. induction p as [p IH|p IH|]; cbn; by rewrite ?IH. Qed.

#[export] Instance bincode {T} `{Countable T} : Bincode T := {
  serialize x := x01 :: pos_bytes (encode x);
  deserialize bs := match bs with _ :: bs' => bytes_pos bs' ≫= decode | [] => None end;
}.

#[export] Instance bincode_laws {T} `{Countable T} : BincodeLaws T.
Proof.
  split; [|done..]. intros x. cbn. rewrite bytes_pos_bytes. cbn. apply decode_encode.
Qed.

#[export] Instance byte_countable : Countable byte.
Proof.
  refine (inj_countable' byte_to_Z byte_of_Z _). apply byte_of_to_Z.
Defined.

#[export] Instance hasher : DefaultHasher :=
  λ s bs, (fold_left (λ a b, (a * 1099511628211 + byte_to_Z b + 1) `mod` 2 ^ 64) bs (s `mod` 2 ^ 64))%Z.

#[export] Instance hasher_laws : DefaultHasherLaws.
Proof.
  intros s bs. unfold default_hash, hasher.
  apply (fold_left_inv (λ a, 0 ≤ a < 2 ^ 64)%Z); [apply Z.mod_pos_bound; lia|].
  intros a b _ _. apply Z.mod_pos_bound. lia.
Qed.

(** Rationals, with one term of the series of the logarithm. *)
#[export] Instance float64 : F64 := {
  f64 := Q;
  f64_literal q := q;
  f64_from_usize n := inject_Z (Z.of_nat n);
  f64_mul := Qmult;
  f64_div := Qdiv;
  f64_powf x y := Qpower x (Qnum y);
  f64_ln x := (2 * (x - 1) / (x + 1))%Q;
  f64_log2 x := (3 * (x - 1) / (x + 1))%Q;
  f64_ceil x := inject_Z (- (Qnum (- x) / Zpos (Qden x)));
  f64_as_u64 x := (Z.max 0 (Qnum x / Zpos (Qden x)) `min` (2 ^ 64 - 1))%Z;
  f64_LN_2 := (69 # 100)%Q;
}.

#[export] Instance float64_laws : F64Laws.
Proof. intros x. unfold f64_as_u64, float64. lia. Qed.

End Reference.
