(* ===== verification/Block.v ===== *)
(** * Blocks: the storage unit of an SSTable
    (src/kernel/lsm/table/ss_table/block.rs)

    Entries and their serialisation, prefix-compressed blocks with their binary
    search, the CRC-framed raw form, and the block builder that cuts a sorted run of
    key-value pairs into data blocks plus one index block.

    A [Vec<u8>] that is written to is passed as the bytes written so far; writing to a
    [Vec] cannot fail, so the encoders return the extended buffer. *)

From S2P Require Import Prelude Std Crates.
From Stdlib Require Import ZArith Lia Strings.Byte Sorted.
From stdpp Require Import base list gmap.

Set Default Goal Selector "!".

Definition DEFAULT_BLOCK_SIZE : nat := 4 * 1024.
Definition DEFAULT_DATA_RESTART_INTERVAL : nat := 16.
Definition DEFAULT_INDEX_RESTART_INTERVAL : nat := 2.
Definition CRC_SIZE : nat := 4.

(** ** Entries and their items *)

Record Entry (T : Type) := mkEntry {
  unshared_len : nat;
  shared_len : nat;
  e_key : bytes;
  e_item : T;
}.
Arguments mkEntry {T} _ _ _ _.
Arguments unshared_len {T} _.
Arguments shared_len {T} _.
Arguments e_key {T} _.
Arguments e_item {T} _.

Record Value := mkValue {
  value_len : nat;
  v_bytes : option bytes;
}.

Definition value_from (b : option bytes) : Value :=
  {| value_len := match b with Some bs => length bs | None => 0 end; v_bytes := b |}.

Record Index := mkIndex {
  i_offset : Z;
  i_len : nat;
}.

Definition entry_new {T} (shared unshared : nat) (key : bytes) (item : T) : Entry T :=
  {| unshared_len := unshared; shared_len := shared; e_key := key; e_item := item |}.

(** The trait [BlockItem]: what a block can hold. *)
Class BlockItem (T : Type) := {
  item_decode : bytes → KernelResult (T * bytes);
  item_encode : T → bytes → bytes;
}.

Definition read_u32 `{IntegerEncoding} (c : bytes) : KernelResult (nat * bytes) :=
  match read_varint c with
  | Some (v, c') => Ok (Z.to_nat v, c')
  | None => Err (Io UnexpectedEof)
  end.

Section items.
Context `{IE : IntegerEncoding}.

Definition value_decode (c : bytes) : KernelResult (Value * bytes) :=
  let? (vlen, c1) := read_u32 c in
  if decide (0 < vlen) then
    let '(value, c2) := cursor_read vlen c1 in
    Ok ({| value_len := vlen; v_bytes := Some value |}, c2)
  else Ok ({| value_len := vlen; v_bytes := None |}, c1).

Definition value_encode (v : Value) (bs : bytes) : bytes :=
  bs ++ write_varint (as_u32 (value_len v))
     ++ match v_bytes v with Some value => value | None => [] end.

#[global] Instance value_item : BlockItem Value := {
  item_decode := value_decode;
  item_encode := value_encode;
}.

Definition index_decode (c : bytes) : KernelResult (Index * bytes) :=
  match read_varint c with
  | Some (off, c1) =>
      let? (len, c2) := read_u32 c1 in
      Ok ({| i_offset := off; i_len := len |}, c2)
  | None => Err (Io UnexpectedEof)
  end.

Definition index_encode (i : Index) (bs : bytes) : bytes :=
  bs ++ write_varint (i_offset i) ++ write_varint (as_u32 (i_len i)).

#[global] Instance index_item : BlockItem Index := {
  item_decode := index_decode;
  item_encode := index_encode;
}.

Context {T : Type} {BI : BlockItem T}.

Definition entry_encode (e : Entry T) (bs : bytes) : bytes :=
  item_encode (e_item e)
    (bs ++ write_varint (as_u32 (unshared_len e))
        ++ write_varint (as_u32 (shared_len e)) ++ e_key e).

Definition entry_decode (c : bytes) : KernelResult (Entry T * bytes) :=
  let? (ulen, c1) := read_u32 c in
  let? (slen, c2) := read_u32 c1 in
  let '(key, c3) := cursor_read ulen c2 in
  let? (item, c4) := item_decode c3 in
  Ok ({| unshared_len := ulen; shared_len := slen; e_key := key; e_item := item |}, c4).

(** The decoding loop; every entry takes at least one byte, so the number of bytes
    bounds the number of rounds. *)
Fixpoint batch_decode_loop (fuel index : nat) (c : bytes)
    : KernelResult (list (nat * Entry T)) :=
  match fuel with
  | O => Panic
  | S fuel' =>
      if cursor_is_empty c then Ok []
      else
        let? (e, c') := entry_decode c in
        let? rest := batch_decode_loop fuel' (index + 1) c' in
        Ok ((index, e) :: rest)
  end.

Definition batch_decode (c : bytes) : KernelResult (list (nat * Entry T)) :=
  batch_decode_loop (S (length c)) 0 c.
End items.

(** ** Blocks *)

Inductive CompressType : Type :=
  | CompressNone
  | CompressLZ4.

Record Block (T : Type) := mkBlock {
  restart_interval : nat;
  vec_entry : list (nat * Entry T);
}.
Arguments mkBlock {T} _ _.
Arguments restart_interval {T} _.
Arguments vec_entry {T} _.

Section block.
Context {T : Type}.

Definition get_entry (b : Block T) (index : nat) : KernelResult (Entry T) :=
  or_panic (snd <$> vec_entry b !! index).

Definition entry_len (b : Block T) : nat := length (vec_entry b).

(** [&key[0..n]] *)
Definition slice_to (n : nat) (key : bytes) : KernelResult bytes :=
  if decide (n ≤ length key) then Ok (take n key) else Panic.

Definition shared_key_prefix (b : Block T) (index slen : nat) : KernelResult bytes :=
  if decide (restart_interval b = 0) then Panic
  else
    let? e := get_entry b (index - index `mod` restart_interval b) in
    slice_to slen (e_key e).

Definition restart_shared_len (b : Block T) (index : nat) : KernelResult nat :=
  if decide (restart_interval b = 0) then Panic
  else if decide (index `mod` restart_interval b ≠ 0) then
    let? e := get_entry b index in Ok (shared_len e)
  else
    Ok (match vec_entry b !! (index + 1) with
        | Some (_, e) => shared_len e
        | None => 0
        end).

(** *** Shared prefixes *)

(** [first.0[i] != kv.0[i]] for [i] below [len]; the caller keeps [len] within every
    key ([longest_shared_len_le]), so no index is out of range. *)
Definition is_common_prefix (sharding : list (bytes * T)) (len : nat) : bool :=
  match sharding with
  | [] => true
  | first :: rest =>
      forallb (λ kv, forallb (λ i, bool_decide (first.1 !! i = kv.1 !! i)) (seq 0 len)) rest
  end.

Fixpoint shared_len_loop (fuel : nat) (sharding : list (bytes * T)) (low high : nat) : nat :=
  match fuel with
  | O => low
  | S fuel' =>
      if decide (low < high) then
        let mid := (high - low + 1) / 2 + low in
        if is_common_prefix sharding mid then shared_len_loop fuel' sharding mid high
        else shared_len_loop fuel' sharding low (mid - 1)
      else low
  end.

(** The fold starts from [usize::MAX], which no key length exceeds, so from the
    first key's length. *)
Definition min_key_len (sharding : list (bytes * T)) : nat :=
  match sharding with
  | [] => 0
  | kv :: rest => fold_left (λ m kv, min m (length kv.1)) rest (length kv.1)
  end.

Definition longest_shared_len (sharding : list (bytes * T)) : nat :=
  match sharding with
  | [] => 0
  | _ => shared_len_loop (min_key_len sharding) sharding 0 (min_key_len sharding)
  end.

Context `{IT : Itertools}.

Definition sharding_shared_len (vec_kv : list (bytes * T)) (interval : nat) : list nat :=
  (λ g : nat * list (nat * (bytes * T)), longest_shared_len g.2.*2)
    <$> group_by (λ p : nat * (bytes * T), p.1 / interval) (enumerate vec_kv).

Definition block_new (vec_kv : list (bytes * T)) (interval : nat) : KernelResult (Block T) :=
  if decide (interval = 0) then Panic
  else
    let vec_sharding_len := sharding_shared_len vec_kv interval in
    let? entries :=
      res_mapM
        (λ '(index, (key, item)),
          let? slen :=
            if decide (index `mod` interval = 0) then Ok 0
            else or_panic (vec_sharding_len !! (index / interval)) in
          let? ulen := usize_sub (length key) slen in
          Ok (index, entry_new slen ulen (drop slen key) item))
        (enumerate vec_kv) in
    Ok {| restart_interval := interval; vec_entry := entries |}.

(** *** Search *)

Definition entry_cmp (b : Block T) (key : bytes) (ie : nat * Entry T)
    : KernelResult comparison :=
  let '(index, entry) := ie in
  let? c :=
    if decide (0 < shared_len entry) then
      let slen := min (shared_len entry) (length key) in
      let? prefix := shared_key_prefix b index slen in
      Ok (then_with (cmp (take slen key) prefix) (cmp (drop slen key) (e_key entry)))
    else Ok (cmp key (e_key entry)) in
  Ok (CompOpp c).

Definition block_binary_search (b : Block T) (key : bytes) : KernelResult (nat + nat) :=
  binary_search_by (entry_cmp b key) (vec_entry b).

Definition find_with_upper (b : Block T) (key : bytes) : KernelResult T :=
  let entries_len := length (vec_entry b) in
  let? r := block_binary_search b key in
  let? index :=
    match r with
    | inl index => Ok index
    | inr index => let? last := usize_sub entries_len 1 in Ok (min last index)
    end in
  let? e := get_entry b index in
  Ok (e_item e).
End block.

(** [Block<Value>::find]: the value and whether the key exists. *)
Definition block_find (b : Block Value) (key : bytes) : KernelResult (option bytes * bool) :=
  let? r := block_binary_search b key in
  Ok (match r with
      | inl index =>
          match vec_entry b !! index with
          | Some (_, e) => (v_bytes (e_item e), true)
          | None => (None, false)
          end
      | inr _ => (None, false)
      end).

(** ** The raw form *)

Section raw.
Context {T : Type} `{IE : IntegerEncoding} {BI : BlockItem T} {CRC : Crc32} {LZ : Lz4}.

Definition to_raw (b : Block T) (bs : bytes) : bytes :=
  let start := length bs in
  let written := fold_left (λ acc ie, entry_encode ie.2 acc) (vec_entry b) bs in
  written ++ encode_fixed 4 (crc32_hash (drop start written)).

(** The check compares the checksum of the whole buffer, checksum included, with the
    stored one, and fails when they are equal. *)
Definition from_raw (buf : bytes) (interval : nat) : KernelResult (Block T) :=
  if decide (buf = []) then Panic
  else
    let? data_len := usize_sub (length buf) CRC_SIZE in
    if decide (crc32_hash buf = decode_fixed (drop data_len buf)) then Err CrcMisMatch
    else
      let? entries := batch_decode (take data_len buf) in
      Ok {| restart_interval := interval; vec_entry := entries |}.

Definition block_encode (b : Block T) (ct : CompressType) (bs : bytes) : bytes :=
  match ct with
  | CompressNone => to_raw b bs
  | CompressLZ4 => bs ++ lz4_encode (to_raw b [])
  end.

Definition block_decode (buf : bytes) (ct : CompressType) (interval : nat)
    : KernelResult (Block T) :=
  let? buf' :=
    match ct with
    | CompressNone => Ok buf
    | CompressLZ4 => match lz4_decode buf with
                     | Some d => Ok d
                     | None => Err (Io OtherIo)
                     end
    end in
  from_raw buf' interval.
End raw.

(** ** The builder *)

Record BlockOptions := mkBlockOptions {
  opt_block_size : nat;
  opt_compress_type : CompressType;
  opt_data_restart_interval : nat;
  opt_index_restart_interval : nat;
}.

Definition block_options_new : BlockOptions := {|
  opt_block_size := DEFAULT_BLOCK_SIZE;
  opt_compress_type := CompressNone;
  opt_data_restart_interval := DEFAULT_DATA_RESTART_INTERVAL;
  opt_index_restart_interval := DEFAULT_INDEX_RESTART_INTERVAL;
|}.

Record BlockBuf := mkBlockBuf {
  buf_bytes_size : nat;
  buf_kvs : list (bytes * Value);
}.

Definition block_buf_new : BlockBuf := {| buf_bytes_size := 0; buf_kvs := [] |}.

(** The space a key-value pair takes (the [Value] form of [key_value_bytes_len]). *)
Definition value_bytes_len (kv : bytes * Value) : nat :=
  length kv.1 + match v_bytes kv.2 with Some v => length v | None => 0 end.

Definition block_buf_last_key (b : BlockBuf) : option bytes := fst <$> last (buf_kvs b).

Definition block_buf_add (b : BlockBuf) (kv : bytes * Value) : KernelResult BlockBuf :=
  if match block_buf_last_key b with Some k => lt_b k kv.1 | None => true end then
    Ok {| buf_bytes_size := buf_bytes_size b + value_bytes_len kv;
          buf_kvs := buf_kvs b ++ [kv] |}
  else Panic.

Definition block_buf_flush (b : BlockBuf) : list (bytes * Value) * option bytes * BlockBuf :=
  (buf_kvs b, block_buf_last_key b, block_buf_new).

Record BlockBuilder := mkBlockBuilder {
  bb_options : BlockOptions;
  bb_len : nat;
  bb_buf : BlockBuf;
  bb_vec_block : list (Block Value * bytes);
}.

Definition block_builder_new (o : BlockOptions) : BlockBuilder :=
  {| bb_options := o; bb_len := 0; bb_buf := block_buf_new; bb_vec_block := [] |}.

Section builder.
Context `{IE : IntegerEncoding} {CRC : Crc32} {LZ : Lz4} {IT : Itertools}.

Definition is_out_of_byte (b : BlockBuilder) : bool :=
  bool_decide (opt_block_size (bb_options b) ≤ buf_bytes_size (bb_buf b)).

(** [_build]: the buffered pairs become a block. *)
Definition builder_flush (b : BlockBuilder) : KernelResult BlockBuilder :=
  match block_buf_flush (bb_buf b) with
  | (vec_kv, Some last_key, buf) =>
      let? blk := block_new vec_kv (opt_data_restart_interval (bb_options b)) in
      Ok {| bb_options := bb_options b; bb_len := bb_len b; bb_buf := buf;
            bb_vec_block := bb_vec_block b ++ [(blk, last_key)] |}
  | (_, None, buf) =>
      Ok {| bb_options := bb_options b; bb_len := bb_len b; bb_buf := buf;
            bb_vec_block := bb_vec_block b |}
  end.

Definition builder_add (b : BlockBuilder) (kv : bytes * Value) : KernelResult BlockBuilder :=
  let? buf := block_buf_add (bb_buf b) kv in
  let b' := {| bb_options := bb_options b; bb_len := bb_len b + 1; bb_buf := buf;
               bb_vec_block := bb_vec_block b |} in
  if is_out_of_byte b' then builder_flush b' else Ok b'.

(** One turn of the loop of [build]: the block is appended to the bytes and its
    offset and length recorded under its last key; [offset] is a [u32]. *)
Definition builder_index_step (ct : CompressType)
    (st : bytes * Z * list (bytes * Index)) (bk : Block Value * bytes)
    : KernelResult (bytes * Z * list (bytes * Index)) :=
  let '(blocks_bytes, offset, indexes) := st in
  let blocks_bytes' := block_encode bk.1 ct blocks_bytes in
  let? len := usize_sub (length blocks_bytes') (Z.to_nat offset) in
  let? offset' := u32_add offset (as_u32 len) in
  Ok (blocks_bytes', offset', indexes ++ [(bk.2, {| i_offset := offset; i_len := len |})]).

(** [build]: the data blocks, then the index block; with the lengths of both. *)
Definition builder_build (b0 : BlockBuilder) : KernelResult (bytes * nat * nat) :=
  let? b := builder_flush b0 in
  let? (blocks_bytes, _, indexes) :=
    res_foldM (builder_index_step (opt_compress_type (bb_options b)))
      ([], 0%Z, []) (bb_vec_block b) in
  let data_bytes_len := length blocks_bytes in
  let? index_block := block_new indexes (opt_index_restart_interval (bb_options b)) in
  let all_bytes := block_encode index_block CompressNone blocks_bytes in
  Ok (all_bytes, data_bytes_len, length all_bytes - data_bytes_len).
End builder.

(** ** Serialisation: lemmas *)

(** What a block item promises to entries and blocks: a decodable encoding of its
    well-formed values, appended to the buffer, and a decoder that only consumes. *)
Class BlockItemLaws (T : Type) `{BlockItem T} := {
  item_wf : T → Prop;
  item_encode_app x bs : item_encode x bs = bs ++ item_encode x [];
  item_roundtrip x rest : item_wf x → item_decode (item_encode x [] ++ rest) = Ok (x, rest);
  item_decode_total c : item_decode c ≠ Panic;
  item_decode_suffix c x c' : item_decode c = Ok (x, c') → length c' ≤ length c;
}.

Section item_laws.
Context `{IE : IntegerEncoding} {IEL : IntegerEncodingLaws}.

Lemma read_u32_write n rest :
  fits_u32 n → read_u32 (write_varint (as_u32 n) ++ rest) = Ok (n, rest).
Proof.
  intros Hn. unfold read_u32. rewrite read_write_varint by apply as_u32_range.
  by rewrite as_u32_to_nat.
Qed.

Lemma read_u32_total c : read_u32 c ≠ Panic.
Proof. unfold read_u32. by destruct (read_varint c) as [[]|]. Qed.

Lemma read_u32_consumes c n c' : read_u32 c = Ok (n, c') → length c' < length c.
Proof.
  unfold read_u32. destruct (read_varint c) as [[v r]|] eqn:E; [|done].
  intros [= <- <-]. apply read_varint_consumes in E as (pre & Hpre & ->).
  rewrite length_app. destruct pre; [done|]. simpl. lia.
Qed.

(** A value's length field is its length, below 4 GiB, and it is not the empty
    byte string: that one decodes as an absent value. *)
Definition value_wf (v : Value) : Prop :=
  v = value_from (v_bytes v) ∧ fits_u32 (value_len v) ∧ v_bytes v ≠ Some [].

Lemma value_decode_encode v rest :
  value_wf v → value_decode (value_encode v [] ++ rest) = Ok (v, rest).
Proof.
  intros (Hv & Hfit & Hne). unfold value_decode, value_encode.
  rewrite app_nil_l, <- app_assoc, read_u32_write by done. cbn [res_bind].
  destruct v as [vlen [bs|]]; cbn [value_len v_bytes value_from] in *.
  - injection Hv as ->. destruct (decide (0 < length bs)) as [|Hz].
    + by rewrite cursor_read_app.
    + destruct Hne. destruct bs; [done|]. simpl in Hz. lia.
  - injection Hv as ->. by rewrite decide_False by lia.
Qed.

(** The one value that does not survive a round trip: a present, empty value comes
    back absent. *)
Lemma value_decode_encode_empty rest :
  value_decode (value_encode (value_from (Some [])) [] ++ rest)
  = Ok (value_from None, rest).
Proof.
  unfold value_decode, value_encode.
  rewrite app_nil_l, <- app_assoc, read_u32_write by done. done.
Qed.

#[global, program] Instance value_item_laws : BlockItemLaws Value :=
  {| item_wf := value_wf |}.
Next Obligation. intros x bs. simpl. unfold value_encode. by rewrite app_nil_l. Qed.
Next Obligation. intros. by apply value_decode_encode. Qed.
Next Obligation.
  intros c. simpl. unfold value_decode. pose proof (read_u32_total c).
  destruct (read_u32 c) as [[n c1]| |]; simpl; try done. by case_decide.
Qed.
Next Obligation.
  intros c x c'. simpl. unfold value_decode.
  destruct (read_u32 c) as [[n c1]| |] eqn:E; simpl; try done.
  apply read_u32_consumes in E.
  case_decide; [unfold cursor_read|]; intros ?; simplify_eq; rewrite ?length_drop; lia.
Qed.

Definition index_wf (i : Index) : Prop :=
  (0 ≤ i_offset i < 2 ^ 32)%Z ∧ fits_u32 (i_len i).

#[global, program] Instance index_item_laws : BlockItemLaws Index :=
  {| item_wf := index_wf |}.
Next Obligation. intros x bs. simpl. unfold index_encode. by rewrite app_nil_l. Qed.
Next Obligation.
  intros [off len] rest [Ho Hl]. simpl in *. unfold index_decode, index_encode. simpl.
  rewrite <- app_assoc, read_write_varint by done. by rewrite read_u32_write.
Qed.
Next Obligation.
  intros c. simpl. unfold index_decode. destruct (read_varint c) as [[v c1]|]; [|done].
  pose proof (read_u32_total c1). by destruct (read_u32 c1) as [[]| |].
Qed.
Next Obligation.
  intros c x c'. simpl. unfold index_decode.
  destruct (read_varint c) as [[v c1]|] eqn:E; [|done].
  destruct (read_u32 c1) as [[n c2]| |] eqn:E2; simpl; try done. intros [= <- <-].
  apply read_u32_consumes in E2. apply read_varint_consumes in E as (pre & _ & ->).
  rewrite length_app. lia.
Qed.
End item_laws.

Section entry_laws.
Context `{IE : IntegerEncoding} {IEL : IntegerEncodingLaws}.
Context {T : Type} {BI : BlockItem T} {BIL : BlockItemLaws T}.

Definition entry_wf (e : Entry T) : Prop :=
  unshared_len e = length (e_key e) ∧ fits_u32 (unshared_len e) ∧
  fits_u32 (shared_len e) ∧ item_wf (e_item e).

Lemma entry_encode_app (e : Entry T) bs : entry_encode e bs = bs ++ entry_encode e [].
Proof.
  unfold entry_encode. rewrite item_encode_app.
  rewrite (item_encode_app _ ([] ++ _)). by rewrite <- !app_assoc.
Qed.

Lemma entry_encode_nonempty (e : Entry T) : entry_encode e [] ≠ [].
Proof.
  unfold entry_encode. rewrite item_encode_app. intros (H & _)%app_nil.
  apply app_nil in H as (_ & H). apply app_nil in H as (H & _).
  by apply write_varint_nonempty in H.
Qed.

Lemma entry_decode_encode (e : Entry T) rest :
  entry_wf e → entry_decode (entry_encode e [] ++ rest) = Ok (e, rest).
Proof.
  destruct e as [ulen slen key item]. intros (Hk & Hu & Hs & Hi). simpl in *.
  unfold entry_decode, entry_encode. cbn [unshared_len shared_len e_key e_item].
  rewrite item_encode_app, <- !app_assoc, app_nil_l.
  rewrite read_u32_write by done. cbn [res_bind].
  rewrite read_u32_write by done. cbn [res_bind].
  rewrite Hk, cursor_read_app. by rewrite item_roundtrip.
Qed.

Lemma entry_decode_total c : entry_decode (T:=T) c ≠ Panic.
Proof.
  unfold entry_decode. pose proof (read_u32_total c).
  destruct (read_u32 c) as [[n c1]| |]; simpl; try done.
  pose proof (read_u32_total c1).
  destruct (read_u32 c1) as [[m c2]| |]; simpl; try done.
  pose proof (item_decode_total (drop n c2)).
  by destruct (item_decode (drop n c2)) as [[]| |].
Qed.

Lemma entry_decode_consumes c (e : Entry T) c' :
  entry_decode c = Ok (e, c') → length c' < length c.
Proof.
  unfold entry_decode. destruct (read_u32 c) as [[n c1]| |] eqn:E1; simpl; try done.
  destruct (read_u32 c1) as [[m c2]| |] eqn:E2; simpl; try done.
  destruct (item_decode (drop n c2)) as [[i c3]| |] eqn:E3; simpl; try done.
  intros [= <- <-]. apply read_u32_consumes in E1, E2. apply item_decode_suffix in E3.
  rewrite length_drop in E3. lia.
Qed.

Definition encode_entries (es : list (Entry T)) : bytes :=
  concat ((λ e, entry_encode e []) <$> es).

Lemma fold_entry_encode (es : list (nat * Entry T)) bs :
  fold_left (λ acc ie, entry_encode ie.2 acc) es bs = bs ++ encode_entries es.*2.
Proof.
  revert bs. induction es as [|[i e] es IH]; intros bs; simpl; [by rewrite app_nil_r|].
  rewrite IH, entry_encode_app, <- app_assoc. done.
Qed.

Lemma batch_decode_loop_encode fuel index (es : list (Entry T)) :
  Forall entry_wf es → length (encode_entries es) < fuel →
  batch_decode_loop fuel index (encode_entries es) = Ok (enum_from index es).
Proof.
  revert index fuel. induction es as [|e es IH]; intros index [|fuel] Hwf Hfuel;
    try (simpl in Hfuel; lia); [done|].
  apply Forall_cons in Hwf as [He Hes].
  cbn [encode_entries fmap list_fmap concat] in *.
  pose proof (entry_encode_nonempty e) as Hne.
  assert (0 < length (entry_encode e [])) by (destruct (entry_encode e []); simpl; [done|lia]).
  rewrite length_app in Hfuel. cbn [batch_decode_loop].
  replace (cursor_is_empty _) with false
    by (by destruct (entry_encode e [])).
  rewrite entry_decode_encode by done. simpl. rewrite Nat.add_1_r.
  unfold encode_entries in IH. rewrite IH by (done || lia). done.
Qed.

Lemma batch_decode_encode (es : list (Entry T)) :
  Forall entry_wf es → batch_decode (encode_entries es) = Ok (enumerate es).
Proof. intros. by apply batch_decode_loop_encode; [|lia]. Qed.

Lemma batch_decode_loop_total fuel index c :
  length c < fuel → batch_decode_loop (T:=T) fuel index c ≠ Panic.
Proof.
  revert index c. induction fuel as [|fuel IH]; intros index c Hlt; [lia|].
  cbn [batch_decode_loop]. destruct (cursor_is_empty c); [done|].
  pose proof (entry_decode_total c).
  destruct (entry_decode c) as [[e c']| |] eqn:E; simpl; try done.
  apply entry_decode_consumes in E. pose proof (IH (index + 1) c' ltac:(lia)).
  by destruct (batch_decode_loop fuel (index + 1) c').
Qed.
End entry_laws.

Section raw_laws.
Context `{IE : IntegerEncoding} {IEL : IntegerEncodingLaws} {CRC : Crc32} {LZ : Lz4}.
Context {CRCL : Crc32Laws} {LZL : Lz4Laws}.
Context {T : Type} {BI : BlockItem T} {BIL : BlockItemLaws T}.

Definition block_wf (b : Block T) : Prop :=
  vec_entry b = enumerate (vec_entry b).*2 ∧ Forall entry_wf (vec_entry b).*2.

Definition block_payload (b : Block T) : bytes := encode_entries (vec_entry b).*2.

Lemma to_raw_spec (b : Block T) bs :
  to_raw b bs
  = bs ++ block_payload b ++ encode_fixed 4 (crc32_hash (block_payload b)).
Proof.
  unfold to_raw. rewrite fold_entry_encode, drop_app_length. by rewrite <- app_assoc.
Qed.

(** Decoding a payload followed by any four bytes: the outcome only depends on
    whether those bytes happen to spell the checksum of the whole buffer. *)
Lemma from_raw_trailer (b : Block T) (t : bytes) :
  block_wf b → length t = 4 →
  from_raw (block_payload b ++ t) (restart_interval b)
  = if decide (crc32_hash (block_payload b ++ t) = decode_fixed t)
    then Err CrcMisMatch else Ok b.
Proof.
  intros [Henum Hwf] Ht. unfold from_raw.
  rewrite decide_False.
  2: { intros (_ & ->)%app_nil. done. }
  unfold usize_sub, CRC_SIZE. rewrite length_app, decide_True by lia. simpl.
  replace (length (block_payload b) + length t - 4) with (length (block_payload b)) by lia.
  rewrite drop_app_length, take_app_length. case_decide; [done|].
  unfold block_payload. rewrite batch_decode_encode by done. simpl.
  rewrite <- Henum. by destruct b.
Qed.

Lemma from_to_raw (b : Block T) :
  block_wf b →
  from_raw (to_raw b []) (restart_interval b)
  = if decide (crc32_hash (to_raw b []) = crc32_hash (block_payload b))
    then Err CrcMisMatch else Ok b.
Proof.
  intros Hwf. rewrite to_raw_spec. simpl.
  rewrite from_raw_trailer by (done || apply encode_fixed_length).
  by rewrite decode_encode_fixed by apply crc32_range.
Qed.

Lemma block_encode_app (b : Block T) ct bs :
  block_encode b ct bs = bs ++ block_encode b ct [].
Proof. destruct ct; simpl; [|done]. by rewrite !to_raw_spec. Qed.

(** The condition under which a written block can be read back. *)
Definition crc_clear (b : Block T) : Prop :=
  crc32_hash (to_raw b []) ≠ crc32_hash (block_payload b).

Lemma block_decode_encode (b : Block T) ct :
  block_wf b → crc_clear b →
  block_decode (block_encode b ct []) ct (restart_interval b) = Ok b.
Proof.
  intros Hwf Hcrc. unfold block_decode, block_encode. destruct ct; simpl.
  - by rewrite from_to_raw, decide_False.
  - rewrite lz4_decode_encode. simpl. by rewrite from_to_raw, decide_False.
Qed.
End raw_laws.

(** ** Prefix compression: lemmas *)

Section prefix_laws.
Context {T : Type}.
Implicit Types s : list (bytes * T).

Lemma take_eq_lookup (a b : bytes) n :
  n ≤ length a → n ≤ length b →
  take n a = take n b ↔ ∀ i, i < n → a !! i = b !! i.
Proof.
  intros Ha Hb. split.
  - intros E i Hi. rewrite <- (lookup_take_lt a n i Hi), <- (lookup_take_lt b n i Hi). by rewrite E.
  - intros E. apply list_eq. intros i. destruct (decide (i < n)).
    + rewrite !lookup_take_lt by done. by apply E.
    + rewrite !lookup_take_ge by lia. done.
Qed.

(** Within the keys' lengths, the test decides whether all the keys start alike. *)
Lemma is_common_prefix_true s len :
  (∀ kv, kv ∈ s → len ≤ length kv.1) →
  is_common_prefix s len = true ↔
  ∀ kv kv', kv ∈ s → kv' ∈ s → take len kv.1 = take len kv'.1.
Proof.
  intros Hlen. destruct s as [|first rest]; simpl.
  { split; [|done]. by intros _ kv kv' ?%not_elem_of_nil. }
  rewrite forallb_forall. transitivity (∀ kv, kv ∈ rest → take len first.1 = take len kv.1).
  - split.
    + intros H kv Hkv. apply take_eq_lookup; [apply Hlen; by left|apply Hlen; by right|].
      intros i Hi. apply list_elem_of_In in Hkv. specialize (H kv Hkv).
      rewrite forallb_forall in H. specialize (H i). rewrite bool_decide_eq_true in H.
      apply H. apply in_seq. lia.
    + intros H kv Hkv. apply list_elem_of_In in Hkv. apply forallb_forall.
      intros i Hi%in_seq. apply bool_decide_eq_true.
      revert i Hi. specialize (H kv Hkv).
      rewrite take_eq_lookup in H by (apply Hlen; by (left + right)).
      intros i Hi. apply H. lia.
  - split.
    + intros H kv kv' [->|Hkv]%elem_of_cons [->|Hkv']%elem_of_cons; [done|..].
      * by apply H.
      * symmetry. by apply H.
      * rewrite <- (H kv), <- (H kv') by done. done.
    + intros H kv Hkv. apply H; [by left|by right].
Qed.

Lemma min_key_len_le s kv : kv ∈ s → min_key_len s ≤ length kv.1.
Proof.
  destruct s as [|first rest]; [by intros ?%not_elem_of_nil|]. simpl.
  assert (∀ (l : list (bytes * T)) m,
    fold_left (λ m kv, min m (length kv.1)) l m ≤ m ∧
    ∀ kv, kv ∈ l → fold_left (λ m kv, min m (length kv.1)) l m ≤ length kv.1) as Hf.
  { induction l as [|x l IH]; intros m; simpl.
    - split; [done|]. by intros ? ?%not_elem_of_nil.
    - destruct (IH (min m (length x.1))) as [H1 H2]. split; [lia|].
      intros kv' [->|Hin]%elem_of_cons; [lia|]. by apply H2. }
  destruct (Hf rest (length first.1)) as [H1 H2].
  intros [->|Hin]%elem_of_cons; [done|]. by apply H2.
Qed.

Lemma min_key_len_greatest s n :
  s ≠ [] → (∀ kv, kv ∈ s → n ≤ length kv.1) → n ≤ min_key_len s.
Proof.
  destruct s as [|first rest]; [done|]. intros _ Hall. simpl.
  apply (fold_left_inv (λ m, n ≤ m)); [apply Hall; by left|].
  intros m kv Hm Hkv. specialize (Hall kv (ltac:(by right))). lia.
Qed.

Lemma common_prefix_mono s n m :
  n ≤ m → (∀ kv, kv ∈ s → m ≤ length kv.1) →
  is_common_prefix s m = true → is_common_prefix s n = true.
Proof.
  intros Hnm Hlen. rewrite !is_common_prefix_true.
  - intros H kv kv' Hkv Hkv'. specialize (H kv kv' Hkv Hkv').
    apply (f_equal (take n)) in H. rewrite !take_take in H.
    by replace (n `min` m) with n in H by lia.
  - intros kv Hkv. apply Hlen in Hkv. lia.
  - done.
Qed.

Lemma shared_len_loop_spec fuel s low high :
  high - low ≤ fuel → low ≤ high → (∀ kv, kv ∈ s → high ≤ length kv.1) →
  is_common_prefix s low = true →
  let r := shared_len_loop fuel s low high in
  low ≤ r ≤ high ∧ is_common_prefix s r = true ∧
  (∀ n, r < n ≤ high → is_common_prefix s n = false).
Proof.
  revert low high. induction fuel as [|fuel IH]; intros low high Hf Hle Hlen Hlow;
    cbn [shared_len_loop].
  { split_and!; [lia|lia|done|lia]. }
  destruct (decide (low < high)) as [Hlt|Hge]; [|split_and!; [lia|lia|done|lia]].
  set (mid := (high - low + 1) / 2 + low).
  assert (low < mid ≤ high) as Hmid.
  { subst mid. pose proof (Nat.div_str_pos (high - low + 1) 2 ltac:(lia)).
    pose proof (Nat.Div0.div_le_upper_bound (high - low + 1) 2 (high - low) ltac:(lia)). lia. }
  destruct (is_common_prefix s mid) eqn:E.
  - destruct (IH mid high ltac:(lia) ltac:(lia) Hlen E) as (H1 & H2 & H3).
    split_and!; [lia|lia|done|done].
  - destruct (IH low (mid - 1)) as (H1 & H2 & H3); [lia|lia| |done|].
    { intros kv Hkv. apply Hlen in Hkv. lia. }
    split_and!; [lia|lia|done|]. intros n Hn.
    destruct (decide (n ≤ mid - 1)); [apply H3; lia|].
    apply not_true_iff_false. intros Hn'. apply not_true_iff_false in E. apply E.
    eapply common_prefix_mono; [|..|apply Hn']; [lia|].
    intros kv Hkv. apply Hlen in Hkv. lia.
Qed.

(** The length found is that of the longest prefix all the keys share. *)
Lemma longest_shared_len_spec s :
  (∀ kv, kv ∈ s → longest_shared_len s ≤ length kv.1) ∧
  (∀ kv kv', kv ∈ s → kv' ∈ s →
    take (longest_shared_len s) kv.1 = take (longest_shared_len s) kv'.1) ∧
  (∀ n, longest_shared_len s < n ≤ min_key_len s → is_common_prefix s n = false).
Proof.
  destruct s as [|first rest] eqn:Es.
  { split_and!; [by intros ? ?%not_elem_of_nil|by intros ? ? ?%not_elem_of_nil|].
    simpl. lia. }
  rewrite <- Es. set (m := min_key_len s).
  assert (∀ kv, kv ∈ s → m ≤ length kv.1) as Hm by apply min_key_len_le.
  replace (longest_shared_len s) with (shared_len_loop m s 0 m) by (by subst m s).
  destruct (shared_len_loop_spec m s 0 m) as (H1 & H2 & H3); [lia|lia|done| |].
  { apply is_common_prefix_true; [lia|]. intros. by rewrite !take_0. }
  assert (∀ kv, kv ∈ s → shared_len_loop m s 0 m ≤ length kv.1).
  { intros kv Hkv. apply Hm in Hkv. lia. }
  split_and!; [done| |done]. by apply is_common_prefix_true.
Qed.

Lemma div_succ_cases n ri :
  ri ≠ 0 → S n / ri = n / ri ∨ S n / ri = S (n / ri).
Proof.
  intros Hri. pose proof (Nat.div_mod_eq n ri). pose proof (Nat.div_mod_eq (S n) ri).
  pose proof (Nat.mod_upper_bound n ri Hri). pose proof (Nat.mod_upper_bound (S n) ri Hri).
  assert (n / ri ≤ S n / ri) by (apply Nat.Div0.div_le_mono; lia). nia.
Qed.

(** *** Runs of [ri] consecutive elements

    [groups_ok ri n l G]: the groups [G] cut [l], numbered from [n], by [i / ri]. *)

Definition groups_ok {A} (ri n : nat) (l : list A) (G : list (nat * list (nat * A))) : Prop :=
  (∀ q k g, G !! q = Some (k, g) →
    k = n / ri + q ∧
    ∀ i x, (i, x) ∈ g ↔ n ≤ i ∧ i / ri = k ∧ l !! (i - n) = Some x) ∧
  (∀ i x, n ≤ i → l !! (i - n) = Some x → is_Some (G !! (i / ri - n / ri))).

Lemma numbered_cons {A} n (y : A) l i x :
  n ≤ i ∧ (y :: l) !! (i - n) = Some x ↔
  (i = n ∧ x = y) ∨ (S n ≤ i ∧ l !! (i - S n) = Some x).
Proof.
  split.
  - intros [Hi Hx]. destruct (decide (i = n)) as [->|Hne].
    + rewrite Nat.sub_diag in Hx. simplify_eq/=. by left.
    + right. split; [lia|]. by replace (i - n) with (S (i - S n)) in Hx by lia.
  - intros [[-> ->]|[Hi Hx]]; [by rewrite Nat.sub_diag|].
    split; [lia|]. by replace (i - n) with (S (i - S n)) by lia.
Qed.

(** The next element joins the first group ... *)
Lemma groups_ok_join {A} ri n (y : A) l k0 g0 r :
  groups_ok ri (S n) l ((k0, g0) :: r) → k0 = n / ri →
  groups_ok ri n (y :: l) ((k0, (n, y) :: g0) :: r).
Proof.
  intros [H1 H2] Hk. destruct (H1 0 k0 g0 eq_refl) as [Hk0 Hg0].
  assert (S n / ri = n / ri) as Hsame by lia. split.
  - intros [|q] k g Hq; simplify_eq/=.
    + split; [lia|]. intros i x. rewrite elem_of_cons, Hg0.
      pose proof (numbered_cons n y l i x). naive_solver.
    + destruct (H1 (S q) k g Hq) as [-> Hg]. split; [lia|]. intros i x. rewrite Hg.
      pose proof (numbered_cons n y l i x). naive_solver lia.
  - intros i x Hi Hx. destruct (proj1 (numbered_cons n y l i x) (conj Hi Hx))
      as [[-> ->]|[Hi' Hx']].
    + rewrite Nat.sub_diag. by eexists.
    + specialize (H2 i x Hi' Hx'). rewrite Hsame in H2.
      destruct (i / ri - n / ri); [by eexists|done].
Qed.

(** ... or starts a new one. *)
Lemma groups_ok_fresh {A} ri n (y : A) l G :
  groups_ok ri (S n) l G → (G ≠ [] → S n / ri = S (n / ri)) →
  groups_ok ri n (y :: l) ((n / ri, [(n, y)]) :: G).
Proof.
  intros [H1 H2] Hnext.
  assert (∀ i x, S n ≤ i → l !! (i - S n) = Some x → S n / ri = S (n / ri) ∧ S n / ri ≤ i / ri)
    as Hlater.
  { intros i x Hi Hx. split; [|by apply Nat.Div0.div_le_mono].
    apply Hnext. intros ->. by destruct (H2 i x Hi Hx). }
  split.
  - intros [|q] k g Hq; simplify_eq/=.
    + split; [lia|]. intros i x. rewrite list_elem_of_singleton.
      pose proof (numbered_cons n y l i x). naive_solver lia.
    + destruct (H1 q k g Hq) as [-> Hg].
      assert (G ≠ []) as ->%Hnext by (intros ->; by rewrite lookup_nil in Hq).
      split; [lia|]. intros i x. rewrite Hg.
      pose proof (numbered_cons n y l i x). naive_solver lia.
  - intros i x Hi Hx. destruct (proj1 (numbered_cons n y l i x) (conj Hi Hx))
      as [[-> ->]|[Hi' Hx']].
    + rewrite Nat.sub_diag. by eexists.
    + destruct (Hlater i x Hi' Hx') as [Hn Hle]. specialize (H2 i x Hi' Hx').
      replace (i / ri - n / ri) with (S (i / ri - S n / ri)) by lia. done.
Qed.

Context `{IT : Itertools} {ITL : ItertoolsLaws}.

Lemma group_by_enum {A} ri n (l : list A) :
  ri ≠ 0 → groups_ok ri n l (group_by (λ p : nat * A, p.1 / ri) (enum_from n l)).
Proof.
  intros Hri. revert n. induction l as [|y l IH]; intros n; simpl.
  { rewrite group_by_nil. split; [done|]. intros i x _. by rewrite lookup_nil. }
  specialize (IH (S n)). rewrite group_by_cons. cbn [fst].
  destruct (group_by _ (enum_from (S n) l)) as [|[k0 g0] r] eqn:EG.
  { by apply groups_ok_fresh. }
  destruct (decide (k0 = n / ri)) as [Hk|Hk]; [by apply groups_ok_join|].
  apply groups_ok_fresh; [done|]. intros _.
  destruct (proj1 IH 0 k0 g0 eq_refl) as [Hk0 _].
  destruct (div_succ_cases n ri Hri); [lia|done].
Qed.
End prefix_laws.

(** ** Construction and search: lemmas *)

Section block_laws.
Context {T : Type} `{IT : Itertools} {ITL : ItertoolsLaws}.
Implicit Types kvs : list (bytes * T).

(** The shared length of entry [i], and the entry itself. *)
Definition block_shared kvs (ri i : nat) : nat :=
  if decide (i `mod` ri = 0) then 0
  else default 0 (sharding_shared_len kvs ri !! (i / ri)).

Definition block_entry kvs (ri : nat) (p : nat * (bytes * T)) : nat * Entry T :=
  let slen := block_shared kvs ri p.1 in
  (p.1, entry_new slen (length p.2.1 - slen) (drop slen p.2.1) p.2.2).

Definition block_of kvs (ri : nat) : Block T :=
  {| restart_interval := ri; vec_entry := block_entry kvs ri <$> enumerate kvs |}.

Lemma sharding_lookup kvs ri i kv :
  ri ≠ 0 → kvs !! i = Some kv →
  ∃ slen, sharding_shared_len kvs ri !! (i / ri) = Some slen ∧
    ∀ j kv', kvs !! j = Some kv' → j / ri = i / ri →
      slen ≤ length kv'.1 ∧ take slen kv'.1 = take slen kv.1.
Proof.
  intros Hri Hi. destruct (group_by_enum ri 0 kvs Hri) as [H1 H2].
  destruct (H2 i kv) as [[k g] Hg]; [lia|by rewrite Nat.sub_0_r|].
  rewrite Nat.Div0.div_0_l, Nat.sub_0_r in Hg.
  destruct (H1 _ _ _ Hg) as [Hk Hmem]. rewrite Nat.Div0.div_0_l in Hk. simpl in Hk. subst k.
  exists (longest_shared_len g.*2). split.
  { unfold sharding_shared_len, enumerate. by rewrite list_lookup_fmap, Hg. }
  assert (∀ j kv', kvs !! j = Some kv' → j / ri = i / ri → kv' ∈ g.*2) as Hin.
  { intros j kv' Hj Hd. apply list_elem_of_fmap. exists (j, kv'). split; [done|].
    apply Hmem. rewrite Nat.sub_0_r. auto with lia. }
  destruct (longest_shared_len_spec g.*2) as (Hle & Heq & _).
  intros j kv' Hj Hd. split; [apply Hle; eauto|apply Heq; eauto].
Qed.

Lemma block_shared_spec kvs ri i j kv kv' :
  ri ≠ 0 → kvs !! i = Some kv → kvs !! j = Some kv' → j / ri = i / ri →
  block_shared kvs ri i ≤ length kv'.1 ∧
  take (block_shared kvs ri i) kv'.1 = take (block_shared kvs ri i) kv.1.
Proof.
  intros Hri Hi Hj Hd. unfold block_shared. case_decide; [by rewrite !take_0; split; [lia|]|].
  destruct (sharding_lookup kvs ri i kv Hri Hi) as (slen & -> & Hj'). simpl. eauto.
Qed.

(** [block_new] never panics for a positive interval. *)
Lemma block_new_Ok kvs ri : ri ≠ 0 → block_new kvs ri = Ok (block_of kvs ri).
Proof.
  intros Hri. unfold block_new. rewrite decide_False by done.
  rewrite (res_mapM_Ok _ (block_entry kvs ri)); [done|].
  intros [i [key item]] (j & Hj)%list_elem_of_lookup.
  rewrite enumerate_lookup in Hj. destruct (kvs !! j) eqn:E; simplify_eq/=.
  destruct (block_shared_spec kvs ri i i _ _ Hri E E eq_refl) as [Hle _]. simpl in Hle.
  unfold block_entry. cbn [fst snd].
  unfold block_shared, usize_sub in *. case_decide; cbn [res_bind].
  - by rewrite decide_True by lia.
  - destruct (sharding_lookup kvs ri i _ Hri E) as (slen & Hs & _).
    rewrite Hs in *. cbn [or_panic res_bind default from_option id] in *.
    by rewrite decide_True.
Qed.

Lemma block_of_lookup kvs ri i :
  vec_entry (block_of kvs ri) !! i = (λ kv, block_entry kvs ri (i, kv)) <$> kvs !! i.
Proof.
  simpl. rewrite list_lookup_fmap, enumerate_lookup. by destruct (kvs !! i).
Qed.

Lemma block_of_length kvs ri : length (vec_entry (block_of kvs ri)) = length kvs.
Proof. simpl. by rewrite length_fmap, enumerate_length. Qed.

Lemma restart_index kvs ri i kv :
  ri ≠ 0 → kvs !! i = Some kv →
  ∃ kv0, kvs !! (i - i `mod` ri) = Some kv0 ∧
         (i - i `mod` ri) / ri = i / ri ∧ (i - i `mod` ri) `mod` ri = 0.
Proof.
  intros Hri Hi. pose proof (Nat.div_mod_eq i ri) as E.
  assert (i - i `mod` ri = ri * (i / ri)) as Hr by lia.
  destruct (lookup_lt_is_Some_2 kvs (i - i `mod` ri)) as [kv0 H0].
  { apply lookup_lt_Some in Hi. lia. }
  exists kv0. split_and!; [done|..]; rewrite Hr, Nat.mul_comm.
  - by apply Nat.div_mul.
  - by apply Nat.Div0.mod_mul.
Qed.

(** The shared prefix of entry [i] is read off its restart entry. *)
Lemma shared_key_prefix_spec kvs ri i kv n :
  ri ≠ 0 → kvs !! i = Some kv → n ≤ block_shared kvs ri i →
  shared_key_prefix (block_of kvs ri) i n = Ok (take n kv.1).
Proof.
  intros Hri Hi Hn. unfold shared_key_prefix. simpl restart_interval.
  rewrite decide_False by done.
  destruct (restart_index kvs ri i kv Hri Hi) as (kv0 & H0 & Hd & Hm).
  destruct (block_shared_spec kvs ri i _ _ _ Hri Hi H0 Hd) as [Hle Heq].
  unfold get_entry. rewrite block_of_lookup, H0. simpl.
  replace (block_shared kvs ri _) with 0 by (unfold block_shared; by rewrite decide_True).
  rewrite drop_0. unfold slice_to. rewrite decide_True by lia. f_equal.
  apply (f_equal (take n)) in Heq. rewrite !take_take in Heq.
  by replace (n `min` block_shared kvs ri i) with n in Heq by lia.
Qed.

(** Keys strictly between restarts are longer than the prefix they share. *)
Lemma block_shared_suffix kvs ri i kv :
  ri ≠ 0 → ksorted kvs → kvs !! i = Some kv → 0 < block_shared kvs ri i →
  drop (block_shared kvs ri i) kv.1 ≠ [].
Proof.
  intros Hri Hs Hi Hpos Hnil.
  assert (i `mod` ri ≠ 0) as Hmod.
  { intros Hm. unfold block_shared in Hpos. rewrite decide_True in Hpos by done. lia. }
  destruct (restart_index kvs ri i kv Hri Hi) as (kv0 & H0 & Hd & Hm).
  destruct (block_shared_spec kvs ri i _ _ _ Hri Hi H0 Hd) as [Hle Heq].
  assert (kv_lt kv0 kv) as Hlt.
  { eapply ksorted_lookup_lt; [done..|]. pose proof (Nat.Div0.mod_le i ri).
    apply lookup_lt_Some in H0. lia. }
  unfold kv_lt in Hlt. rewrite <- (take_drop (block_shared kvs ri i) kv.1) in Hlt.
  rewrite <- (take_drop (block_shared kvs ri i) kv0.1), Heq, Hnil in Hlt.
  unfold cmp, list_ord in Hlt. rewrite list_cmp_app in Hlt by done.
  pose proof (cmp_refl (take (block_shared kvs ri i) kv.1)) as Hr.
  unfold cmp, list_ord in Hr. rewrite Hr in Hlt. simpl in Hlt.
  by destruct (drop _ kv0.1).
Qed.

(** Comparing a key with a prefix-compressed key, piecewise. *)
Lemma prefix_cmp (key p s : bytes) :
  s ≠ [] →
  then_with (cmp (take (min (length p) (length key)) key)
                 (take (min (length p) (length key)) p))
            (cmp (drop (min (length p) (length key)) key) s)
  = cmp key (p ++ s).
Proof.
  intros Hs. unfold cmp, list_ord.
  destruct (decide (length p ≤ length key)) as [Hle|Hgt].
  - replace (min _ _) with (length p) by lia. rewrite take_ge with (l := p) by lia.
    rewrite <- list_cmp_app by (rewrite length_take; lia). by rewrite take_drop.
  - replace (min _ _) with (length key) by lia.
    rewrite take_ge, drop_ge by lia.
    pose proof (list_cmp_app key (take (length key) p) [] (drop (length key) p ++ s)) as E.
    rewrite app_nil_r, app_assoc, take_drop in E. rewrite E by (rewrite length_take; lia).
    f_equal. destruct s; [done|]. by destruct (drop (length key) p).
Qed.

Lemma entry_cmp_spec kvs ri key i kv :
  ri ≠ 0 → ksorted kvs → kvs !! i = Some kv →
  entry_cmp (block_of kvs ri) key (block_entry kvs ri (i, kv)) = Ok (cmp kv.1 key).
Proof.
  intros Hri Hs Hi. unfold entry_cmp, block_entry, entry_new. cbn [fst snd shared_len e_key].
  destruct (block_shared_spec kvs ri i i _ _ Hri Hi Hi eq_refl) as [Hle _].
  rewrite (cmp_antisym key kv.1). case_decide as Hpos.
  - rewrite (shared_key_prefix_spec kvs ri i kv) by (done || lia). cbn [res_bind].
    do 2 f_equal.
    pose proof (block_shared_suffix kvs ri i kv Hri Hs Hi Hpos) as Hne.
    pose proof (prefix_cmp key (take (block_shared kvs ri i) kv.1) _ Hne) as E.
    rewrite length_take, take_take, take_drop in E.
    replace (block_shared kvs ri i `min` length kv.1) with (block_shared kvs ri i) in E by lia.
    by replace ((block_shared kvs ri i `min` length key) `min` block_shared kvs ri i)
      with (block_shared kvs ri i `min` length key) in E by lia.
  - cbn [res_bind]. replace (block_shared kvs ri i) with 0 by lia. by rewrite drop_0.
Qed.

Lemma block_binary_search_spec kvs ri key :
  ri ≠ 0 → ksorted kvs →
  block_binary_search (block_of kvs ri) key
  = Ok (if rank_hit key kvs then inl (rank key kvs) else inr (rank key kvs)).
Proof.
  intros Hri Hs. unfold block_binary_search.
  apply binary_search_rank; [done|by rewrite block_of_length|].
  intros j x kv Hx Hkv. rewrite block_of_lookup, Hkv in Hx. simplify_eq/=.
  by apply entry_cmp_spec.
Qed.

(** [find_with_upper]: the item of the least key not below the one sought, or of the
    last key. *)
Lemma find_with_upper_spec kvs ri key :
  ri ≠ 0 → ksorted kvs → kvs ≠ [] →
  find_with_upper (block_of kvs ri) key
  = or_panic (snd <$> kvs !! min (length kvs - 1) (rank key kvs)).
Proof.
  intros Hri Hs Hne. unfold find_with_upper.
  rewrite block_binary_search_spec by done. cbn [res_bind].
  assert (0 < length kvs) as Hlen by (destruct kvs; [done|simpl; lia]).
  rewrite block_of_length. unfold usize_sub, get_entry.
  destruct (rank_hit key kvs) eqn:E.
  - apply rank_hit_true in E as (v & Hv). cbn [res_bind]. rewrite block_of_lookup, Hv. simpl.
    assert (rank key kvs < length kvs) by (by eapply lookup_lt_Some).
    replace (min _ _) with (rank key kvs) by lia. by rewrite Hv.
  - rewrite decide_True by lia. cbn [res_bind]. rewrite block_of_lookup.
    by destruct (kvs !! _).
Qed.
End block_laws.

Lemma block_find_spec `{ItertoolsLaws} (kvs : list (bytes * Value)) ri key :
  ri ≠ 0 → ksorted kvs →
  block_find (block_of kvs ri) key
  = Ok (match btree_get key kvs with Some v => (v_bytes v, true) | None => (None, false) end).
Proof.
  intros Hri Hs. unfold block_find. rewrite block_binary_search_spec by done. cbn [res_bind].
  destruct (rank_hit key kvs) eqn:E.
  - apply rank_hit_true in E as (v & Hv). rewrite block_of_lookup, Hv. simpl.
    by rewrite (proj2 (btree_get_Some key v kvs Hs) (list_elem_of_lookup_2 _ _ _ Hv)).
  - rewrite (proj2 (btree_get_None key kvs Hs)); [done|].
    intros v. by apply rank_hit_false.
Qed.

(** ** Properties *)

Section block_wf.
Context `{IE : IntegerEncoding} {IEL : IntegerEncodingLaws} {IT : Itertools} {ITL : ItertoolsLaws}.
Context {T : Type} {BI : BlockItem T} {BIL : BlockItemLaws T}.

(** What a block can hold: keys of at most [u32::MAX] bytes, items that encode. *)
Definition kvs_wf (kvs : list (bytes * T)) : Prop :=
  ∀ kv, kv ∈ kvs → fits_u32 (length kv.1) ∧ item_wf kv.2.

Lemma block_of_wf kvs ri : ri ≠ 0 → kvs_wf kvs → block_wf (block_of kvs ri).
Proof.
  intros Hri Hwf.
  assert ((vec_entry (block_of kvs ri)).*2 = (λ p, (block_entry kvs ri p).2) <$> enumerate kvs)
    as Hents by (simpl; by rewrite <- list_fmap_compose).
  split.
  - apply list_eq. intros i. rewrite Hents, enumerate_lookup, list_lookup_fmap.
    rewrite block_of_lookup, enumerate_lookup. by destruct (kvs !! i).
  - rewrite Hents, Forall_fmap, Forall_forall. intros [i kv] (j & Hj)%list_elem_of_lookup.
    rewrite enumerate_lookup in Hj. destruct (kvs !! j) eqn:E; simplify_eq/=.
    destruct (Hwf _ (list_elem_of_lookup_2 _ _ _ E)) as [Hk Hit].
    destruct (block_shared_spec kvs ri i i _ _ Hri E E eq_refl) as [Hle _].
    unfold entry_wf, fits_u32 in *; simpl. rewrite length_drop. split_and!; try done; lia.
Qed.
End block_wf.

(** ** What is stored of a value

    The encoding of a value does not tell a present empty one from an absent one, and the
    decoder takes both for the absent one: what is read back of a pair is what is stored of
    its value.  Pairs are written as the pairs they are stored as are. *)

Definition stored (v : option bytes) : option bytes :=
  match v with Some [] => None | _ => v end.

Definition stored_value (v : Value) : Value := value_from (stored (v_bytes v)).

Definition map_items {K T T'} (f : T → T') (l : list (K * T)) : list (K * T') := prod_map id f <$> l.

Section map_items.
Context `{IT : Itertools} {ITL : ItertoolsLaws} {T T' : Type} (f : T → T').

Lemma is_common_prefix_map (l : list (bytes * T)) n : is_common_prefix (map_items f l) n = is_common_prefix l n.
Proof.
  destruct l as [|kv l]; [done|]. unfold is_common_prefix, map_items. rewrite fmap_cons.
  induction l as [|kv' l IH]; [done|]. rewrite fmap_cons. cbn [forallb]. by rewrite IH.
Qed.

Lemma min_key_len_map (l : list (bytes * T)) : min_key_len (map_items f l) = min_key_len l.
Proof.
  destruct l as [|kv l]; [done|]. unfold min_key_len, map_items. rewrite fmap_cons. change (length (prod_map id f kv).1) with (length kv.1).
  generalize (length kv.1). induction l as [|kv' l IH]; intros n; [done|]. rewrite fmap_cons. cbn [fold_left]. apply IH.
Qed.

Lemma shared_len_loop_map fuel (l : list (bytes * T)) low high :
  shared_len_loop fuel (map_items f l) low high = shared_len_loop fuel l low high.
Proof.
  revert low high. induction fuel as [|fuel IH]; intros low high; [done|]. cbn [shared_len_loop].
  rewrite is_common_prefix_map. case_decide; [|done]. by destruct (is_common_prefix l _); rewrite IH.
Qed.

Lemma longest_shared_len_map (l : list (bytes * T)) : longest_shared_len (map_items f l) = longest_shared_len l.
Proof.
  destruct l as [|kv l]; [done|]. unfold longest_shared_len.
  rewrite min_key_len_map, shared_len_loop_map. done.
Qed.

(** Groups by the number alone: the same groups, of the mapped pairs. *)
Lemma group_by_map ri n (l : list (bytes * T)) :
  group_by (λ p : nat * (bytes * T'), p.1 / ri) (enum_from n (map_items f l))
  = (λ g : nat * list (nat * (bytes * T)), (g.1, prod_map id (prod_map id f) <$> g.2))
      <$> group_by (λ p : nat * (bytes * T), p.1 / ri) (enum_from n l).
Proof.
  revert n. induction l as [|kv l IH]; intros n; [cbn; by rewrite !group_by_nil|].
  unfold map_items in *. rewrite fmap_cons. cbn [enum_from]. rewrite !group_by_cons, IH.
  destruct (group_by _ (enum_from (S n) l)) as [|[k g] r]; [done|]. cbn [fmap list_fmap fst snd]. by case_decide.
Qed.

Lemma block_of_map (kvs : list (bytes * T)) ri :
  block_of (map_items f kvs) ri
  = {| restart_interval := ri;
       vec_entry := (λ ie : nat * Entry T, (ie.1, entry_new (shared_len ie.2) (unshared_len ie.2)
                                                    (e_key ie.2) (f (e_item ie.2))))
                      <$> vec_entry (block_of kvs ri) |}.
Proof.
  unfold block_of. f_equal. cbn [vec_entry]. apply list_eq. intros i.
  rewrite !list_lookup_fmap, !enumerate_lookup. unfold map_items. rewrite list_lookup_fmap.
  destruct (kvs !! i) as [kv|]; [|done]. cbn [fmap option_fmap option_map]. f_equal.
  unfold block_entry. cbn [fst snd prod_map].
  assert (block_shared (prod_map id f <$> kvs) ri i = block_shared kvs ri i) as ->; [|done].
  unfold block_shared. case_decide; [done|]. do 2 f_equal. unfold sharding_shared_len, enumerate.
  fold (map_items f kvs). rewrite (group_by_map ri 0), <- list_fmap_compose. apply list_fmap_ext. intros j [k g] _. cbn [compose snd].
  rewrite <- longest_shared_len_map. unfold map_items. by rewrite <- !list_fmap_compose.
Qed.
End map_items.

Section stored_laws.
Context `{IE : IntegerEncoding} {IEL : IntegerEncodingLaws} {CRC : Crc32} {LZ : Lz4} {IT : Itertools} {ITL : ItertoolsLaws}.

(** The length a value carries is its own. *)
Definition value_made (v : Value) : Prop := v = value_from (v_bytes v).

Lemma value_encode_stored v bs : value_made v → value_encode (stored_value v) bs = value_encode v bs.
Proof. unfold value_made, stored_value. intros ->. by destruct v as [n [[|b bs']|]]. Qed.

Lemma stored_value_wf v : fits_u32 (length (default [] (v_bytes v))) → value_wf (stored_value v).
Proof. unfold stored_value. by destruct v as [n [[|b bs]|]]. Qed.

Lemma to_raw_stored (kvs : list (bytes * Value)) ri bs :
  Forall (λ kv, value_made kv.2) kvs → to_raw (block_of (map_items stored_value kvs) ri) bs = to_raw (block_of kvs ri) bs.
Proof.
  intros Hm. rewrite block_of_map. unfold to_raw. cbn [vec_entry].
  assert (Forall (λ ie : nat * Entry Value, value_made (e_item ie.2)) (vec_entry (block_of kvs ri))) as Hm'.
  { cbn [block_of vec_entry]. apply Forall_fmap, Forall_forall. intros [i kv] (j & Hj)%list_elem_of_lookup.
    rewrite enumerate_lookup in Hj. destruct (kvs !! j) eqn:E; simplify_eq/=. by eapply Forall_lookup_1 in Hm. }
  assert (∀ acc, fold_left (λ acc ie, entry_encode ie.2 acc)
    ((λ ie : nat * Entry Value, (ie.1, entry_new (shared_len ie.2) (unshared_len ie.2) (e_key ie.2)
        (stored_value (e_item ie.2)))) <$> vec_entry (block_of kvs ri)) acc
    = fold_left (λ acc ie, entry_encode ie.2 acc) (vec_entry (block_of kvs ri)) acc) as E; [|by rewrite E].
  induction Hm' as [|ie l Hie _ IH]; intros acc; [done|]. rewrite fmap_cons. cbn [fold_left snd].
  rewrite IH. f_equal. unfold entry_encode. cbn [entry_new e_item e_key shared_len unshared_len item_encode value_item].
  by rewrite value_encode_stored.
Qed.

Lemma block_encode_stored (kvs : list (bytes * Value)) ri ct bs :
  Forall (λ kv, value_made kv.2) kvs →
  block_encode (block_of (map_items stored_value kvs) ri) ct bs = block_encode (block_of kvs ri) ct bs.
Proof. intros Hm. unfold block_encode. by destruct ct; rewrite to_raw_stored. Qed.

(** What a data block can be built from: keys and values below 4 GiB. *)
Definition kvs_made (kvs : list (bytes * Value)) : Prop :=
  Forall (λ kv, fits_u32 (length kv.1) ∧ value_made kv.2 ∧ fits_u32 (length (default [] (v_bytes kv.2)))) kvs.

Lemma kvs_made_values kvs : kvs_made kvs → Forall (λ kv, value_made kv.2) kvs.
Proof. intros Hm. eapply Forall_impl; [exact Hm|]. by intros kv (_ & ? & _). Qed.

Lemma kvs_made_wf kvs : kvs_made kvs → kvs_wf (map_items stored_value kvs).
Proof.
  intros Hm kv (kv0 & -> & Hin)%list_elem_of_fmap. eapply Forall_forall in Hm as (Hk & _ & Hv); [|done].
  split; [done|by apply stored_value_wf].
Qed.

Lemma crc_clear_stored (kvs : list (bytes * Value)) ri :
  Forall (λ kv, value_made kv.2) kvs → crc_clear (block_of kvs ri) →
  crc_clear (block_of (map_items stored_value kvs) ri).
Proof.
  intros Hm. unfold crc_clear. pose proof (to_raw_stored kvs ri [] Hm) as E. rewrite E. intros Hc.
  rewrite !to_raw_spec, !app_nil_l in E. apply app_inj_2 in E as [-> _]; [done|]. by rewrite !encode_fixed_length.
Qed.

Lemma map_items_sorted (kvs : list (bytes * Value)) : ksorted kvs → ksorted (map_items stored_value kvs).
Proof. intros Hs. apply StronglySorted_map. eapply StronglySorted_impl; [|exact Hs]. by intros x y _ _ ?. Qed.

Lemma btree_get_map_items {T T'} (f : T → T') key (kvs : list (bytes * T)) :
  btree_get key (map_items f kvs) = f <$> btree_get key kvs.
Proof. unfold map_items. induction kvs as [|[k v] l IH]; [done|]. cbn. by destruct (cmp key k). Qed.
End stored_laws.

Section block_properties.
Context `{IE : IntegerEncoding} {IEL : IntegerEncodingLaws} {CRC : Crc32} {LZ : Lz4}.
Context {CRCL : Crc32Laws} {LZL : Lz4Laws} {IT : Itertools} {ITL : ItertoolsLaws}.

(** C31: a data block built from sorted pairs, of keys and values below 4 GiB, written (plain
    or compressed) and read back answers every lookup like the map of those pairs, deletion
    markers included: what is stored of the value and [true] for a key it holds, nothing and
    [false] for any other.  A present empty value is read back as a deletion.  The block
    must not run into the inverted checksum test, which would refuse it. *)
Theorem block_reload_find (kvs : list (bytes * Value)) ri ct :
  ri ≠ 0 → ksorted kvs → kvs_made kvs →
  ∃ b, block_new kvs ri = Ok b ∧
    (crc_clear b →
     ∃ b', block_decode (block_encode b ct []) ct ri = Ok b' ∧
       ∀ key, block_find b' key =
         Ok (match btree_get key kvs with
             | Some v => (stored (v_bytes v), true)
             | None => (None, false)
             end)).
Proof.
  intros Hri Hs Hm. exists (block_of kvs ri). split; [by apply block_new_Ok|].
  intros Hcrc. exists (block_of (map_items stored_value kvs) ri). split.
  - rewrite <- (block_encode_stored kvs) by by apply kvs_made_values.
    apply (block_decode_encode (block_of (map_items stored_value kvs) ri)); [by apply block_of_wf, kvs_made_wf|].
    apply crc_clear_stored; [by apply kvs_made_values|done].
  - intros key. rewrite block_find_spec by (done || by apply map_items_sorted).
    rewrite btree_get_map_items. by destruct (btree_get key kvs).
Qed.

(** [find_with_upper] returns the item of the least key that is not below the
    one sought, and of the last key when there is none: on an index block, the block
    that can hold the key. *)
Theorem find_with_upper_least {T} (kvs : list (bytes * T)) ri key :
  ri ≠ 0 → ksorted kvs → kvs ≠ [] →
  ∃ b i kv, block_new kvs ri = Ok b ∧ kvs !! i = Some kv ∧
    find_with_upper b key = Ok kv.2 ∧
    (∀ j kv', kvs !! j = Some kv' → j < i → cmp kv'.1 key = Lt) ∧
    (cmp kv.1 key = Lt → i = length kvs - 1).
Proof.
  intros Hri Hs Hne. set (i := min (length kvs - 1) (rank key kvs)).
  assert (0 < length kvs) as Hlen by (destruct kvs; [done|simpl; lia]).
  destruct (lookup_lt_is_Some_2 kvs i) as [kv Hkv]; [lia|].
  exists (block_of kvs ri), i, kv. split_and!.
  - by apply block_new_Ok.
  - done.
  - rewrite find_with_upper_spec by done. fold i. by rewrite Hkv.
  - intros j kv' Hj Hlt. apply (rank_spec key kvs j kv' Hs Hj). lia.
  - intros Hlt. apply (rank_spec key kvs i kv Hs Hkv) in Hlt. lia.
Qed.

(** C35: decoding never runs out of rounds or panics on data of at least four bytes:
    it returns a block or an error, whatever the bytes. *)
Theorem block_decode_total {T} {BI : BlockItem T} {BIL : BlockItemLaws T} (buf : bytes) ri :
  4 ≤ length buf → from_raw (T:=T) buf ri ≠ Panic.
Proof.
  intros Hlen. unfold from_raw. rewrite decide_False by (intros ->; simpl in Hlen; lia).
  unfold usize_sub, CRC_SIZE. rewrite decide_True by done. cbn [res_bind].
  case_decide; [done|].
  pose proof (batch_decode_loop_total (S (length (take (length buf - 4) buf))) 0
                (take (length buf - 4) buf) ltac:(lia)) as Ht.
  unfold batch_decode. by destruct (batch_decode_loop _ _ _).
Qed.

(** C36: the checksum of a block does not protect it: with the stored checksum replaced
    by any other four bytes the block still decodes, unless those bytes are the
    checksum of the whole buffer, the one case that is reported as a mismatch. *)
Theorem checksum_not_checked {T} {BI : BlockItem T} {BIL : BlockItemLaws T}
    (b : Block T) (t : bytes) :
  block_wf b → length t = 4 →
  to_raw b [] = block_payload b ++ encode_fixed 4 (crc32_hash (block_payload b)) ∧
  from_raw (block_payload b ++ t) (restart_interval b)
  = if decide (crc32_hash (block_payload b ++ t) = decode_fixed t)
    then Err CrcMisMatch else Ok b.
Proof. intros Hwf Ht. split; [by rewrite to_raw_spec|by apply from_raw_trailer]. Qed.

(** The prefix length a restart group shares is the longest one: the keys of the
    group agree on their first [n] bytes exactly when [n] is at most that length. *)
Theorem longest_shared_len_longest {T} (s : list (bytes * T)) n :
  s ≠ [] →
  (∀ kv kv', kv ∈ s → kv' ∈ s → n ≤ length kv.1 ∧ take n kv.1 = take n kv'.1)
  ↔ n ≤ longest_shared_len s.
Proof.
  intros Hne. destruct (longest_shared_len_spec s) as (Hle & Heq & Hmax). split.
  - intros Hc. destruct (decide (n ≤ longest_shared_len s)) as [|Hgt]; [done|]. exfalso.
    assert (∀ kv, kv ∈ s → n ≤ length kv.1) as Hlen by (intros kv Hkv; by apply (Hc kv kv)).
    assert (is_common_prefix s n = false) as Hf.
    { apply Hmax. split; [lia|]. by apply min_key_len_greatest. }
    rewrite (proj2 (is_common_prefix_true s n Hlen)) in Hf; [done|].
    intros kv kv' Hkv Hkv'. by apply Hc.
  - intros Hn kv kv' Hkv Hkv'. specialize (Hle kv Hkv). split; [lia|].
    pose proof (f_equal (take n) (Heq _ _ Hkv Hkv')) as E. rewrite !take_take in E.
    by replace (n `min` longest_shared_len s) with n in E by lia.
Qed.
End block_properties.

(** ** Witnesses *)

Import Reference.

Definition sample_kvs : list (bytes * Value) :=
  [([x01], value_from (Some [x09])); ([x01; x02], value_from None);
   ([x01; x02; x03], value_from (Some [x05; x06])); ([x02; x02], value_from (Some [x07]));
   ([x02; x03], value_from (Some [x08]))].

Lemma sample_kvs_sorted : ksorted sample_kvs.
Proof. repeat constructor. Qed.

Lemma sample_kvs_wf : kvs_wf sample_kvs.
Proof.
  intros kv Hkv. unfold sample_kvs in Hkv.
  repeat (apply elem_of_cons in Hkv as [->|Hkv]; [by repeat split|]).
  by apply not_elem_of_nil in Hkv.
Qed.

(** One of the values is present and empty. *)
Definition empty_kvs : list (bytes * Value) := sample_kvs ++ [([x03], value_from (Some []))].

Lemma empty_kvs_made : kvs_made empty_kvs.
Proof. repeat (apply Forall_cons; split; [by repeat split|]). apply Forall_nil. exact I. Qed.

Lemma block_reload_find_witness :
  ∃ b b', block_new empty_kvs 2 = Ok b ∧
    block_decode (block_encode b CompressLZ4 []) CompressLZ4 2 = Ok b' ∧
    block_find b' [x01; x02; x03] = Ok (Some [x05; x06], true) ∧
    block_find b' [x01; x02] = Ok (None, true) ∧
    block_find b' [x03] = Ok (None, true) ∧
    block_find b' [x01; x05] = Ok (None, false).
Proof.
  destruct (block_reload_find empty_kvs 2 CompressLZ4) as (b & Hb & Hreload);
    [done|repeat constructor|apply empty_kvs_made|].
  destruct Hreload as (b' & Hb' & Hfind).
  { vm_compute in Hb. injection Hb as <-. unfold crc_clear. vm_compute. done. }
  exists b, b'. split_and!; [done|done|rewrite Hfind; done..].
Defined.

Lemma find_with_upper_least_witness :
  ∃ b i kv, block_new sample_kvs 2 = Ok b ∧ sample_kvs !! i = Some kv ∧
    find_with_upper b [x01; x05] = Ok kv.2 ∧
    (∀ j kv', sample_kvs !! j = Some kv' → j < i → cmp kv'.1 [x01; x05] = Lt) ∧
    (cmp kv.1 [x01; x05] = Lt → i = length sample_kvs - 1).
Proof. apply find_with_upper_least; [done|apply sample_kvs_sorted|done]. Defined.

Lemma block_decode_total_witness : from_raw (T:=Value) [xff; xff; xff; xff; xff] 3 ≠ Panic.
Proof. apply block_decode_total. simpl. lia. Defined.

Lemma checksum_not_checked_witness :
  from_raw (block_payload (block_of sample_kvs 2) ++ [x00; x00; x00; x00]) 2
  = Ok (block_of sample_kvs 2).
Proof.
  destruct (checksum_not_checked (block_of sample_kvs 2) [x00; x00; x00; x00]) as [_ E];
    [apply block_of_wf; [done|apply sample_kvs_wf]|done|].
  rewrite decide_False in E by (vm_compute; done). exact E.
Defined.

Lemma longest_shared_len_longest_witness :
  2 ≤ longest_shared_len (drop 1 (take 3 sample_kvs)).
Proof.
  apply longest_shared_len_longest; [done|]. intros kv kv' Hkv Hkv'. simpl in Hkv, Hkv'.
  repeat (apply elem_of_cons in Hkv as [->|Hkv];
    [repeat (apply elem_of_cons in Hkv' as [->|Hkv']; [split; [simpl; lia|done]|]);
     by apply not_elem_of_nil in Hkv'|]).
  by apply not_elem_of_nil in Hkv.
Defined.
