(* ===== verification/Iterator.v ===== *)
(** * Iterators (src/kernel/lsm/iterator/mod.rs, merging_iter.rs)

    The traits [Iter], [SeekIter] and [ForwardIter] as classes over an iterator state;
    what an iterator promises its client ([iter_yields]: the items it will produce);
    and the merging iterator, proved against that promise to produce the sorted union
    of its inputs with the earlier input winning on equal keys. *)

From S2P Require Import Prelude Std.
From Stdlib Require Import ZArith Lia Strings.Byte Sorted.
From stdpp Require Import base list gmap.

Set Default Goal Selector "!".

(** A key and its value, absent for a deletion marker. *)
Abbreviation KeyValue := (bytes * option bytes)%type.

Inductive Seek : Type :=
  | SeekFirst
  | SeekLast
  | SeekBackward (key : bytes).

Class Iter (It Item : Type) := {
  try_next : It → KernelResult (option Item * It);
  is_valid : It → bool;
}.

Class SeekIter (It Item : Type) `{Iter It Item} :=
  seek : Seek → It → KernelResult It.

Class ForwardIter (It Item : Type) `{Iter It Item} :=
  try_prev : It → KernelResult (option Item * It).

(** ** What an iterator promises

    [iter_yields it l]: successive calls of [try_next] produce exactly [l], then the
    end. *)
Fixpoint iter_yields {It Item} `{Iter It Item} (it : It) (l : list Item) : Prop :=
  match l with
  | [] => ∃ it', try_next it = Ok (None, it')
  | x :: l' => ∃ it', try_next it = Ok (Some x, it') ∧ iter_yields it' l'
  end.

(** [iter_exhausts it l]: the same, and once at the end the iterator stays there. *)
Fixpoint iter_ends {It Item} `{Iter It Item} (n : nat) (it : It) : Prop :=
  match n with
  | O => True
  | S n' => ∃ it', try_next it = Ok (None, it') ∧ iter_ends n' it'
  end.

Fixpoint iter_exhausts {It Item} `{Iter It Item} (it : It) (l : list Item) : Prop :=
  match l with
  | [] => ∀ n, iter_ends n it
  | x :: l' => ∃ it', try_next it = Ok (Some x, it') ∧ iter_exhausts it' l'
  end.

Lemma iter_exhausts_yields {It Item} `{Iter It Item} (it : It) l :
  iter_exhausts it l → iter_yields it l.
Proof.
  revert it. induction l as [|x l IH]; intros it; simpl.
  - intros Hn. destruct (Hn 1) as (it' & ? & _). eauto.
  - intros (it' & ? & ?). eauto.
Qed.

Lemma iter_ends_step {It Item} `{Iter It Item} (it : It) :
  (∀ n, iter_ends n it) → ∃ it', try_next it = Ok (None, it') ∧ ∀ n, iter_ends n it'.
Proof.
  intros Hn. destruct (Hn 1) as (it' & Hit & _). exists it'. split; [done|]. intros n.
  destruct (Hn (S n)) as (it'' & Hit' & Hends). rewrite Hit in Hit'. by injection Hit' as <-.
Qed.

(** Draining an iterator with bounded effort, to evaluate it. *)
Fixpoint iter_drain {It Item} `{Iter It Item} (fuel : nat) (it : It) : KernelResult (list Item) :=
  match fuel with
  | O => Panic
  | S fuel' =>
      let? (o, it') := try_next it in
      match o with
      | Some x => let? l := iter_drain fuel' it' in Ok (x :: l)
      | None => Ok []
      end
  end.

Lemma iter_drain_yields {It Item} `{Iter It Item} (it : It) l fuel :
  iter_yields it l → length l < fuel → iter_drain fuel it = Ok l.
Proof.
  revert it fuel. induction l as [|x l IH]; intros it [|fuel] Hy Hf; simpl in *; try lia.
  - destruct Hy as [it' ->]. done.
  - destruct Hy as (it' & -> & Hy). simpl. rewrite IH by (done || lia). done.
Qed.

(** A list as an iterator ([std::vec::IntoIter], [btree_map::Range], [skipmap::Iter]). *)
#[global] Instance list_iter {A} : Iter (list A) A := {
  try_next l := Ok (match l with [] => (None, []) | x :: l' => (Some x, l') end);
  is_valid _ := true;
}.

Lemma list_iter_yields {A} (l : list A) : iter_yields l l.
Proof. induction l as [|x l IH]; simpl; eauto. Qed.

(** Two kinds of iterators in one vector: the [Box<dyn Iter>] of the code. *)
#[global] Instance sum_iter {It Jt Item} `{Iter It Item} `{Iter Jt Item} : Iter (It + Jt) Item := {
  try_next s :=
    match s with
    | inl i => let? (o, i') := try_next i in Ok (o, inl i')
    | inr j => let? (o, j') := try_next j in Ok (o, inr j')
    end;
  is_valid s := match s with inl i => is_valid i | inr j => is_valid j end;
}.

#[global] Instance sum_seek_iter {It Jt Item} `{SeekIter It Item} `{SeekIter Jt Item}
    : SeekIter (It + Jt) Item :=
  λ s x, match x with
         | inl i => let? i' := seek s i in Ok (inl i')
         | inr j => let? j' := seek s j in Ok (inr j')
         end.

Lemma sum_iter_yields_l {It Jt Item} `{Iter It Item} `{Iter Jt Item} (i : It) l :
  iter_yields i l → iter_yields (inl i : It + Jt) l.
Proof.
  revert i. induction l as [|x l IH]; intros i; simpl.
  - intros [i' ->]. simpl. eauto.
  - intros (i' & -> & Hy). simpl. eauto.
Qed.

Lemma sum_iter_yields_r {It Jt Item} `{Iter It Item} `{Iter Jt Item} (j : Jt) l :
  iter_yields j l → iter_yields (inr j : It + Jt) l.
Proof.
  revert j. induction l as [|x l IH]; intros j; simpl.
  - intros [j' ->]. simpl. eauto.
  - intros (j' & -> & Hy). simpl. eauto.
Qed.

(** ** The merging iterator *)

Record IterKey := mkIterKey {
  ik_num : nat;
  ik_key : bytes;
}.

#[global] Instance iter_key_ord : Ord IterKey :=
  λ a b, then_with (cmp (ik_key a) (ik_key b)) (cmp (ik_num a) (ik_num b)).

Record InnerIter := mkInnerIter {
  map_buf : list (IterKey * option bytes);
  next_buf : option KeyValue;
}.

Definition buf_map_insert (seek_map : list (IterKey * option bytes)) (num : nat)
    (item : KeyValue) : list (IterKey * option bytes) :=
  btree_insert {| ik_num := num; ik_key := item.1 |} item.2 seek_map.

Definition init_next_buf (inner : InnerIter) : InnerIter :=
  {| map_buf := map_buf inner;
     next_buf := (λ e, (ik_key e.1, e.2)) <$> head (map_buf inner) |}.

Section merging.
Context {It : Type} {II : Iter It KeyValue}.

Record MergingIter := mkMergingIter {
  vec_iter : list It;
  inner : InnerIter;
}.

(** The loop of [new]: every iterator gives its first item to the buffer. *)
Fixpoint merging_fill (num : nat) (its : list It) (map : list (IterKey * option bytes))
    : KernelResult (list It * list (IterKey * option bytes)) :=
  match its with
  | [] => Ok ([], map)
  | it :: its' =>
      let? (o, it') := try_next it in
      let map' := match o with
                  | Some item => buf_map_insert map num item
                  | None => map
                  end in
      let? (rest, map'') := merging_fill (S num) its' map' in
      Ok (it' :: rest, map'')
  end.

Definition merging_new (its : list It) : KernelResult MergingIter :=
  let? (its', map) := merging_fill 0 its [] in
  Ok {| vec_iter := its';
        inner := init_next_buf {| map_buf := map; next_buf := None |} |}.

(** The [while let] of [try_next]: pop the least entry, refill from its iterator,
    skip it when its key is the one being returned, else keep it for the next call.
    One round per input is enough when the inputs are strictly sorted
    ([merging_loop_spec]). *)
Fixpoint merging_loop (fuel : nat) (item_buf : KeyValue) (its : list It)
    (map : list (IterKey * option bytes))
    : KernelResult (list It * InnerIter) :=
  match fuel with
  | O => Panic
  | S fuel' =>
      match btree_pop_first map with
      | None => Ok (its, {| map_buf := []; next_buf := None |})
      | Some ((ik, value), map') =>
          let? it := or_panic (its !! ik_num ik) in
          let? (o, it') := try_next it in
          let its' := <[ik_num ik := it']> its in
          let map'' := match o with
                       | Some item => buf_map_insert map' (ik_num ik) item
                       | None => map'
                       end in
          if decide (item_buf.1 = ik_key ik) then merging_loop fuel' item_buf its' map''
          else Ok (its', {| map_buf := map''; next_buf := Some (ik_key ik, value) |})
      end
  end.

Definition merging_fuel (m : MergingIter) : nat := S (S (length (vec_iter m))).

Definition merging_try_next (m : MergingIter)
    : KernelResult (option KeyValue * MergingIter) :=
  match next_buf (inner m) with
  | Some item_buf =>
      let? (its, inner') :=
        merging_loop (merging_fuel m) item_buf (vec_iter m) (map_buf (inner m)) in
      Ok (Some item_buf, {| vec_iter := its; inner := inner' |})
  | None => Ok (None, m)
  end.

#[global] Instance merging_iter : Iter MergingIter KeyValue := {
  try_next := merging_try_next;
  is_valid m := forallb is_valid (vec_iter m);
}.

Context {SI : SeekIter It KeyValue}.

Fixpoint merging_seek_fill (s : Seek) (num : nat) (its : list It)
    (map : list (IterKey * option bytes))
    : KernelResult (list It * list (IterKey * option bytes)) :=
  match its with
  | [] => Ok ([], map)
  | it :: its' =>
      let? it0 := seek s it in
      let? (o, it') := try_next it0 in
      let map' := match o with
                  | Some item => buf_map_insert map num item
                  | None => map
                  end in
      let? (rest, map'') := merging_seek_fill s (S num) its' map' in
      Ok (it' :: rest, map'')
  end.

Definition merging_seek (s : Seek) (m : MergingIter) : KernelResult MergingIter :=
  match s with
  | SeekLast =>
      Ok {| vec_iter := vec_iter m;
            inner := init_next_buf {| map_buf := []; next_buf := next_buf (inner m) |} |}
  | _ =>
      let? (its, map) := merging_seek_fill s 0 (vec_iter m) [] in
      Ok {| vec_iter := its;
            inner := init_next_buf {| map_buf := map; next_buf := next_buf (inner m) |} |}
  end.

#[global] Instance merging_seek_iter : SeekIter MergingIter KeyValue := merging_seek.
End merging.
Arguments MergingIter It : clear implicits.

#[global] Instance iter_key_ord_laws : OrdLaws IterKey.
Proof.
  assert (∀ a b : IterKey, cmp a b = cmp (ik_key a, ik_num a) (ik_key b, ik_num b)) as E
    by done.
  split.
  - intros [n k] [n' k'] Hc. rewrite E in Hc. apply cmp_eq_iff in Hc. by simplify_eq/=.
  - intros a b. rewrite !E. apply cmp_antisym.
  - intros a b c. rewrite !E. apply cmp_lt_trans.
Qed.

(** ** What the merge produces

    The earlier of two iterators wins: inserting the iterators' items into a map from
    the last iterator to the first. *)
Definition merge_spec (ls : list (list KeyValue)) : list KeyValue :=
  btree_from_iter (concat (reverse ls)).

(** [e] comes from the first list that has its key. *)
Definition winner (ls : list (list KeyValue)) (e : KeyValue) : Prop :=
  ∃ i l, ls !! i = Some l ∧ e ∈ l ∧
         ∀ j l', j < i → ls !! j = Some l' → e.1 ∉ l'.*1.

Section merge_laws.
Context {K V : Type} {OK : Ord K} {OL : OrdLaws K}.

Lemma btree_extend_elem (l m : list (K * V)) e :
  ksorted l → ksorted m →
  e ∈ fold_left (λ m kv, btree_insert kv.1 kv.2 m) l m ↔
  e ∈ l ∨ (e ∈ m ∧ e.1 ∉ l.*1).
Proof.
  revert m. induction l as [|[k v] l IH]; intros m Hl Hm; simpl; [set_solver|].
  apply ksorted_cons_inv in Hl as [Hl Hlt].
  rewrite IH by (done || by apply btree_insert_sorted).
  rewrite btree_insert_elem by done. rewrite elem_of_cons, not_elem_of_cons.
  split; [intros [?|[[->|[??]] ?]]; auto|].
  intros [[->|?]|[? [? ?]]]; auto. right. split; [by left|].
  intros (b & Hb & Hin)%list_elem_of_fmap. apply Hlt in Hin. unfold kv_lt in Hin.
  simpl in *. rewrite <- Hb in Hin. by apply cmp_lt_irrefl in Hin.
Qed.
End merge_laws.

Lemma merge_spec_cons l ls :
  merge_spec (l :: ls) = fold_left (λ m kv, btree_insert kv.1 kv.2 m) l (merge_spec ls).
Proof.
  unfold merge_spec, btree_from_iter. rewrite reverse_cons, concat_app. simpl.
  by rewrite app_nil_r, fold_left_app.
Qed.

Lemma merge_spec_sorted ls : ksorted (merge_spec ls).
Proof. apply btree_from_iter_sorted. Qed.

Lemma winner_cons l ls e : winner (l :: ls) e ↔ e ∈ l ∨ (winner ls e ∧ e.1 ∉ l.*1).
Proof.
  split.
  - intros ([|i] & l' & Hi & He & Hj); simplify_eq/=; [by left|]. right. split.
    + exists i, l'. split_and!; [done..|]. intros j l'' Hlt Hl''.
      apply (Hj (S j)); [lia|done].
    + apply (Hj 0); [lia|done].
  - intros [He|[(i & l' & Hi & He & Hj) Hn]].
    + exists 0, l. split_and!; [done..|]. lia.
    + exists (S i), l'. split_and!; [done..|]. intros [|j] l'' Hlt Hl''; simplify_eq/=; [done|].
      apply (Hj j); [lia|done].
Qed.

Lemma merge_spec_elem ls e :
  Forall (λ l, ksorted l) ls → e ∈ merge_spec ls ↔ winner ls e.
Proof.
  induction 1 as [|l ls Hl _ IH].
  - split; [by intros ?%not_elem_of_nil|by intros (i & l & ? & _)].
  - rewrite merge_spec_cons, btree_extend_elem by (done || apply merge_spec_sorted).
    by rewrite winner_cons, IH.
Qed.

(** ** The buffer

    [buffers rems map]: the map holds the first item of what is left of every
    iterator, and the iterators are about to yield the others. *)

Definition buffers (rems : list (list KeyValue)) (map : list (IterKey * option bytes)) : Prop :=
  ksorted map ∧
  ∀ e, e ∈ map ↔ ∃ tl, rems !! ik_num e.1 = Some ((ik_key e.1, e.2) :: tl).

Definition heads_from (num : nat) (rems : list (list KeyValue)) (e : IterKey * option bytes)
    : Prop :=
  num ≤ ik_num e.1 ∧ ∃ tl, rems !! (ik_num e.1 - num) = Some ((ik_key e.1, e.2) :: tl).

Section buffer_laws.
Implicit Types rems : list (list KeyValue).

(** The first entry of the buffer is the next item of the merge. *)
Lemma buffers_first rems num k v map' :
  Forall (λ l, ksorted l) rems → buffers rems (({| ik_num := num; ik_key := k |}, v) :: map') →
  ∃ tl, rems !! num = Some ((k, v) :: tl) ∧
        (∀ i l x, rems !! i = Some l → x ∈ l → le_b k x.1 = true) ∧
        (∀ i l, i < num → rems !! i = Some l → k ∉ l.*1).
Proof.
  intros Hall [[Hs Hlt]%ksorted_cons_inv Hmap].
  destruct (proj1 (Hmap _) ltac:(by left)) as [tl Htl]; simpl in Htl.
  assert (∀ i k' v' tl', rems !! i = Some ((k', v') :: tl') → i ≠ num →
    cmp k k' = Lt ∨ (k = k' ∧ num < i)) as Hothers.
  { intros i k' v' tl' Hi Hne.
    assert (({| ik_num := i; ik_key := k' |}, v')
      ∈ ({| ik_num := num; ik_key := k |}, v) :: map') as Hin by (apply Hmap; eauto).
    apply elem_of_cons in Hin as [?|Hin]; [by simplify_eq|]. apply Hlt in Hin.
    unfold kv_lt, cmp, iter_key_ord in Hin; simpl in Hin.
    destruct (cmp k k') eqn:E; simpl in Hin; [|by left|done].
    apply cmp_eq_iff in E as ->. right. split; [done|]. by apply Nat.compare_lt_iff. }
  assert (∀ i k' v' tl' x, rems !! i = Some ((k', v') :: tl') →
    x ∈ (k', v') :: tl' → le_b k' x.1 = true) as Hhead.
  { intros i k' v' tl' x Hi Hx. rewrite Forall_lookup in Hall.
    apply Hall, ksorted_cons_inv in Hi as [_ Hi].
    apply elem_of_cons in Hx as [->|Hx]; [apply le_b_refl|]. by apply cmp_lt_le, Hi. }
  exists tl. split_and!; [done|..].
  - intros i [|[k' v'] tl'] x Hi Hx; [by apply not_elem_of_nil in Hx|].
    pose proof (Hhead _ _ _ _ _ Hi Hx) as Hle.
    destruct (decide (i = num)) as [->|Hne]; [by simplify_eq|].
    destruct (Hothers _ _ _ _ Hi Hne) as [Hk|[-> _]]; [|done].
    apply cmp_lt_le. by eapply cmp_lt_le_trans.
  - intros i [|[k' v'] tl'] Hi Hl; [by intros ?%not_elem_of_nil|].
    destruct (Hothers _ _ _ _ Hl ltac:(lia)) as [Hk|[_ ?]]; [|lia].
    intros (x & -> & Hx)%list_elem_of_fmap.
    pose proof (Hhead _ _ _ _ _ Hl Hx) as Hle. apply (cmp_lt_irrefl x.1).
    by eapply cmp_lt_le_trans.
Qed.

Lemma buffers_empty rems : buffers rems [] → ∀ e, ¬ winner rems e.
Proof.
  intros [_ Hmap] e (i & l & Hi & He & _).
  destruct l as [|[k v] tl]; [by apply not_elem_of_nil in He|].
  assert (({| ik_num := i; ik_key := k |}, v) ∈ []) as []%not_elem_of_nil
    by (apply Hmap; eauto).
Qed.

(** Popping the first entry and refilling from its iterator. *)
Lemma buffers_pop rems num k v tl map' :
  buffers rems (({| ik_num := num; ik_key := k |}, v) :: map') →
  rems !! num = Some ((k, v) :: tl) →
  buffers (<[num := tl]> rems)
    (match head tl with Some item => buf_map_insert map' num item | None => map' end).
Proof.
  intros [[Hs Hlt]%ksorted_cons_inv Hmap] Hnum.
  assert (∀ e, e ∈ map' ↔
    ik_num e.1 ≠ num ∧ ∃ tl, rems !! ik_num e.1 = Some ((ik_key e.1, e.2) :: tl)) as Hrest.
  { intros [[n' k'] v']; simpl. specialize (Hmap (mkIterKey n' k', v')). simpl in Hmap.
    rewrite elem_of_cons in Hmap. split.
    - intros Hin. destruct (proj1 Hmap (or_intror Hin)) as [tl' Htl'].
      split; [|eauto]. intros ->. simplify_eq. by apply Hlt, cmp_lt_irrefl in Hin.
    - intros [Hne Htl]. destruct (proj2 Hmap Htl) as [?|]; [by simplify_eq|done]. }
  assert (num < length rems) as Hlen by (by eapply lookup_lt_Some).
  destruct tl as [|[k1 v1] tl]; simpl.
  - split; [done|]. intros [[n' k'] v']; simpl. rewrite Hrest; simpl.
    destruct (decide (n' = num)) as [->|Hne].
    + rewrite list_lookup_insert_eq by done. naive_solver.
    + rewrite list_lookup_insert_ne by done. naive_solver.
  - split; [by apply btree_insert_sorted|]. intros [[n' k'] v']; simpl.
    unfold buf_map_insert. rewrite btree_insert_elem, Hrest by done; simpl.
    destruct (decide (n' = num)) as [->|Hne].
    + rewrite list_lookup_insert_eq by done. naive_solver.
    + rewrite list_lookup_insert_ne by done. naive_solver.
Qed.

Lemma Forall_sorted_pop rems num k v tl :
  Forall (λ l, ksorted l) rems → rems !! num = Some ((k, v) :: tl) →
  Forall (λ l, ksorted l) (<[num := tl]> rems).
Proof.
  intros Hall Hnum. apply Forall_insert; [done|].
  rewrite Forall_lookup in Hall. by apply Hall, ksorted_cons_inv in Hnum as [].
Qed.

Lemma winner_first rems num k v tl e :
  rems !! num = Some ((k, v) :: tl) →
  Forall (λ l, ksorted l) rems →
  (∀ i l, i < num → rems !! i = Some l → k ∉ l.*1) →
  winner rems e ↔ e = (k, v) ∨ (e.1 ≠ k ∧ winner (<[num := tl]> rems) e).
Proof.
  intros Hnum Hall Hfirst.
  assert (num < length rems) as Hlen by (by eapply lookup_lt_Some). split.
  - intros (i & l & Hi & He & Hj). destruct (decide (e.1 = k)) as [Hk|Hk].
    + left. destruct (decide (i < num)) as [?|Hge].
      { destruct (Hfirst i l); [done..|]. rewrite <- Hk. by apply list_elem_of_fmap_2. }
      destruct (decide (num < i)) as [Hlt|].
      { destruct (Hj _ _ Hlt Hnum). simpl. rewrite Hk. by left. }
      assert (i = num) as -> by lia. rewrite Forall_lookup in Hall. simplify_eq.
      destruct e as [k' v']; simplify_eq/=. f_equal.
      apply (ksorted_functional ((k', v) :: tl) k'); [by eapply Hall|done|by left].
    + right. split; [done|]. destruct (decide (i = num)) as [->|Hne].
      * exists num, tl. rewrite list_lookup_insert_eq by done. simplify_eq.
        split_and!; [done|by apply elem_of_cons in He as [->|]|].
        intros j l' Hlt. rewrite list_lookup_insert_ne by lia. eauto.
      * exists i, l. rewrite list_lookup_insert_ne by done. split_and!; [done..|].
        intros j l' Hlt. destruct (decide (j = num)) as [->|Hne'].
        -- rewrite list_lookup_insert_eq by done. intros ?; simplify_eq.
           intros Hin. apply (Hj _ _ Hlt Hnum). simpl. by right.
        -- rewrite list_lookup_insert_ne by done. eauto.
  - intros [->|[Hk (i & l & Hi & He & Hj)]].
    + exists num, ((k, v) :: tl). split_and!; [done|by left|eauto].
    + destruct (decide (i = num)) as [->|Hne].
      * rewrite list_lookup_insert_eq in Hi by done. simplify_eq.
        exists num, ((k, v) :: l). split_and!; [done|by right|].
        intros j l' Hlt Hl'. apply (Hj j); [done|]. by rewrite list_lookup_insert_ne by lia.
      * rewrite list_lookup_insert_ne in Hi by done. exists i, l. split_and!; [done..|].
        intros j l' Hlt Hl'. destruct (decide (j = num)) as [->|Hne'].
        -- simplify_eq/=. rewrite not_elem_of_cons. split; [done|].
           apply (Hj num); [done|]. by rewrite list_lookup_insert_eq.
        -- apply (Hj j); [done|]. by rewrite list_lookup_insert_ne.
Qed.

Lemma merge_spec_first rems num k v map' tl :
  Forall (λ l, ksorted l) rems → buffers rems (({| ik_num := num; ik_key := k |}, v) :: map') →
  rems !! num = Some ((k, v) :: tl) →
  merge_spec rems = (k, v) :: filter (λ e, e.1 ≠ k) (merge_spec (<[num := tl]> rems)).
Proof.
  intros Hall Hb Hnum.
  destruct (buffers_first _ _ _ _ _ Hall Hb) as (tl' & Hnum' & Hmin & Hfirst). simplify_eq.
  pose proof (Forall_sorted_pop _ _ _ _ _ Hall Hnum) as Hall'.
  apply ksorted_ext; [apply merge_spec_sorted| |].
  - apply ksorted_cons; [apply ksorted_filter, merge_spec_sorted|].
    intros e [Hne Hw]%list_elem_of_filter. apply merge_spec_elem in Hw; [|done].
    assert (winner rems e) as (i & l & Hi & He & _)
      by (eapply winner_first; eauto).
    pose proof (Hmin _ _ _ Hi He) as Hle. apply le_b_true in Hle as [|]; [done|]. by subst k.
  - intros e. rewrite elem_of_cons, list_elem_of_filter, !merge_spec_elem by done.
    by apply winner_first.
Qed.
End buffer_laws.

(** ** The merging iterator produces the merge *)

Lemma filter_insert_lt {A} (P : A → Prop) `{∀ x, Decision (P x)} (l : list A) i x y :
  l !! i = Some x → P x → ¬ P y →
  length (filter P (<[i := y]> l)) < length (filter P l).
Proof.
  intros Hi Hx Hy. rewrite <- (take_drop_middle l i x Hi) at 2.
  rewrite insert_take_drop by (by eapply lookup_lt_Some).
  rewrite !filter_app, !length_app, (filter_cons_True _ x), (filter_cons_False _ y) by done.
  simpl. lia.
Qed.

Section merging_laws.
Context {It : Type} {II : Iter It KeyValue}.
Implicit Types (its : list It) (rems : list (list KeyValue)).

(** The first item of [l] is in the buffer, the iterator yields the others; an
    exhausted iterator is not asked again. *)
Definition feeds (it : It) (l : list KeyValue) : Prop :=
  match l with [] => True | _ :: tl => iter_yields it tl end.

Lemma iter_yields_step (it : It) l :
  iter_yields it l → ∃ it', try_next it = Ok (head l, it') ∧ feeds it' l.
Proof. destruct l as [|x l]; [by intros [it' Hn]; exists it'|done]. Qed.

(** [its] and [map] hold the items [rems], none of them below [b]. *)
Record holds its (map : list (IterKey * option bytes)) rems (b : bytes) : Prop := {
  holds_sorted : Forall (λ l, ksorted l) rems;
  holds_buffers : buffers rems map;
  holds_feeds : Forall2 feeds its rems;
  holds_above i l x : rems !! i = Some l → x ∈ l → le_b b x.1 = true;
}.

(** What is left to return. *)
Definition merging_out its (inn : InnerIter) (out : list KeyValue) : Prop :=
  match next_buf inn with
  | None => out = []
  | Some item => ∃ rems,
      holds its (map_buf inn) rems item.1 ∧
      out = item :: filter (λ e, e.1 ≠ item.1) (merge_spec rems)
  end.

Lemma holds_pop its rems num k v map' b :
  holds its (({| ik_num := num; ik_key := k |}, v) :: map') rems b →
  ∃ tl it it',
    rems !! num = Some ((k, v) :: tl) ∧ its !! num = Some it ∧
    try_next it = Ok (head tl, it') ∧
    holds (<[num := it']> its)
      (match head tl with Some item => buf_map_insert map' num item | None => map' end)
      (<[num := tl]> rems) k.
Proof.
  intros [Hall Hb Hy _].
  destruct (buffers_first _ _ _ _ _ Hall Hb) as (tl & Hnum & Hmin & Hfirst).
  destruct (Forall2_lookup_r _ _ _ num _ Hy Hnum) as (it & Hit & Hyield).
  apply iter_yields_step in Hyield as (it' & Hn & Hf).
  exists tl, it, it'. split_and!; [done..|]. split.
  - by eapply Forall_sorted_pop.
  - by eapply buffers_pop.
  - by apply Forall2_insert.
  - intros i l x Hi Hx. destruct (decide (i = num)) as [->|Hne].
    + rewrite list_lookup_insert_eq in Hi by (by eapply lookup_lt_Some). simplify_eq.
      eapply Hmin; [done|by right].
    + rewrite list_lookup_insert_ne in Hi by done. by eapply Hmin.
Qed.

(** The rounds the loop may skip: the lists whose first key is the one returned. *)
Definition heads_at (b : bytes) rems : nat :=
  length (filter (λ l : list KeyValue, fst <$> head l = Some b) rems).

Lemma heads_at_pop b rems num v tl :
  Forall (λ l, ksorted l) rems → rems !! num = Some ((b, v) :: tl) →
  heads_at b (<[num := tl]> rems) < heads_at b rems.
Proof.
  intros Hall Hnum. eapply filter_insert_lt; [done|done|].
  rewrite Forall_lookup in Hall. apply Hall, ksorted_cons_inv in Hnum as [_ Hlt].
  destruct tl as [|[k' v'] tl]; [done|]. simpl. intros ?; simplify_eq.
  apply (cmp_lt_irrefl b). apply (Hlt (b, v')). by left.
Qed.

Lemma filter_ne_above its map rems b :
  holds its map rems b →
  (∀ i l x, rems !! i = Some l → x ∈ l → x.1 ≠ b) →
  filter (λ e, e.1 ≠ b) (merge_spec rems) = merge_spec rems.
Proof.
  intros [Hall _ _ _] Hne. apply filter_all.
  intros e (i & l & Hi & He & _)%merge_spec_elem; eauto.
Qed.

Lemma merging_loop_spec fuel its map rems item :
  holds its map rems item.1 → heads_at item.1 rems < fuel →
  ∃ its' inn, merging_loop fuel item its map = Ok (its', inn) ∧
    merging_out its' inn (filter (λ e, e.1 ≠ item.1) (merge_spec rems)).
Proof.
  revert its map rems. induction fuel as [|fuel IH]; intros its map rems Hh Hf; [lia|].
  cbn [merging_loop]. destruct map as [|[[num k] v] map']; simpl btree_pop_first; cbv iota.
  { eexists _, _. split; [done|]. unfold merging_out; simpl.
    destruct (merge_spec rems) as [|e r] eqn:E; [done|]. exfalso.
    apply (buffers_empty rems (holds_buffers _ _ _ _ Hh) e).
    apply merge_spec_elem; [apply Hh|]. rewrite E. by left. }
  destruct (holds_pop _ _ _ _ _ _ _ Hh) as (tl & it & it' & Hnum & Hit & Hn & Hh').
  cbn [ik_num ik_key]. rewrite Hit. cbn [or_panic res_bind]. rewrite Hn. cbn [res_bind].
  pose proof (merge_spec_first _ _ _ _ _ _ (holds_sorted _ _ _ _ Hh)
                (holds_buffers _ _ _ _ Hh) Hnum) as Hm.
  destruct (decide (item.1 = k)) as [Hk|Hk].
  - subst k. destruct (IH _ _ _ Hh') as (its' & inn & Hl & Ho).
    { pose proof (heads_at_pop _ _ _ _ _ (holds_sorted _ _ _ _ Hh) Hnum). lia. }
    exists its', inn. split; [done|]. rewrite Hm.
    rewrite filter_cons_False by naive_solver.
    by rewrite list_filter_filter, (list_filter_iff _ (λ e, e.1 ≠ item.1)) by naive_solver.
  - eexists _, _. split; [done|]. unfold merging_out; simpl. exists (<[num:=tl]> rems).
    split; [done|]. rewrite (filter_ne_above _ _ _ _ Hh), Hm; [done|].
    intros i l x Hi Hx Heq.
    destruct (buffers_first _ _ _ _ _ (holds_sorted _ _ _ _ Hh) (holds_buffers _ _ _ _ Hh))
      as (tl' & _ & Hmin & _).
    pose proof (Hmin _ _ _ Hi Hx) as Hle. rewrite Heq in Hle.
    pose proof (holds_above _ _ _ _ Hh num _ (k, v) Hnum ltac:(by left)) as Hle'.
    apply Hk. by apply le_b_antisym.
Qed.

Lemma merging_out_yields its inn out :
  merging_out its inn out → iter_yields {| vec_iter := its; inner := inn |} out.
Proof.
  revert its inn. induction out as [|x out IH]; intros its inn; unfold merging_out;
    cbn [iter_yields try_next merging_iter merging_try_next inner].
  - unfold merging_try_next. cbn [inner vec_iter].
    destruct (next_buf inn); [by intros (? & _ & ?)|]. by eexists.
  - unfold merging_try_next. cbn [inner vec_iter].
    destruct (next_buf inn) as [item|]; [|done]. intros (rems & Hh & [= -> ->]).
    destruct (merging_loop_spec
      (merging_fuel {| vec_iter := its; inner := inn |}) _ _ _ _ Hh) as (its' & inn' & Hl & Ho).
    { unfold merging_fuel, heads_at; simpl.
      rewrite (Forall2_length _ _ _ (holds_feeds _ _ _ _ Hh)).
      pose proof (length_filter (λ l : list KeyValue, fst <$> head l = Some item.1) rems). lia. }
    rewrite Hl. cbn [res_bind]. eexists. split; [done|]. by apply IH.
Qed.

(** The first round: every iterator's first item enters the buffer. *)
Lemma merging_fill_spec num its ls map :
  Forall2 iter_yields its ls → ksorted map → (∀ e, e ∈ map → ik_num e.1 < num) →
  ∃ its' map', merging_fill num its map = Ok (its', map') ∧
    Forall2 feeds its' ls ∧ ksorted map' ∧
    ∀ e, e ∈ map' ↔ e ∈ map ∨ heads_from num ls e.
Proof.
  intros Hy. revert num map. induction Hy as [|it l its ls Hit Hits IH];
    intros num map Hs Hlt; cbn [merging_fill].
  - exists [], map. split_and!; [done|constructor|done|].
    intros e. split; [by left|]. intros [|(_ & tl & Htl)]; [done|by rewrite lookup_nil in Htl].
  - apply iter_yields_step in Hit as (it' & Hn & Hf). rewrite Hn. cbn [res_bind].
    set (map1 := match head l with Some item => buf_map_insert map num item | None => map end).
    assert (ksorted map1 ∧ ∀ e, e ∈ map1 ↔
      e ∈ map ∨ (ik_num e.1 = num ∧ ∃ tl, l = (ik_key e.1, e.2) :: tl)) as [Hs1 H1].
    { subst map1. destruct l as [|[k v] tl]; simpl.
      - split; [done|]. naive_solver.
      - split; [by apply btree_insert_sorted|]. intros [[n' k'] v']. unfold buf_map_insert.
        rewrite btree_insert_elem by done; simpl. split; [naive_solver|].
        intros [Hin|[-> [tl' ?]]]; [|simplify_eq; by left]. right. split; [done|].
        intros ?; simplify_eq. apply Hlt in Hin. simpl in Hin. lia. }
    destruct (IH (S num) map1) as (its' & map' & Hfl & Hfd & Hs' & Hm'); [done| |].
    { intros e [He|[He _]]%H1; [apply Hlt in He|]; lia. }
    fold map1. rewrite Hfl. cbn [res_bind]. exists (it' :: its'), map'.
    split_and!; [done|by constructor|done|]. intros e. rewrite Hm', H1. unfold heads_from.
    destruct (decide (num = ik_num e.1)) as [Heq|Hne].
    + rewrite <- Heq, Nat.sub_diag. simpl. naive_solver lia.
    + destruct (decide (num < ik_num e.1)) as [Hgt|].
      * replace (ik_num e.1 - num) with (S (ik_num e.1 - S num)) by lia. simpl.
        naive_solver lia.
      * naive_solver lia.
Qed.

Lemma merging_start its ls map :
  Forall (λ l, ksorted l) ls → Forall2 feeds its ls → ksorted map →
  (∀ e, e ∈ map ↔ heads_from 0 ls e) →
  ∀ nb, merging_out its (init_next_buf {| map_buf := map; next_buf := nb |}) (merge_spec ls).
Proof.
  intros Hall Hf Hs Hmap nb.
  assert (buffers ls map) as Hb.
  { split; [done|]. intros e. rewrite Hmap. unfold heads_from.
    rewrite Nat.sub_0_r. naive_solver lia. }
  unfold merging_out, init_next_buf. cbn [map_buf next_buf].
  destruct map as [|[[num k] v] map']; simpl.
  - destruct (merge_spec ls) as [|e r] eqn:E; [done|]. exfalso.
    apply (buffers_empty ls Hb e). apply merge_spec_elem; [done|]. rewrite E. by left.
  - destruct (buffers_first _ _ _ _ _ Hall Hb) as (tl & Hnum & Hmin & _).
    exists ls. split; [by split|].
    rewrite (merge_spec_first _ _ _ _ _ _ Hall Hb Hnum). f_equal.
    rewrite filter_cons_False by naive_solver. rewrite list_filter_filter.
    apply list_filter_iff. naive_solver.
Qed.

Lemma merging_new_yields its ls :
  Forall (λ l, ksorted l) ls → Forall2 iter_yields its ls →
  ∃ m, merging_new its = Ok m ∧ iter_yields m (merge_spec ls).
Proof.
  intros Hall Hy. unfold merging_new.
  destruct (merging_fill_spec 0 its ls [] Hy) as (its' & map & -> & Hf & Hs & Hm);
    [constructor|by intros ? ?%not_elem_of_nil|].
  cbn [res_bind]. eexists. split; [done|]. apply merging_out_yields.
  apply merging_start; [done..|]. intros e. rewrite Hm. split; [|by right].
  by intros [?%not_elem_of_nil|].
Qed.

Context {SI : SeekIter It KeyValue}.

Lemma merging_seek_fill_seeked s num its its0 map :
  Forall2 (λ it it0, seek s it = Ok it0) its its0 →
  merging_seek_fill s num its map = merging_fill num its0 map.
Proof.
  intros Hs. revert num map. induction Hs as [|it it0 its its0 Hit _ IH]; intros num map; [done|].
  cbn [merging_seek_fill merging_fill]. rewrite Hit. cbn [res_bind].
  destruct (try_next it0) as [[o it']| |]; cbn [res_bind]; [|done..]. by rewrite IH.
Qed.

Lemma merging_seek_yields s (m : MergingIter It) its0 ls :
  s ≠ SeekLast →
  Forall2 (λ it it0, seek s it = Ok it0) (vec_iter m) its0 →
  Forall (λ l, ksorted l) ls → Forall2 iter_yields its0 ls →
  ∃ m', merging_seek s m = Ok m' ∧ iter_yields m' (merge_spec ls).
Proof.
  intros Hl Hs Hall Hy.
  assert (∃ m', (let? (its, map) := merging_seek_fill s 0 (vec_iter m) [] in
    Ok {| vec_iter := its;
          inner := init_next_buf {| map_buf := map; next_buf := next_buf (inner m) |} |})
    = Ok m' ∧ iter_yields m' (merge_spec ls)) as Hgoal; [|by destruct s].
  rewrite (merging_seek_fill_seeked s 0 _ _ [] Hs).
  destruct (merging_fill_spec 0 its0 ls [] Hy) as (its' & map & -> & Hf & Hs' & Hm);
    [constructor|by intros ? ?%not_elem_of_nil|].
  cbn [res_bind]. eexists. split; [done|]. apply merging_out_yields.
  apply merging_start; [done..|]. intros e. rewrite Hm. split; [|by right].
  by intros [?%not_elem_of_nil|].
Qed.
End merging_laws.

(** Restricting the inputs to a set of keys restricts the merge. *)
Lemma winner_filter (P : bytes → Prop) `{∀ k, Decision (P k)} ls e :
  winner ((filter (λ x : KeyValue, P x.1)) <$> ls) e ↔ P e.1 ∧ winner ls e.
Proof.
  split.
  - intros (i & l & Hi & He & Hj).
    rewrite list_lookup_fmap in Hi. destruct (ls !! i) as [l0|] eqn:E; simplify_eq/=.
    apply list_elem_of_filter in He as [HP He]. split; [done|]. exists i, l0.
    split_and!; [done..|]. intros j l' Hlt Hl' Hin.
    apply (Hj j (filter (λ x : KeyValue, P x.1) l')); [done| |].
    { by rewrite list_lookup_fmap, Hl'. }
    apply list_elem_of_fmap in Hin as (x & Hx & Hin).
    rewrite Hx. apply list_elem_of_fmap_2, list_elem_of_filter. by rewrite <- Hx.
  - intros (HP & i & l & Hi & He & Hj). exists i, (filter (λ x : KeyValue, P x.1) l).
    split_and!; [by rewrite list_lookup_fmap, Hi|by apply list_elem_of_filter|].
    intros j l' Hlt Hl'. rewrite list_lookup_fmap in Hl'.
    destruct (ls !! j) as [l0|] eqn:E; simplify_eq/=.
    intros (x & Hx & [_ Hin]%list_elem_of_filter)%list_elem_of_fmap.
    apply (Hj j l0); [done..|]. rewrite Hx. by apply list_elem_of_fmap_2.
Qed.

Lemma merge_spec_filter (P : bytes → Prop) `{∀ k, Decision (P k)} ls :
  Forall (λ l, ksorted l) ls →
  merge_spec ((filter (λ x : KeyValue, P x.1)) <$> ls) = filter (λ x, P x.1) (merge_spec ls).
Proof.
  intros Hall.
  assert (Forall (λ l, ksorted l) ((filter (λ x : KeyValue, P x.1)) <$> ls)) as Hall'.
  { rewrite Forall_fmap. eapply Forall_impl; [done|]. intros l. apply ksorted_filter. }
  apply ksorted_ext; [apply merge_spec_sorted|apply ksorted_filter, merge_spec_sorted|].
  intros e. by rewrite list_elem_of_filter, !merge_spec_elem, winner_filter by done.
Qed.

(** The entries a [Seek::Backward] leaves: the keys not below the one sought. *)
Definition seek_range (s : Seek) (l : list KeyValue) : list KeyValue :=
  match s with
  | SeekFirst => l
  | SeekLast => []
  | SeekBackward key => filter (λ e, le_b key e.1 = true) l
  end.

Lemma seek_range_merge s ls :
  Forall (λ l, ksorted l) ls → s ≠ SeekLast →
  merge_spec (seek_range s <$> ls) = seek_range s (merge_spec ls).
Proof.
  intros Hall Hs. destruct s as [| |key]; [by rewrite list_fmap_id|done|].
  pose proof (merge_spec_filter (λ k, le_b key k = true) ls Hall) as E. exact E.
Qed.

Lemma seek_range_sorted s (l : list KeyValue) : ksorted l → ksorted (seek_range s l).
Proof. destruct s; [done|constructor|by apply ksorted_filter]. Qed.

(** ** Properties *)

Section merging_properties.
Context {It : Type} {II : Iter It KeyValue}.

(** C32: merging iterators that produce strictly sorted items produces, for every key
    of any of them, the item of the first iterator that has the key, in strictly
    increasing key order, and then ends: nothing is lost, repeated or reordered,
    and the call always returns. *)
Theorem merging_iter_correct (its : list It) ls :
  Forall (λ l, ksorted l) ls → Forall2 iter_yields its ls →
  ∃ m out, merging_new its = Ok m ∧ iter_yields m out ∧ ksorted out ∧
           ∀ e, e ∈ out ↔ winner ls e.
Proof.
  intros Hall Hy. destruct (merging_new_yields its ls Hall Hy) as (m & Hm & Hout).
  exists m, (merge_spec ls). split_and!; [done..|apply merge_spec_sorted|].
  intros e. by apply merge_spec_elem.
Qed.

(** When seeking the inner iterators leaves each of them at the items the seek
    selects, seeking the merging iterator leaves it at the selected part of the
    whole merge. *)
Theorem merging_seek_correct {SI : SeekIter It KeyValue} s (m : MergingIter It) its0 ls :
  s ≠ SeekLast →
  Forall2 (λ it it0, seek s it = Ok it0) (vec_iter m) its0 →
  Forall (λ l, ksorted l) ls →
  Forall2 (λ it l, iter_yields it (seek_range s l)) its0 ls →
  ∃ m', merging_seek s m = Ok m' ∧ iter_yields m' (seek_range s (merge_spec ls)).
Proof.
  intros Hs Hseek Hall Hy.
  destruct (merging_seek_yields s m its0 (seek_range s <$> ls) Hs Hseek) as (m' & Hm' & Hy').
  - rewrite Forall_fmap. eapply Forall_impl; [done|]. intros l. apply seek_range_sorted.
  - by rewrite Forall2_fmap_r.
  - exists m'. split; [done|]. by rewrite <- seek_range_merge.
Qed.
End merging_properties.

(** ** Witnesses *)

(** A sorted list with a cursor, seekable. *)
#[local] Instance cursor_iter : Iter (list KeyValue * list KeyValue) KeyValue := {
  try_next p := Ok (match p.2 with [] => (None, p) | x :: r => (Some x, (p.1, r)) end);
  is_valid _ := true;
}.
#[local] Instance cursor_seek : SeekIter (list KeyValue * list KeyValue) KeyValue :=
  λ s p, Ok (p.1, seek_range s p.1).

Definition sample_runs : list (list KeyValue) :=
  [[([x01], Some [x0a]); ([x03], None)];
   [([x01], Some [x0b]); ([x02], Some [x0c]); ([x03], Some [x0d])]].

Lemma sample_runs_sorted : Forall (λ l, ksorted l) sample_runs.
Proof. repeat constructor. Qed.

Lemma merging_iter_correct_witness :
  ∃ m out, merging_new sample_runs = Ok m ∧ iter_yields m out ∧
           ([x01], Some [x0a]) ∈ out ∧ ([x03], None) ∈ out ∧ ([x01], Some [x0b]) ∉ out.
Proof.
  destruct (merging_iter_correct sample_runs sample_runs) as (m & out & Hm & Hy & Hs & Hw);
    [apply sample_runs_sorted|by repeat constructor; apply list_iter_yields|].
  exists m, out. split_and!; [done..| | |]; rewrite Hw.
  - exists 0, [([x01], Some [x0a]); ([x03], None)]. split_and!; [done|by left|lia].
  - exists 0, [([x01], Some [x0a]); ([x03], None)]. split_and!; [done|right; by left|lia].
  - intros ([|[|i]] & l & Hi & He & Hj); simplify_eq/=.
    + set_solver.
    + apply (Hj 0 _ ltac:(lia) eq_refl). by left.
Defined.

Lemma merging_seek_correct_witness :
  ∃ m', merging_seek (SeekBackward [x02])
          {| vec_iter := (λ l, (l, [])) <$> sample_runs;
             inner := {| map_buf := []; next_buf := None |} |} = Ok m' ∧
        iter_yields m' [([x02], Some [x0c]); ([x03], None)].
Proof.
  apply (merging_seek_correct (SeekBackward [x02])
    {| vec_iter := (λ l, (l, [])) <$> sample_runs;
       inner := {| map_buf := []; next_buf := None |} |}
    ((λ l, (l, seek_range (SeekBackward [x02]) l)) <$> sample_runs) sample_runs).
  - done.
  - by repeat constructor.
  - apply sample_runs_sorted.
  - repeat constructor; by repeat (eexists; split; [reflexivity|]); eexists.
Defined.
