(* ===== verification/BlockIter.v ===== *)
(** * The block iterator (src/kernel/lsm/table/ss_table/block_iter.rs)

    A bidirectional cursor over a prefix-compressed block.  Its offset runs from [0]
    (before the first entry) to [entry_len + 1] (after the last one).  The iterator is
    proved to be the obvious cursor over the list of pairs the block was built from. *)

From S2P Require Import Prelude Std Crates Block Iterator.
From Stdlib Require Import ZArith Lia Strings.Byte Sorted.
From stdpp Require Import base list gmap.

Set Default Goal Selector "!".

Record BlockIter (T : Type) := mkBlockIter {
  bi_block : Block T;
  bi_entry_len : nat;
  bi_offset : nat;
  bi_buf_shared_key : bytes;
}.
Arguments mkBlockIter {T} _ _ _ _.
Arguments bi_block {T} _.
Arguments bi_entry_len {T} _.
Arguments bi_offset {T} _.
Arguments bi_buf_shared_key {T} _.

Section block_iter.
Context {T : Type}.

Definition block_iter_new (b : Block T) : KernelResult (BlockIter T) :=
  let? slen := restart_shared_len b 0 in
  let? buf := shared_key_prefix b 0 slen in
  Ok {| bi_block := b; bi_entry_len := entry_len b; bi_offset := 0;
        bi_buf_shared_key := buf |}.

Definition block_iter_item (it : BlockIter T) : KernelResult (bytes * T) :=
  let? offset := usize_sub (bi_offset it) 1 in
  let? e := get_entry (bi_block it) offset in
  if decide (restart_interval (bi_block it) = 0) then Panic
  else
    let item_key :=
      if decide (offset `mod` restart_interval (bi_block it) ≠ 0)
      then bi_buf_shared_key it ++ e_key e else e_key e in
    Ok (item_key, e_item e).

(** [old_offset - 1 / restart_interval] is parsed as written here: the division binds
    tighter than the subtraction. *)
Definition offset_move (it : BlockIter T) (offset : nat) (is_seek : bool)
    : KernelResult (option (bytes * T) * BlockIter T) :=
  let block := bi_block it in
  let ri := restart_interval block in
  let old_offset := bi_offset it in
  let it1 := {| bi_block := block; bi_entry_len := bi_entry_len it; bi_offset := offset;
                bi_buf_shared_key := bi_buf_shared_key it |} in
  if decide (0 < offset ∧ offset < bi_entry_len it + 1) then
    let real_offset := offset - 1 in
    if decide (ri = 0) then Panic
    else
      let? lhs := usize_sub old_offset (1 / ri) in
      let? it2 :=
        if decide (lhs ≠ real_offset / ri) then
          let? slen := restart_shared_len block real_offset in
          let? buf := shared_key_prefix block real_offset slen in
          Ok {| bi_block := block; bi_entry_len := bi_entry_len it; bi_offset := offset;
                bi_buf_shared_key := buf |}
        else Ok it1 in
      if is_seek then Ok (None, it2)
      else let? item := block_iter_item it2 in Ok (Some item, it2)
  else Ok (None, it1).

Definition block_iter_valid (it : BlockIter T) : bool :=
  bool_decide (0 < bi_offset it) && bool_decide (bi_offset it ≤ bi_entry_len it).

Definition block_iter_try_prev (it : BlockIter T)
    : KernelResult (option (bytes * T) * BlockIter T) :=
  if block_iter_valid it || bool_decide (bi_offset it = bi_entry_len it + 1) then
    let? offset := usize_sub (bi_offset it) 1 in offset_move it offset false
  else Ok (None, it).

Definition block_iter_try_next (it : BlockIter T)
    : KernelResult (option (bytes * T) * BlockIter T) :=
  if block_iter_valid it || bool_decide (bi_offset it = 0) then
    offset_move it (bi_offset it + 1) false
  else Ok (None, it).

Definition block_iter_seek (s : Seek) (it : BlockIter T) : KernelResult (BlockIter T) :=
  let? target :=
    match s with
    | SeekFirst => Ok (Some 0)
    | SeekLast => Ok (Some (bi_entry_len it + 1))
    | SeekBackward key =>
        let? r := block_binary_search (bi_block it) key in
        Ok (match r with
            | inl index => Some index
            | inr index => if decide (index < bi_entry_len it) then Some index else None
            end)
    end in
  match target with
  | Some index => let? (_, it') := offset_move it index true in Ok it'
  | None => Ok it
  end.

#[global] Instance block_iter_iter : Iter (BlockIter T) (bytes * T) := {
  try_next := block_iter_try_next;
  is_valid := block_iter_valid;
}.
#[global] Instance block_iter_seek_iter : SeekIter (BlockIter T) (bytes * T) := block_iter_seek.
#[global] Instance block_iter_forward_iter : ForwardIter (BlockIter T) (bytes * T) :=
  block_iter_try_prev.
End block_iter.

(** ** The cursor a block iterator stands for

    A position [0 .. length kvs + 1]; [next] returns the element after it, [prev] the
    one before it, and a [Backward] seek goes in front of the first key not below the
    one sought, or nowhere when there is none. *)

Inductive IterCmd : Type :=
  | CmdNext
  | CmdPrev
  | CmdSeek (s : Seek).

Section cursor.
Context {T : Type}.
Implicit Types kvs : list (bytes * T).

Definition cursor_step kvs (o : nat) (c : IterCmd) : option (bytes * T) * nat :=
  match c with
  | CmdNext => (kvs !! o, if decide (o ≤ length kvs) then o + 1 else o)
  | CmdPrev => (if decide (2 ≤ o) then kvs !! (o - 2) else None, o - 1)
  | CmdSeek SeekFirst => (None, 0)
  | CmdSeek SeekLast => (None, length kvs + 1)
  | CmdSeek (SeekBackward key) =>
      (None, if decide (rank key kvs < length kvs) then rank key kvs else o)
  end.

Definition block_iter_step (it : BlockIter T) (c : IterCmd)
    : KernelResult (option (bytes * T) * BlockIter T) :=
  match c with
  | CmdNext => try_next it
  | CmdPrev => try_prev it
  | CmdSeek s => let? it' := seek s it in Ok (None, it')
  end.

Fixpoint cursor_run kvs (o : nat) (cs : list IterCmd) : list (option (bytes * T)) :=
  match cs with
  | [] => []
  | c :: cs' => let '(x, o') := cursor_step kvs o c in x :: cursor_run kvs o' cs'
  end.

Fixpoint block_iter_run (it : BlockIter T) (cs : list IterCmd)
    : KernelResult (list (option (bytes * T))) :=
  match cs with
  | [] => Ok []
  | c :: cs' =>
      let? (x, it') := block_iter_step it c in
      let? xs := block_iter_run it' cs' in
      Ok (x :: xs)
  end.
End cursor.

(** ** The iterator is the cursor *)

Section block_iter_laws.
Context {T : Type} `{IT : Itertools} {ITL : ItertoolsLaws}.
Context (kvs : list (bytes * T)) (ri : nat) (Hri : 2 ≤ ri).

Definition at_offset (it : BlockIter T) (o : nat) : Prop :=
  bi_block it = block_of kvs ri ∧ bi_entry_len it = length kvs ∧ bi_offset it = o.

(** The shared prefix of any entry can be read, and is the entry's own where the entry
    is not a restart. *)
Lemma restart_prefix_read i kv :
  kvs !! i = Some kv →
  ∃ slen buf, restart_shared_len (block_of kvs ri) i = Ok slen ∧
    shared_key_prefix (block_of kvs ri) i slen = Ok buf ∧
    (i `mod` ri ≠ 0 → buf = take (block_shared kvs ri i) kv.1).
Proof.
  intros Hi. unfold restart_shared_len. simpl restart_interval.
  rewrite decide_False by lia. destruct (decide (i `mod` ri ≠ 0)) as [Hm|Hm].
  - unfold get_entry. rewrite block_of_lookup, Hi. cbn.
    eexists _, _. split; [done|]. split; [|done].
    by apply shared_key_prefix_spec; [lia| |].
  - assert (i `mod` ri = 0) as Hm0 by lia. rewrite block_of_lookup.
    destruct (kvs !! (i + 1)) as [kv'|] eqn:Hi'; cbn.
    + assert ((i + 1) / ri = i / ri) as Hd.
      { pose proof (Nat.div_mod_eq i ri). symmetry. apply (Nat.div_unique _ _ _ 1); lia. }
      destruct (block_shared_spec kvs ri (i + 1) i kv' kv ltac:(lia) Hi' Hi (eq_sym Hd))
        as [Hle _].
      eexists _, (take (block_shared kvs ri (i + 1)) kv.1). split; [done|]. split; [|done].
      unfold shared_key_prefix. simpl restart_interval. rewrite decide_False by lia.
      rewrite Hm0, Nat.sub_0_r. unfold get_entry. rewrite block_of_lookup, Hi. cbn.
      unfold block_shared at 2. rewrite decide_True, drop_0 by done.
      unfold slice_to. by rewrite decide_True.
    + exists 0, []. split; [done|]. split; [|done].
      rewrite (shared_key_prefix_spec kvs ri i kv) by lia || done. by rewrite take_0.
Qed.

Lemma block_iter_new_Ok :
  kvs ≠ [] → ∃ it, block_iter_new (block_of kvs ri) = Ok it ∧ at_offset it 0.
Proof.
  intros Hne. destruct kvs as [|kv rest] eqn:E; [done|]. rewrite <- E.
  destruct (restart_prefix_read 0 kv) as (slen & buf & Hs & Hb & _); [by rewrite E|].
  unfold block_iter_new. rewrite Hs. cbn [res_bind]. rewrite Hb. cbn [res_bind].
  eexists. split; [done|]. unfold at_offset, entry_len; cbn [bi_block bi_entry_len bi_offset].
  by rewrite block_of_length, E.
Qed.

(** The item at an offset, once the buffer is right. *)
Lemma block_iter_item_spec it i kv :
  at_offset it (i + 1) → kvs !! i = Some kv →
  (i `mod` ri ≠ 0 → bi_buf_shared_key it = take (block_shared kvs ri i) kv.1) →
  block_iter_item it = Ok kv.
Proof.
  intros (Hb & _ & Ho) Hi Hbuf. unfold block_iter_item, usize_sub, get_entry.
  rewrite Ho, Hb, decide_True by lia. cbn [res_bind].
  replace (i + 1 - 1) with i by lia. rewrite block_of_lookup, Hi.
  cbn [fmap option_fmap option_map snd or_panic res_bind block_entry entry_new e_key e_item fst].
  simpl restart_interval. rewrite decide_False by lia. f_equal.
  destruct (decide (i `mod` ri ≠ 0)) as [Hm|Hm].
  - rewrite Hbuf, take_drop by done. by destruct kv.
  - unfold block_shared. rewrite decide_True, drop_0 by lia. by destruct kv.
Qed.

(** Every move lands on its target; a move that returns an item returns the one there,
    provided the buffer is refreshed or not needed. *)
Lemma offset_move_spec it o o' is_seek :
  at_offset it o → o' ≤ length kvs + 1 →
  (is_seek = false → o ≠ (o' - 1) / ri ∨ (o' - 1) `mod` ri = 0) →
  ∃ it', offset_move it o' is_seek
         = Ok (if is_seek then None else if decide (0 < o') then kvs !! (o' - 1) else None, it') ∧
         at_offset it' o'.
Proof.
  intros (Hb & Hl & Ho) Ho' Hfresh. unfold offset_move. rewrite Hb, Hl, Ho.
  simpl restart_interval. destruct (decide (0 < o' ∧ o' < length kvs + 1)) as [[Hpos Hlt]|Hout].
  - destruct (lookup_lt_is_Some_2 kvs (o' - 1)) as [kv Hkv]; [lia|].
    destruct (restart_prefix_read (o' - 1) kv Hkv) as (slen & buf & Hs & Hp & Hbuf).
    rewrite decide_False by lia. rewrite (Nat.div_small 1 ri) by lia.
    unfold usize_sub at 1. rewrite decide_True by lia. cbn [res_bind].
    rewrite Nat.sub_0_r, (decide_True _ _ Hpos), Hkv.
    set (it2 := if decide (o ≠ (o' - 1) / ri) then _ else _).
    assert (∃ it', it2 = Ok it' ∧ at_offset it' o' ∧
      (is_seek = false → (o' - 1) `mod` ri ≠ 0 →
        bi_buf_shared_key it' = take (block_shared kvs ri (o' - 1)) kv.1))
      as (it' & -> & Hat & Hbuf').
    { subst it2. destruct (decide (o ≠ (o' - 1) / ri)) as [Hne|Heq].
      - rewrite Hs. cbn [res_bind]. rewrite Hp. cbn [res_bind]. eexists. split; [done|]. split; [done|]. intros _. exact Hbuf.
      - eexists. split; [done|]. split; [done|]. intros Hf Hm. naive_solver. }
    cbn [res_bind]. exists it'. destruct is_seek; [done|].
    replace o' with (o' - 1 + 1) in Hat by lia.
    rewrite (block_iter_item_spec it' (o' - 1) kv Hat Hkv (Hbuf' eq_refl)).
    cbn [res_bind]. split; [done|]. by replace (o' - 1 + 1) with o' in Hat by lia.
  - replace (if is_seek then None else if decide (0 < o') then kvs !! (o' - 1) else None)
      with (@None (bytes * T)); [by eexists|].
    destruct is_seek; [done|]. destruct (decide (0 < o')); [|done].
    rewrite lookup_ge_None_2; [done|lia].
Qed.

Lemma block_iter_next_spec it o :
  at_offset it o → o ≤ length kvs + 1 →
  ∃ it', block_iter_try_next it = Ok (kvs !! o, it') ∧
         at_offset it' (if decide (o ≤ length kvs) then o + 1 else o).
Proof.
  intros Hat Hle. pose proof Hat as (Hb & Hl & Ho).
  unfold block_iter_try_next, block_iter_valid. rewrite Hl, Ho.
  destruct (decide (o ≤ length kvs)) as [Hin|Hout].
  - replace (bool_decide (0 < o) && bool_decide (o ≤ length kvs) || bool_decide (o = 0))
      with true by (destruct o; [done|]; rewrite !bool_decide_eq_true_2 by lia; done).
    destruct (offset_move_spec it o (o + 1) false Hat) as (it' & Hm & Hat'); [lia| |].
    { intros _. replace (o + 1 - 1) with o by lia.
      destruct (decide (o = 0)) as [->|Hne]; [right; by apply Nat.Div0.mod_0_l|left].
      pose proof (Nat.div_lt o ri ltac:(lia) ltac:(lia)). lia. }
    rewrite Hm. rewrite decide_True by lia. replace (o + 1 - 1) with o by lia. eauto.
  - rewrite !(bool_decide_eq_false_2 (o = 0)), (bool_decide_eq_false_2 (o ≤ length kvs)) by lia.
    rewrite andb_false_r. simpl. exists it. by rewrite lookup_ge_None_2 by lia.
Qed.

Lemma block_iter_prev_spec it o :
  at_offset it o → o ≤ length kvs + 1 →
  ∃ it', block_iter_try_prev it = Ok (if decide (2 ≤ o) then kvs !! (o - 2) else None, it') ∧
         at_offset it' (o - 1).
Proof.
  intros Hat Hle. pose proof Hat as (Hb & Hl & Ho).
  unfold block_iter_try_prev, block_iter_valid. rewrite Hl, Ho.
  destruct (decide (o = 0)) as [->|Hne].
  - rewrite (bool_decide_eq_false_2 (0 < 0)), (bool_decide_eq_false_2 (0 = _)) by lia.
    simpl. by exists it.
  - replace (bool_decide (0 < o) && bool_decide (o ≤ length kvs)
             || bool_decide (o = length kvs + 1)) with true.
    2: { symmetry. destruct (decide (o = length kvs + 1)).
         - rewrite (bool_decide_eq_true_2 (o = _)) by done. apply orb_true_r.
         - by rewrite !bool_decide_eq_true_2 by lia. }
    unfold usize_sub. rewrite decide_True by lia. cbn [res_bind].
    destruct (offset_move_spec it o (o - 1) false Hat) as (it' & Hm & Hat'); [lia| |].
    { intros _. left. assert ((o - 1 - 1) / ri ≤ o - 1 - 1) by (apply Nat.Div0.div_le_upper_bound; nia).
      lia. }
    rewrite Hm. exists it'. split; [|done]. do 2 f_equal.
    destruct (decide (2 ≤ o)); [rewrite decide_True by lia|by rewrite decide_False by lia].
    by replace (o - 1 - 1) with (o - 2) by lia.
Qed.

Lemma block_iter_seek_spec it o s :
  ksorted kvs → at_offset it o → o ≤ length kvs + 1 →
  ∃ it', block_iter_seek s it = Ok it' ∧ at_offset it' (cursor_step kvs o (CmdSeek s)).2.
Proof.
  intros Hs Hat Hle. pose proof Hat as (Hb & Hl & Ho). unfold block_iter_seek. rewrite Hb, Hl.
  assert (∀ i, i ≤ length kvs + 1 → ∃ it',
    (let? (_, it') := offset_move it i true in Ok it') = Ok it' ∧ at_offset it' i) as Hmove.
  { intros i Hi. destruct (offset_move_spec it o i true Hat Hi) as (it' & -> & Hat'); [done|].
    cbn [res_bind]. eauto. }
  destruct s as [| |key]; cbn [res_bind cursor_step snd].
  - apply Hmove. lia.
  - apply Hmove. lia.
  - rewrite block_binary_search_spec by (done || lia). cbn [res_bind].
    destruct (rank_hit key kvs) eqn:Eh.
    + apply rank_hit_true in Eh as (v & Hv%lookup_lt_Some). rewrite decide_True by done.
      apply Hmove. lia.
    + destruct (decide (rank key kvs < length kvs)); [apply Hmove; lia|eauto].
Qed.

Lemma cursor_step_bound o c : o ≤ length kvs + 1 → (cursor_step kvs o c).2 ≤ length kvs + 1.
Proof.
  intros Ho. destruct c as [| |[| |key]]; simpl; try lia; destruct (decide _); lia.
Qed.

Lemma block_iter_step_spec it o c :
  ksorted kvs → at_offset it o → o ≤ length kvs + 1 →
  ∃ it', block_iter_step it c = Ok ((cursor_step kvs o c).1, it') ∧
         at_offset it' (cursor_step kvs o c).2.
Proof.
  intros Hs Hat Hle. destruct c as [| |s].
  - by apply block_iter_next_spec.
  - by apply block_iter_prev_spec.
  - destruct (block_iter_seek_spec it o s Hs Hat Hle) as (it' & Hseek & Hat').
    exists it'. unfold block_iter_step, seek, block_iter_seek_iter. rewrite Hseek.
    cbn [res_bind]. split; [by destruct s|done].
Qed.

(** From an offset the iterator yields the rest of the block. *)
Lemma block_iter_yields it o :
  at_offset it o → o ≤ length kvs + 1 → iter_yields it (drop o kvs).
Proof.
  remember (length kvs + 1 - o) as n eqn:Hn. revert it o Hn.
  induction n as [|n IH]; intros it o Hn Hat Hle;
    destruct (block_iter_next_spec it o Hat Hle) as (it' & Hnext & Hat').
  - rewrite drop_ge by lia. simpl. unfold try_next; simpl. rewrite Hnext.
    rewrite lookup_ge_None_2 by lia. eauto.
  - destruct (kvs !! o) as [kv|] eqn:Ekv.
    + rewrite (drop_S _ _ _ Ekv). apply lookup_lt_Some in Ekv. rewrite decide_True in Hat' by lia.
      exists it'. split; [done|]. rewrite <- Nat.add_1_r. apply IH; [lia|done|lia].
    + rewrite drop_ge by (by apply lookup_ge_None). exists it'. done.
Qed.
End block_iter_laws.

(** ** Properties *)

Section block_iter_properties.
Context {T : Type} `{IT : Itertools} {ITL : ItertoolsLaws}.
Implicit Types kvs : list (bytes * T).

Lemma block_iter_run_spec kvs ri it o cs :
  2 ≤ ri → ksorted kvs → at_offset kvs ri it o → o ≤ length kvs + 1 →
  block_iter_run it cs = Ok (cursor_run kvs o cs).
Proof.
  intros Hri Hs. revert it o. induction cs as [|c cs IH]; intros it o Hat Hle; [done|].
  cbn [block_iter_run cursor_run].
  destruct (block_iter_step_spec kvs ri Hri it o c Hs Hat Hle) as (it' & -> & Hat').
  pose proof (cursor_step_bound kvs ri Hri o c Hle) as Hle'.
  destruct (cursor_step kvs o c) as [x o']. cbn [res_bind fst snd] in *.
  by rewrite (IH it' o').
Qed.

(** C37: with a restart interval of at least two, any sequence of forward steps, backward
    steps and seeks on a block iterator answers exactly as the cursor over the sorted
    pairs the block was built from does; no step panics, even though the condition
    that refreshes the shared prefix is not the one intended. *)
Theorem block_iter_refines_cursor kvs ri :
  2 ≤ ri → ksorted kvs → kvs ≠ [] →
  ∃ b it, block_new kvs ri = Ok b ∧ block_iter_new b = Ok it ∧
    ∀ cs, block_iter_run it cs = Ok (cursor_run kvs 0 cs).
Proof.
  intros Hri Hs Hne. destruct (block_iter_new_Ok kvs ri Hri Hne) as (it & Hit & Hat).
  exists (block_of kvs ri), it. split_and!; [apply block_new_Ok; lia|done|].
  intros cs. by eapply block_iter_run_spec; [| |exact Hat|lia].
Qed.

(** With a restart interval of one the same condition underflows: the first step
    from the start of the block panics under overflow checks. *)
Theorem block_iter_interval_one kvs :
  kvs ≠ [] →
  ∃ b it, block_new kvs 1 = Ok b ∧ block_iter_new b = Ok it ∧ try_next it = Panic.
Proof.
  intros Hne. assert (0 < length kvs) by (destruct kvs; [done|simpl; lia]).
  destruct (lookup_lt_is_Some_2 kvs 0) as [kv Hkv]; [done|].
  exists (block_of kvs 1).
  assert (∃ slen, restart_shared_len (block_of kvs 1) 0 = Ok slen ∧
    shared_key_prefix (block_of kvs 1) 0 slen = Ok []) as (slen & Hs & Hp).
  { exists 0. split; [|by rewrite (shared_key_prefix_spec kvs 1 0 kv), take_0 by (done || lia)].
    unfold restart_shared_len. simpl restart_interval. rewrite !decide_False by (simpl; lia).
    rewrite block_of_lookup. by destruct (kvs !! (0 + 1)). }
  eexists. split_and!; [by apply block_new_Ok|unfold block_iter_new; rewrite Hs; cbn [res_bind];
    rewrite Hp; done|].
  unfold try_next; simpl. unfold block_iter_try_next, block_iter_valid, offset_move.
  cbn [bi_offset bi_entry_len bi_block]. unfold entry_len. rewrite block_of_length.
  simpl. by rewrite decide_True by lia.
Qed.
End block_iter_properties.

(** ** Witnesses *)

Import Reference.

Lemma block_iter_refines_cursor_witness :
  ∃ b it, block_new sample_kvs 2 = Ok b ∧ block_iter_new b = Ok it ∧
    block_iter_run it
      [CmdSeek (SeekBackward [x01; x02; x00]); CmdNext; CmdNext; CmdPrev; CmdSeek SeekFirst; CmdNext]
    = Ok [None; Some ([x01; x02; x03], value_from (Some [x05; x06]));
          Some ([x02; x02], value_from (Some [x07]));
          Some ([x01; x02; x03], value_from (Some [x05; x06])); None;
          Some ([x01], value_from (Some [x09]))].
Proof.
  destruct (block_iter_refines_cursor sample_kvs 2) as (b & it & Hb & Hit & Hrun);
    [lia|apply sample_kvs_sorted|done|].
  exists b, it. split_and!; [done..|]. by rewrite Hrun.
Defined.

Lemma block_iter_interval_one_witness :
  ∃ b it, block_new sample_kvs 1 = Ok b ∧ block_iter_new b = Ok it ∧ try_next it = Panic.
Proof. by apply block_iter_interval_one. Defined.
