(* ===== verification/Io.v ===== *)
(** * Files and the I/O layer (src/kernel/io/mod.rs, buf.rs, direct.rs)

    The directory an [IoFactory] works in is a map from generation numbers to file
    contents: a file's path is the directory, the generation and the extension.  A
    reader or writer is a handle with a position.  The buffered writer keeps its
    pending bytes as [std::io::BufWriter] does, so that what reaches the file before a
    flush is what the standard library writes; it is proved to end up with the same
    file as the direct writer. *)

From S2P Require Import Prelude Std.
From Stdlib Require Import ZArith Lia Strings.Byte.
From stdpp Require Import base list gmap strings.

Set Default Goal Selector "!".

Inductive FileExtension : Type :=
  | ExtLog
  | ExtSSTable
  | ExtManifest.

Definition extension_str (e : FileExtension) : string :=
  match e with
  | ExtLog => "log"
  | ExtSSTable => "sst"
  | ExtManifest => "manifest"
  end.

Inductive IoType : Type :=
  | IoBuf
  | IoDirect.

#[global] Instance io_type_eq_dec : EqDecision IoType.
Proof. solve_decision. Defined.

(** The files of one directory with one extension. *)
Abbreviation Dir := (gmap Z bytes).

Definition file_content (d : Dir) (gen : Z) : bytes := default [] (d !! gen).

(** Writing at a position overwrites, and a gap left by a seek reads as zeros. *)
Definition file_write (content : bytes) (pos : nat) (data : bytes) : bytes :=
  take pos content ++ replicate (pos - length content) x00 ++ data
  ++ drop (pos + length data) content.

Inductive SeekFrom : Type :=
  | FromStart (n : nat)
  | FromEnd (z : Z)
  | FromCurrent (z : Z).

(** The position a seek leads to; a negative one is an error. *)
Definition seek_pos (len pos : nat) (s : SeekFrom) : KernelResult nat :=
  let target := match s with
                | FromStart n => Z.of_nat n
                | FromEnd z => (Z.of_nat len + z)%Z
                | FromCurrent z => (Z.of_nat pos + z)%Z
                end in
  if decide (0 ≤ target)%Z then Ok (Z.to_nat target) else Err (Io OtherIo).

(** ** Readers *)

Record IoReader := mkIoReader {
  rd_gen : Z;
  rd_type : IoType;
  rd_pos : nat;
}.

(** Opening creates the file when it is missing. *)
Definition open_file (d : Dir) (gen : Z) : Dir := <[gen := file_content d gen]> d.

Definition io_reader (d : Dir) (gen : Z) (t : IoType) : Dir * IoReader :=
  (open_file d gen, {| rd_gen := gen; rd_type := t; rd_pos := 0 |}).

Definition reader_seek (d : Dir) (r : IoReader) (s : SeekFrom) : KernelResult IoReader :=
  let? pos := seek_pos (length (file_content d (rd_gen r))) (rd_pos r) s in
  Ok {| rd_gen := rd_gen r; rd_type := rd_type r; rd_pos := pos |}.

(** [read] into a zeroed buffer of [n] bytes, [read_exact] into one. *)
Definition reader_read (d : Dir) (r : IoReader) (n : nat) : bytes * IoReader :=
  let rest := drop (rd_pos r) (file_content d (rd_gen r)) in
  ((cursor_read n rest).1,
   {| rd_gen := rd_gen r; rd_type := rd_type r; rd_pos := rd_pos r + min n (length rest) |}).

Definition reader_read_exact (d : Dir) (r : IoReader) (n : nat)
    : KernelResult (bytes * IoReader) :=
  let rest := drop (rd_pos r) (file_content d (rd_gen r)) in
  let? (bs, _) := cursor_read_exact n rest in
  Ok (bs, {| rd_gen := rd_gen r; rd_type := rd_type r; rd_pos := rd_pos r + n |}).

(** ** Writers *)

(** [wr_pos] is the position of the file, [wr_pending] the bytes a buffered writer
    holds back; [wr_logical] is the [pos] field of [BufWriterWithPos]. *)
Record IoWriter := mkIoWriter {
  wr_gen : Z;
  wr_type : IoType;
  wr_pos : nat;
  wr_pending : bytes;
  wr_logical : nat;
}.

(** The capacity of a [BufWriter]. *)
Definition BUF_CAPACITY : nat := 8 * 1024.

Definition io_writer (d : Dir) (gen : Z) (t : IoType) : Dir * IoWriter :=
  (open_file d gen,
   {| wr_gen := gen; wr_type := t; wr_pos := 0; wr_pending := []; wr_logical := 0 |}).

(** A write that reaches the file. *)
Definition raw_write (d : Dir) (w : IoWriter) (data : bytes) : Dir * IoWriter :=
  (<[wr_gen w := file_write (file_content d (wr_gen w)) (wr_pos w) data]> d,
   {| wr_gen := wr_gen w; wr_type := wr_type w; wr_pos := wr_pos w + length data;
      wr_pending := wr_pending w; wr_logical := wr_logical w |}).

Definition set_pending (w : IoWriter) (p : bytes) : IoWriter :=
  {| wr_gen := wr_gen w; wr_type := wr_type w; wr_pos := wr_pos w; wr_pending := p;
     wr_logical := wr_logical w |}.

Definition flush_buf (d : Dir) (w : IoWriter) : Dir * IoWriter :=
  match wr_pending w with
  | [] => (d, w)
  | p => raw_write d (set_pending w []) p
  end.

(** [BufWriter::write]: flush when the data does not fit beside the pending bytes,
    then keep it, unless it is as large as the whole buffer. *)
Definition buf_write (d : Dir) (w : IoWriter) (data : bytes) : Dir * IoWriter :=
  if decide (length data < BUF_CAPACITY - length (wr_pending w)) then
    (d, set_pending w (wr_pending w ++ data))
  else
    let '(d1, w1) :=
      if decide (BUF_CAPACITY - length (wr_pending w) < length data)
      then flush_buf d w else (d, w) in
    if decide (BUF_CAPACITY ≤ length data) then raw_write d1 w1 data
    else (d1, set_pending w1 (wr_pending w1 ++ data)).

Definition add_logical (w : IoWriter) (n : nat) : IoWriter :=
  {| wr_gen := wr_gen w; wr_type := wr_type w; wr_pos := wr_pos w;
     wr_pending := wr_pending w; wr_logical := wr_logical w + n |}.

Definition writer_write (d : Dir) (w : IoWriter) (data : bytes) : Dir * IoWriter :=
  match wr_type w with
  | IoDirect => raw_write d w data
  | IoBuf => let '(d', w') := buf_write d w data in (d', add_logical w' (length data))
  end.

Definition writer_flush (d : Dir) (w : IoWriter) : Dir * IoWriter :=
  match wr_type w with
  | IoDirect => (d, w)
  | IoBuf => flush_buf d w
  end.

(** Seeking a buffered writer flushes it first. *)
Definition writer_seek (d : Dir) (w : IoWriter) (s : SeekFrom) : KernelResult (Dir * IoWriter) :=
  let '(d1, w1) := writer_flush d w in
  let? pos := seek_pos (length (file_content d1 (wr_gen w1))) (wr_pos w1) s in
  Ok (d1, {| wr_gen := wr_gen w1; wr_type := wr_type w1; wr_pos := pos;
             wr_pending := wr_pending w1; wr_logical := pos |}).

Definition current_pos (w : IoWriter) : nat :=
  match wr_type w with
  | IoBuf => wr_logical w
  | IoDirect => wr_pos w
  end.

(** ** The factory's other operations *)

Definition io_clean (d : Dir) (gen : Z) : KernelResult Dir :=
  match d !! gen with
  | Some _ => Ok (delete gen d)
  | None => Err (Io NotFound)
  end.

Definition io_exists (d : Dir) (gen : Z) : bool := bool_decide (is_Some (d !! gen)).

(** ** Lemmas *)

Lemma file_write_end content data : file_write content (length content) data = content ++ data.
Proof.
  unfold file_write. rewrite firstn_all, Nat.sub_diag, drop_ge by lia.
  by rewrite app_nil_r.
Qed.

Lemma file_write_length content pos data :
  length (file_write content pos data) = max (length content) (pos + length data).
Proof.
  unfold file_write. rewrite !length_app, length_take, length_replicate, length_drop. lia.
Qed.

Lemma file_write_lookup content pos data i :
  file_write content pos data !! i =
    if decide (pos ≤ i < pos + length data) then data !! (i - pos)
    else if decide (length content ≤ i < pos) then Some x00 else content !! i.
Proof.
  unfold file_write.
  assert (length (take pos content ++ replicate (pos - length content) x00) = pos) as Hl
    by (rewrite length_app, length_take, length_replicate; lia).
  rewrite app_assoc. destruct (decide (i < pos)) as [Hlt|Hge].
  - rewrite lookup_app_l, decide_False by lia.
    destruct (decide (i < length content)).
    + rewrite lookup_app_l, lookup_take_lt, decide_False by (rewrite ?length_take; lia). done.
    + rewrite lookup_app_r, decide_True by (rewrite ?length_take; lia).
      apply lookup_replicate_2. rewrite length_take. lia.
  - rewrite lookup_app_r, Hl by lia. destruct (decide (i < pos + length data)) as [Hin|Hout].
    + by rewrite lookup_app_l, decide_True by lia.
    + rewrite lookup_app_r, lookup_drop, !decide_False by lia. f_equal. lia.
Qed.

(** Two adjacent writes are one. *)
Lemma file_write_app content pos a b :
  file_write (file_write content pos a) (pos + length a) b = file_write content pos (a ++ b).
Proof.
  apply list_eq. intros i.
  rewrite !file_write_lookup, file_write_length, length_app.
  destruct (decide (pos + length a ≤ i < pos + length a + length b)) as [Hb|Hb].
  - rewrite decide_True by lia. rewrite lookup_app_r by lia. f_equal. lia.
  - rewrite (decide_False (P := _ ≤ i < pos + length a)) by lia.
    destruct (decide (pos ≤ i < pos + length a)) as [Ha|Ha].
    + rewrite decide_True by lia. by rewrite lookup_app_l by lia.
    + rewrite (decide_False (P := pos ≤ i < pos + (_ + _))) by lia. done.
Qed.

Lemma file_content_insert d gen content : file_content (<[gen := content]> d) gen = content.
Proof. unfold file_content. by rewrite lookup_insert_eq. Qed.

Lemma file_content_insert_ne d gen gen' content :
  gen ≠ gen' → file_content (<[gen := content]> d) gen' = file_content d gen'.
Proof. intros Hne. unfold file_content. by rewrite lookup_insert_ne. Qed.

(** ** A buffered writer writes the same file *)

Inductive WriterCmd : Type :=
  | WcWrite (data : bytes)
  | WcFlush
  | WcSeek (s : SeekFrom).

Definition writer_step (dw : Dir * IoWriter) (c : WriterCmd) : KernelResult (Dir * IoWriter) :=
  match c with
  | WcWrite data => Ok (writer_write dw.1 dw.2 data)
  | WcFlush => Ok (writer_flush dw.1 dw.2)
  | WcSeek s => writer_seek dw.1 dw.2 s
  end.

Definition writer_run (dw : Dir * IoWriter) (cs : list WriterCmd) : KernelResult (Dir * IoWriter) :=
  res_foldM writer_step dw cs.

(** The buffered writer [wb] over [db] lags behind the direct one by its pending bytes. *)
Record lags (gen : Z) (db : Dir) (wb : IoWriter) (dd : Dir) (wd : IoWriter) : Prop := {
  lags_gen : wr_gen wb = gen ∧ wr_gen wd = gen;
  lags_types : wr_type wb = IoBuf ∧ wr_type wd = IoDirect;
  lags_pos : wr_pos wd = wr_pos wb + length (wr_pending wb);
  lags_logical : wr_logical wb = wr_pos wd;
  lags_content :
    file_content dd gen
    = match wr_pending wb with
      | [] => file_content db gen
      | p => file_write (file_content db gen) (wr_pos wb) p
      end;
}.

Section lag.
Context (gen : Z) (db : Dir) (wb : IoWriter) (dd : Dir) (wd : IoWriter).

Lemma lags_flush :
  lags gen db wb dd wd →
  lags gen (flush_buf db wb).1 (flush_buf db wb).2 dd wd ∧ wr_pending (flush_buf db wb).2 = [].
Proof.
  intros Hlag. unfold flush_buf. destruct (wr_pending wb) as [|b p] eqn:E; [done|].
  destruct Hlag as [[Hg Hg'] Ht Hp Hl Hc]. rewrite E in Hp, Hc. split; [|done].
  split; simpl in *; try done.
  - lia.
  - by rewrite Hg, file_content_insert, Hc.
Qed.

(** Appending to the pending bytes. *)
Lemma lags_append data dd' wd' :
  lags gen db wb dd wd → data ≠ [] → raw_write dd wd data = (dd', wd') →
  lags gen db (add_logical (set_pending wb (wr_pending wb ++ data)) (length data)) dd' wd'.
Proof.
  intros [[Hg Hg'] Ht Hp Hl Hc] Hne [= <- <-]. split; simpl; try done.
  - rewrite length_app. lia.
  - lia.
  - rewrite Hg', file_content_insert, Hc, Hp.
    destruct (wr_pending wb) as [|b p] eqn:E.
    + simpl. rewrite Nat.add_0_r. by destruct data.
    + rewrite file_write_app. done.
Qed.

(** Writing through when nothing is pending. *)
Lemma lags_through data dd' wd' db' wb' :
  lags gen db wb dd wd → wr_pending wb = [] →
  raw_write dd wd data = (dd', wd') → raw_write db wb data = (db', wb') →
  lags gen db' (add_logical wb' (length data)) dd' wd'.
Proof.
  intros [[Hg Hg'] Ht Hp Hl Hc] Hnil [= <- <-] [= <- <-]. rewrite Hnil in *. simpl in *.
  split; simpl; try done.
  - rewrite ?Hnil. simpl. lia.
  - lia.
  - rewrite ?Hnil, Hg, Hg', !file_content_insert, Hc. f_equal. lia.
Qed.
End lag.

Lemma lags_write gen db wb dd wd data :
  lags gen db wb dd wd → data ≠ [] →
  lags gen (writer_write db wb data).1 (writer_write db wb data).2
       (writer_write dd wd data).1 (writer_write dd wd data).2.
Proof.
  intros Hlag Hne. pose proof (lags_types _ _ _ _ _ Hlag) as [Htb Htd].
  unfold writer_write. rewrite Htb, Htd. unfold buf_write.
  destruct (raw_write dd wd data) as [dd' wd'] eqn:Ed. cbn [fst snd].
  destruct (decide (length data < _)) as [Hfit|Hbig]; [by eapply lags_append|].
  destruct (decide (_ < length data)) as [Hgt|Hle].
  - pose proof (lags_flush _ _ _ _ _ Hlag) as [Hlag' Hnil].
    destruct (flush_buf db wb) as [d1 w1]; cbn [fst snd] in *.
    destruct (decide (BUF_CAPACITY ≤ length data)).
    + destruct (raw_write d1 w1 data) as [d2 w2] eqn:Eb. by eapply lags_through.
    + by eapply lags_append.
  - destruct (decide (BUF_CAPACITY ≤ length data)).
    + assert (wr_pending wb = []) as Hnil.
      { assert (0 < BUF_CAPACITY) by (unfold BUF_CAPACITY; lia).
        destruct (wr_pending wb) as [|b p]; [done|]. cbn [length] in *. lia. }
      destruct (raw_write db wb data) as [d2 w2] eqn:Eb. by eapply lags_through.
    + by eapply lags_append.
Qed.

Lemma lags_step gen db wb dd wd c :
  lags gen db wb dd wd → (∀ data, c = WcWrite data → data ≠ []) →
  match writer_step (db, wb) c, writer_step (dd, wd) c with
  | Ok (db', wb'), Ok (dd', wd') => lags gen db' wb' dd' wd'
  | Err e, Err e' => e = e'
  | _, _ => False
  end.
Proof.
  intros Hlag Hne. pose proof (lags_types _ _ _ _ _ Hlag) as [Htb Htd].
  pose proof (lags_flush _ _ _ _ _ Hlag) as [Hlag' Hnil].
  destruct c as [data| |s]; cbn [writer_step fst snd].
  - pose proof (lags_write _ _ _ _ _ data Hlag (Hne _ eq_refl)) as H.
    by destruct (writer_write db wb data), (writer_write dd wd data).
  - unfold writer_flush. rewrite Htb, Htd. by destruct (flush_buf db wb).
  - unfold writer_seek, writer_flush. rewrite Htb, Htd.
    destruct (flush_buf db wb) as [d1 w1]; cbn [fst snd] in *.
    destruct Hlag' as [[Hg Hg'] [Ht1 _] Hp Hl Hc]. rewrite Hnil in Hc, Hp. cbn [length] in Hp.
    rewrite Nat.add_0_r in Hp. rewrite Hg, Hg', Hc, Hp.
    destruct (seek_pos _ _ s) as [pos| |] eqn:Es; cbn [res_bind].
    + split; simpl; try done; by rewrite Hnil.
    + done.
    + unfold seek_pos in Es. by destruct (decide _).
Qed.

Lemma lags_flushed gen db wb dd wd :
  lags gen db wb dd wd → wr_pending wb = [] →
  file_content db gen = file_content dd gen ∧ current_pos wb = current_pos wd.
Proof.
  intros [_ [Htb Htd] _ Hl Hc] Hnil. rewrite Hnil in Hc. unfold current_pos.
  by rewrite Htb, Htd, Hl.
Qed.

(** After any sequence of non-empty writes, flushes and seeks ended by a flush, a
    buffered writer leaves the file a direct writer leaves, at the same reported
    position, and fails on the same seeks. *)
Theorem buffered_writer_same_file d gen cs :
  (∀ data, WcWrite data ∈ cs → data ≠ []) →
  match writer_run (io_writer d gen IoBuf) (cs ++ [WcFlush]),
        writer_run (io_writer d gen IoDirect) (cs ++ [WcFlush]) with
  | Ok (db, wb), Ok (dd, wd) =>
      file_content db gen = file_content dd gen ∧ current_pos wb = current_pos wd
  | Err e, Err e' => e = e'
  | _, _ => False
  end.
Proof.
  assert (lags gen (io_writer d gen IoBuf).1 (io_writer d gen IoBuf).2
    (io_writer d gen IoDirect).1 (io_writer d gen IoDirect).2) as Hlag by done.
  unfold writer_run.
  destruct (io_writer d gen IoBuf) as [db wb], (io_writer d gen IoDirect) as [dd wd].
  cbn [fst snd] in *. revert db wb dd wd Hlag.
  induction cs as [|c cs IH]; intros db wb dd wd Hlag Hne.
  - cbn [app res_foldM writer_step fst snd res_bind].
    pose proof (lags_flush _ _ _ _ _ Hlag) as [Hlag' Hnil].
    pose proof (lags_types _ _ _ _ _ Hlag) as [Htb Htd].
    unfold writer_flush. rewrite Htb, Htd. destruct (flush_buf db wb) as [d1 w1].
    by apply lags_flushed.
  - cbn [app res_foldM].
    pose proof (lags_step _ _ _ _ _ c Hlag ltac:(intros data ->; apply Hne; by left)) as Hstep.
    destruct (writer_step (db, wb) c) as [[db' wb']| |], (writer_step (dd, wd) c) as [[dd' wd']| |];
      cbn [res_bind]; try done.
    apply IH; [done|]. intros data Hd. apply Hne. by right.
Qed.

Lemma buffered_writer_same_file_witness :
  match writer_run (io_writer ∅ 7 IoBuf)
          ([WcWrite [x01; x02; x03]; WcSeek (FromStart 1); WcWrite [x09]] ++ [WcFlush]),
        writer_run (io_writer ∅ 7 IoDirect)
          ([WcWrite [x01; x02; x03]; WcSeek (FromStart 1); WcWrite [x09]] ++ [WcFlush]) with
  | Ok (db, wb), Ok (dd, wd) =>
      file_content db 7 = file_content dd 7 ∧ current_pos wb = current_pos wd
  | Err e, Err e' => e = e'
  | _, _ => False
  end.
Proof.
  apply buffered_writer_same_file. intros data Hd.
  repeat (apply elem_of_cons in Hd as [?|Hd]; [by simplify_eq|]).
  by apply not_elem_of_nil in Hd.
Defined.

(** ** What is on disk before a flush *)

(** The file after the calls of [write] on a new file, with nothing flushed explicitly. *)
Definition written_file (t : IoType) (cs : list bytes) : bytes :=
  match writer_run (io_writer ∅ 0 t) (WcWrite <$> cs) with
  | Ok (d, _) => file_content d 0
  | _ => []
  end.

(** A log to which [content] was written through a writer of the type: [b] can be its
    bytes on disk. *)
Definition log_on_disk (t : IoType) (content b : bytes) : Prop :=
  ∃ cs, concat cs = content ∧ written_file t cs = b.

(** A direct writer has written everything; a buffered one lacks its pending bytes. *)
Record on_disk (t : IoType) (acc : bytes) (d : Dir) (w : IoWriter) : Prop := {
  od_gen : wr_gen w = 0%Z;
  od_type : wr_type w = t;
  od_content : file_content d 0 ++ wr_pending w = acc;
  od_pos : wr_pos w = length (file_content d 0);
  od_direct : t = IoDirect → wr_pending w = [];
  od_pending : length (wr_pending w) ≤ BUF_CAPACITY;
}.

Lemma raw_write_on_disk t acc d w data :
  on_disk t acc d w → wr_pending w = [] → on_disk t (acc ++ data) (raw_write d w data).1 (raw_write d w data).2.
Proof.
  intros [Hg Ht Hc Hp Hd Hpend] Hnil. rewrite Hnil, app_nil_r in Hc. subst acc.
  assert (file_content (raw_write d w data).1 0 = file_content d 0 ++ data) as Hfile
    by (cbn [raw_write fst]; by rewrite Hg, file_content_insert, Hp, file_write_end).
  split; rewrite ?Hfile; cbn [raw_write snd wr_gen wr_type wr_pos wr_pending]; try done.
  - by rewrite Hnil, app_nil_r.
  - rewrite length_app. lia.
Qed.

Lemma add_logical_on_disk t acc d w n : on_disk t acc d w → on_disk t acc d (add_logical w n).
Proof. by intros [? ? ? ? ? ?]. Qed.

Lemma flush_on_disk acc d w :
  on_disk IoBuf acc d w → on_disk IoBuf acc (flush_buf d w).1 (flush_buf d w).2 ∧ wr_pending (flush_buf d w).2 = [].
Proof.
  intros H. unfold flush_buf. destruct (wr_pending w) as [|x q] eqn:E; [done|]. split; [|done].
  destruct H as [Hg Ht Hc Hp _ _]. rewrite E in Hc.
  replace acc with (file_content d 0 ++ (x :: q)). apply raw_write_on_disk; [|done].
  split; cbn [set_pending wr_gen wr_type wr_pos wr_pending]; rewrite ?app_nil_r; try done. cbn. lia.
Qed.

Lemma pend_on_disk acc d w data :
  on_disk IoBuf acc d w → length (wr_pending w) + length data ≤ BUF_CAPACITY →
  on_disk IoBuf (acc ++ data) d (set_pending w (wr_pending w ++ data)).
Proof.
  intros [Hg Ht Hc Hp _ _] Hfit. split; cbn [set_pending wr_gen wr_type wr_pos wr_pending]; try done.
  - by rewrite app_assoc, Hc.
  - rewrite length_app. lia.
Qed.

Lemma write_on_disk t acc d w data :
  on_disk t acc d w → on_disk t (acc ++ data) (writer_write d w data).1 (writer_write d w data).2.
Proof.
  intros H. pose proof H as [Hg Ht Hc Hp Hd Hpend]. unfold writer_write. rewrite Ht. destruct t; cycle 1.
  { apply raw_write_on_disk; [done|by apply Hd]. }
  destruct (flush_on_disk acc d w H) as [H1 Hn1]. unfold buf_write.
  destruct (decide (length data < _)) as [Hfit|Hbig].
  { apply add_logical_on_disk, pend_on_disk; [done|lia]. }
  destruct (decide (_ < length data)) as [Hover|Hexact].
  - destruct (flush_buf d w) as [d1 w1]. cbn [fst snd] in *. destruct (decide (BUF_CAPACITY ≤ length data)).
    + pose proof (raw_write_on_disk _ _ _ _ data H1 Hn1). destruct (raw_write d1 w1 data). by apply add_logical_on_disk.
    + apply add_logical_on_disk, pend_on_disk; [done|]. rewrite Hn1. cbn [length]. lia.
  - destruct (decide (BUF_CAPACITY ≤ length data)) as [Hge|Hlt].
    + assert (wr_pending w = []) as Hnil.
      { assert (0 < BUF_CAPACITY) by (unfold BUF_CAPACITY; lia).
        destruct (wr_pending w) as [|x q]; [done|]. cbn [length] in *. lia. }
      pose proof (raw_write_on_disk _ _ _ _ data H Hnil). destruct (raw_write d w data). by apply add_logical_on_disk.
    + apply add_logical_on_disk, pend_on_disk; [done|lia].
Qed.

Lemma run_on_disk t acc d w cs :
  on_disk t acc d w →
  ∃ d' w', writer_run (d, w) (WcWrite <$> cs) = Ok (d', w') ∧ on_disk t (acc ++ concat cs) d' w'.
Proof.
  revert acc d w. induction cs as [|data cs IH]; intros acc d w H; cbn [fmap list_fmap concat].
  { exists d, w. by rewrite app_nil_r. }
  unfold writer_run in *. cbn [res_foldM writer_step fst snd res_bind].
  pose proof (write_on_disk _ _ _ _ data H) as H'. destruct (writer_write d w data) as [d1 w1].
  rewrite app_assoc. by apply IH.
Qed.

(** On disk is a prefix of what was written: all of it with a direct writer, all but at most
    the capacity of the buffer with a buffered one. *)
Lemma log_on_disk_prefix t content b :
  log_on_disk t content b →
  ∃ pending, content = b ++ pending ∧ length pending ≤ BUF_CAPACITY ∧ (t = IoDirect → pending = []).
Proof.
  intros (cs & <- & <-). unfold written_file.
  assert (on_disk t [] (io_writer ∅ 0 t).1 (io_writer ∅ 0 t).2) as H by (split; cbn; (done || lia)).
  destruct (io_writer ∅ 0 t) as [d w]. destruct (run_on_disk t [] d w cs H) as (d' & w' & -> & [_ _ Hc _ Hd Hp]).
  exists (wr_pending w'). by split_and!.
Qed.

(** Less than the capacity of the buffer does not reach the disk at all. *)
Lemma small_run d w cs :
  wr_type w = IoBuf → length (wr_pending w) + length (concat cs) < BUF_CAPACITY →
  ∃ w', writer_run (d, w) (WcWrite <$> cs) = Ok (d, w').
Proof.
  revert w. induction cs as [|data cs IH]; intros w Ht Hl; cbn [fmap list_fmap]; [by exists w|].
  cbn [concat] in Hl. rewrite length_app in Hl. unfold writer_run in *. cbn [res_foldM writer_step fst snd res_bind].
  unfold writer_write. rewrite Ht. unfold buf_write. rewrite decide_True by lia. apply IH; [done|].
  cbn [add_logical set_pending wr_pending]. rewrite length_app. lia.
Qed.

Lemma log_on_disk_small content b : log_on_disk IoBuf content b → length content < BUF_CAPACITY → b = [].
Proof.
  intros (cs & <- & <-) Hl. unfold written_file, io_writer.
  destruct (small_run (open_file ∅ 0)
    {| wr_gen := 0; wr_type := IoBuf; wr_pos := 0; wr_pending := []; wr_logical := 0 |} cs) as [w' ->]; done.
Qed.
