(* ===== verification/Log.v ===== *)
(** * The record log (src/kernel/lsm/log.rs)

    Records are cut into fragments that never cross a block of [block_size] bytes; a
    fragment is a checksum, a length, a type and the data.  The writer and the reader
    are generic over a [Write + Seek] and a [Read + Seek]: the writer's sink is a file
    with a position, the reader's source is a list of chunks, one per underlying
    buffer fill, so that [read] may return less than asked for. *)

From S2P Require Import Prelude Std Crates Io.
From Stdlib Require Import ZArith Lia Strings.Byte.
From stdpp Require Import base list gmap.

Set Default Goal Selector "!".

Definition BLOCK_SIZE : nat := 32 * 1024.
Definition HEADER_SIZE : nat := 4 + 4 + 1.

Inductive RecordType : Type :=
  | RFull
  | RFirst
  | RMiddle
  | RLast.

(** [t as u8] *)
Definition record_type_byte (t : RecordType) : byte :=
  match t with RFull => x01 | RFirst => x02 | RMiddle => x03 | RLast => x04 end.

Definition record_type_from (b : byte) : KernelResult RecordType :=
  match b with
  | x01 => Ok RFull
  | x02 => Ok RFirst
  | x03 => Ok RMiddle
  | x04 => Ok RLast
  | _ => Panic
  end.

(** ** The writer *)

Record Sink := mkSink {
  sk_content : bytes;
  sk_pos : nat;
}.

Definition sink_write (s : Sink) (data : bytes) : Sink :=
  {| sk_content := file_write (sk_content s) (sk_pos s) data;
     sk_pos := sk_pos s + length data |}.

Record LogWriter := mkLogWriter {
  lw_dst : Sink;
  lw_offset : nat;
  lw_block_size : nat;
}.

Definition log_writer_new (dst : Sink) : LogWriter :=
  {| lw_dst := dst; lw_offset := 0; lw_block_size := BLOCK_SIZE |}.

Definition log_writer_new_with_off (dst : Sink) (off : nat) : LogWriter :=
  {| lw_dst := dst; lw_offset := off `mod` BLOCK_SIZE; lw_block_size := BLOCK_SIZE |}.

(** [seek_end] moves the sink; the block offset stays. *)
Definition log_seek_end (w : LogWriter) : LogWriter * nat :=
  ({| lw_dst := {| sk_content := sk_content (lw_dst w); sk_pos := length (sk_content (lw_dst w)) |};
      lw_offset := lw_offset w; lw_block_size := lw_block_size w |},
   length (sk_content (lw_dst w))).

Section log.
Context `{IE : IntegerEncoding} {CRC : Crc32}.

Definition log_header (crc : Z) (len : nat) (t : RecordType) : bytes :=
  encode_fixed 4 crc ++ encode_fixed 4 (as_u32 len) ++ [record_type_byte t].

Definition emit_record (w : LogWriter) (t : RecordType) (data : bytes) (len : nat)
    : LogWriter * nat :=
  let header := log_header (crc32_hash (take len data)) len t in
  let offset := length header + length (take len data) in
  ({| lw_dst := sink_write (sink_write (lw_dst w) header) (take len data);
      lw_offset := lw_offset w + offset; lw_block_size := lw_block_size w |}, offset).

Definition fragment_type (first_frag last_frag : bool) : RecordType :=
  if first_frag && last_frag then RFull
  else if first_frag then RFirst
  else if last_frag then RLast
  else RMiddle.

(** Fill up the block and go to the next one when no header fits in it. *)
Definition fill_block (w : LogWriter) : KernelResult LogWriter :=
  let? space_left := usize_sub (lw_block_size w) (lw_offset w) in
  Ok (if decide (space_left < HEADER_SIZE) then
        {| lw_dst := if decide (0 < space_left)
                     then sink_write (lw_dst w) (replicate space_left x00) else lw_dst w;
           lw_offset := 0; lw_block_size := lw_block_size w |}
      else w).

(** The loop of [add_record]; [len] is the size of the last fragment written. *)
Fixpoint add_record_loop (fuel : nat) (w : LogWriter) (record : bytes) (len : nat)
    : KernelResult (nat * LogWriter) :=
  match fuel with
  | O => Panic
  | S fuel' =>
      if decide (record = []) then Ok (len, w)
      else if decide (lw_block_size w ≤ HEADER_SIZE) then Panic
      else
        let? w1 := fill_block w in
        let? avail0 := usize_sub (lw_block_size w1) (lw_offset w1) in
        let? avail := usize_sub avail0 HEADER_SIZE in
        let frag_len := min (length record) avail in
        let t := fragment_type (bool_decide (len = 0)) (bool_decide (frag_len = length record)) in
        let '(w2, len') := emit_record w1 t record frag_len in
        add_record_loop fuel' w2 (drop frag_len record) len'
  end.

(** Two rounds consume at least one byte: a fragment is empty only when exactly a header
    fits in the block, and the next one starts a block. *)
Definition add_record (w : LogWriter) (r : bytes) : KernelResult (nat * LogWriter) :=
  add_record_loop (2 * length r + 2) w r 0.

(** ** The reader *)

(** [read] with a buffer of [n] bytes takes from the first chunk. *)
Definition src_read (n : nat) (src : list bytes) : bytes * list bytes :=
  match src with
  | [] => ([], [])
  | c :: src' =>
      (take n c, match drop n c with [] => src' | rest => rest :: src' end)
  end.

Fixpoint src_skip (n : nat) (src : list bytes) : list bytes :=
  match src with
  | [] => []
  | c :: src' =>
      if decide (length c ≤ n) then src_skip (n - length c) src' else drop n c :: src'
  end.

Definition src_read_exact (n : nat) (src : list bytes) : KernelResult (bytes * list bytes) :=
  if decide (n ≤ length (concat src)) then Ok (take n (concat src), src_skip n src)
  else Err (Io UnexpectedEof).

Record LogReader := mkLogReader {
  lr_src : list bytes;
  lr_offset : nat;
  lr_block_size : nat;
}.

Definition log_reader_new (src : list bytes) : LogReader :=
  {| lr_src := src; lr_offset := 0; lr_block_size := BLOCK_SIZE |}.

(** The part of the loop of [read] after a complete header: the data, its checksum and
    the type of the fragment. *)
Definition read_fragment (head : bytes) (r : LogReader)
    : KernelResult (RecordType * bytes * LogReader) :=
  let crc := decode_fixed (take 4 head) in
  let len := Z.to_nat (decode_fixed (take 4 (drop 4 head))) in
  let? (buf, src) := src_read_exact len (lr_src r) in
  if decide (crc32_hash buf ≠ crc) then Err CrcMisMatch
  else
    let? b := or_panic (head !! 8) in
    let? t := record_type_from b in
    Ok (t, buf, {| lr_src := src; lr_offset := lr_offset r + HEADER_SIZE + len;
                   lr_block_size := lr_block_size r |}).

(** Skipping to the next block when no header fits in this one. *)
Definition skip_block (r : LogReader) : KernelResult LogReader :=
  let? leftover := usize_sub (lr_block_size r) (lr_offset r) in
  Ok (if decide (leftover < HEADER_SIZE)
      then {| lr_src := src_skip leftover (lr_src r); lr_offset := 0;
              lr_block_size := lr_block_size r |}
      else r).

(** The loop of [read]: [head] is the part of the header read so far, [dst] the record
    assembled so far, [dst_offset] its length.  [None] is a loop that has not finished
    within [fuel] rounds. *)
Fixpoint log_read_loop (fuel : nat) (r : LogReader) (head dst : bytes) (dst_offset : nat)
    : option (KernelResult (nat * bytes * LogReader)) :=
  match fuel with
  | O => None
  | S fuel' =>
      match skip_block r with
      | Ok r1 =>
          let '(h, src) := src_read (HEADER_SIZE - length head) (lr_src r1) in
          let head' := head ++ h in
          let r2 := {| lr_src := src; lr_offset := lr_offset r1;
                       lr_block_size := lr_block_size r1 |} in
          if decide (length head' = 0) then Some (Ok (dst_offset, dst, r2))
          else if decide (length head' ≠ HEADER_SIZE) then
            log_read_loop fuel' r2 head' dst dst_offset
          else
            match read_fragment head' r2 with
            | Ok ((RFull | RLast), buf, r3) =>
                Some (Ok (dst_offset + length buf, dst ++ buf, r3))
            | Ok (_, buf, r3) => log_read_loop fuel' r3 [] (dst ++ buf) (dst_offset + length buf)
            | Err e => Some (Err e)
            | Panic => Some Panic
            end
      | Err e => Some (Err e)
      | Panic => Some Panic
      end
  end.

Definition log_read (fuel : nat) (r : LogReader) : option (KernelResult (nat * bytes * LogReader)) :=
  log_read_loop fuel r [] [] 0.

(** [LogLoader::load]: decode every record until the end of the file or the first record
    that cannot be read. *)
Fixpoint log_load_loop {R} (rounds fuel : nat) (fn_decode : bytes → list R → KernelResult (list R))
    (r : LogReader) (records : list R) : option (KernelResult (list R)) :=
  match rounds with
  | O => None
  | S rounds' =>
      match log_read fuel r with
      | None => None
      | Some Panic => Some Panic
      | Some (Err _) => Some (Ok records)
      | Some (Ok (n, buf, r')) =>
          if decide (n = 0) then Some (Ok records)
          else
            match fn_decode buf records with
            | Ok records' => log_load_loop rounds' fuel fn_decode r' records'
            | Err e => Some (Err e)
            | Panic => Some Panic
            end
      end
  end.

(** Every record takes a header, so the number of bytes bounds the rounds. *)
Definition log_load {R} (src : list bytes) (fn_decode : bytes → list R → KernelResult (list R))
    (records : list R) : option (KernelResult (list R)) :=
  let fuel := S (length (concat src)) in
  log_load_loop fuel fuel fn_decode (log_reader_new src) records.
End log.

(** ** Lemmas on sources *)

Definition chunks (src : list bytes) : Prop := Forall (λ c, c ≠ []) src.

Lemma src_skip_concat n src : concat (src_skip n src) = drop n (concat src).
Proof.
  revert n. induction src as [|c src IH]; intros n; simpl; [by rewrite drop_nil|].
  case_decide as Hle.
  - rewrite IH, drop_app, (drop_ge c) by lia. done.
  - simpl. rewrite drop_app. f_equal. replace (n - length c) with 0 by lia. by rewrite drop_0.
Qed.

Lemma src_skip_chunks n src : chunks src → chunks (src_skip n src).
Proof.
  revert n. induction src as [|c src IH]; intros n Hc; [done|]. simpl.
  apply Forall_cons in Hc as [Hc Hsrc]. case_decide as Hle; [by apply IH|].
  apply Forall_cons. split; [|done]. intros E. apply (f_equal length) in E.
  rewrite length_drop in E. simpl in E. lia.
Qed.

(** A read of [n > 0] bytes from a non-empty source makes progress within the first
    [n] bytes. *)
Lemma src_read_progress n src h src' :
  chunks src → 0 < n → src_read n src = (h, src') →
  chunks src' ∧ concat src = h ++ concat src' ∧ length h ≤ n ∧ (concat src ≠ [] → h ≠ []).
Proof.
  intros Hc Hn. destruct src as [|c src].
  - intros [= <- <-]. split_and!; simpl; try done. lia.
  - apply Forall_cons in Hc as [Hne Hsrc]. simpl.
    destruct (drop n c) as [|x rest] eqn:E; intros [= <- <-].
    + split_and!; [done| |rewrite length_take; lia|].
      * f_equal. rewrite take_ge; [done|]. apply (f_equal length) in E.
        rewrite length_drop in E. simpl in E. lia.
      * intros _ Hnil. destruct c, n; simpl in *; (done || lia).
    + split_and!; [by apply Forall_cons| |rewrite length_take; lia|].
      * simpl. by rewrite app_comm_cons, <- E, app_assoc, take_drop.
      * intros _ Hnil. destruct c, n; simpl in *; (done || lia).
Qed.

(** A file read in one piece. *)
Definition one_chunk (content : bytes) : list bytes :=
  match content with [] => [] | _ => [content] end.

Lemma one_chunk_ok content : chunks (one_chunk content) ∧ concat (one_chunk content) = content.
Proof.
  destruct content as [|b bs]; [split; constructor|]. split; [by apply Forall_singleton|].
  simpl. by rewrite app_nil_r.
Qed.

(** ** Reading a fragment *)

Section read_laws.
Context `{IE : IntegerEncoding} {IEL : IntegerEncodingLaws} {CRC : Crc32} {CRCL : Crc32Laws}.

Lemma log_header_length crc len t : length (log_header crc len t) = HEADER_SIZE.
Proof. unfold log_header. by rewrite !length_app, !encode_fixed_length. Qed.

(** The reader's position in the middle of a block. *)
Definition in_block (r : LogReader) : Prop :=
  lr_offset r + HEADER_SIZE ≤ lr_block_size r.

Lemma skip_block_in r : in_block r → skip_block r = Ok r.
Proof.
  unfold in_block, skip_block, usize_sub. intros Hin.
  rewrite decide_True by lia. cbn [res_bind]. by rewrite decide_False by lia.
Qed.

(** Whatever the chunks, the header is assembled and handed to [read_fragment]. *)
Lemma read_header fuel r head hrest header rest dst n :
  chunks (lr_src r) → in_block r → length header = HEADER_SIZE →
  head ++ hrest = header → hrest ≠ [] → concat (lr_src r) = hrest ++ rest →
  length (concat (lr_src r)) < fuel →
  ∃ fuel' src, chunks src ∧ concat src = rest ∧ length rest < fuel' ∧
    log_read_loop fuel r head dst n
    = match read_fragment header
              {| lr_src := src; lr_offset := lr_offset r; lr_block_size := lr_block_size r |} with
      | Ok ((RFull | RLast), buf, r3) => Some (Ok (n + length buf, dst ++ buf, r3))
      | Ok (_, buf, r3) => log_read_loop fuel' r3 [] (dst ++ buf) (n + length buf)
      | Err e => Some (Err e)
      | Panic => Some Panic
      end.
Proof.
  intros Hc Hin Hlen. revert r head hrest Hc Hin.
  induction fuel as [|fuel IH]; intros r head hrest Hc Hin Hsplit Hne Hsrc Hfuel; [lia|].
  cbn [log_read_loop]. rewrite skip_block_in by done.
  assert (length hrest = HEADER_SIZE - length head) as Hh.
  { pose proof (f_equal length Hsplit) as E. rewrite length_app in E. lia. }
  assert (0 < length hrest) as Hpos by (destruct hrest; [done|simpl; lia]).
  destruct (src_read (HEADER_SIZE - length head) (lr_src r)) as [h src] eqn:Eread.
  destruct (src_read_progress (HEADER_SIZE - length head) _ _ _ Hc ltac:(lia) Eread) as (Hc' & Hcat & Hle & Hprog).
  assert (concat (lr_src r) ≠ []) as Hnonnil by (rewrite Hsrc; by destruct hrest).
  specialize (Hprog Hnonnil). cbn [lr_offset lr_block_size].
  assert (∃ hrest', hrest = h ++ hrest' ∧ concat src = hrest' ++ rest) as (hrest' & -> & Hsrc').
  { exists (drop (length h) hrest). rewrite Hsrc in Hcat.
    assert (take (length h) hrest = h) as Ht.
    { apply (f_equal (take (length h))) in Hcat.
      rewrite take_app_le, take_app_length in Hcat by lia. done. }
    split; [rewrite <- Ht at 1; by rewrite take_drop|].
    apply (f_equal (drop (length h))) in Hcat.
    rewrite drop_app_le, drop_app_length in Hcat by lia. done. }
  assert (0 < length h) as Hhpos by (destruct h; [done|simpl; lia]).
  rewrite (decide_False (P := length (head ++ h) = 0)) by (rewrite length_app; lia).
  rewrite !length_app in *. destruct (decide (hrest' = [])) as [->|Hrest].
  - rewrite decide_False by (simpl in Hh; lia). rewrite app_nil_r in Hsplit.
    exists fuel, src. split_and!; [done|done|rewrite Hcat, Hsrc', length_app in Hfuel; simpl in *; lia|].
    by rewrite Hsplit.
  - assert (0 < length hrest') by (destruct hrest'; [done|simpl; lia]).
    rewrite decide_True by lia.
    destruct (IH {| lr_src := src; lr_offset := lr_offset r; lr_block_size := lr_block_size r |}
                (head ++ h) hrest') as (fuel' & src' & H1 & H2 & H3 & H4);
      [done|done|by rewrite <- app_assoc|done|done|..].
    { cbn [lr_src]. rewrite Hcat, length_app in Hfuel. lia. }
    exists fuel', src'. by split_and!.
Qed.

Lemma record_type_from_byte t : record_type_from (record_type_byte t) = Ok t.
Proof. by destruct t. Qed.

(** The data of a fragment, when it is all there. *)
Lemma read_fragment_spec crc t data rest r :
  (0 ≤ crc < 2 ^ 32)%Z → fits_u32 (length data) → chunks (lr_src r) →
  concat (lr_src r) = data ++ rest →
  ∃ src, chunks src ∧ concat src = rest ∧
  read_fragment (log_header crc (length data) t) r
  = if decide (crc32_hash data = crc) then
      Ok (t, data, {| lr_src := src; lr_offset := lr_offset r + HEADER_SIZE + length data;
                      lr_block_size := lr_block_size r |})
    else Err CrcMisMatch.
Proof.
  intros Hcrc Hfit Hc Hsrc. unfold read_fragment, log_header.
  rewrite (take_app_length' (encode_fixed 4 crc)) by (by rewrite encode_fixed_length).
  rewrite (drop_app_length' (encode_fixed 4 crc)) by (by rewrite encode_fixed_length).
  rewrite (take_app_length' (encode_fixed 4 _)) by (by rewrite encode_fixed_length).
  rewrite !decode_encode_fixed by (done || apply as_u32_range).
  rewrite as_u32_to_nat by done. unfold src_read_exact.
  rewrite Hsrc, decide_True by (rewrite length_app; lia). cbn [res_bind].
  rewrite take_app_length.
  exists (src_skip (length data) (lr_src r)). split_and!; [by apply src_skip_chunks| |].
  { by rewrite src_skip_concat, Hsrc, drop_app_length. }
  destruct (decide (crc32_hash data = crc)) as [Heq|Hne]; [|by rewrite decide_True].
  rewrite decide_False by (intros Hn; by apply Hn).
  rewrite lookup_app_r by (rewrite encode_fixed_length; lia).
  rewrite encode_fixed_length. rewrite lookup_app_r by (rewrite encode_fixed_length; lia).
  rewrite encode_fixed_length. cbn [or_panic res_bind lookup list_lookup Nat.sub].
  by rewrite record_type_from_byte.
Qed.
End read_laws.

(** ** Writing and reading back *)

Section roundtrip.
Context `{IE : IntegerEncoding} {IEL : IntegerEncodingLaws} {CRC : Crc32} {CRCL : Crc32Laws}.

(** A writer at the end of its sink, whose block has room up to [bs]. *)
Record at_end (w : LogWriter) (bs : nat) : Prop := {
  end_pos : sk_pos (lw_dst w) = length (sk_content (lw_dst w));
  end_block : lw_block_size w = bs;
  end_offset : lw_offset w ≤ bs;
}.

(** [reads enc o record o']: a reader at block offset [o] whose source goes on with [enc]
    reads [record] and stops after [enc] at offset [o'], whatever follows and however
    the source is chunked. *)
Definition reads (bs : nat) (enc : bytes) (o : nat) (record : bytes) (o' : nat) : Prop :=
  ∀ fuel r dst n rest,
    chunks (lr_src r) → concat (lr_src r) = enc ++ rest → lr_offset r = o →
    lr_block_size r = bs → length (concat (lr_src r)) < fuel →
    ∃ src, chunks src ∧ concat src = rest ∧
      log_read_loop fuel r [] dst n
      = Some (Ok (n + length record, dst ++ record,
                  {| lr_src := src; lr_offset := o'; lr_block_size := bs |})).

Lemma sink_write_end s data :
  sk_pos s = length (sk_content s) →
  sink_write s data
  = {| sk_content := sk_content s ++ data; sk_pos := length (sk_content s ++ data) |}.
Proof.
  intros E. unfold sink_write. rewrite E, file_write_end. by rewrite length_app.
Qed.

(** A fragment that ends the record. *)
Lemma reads_last bs o data t :
  HEADER_SIZE < bs → (Z.of_nat bs < 2 ^ 32)%Z → o + HEADER_SIZE + length data ≤ bs →
  t = RFull ∨ t = RLast →
  reads bs (log_header (crc32_hash data) (length data) t ++ data) o data
        (o + HEADER_SIZE + length data).
Proof.
  intros Hbs Hbs32 Hroom Ht fuel r dst n rest Hc Hsrc Ho Hb Hfuel.
  assert (log_header (crc32_hash data) (length data) t ≠ []) as Hne.
  { intros E. pose proof (log_header_length (crc32_hash data) (length data) t) as H.
    by rewrite E in H. }
  destruct (read_header fuel r [] (log_header (crc32_hash data) (length data) t)
              (log_header (crc32_hash data) (length data) t) (data ++ rest) dst n Hc ltac:(unfold in_block; lia)
              (log_header_length _ _ _) eq_refl Hne) as (fuel' & src & Hc' & Hsrc' & _ & ->);
    [by rewrite Hsrc, app_assoc|done|].
  destruct (read_fragment_spec (crc32_hash data) t data rest
    {| lr_src := src; lr_offset := lr_offset r; lr_block_size := lr_block_size r |})
    as (src' & Hc'' & Hsrc'' & ->); [apply crc32_range|unfold fits_u32; lia|done|done|].
  rewrite decide_True by done. exists src'. split_and!; [done|done|].
  cbn [lr_offset lr_block_size]. rewrite Ho, Hb. by destruct Ht as [-> | ->].
Qed.

(** A fragment that does not, and the rest of the record after it. *)
Lemma reads_more bs o data t enc record o' :
  HEADER_SIZE < bs → (Z.of_nat bs < 2 ^ 32)%Z → o + HEADER_SIZE + length data ≤ bs →
  t = RFirst ∨ t = RMiddle →
  reads bs enc (o + HEADER_SIZE + length data) record o' →
  reads bs ((log_header (crc32_hash data) (length data) t ++ data) ++ enc) o (data ++ record) o'.
Proof.
  intros Hbs Hbs32 Hroom Ht Hrest fuel r dst n rest Hc Hsrc Ho Hb Hfuel.
  assert (log_header (crc32_hash data) (length data) t ≠ []) as Hne.
  { intros E. pose proof (log_header_length (crc32_hash data) (length data) t) as H.
    by rewrite E in H. }
  destruct (read_header fuel r [] (log_header (crc32_hash data) (length data) t)
              (log_header (crc32_hash data) (length data) t) (data ++ enc ++ rest) dst n Hc ltac:(unfold in_block; lia)
              (log_header_length _ _ _) eq_refl Hne) as (fuel' & src & Hc' & Hsrc' & Hf' & ->);
    [by rewrite Hsrc, <- !app_assoc|done|].
  destruct (read_fragment_spec (crc32_hash data) t data (enc ++ rest)
    {| lr_src := src; lr_offset := lr_offset r; lr_block_size := lr_block_size r |})
    as (src' & Hc'' & Hsrc'' & ->); [apply crc32_range|unfold fits_u32; lia|done|done|].
  rewrite decide_True by done. cbn [lr_offset lr_block_size].
  destruct (Hrest fuel' {| lr_src := src'; lr_offset := lr_offset r + HEADER_SIZE + length data;
                           lr_block_size := lr_block_size r |} (dst ++ data) (n + length data) rest)
    as (src3 & Hc3 & Hsrc3 & Hloop); [done|done|by rewrite <- Ho|done|..].
  { cbn [lr_src]. rewrite Hsrc''. rewrite !length_app in *. lia. }
  exists src3. split_and!; [done|done|].
  rewrite length_app, app_assoc, Nat.add_assoc, <- Hloop. by destruct Ht as [-> | ->].
Qed.

(** The end of a block is skipped. *)
Lemma reads_pad bs o enc record o' :
  HEADER_SIZE < bs → o ≤ bs → bs - o < HEADER_SIZE →
  reads bs enc 0 record o' → reads bs (replicate (bs - o) x00 ++ enc) o record o'.
Proof.
  intros Hbs Ho Hlt Henc fuel r dst n rest Hc Hsrc Hr Hb Hfuel.
  set (r1 := {| lr_src := src_skip (bs - o) (lr_src r); lr_offset := 0; lr_block_size := bs |}).
  assert (log_read_loop fuel r [] dst n = log_read_loop fuel r1 [] dst n) as ->.
  { destruct fuel as [|fuel]; [done|]. cbn [log_read_loop].
    rewrite (skip_block_in r1) by (unfold in_block; simpl; lia).
    unfold skip_block, usize_sub. rewrite Hr, Hb, decide_True by done. cbn [res_bind].
    by rewrite decide_True by done. }
  assert (concat (lr_src r1) = enc ++ rest) as Hsrc1.
  { simpl. rewrite src_skip_concat, Hsrc, <- app_assoc.
    by rewrite drop_app_length' by (by rewrite length_replicate). }
  apply Henc; [by apply src_skip_chunks|done|done|done|].
  rewrite Hsrc1. rewrite Hsrc, <- app_assoc, length_app in Hfuel. lia.
Qed.

Lemma fill_block_spec bs w :
  HEADER_SIZE < bs → at_end w bs →
  ∃ w1 pad, fill_block w = Ok w1 ∧ sk_content (lw_dst w1) = sk_content (lw_dst w) ++ pad ∧
    at_end w1 bs ∧ lw_offset w1 + HEADER_SIZE ≤ bs ∧
    (lw_offset w1 + HEADER_SIZE = bs → bs - lw_offset w = HEADER_SIZE) ∧
    ∀ enc record o', reads bs enc (lw_offset w1) record o' →
      reads bs (pad ++ enc) (lw_offset w) record o'.
Proof.
  intros Hbs [Hpos Hblk Hoff]. unfold fill_block, usize_sub.
  rewrite Hblk, decide_True by done. cbn [res_bind].
  destruct (decide (bs - lw_offset w < HEADER_SIZE)) as [Hlt|Hge].
  - eexists _, (replicate (bs - lw_offset w) x00). split; [done|].
    destruct (decide (0 < bs - lw_offset w)) as [Hsp|Hsp]; cbn [lw_dst lw_offset].
    + rewrite sink_write_end by done. cbn [sk_content].
      split_and!; [done|split; simpl; (done || lia)|lia|lia|].
      intros enc record o'. by apply reads_pad.
    + split_and!; [|split; simpl; (done || lia)|lia|lia|intros enc record o'; by apply reads_pad].
      replace (bs - lw_offset w) with 0 by lia. by rewrite app_nil_r.
  - exists w, []. rewrite app_nil_r. split_and!; [done|done|done|lia|lia|done].
Qed.

Lemma emit_record_spec bs w t record len :
  at_end w bs → len ≤ length record → lw_offset w + HEADER_SIZE + len ≤ bs →
  ∃ w', emit_record w t record len = (w', HEADER_SIZE + len) ∧
    sk_content (lw_dst w') = sk_content (lw_dst w)
      ++ log_header (crc32_hash (take len record)) len t ++ take len record ∧
    at_end w' bs ∧ lw_offset w' = lw_offset w + HEADER_SIZE + len.
Proof.
  intros [Hpos Hblk Hoff] Hlen Hroom. unfold emit_record.
  rewrite log_header_length, length_take_le by done. eexists. split; [done|].
  cbn [lw_dst lw_offset lw_block_size]. rewrite (sink_write_end (lw_dst w)) by done.
  rewrite sink_write_end by done. cbn [sk_content].
  split_and!; [by rewrite app_assoc| |lia].
  split; cbn [lw_dst lw_offset lw_block_size sk_pos sk_content]; (done || lia).
Qed.

Lemma fragment_type_last b : fragment_type b true = RFull ∨ fragment_type b true = RLast.
Proof. destruct b; auto. Qed.

Lemma fragment_type_more b : fragment_type b false = RFirst ∨ fragment_type b false = RMiddle.
Proof. destruct b; auto. Qed.

Lemma add_record_loop_nil fuel w len : add_record_loop (S fuel) w [] len = Ok (len, w).
Proof. done. Qed.

Lemma add_record_loop_spec bs fuel w record len :
  HEADER_SIZE < bs → (Z.of_nat bs < 2 ^ 32)%Z → at_end w bs → record ≠ [] →
  2 * length record + (if decide (bs - lw_offset w = HEADER_SIZE) then 2 else 1) ≤ fuel →
  ∃ len' w' enc, add_record_loop fuel w record len = Ok (len', w') ∧
    sk_content (lw_dst w') = sk_content (lw_dst w) ++ enc ∧ at_end w' bs ∧
    reads bs enc (lw_offset w) record (lw_offset w').
Proof.
  intros Hbs Hbs32. revert w record len.
  induction fuel as [|fuel IH]; intros w record len Hend Hne Hfuel.
  { destruct (decide (bs - lw_offset w = HEADER_SIZE)); lia. }
  assert (0 < length record) as Hrpos by (destruct record; [done|simpl; lia]).
  cbn [add_record_loop]. rewrite decide_False by done.
  rewrite (end_block _ _ Hend), decide_False by lia.
  destruct (fill_block_spec bs w Hbs Hend) as (w1 & pad & -> & Hc1 & Hend1 & Hin & Hexact & Hpad).
  cbn [res_bind]. rewrite (end_block _ _ Hend1). unfold usize_sub.
  rewrite decide_True by lia. cbn [res_bind].
  rewrite decide_True by lia. cbn [res_bind]. cbv zeta.
  set (n := min (length record) (bs - lw_offset w1 - HEADER_SIZE)).
  destruct (emit_record_spec bs w1
    (fragment_type (bool_decide (len = 0)) (bool_decide (n = length record))) record n)
    as (w2 & -> & Hc2 & Hend2 & Ho2); [done|lia|lia|].
  assert (length (take n record) = n) as Htk by (rewrite length_take; lia).
  destruct (decide (n = length record)) as [Heq|Hlt].
  - rewrite drop_ge by lia. destruct fuel as [|fuel]; [lia|].
    rewrite (bool_decide_eq_true_2 (n = length record)), take_ge, Heq in Hc2 by lia.
    exists (HEADER_SIZE + n), w2, (pad ++ log_header (crc32_hash record) (length record)
      (fragment_type (bool_decide (len = 0)) true) ++ record).
    split_and!; [apply add_record_loop_nil|by rewrite Hc2, Hc1, <- app_assoc|done|].
    apply Hpad. rewrite Ho2, Heq.
    apply reads_last; [done|done|lia|apply fragment_type_last].
  - destruct (IH w2 (drop n record) (HEADER_SIZE + n) Hend2)
      as (len' & w' & enc & -> & Hc' & Hend' & Henc).
    { intros E. apply (f_equal length) in E. rewrite length_drop in E. simpl in E. lia. }
    { rewrite length_drop, Ho2. destruct (decide (n = 0)) as [Hn|Hn].
      - assert (lw_offset w1 + HEADER_SIZE = bs) as Hfull by lia.
        rewrite decide_True in Hfuel by auto.
        rewrite decide_False by (unfold HEADER_SIZE in *; lia). lia.
      - destruct (decide _), (decide _); lia. }
    rewrite (bool_decide_eq_false_2 (n = length record)) in Hc2 by done.
    exists len', w', (pad ++ (log_header (crc32_hash (take n record)) n
      (fragment_type (bool_decide (len = 0)) false) ++ take n record) ++ enc).
    split_and!; [done|by rewrite Hc', Hc2, Hc1, <- !app_assoc|done|].
    apply Hpad. rewrite Ho2 in Henc.
    pose proof (reads_more bs (lw_offset w1) (take n record)
      (fragment_type (bool_decide (len = 0)) false) enc (drop n record) (lw_offset w')) as Hm.
    rewrite take_drop, Htk in Hm. apply Hm; [done|done|lia|apply fragment_type_more|done].
Qed.

Lemma add_record_spec bs w record :
  HEADER_SIZE < bs → (Z.of_nat bs < 2 ^ 32)%Z → at_end w bs → record ≠ [] →
  ∃ len w' enc, add_record w record = Ok (len, w') ∧
    sk_content (lw_dst w') = sk_content (lw_dst w) ++ enc ∧ at_end w' bs ∧
    reads bs enc (lw_offset w) record (lw_offset w').
Proof.
  intros Hbs Hbs32 Hend Hne. apply add_record_loop_spec; try done. destruct (decide _); lia.
Qed.
End roundtrip.

(** ** Writing never fails

    Wherever the sink's position is, as long as the block offset is within the block. *)

Definition log_ok (w : LogWriter) : Prop :=
  lw_block_size w = BLOCK_SIZE ∧ lw_offset w ≤ BLOCK_SIZE.

Lemma BLOCK_SIZE_ok : HEADER_SIZE < BLOCK_SIZE ∧ (Z.of_nat BLOCK_SIZE < 2 ^ 32)%Z.
Proof.
  split; [by apply Nat.ltb_lt; vm_compute|by apply Z.ltb_lt; vm_compute].
Qed.

Section write_total.
Context `{IE : IntegerEncoding} {IEL : IntegerEncodingLaws} {CRC : Crc32}.

Lemma add_record_loop_total bs fuel w record len :
  HEADER_SIZE < bs → lw_block_size w = bs → lw_offset w ≤ bs →
  2 * length record + (if decide (bs - lw_offset w = HEADER_SIZE) then 2 else 1) ≤ fuel →
  ∃ len' w', add_record_loop fuel w record len = Ok (len', w') ∧
    lw_block_size w' = bs ∧ lw_offset w' ≤ bs.
Proof.
  intros Hbs. revert w record len. induction fuel as [|fuel IH]; intros w record len Hb Ho Hf.
  { destruct (decide (bs - lw_offset w = HEADER_SIZE)); lia. }
  cbn [add_record_loop]. destruct (decide (record = [])) as [->|Hne]; [by eexists _, _|].
  assert (0 < length record) as Hpos by (destruct record; [done|simpl; lia]).
  rewrite decide_False by lia. unfold fill_block, usize_sub.
  rewrite Hb, decide_True by done. cbn [res_bind].
  set (w1 := if decide (bs - lw_offset w < HEADER_SIZE) then _ else w).
  assert (lw_block_size w1 = bs ∧ lw_offset w1 + HEADER_SIZE ≤ bs ∧
    (lw_offset w1 + HEADER_SIZE = bs → bs - lw_offset w = HEADER_SIZE)) as (Hb1 & Ho1 & Hex).
  { subst w1. destruct (decide (bs - lw_offset w < HEADER_SIZE));
      cbn [lw_block_size lw_offset]; split_and!; (done || lia). }
  clearbody w1. rewrite Hb1, decide_True by lia. cbn [res_bind].
  rewrite decide_True by lia. cbn [res_bind]. cbv zeta. unfold emit_record.
  rewrite log_header_length, length_take_le by lia. cbn [lw_offset].
  set (n := min (length record) (bs - lw_offset w1 - HEADER_SIZE)).
  apply IH; cbn [lw_block_size lw_offset]; [done|lia|]. rewrite length_drop.
  destruct (decide (n = 0)) as [Hn|Hn]; [|destruct (decide _), (decide _); lia].
  assert (lw_offset w1 + HEADER_SIZE = bs) as Hfull by lia.
  rewrite decide_True in Hf by auto. rewrite decide_False by (unfold HEADER_SIZE in *; lia). lia.
Qed.

Lemma add_record_total w record :
  log_ok w → ∃ len w', add_record w record = Ok (len, w') ∧ log_ok w'.
Proof.
  intros [Hb Ho]. apply add_record_loop_total; [apply BLOCK_SIZE_ok|done|done|].
  destruct (decide _); lia.
Qed.

Lemma log_writer_new_ok dst : log_ok (log_writer_new dst).
Proof. split; [done|apply Nat.le_0_l]. Qed.
End write_total.

(** ** Whole logs *)

Section whole_log.
Context `{IE : IntegerEncoding} {IEL : IntegerEncodingLaws} {CRC : Crc32} {CRCL : Crc32Laws}.

Definition write_records (w : LogWriter) (rs : list bytes) : KernelResult LogWriter :=
  res_foldM (λ w r, let? (_, w') := add_record w r in Ok w') w rs.

Lemma log_read_eof fuel o bs dst n :
  o ≤ bs →
  ∃ r, log_read_loop (S fuel) {| lr_src := []; lr_offset := o; lr_block_size := bs |} [] dst n
       = Some (Ok (n, dst, r)).
Proof.
  intros Ho. cbn [log_read_loop]. unfold skip_block, usize_sub.
  cbn [lr_offset lr_block_size lr_src]. rewrite decide_True by done. cbn [res_bind].
  destruct (decide (bs - o < HEADER_SIZE)); cbn; eauto.
Qed.

Lemma reads_nonempty bs enc o record o' :
  o ≤ bs → record ≠ [] → reads bs enc o record o' → enc ≠ [].
Proof.
  intros Ho Hne Henc ->.
  destruct (Henc 1 {| lr_src := []; lr_offset := o; lr_block_size := bs |} [] 0 [])
    as (src & _ & _ & Hl); [constructor|done..|simpl; lia|].
  destruct (log_read_eof 0 o bs [] 0 Ho) as [r' Hr]. rewrite Hr in Hl.
  injection Hl as Hlen _ _. by destruct record.
Qed.

Lemma chunks_concat_nil src : chunks src → concat src = [] → src = [].
Proof. destruct src as [|c src]; [done|]. intros [Hc _]%Forall_cons [-> _]%app_nil. done. Qed.

Lemma write_records_load bs w rs :
  HEADER_SIZE < bs → (Z.of_nat bs < 2 ^ 32)%Z → at_end w bs → Forall (λ r, r ≠ []) rs →
  ∃ w' enc, write_records w rs = Ok w' ∧
    sk_content (lw_dst w') = sk_content (lw_dst w) ++ enc ∧ length rs ≤ length enc ∧
    ∀ R rounds fuel (fn_decode : bytes → list R → KernelResult (list R)) r records,
      chunks (lr_src r) → concat (lr_src r) = enc → lr_offset r = lw_offset w →
      lr_block_size r = bs → length rs < rounds → length enc < fuel →
      log_load_loop rounds fuel fn_decode r records
      = Some (res_foldM (λ acc b, fn_decode b acc) records rs).
Proof.
  intros Hbs Hbs32 Hend Hrs. revert w Hend. induction Hrs as [|rec rs Hne Hrs IH]; intros w Hend.
  - exists w, []. split_and!; [done|by rewrite app_nil_r|done|].
    intros R [|rounds] [|fuel] fn_decode [src o b] records Hc Hsrc Ho Hb Hrd Hf;
      cbn [lr_src lr_offset lr_block_size length] in *; try lia.
    rewrite (chunks_concat_nil src), Hb by done.
    destruct (log_read_eof fuel o bs [] 0) as [r' Hr']; [subst o; apply Hend|].
    cbn [log_load_loop]. unfold log_read. rewrite Hr'. done.
  - destruct (add_record_spec bs w rec Hbs Hbs32 Hend Hne)
      as (len & w1 & enc1 & Hadd & Hc1 & Hend1 & Hreads).
    destruct (IH w1 Hend1) as (w' & enc & Hw' & Hc' & Hlen & Hload).
    pose proof (reads_nonempty _ _ _ _ _ (end_offset _ _ Hend) Hne Hreads) as Hne1.
    assert (0 < length enc1) by (destruct enc1; [done|simpl; lia]).
    exists w', (enc1 ++ enc). split_and!.
    + unfold write_records in *. cbn [res_foldM]. rewrite Hadd. done.
    + by rewrite Hc', Hc1, app_assoc.
    + rewrite length_app. simpl. lia.
    + intros R [|rounds] fuel fn_decode r records Hc Hsrc Ho Hb Hrd Hf;
        rewrite length_app in Hf; cbn [length] in Hrd; [lia|].
      destruct (Hreads fuel r [] 0 enc) as (src & Hcs & Hsrcs & Hl); [done|done|done|done| |].
      { rewrite Hsrc, length_app. lia. }
      cbn [log_load_loop]. unfold log_read. rewrite Hl. cbn [app res_foldM].
      rewrite decide_False by (destruct rec; [done|simpl; lia]).
      destruct (fn_decode rec records) as [records'| |]; cbn [res_bind]; [|done..].
      apply Hload; cbn [lr_src lr_offset lr_block_size]; (done || lia).
Qed.

Lemma log_records_load rs src {R} (fn_decode : bytes → list R → KernelResult (list R)) records :
  Forall (λ r, r ≠ []) rs →
  ∃ w, write_records (log_writer_new {| sk_content := []; sk_pos := 0 |}) rs = Ok w ∧
    (chunks src → concat src = sk_content (lw_dst w) →
     log_load src fn_decode records
     = Some (res_foldM (λ acc b, fn_decode b acc) records rs)).
Proof.
  intros Hrs. destruct BLOCK_SIZE_ok as [Hbs Hbs32].
  destruct (write_records_load BLOCK_SIZE (log_writer_new {| sk_content := []; sk_pos := 0 |}) rs)
    as (w & enc & Hw & Hc & Hlen & Hload); [done|done|split; (done || apply Nat.le_0_l)|done|].
  exists w. split; [done|]. intros Hch Hsrc. cbn [lw_dst log_writer_new sk_content app] in Hc.
  rewrite Hc in Hsrc. unfold log_load. apply Hload; try done; rewrite Hsrc; lia.
Qed.

(** C23: records of any size written to a fresh log, however they are cut over its
    blocks, are all read back, once each, whole and in order, by the loader, however
    the file is delivered to it; decoding errors of the caller are passed on. *)
Theorem log_load_written rs src {R} (fn_decode : bytes → list R → KernelResult (list R)) records :
  Forall (λ r, r ≠ []) rs →
  ∃ w, write_records (log_writer_new {| sk_content := []; sk_pos := 0 |}) rs = Ok w ∧
    (chunks src → concat src = sk_content (lw_dst w) →
     log_load src fn_decode records
     = Some (res_foldM (λ acc b, fn_decode b acc) records rs)).
Proof. intros Hrs. by apply log_records_load. Qed.

Lemma in_block_start r : lr_offset r = 0 → lr_block_size r = BLOCK_SIZE → in_block r.
Proof. intros H1 H2. unfold in_block. rewrite H1, H2. pose proof BLOCK_SIZE_ok. lia. Qed.

(** A fragment whose data no longer has the recorded checksum is reported as a
    mismatch; the loader then keeps the records before it and stops. *)
Theorem log_read_corrupt crc t data fuel :
  (0 ≤ crc < 2 ^ 32)%Z → fits_u32 (length data) → crc32_hash data ≠ crc →
  length (log_header crc (length data) t ++ data) < fuel →
  log_read fuel (log_reader_new [log_header crc (length data) t ++ data]) = Some (Err CrcMisMatch).
Proof.
  intros Hcrc Hfit Hne Hfuel. set (h := log_header crc (length data) t) in *.
  assert (h ≠ []) as Hh.
  { intros E. pose proof (log_header_length crc (length data) t) as H. fold h in H.
    by rewrite E in H. }
  destruct (read_header fuel (log_reader_new [h ++ data]) [] h h data [] 0)
    as (fuel' & src & Hc & Hsrc & _ & Hl).
  - apply Forall_singleton. intros [E _]%app_nil. done.
  - by apply in_block_start.
  - apply log_header_length.
  - done.
  - done.
  - simpl. by rewrite app_nil_r.
  - simpl. by rewrite app_nil_r.
  - unfold log_read. rewrite Hl.
    destruct (read_fragment_spec crc t data [] {| lr_src := src;
      lr_offset := lr_offset (log_reader_new [h ++ data]);
      lr_block_size := lr_block_size (log_reader_new [h ++ data]) |}) as (src' & _ & _ & Hr);
      [done|done|done|by rewrite app_nil_r|].
    fold h in Hr. by rewrite Hr, decide_False.
Qed.

(** C38: a log that ends inside a fragment header makes the reader loop for ever: no
    number of rounds is enough. *)
Theorem log_read_torn_header h fuel :
  0 < length h → length h < HEADER_SIZE →
  log_read fuel (log_reader_new [h]) = None.
Proof.
  intros Hpos Hlt.
  assert (∀ fuel n dst, log_read_loop fuel
    {| lr_src := []; lr_offset := 0; lr_block_size := BLOCK_SIZE |} h dst n = None) as Hloop.
  { intros f. induction f as [|f IH]; intros n dst; [done|]. cbn [log_read_loop].
    rewrite skip_block_in by (by apply in_block_start). cbn [lr_src src_read lr_offset lr_block_size].
    rewrite app_nil_r, decide_False, decide_True by lia. apply IH. }
  unfold log_read, log_reader_new. destruct fuel as [|fuel]; [done|]. cbn [log_read_loop].
  rewrite skip_block_in by (by apply in_block_start). cbn [lr_src src_read lr_offset lr_block_size].
  rewrite take_ge, drop_ge by (simpl length; lia). cbn [app].
  rewrite decide_False, decide_True by lia. apply Hloop.
Qed.

(** A record cut off after one of its inner fragments is returned as if it were
    complete. *)
Theorem log_read_truncated_record data fuel :
  data ≠ [] → fits_u32 (length data) → HEADER_SIZE + length data ≤ BLOCK_SIZE →
  HEADER_SIZE + length data < fuel →
  ∃ r, log_read fuel (log_reader_new [log_header (crc32_hash data) (length data) RFirst ++ data])
       = Some (Ok (length data, data, r)).
Proof.
  intros Hne Hfit Hblk Hfuel. destruct BLOCK_SIZE_ok as [Hbs Hbs32].
  set (h := log_header (crc32_hash data) (length data) RFirst).
  assert (length h = HEADER_SIZE) as Hlh by apply log_header_length.
  assert (h ≠ []) as Hh by (intros E; by rewrite E in Hlh).
  destruct (read_header fuel (log_reader_new [h ++ data]) [] h h data [] 0)
    as (fuel' & src & Hc & Hsrc & Hf & Hl); [..|].
  - apply Forall_singleton. intros [E _]%app_nil. done.
  - by apply in_block_start.
  - done.
  - done.
  - done.
  - simpl. by rewrite app_nil_r.
  - cbn [log_reader_new lr_src concat]. rewrite app_nil_r, length_app, Hlh. done.
  - unfold log_read. rewrite Hl.
    destruct (read_fragment_spec (crc32_hash data) RFirst data [] {| lr_src := src;
      lr_offset := lr_offset (log_reader_new [h ++ data]);
      lr_block_size := lr_block_size (log_reader_new [h ++ data]) |}) as (src' & Hc' & Hs' & Hr);
      [apply crc32_range|done|done|by rewrite app_nil_r|].
    fold h in Hr. rewrite Hr, decide_True by done. rewrite (chunks_concat_nil src') by done.
    destruct fuel' as [|fuel']; [lia|]. cbn [app Nat.add].
    apply log_read_eof. exact Hblk.
Qed.
End whole_log.

(** ** Witnesses *)

Import Reference.

Lemma log_load_written_witness :
  ∃ w, write_records (log_writer_new {| sk_content := []; sk_pos := 0 |}) [[x01; x02]; [x03]] = Ok w ∧
    log_load (one_chunk (sk_content (lw_dst w))) (λ b acc, Ok (acc ++ [b])) []
    = Some (Ok [[x01; x02]; [x03]]).
Proof.
  destruct (log_load_written [[x01; x02]; [x03]] [] (λ b acc, Ok (acc ++ [b])) [])
    as (w & Hw & _); [by repeat constructor|].
  exists w. split; [exact Hw|].
  destruct (log_load_written [[x01; x02]; [x03]] (one_chunk (sk_content (lw_dst w)))
    (λ b acc, Ok (acc ++ [b])) []) as (w' & Hw' & Hload); [by repeat constructor|].
  rewrite Hw in Hw'. injection Hw' as <-.
  rewrite Hload; [reflexivity|apply one_chunk_ok|apply one_chunk_ok].
Defined.

Lemma log_read_corrupt_witness :
  log_read 30 (log_reader_new [log_header 0 3 RFull ++ [x01; x02; x03]]) = Some (Err CrcMisMatch).
Proof. apply (log_read_corrupt 0 RFull [x01; x02; x03] 30); [lia|done|done|simpl; lia]. Defined.

Lemma log_read_torn_header_witness : log_read 1000 (log_reader_new [[x01; x02; x03]]) = None.
Proof. apply log_read_torn_header; [simpl; lia|unfold HEADER_SIZE; simpl; lia]. Defined.

Lemma log_read_truncated_record_witness :
  ∃ r, log_read 30 (log_reader_new
    [log_header (crc32_hash [x01; x02]) 2 RFirst ++ [x01; x02]]) = Some (Ok (2, [x01; x02], r)).
Proof.
  apply (log_read_truncated_record [x01; x02] 30); [done|done| |simpl; lia].
  apply Nat.leb_le. vm_compute. done.
Defined.
