(* ===== verification/Config.v ===== *)
(** * Configuration and identifiers (src/kernel/lsm/storage.rs, trigger.rs, table/mod.rs)

    The parameters of the engine with their defaults, and the two global counters:
    sequence numbers, which restart at 1 with the process, and generations, which
    restart at the clock. *)

From S2P Require Import Prelude Std Io Block.
From Stdlib Require Import ZArith Lia QArith.
From stdpp Require Import base list gmap strings.

Set Default Goal Selector "!".
#[local] Open Scope nat_scope.

Definition MAX_LEVEL : nat := 4.

Inductive TableType : Type :=
  | SortedString
  | BTree.

Inductive TriggerType : Type :=
  | TriggerCount
  | TriggerSizeOfMem.

(** ** Identifiers *)

Record Counters := mkCounters {
  seq_count : Z;
  gen_buf : Z;
}.

Definition seq_create (c : Counters) : Z * Counters :=
  (seq_count c, {| seq_count := seq_count c + 1; gen_buf := gen_buf c |}).

(** [now] is the clock, in milliseconds. *)
Definition gen_init (now : Z) (c : Counters) : Counters :=
  {| seq_count := seq_count c; gen_buf := now |}.

Definition gen_create (c : Counters) : Z * Counters :=
  (gen_buf c, {| seq_count := seq_count c; gen_buf := gen_buf c + 1 |}).

(** ** Configuration *)

Definition DEFAULT_MINOR_THRESHOLD_WITH_SIZE_WITH_MEM : N := 2 * 1024 * 1024.
Definition DEFAULT_SST_FILE_SIZE : N := 2 * 1024 * 1024.
Definition DEFAULT_MAJOR_THRESHOLD_WITH_SST_SIZE : nat := 4.
Definition DEFAULT_LEVEL_SST_MAGNIFICATION : nat := 10.
Definition DEFAULT_DESIRED_ERROR_PROB : Q := 5 # 100.
Definition DEFAULT_BLOCK_CACHE_SIZE : nat := 3200.
Definition DEFAULT_TABLE_CACHE_SIZE : nat := 1024.
Definition DEFAULT_WAL_THRESHOLD : nat := 20.
Definition DEFAULT_WAL_IO_TYPE : IoType := IoBuf.
Definition DEFAULT_VERSION_LOG_THRESHOLD : nat := 233.

(** The desired error probability is the rational its literal denotes; sizes in bytes
    are binary naturals. *)
Record Config := mkConfig {
  cfg_dir_path : string;
  cfg_level_table_type : list TableType;
  cfg_wal_threshold : nat;
  cfg_sst_file_size : N;
  cfg_minor_trigger_with_threshold : TriggerType * N;
  cfg_major_threshold_with_sst_size : nat;
  cfg_level_sst_magnification : nat;
  cfg_desired_error_prob : Q;
  cfg_block_cache_size : nat;
  cfg_table_cache_size : nat;
  cfg_wal_io_type : IoType;
  cfg_block_size : nat;
  cfg_data_restart_interval : nat;
  cfg_index_restart_interval : nat;
  cfg_ver_log_snapshot_threshold : nat;
}.

Definition config_new (path : string) : Config := {|
  cfg_dir_path := path;
  cfg_level_table_type := replicate MAX_LEVEL SortedString;
  cfg_wal_threshold := DEFAULT_WAL_THRESHOLD;
  cfg_sst_file_size := DEFAULT_SST_FILE_SIZE;
  cfg_minor_trigger_with_threshold :=
    (TriggerSizeOfMem, DEFAULT_MINOR_THRESHOLD_WITH_SIZE_WITH_MEM);
  cfg_major_threshold_with_sst_size := DEFAULT_MAJOR_THRESHOLD_WITH_SST_SIZE;
  cfg_level_sst_magnification := DEFAULT_LEVEL_SST_MAGNIFICATION;
  cfg_desired_error_prob := DEFAULT_DESIRED_ERROR_PROB;
  cfg_block_cache_size := DEFAULT_BLOCK_CACHE_SIZE;
  cfg_table_cache_size := DEFAULT_TABLE_CACHE_SIZE;
  cfg_wal_io_type := DEFAULT_WAL_IO_TYPE;
  cfg_block_size := DEFAULT_BLOCK_SIZE;
  cfg_data_restart_interval := DEFAULT_DATA_RESTART_INTERVAL;
  cfg_index_restart_interval := DEFAULT_INDEX_RESTART_INTERVAL;
  cfg_ver_log_snapshot_threshold := DEFAULT_VERSION_LOG_THRESHOLD;
|}.

(** [BlockOptions::from(config)] *)
Definition block_options_from (c : Config) : BlockOptions := {|
  opt_block_size := cfg_block_size c;
  opt_compress_type := CompressNone;
  opt_data_restart_interval := cfg_data_restart_interval c;
  opt_index_restart_interval := cfg_index_restart_interval c;
|}.

(** ** The builder methods

    Each replaces one field; indexing a level that does not exist panics. *)

Definition config_dir_path (c : Config) (x : string) : Config :=
  {| cfg_dir_path := x;
     cfg_level_table_type := cfg_level_table_type c;
     cfg_wal_threshold := cfg_wal_threshold c;
     cfg_sst_file_size := cfg_sst_file_size c;
     cfg_minor_trigger_with_threshold := cfg_minor_trigger_with_threshold c;
     cfg_major_threshold_with_sst_size := cfg_major_threshold_with_sst_size c;
     cfg_level_sst_magnification := cfg_level_sst_magnification c;
     cfg_desired_error_prob := cfg_desired_error_prob c;
     cfg_block_cache_size := cfg_block_cache_size c;
     cfg_table_cache_size := cfg_table_cache_size c;
     cfg_wal_io_type := cfg_wal_io_type c;
     cfg_block_size := cfg_block_size c;
     cfg_data_restart_interval := cfg_data_restart_interval c;
     cfg_index_restart_interval := cfg_index_restart_interval c;
     cfg_ver_log_snapshot_threshold := cfg_ver_log_snapshot_threshold c |}.

Definition set_level_table_types (c : Config) (x : list TableType) : Config :=
  {| cfg_dir_path := cfg_dir_path c;
     cfg_level_table_type := x;
     cfg_wal_threshold := cfg_wal_threshold c;
     cfg_sst_file_size := cfg_sst_file_size c;
     cfg_minor_trigger_with_threshold := cfg_minor_trigger_with_threshold c;
     cfg_major_threshold_with_sst_size := cfg_major_threshold_with_sst_size c;
     cfg_level_sst_magnification := cfg_level_sst_magnification c;
     cfg_desired_error_prob := cfg_desired_error_prob c;
     cfg_block_cache_size := cfg_block_cache_size c;
     cfg_table_cache_size := cfg_table_cache_size c;
     cfg_wal_io_type := cfg_wal_io_type c;
     cfg_block_size := cfg_block_size c;
     cfg_data_restart_interval := cfg_data_restart_interval c;
     cfg_index_restart_interval := cfg_index_restart_interval c;
     cfg_ver_log_snapshot_threshold := cfg_ver_log_snapshot_threshold c |}.

Definition config_wal_threshold (c : Config) (x : nat) : Config :=
  {| cfg_dir_path := cfg_dir_path c;
     cfg_level_table_type := cfg_level_table_type c;
     cfg_wal_threshold := x;
     cfg_sst_file_size := cfg_sst_file_size c;
     cfg_minor_trigger_with_threshold := cfg_minor_trigger_with_threshold c;
     cfg_major_threshold_with_sst_size := cfg_major_threshold_with_sst_size c;
     cfg_level_sst_magnification := cfg_level_sst_magnification c;
     cfg_desired_error_prob := cfg_desired_error_prob c;
     cfg_block_cache_size := cfg_block_cache_size c;
     cfg_table_cache_size := cfg_table_cache_size c;
     cfg_wal_io_type := cfg_wal_io_type c;
     cfg_block_size := cfg_block_size c;
     cfg_data_restart_interval := cfg_data_restart_interval c;
     cfg_index_restart_interval := cfg_index_restart_interval c;
     cfg_ver_log_snapshot_threshold := cfg_ver_log_snapshot_threshold c |}.

Definition config_sst_file_size (c : Config) (x : N) : Config :=
  {| cfg_dir_path := cfg_dir_path c;
     cfg_level_table_type := cfg_level_table_type c;
     cfg_wal_threshold := cfg_wal_threshold c;
     cfg_sst_file_size := x;
     cfg_minor_trigger_with_threshold := cfg_minor_trigger_with_threshold c;
     cfg_major_threshold_with_sst_size := cfg_major_threshold_with_sst_size c;
     cfg_level_sst_magnification := cfg_level_sst_magnification c;
     cfg_desired_error_prob := cfg_desired_error_prob c;
     cfg_block_cache_size := cfg_block_cache_size c;
     cfg_table_cache_size := cfg_table_cache_size c;
     cfg_wal_io_type := cfg_wal_io_type c;
     cfg_block_size := cfg_block_size c;
     cfg_data_restart_interval := cfg_data_restart_interval c;
     cfg_index_restart_interval := cfg_index_restart_interval c;
     cfg_ver_log_snapshot_threshold := cfg_ver_log_snapshot_threshold c |}.

Definition config_minor_trigger_with_threshold (c : Config) (trigger_type : TriggerType)
    (threshold : N) : Config :=
  {| cfg_dir_path := cfg_dir_path c;
     cfg_level_table_type := cfg_level_table_type c;
     cfg_wal_threshold := cfg_wal_threshold c;
     cfg_sst_file_size := cfg_sst_file_size c;
     cfg_minor_trigger_with_threshold := (trigger_type, threshold);
     cfg_major_threshold_with_sst_size := cfg_major_threshold_with_sst_size c;
     cfg_level_sst_magnification := cfg_level_sst_magnification c;
     cfg_desired_error_prob := cfg_desired_error_prob c;
     cfg_block_cache_size := cfg_block_cache_size c;
     cfg_table_cache_size := cfg_table_cache_size c;
     cfg_wal_io_type := cfg_wal_io_type c;
     cfg_block_size := cfg_block_size c;
     cfg_data_restart_interval := cfg_data_restart_interval c;
     cfg_index_restart_interval := cfg_index_restart_interval c;
     cfg_ver_log_snapshot_threshold := cfg_ver_log_snapshot_threshold c |}.

Definition config_major_threshold_with_sst_size (c : Config) (x : nat) : Config :=
  {| cfg_dir_path := cfg_dir_path c;
     cfg_level_table_type := cfg_level_table_type c;
     cfg_wal_threshold := cfg_wal_threshold c;
     cfg_sst_file_size := cfg_sst_file_size c;
     cfg_minor_trigger_with_threshold := cfg_minor_trigger_with_threshold c;
     cfg_major_threshold_with_sst_size := x;
     cfg_level_sst_magnification := cfg_level_sst_magnification c;
     cfg_desired_error_prob := cfg_desired_error_prob c;
     cfg_block_cache_size := cfg_block_cache_size c;
     cfg_table_cache_size := cfg_table_cache_size c;
     cfg_wal_io_type := cfg_wal_io_type c;
     cfg_block_size := cfg_block_size c;
     cfg_data_restart_interval := cfg_data_restart_interval c;
     cfg_index_restart_interval := cfg_index_restart_interval c;
     cfg_ver_log_snapshot_threshold := cfg_ver_log_snapshot_threshold c |}.

Definition config_level_sst_magnification (c : Config) (x : nat) : Config :=
  {| cfg_dir_path := cfg_dir_path c;
     cfg_level_table_type := cfg_level_table_type c;
     cfg_wal_threshold := cfg_wal_threshold c;
     cfg_sst_file_size := cfg_sst_file_size c;
     cfg_minor_trigger_with_threshold := cfg_minor_trigger_with_threshold c;
     cfg_major_threshold_with_sst_size := cfg_major_threshold_with_sst_size c;
     cfg_level_sst_magnification := x;
     cfg_desired_error_prob := cfg_desired_error_prob c;
     cfg_block_cache_size := cfg_block_cache_size c;
     cfg_table_cache_size := cfg_table_cache_size c;
     cfg_wal_io_type := cfg_wal_io_type c;
     cfg_block_size := cfg_block_size c;
     cfg_data_restart_interval := cfg_data_restart_interval c;
     cfg_index_restart_interval := cfg_index_restart_interval c;
     cfg_ver_log_snapshot_threshold := cfg_ver_log_snapshot_threshold c |}.

Definition config_desired_error_prob (c : Config) (x : Q) : Config :=
  {| cfg_dir_path := cfg_dir_path c;
     cfg_level_table_type := cfg_level_table_type c;
     cfg_wal_threshold := cfg_wal_threshold c;
     cfg_sst_file_size := cfg_sst_file_size c;
     cfg_minor_trigger_with_threshold := cfg_minor_trigger_with_threshold c;
     cfg_major_threshold_with_sst_size := cfg_major_threshold_with_sst_size c;
     cfg_level_sst_magnification := cfg_level_sst_magnification c;
     cfg_desired_error_prob := x;
     cfg_block_cache_size := cfg_block_cache_size c;
     cfg_table_cache_size := cfg_table_cache_size c;
     cfg_wal_io_type := cfg_wal_io_type c;
     cfg_block_size := cfg_block_size c;
     cfg_data_restart_interval := cfg_data_restart_interval c;
     cfg_index_restart_interval := cfg_index_restart_interval c;
     cfg_ver_log_snapshot_threshold := cfg_ver_log_snapshot_threshold c |}.

Definition config_block_cache_size (c : Config) (x : nat) : Config :=
  {| cfg_dir_path := cfg_dir_path c;
     cfg_level_table_type := cfg_level_table_type c;
     cfg_wal_threshold := cfg_wal_threshold c;
     cfg_sst_file_size := cfg_sst_file_size c;
     cfg_minor_trigger_with_threshold := cfg_minor_trigger_with_threshold c;
     cfg_major_threshold_with_sst_size := cfg_major_threshold_with_sst_size c;
     cfg_level_sst_magnification := cfg_level_sst_magnification c;
     cfg_desired_error_prob := cfg_desired_error_prob c;
     cfg_block_cache_size := x;
     cfg_table_cache_size := cfg_table_cache_size c;
     cfg_wal_io_type := cfg_wal_io_type c;
     cfg_block_size := cfg_block_size c;
     cfg_data_restart_interval := cfg_data_restart_interval c;
     cfg_index_restart_interval := cfg_index_restart_interval c;
     cfg_ver_log_snapshot_threshold := cfg_ver_log_snapshot_threshold c |}.

Definition config_table_cache_size (c : Config) (x : nat) : Config :=
  {| cfg_dir_path := cfg_dir_path c;
     cfg_level_table_type := cfg_level_table_type c;
     cfg_wal_threshold := cfg_wal_threshold c;
     cfg_sst_file_size := cfg_sst_file_size c;
     cfg_minor_trigger_with_threshold := cfg_minor_trigger_with_threshold c;
     cfg_major_threshold_with_sst_size := cfg_major_threshold_with_sst_size c;
     cfg_level_sst_magnification := cfg_level_sst_magnification c;
     cfg_desired_error_prob := cfg_desired_error_prob c;
     cfg_block_cache_size := cfg_block_cache_size c;
     cfg_table_cache_size := x;
     cfg_wal_io_type := cfg_wal_io_type c;
     cfg_block_size := cfg_block_size c;
     cfg_data_restart_interval := cfg_data_restart_interval c;
     cfg_index_restart_interval := cfg_index_restart_interval c;
     cfg_ver_log_snapshot_threshold := cfg_ver_log_snapshot_threshold c |}.

Definition config_wal_io_type (c : Config) (x : IoType) : Config :=
  {| cfg_dir_path := cfg_dir_path c;
     cfg_level_table_type := cfg_level_table_type c;
     cfg_wal_threshold := cfg_wal_threshold c;
     cfg_sst_file_size := cfg_sst_file_size c;
     cfg_minor_trigger_with_threshold := cfg_minor_trigger_with_threshold c;
     cfg_major_threshold_with_sst_size := cfg_major_threshold_with_sst_size c;
     cfg_level_sst_magnification := cfg_level_sst_magnification c;
     cfg_desired_error_prob := cfg_desired_error_prob c;
     cfg_block_cache_size := cfg_block_cache_size c;
     cfg_table_cache_size := cfg_table_cache_size c;
     cfg_wal_io_type := x;
     cfg_block_size := cfg_block_size c;
     cfg_data_restart_interval := cfg_data_restart_interval c;
     cfg_index_restart_interval := cfg_index_restart_interval c;
     cfg_ver_log_snapshot_threshold := cfg_ver_log_snapshot_threshold c |}.

Definition config_block_size (c : Config) (x : nat) : Config :=
  {| cfg_dir_path := cfg_dir_path c;
     cfg_level_table_type := cfg_level_table_type c;
     cfg_wal_threshold := cfg_wal_threshold c;
     cfg_sst_file_size := cfg_sst_file_size c;
     cfg_minor_trigger_with_threshold := cfg_minor_trigger_with_threshold c;
     cfg_major_threshold_with_sst_size := cfg_major_threshold_with_sst_size c;
     cfg_level_sst_magnification := cfg_level_sst_magnification c;
     cfg_desired_error_prob := cfg_desired_error_prob c;
     cfg_block_cache_size := cfg_block_cache_size c;
     cfg_table_cache_size := cfg_table_cache_size c;
     cfg_wal_io_type := cfg_wal_io_type c;
     cfg_block_size := x;
     cfg_data_restart_interval := cfg_data_restart_interval c;
     cfg_index_restart_interval := cfg_index_restart_interval c;
     cfg_ver_log_snapshot_threshold := cfg_ver_log_snapshot_threshold c |}.

Definition config_data_restart_interval (c : Config) (x : nat) : Config :=
  {| cfg_dir_path := cfg_dir_path c;
     cfg_level_table_type := cfg_level_table_type c;
     cfg_wal_threshold := cfg_wal_threshold c;
     cfg_sst_file_size := cfg_sst_file_size c;
     cfg_minor_trigger_with_threshold := cfg_minor_trigger_with_threshold c;
     cfg_major_threshold_with_sst_size := cfg_major_threshold_with_sst_size c;
     cfg_level_sst_magnification := cfg_level_sst_magnification c;
     cfg_desired_error_prob := cfg_desired_error_prob c;
     cfg_block_cache_size := cfg_block_cache_size c;
     cfg_table_cache_size := cfg_table_cache_size c;
     cfg_wal_io_type := cfg_wal_io_type c;
     cfg_block_size := cfg_block_size c;
     cfg_data_restart_interval := x;
     cfg_index_restart_interval := cfg_index_restart_interval c;
     cfg_ver_log_snapshot_threshold := cfg_ver_log_snapshot_threshold c |}.

Definition config_index_restart_interval (c : Config) (x : nat) : Config :=
  {| cfg_dir_path := cfg_dir_path c;
     cfg_level_table_type := cfg_level_table_type c;
     cfg_wal_threshold := cfg_wal_threshold c;
     cfg_sst_file_size := cfg_sst_file_size c;
     cfg_minor_trigger_with_threshold := cfg_minor_trigger_with_threshold c;
     cfg_major_threshold_with_sst_size := cfg_major_threshold_with_sst_size c;
     cfg_level_sst_magnification := cfg_level_sst_magnification c;
     cfg_desired_error_prob := cfg_desired_error_prob c;
     cfg_block_cache_size := cfg_block_cache_size c;
     cfg_table_cache_size := cfg_table_cache_size c;
     cfg_wal_io_type := cfg_wal_io_type c;
     cfg_block_size := cfg_block_size c;
     cfg_data_restart_interval := cfg_data_restart_interval c;
     cfg_index_restart_interval := x;
     cfg_ver_log_snapshot_threshold := cfg_ver_log_snapshot_threshold c |}.

Definition config_ver_log_snapshot_threshold (c : Config) (x : nat) : Config :=
  {| cfg_dir_path := cfg_dir_path c;
     cfg_level_table_type := cfg_level_table_type c;
     cfg_wal_threshold := cfg_wal_threshold c;
     cfg_sst_file_size := cfg_sst_file_size c;
     cfg_minor_trigger_with_threshold := cfg_minor_trigger_with_threshold c;
     cfg_major_threshold_with_sst_size := cfg_major_threshold_with_sst_size c;
     cfg_level_sst_magnification := cfg_level_sst_magnification c;
     cfg_desired_error_prob := cfg_desired_error_prob c;
     cfg_block_cache_size := cfg_block_cache_size c;
     cfg_table_cache_size := cfg_table_cache_size c;
     cfg_wal_io_type := cfg_wal_io_type c;
     cfg_block_size := cfg_block_size c;
     cfg_data_restart_interval := cfg_data_restart_interval c;
     cfg_index_restart_interval := cfg_index_restart_interval c;
     cfg_ver_log_snapshot_threshold := x |}.

(** [self.level_table_type[level] = table_type] *)
Definition config_level_table_type (c : Config) (level : nat) (table_type : TableType)
    : KernelResult Config :=
  if decide (level < length (cfg_level_table_type c)) then
    Ok (set_level_table_types c (<[level := table_type]> (cfg_level_table_type c)))
  else Panic.

Definition enable_level_0_memorization (c : Config) : KernelResult Config :=
  config_level_table_type c 0 BTree.
