(* ===== verification/Bloom.v ===== *)
(** * The bloom filter (src/kernel/utils/bloom_filter.rs)

    A bit vector of signed bytes, two seeded hashers and the indices they give; the
    filter's encoding.  A filter never denies an element it was given. *)

From S2P Require Import Prelude Std Crates.
From Stdlib Require Import ZArith QArith Lia Strings.Byte.
From stdpp Require Import base list sets.

Set Default Goal Selector "!".
Open Scope nat_scope.

(** ** The bit vector *)

(** [z as i8] *)
Definition i8_wrap (z : Z) : Z := ((z + 128) `mod` 256 - 128)%Z.

Record BitVector := mkBitVector {
  bv_len : Z;
  bit_groups : list Z;
}.

Definition bit_vector_new (len : nat) : BitVector :=
  {| bv_len := Z.of_nat len; bit_groups := replicate ((len + 7) / 8) 0%Z |}.

Definition set_bit (v : BitVector) (index : nat) (value : bool) : KernelResult BitVector :=
  let byte_index := index / 8 in
  let mask := i8_wrap (Z.shiftl 1 (Z.of_nat (index `mod` 8))) in
  let? g := or_panic (bit_groups v !! byte_index) in
  let g' := if value then Z.lor g mask else Z.land g (Z.lnot mask) in
  Ok {| bv_len := bv_len v; bit_groups := <[byte_index := g']> (bit_groups v) |}.

Definition get_bit (v : BitVector) (index : nat) : KernelResult bool :=
  let? g := or_panic (bit_groups v !! (index / 8)) in
  Ok (negb (Z.land (Z.shiftr g (Z.of_nat (index `mod` 8))) 1 =? 0)%Z).

Definition bit_vector_len (v : BitVector) : nat := Z.to_nat (bv_len v).
Definition bit_vector_is_empty (v : BitVector) : bool := (bv_len v =? 0)%Z.

(** ** The seeded hasher *)

Record FixedHasher := mkFixedHasher { seed : Z }.

Definition fixed_hasher_new (seed : Z) : FixedHasher := {| seed := seed |}.
Definition hasher_finish (h : FixedHasher) : Z := seed h.

Section bloom.
Context `{IE : IntegerEncoding} {DH : DefaultHasher} {FL : F64}.

Definition bit_vector_to_raw (v : BitVector) (bs : bytes) : bytes :=
  bs ++ encode_fixed 8 (bv_len v) ++ (encode_i8 <$> bit_groups v).

(** [bytes[0..8]], [bytes[8..]] panic on a shorter slice. *)
Definition bit_vector_from_raw (bs : bytes) : KernelResult BitVector :=
  if decide (length bs < 8) then Panic
  else Ok {| bv_len := decode_fixed (take 8 bs); bit_groups := decode_i8 <$> drop 8 bs |}.

Definition hasher_write (h : FixedHasher) (bs : bytes) : FixedHasher :=
  {| seed := default_hash (seed h) bs |}.

Definition hasher_to_raw (h : FixedHasher) (bs : bytes) : bytes := bs ++ encode_fixed 8 (seed h).
Definition hasher_from_raw (bs : bytes) : FixedHasher := {| seed := decode_fixed bs |}.

(** [<[u8] as Hash>::hash]: the length, then the bytes. *)
Definition hash_slice (elem : bytes) (h : FixedHasher) : FixedHasher :=
  hasher_write (hasher_write h (encode_fixed 8 (Z.of_nat (length elem)))) elem.

(** ** The filter *)

Record BloomFilter := mkBloomFilter {
  bits : BitVector;
  hash_fn_count : Z;
  hashers : FixedHasher * FixedHasher;
}.

Definition optimal_bits_count (len : nat) (err_rate : f64) : nat :=
  let ln_2_2 := f64_powf f64_LN_2 (f64_literal 2) in
  Z.to_nat (f64_as_u64 (f64_ceil (f64_div (f64_mul (f64_mul (f64_literal (-1)) (f64_from_usize len))
                                             (f64_ln err_rate)) ln_2_2))).

Definition optimal_hashers_count (err_rate : f64) : Z :=
  f64_as_u64 (f64_ceil (f64_mul (f64_literal (-1)) (f64_log2 err_rate))).

(** The two random seeds are arguments. *)
Definition bloom_new (len : nat) (err_rate : f64) (seeds : Z * Z) : BloomFilter :=
  {| bits := bit_vector_new (optimal_bits_count len err_rate);
     hash_fn_count := optimal_hashers_count err_rate;
     hashers := (fixed_hasher_new seeds.1, fixed_hasher_new seeds.2) |}.

Definition make_hash (f : BloomFilter) (elem : bytes) : Z * Z :=
  (hasher_finish (hash_slice elem (hashers f).1), hasher_finish (hash_slice elem (hashers f).2)).

Definition get_index (f : BloomFilter) (hashes : Z * Z) (fn_i : Z) : KernelResult nat :=
  let h := ((hashes.1 + (fn_i * hashes.2) `mod` 2 ^ 64) `mod` 2 ^ 64)%Z in
  if decide (bit_vector_len (bits f) = 0) then Panic
  else Ok (Z.to_nat (h `mod` Z.of_nat (bit_vector_len (bits f)))).

(** [0..self.hash_fn_count] *)
Definition fn_range (f : BloomFilter) : list Z := Z.of_nat <$> seq 0 (Z.to_nat (hash_fn_count f)).

Definition bloom_insert (f : BloomFilter) (elem : bytes) : KernelResult BloomFilter :=
  let hashes := make_hash f elem in
  res_foldM (λ f fn_i,
    let? index := get_index f hashes fn_i in
    let? b := set_bit (bits f) index true in
    Ok {| bits := b; hash_fn_count := hash_fn_count f; hashers := hashers f |})
    f (fn_range f).

(** [all] stops at the first index whose bit is not set. *)
Fixpoint contains_loop (f : BloomFilter) (hashes : Z * Z) (fns : list Z) : KernelResult bool :=
  match fns with
  | [] => Ok true
  | fn_i :: fns' =>
      let? index := get_index f hashes fn_i in
      let? b := get_bit (bits f) index in
      if (b : bool) then contains_loop f hashes fns' else Ok false
  end.

Definition bloom_contains (f : BloomFilter) (elem : bytes) : KernelResult bool :=
  contains_loop f (make_hash f elem) (fn_range f).

Definition bloom_to_raw (f : BloomFilter) (bs : bytes) : bytes :=
  bit_vector_to_raw (bits f)
    (hasher_to_raw (hashers f).2 (hasher_to_raw (hashers f).1
       (bs ++ encode_fixed 8 (hash_fn_count f)))).

Definition bloom_from_raw (bs : bytes) : KernelResult BloomFilter :=
  if decide (length bs < 24) then Panic
  else
    let? b := bit_vector_from_raw (drop 24 bs) in
    Ok {| bits := b; hash_fn_count := decode_fixed (take 8 bs);
          hashers := (hasher_from_raw (take 8 (drop 8 bs)), hasher_from_raw (take 8 (drop 16 bs))) |}.
End bloom.

(** ** Bits *)

Definition i8 (g : Z) : Prop := (-128 ≤ g < 128)%Z.

(** A vector of [len] bits has the bytes for them. *)
Record bv_wf (v : BitVector) : Prop := {
  bw_len : (0 ≤ bv_len v < 2 ^ 64)%Z;
  bw_groups : length (bit_groups v) = (Z.to_nat (bv_len v) + 7) / 8;
  bw_i8 : Forall i8 (bit_groups v);
}.

Lemma bv_new_wf len : (Z.of_nat len < 2 ^ 64)%Z → bv_wf (bit_vector_new len).
Proof.
  intros Hl. split; cbn; [lia|by rewrite length_replicate, Nat2Z.id|].
  apply Forall_replicate. unfold i8. lia.
Qed.

Lemma get_bit_testbit v index g :
  bit_groups v !! (index / 8) = Some g →
  get_bit v index = Ok (Z.testbit g (Z.of_nat (index `mod` 8))).
Proof.
  intros Hg. unfold get_bit. rewrite Hg. cbn [or_panic res_bind]. f_equal.
  change 1%Z with (Z.ones 1). rewrite Z.land_ones, Z.shiftr_div_pow2 by lia.
  change (2 ^ 1)%Z with 2%Z. rewrite Z.testbit_eqb by lia.
  pose proof (Z.mod_pos_bound (g / 2 ^ Z.of_nat (index `mod` 8)) 2 ltac:(lia)).
  destruct (Z.eqb_spec ((g / 2 ^ Z.of_nat (index `mod` 8)) `mod` 2) 0);
    destruct (Z.eqb_spec ((g / 2 ^ Z.of_nat (index `mod` 8)) `mod` 2) 1); cbn; lia || done.
Qed.

Lemma i8_mask_testbit b i :
  b < 8 → (0 ≤ i < 8)%Z →
  i8 (i8_wrap (Z.shiftl 1 (Z.of_nat b))) ∧
  Z.testbit (i8_wrap (Z.shiftl 1 (Z.of_nat b))) i = (i =? Z.of_nat b)%Z.
Proof.
  intros Hb Hi.
  assert (i = 0 ∨ i = 1 ∨ i = 2 ∨ i = 3 ∨ i = 4 ∨ i = 5 ∨ i = 6 ∨ i = 7)%Z as Hi' by lia.
  split.
  - unfold i8. do 8 (destruct b as [|b]; [vm_compute; split; [discriminate|reflexivity]|]). lia.
  - do 8 (destruct b as [|b]; [destruct_or! Hi'; subst; reflexivity|]). lia.
Qed.

Lemma i8_lor a b : i8 a → i8 b → i8 (Z.lor a b).
Proof.
  intros Ha Hb.
  assert (∀ n, i8 n ↔ (Z.shiftr n 7 = 0 ∨ Z.shiftr n 7 = -1)%Z) as Hi8.
  { intros n. unfold i8. rewrite Z.shiftr_div_pow2 by lia. change (2 ^ 7)%Z with 128%Z.
    pose proof (Z.div_mod n 128 ltac:(lia)). pose proof (Z.mod_pos_bound n 128 ltac:(lia)). lia. }
  rewrite Hi8 in *. rewrite Z.shiftr_lor.
  destruct Ha as [-> | ->], Hb as [-> | ->]; cbn; auto.
Qed.

Lemma bv_group v index :
  bv_wf v → index < bit_vector_len v → ∃ g, bit_groups v !! (index / 8) = Some g ∧ i8 g.
Proof.
  intros Hwf Hi. destruct (lookup_lt_is_Some_2 (bit_groups v) (index / 8)) as [g Hg].
  { rewrite (bw_groups _ Hwf). unfold bit_vector_len in Hi.
    apply Nat.Div0.div_lt_upper_bound. pose proof (Nat.div_mod (Z.to_nat (bv_len v) + 7) 8 ltac:(lia)).
    pose proof (Nat.mod_upper_bound (Z.to_nat (bv_len v) + 7) 8 ltac:(lia)). lia. }
  exists g. split; [done|]. eapply Forall_lookup_1, Hg. apply Hwf.
Qed.

Lemma get_bit_total v index :
  bv_wf v → index < bit_vector_len v → ∃ b, get_bit v index = Ok b.
Proof.
  intros Hwf Hi. destruct (bv_group _ _ Hwf Hi) as (g & Hg & _). eexists. by apply get_bit_testbit.
Qed.

Lemma set_bit_spec v index :
  bv_wf v → index < bit_vector_len v →
  ∃ v', set_bit v index true = Ok v' ∧ bv_wf v' ∧ bv_len v' = bv_len v ∧
    ∀ j b, get_bit v j = Ok b → get_bit v' j = Ok (b || bool_decide (j = index)).
Proof.
  intros Hwf Hi. destruct (bv_group _ _ Hwf Hi) as (g & Hg & Hg8).
  pose proof (Nat.mod_upper_bound index 8 ltac:(lia)) as Hm.
  unfold set_bit. rewrite Hg. cbn [or_panic res_bind]. eexists. split; [done|].
  split_and!; [|done|].
  - destruct Hwf as [H1 H2 H3]. split; cbn [bv_len bit_groups]; [done|by rewrite length_insert|].
    apply Forall_insert; [done|]. apply i8_lor; [done|].
    apply (i8_mask_testbit _ 0); lia.
  - intros j b Hb. destruct (bit_groups v !! (j / 8)) as [gj|] eqn:Ej;
      [|unfold get_bit in Hb; by rewrite Ej in Hb].
    rewrite (get_bit_testbit v j gj Ej) in Hb.
    assert (b = Z.testbit gj (Z.of_nat (j `mod` 8))) as -> by congruence. clear Hb.
    pose proof (Nat.mod_upper_bound j 8 ltac:(lia)) as Hmj.
    pose proof (Nat.div_mod j 8 ltac:(lia)) as Dj. pose proof (Nat.div_mod index 8 ltac:(lia)) as Di.
    destruct (decide (j / 8 = index / 8)) as [E|E].
    + rewrite E in Ej. rewrite Hg in Ej. injection Ej as <-.
      rewrite (get_bit_testbit _ _ (Z.lor g (i8_wrap (Z.shiftl 1 (Z.of_nat (index `mod` 8)))))).
      * f_equal. rewrite Z.lor_spec. f_equal.
        rewrite (proj2 (i8_mask_testbit (index `mod` 8) (Z.of_nat (j `mod` 8)) Hm ltac:(lia))).
        apply eq_true_iff_eq. rewrite Z.eqb_eq, bool_decide_eq_true. lia.
      * cbn [bit_groups]. rewrite E. apply list_lookup_insert_eq. by eapply lookup_lt_Some.
    + rewrite (get_bit_testbit _ _ gj).
      * f_equal. rewrite bool_decide_eq_false_2; [by rewrite orb_false_r|]. by intros ->.
      * cbn [bit_groups]. by rewrite list_lookup_insert_ne by done.
Qed.

(** ** Filters *)

Section filters.
Context `{IE : IntegerEncoding} {DH : DefaultHasher} {FL : F64}.

Definition bloom_wf (f : BloomFilter) : Prop := bv_wf (bits f) ∧ 0 < bit_vector_len (bits f).

(** [f'] has the bits of [f] and maybe more. *)
Record bloom_le (f f' : BloomFilter) : Prop := {
  bl_len : bv_len (bits f') = bv_len (bits f);
  bl_count : hash_fn_count f' = hash_fn_count f;
  bl_hashers : hashers f' = hashers f;
  bl_bits j : get_bit (bits f) j = Ok true → get_bit (bits f') j = Ok true;
}.

#[local] Instance bloom_le_refl : Reflexive bloom_le.
Proof. by split. Qed.
#[local] Instance bloom_le_trans : Transitive bloom_le.
Proof. intros f g h [] []. split; [congruence..|]. auto. Qed.

Lemma get_index_le f f' hs i : bloom_le f f' → get_index f' hs i = get_index f hs i.
Proof. intros [Hl _ _ _]. unfold get_index, bit_vector_len. by rewrite Hl. Qed.

Lemma get_index_total f hs i :
  bloom_wf f → ∃ index, get_index f hs i = Ok index ∧ index < bit_vector_len (bits f).
Proof.
  intros [_ Hpos]. unfold get_index. rewrite decide_False by lia. eexists. split; [done|].
  pose proof (Z.mod_pos_bound ((hs.1 + (i * hs.2) `mod` 2 ^ 64) `mod` 2 ^ 64)
    (Z.of_nat (bit_vector_len (bits f))) ltac:(lia)). lia.
Qed.

(** Setting the bits of some hash functions. *)
Lemma insert_loop_spec f hs fns :
  bloom_wf f →
  ∃ f', res_foldM (λ f fn_i,
      let? index := get_index f hs fn_i in
      let? b := set_bit (bits f) index true in
      Ok {| bits := b; hash_fn_count := hash_fn_count f; hashers := hashers f |}) f fns = Ok f' ∧
    bloom_wf f' ∧ bloom_le f f' ∧
    ∀ i index, i ∈ fns → get_index f hs i = Ok index → get_bit (bits f') index = Ok true.
Proof.
  revert f. induction fns as [|i fns IH]; intros f Hwf; cbn [res_foldM].
  { exists f. split_and!; [done..|]. set_solver. }
  destruct (get_index_total f hs i Hwf) as (index & Eidx & Hi). rewrite Eidx. cbn [res_bind].
  destruct (set_bit_spec (bits f) index (proj1 Hwf) Hi) as (b & -> & Hb & Hl & Hbits). cbn [res_bind].
  set (f1 := mkBloomFilter b (hash_fn_count f) (hashers f)).
  assert (bloom_wf f1) as Hwf1.
  { split; [done|]. unfold bit_vector_len. cbn. rewrite Hl. apply Hwf. }
  assert (bloom_le f f1) as Hle1.
  { split; [done..|]. intros j Hj. apply (Hbits j true Hj). }
  destruct (IH f1 Hwf1) as (f' & -> & Hwf' & Hle' & Hset).
  exists f'. split_and!; [done..|by etransitivity|].
  intros i' index' [->|Hin]%elem_of_cons Hidx.
  - assert (index' = index) as -> by congruence. apply (bl_bits _ _ Hle').
    destruct (get_bit_total _ _ (proj1 Hwf) Hi) as [b0 Hb0]. cbn.
    rewrite (Hbits _ _ Hb0), bool_decide_eq_true_2 by done. by rewrite orb_true_r.
  - eapply Hset; [done|]. by rewrite (get_index_le _ _ _ _ Hle1).
Qed.

Lemma make_hash_le f f' elem : bloom_le f f' → make_hash f' elem = make_hash f elem.
Proof. intros []. unfold make_hash. congruence. Qed.

Lemma fn_range_le f f' : bloom_le f f' → fn_range f' = fn_range f.
Proof. intros []. unfold fn_range. congruence. Qed.

(** All the bits of an element are set. *)
Definition marked (f : BloomFilter) (elem : bytes) : Prop :=
  ∀ i index, i ∈ fn_range f → get_index f (make_hash f elem) i = Ok index →
             get_bit (bits f) index = Ok true.

Lemma marked_le f f' elem : bloom_le f f' → marked f elem → marked f' elem.
Proof.
  intros Hle Hm i index. rewrite (fn_range_le _ _ Hle), (make_hash_le _ _ _ Hle), (get_index_le _ _ _ _ Hle).
  intros Hi Hidx. apply (bl_bits _ _ Hle). by eapply Hm.
Qed.

Lemma bloom_insert_spec f elem :
  bloom_wf f → ∃ f', bloom_insert f elem = Ok f' ∧ bloom_wf f' ∧ bloom_le f f' ∧ marked f' elem.
Proof.
  intros Hwf. unfold bloom_insert.
  destruct (insert_loop_spec f (make_hash f elem) (fn_range f) Hwf) as (f' & -> & Hwf' & Hle & Hset).
  exists f'. split_and!; [done..|]. intros i index.
  rewrite (fn_range_le _ _ Hle), (make_hash_le _ _ _ Hle), (get_index_le _ _ _ _ Hle). apply Hset.
Qed.

Lemma contains_loop_total f hs fns :
  bloom_wf f → ∃ b, contains_loop f hs fns = Ok b ∧
    ((∀ i index, i ∈ fns → get_index f hs i = Ok index → get_bit (bits f) index = Ok true) → b = true).
Proof.
  intros Hwf. induction fns as [|i fns IH]; cbn [contains_loop]; [by exists true|].
  destruct (get_index_total f hs i Hwf) as (index & Eidx & Hi). rewrite Eidx. cbn [res_bind].
  destruct (get_bit_total _ _ (proj1 Hwf) Hi) as [b Hb]. rewrite Hb. cbn [res_bind].
  destruct b; [|exists false; split; [done|]].
  - destruct IH as (b & -> & Himp). exists b. split; [done|]. intros Hall. apply Himp.
    intros j idx Hj. apply Hall. by right.
  - intros Hall. specialize (Hall i index ltac:(by left) Eidx). congruence.
Qed.

Lemma bloom_contains_spec f elem :
  bloom_wf f → ∃ b, bloom_contains f elem = Ok b ∧ (marked f elem → b = true).
Proof. intros Hwf. by apply contains_loop_total. Qed.

Lemma bloom_inserts_spec f elems :
  bloom_wf f → ∃ f', res_foldM bloom_insert f elems = Ok f' ∧ bloom_wf f' ∧ bloom_le f f' ∧
    ∀ x, x ∈ elems → marked f' x.
Proof.
  revert f. induction elems as [|x elems IH]; intros f Hwf; cbn [res_foldM].
  { exists f. split_and!; [done..|]. set_solver. }
  destruct (bloom_insert_spec f x Hwf) as (f1 & -> & Hwf1 & Hle1 & Hm1). cbn [res_bind].
  destruct (IH f1 Hwf1) as (f' & -> & Hwf' & Hle' & Hm'). exists f'.
  split_and!; [done..|by etransitivity|]. intros y [->|Hy]%elem_of_cons; [|by apply Hm'].
  by eapply marked_le.
Qed.

Lemma bloom_new_wf {FLL : F64Laws} len err seeds : 0 < optimal_bits_count len err → bloom_wf (bloom_new len err seeds).
Proof.
  intros Hpos. split; cbn.
  - apply bv_new_wf. unfold optimal_bits_count. match goal with |- context [f64_as_u64 ?x] =>
      pose proof (f64_as_u64_range x) end. lia.
  - unfold bit_vector_len. cbn. by rewrite Nat2Z.id.
Qed.

(** ** The encoding *)

Context {IEL : IntegerEncodingLaws}.

(** A filter with more bytes behind its bits, as it is read from a longer buffer. *)
Definition bv_extend (v : BitVector) (extra : list Z) : BitVector :=
  {| bv_len := bv_len v; bit_groups := bit_groups v ++ extra |}.
Definition bloom_extend (f : BloomFilter) (extra : list Z) : BloomFilter :=
  {| bits := bv_extend (bits f) extra; hash_fn_count := hash_fn_count f; hashers := hashers f |}.

Lemma bloom_extend_nil f : bloom_extend f [] = f.
Proof. destruct f as [[]]. unfold bloom_extend, bv_extend. cbn. by rewrite app_nil_r. Qed.

Lemma bit_vector_roundtrip v junk :
  bv_wf v →
  bit_vector_from_raw (bit_vector_to_raw v [] ++ junk) = Ok (bv_extend v (decode_i8 <$> junk)).
Proof.
  intros [Hl _ Hg]. unfold bit_vector_from_raw, bit_vector_to_raw. cbn [app].
  pose proof (encode_fixed_length 8 (bv_len v)) as He.
  rewrite decide_False by (rewrite !length_app, He; lia). rewrite <- app_assoc.
  rewrite take_app_length', drop_app_length' by done.
  rewrite decode_encode_fixed by done. unfold bv_extend. do 2 f_equal.
  rewrite fmap_app. f_equal. rewrite <- list_fmap_compose.
  etransitivity; [|apply list_fmap_id].
  apply list_fmap_ext. intros i g Hi. cbn. apply decode_encode_i8.
  apply (Forall_lookup_1 _ _ _ _ Hg Hi).
Qed.

Lemma bloom_roundtrip f bs :
  bv_wf (bits f) → (0 ≤ hash_fn_count f < 2 ^ 64)%Z →
  (0 ≤ seed (hashers f).1 < 2 ^ 64)%Z → (0 ≤ seed (hashers f).2 < 2 ^ 64)%Z →
  ∃ raw, bloom_to_raw f bs = bs ++ raw ∧
    ∀ junk, bloom_from_raw (raw ++ junk) = Ok (bloom_extend f (decode_i8 <$> junk)).
Proof.
  intros Hv Hc H1 H2. unfold bloom_to_raw, hasher_to_raw, bit_vector_to_raw.
  set (r0 := encode_fixed 8 (hash_fn_count f)). set (r1 := encode_fixed 8 (seed (hashers f).1)).
  set (r2 := encode_fixed 8 (seed (hashers f).2)). set (rv := bit_vector_to_raw (bits f) []).
  exists (r0 ++ r1 ++ r2 ++ rv). split.
  { unfold rv, bit_vector_to_raw. cbn [app]. by rewrite <- !app_assoc. }
  intros junk.
  pose proof (encode_fixed_length 8 (hash_fn_count f) : length r0 = 8) as L0.
  pose proof (encode_fixed_length 8 (seed (hashers f).1) : length r1 = 8) as L1.
  pose proof (encode_fixed_length 8 (seed (hashers f).2) : length r2 = 8) as L2.
  rewrite <- !app_assoc. set (tail := rv ++ junk).
  unfold bloom_from_raw. rewrite decide_False by (rewrite !length_app, L0, L1, L2; lia).
  assert (drop 8 (r0 ++ r1 ++ r2 ++ tail) = r1 ++ r2 ++ tail) as D8 by (by apply drop_app_length').
  assert (drop 16 (r0 ++ r1 ++ r2 ++ tail) = r2 ++ tail) as D16.
  { rewrite app_assoc. apply drop_app_length'. rewrite length_app. lia. }
  assert (drop 24 (r0 ++ r1 ++ r2 ++ tail) = tail) as D24.
  { rewrite app_assoc, app_assoc. apply drop_app_length'. rewrite !length_app. lia. }
  rewrite D8, D16, D24. unfold tail at 1, rv at 1. rewrite bit_vector_roundtrip by done. cbn [res_bind].
  rewrite !take_app_length' by done. unfold hasher_from_raw, r0, r1, r2.
  rewrite !decode_encode_fixed by done. by destruct f as [b h [[] []]].
Qed.

(** The bytes behind the bits are never looked at. *)
Lemma bloom_extend_contains f extra elem :
  bloom_wf f → bloom_contains (bloom_extend f extra) elem = bloom_contains f elem.
Proof.
  intros Hwf. unfold bloom_contains.
  change (fn_range (bloom_extend f extra)) with (fn_range f).
  change (make_hash (bloom_extend f extra) elem) with (make_hash f elem).
  generalize (make_hash f elem) as hs. intros hs.
  induction (fn_range f) as [|i fns IH]; cbn [contains_loop]; [done|].
  change (get_index (bloom_extend f extra) hs i) with (get_index f hs i).
  destruct (get_index_total f hs i Hwf) as (index & -> & Hi). cbn [res_bind].
  destruct (bv_group _ _ (proj1 Hwf) Hi) as (g & Hg & _).
  rewrite (get_bit_testbit (bits f) index g Hg).
  rewrite (get_bit_testbit (bits (bloom_extend f extra)) index g); [cbn [res_bind]; by rewrite IH|].
  cbn. by apply lookup_app_l_Some.
Qed.
End filters.

(** ** Properties *)

(** C30: a filter with at least one bit never denies an element it was given, after any
    insertions, whatever the hash functions; asking about any other element returns too. *)
Theorem bloom_no_false_negative `{IntegerEncoding, DefaultHasher, F64Laws}
    len err seeds (elems : list bytes) x :
  0 < optimal_bits_count len err →
  ∃ f b, res_foldM bloom_insert (bloom_new len err seeds) elems = Ok f ∧
    bloom_contains f x = Ok b ∧ (x ∈ elems → b = true).
Proof.
  intros Hpos. destruct (bloom_inserts_spec _ elems (bloom_new_wf _ _ seeds Hpos))
    as (f & Hf & Hwf & _ & Hm).
  destruct (bloom_contains_spec f x Hwf) as (b & Hb & Himp). exists f, b.
  split_and!; [done..|]. intros Hx. by apply Himp, Hm.
Qed.

(** A filter built by insertions is read back from its encoding as it was, hash
    seeds and bits, at the end of any buffer. *)
Theorem bloom_raw_roundtrip `{IntegerEncodingLaws, DefaultHasher, F64Laws}
    len err seeds (elems : list bytes) bs :
  0 < optimal_bits_count len err → (0 ≤ seeds.1 < 2 ^ 64)%Z → (0 ≤ seeds.2 < 2 ^ 64)%Z →
  ∃ f raw, res_foldM bloom_insert (bloom_new len err seeds) elems = Ok f ∧
    bloom_to_raw f bs = bs ++ raw ∧ bloom_from_raw raw = Ok f.
Proof.
  intros Hpos Hs1 Hs2. destruct (bloom_inserts_spec _ elems (bloom_new_wf _ _ seeds Hpos))
    as (f & Hf & Hwf & Hle & _).
  destruct (bloom_roundtrip f bs) as (raw & Hraw & Hfrom); cycle -1.
  { exists f, raw. split_and!; [done..|]. specialize (Hfrom []). rewrite app_nil_r in Hfrom.
    by rewrite Hfrom, bloom_extend_nil. }
  - apply Hwf.
  - rewrite (bl_count _ _ Hle). apply f64_as_u64_range.
  - by rewrite (bl_hashers _ _ Hle).
  - by rewrite (bl_hashers _ _ Hle).
Qed.

Section bloom_samples.
Import Reference.

Lemma bloom_no_false_negative_witness :
  0 < optimal_bits_count 3 (f64_literal (5 # 100)) ∧
  ∃ f, res_foldM bloom_insert (bloom_new 3 (f64_literal (5 # 100)) (11, 22)%Z) [[x01]; [x02; x03]] = Ok f ∧
    bloom_contains f [x02; x03] = Ok true.
Proof.
  assert (0 < optimal_bits_count 3 (f64_literal (5 # 100))) as Hpos by (vm_compute; lia).
  split; [exact Hpos|].
  destruct (bloom_no_false_negative 3 (f64_literal (5 # 100)) (11, 22)%Z [[x01]; [x02; x03]] [x02; x03] Hpos)
    as (f & b & Hf & Hb & Hin).
  exists f. split; [exact Hf|]. rewrite Hb. f_equal. apply Hin. right. left.
Defined.

Lemma bloom_raw_roundtrip_witness :
  ∃ f raw, res_foldM bloom_insert (bloom_new 3 (f64_literal (5 # 100)) (11, 22)%Z) [[x01]; [x02; x03]] = Ok f ∧
    bloom_to_raw f [x00] = [x00] ++ raw ∧ bloom_from_raw raw = Ok f.
Proof.
  apply (bloom_raw_roundtrip 3 (f64_literal (5 # 100)) (11, 22)%Z [[x01]; [x02; x03]] [x00]).
  - vm_compute; lia.
  - cbn. lia.
  - cbn. lia.
Defined.
End bloom_samples.
