(* ===== verification/Lru.v ===== *)
(** * The LRU cache (src/kernel/utils/lru_cache.rs)

    A doubly linked list of heap-allocated nodes threaded through raw pointers, with a
    hash map from keys to nodes, and the sharded cache made of several of them.  The
    nodes live in an explicit heap; dereferencing a pointer to a node that has been
    freed is undefined behaviour, modelled by [None].  The theorems show that no
    operation is undefined and that the pointer structure behaves as the list of its
    entries from the most to the least recently used. *)

From S2P Require Import Prelude.
From Stdlib Require Import ZArith Lia.
From stdpp Require Import base list gmap.

Set Default Goal Selector "!".

Abbreviation ptr := nat (only parsing).

Section lru.
Context {K V : Type} `{Countable K}.

(** ** Nodes and the heap *)

Record Node := mkNode {
  nd_key : K;
  nd_value : V;
  nd_prev : option ptr;
  nd_next : option ptr;
}.

Definition node_new (key : K) (value : V) : Node := mkNode key value None None.

(** [lc_heap] holds the boxes that are allocated, [lc_fresh] the address of the next
    one. *)
Record LruCache := mkLruCache {
  lc_head : option ptr;
  lc_tail : option ptr;
  lc_inner : gmap K ptr;
  lc_cap : nat;
  lc_heap : gmap ptr Node;
  lc_fresh : ptr;
}.

Definition set_head (o : option ptr) (c : LruCache) : LruCache :=
  mkLruCache o (lc_tail c) (lc_inner c) (lc_cap c) (lc_heap c) (lc_fresh c).
Definition set_tail (o : option ptr) (c : LruCache) : LruCache :=
  mkLruCache (lc_head c) o (lc_inner c) (lc_cap c) (lc_heap c) (lc_fresh c).
Definition set_map (m : gmap K ptr) (c : LruCache) : LruCache :=
  mkLruCache (lc_head c) (lc_tail c) m (lc_cap c) (lc_heap c) (lc_fresh c).
Definition set_heap (h : gmap ptr Node) (c : LruCache) : LruCache :=
  mkLruCache (lc_head c) (lc_tail c) (lc_inner c) (lc_cap c) h (lc_fresh c).

(** [p.as_mut().prev = o], [p.as_mut().next = o] *)
Definition set_prev (p : ptr) (o : option ptr) (c : LruCache) : option LruCache :=
  n ← lc_heap c !! p;
  Some (set_heap (<[p := mkNode (nd_key n) (nd_value n) o (nd_next n)]> (lc_heap c)) c).
Definition set_next (p : ptr) (o : option ptr) (c : LruCache) : option LruCache :=
  n ← lc_heap c !! p;
  Some (set_heap (<[p := mkNode (nd_key n) (nd_value n) (nd_prev n) o]> (lc_heap c)) c).

(** [Box::leak(Box::new(node))] and [Box::from_raw(p)], whose value is moved out. *)
Definition box_leak (n : Node) (c : LruCache) : ptr * LruCache :=
  (lc_fresh c, mkLruCache (lc_head c) (lc_tail c) (lc_inner c) (lc_cap c)
                 (<[lc_fresh c := n]> (lc_heap c)) (S (lc_fresh c))).
Definition box_from_raw (p : ptr) (c : LruCache) : option (V * LruCache) :=
  n ← lc_heap c !! p; Some (nd_value n, set_heap (delete p (lc_heap c)) c).

(** ** The operations *)

Definition lru_new (cap : nat) : KernelResult LruCache :=
  if decide (cap < 1) then Err CacheSizeOverFlow else Ok (mkLruCache None None ∅ cap ∅ 0).

(** The two [match]es of [detach]: what leads to a node is made to lead past it. *)
Definition link_next (prev nxt : option ptr) (c : LruCache) : option LruCache :=
  match prev with
  | Some prev => set_next prev nxt c
  | None => Some (set_head nxt c)
  end.

Definition link_prev (nxt prev : option ptr) (c : LruCache) : option LruCache :=
  match nxt with
  | Some nxt => set_prev nxt prev c
  | None => Some (set_tail prev c)
  end.

Definition detach (node : ptr) (c : LruCache) : option LruCache :=
  n ← lc_heap c !! node;
  c1 ← link_next (nd_prev n) (nd_next n) c;
  n1 ← lc_heap c1 !! node;
  c2 ← link_prev (nd_next n1) (nd_prev n1) c1;
  c3 ← set_prev node None c2;
  set_next node None c3.

Definition attach (node : ptr) (c : LruCache) : option LruCache :=
  match lc_head c with
  | Some head =>
      c1 ← set_prev head (Some node) c;
      c2 ← set_next node (Some head) c1;
      c3 ← set_prev node None c2;
      Some (set_head (Some node) c3)
  | None =>
      c1 ← set_prev node None c;
      c2 ← set_next node None c1;
      Some (set_tail (Some node) (set_head (Some node) c2))
  end.

Definition expulsion (c : LruCache) : option LruCache :=
  match lc_tail c with
  | Some tail =>
      if decide (lc_cap c ≤ size (lc_inner c)) then
        c1 ← detach tail c;
        n ← lc_heap c1 !! tail;
        Some (set_map (delete (nd_key n) (lc_inner c1)) c1)
      else Some c
  | None => Some c
  end.

(** [self.inner.remove(key).map(|node| { self.detach(node); node })] *)
Definition remove_node (key : K) (c : LruCache) : option (option ptr * LruCache) :=
  match lc_inner c !! key with
  | Some node => c1 ← detach node (set_map (delete key (lc_inner c)) c); Some (Some node, c1)
  | None => Some (None, c)
  end.

(** A new node for an entry, after room has been made for it. *)
Definition put_node (node : ptr) (key : K) (c : LruCache) : option LruCache :=
  c1 ← expulsion c;
  c2 ← attach node c1;
  Some (set_map (<[key := node]> (lc_inner c2)) c2).

Definition lru_put (key : K) (value : V) (c : LruCache) : option (option V * LruCache) :=
  let '(node, c1) := box_leak (node_new key value) c in
  '(old_node, c2) ← remove_node key c1;
  c3 ← put_node node key c2;
  match old_node with
  | Some old => '(v, c4) ← box_from_raw old c3; Some (Some v, c4)
  | None => Some (None, c3)
  end.

Definition get_node (key : K) (c : LruCache) : option (option ptr * LruCache) :=
  match lc_inner c !! key with
  | Some node => c1 ← detach node c; c2 ← attach node c1; Some (Some node, c2)
  | None => Some (None, c)
  end.

Definition lru_get (key : K) (c : LruCache) : option (option V * LruCache) :=
  '(o, c1) ← get_node key c;
  match o with
  | Some node => n ← lc_heap c1 !! node; Some (Some (nd_value n), c1)
  | None => Some (None, c1)
  end.

Definition lru_remove (key : K) (c : LruCache) : option (option V * LruCache) :=
  '(o, c1) ← remove_node key c;
  match o with
  | Some node => '(v, c2) ← box_from_raw node c1; Some (Some v, c2)
  | None => Some (None, c1)
  end.

Definition get_or_insert_node (key : K) (fn_once : K → KernelResult V) (c : LruCache)
    : option (KernelResult ptr * LruCache) :=
  match lc_inner c !! key with
  | Some node => c1 ← detach node c; c2 ← attach node c1; Some (Ok node, c2)
  | None =>
      match fn_once key with
      | Ok value =>
          let '(node, c1) := box_leak (node_new key value) c in
          '(_, c2) ← remove_node key c1;
          c3 ← put_node node key c2;
          Some (Ok node, c3)
      | Err e => Some (Err e, c)
      | Panic => Some (Panic, c)
      end
  end.

Definition lru_get_or_insert (key : K) (fn_once : K → KernelResult V) (c : LruCache)
    : option (KernelResult V * LruCache) :=
  '(r, c1) ← get_or_insert_node key fn_once c;
  match r with
  | Ok node => n ← lc_heap c1 !! node; Some (Ok (nd_value n), c1)
  | Err e => Some (Err e, c1)
  | Panic => Some (Panic, c1)
  end.

Definition lru_len (c : LruCache) : nat := size (lc_inner c).
Definition lru_is_empty (c : LruCache) : bool := bool_decide (lru_len c = 0).

(** [iter] walks the hash map, in an order the program cannot rely on. *)
Definition lru_iter (c : LruCache) : option (list (K * V)) :=
  mapM (λ e : K * ptr, n ← lc_heap c !! e.2; Some (nd_key n, nd_value n))
    (map_to_list (lc_inner c)).

(** The [while let] of [drop]: one round per node. *)
Fixpoint drop_loop (fuel : nat) (c : LruCache) : option LruCache :=
  match lc_head c with
  | None => Some c
  | Some node =>
      match fuel with
      | O => None
      | S fuel' =>
          n ← lc_heap c !! node;
          '(_, c1) ← box_from_raw node (set_head (nd_next n) c);
          drop_loop fuel' c1
      end
  end.

Definition lru_drop (c : LruCache) : option LruCache := drop_loop (size (lc_heap c)) c.
End lru.
Arguments Node K V : clear implicits.
Arguments LruCache K V {_ _}.

(** ** The list of entries

    The abstract cache: its entries from the most to the least recently used. *)

Section spec.
Context {K V : Type} `{EqDecision K}.
Implicit Types l : list (K * V).

Definition spec_lookup (key : K) l : option V := snd <$> head (filter (λ e, e.1 = key) l).
Definition spec_delete (key : K) l : list (K * V) := filter (λ e, e.1 ≠ key) l.
Definition spec_evict (cap : nat) l : list (K * V) :=
  if decide (cap ≤ length l) then removelast l else l.

Definition spec_put (cap : nat) (key : K) (value : V) l : option V * list (K * V) :=
  (spec_lookup key l, (key, value) :: spec_evict cap (spec_delete key l)).

Definition spec_get (key : K) l : option V * list (K * V) :=
  match spec_lookup key l with
  | Some v => (Some v, (key, v) :: spec_delete key l)
  | None => (None, l)
  end.

Definition spec_remove (key : K) l : option V * list (K * V) :=
  (spec_lookup key l, spec_delete key l).

Definition spec_get_or_insert (cap : nat) (key : K) (fn_once : K → KernelResult V) l
    : KernelResult V * list (K * V) :=
  match spec_lookup key l with
  | Some v => (Ok v, (key, v) :: spec_delete key l)
  | None =>
      match fn_once key with
      | Ok v => (Ok v, (key, v) :: spec_evict cap l)
      | Err e => (Err e, l)
      | Panic => (Panic, l)
      end
  end.
End spec.

(** ** The pointer structure represents the list *)

Section repr.
Context {K V : Type} `{Countable K}.
Implicit Types (l : list (ptr * (K * V))) (h : gmap ptr (Node K V)) (c : LruCache K V).

(** Where a segment starts and ends, given what follows and precedes it. *)
Definition seg_first l (nxt : option ptr) : option ptr :=
  match l with (p, _) :: _ => Some p | [] => nxt end.
Definition seg_last l (prev : option ptr) : option ptr :=
  match last l with Some (p, _) => Some p | None => prev end.

Fixpoint dseg h (prev : option ptr) l (nxt : option ptr) : Prop :=
  match l with
  | [] => True
  | (p, (k, v)) :: l' => h !! p = Some (mkNode k v prev (seg_first l' nxt)) ∧ dseg h (Some p) l' nxt
  end.

Lemma seg_first_app l1 l2 nxt : seg_first (l1 ++ l2) nxt = seg_first l1 (seg_first l2 nxt).
Proof. by destruct l1 as [|[]]. Qed.

Lemma seg_last_cons p e l prev : seg_last ((p, e) :: l) prev = seg_last l (Some p).
Proof. unfold seg_last. rewrite last_cons. by destruct (last l) as [[]|]. Qed.

Lemma seg_last_snoc l p e prev : seg_last (l ++ [(p, e)]) prev = Some p.
Proof. unfold seg_last. by rewrite last_snoc. Qed.

Lemma seg_last_app l1 l2 prev : seg_last (l1 ++ l2) prev = seg_last l2 (seg_last l1 prev).
Proof. unfold seg_last. rewrite last_app. by destruct (last l2) as [[]|]. Qed.

Lemma dseg_app h prev l1 l2 nxt :
  dseg h prev (l1 ++ l2) nxt ↔
  dseg h prev l1 (seg_first l2 nxt) ∧ dseg h (seg_last l1 prev) l2 nxt.
Proof.
  revert prev. induction l1 as [|[p [k v]] l1 IH]; intros prev; cbn [app dseg].
  - unfold seg_last. cbn. tauto.
  - rewrite IH, seg_first_app, seg_last_cons. tauto.
Qed.

Lemma dseg_frame h h' prev l nxt :
  (∀ p, p ∈ l.*1 → h' !! p = h !! p) → dseg h prev l nxt → dseg h' prev l nxt.
Proof.
  revert prev. induction l as [|[p [k v]] l IH]; intros prev Hf; [done|]. cbn [dseg].
  intros [Hp Hl]. split; [by rewrite Hf by (cbn; by left)|].
  apply IH; [|done]. intros q Hq. apply Hf. cbn. by right.
Qed.

Lemma dseg_alloc h prev l nxt p : dseg h prev l nxt → p ∈ l.*1 → is_Some (h !! p).
Proof.
  revert prev. induction l as [|[q [k v]] l IH]; intros prev; cbn; [set_solver|].
  intros [Hq Hl] [->|Hp]%elem_of_cons; [by eexists|by eapply IH].
Qed.

(** What an operation leaves alone. *)
Record same_rest (c c' : LruCache K V) : Prop := {
  sr_inner : lc_inner c' = lc_inner c;
  sr_cap : lc_cap c' = lc_cap c;
  sr_fresh : lc_fresh c' = lc_fresh c;
  sr_dom p : is_Some (lc_heap c' !! p) ↔ is_Some (lc_heap c !! p);
}.

#[local] Instance same_rest_refl : Reflexive same_rest.
Proof. by split. Qed.
#[local] Instance same_rest_trans : Transitive same_rest.
Proof. intros a b c [H1 H2 H3 H4] [G1 G2 G3 G4]. split; try congruence. intros p. by rewrite G4. Qed.

Lemma set_prev_spec p o c k v prev nxt :
  lc_heap c !! p = Some (mkNode k v prev nxt) →
  ∃ c', set_prev p o c = Some c' ∧ lc_heap c' = <[p := mkNode k v o nxt]> (lc_heap c) ∧
        lc_head c' = lc_head c ∧ lc_tail c' = lc_tail c ∧ same_rest c c'.
Proof.
  intros Hp. unfold set_prev. rewrite Hp. cbn. eexists. split_and!; [done..|].
  split; [done..|]. intros q. cbn. rewrite lookup_insert_is_Some. destruct (decide (p = q)); naive_solver.
Qed.

Lemma set_next_spec p o c k v prev nxt :
  lc_heap c !! p = Some (mkNode k v prev nxt) →
  ∃ c', set_next p o c = Some c' ∧ lc_heap c' = <[p := mkNode k v prev o]> (lc_heap c) ∧
        lc_head c' = lc_head c ∧ lc_tail c' = lc_tail c ∧ same_rest c c'.
Proof.
  intros Hp. unfold set_next. rewrite Hp. cbn. eexists. split_and!; [done..|].
  split; [done..|]. intros q. cbn. rewrite lookup_insert_is_Some. destruct (decide (p = q)); naive_solver.
Qed.

(** Redirecting the end of the segment before a node. *)
Lemma link_next_spec c l1 x nxt :
  NoDup l1.*1 → dseg (lc_heap c) None l1 x → lc_head c = seg_first l1 x →
  ∃ c', link_next (seg_last l1 None) nxt c = Some c' ∧
    dseg (lc_heap c') None l1 nxt ∧ lc_head c' = seg_first l1 nxt ∧ lc_tail c' = lc_tail c ∧
    (∀ q, q ∉ l1.*1 → lc_heap c' !! q = lc_heap c !! q) ∧ same_rest c c'.
Proof.
  intros Hnd Hseg Hhead. destruct l1 as [|[p [k v]] l _] using rev_ind.
  { cbn. eexists. split_and!; [done..|]. by split. }
  rewrite seg_last_snoc. apply dseg_app in Hseg as [Hl [Hp _]]. cbn [seg_first] in *.
  destruct (set_next_spec p nxt c _ _ _ _ Hp) as (c' & Hs & Hh & Hhd & Htl & Hr).
  exists c'. rewrite fmap_app in Hnd. apply NoDup_app in Hnd as (Hnd & Hdis & _).
  assert (∀ q, q ∈ l.*1 → q ≠ p) as Hne by (intros q Hq ->; by eapply (Hdis p); [|left]).
  split_and!; [done| | |done| |done].
  - apply dseg_app. cbn [dseg seg_first]. split_and!; [|by rewrite Hh, lookup_insert_eq|done].
    eapply dseg_frame; [|exact Hl]. intros q Hq. rewrite Hh, lookup_insert_ne; [done|].
    intros <-. by apply (Hne p).
  - rewrite Hhd, Hhead, !seg_first_app. done.
  - intros q Hq. rewrite Hh, lookup_insert_ne; [done|]. intros <-. apply Hq.
    rewrite fmap_app. cbn. set_solver.
Qed.

(** Redirecting the start of the segment after a node. *)
Lemma link_prev_spec c l2 x prev :
  NoDup l2.*1 → dseg (lc_heap c) x l2 None → lc_tail c = seg_last l2 x →
  ∃ c', link_prev (seg_first l2 None) prev c = Some c' ∧
    dseg (lc_heap c') prev l2 None ∧ lc_tail c' = seg_last l2 prev ∧ lc_head c' = lc_head c ∧
    (∀ q, q ∉ l2.*1 → lc_heap c' !! q = lc_heap c !! q) ∧ same_rest c c'.
Proof.
  intros Hnd Hseg Htail. destruct l2 as [|[p [k v]] l].
  { cbn. eexists. split_and!; [done..|]. by split. }
  cbn [seg_first link_prev] in *. destruct Hseg as [Hp Hl].
  destruct (set_prev_spec p prev c _ _ _ _ Hp) as (c' & Hs & Hh & Hhd & Htl & Hr).
  exists c'. cbn in Hnd. apply NoDup_cons in Hnd as [Hpn Hnd].
  split_and!; [done| | |done| |done].
  - cbn [dseg]. split; [by rewrite Hh, lookup_insert_eq|].
    eapply dseg_frame; [|exact Hl]. intros q Hq. rewrite Hh, lookup_insert_ne; [done|].
    by intros <-.
  - by rewrite Htl, Htail, !seg_last_cons.
  - intros q Hq. rewrite Hh, lookup_insert_ne; [done|]. intros <-. apply Hq. by left.
Qed.

(** *** The chain of nodes *)

Record chain c l : Prop := {
  ch_nodup : NoDup l.*1;
  ch_seg : dseg (lc_heap c) None l None;
  ch_head : lc_head c = seg_first l None;
  ch_tail : lc_tail c = seg_last l None;
}.

Lemma detach_spec c l1 p k v l2 :
  chain c (l1 ++ (p, (k, v)) :: l2) →
  ∃ c', detach p c = Some c' ∧ chain c' (l1 ++ l2) ∧
    lc_heap c' !! p = Some (mkNode k v None None) ∧
    (∀ q, q ∉ (l1 ++ (p, (k, v)) :: l2).*1 → lc_heap c' !! q = lc_heap c !! q) ∧ same_rest c c'.
Proof.
  intros [Hnd Hseg Hhd Htl]. rewrite fmap_app, fmap_cons in Hnd |- *.
  apply NoDup_app in Hnd as (Hnd1 & Hdis & [Hp2 Hnd2]%NoDup_cons). cbn [fst] in *.
  assert (p ∉ l1.*1) as Hp1 by (intros Hp; by eapply (Hdis p); [|left]).
  apply dseg_app in Hseg as [Hseg1 [Hp Hseg2]]. cbn [seg_first] in Hseg1.
  rewrite seg_first_app in Hhd. rewrite seg_last_app, seg_last_cons in Htl. cbn [seg_first] in Hhd.
  unfold detach. rewrite Hp. cbn [mbind option_bind nd_prev nd_next].
  destruct (link_next_spec c l1 _ (seg_first l2 None) Hnd1 Hseg1 Hhd)
    as (c1 & -> & S1 & H1 & T1 & F1 & R1). cbn [mbind option_bind].
  rewrite (F1 p), Hp by done. cbn [mbind option_bind nd_prev nd_next].
  assert (∀ q, q ∈ l2.*1 → q ∉ l1.*1) as Hdis2.
  { intros q Hq Hq1. by eapply (Hdis q); [|right]. }
  assert (dseg (lc_heap c1) (Some p) l2 None) as Hseg2'.
  { eapply dseg_frame; [|exact Hseg2]. intros q Hq. by apply F1, Hdis2. }
  destruct (link_prev_spec c1 l2 _ (seg_last l1 None) Hnd2 Hseg2' ltac:(by rewrite T1))
    as (c2 & -> & S2 & T2 & H2 & F2 & R2). cbn [mbind option_bind].
  assert (lc_heap c2 !! p = Some (mkNode k v (seg_last l1 None) (seg_first l2 None))) as Hp2'.
  { by rewrite F2, F1. }
  destruct (set_prev_spec p None c2 _ _ _ _ Hp2') as (c3 & -> & Hh3 & H3 & T3 & R3).
  cbn [mbind option_bind].
  destruct (set_next_spec p None c3 k v None (seg_first l2 None)) as (c4 & -> & Hh4 & H4 & T4 & R4).
  { by rewrite Hh3, lookup_insert_eq. }
  assert (∀ q, q ≠ p → lc_heap c4 !! q = lc_heap c2 !! q) as F4.
  { intros q Hq. by rewrite Hh4, Hh3, !lookup_insert_ne by done. }
  exists c4. split_and!; [done| |by rewrite Hh4, lookup_insert_eq| |].
  - split.
    + rewrite fmap_app. apply NoDup_app. split_and!; [done| |done].
      intros q Hq Hq2. by apply (Hdis2 q).
    + apply dseg_app. split.
      * eapply dseg_frame; [|exact S1]. intros q Hq. rewrite F4 by (by intros ->).
        apply F2. intros Hq2. by apply (Hdis2 q).
      * eapply dseg_frame; [|exact S2]. intros q Hq. apply F4. by intros ->.
    + by rewrite H4, H3, H2, H1, seg_first_app.
    + by rewrite T4, T3, T2, seg_last_app.
  - intros q Hq. rewrite F4 by (intros ->; apply Hq; set_solver).
    rewrite F2, F1; [done|set_solver..].
  - by do 3 (etransitivity; [eassumption|]).
Qed.

Lemma attach_spec c l p k v prev nxt :
  chain c l → p ∉ l.*1 → lc_heap c !! p = Some (mkNode k v prev nxt) →
  ∃ c', attach p c = Some c' ∧ chain c' ((p, (k, v)) :: l) ∧
    (∀ q, q ∉ p :: l.*1 → lc_heap c' !! q = lc_heap c !! q) ∧ same_rest c c'.
Proof.
  intros [Hnd Hseg Hhd Htl] Hpl Hp. unfold attach. rewrite Hhd.
  destruct l as [|[q [kq vq]] l]; cbn [seg_first].
  - destruct (set_prev_spec p None c _ _ _ _ Hp) as (c1 & -> & Hh1 & H1 & T1 & R1).
    cbn [mbind option_bind].
    destruct (set_next_spec p None c1 k v None nxt) as (c2 & -> & Hh2 & H2 & T2 & R2).
    { by rewrite Hh1, lookup_insert_eq. }
    cbn [mbind option_bind]. eexists. split; [done|]. split_and!.
    + split; cbn; [apply NoDup_singleton| |done..]. by rewrite Hh2, lookup_insert_eq.
    + intros q Hq. cbn. rewrite Hh2, Hh1, !lookup_insert_ne; [done|set_solver..].
    + etransitivity; [exact R1|]. etransitivity; [exact R2|]. by split.
  - destruct Hseg as [Hq Hseg]. cbn in Hpl. apply not_elem_of_cons in Hpl as [Hpq Hpl].
    destruct (set_prev_spec q (Some p) c _ _ _ _ Hq) as (c1 & -> & Hh1 & H1 & T1 & R1).
    cbn [mbind option_bind].
    destruct (set_next_spec p (Some q) c1 k v prev nxt) as (c2 & -> & Hh2 & H2 & T2 & R2).
    { by rewrite Hh1, lookup_insert_ne by done. }
    cbn [mbind option_bind].
    destruct (set_prev_spec p None c2 k v prev (Some q)) as (c3 & -> & Hh3 & H3 & T3 & R3).
    { by rewrite Hh2, lookup_insert_eq. }
    cbn [mbind option_bind]. eexists. split; [done|].
    assert (∀ r, r ≠ p → r ≠ q → lc_heap c3 !! r = lc_heap c !! r) as F.
    { intros r Hr Hr'. by rewrite Hh3, Hh2, Hh1, !lookup_insert_ne by done. }
    cbn in Hnd. pose proof Hnd as [Hql Hnd']%NoDup_cons. split_and!.
    + split; cbn [set_head lc_heap lc_head lc_tail].
      * rewrite !fmap_cons. cbn [fst]. constructor; [|done]. set_solver.
      * cbn [dseg seg_first]. split_and!.
        -- by rewrite Hh3, lookup_insert_eq.
        -- rewrite Hh3, lookup_insert_ne, Hh2, lookup_insert_ne, Hh1 by done.
           apply lookup_insert_eq.
        -- eapply dseg_frame; [|exact Hseg]. intros r Hr. apply F; by intros ->.
      * done.
      * by rewrite T3, T2, T1, Htl, !seg_last_cons.
    + intros r Hr. cbn. apply F; set_solver.
    + etransitivity; [exact R1|]. etransitivity; [exact R2|]. etransitivity; [exact R3|].
      by split.
Qed.

Lemma chain_set_map c l m : chain c l → chain (set_map m c) l.
Proof. by intros []. Qed.

(** *** The chain and the hash map *)

Definition entry_link (e : ptr * (K * V)) : K * ptr := (e.2.1, e.1).

Record lru_ok c l : Prop := {
  lo_chain : chain c l;
  lo_inner : lc_inner c = list_to_map (entry_link <$> l);
  lo_keys : NoDup (l.*2).*1;
  lo_fresh p : is_Some (lc_heap c !! p) → p < lc_fresh c;
}.

Lemma links_fst l : (entry_link <$> l).*1 = (l.*2).*1.
Proof. by rewrite <- !list_fmap_compose. Qed.

Lemma lru_ok_frame c c' l :
  lru_ok c l → (∀ p, p ∈ l.*1 → lc_heap c' !! p = lc_heap c !! p) →
  lc_head c' = lc_head c → lc_tail c' = lc_tail c → lc_inner c' = lc_inner c →
  (∀ p, is_Some (lc_heap c' !! p) → p < lc_fresh c') → lru_ok c' l.
Proof.
  intros [[Hnd Hseg Hhd Htl] Hi Hk Hf] Hheap Hh Ht Hm Hfr. split; [|congruence|done..].
  split; [done| |congruence..]. by eapply dseg_frame.
Qed.

Lemma lru_ok_alloc c l p : lru_ok c l → p ∈ l.*1 → is_Some (lc_heap c !! p).
Proof. intros Hok. eapply dseg_alloc, Hok. Qed.

Lemma lru_lookup_Some c l key p :
  lru_ok c l → lc_inner c !! key = Some p →
  ∃ l1 v l2, l = l1 ++ (p, (key, v)) :: l2.
Proof.
  intros Hok Hp. rewrite (lo_inner _ _ Hok) in Hp.
  apply elem_of_list_to_map_2 in Hp as ([q [k v]] & E & Hin)%list_elem_of_fmap.
  injection E as -> ->. apply list_elem_of_split in Hin as (l1 & l2 & ->). by exists l1, v, l2.
Qed.

Lemma lru_lookup_None c l key :
  lru_ok c l → lc_inner c !! key = None ↔ key ∉ (l.*2).*1.
Proof.
  intros Hok. rewrite (lo_inner _ _ Hok), <- links_fst. split.
  - apply not_elem_of_list_to_map_2.
  - apply not_elem_of_list_to_map_1.
Qed.

Lemma spec_lookup_None (key : K) (a : list (K * V)) :
  key ∉ a.*1 → spec_lookup key a = None ∧ spec_delete key a = a.
Proof.
  intros Hn. unfold spec_lookup, spec_delete. rewrite filter_none, filter_all; [done| |].
  - intros e He <-. apply Hn. by apply list_elem_of_fmap_2.
  - intros e He <-. apply Hn. by apply list_elem_of_fmap_2.
Qed.

Lemma spec_lookup_split (key : K) (a1 a2 : list (K * V)) v :
  NoDup (a1 ++ (key, v) :: a2).*1 →
  spec_lookup key (a1 ++ (key, v) :: a2) = Some v ∧
  spec_delete key (a1 ++ (key, v) :: a2) = a1 ++ a2.
Proof.
  rewrite fmap_app, fmap_cons. intros (_ & Hdis & [Hn2 _]%NoDup_cons)%NoDup_app.
  assert (key ∉ a1.*1) as Hn1 by (intros Hk; by eapply (Hdis key); [|left]).
  destruct (spec_lookup_None key a1 Hn1) as [_ D1], (spec_lookup_None key a2 Hn2) as [_ D2].
  unfold spec_lookup, spec_delete in *. rewrite !filter_app, !filter_cons, D1, D2. cbn [fst].
  rewrite decide_True, decide_False by naive_solver.
  rewrite (filter_none (λ e : K * V, e.1 = key) a1); [done|].
  intros e He <-. apply Hn1. by apply list_elem_of_fmap_2.
Qed.

Lemma links_delete l1 p key v l2 :
  NoDup ((l1 ++ (p, (key, v)) :: l2).*2).*1 →
  NoDup ((l1 ++ l2).*2).*1 ∧ key ∉ ((l1 ++ l2).*2).*1 ∧
  delete key (list_to_map (entry_link <$> (l1 ++ (p, (key, v)) :: l2)) : gmap K ptr)
  = list_to_map (entry_link <$> (l1 ++ l2)).
Proof.
  assert (l1 ++ (p, (key, v)) :: l2 ≡ₚ (p, (key, v)) :: l1 ++ l2) as Hp
    by (symmetry; apply Permutation_middle).
  intros Hnd. pose proof Hnd as Hnd'. rewrite Hp in Hnd'. apply NoDup_cons in Hnd' as [Hn Hnd'].
  split_and!; [done..|].
  rewrite (list_to_map_proper _ (entry_link <$> ((p, (key, v)) :: l1 ++ l2)));
    [|by rewrite links_fst|by rewrite Hp].
  cbn. rewrite delete_insert_id; [done|]. apply not_elem_of_list_to_map_1. by rewrite links_fst.
Qed.

(** Unlinking a node from a chain whose map has lost its key. *)
Lemma unlink_spec c m l1 p key v l2 :
  lru_ok c (l1 ++ (p, (key, v)) :: l2) →
  ∃ c', detach p (set_map m c) = Some c' ∧ lc_heap c' !! p = Some (mkNode key v None None) ∧
    chain c' (l1 ++ l2) ∧ p ∉ (l1 ++ l2).*1 ∧ same_rest (set_map m c) c' ∧
    (∀ q, q ∉ (l1 ++ (p, (key, v)) :: l2).*1 → lc_heap c' !! q = lc_heap c !! q) ∧
    (delete key (lc_inner c) = lc_inner c' → lru_ok c' (l1 ++ l2)).
Proof.
  intros Hok.
  assert (chain (set_map m c) (l1 ++ (p, (key, v)) :: l2)) as Hch by apply chain_set_map, Hok.
  destruct (detach_spec _ _ _ _ _ _ Hch) as (c' & Hd & Hch' & Hp & Hfr & Hr).
  destruct (links_delete _ _ _ _ _ (lo_keys _ _ Hok)) as (Hk & _ & Hdel).
  exists c'. split_and!; [done..| |done|exact Hfr|].
  - pose proof (ch_nodup _ _ (lo_chain _ _ Hok)) as Hnd. rewrite fmap_app, fmap_cons in Hnd.
    rewrite <- Permutation_middle, <- fmap_app in Hnd. by apply NoDup_cons in Hnd as [Hn _].
  - intros Hm. split; [done| |done|].
    + by rewrite <- Hm, (lo_inner _ _ Hok).
    + intros q Hq. rewrite (sr_fresh _ _ Hr). apply (lo_fresh _ _ Hok). by apply Hr.
Qed.

Lemma remove_node_spec c l key :
  lru_ok c l →
  (key ∉ (l.*2).*1 ∧ remove_node key c = Some (None, c)) ∨
  ∃ l1 p v l2 c', l = l1 ++ (p, (key, v)) :: l2 ∧
    remove_node key c = Some (Some p, c') ∧ lru_ok c' (l1 ++ l2) ∧
    lc_heap c' !! p = Some (mkNode key v None None) ∧ p ∉ (l1 ++ l2).*1 ∧
    lc_cap c' = lc_cap c ∧ (∀ q, q ∉ l.*1 → lc_heap c' !! q = lc_heap c !! q).
Proof.
  intros Hok. unfold remove_node. destruct (lc_inner c !! key) as [p|] eqn:E; [right|left].
  - destruct (lru_lookup_Some _ _ _ _ Hok E) as (l1 & v & l2 & ->).
    destruct (unlink_spec c (delete key (lc_inner c)) _ _ _ _ _ Hok)
      as (c' & -> & Hp & _ & Hn & Hr & Hfr & Hok'). cbn.
    exists l1, p, v, l2, c'. split_and!; [done..| |done|done|apply Hr|exact Hfr].
    apply Hok'. symmetry. apply Hr.
  - split; [by apply (lru_lookup_None _ _ _ Hok)|done].
Qed.

(** Making a detached node the first one. *)
Lemma relink_spec c l p key v prev nxt m :
  chain c l → p ∉ l.*1 → key ∉ (l.*2).*1 → NoDup (l.*2).*1 →
  lc_heap c !! p = Some (mkNode key v prev nxt) →
  m = list_to_map (entry_link <$> l) → (∀ q, is_Some (lc_heap c !! q) → q < lc_fresh c) →
  ∃ c', attach p c = Some c' ∧ lc_heap c' !! p = Some (mkNode key v None (seg_first l None)) ∧
    lru_ok (set_map (<[key := p]> m) c') ((p, (key, v)) :: l) ∧ same_rest c c' ∧
    (∀ q, q ∉ p :: l.*1 → lc_heap c' !! q = lc_heap c !! q).
Proof.
  intros Hch Hn Hnk Hk Hp -> Hf.
  destruct (attach_spec _ _ _ _ _ _ _ Hch Hn Hp) as (c' & Ha & Hch' & Hfr & Hr).
  exists c'. split_and!; [done|apply (ch_seg _ _ Hch')| |done|done].
  split; [by apply chain_set_map|done|by constructor|]. intros q Hq. cbn in *.
  rewrite (sr_fresh _ _ Hr). apply Hf. by apply Hr.
Qed.

Lemma spec_evict_length cap (a : list (K * V)) : 0 < cap → length a ≤ cap →
  length (spec_evict cap a) < cap.
Proof.
  intros H0 Hle. unfold spec_evict. case_decide; [|lia].
  destruct a as [|e a _] using rev_ind; [cbn in *; lia|].
  rewrite removelast_last. rewrite length_app in Hle. cbn in Hle. lia.
Qed.

Lemma lru_ok_size c l : lru_ok c l → size (lc_inner c) = length l.
Proof.
  intros Hok. rewrite (lo_inner _ _ Hok), <- length_map_to_list.
  rewrite map_to_list_to_map by (rewrite links_fst; apply Hok). by rewrite length_fmap.
Qed.

Lemma expulsion_spec c l :
  lru_ok c l →
  ∃ c' l', expulsion c = Some c' ∧ lru_ok c' l' ∧ l'.*2 = spec_evict (lc_cap c) l.*2 ∧
    l' `sublist_of` l ∧ lc_cap c' = lc_cap c ∧ lc_fresh c' = lc_fresh c ∧
    (∀ q, q ∉ l.*1 → lc_heap c' !! q = lc_heap c !! q) ∧
    (∀ q, is_Some (lc_heap c' !! q) ↔ is_Some (lc_heap c !! q)).
Proof.
  intros Hok. unfold expulsion, spec_evict. rewrite length_fmap.
  rewrite (ch_tail _ _ (lo_chain _ _ Hok)), (lru_ok_size _ _ Hok).
  destruct l as [|[p [k v]] l _] using rev_ind.
  { cbn. exists c, []. split_and!; try done. by case_decide. }
  rewrite seg_last_snoc. case_decide as Hc.
  - destruct (detach_spec _ _ _ _ _ _ (lo_chain _ _ Hok)) as (c' & Hd & _ & _ & Hfr & _).
    destruct (unlink_spec c (lc_inner c) _ _ _ _ _ Hok) as (c1 & Hd' & Hp & Hch & Hn & Hr & _ & _).
    replace (set_map (lc_inner c) c) with c in Hd', Hr by (by destruct c).
    assert (c1 = c') as -> by congruence.
    destruct (links_delete _ _ _ _ _ (lo_keys _ _ Hok)) as (Hk & _ & Hdel).
    rewrite app_nil_r in *. rewrite Hd. cbn [mbind option_bind]. rewrite Hp. cbn.
    eexists _, l. split; [done|]. split_and!.
    + split; cbn; [by apply chain_set_map| |done|].
      * by rewrite (sr_inner _ _ Hr), (lo_inner _ _ Hok), Hdel.
      * intros q Hq. rewrite (sr_fresh _ _ Hr). apply (lo_fresh _ _ Hok). by apply Hr.
    + rewrite fmap_app. cbn. by rewrite removelast_last.
    + apply sublist_inserts_r. done.
    + apply Hr.
    + apply Hr.
    + exact Hfr.
    + apply Hr.
  - exists c, (l ++ [(p, (k, v))]). by split_and!.
Qed.

Lemma put_node_spec c l p key v :
  lru_ok c l → p ∉ l.*1 → key ∉ (l.*2).*1 → lc_heap c !! p = Some (node_new key v) →
  ∃ c' l', put_node p key c = Some c' ∧ lru_ok c' ((p, (key, v)) :: l') ∧
    l'.*2 = spec_evict (lc_cap c) l.*2 ∧ l' `sublist_of` l ∧
    lc_cap c' = lc_cap c ∧
    lc_heap c' !! p = Some (mkNode key v None (seg_first l' None)) ∧
    (∀ q, q ∉ p :: l.*1 → lc_heap c' !! q = lc_heap c !! q) ∧
    (∀ q, is_Some (lc_heap c' !! q) ↔ is_Some (lc_heap c !! q)).
Proof.
  intros Hok Hp Hk Hh. unfold put_node.
  destruct (expulsion_spec _ _ Hok) as (c1 & l' & -> & Hok1 & Hl' & Hsub & Hcap & Hfr & Hf & Hd).
  cbn [mbind option_bind].
  assert (∀ e, e ∈ l' → e ∈ l) as Hin.
  { intros e He. eapply elem_of_submseteq; [exact He|]. by apply sublist_submseteq. }
  assert (p ∉ l'.*1) as Hp'.
  { intros (e & -> & He)%list_elem_of_fmap. apply Hp. by apply list_elem_of_fmap_2, Hin. }
  assert (key ∉ (l'.*2).*1) as Hk'.
  { intros (e & -> & (x & -> & Hx)%list_elem_of_fmap)%list_elem_of_fmap. apply Hk.
    by apply list_elem_of_fmap_2, list_elem_of_fmap_2, Hin. }
  destruct (relink_spec c1 l' p key v None None (lc_inner c1) (lo_chain _ _ Hok1) Hp' Hk'
    (lo_keys _ _ Hok1)) as (c2 & -> & Hh2 & Hok2 & Hr2 & Hf2).
  { by rewrite Hf. }
  { apply Hok1. }
  { apply Hok1. }
  cbn [mbind option_bind]. rewrite (sr_inner _ _ Hr2).
  eexists _, l'. split_and!; [done..| | | |].
  - cbn. by rewrite (sr_cap _ _ Hr2).
  - exact Hh2.
  - intros q [Hqp Hq]%not_elem_of_cons. cbn. rewrite Hf2, Hf; [done..|].
    rewrite not_elem_of_cons. split; [done|].
    intros (e & -> & He)%list_elem_of_fmap. apply Hq. by apply list_elem_of_fmap_2, Hin.
  - intros q. cbn. by rewrite (sr_dom _ _ Hr2).
Qed.

(** ** Every operation follows the list *)

Definition lru_refines c (a : list (K * V)) : Prop :=
  ∃ l, lru_ok c l ∧ l.*2 = a ∧ 0 < lc_cap c ∧ length a ≤ lc_cap c.

Lemma lru_new_refines cap : 0 < cap → ∃ c, lru_new (V:=V) cap = Ok c ∧ lru_refines c [] ∧ lc_cap c = cap.
Proof.
  intros Hc. unfold lru_new. rewrite decide_False by lia. eexists. split; [done|]. split; [|done].
  exists []. split_and!; [|done|cbn; lia|cbn; lia]. split; [|done|constructor|].
  - split; [constructor|done..].
  - intros p [n Hn]. done.
Qed.

Lemma box_leak_spec c l key v :
  lru_ok c l →
  ∃ p c', box_leak (node_new key v) c = (p, c') ∧ lru_ok c' l ∧ p ∉ l.*1 ∧
    lc_heap c' !! p = Some (node_new key v) ∧ lc_cap c' = lc_cap c ∧
    lc_inner c' = lc_inner c.
Proof.
  intros Hok. unfold box_leak. eexists _, _. split; [done|].
  assert (lc_fresh c ∉ l.*1) as Hn.
  { intros Hin. apply (lru_ok_alloc _ _ _ Hok), (lo_fresh _ _ Hok) in Hin. lia. }
  split_and!; [|done|apply lookup_insert_eq|done|done].
  eapply lru_ok_frame; [exact Hok| |done..|].
  - intros p Hp. cbn. rewrite lookup_insert_ne; [done|]. by intros <-.
  - intros p. cbn. rewrite lookup_insert_is_Some. intros [<-|[_ Hp]]; [lia|].
    apply (lo_fresh _ _ Hok) in Hp. lia.
Qed.

Lemma box_from_raw_spec c l p key v prev nxt :
  lru_ok c l → p ∉ l.*1 → lc_heap c !! p = Some (mkNode key v prev nxt) →
  ∃ c', box_from_raw p c = Some (v, c') ∧ lru_ok c' l ∧ lc_cap c' = lc_cap c.
Proof.
  intros Hok Hn Hp. unfold box_from_raw. rewrite Hp. cbn. eexists. split; [done|].
  split; [|done]. eapply lru_ok_frame; [exact Hok| |done..|].
  - intros q Hq. cbn. rewrite lookup_delete_ne; [done|]. by intros <-.
  - intros q [n Hq]. cbn in Hq. apply lookup_delete_Some in Hq as [_ Hq].
    apply (lo_fresh _ _ Hok). by eexists.
Qed.

Lemma fmap_app_split (l1 l2 : list (ptr * (K * V))) e :
  (l1 ++ e :: l2).*2 = l1.*2 ++ e.2 :: l2.*2.
Proof. by rewrite fmap_app, fmap_cons. Qed.

(** The keys of a representation, around one of them. *)
Lemma lru_ok_spec_split c l1 p key v l2 :
  lru_ok c (l1 ++ (p, (key, v)) :: l2) →
  spec_lookup key (l1 ++ (p, (key, v)) :: l2).*2 = Some v ∧
  spec_delete key (l1 ++ (p, (key, v)) :: l2).*2 = (l1 ++ l2).*2 ∧
  key ∉ ((l1 ++ l2).*2).*1.
Proof.
  intros Hok. pose proof (lo_keys _ _ Hok) as Hk.
  destruct (links_delete _ _ _ _ _ Hk) as (_ & Hn & _).
  rewrite fmap_app_split in Hk |- *. cbn [snd] in *. rewrite fmap_app.
  destruct (spec_lookup_split _ _ _ _ Hk) as [-> ->]. by rewrite fmap_app in Hn.
Qed.

Lemma lru_put_refines c a key v :
  lru_refines c a →
  ∃ c', lru_put key v c = Some ((spec_put (lc_cap c) key v a).1, c') ∧
    lru_refines c' (spec_put (lc_cap c) key v a).2 ∧ lc_cap c' = lc_cap c.
Proof.
  intros (l & Hok & <- & Hpos & Hlen). unfold lru_put, spec_put.
  destruct (box_leak_spec _ _ key v Hok) as (p & c1 & -> & Hok1 & Hp & Hh & Hcap1 & _).
  destruct (remove_node_spec _ _ key Hok1) as [[Hk ->]|Hrem].
  - destruct (spec_lookup_None _ _ Hk) as [-> ->]. cbn [mbind option_bind fst snd].
    destruct (put_node_spec _ _ _ _ _ Hok1 Hp Hk Hh) as (c2 & l' & -> & Hok2 & Hl' & _ & Hcap2 & _).
    cbn [mbind option_bind]. rewrite Hcap1 in *. exists c2. split_and!; [done| |done].
    eexists. split_and!; [exact Hok2|by rewrite fmap_cons, Hl'|by rewrite Hcap2|].
    cbn. rewrite Hcap2. by apply spec_evict_length.
  - destruct Hrem as (l1 & q & w & l2 & c2 & -> & -> & Hok2 & Hq & Hqn & Hcap2 & Hfr2).
    destruct (lru_ok_spec_split _ _ _ _ _ _ Hok) as (-> & Hdel & Hkn).
    cbn [mbind option_bind fst snd]. rewrite Hdel.
    assert (p ≠ q ∧ p ∉ (l1 ++ l2).*1) as [Hpq Hp'].
    { rewrite fmap_app, fmap_cons in Hp. rewrite fmap_app. set_solver. }
    destruct (put_node_spec _ _ p key v Hok2 Hp' Hkn) as (c3 & l' & -> & Hok3 & Hl' & Hsub & Hcap3 & _ & Hf3 & _).
    { by rewrite Hfr2. }
    cbn [mbind option_bind].
    assert (q ∉ ((p, (key, v)) :: l').*1) as Hqn'.
    { intros [E|(e & -> & He)%list_elem_of_fmap]%elem_of_cons; [by apply Hpq|]. apply Hqn.
      apply list_elem_of_fmap_2. eapply elem_of_submseteq; [exact He|]. by apply sublist_submseteq. }
    destruct (box_from_raw_spec c3 _ q key w None None Hok3 Hqn') as (c4 & -> & Hok4 & Hcap4).
    { rewrite Hf3; [done|]. set_solver. }
    cbn. exists c4. split_and!; [done| |congruence].
    assert (lc_cap c4 = lc_cap c) as Hcap by congruence. rewrite Hcap2, Hcap1 in Hl'.
    eexists. split_and!; [exact Hok4|by rewrite fmap_cons, Hl'|by rewrite Hcap|].
    cbn. rewrite Hcap. apply spec_evict_length; [done|]. rewrite fmap_app_split, length_app in Hlen.
    rewrite fmap_app, length_app. cbn in Hlen. lia.
Qed.

Lemma touch_refines c l1 p key v l2 :
  lru_ok c (l1 ++ (p, (key, v)) :: l2) → lc_inner c !! key = Some p →
  ∃ c1 c2 n, detach p c = Some c1 ∧ attach p c1 = Some c2 ∧ lc_heap c2 !! p = Some n ∧
    nd_value n = v ∧ lru_ok c2 ((p, (key, v)) :: l1 ++ l2) ∧ lc_cap c2 = lc_cap c.
Proof.
  intros Hok Hi.
  destruct (unlink_spec c (lc_inner c) _ _ _ _ _ Hok) as (c1 & Hd & Hp & Hch & Hn & Hr & _ & _).
  replace (set_map (lc_inner c) c) with c in Hd, Hr by (by destruct c).
  destruct (links_delete _ _ _ _ _ (lo_keys _ _ Hok)) as (Hk & Hkn & Hdel).
  destruct (relink_spec c1 (l1 ++ l2) p key v None None _ Hch Hn Hkn Hk Hp eq_refl)
    as (c2 & Ha & Hh & Hok2 & Hr2 & _).
  { intros q Hq. rewrite (sr_fresh _ _ Hr). apply (lo_fresh _ _ Hok). by apply Hr. }
  exists c1, c2. eexists. split_and!; [done..| |].
  - rewrite <- Hdel, <- (lo_inner _ _ Hok), insert_delete_id in Hok2 by done.
    replace c2 with (set_map (lc_inner c) c2) at 1; [done|].
    rewrite <- (sr_inner _ _ Hr), <- (sr_inner _ _ Hr2). by destruct c2.
  - by rewrite (sr_cap _ _ Hr2), (sr_cap _ _ Hr).
Qed.

(** The entry of a key found in the map moves to the front. *)
Lemma touch_spec c l key p :
  lru_ok c l → lc_inner c !! key = Some p → 0 < lc_cap c → length l.*2 ≤ lc_cap c →
  ∃ v c1 c2 n, detach p c = Some c1 ∧ attach p c1 = Some c2 ∧ lc_heap c2 !! p = Some n ∧
    nd_value n = v ∧ spec_lookup key l.*2 = Some v ∧
    lru_refines c2 ((key, v) :: spec_delete key l.*2) ∧ lc_cap c2 = lc_cap c.
Proof.
  intros Hok Hi Hpos Hlen. destruct (lru_lookup_Some _ _ _ _ Hok Hi) as (l1 & v & l2 & ->).
  destruct (touch_refines _ _ _ _ _ _ Hok Hi) as (c1 & c2 & n & Hd & Ha & Hn & Hv & Hok2 & Hcap).
  destruct (lru_ok_spec_split _ _ _ _ _ _ Hok) as (Hl & Hdel & _).
  exists v, c1, c2, n. split_and!; [done..| |done]. rewrite Hdel. eexists.
  split_and!; [exact Hok2|done|by rewrite Hcap|]. rewrite Hcap.
  rewrite fmap_app_split, length_app in Hlen. cbn in *. rewrite fmap_app, length_app. lia.
Qed.

Lemma lru_get_refines c a key :
  lru_refines c a →
  ∃ c', lru_get key c = Some ((spec_get key a).1, c') ∧ lru_refines c' (spec_get key a).2 ∧
    lc_cap c' = lc_cap c.
Proof.
  intros (l & Hok & <- & Hpos & Hlen). unfold lru_get, get_node, spec_get.
  destruct (lc_inner c !! key) as [p|] eqn:E.
  - destruct (touch_spec _ _ _ _ Hok E Hpos Hlen) as (v & c1 & c2 & n & -> & Ha & Hn & <- & -> & Hr & Hc).
    cbn [mbind option_bind]. rewrite Ha. cbn [mbind option_bind]. rewrite Hn. cbn.
    by exists c2.
  - apply (lru_lookup_None _ _ _ Hok), spec_lookup_None in E as [-> _]. cbn. exists c.
    split_and!; [done| |done]. by exists l.
Qed.

Lemma lru_remove_refines c a key :
  lru_refines c a →
  ∃ c', lru_remove key c = Some ((spec_remove key a).1, c') ∧
    lru_refines c' (spec_remove key a).2 ∧ lc_cap c' = lc_cap c.
Proof.
  intros (l & Hok & <- & Hpos & Hlen). unfold lru_remove, spec_remove.
  destruct (remove_node_spec _ _ key Hok) as [[Hk ->]|Hrem].
  - destruct (spec_lookup_None _ _ Hk) as [-> ->]. cbn. exists c. split_and!; [done| |done].
    by exists l.
  - destruct Hrem as (l1 & p & v & l2 & c' & -> & -> & Hok' & Hp & Hn & Hcap & _).
    destruct (lru_ok_spec_split _ _ _ _ _ _ Hok) as (-> & -> & _). cbn [mbind option_bind fst snd].
    destruct (box_from_raw_spec _ _ _ _ _ _ _ Hok' Hn Hp) as (c2 & -> & Hok2 & Hcap2). cbn.
    exists c2. split_and!; [done| |congruence]. eexists.
    split_and!; [exact Hok2|done|congruence|]. rewrite Hcap2, Hcap.
    rewrite fmap_app_split, length_app in Hlen. cbn in *. rewrite fmap_app, length_app. lia.
Qed.

Lemma lru_get_or_insert_refines c a key fn_once :
  lru_refines c a →
  ∃ c', lru_get_or_insert key fn_once c = Some ((spec_get_or_insert (lc_cap c) key fn_once a).1, c') ∧
    lru_refines c' (spec_get_or_insert (lc_cap c) key fn_once a).2 ∧ lc_cap c' = lc_cap c.
Proof.
  intros (l & Hok & <- & Hpos & Hlen). unfold lru_get_or_insert, get_or_insert_node, spec_get_or_insert.
  destruct (lc_inner c !! key) as [p|] eqn:E.
  - destruct (touch_spec _ _ _ _ Hok E Hpos Hlen) as (v & c1 & c2 & n & -> & Ha & Hn & <- & -> & Hr & Hc).
    cbn [mbind option_bind]. rewrite Ha. cbn [mbind option_bind]. rewrite Hn. cbn.
    by exists c2.
  - apply (lru_lookup_None _ _ _ Hok) in E. destruct (spec_lookup_None _ _ E) as [-> _].
    destruct (fn_once key) as [v|e|]; cycle 1.
    { exists c. split_and!; [done| |done]. by exists l. }
    { exists c. split_and!; [done| |done]. by exists l. }
    destruct (box_leak_spec _ _ key v Hok) as (p & c1 & -> & Hok1 & Hp & Hh & Hcap1 & Hi).
    destruct (remove_node_spec _ _ key Hok1) as [[Hk ->]|(l1 & q & w & l2 & c2 & -> & _)]; cycle 1.
    { destruct E. rewrite fmap_app_split. rewrite fmap_app. cbn. set_solver. }
    cbn [mbind option_bind].
    destruct (put_node_spec _ _ _ _ _ Hok1 Hp Hk Hh) as (c2 & l' & -> & Hok2 & Hl' & _ & Hcap2 & Hn & _).
    cbn [mbind option_bind]. rewrite Hn. cbn. exists c2. rewrite Hcap1 in *. split_and!; [done| |done].
    eexists. split_and!; [exact Hok2|by rewrite fmap_cons, Hl'|by rewrite Hcap2|].
    cbn. rewrite Hcap2. by apply spec_evict_length.
Qed.

(** *** Dropping the cache *)

Lemma drop_loop_spec fuel c l prev :
  NoDup l.*1 → dseg (lc_heap c) prev l None → lc_head c = seg_first l None → length l ≤ fuel →
  ∃ c', drop_loop fuel c = Some c' ∧
    ∀ p, lc_heap c' !! p = if decide (p ∈ l.*1) then None else lc_heap c !! p.
Proof.
  revert c l prev. induction fuel as [|fuel IH]; intros c l prev Hnd Hseg Hhd Hlen;
    destruct l as [|[p [k v]] l]; cbn [length] in Hlen; try lia; cbn [drop_loop]; rewrite Hhd; cbn.
  1-2: exists c; split; [done|]; intros q; by rewrite decide_False by apply not_elem_of_nil.
  destruct Hseg as [Hp Hseg]. rewrite Hp. cbn [mbind option_bind].
  unfold box_from_raw. cbn [set_head lc_heap]. rewrite Hp. cbn [mbind option_bind].
  cbn in Hnd. apply NoDup_cons in Hnd as [Hpn Hnd].
  destruct (IH (set_heap (delete p (lc_heap c)) (set_head (nd_next (mkNode k v prev (seg_first l None))) c))
    l (Some p)) as (c' & -> & Hc'); [done| |done|lia|].
  { eapply dseg_frame; [|exact Hseg]. intros q Hq. cbn. rewrite lookup_delete_ne; [done|].
    by intros <-. }
  exists c'. split; [done|]. intros q. rewrite Hc'. cbn [set_heap lc_heap].
  destruct (decide (q ∈ l.*1)) as [Hq|Hq].
  - rewrite decide_True; [done|by right].
  - destruct (decide (q = p)) as [->|Hqp].
    + rewrite decide_True by left. apply lookup_delete_eq.
    + rewrite decide_False by (by intros [?|?]%elem_of_cons). by apply lookup_delete_ne.
Qed.

Lemma lru_ok_length c l : lru_ok c l → length l ≤ size (lc_heap c).
Proof.
  intros Hok. rewrite <- (length_fmap fst l). rewrite <- (size_dom (D:=gset ptr)).
  rewrite <- (size_list_to_set (C:=gset ptr) l.*1) by apply Hok.
  apply subseteq_size. intros p Hp%elem_of_list_to_set. apply elem_of_dom.
  by eapply lru_ok_alloc.
Qed.

Lemma lru_drop_spec c a :
  lru_refines c a →
  ∃ c', lru_drop c = Some c' ∧
    ∀ p, is_Some (lc_heap c' !! p) ↔
         is_Some (lc_heap c !! p) ∧ ∀ k, lc_inner c !! k ≠ Some p.
Proof.
  intros (l & Hok & _). pose proof (lo_chain _ _ Hok) as [Hnd Hseg Hhd _].
  destruct (drop_loop_spec (size (lc_heap c)) c l None Hnd Hseg Hhd (lru_ok_length _ _ Hok))
    as (c' & Hd & Hc').
  exists c'. split; [done|]. intros p. rewrite Hc'.
  assert (p ∈ l.*1 ↔ ∃ k, lc_inner c !! k = Some p) as Hin.
  { rewrite (lo_inner _ _ Hok). split.
    - intros ([q [k v]] & -> & Hq)%list_elem_of_fmap. exists k. cbn.
      apply elem_of_list_to_map_1; [rewrite links_fst; apply Hok|].
      apply list_elem_of_fmap. by exists (q, (k, v)).
    - intros (k & ([q [k' v]] & E & Hq)%elem_of_list_to_map_2%list_elem_of_fmap).
      injection E as -> ->. by apply (list_elem_of_fmap_2 fst _ (q, (k', v))). }
  case_decide as Hp.
  - split; [by intros []|]. intros [_ Hk]. apply Hin in Hp as [k Hk']. by destruct (Hk k).
  - split; [|by intros []]. intros Hs. split; [done|]. intros k Hk. apply Hp, Hin. by exists k.
Qed.
End repr.

(** ** Sequences of operations *)

Inductive LruCmd (K V : Type) : Type :=
  | CmdPut (key : K) (value : V)
  | CmdGet (key : K)
  | CmdRemove (key : K)
  | CmdGetOrInsert (key : K) (fn_once : K → KernelResult V).
Arguments CmdPut {K V}.
Arguments CmdGet {K V}.
Arguments CmdRemove {K V}.
Arguments CmdGetOrInsert {K V}.

Inductive LruOut (V : Type) : Type :=
  | OutOption (o : option V)
  | OutResult (r : KernelResult V).
Arguments OutOption {V}.
Arguments OutResult {V}.

Section commands.
Context {K V : Type} `{Countable K}.

Definition lru_exec (cmd : LruCmd K V) (c : LruCache K V) : option (LruOut V * LruCache K V) :=
  match cmd with
  | CmdPut k v => '(o, c') ← lru_put k v c; Some (OutOption o, c')
  | CmdGet k => '(o, c') ← lru_get k c; Some (OutOption o, c')
  | CmdRemove k => '(o, c') ← lru_remove k c; Some (OutOption o, c')
  | CmdGetOrInsert k f => '(r, c') ← lru_get_or_insert k f c; Some (OutResult r, c')
  end.

Fixpoint lru_run (cmds : list (LruCmd K V)) (c : LruCache K V)
    : option (list (LruOut V) * LruCache K V) :=
  match cmds with
  | [] => Some ([], c)
  | cmd :: cmds' =>
      '(o, c1) ← lru_exec cmd c;
      '(os, c2) ← lru_run cmds' c1;
      Some (o :: os, c2)
  end.

Definition spec_exec (cap : nat) (cmd : LruCmd K V) (l : list (K * V)) : LruOut V * list (K * V) :=
  match cmd with
  | CmdPut k v => let '(o, l') := spec_put cap k v l in (OutOption o, l')
  | CmdGet k => let '(o, l') := spec_get k l in (OutOption o, l')
  | CmdRemove k => let '(o, l') := spec_remove k l in (OutOption o, l')
  | CmdGetOrInsert k f => let '(r, l') := spec_get_or_insert cap k f l in (OutResult r, l')
  end.

Fixpoint spec_run (cap : nat) (cmds : list (LruCmd K V)) (l : list (K * V))
    : list (LruOut V) * list (K * V) :=
  match cmds with
  | [] => ([], l)
  | cmd :: cmds' =>
      let '(o, l1) := spec_exec cap cmd l in
      let '(os, l2) := spec_run cap cmds' l1 in (o :: os, l2)
  end.

Lemma lru_exec_refines cmd (c : LruCache K V) a :
  lru_refines c a →
  ∃ c', lru_exec cmd c = Some ((spec_exec (lc_cap c) cmd a).1, c') ∧
    lru_refines c' (spec_exec (lc_cap c) cmd a).2 ∧ lc_cap c' = lc_cap c.
Proof.
  intros Hr. destruct cmd as [k v|k|k|k f]; cbn [lru_exec spec_exec].
  - destruct (lru_put_refines _ _ k v Hr) as (c' & -> & ?). destruct (spec_put _ _ _ _). by exists c'.
  - destruct (lru_get_refines _ _ k Hr) as (c' & -> & ?). destruct (spec_get _ _). by exists c'.
  - destruct (lru_remove_refines _ _ k Hr) as (c' & -> & ?). destruct (spec_remove _ _). by exists c'.
  - destruct (lru_get_or_insert_refines _ _ k f Hr) as (c' & -> & ?).
    destruct (spec_get_or_insert _ _ _ _). by exists c'.
Qed.

Lemma lru_run_refines cmds (c : LruCache K V) a :
  lru_refines c a →
  ∃ c', lru_run cmds c = Some ((spec_run (lc_cap c) cmds a).1, c') ∧
    lru_refines c' (spec_run (lc_cap c) cmds a).2 ∧ lc_cap c' = lc_cap c.
Proof.
  revert c a. induction cmds as [|cmd cmds IH]; intros c a Hr; cbn [lru_run spec_run]; [by exists c|].
  destruct (lru_exec_refines cmd _ _ Hr) as (c1 & -> & Hr1 & Hc1).
  destruct (spec_exec (lc_cap c) cmd a) as [o l1]. cbn [mbind option_bind fst snd] in *.
  destruct (IH _ _ Hr1) as (c2 & -> & Hr2 & Hc2). rewrite Hc1 in *.
  destruct (spec_run (lc_cap c) cmds l1) as [os l2]. cbn. by exists c2.
Qed.

Lemma lru_iter_refines (c : LruCache K V) a :
  lru_refines c a → ∃ out, lru_iter c = Some out ∧ out ≡ₚ a.
Proof.
  intros (l & Hok & <- & _). unfold lru_iter.
  set (f := λ e : K * ptr, n ← lc_heap c !! e.2; Some (nd_key n, nd_value n)).
  assert (Forall2 (λ x y, f x = Some y) (entry_link <$> l) l.*2) as Hl.
  { pose proof (ch_seg _ _ (lo_chain _ _ Hok)) as Hs. clear Hok. revert Hs.
    generalize (@None ptr) at 1. induction l as [|[p [k v]] l IH]; intros prev; cbn; [constructor|].
    intros [Hp Hs]. constructor; [unfold f; cbn; by rewrite Hp|by eapply IH]. }
  assert (entry_link <$> l ≡ₚ map_to_list (lc_inner c)) as Hp.
  { symmetry. rewrite (lo_inner _ _ Hok). apply map_to_list_to_map. rewrite links_fst. apply Hok. }
  destruct (Permutation_Forall2 Hp Hl) as (out & Hperm & Hout).
  exists out. split; [by apply mapM_Some|done].
Qed.
End commands.

(** ** The sharded cache *)

Section sharding.
Context {K V : Type} `{Countable K}.

(** The hasher: [RandomState]'s, the same for equal keys during the life of a cache. *)
Context (hash : K → N).

Record ShardingLruCache := mkSharding { sharding_vec : list (LruCache K V) }.

Definition sharding_new (cap sharding_size : nat) : KernelResult ShardingLruCache :=
  if decide (sharding_size = 0) then Panic
  else if decide (cap `mod` sharding_size ≠ 0) then Err ShardingNotAlign
  else let? lrus := res_mapM (λ _, lru_new (cap / sharding_size)) (seq 0 sharding_size) in
       Ok (mkSharding lrus).

Definition sharding_size (c : ShardingLruCache) : nat := length (sharding_vec c).

(** The index of the shard of a key. *)
Definition shard (key : K) (c : ShardingLruCache) : KernelResult nat :=
  if decide (sharding_size c = 0) then Panic
  else Ok (N.to_nat (hash key `mod` N.of_nat (sharding_size c))).

(** An operation on the shard of a key, under its lock. *)
Definition with_shard {A} (key : K) (op : LruCache K V → option (A * LruCache K V))
    (c : ShardingLruCache) : option (KernelResult (A * ShardingLruCache)) :=
  match shard key c with
  | Ok i =>
      match sharding_vec c !! i with
      | Some lru => '(a, lru') ← op lru; Some (Ok (a, mkSharding (<[i := lru']> (sharding_vec c))))
      | None => Some Panic
      end
  | Err e => Some (Err e)
  | Panic => Some Panic
  end.

Definition sharding_get (key : K) := with_shard key (lru_get key).
Definition sharding_put (key : K) (value : V) := with_shard key (lru_put key value).
Definition sharding_remove (key : K) := with_shard key (lru_remove key).
Definition sharding_get_or_insert (key : K) (fn_once : K → KernelResult V) :=
  with_shard key (lru_get_or_insert key fn_once).
Definition sharding_is_empty (c : ShardingLruCache) : bool := forallb lru_is_empty (sharding_vec c).
End sharding.
Arguments ShardingLruCache K V {_ _}.

(** ** A cache that is transparent

    What the tables promise themselves of a cache: as long as every value put into it is
    the one a function [load] gives for its key, asking the cache is asking [load]. *)

Class Cache (K V C : Type) := cache_get_or_insert :
  K → (K → KernelResult V) → C → KernelResult V * C.

Class CacheLaws (K V C : Type) `{Cache K V C} := {
  cache_coherent : (K → KernelResult V) → C → Prop;
  cache_transparent load c key fn_once :
    cache_coherent load c → fn_once key = load key →
    ∃ c', cache_get_or_insert key fn_once c = (load key, c') ∧ cache_coherent load c';
}.

Section sharding_laws.
Context {K V : Type} `{Countable K} (hash : K → N).
Implicit Types c : ShardingLruCache K V.

(** The entries of every shard satisfy a predicate. *)
Definition sharding_inv (P : K → V → Prop) c : Prop :=
  sharding_vec c ≠ [] ∧
  Forall (λ lru, ∃ a, lru_refines lru a ∧ ∀ e, e ∈ a → P e.1 e.2) (sharding_vec c).

Lemma sharding_new_inv P cap n c : sharding_new cap n = Ok c → sharding_inv P c.
Proof.
  unfold sharding_new. case_decide as Hn; [done|]. case_decide; [done|].
  destruct (res_mapM _ _) as [lrus| |] eqn:E; try done. intros [= <-].
  apply res_mapM_Forall2 in E. split; cbn.
  - intros ->. apply Forall2_length in E. rewrite length_seq in E. done.
  - clear Hn. induction E as [|x lru xs lrus Hlru _ IH]; [constructor|]. constructor; [|done].
    unfold lru_new in Hlru. case_decide as Hcap; [done|].
    destruct (lru_new_refines (K:=K) (V:=V) (cap / n) ltac:(lia)) as (c' & Hc' & Hr & _).
    unfold lru_new in Hc'. rewrite decide_False in Hc' by done. exists [].
    split; [congruence|set_solver].
Qed.

Lemma shard_lookup P key c :
  sharding_inv P c → ∃ i lru, shard hash key c = Ok i ∧ sharding_vec c !! i = Some lru.
Proof.
  intros [Hne _]. unfold shard, sharding_size.
  assert (length (sharding_vec c) ≠ 0) as Hl by (by destruct (sharding_vec c)).
  rewrite decide_False by done. eexists.
  destruct (lookup_lt_is_Some_2 (sharding_vec c)
    (N.to_nat (hash key `mod` N.of_nat (length (sharding_vec c))))) as [lru Hlru].
  { pose proof (N.mod_lt (hash key) (N.of_nat (length (sharding_vec c)))). lia. }
  by exists lru.
Qed.

(** An operation that follows its specification on one shard keeps what holds of all
    entries. *)
Lemma with_shard_inv {A} (P : K → V → Prop) key c op
    (spec : nat → list (K * V) → A * list (K * V)) :
  sharding_inv P c →
  (∀ lru a, lru_refines lru a → ∃ lru', op lru = Some ((spec (lc_cap lru) a).1, lru') ∧
     lru_refines lru' (spec (lc_cap lru) a).2) →
  (∀ cap a, (∀ e, e ∈ a → P e.1 e.2) → ∀ e, e ∈ (spec cap a).2 → P e.1 e.2) →
  ∃ cap a c', with_shard hash key op c = Some (Ok ((spec cap a).1, c')) ∧
    (∀ e, e ∈ a → P e.1 e.2) ∧ sharding_inv P c'.
Proof.
  intros Hinv Hop Hspec. destruct (shard_lookup _ key _ Hinv) as (i & lru & Hs & Hi).
  destruct Hinv as [Hne Hall]. pose proof (Forall_lookup_1 _ _ _ _ Hall Hi) as (a & Hr & HP).
  destruct (Hop _ _ Hr) as (lru' & Ho & Hr').
  exists (lc_cap lru), a. unfold with_shard. rewrite Hs, Hi, Ho. cbn. eexists.
  split; [done|]. split; [done|]. split; cbn.
  - intros E%(f_equal length). rewrite length_insert in E. by destruct (sharding_vec c).
  - apply Forall_insert; [done|]. eexists. split; [exact Hr'|]. by apply Hspec.
Qed.

Lemma spec_delete_subset (key : K) (a : list (K * V)) e : e ∈ spec_delete key a → e ∈ a.
Proof. by intros [_ ?]%list_elem_of_filter. Qed.

Lemma spec_evict_subset cap (a : list (K * V)) e : e ∈ spec_evict cap a → e ∈ a.
Proof.
  unfold spec_evict. case_decide; [|done]. destruct a as [|x a _] using rev_ind; [done|].
  rewrite removelast_last. set_solver.
Qed.

Lemma spec_lookup_elem (key : K) (a : list (K * V)) v :
  spec_lookup key a = Some v → (key, v) ∈ a.
Proof.
  unfold spec_lookup. destruct (filter _ a) as [|[k w] r] eqn:E; cbn; [done|]. intros [= ->].
  assert ((k, v) ∈ filter (λ e : K * V, e.1 = key) a) as [Hk Hin]%list_elem_of_filter
    by (rewrite E; by left). cbn in Hk. by subst.
Qed.

#[global] Instance sharding_cache : Cache K V (ShardingLruCache K V) := λ key fn_once c,
  match sharding_get_or_insert hash key fn_once c with
  | Some (Ok (r, c')) => (r, c')
  | Some (Err e) => (Err e, c)
  | _ => (Panic, c)
  end.

Definition sharding_coherent (load : K → KernelResult V) c : Prop :=
  sharding_inv (λ k v, load k = Ok v) c.

Lemma sharding_get_or_insert_transparent load c key fn_once :
  sharding_coherent load c → fn_once key = load key →
  ∃ c', sharding_get_or_insert hash key fn_once c = Some (Ok (load key, c')) ∧
    sharding_coherent load c'.
Proof.
  intros Hc Hf. unfold sharding_get_or_insert.
  destruct (with_shard_inv (λ k v, load k = Ok v) key c (lru_get_or_insert key fn_once)
    (λ cap, spec_get_or_insert cap key fn_once) Hc) as (cap & a & c' & -> & HP & Hc').
  - intros lru a Hr. destruct (lru_get_or_insert_refines _ _ key fn_once Hr) as (lru' & ? & ? & _).
    by exists lru'.
  - intros cap a HP e. unfold spec_get_or_insert.
    destruct (spec_lookup key a) as [v|] eqn:E; [|destruct (fn_once key) as [v|x|] eqn:Ef]; cbn.
    + intros [->|He]%elem_of_cons; [cbn; by apply (HP (key, v)), spec_lookup_elem|].
      by eapply HP, spec_delete_subset.
    + intros [->|He]%elem_of_cons; [cbn; congruence|]. by eapply HP, spec_evict_subset.
    + by apply HP.
    + by apply HP.
  - exists c'. split; [|done]. do 3 f_equal. unfold spec_get_or_insert.
    destruct (spec_lookup key a) as [v|] eqn:E; cbn.
    + symmetry. by apply (HP (key, v)), spec_lookup_elem.
    + rewrite Hf. by destruct (load key).
Qed.

#[global] Program Instance sharding_cache_laws : CacheLaws K V (ShardingLruCache K V) :=
  {| cache_coherent := sharding_coherent |}.
Next Obligation.
  intros load c key fn_once Hc Hf.
  destruct (sharding_get_or_insert_transparent load c key fn_once Hc Hf) as (c' & E & Hc').
  exists c'. unfold cache_get_or_insert, sharding_cache. by rewrite E.
Qed.
(** A call of [get_or_insert], its result after those of the calls before it. *)
Definition sharding_call (st : list (KernelResult V) * ShardingLruCache K V)
    (call : K * (K → KernelResult V)) : KernelResult (list (KernelResult V) * ShardingLruCache K V) :=
  match sharding_get_or_insert hash call.1 call.2 st.2 with
  | Some (Ok (r, c')) => Ok (st.1 ++ [r], c')
  | _ => Panic
  end.

Lemma sharding_calls_acc load calls :
  Forall (λ call : K * (K → KernelResult V), call.2 call.1 = load call.1) calls →
  ∀ c acc, sharding_coherent load c →
  ∃ c', res_foldM sharding_call (acc, c) calls
        = Ok (acc ++ ((λ call : K * (K → KernelResult V), load call.1) <$> calls), c').
Proof.
  induction 1 as [|[k f] calls Hk _ IH]; intros c acc Hc; cbn [res_foldM].
  - exists c. by rewrite app_nil_r.
  - cbn [fst snd] in *. unfold sharding_call at 1. cbn [fst snd].
    destruct (sharding_get_or_insert_transparent load c k f Hc Hk) as (c1 & -> & Hc1).
    cbn [res_bind]. destruct (IH c1 (acc ++ [load k]) Hc1) as (c' & ->). exists c'.
    by rewrite <- app_assoc.
Qed.
End sharding_laws.

(** ** Properties *)

(** C28: however many entries are put, looked up, removed and loaded, in any order, the
    linked list of raw pointers never follows a dangling pointer, gives the results of
    the list of entries kept from the most to the least recently used, holds at most its
    capacity and iterates over exactly those entries. *)
Theorem lru_refines_list {K V} `{Countable K} (cap : nat) (cmds : list (LruCmd K V)) :
  0 < cap →
  ∃ c c', lru_new cap = Ok c ∧ lru_run cmds c = Some ((spec_run cap cmds []).1, c') ∧
    lru_len c' = length (spec_run cap cmds []).2 ∧ lru_len c' ≤ cap ∧
    ∃ out, lru_iter c' = Some out ∧ out ≡ₚ (spec_run cap cmds []).2.
Proof.
  intros Hcap. destruct (lru_new_refines (K:=K) (V:=V) cap Hcap) as (c & Hnew & Hr & Hc).
  destruct (lru_run_refines cmds _ _ Hr) as (c' & Hrun & Hr' & Hc'). rewrite Hc in *.
  exists c, c'. split_and!; [done..| | |by apply lru_iter_refines].
  - destruct Hr' as (l & Hok & <- & _). unfold lru_len. by rewrite (lru_ok_size _ _ Hok), length_fmap.
  - destruct Hr' as (l & Hok & Hl & _ & Hle). unfold lru_len.
    rewrite (lru_ok_size _ _ Hok), <- (length_fmap snd l), Hl. by rewrite Hc' in Hle.
Qed.

(** Dropping a cache frees exactly the nodes it still links: a node that was evicted
    to make room stays allocated for ever. *)
Theorem lru_drop_leaks {K V} `{Countable K} (c : LruCache K V) a :
  lru_refines c a →
  ∃ c', lru_drop c = Some c' ∧
    ∀ p, is_Some (lc_heap c' !! p) ↔ is_Some (lc_heap c !! p) ∧ ∀ k, lc_inner c !! k ≠ Some p.
Proof. apply lru_drop_spec. Qed.

(** C29: a sharded cache filled through [get_or_insert] by loaders that agree with one
    function is transparent: every call returns what that function gives for the key,
    errors included, whatever was cached, moved or evicted before. *)
Theorem sharding_transparent {K V} `{Countable K} (hash : K → N) load cap n
    (c : ShardingLruCache K V) (calls : list (K * (K → KernelResult V))) :
  sharding_new cap n = Ok c → Forall (λ call, call.2 call.1 = load call.1) calls →
  ∃ c', res_foldM (sharding_call hash) ([], c) calls
        = Ok ((λ call, load call.1) <$> calls, c').
Proof.
  intros Hnew Hcalls. apply (sharding_calls_acc hash load calls Hcalls c []).
  by eapply sharding_new_inv.
Qed.

(** ** Concrete caches *)

Module LruSample.

Definition cmds : list (LruCmd nat nat) :=
  [CmdPut 1 10; CmdPut 2 20; CmdGet 1; CmdPut 3 30; CmdGet 2;
   CmdGetOrInsert 4 (λ k, Ok (k * 10)); CmdRemove 3; CmdPut 1 11; CmdGetOrInsert 5 (λ _, Err DataEmpty)].

Lemma lru_refines_list_witness :
  ∃ c c' : LruCache nat nat, lru_new 2 = Ok c ∧
    lru_run cmds c
    = Some ([OutOption None; OutOption None; OutOption (Some 10); OutOption None; OutOption None;
             OutResult (Ok 40); OutOption (Some 30); OutOption None; OutResult (Err DataEmpty)], c') ∧
    lru_len c' = 2.
Proof.
  destruct (lru_refines_list 2 cmds ltac:(lia)) as (c & c' & Hn & Hr & Hl & _).
  exists c, c'. split; [exact Hn|]. split; [exact Hr|exact Hl].
Defined.

(** Two entries in a cache of capacity one: the node of the first is still there after
    the drop. *)
Lemma lru_drop_leaks_witness :
  ∃ c c' : LruCache nat nat,
    (∃ o, lru_run [CmdPut 1 10; CmdPut 2 20] (mkLruCache None None ∅ 1 ∅ 0) = Some (o, c)) ∧
    lru_drop c = Some c' ∧ is_Some (lc_heap c' !! 0).
Proof.
  destruct (lru_new_refines (K:=nat) (V:=nat) 1 ltac:(lia)) as (c0 & Hn & Hr0 & _).
  injection Hn as <-.
  destruct (lru_run_refines [CmdPut 1 10; CmdPut 2 20] _ _ Hr0) as (c & Hrun & Hr & _).
  destruct (lru_drop_leaks c _ Hr) as (c' & Hd & Hh). exists c, c'.
  split; [eexists; exact Hrun|]. split; [exact Hd|]. apply Hh.
  vm_compute in Hrun. injection Hrun as <-. split; [by eexists|].
  intros k Hk. assert (({[2 := 1]} : gmap nat nat) !! k = Some 0) as E by exact Hk.
  apply lookup_singleton_Some in E as [_ E]. discriminate E.
Defined.

Lemma sharding_transparent_witness :
  ∃ c c' : ShardingLruCache nat nat, sharding_new 4 2 = Ok c ∧
    res_foldM (sharding_call N.of_nat) ([], c) [(1, λ k, Ok (k * 10)); (3, λ _, Err DataEmpty)]
    = Ok ([Ok 10; Err DataEmpty], c').
Proof.
  destruct (sharding_new (K:=nat) (V:=nat) 4 2) as [c| |] eqn:E; [|discriminate E..].
  destruct (sharding_transparent N.of_nat (λ k, if decide (k = 1) then Ok 10 else Err DataEmpty)
    4 2 c [(1, λ k, Ok (k * 10)); (3, λ k, Err DataEmpty)] E) as (c' & Hc').
  { repeat constructor. }
  exists c, c'. split; [reflexivity|exact Hc'].
Defined.
End LruSample.
