(* ===== verification/Builder.v ===== *)
(** * What the block builder produces (src/kernel/lsm/table/ss_table/block.rs)

    The builder cuts sorted pairs into chunks, writes each chunk as a data block and
    one index block over them: every chunk can be read back at the place its index
    entry names, and the index leads a key to the one chunk that can hold it. *)

From S2P Require Import Prelude Std Crates Block.
From Stdlib Require Import ZArith Lia Strings.Byte Sorted.
From stdpp Require Import base list gmap.

Set Default Goal Selector "!".

Section builder_laws.
Context `{IE : IntegerEncoding} {CRC : Crc32} {LZ : Lz4} {IT : Itertools}.
Context {IEL : IntegerEncodingLaws} {ITL : ItertoolsLaws}.
Context (o : BlockOptions).

Abbreviation ri := (opt_data_restart_interval o).
Abbreviation ct := (opt_compress_type o).
Abbreviation Chunk := (list (bytes * Value)).

Definition chunk_key (ch : Chunk) : bytes := default [] (fst <$> last ch).
Definition chunk_block (ch : Chunk) : Block Value * bytes := (block_of ch ri, chunk_key ch).
Definition chunk_bytes (ch : Chunk) : bytes := block_encode (block_of ch ri) ct [].

(** ** Adding pairs *)

Record builder_ok (b : BlockBuilder) (kvs : Chunk) (chunks : list Chunk) : Prop := {
  bo_options : bb_options b = o;
  bo_kvs : kvs = concat chunks ++ buf_kvs (bb_buf b);
  bo_nonempty : Forall (λ ch, ch ≠ []) chunks;
  bo_blocks : bb_vec_block b = chunk_block <$> chunks;
  bo_len : bb_len b = length kvs;
}.

Lemma builder_flush_ok b kvs chunks :
  ri ≠ 0 → builder_ok b kvs chunks →
  ∃ b' chunks', builder_flush b = Ok b' ∧ builder_ok b' kvs chunks' ∧ buf_kvs (bb_buf b') = [].
Proof.
  intros Hri [Ho Hk Hne Hb Hl]. unfold builder_flush, block_buf_flush, block_buf_last_key.
  destruct (last (buf_kvs (bb_buf b))) as [kv|] eqn:E; cbn [fmap option_fmap option_map].
  - rewrite Ho, block_new_Ok by done. cbn [res_bind]. eexists _, (chunks ++ [buf_kvs (bb_buf b)]).
    split; [done|]. split; [|done]. split; cbn.
    + done.
    + rewrite concat_app. cbn. by rewrite !app_nil_r.
    + apply Forall_app. split; [done|]. constructor; [|constructor]. intros Hn. by rewrite Hn in E.
    + rewrite fmap_app, Hb. cbn. unfold chunk_block, chunk_key. by rewrite E.
    + done.
  - apply last_None in E. eexists _, chunks. split; [done|]. split; [|done]. split; cbn; try done.
    by rewrite Hk, E.
Qed.

Lemma builder_add_ok b kvs chunks kv :
  ri ≠ 0 → builder_ok b kvs chunks → ksorted (kvs ++ [kv]) →
  ∃ b' chunks', builder_add b kv = Ok b' ∧ builder_ok b' (kvs ++ [kv]) chunks'.
Proof.
  intros Hri [Ho Hk Hne Hb Hl] Hs. unfold builder_add, block_buf_add, block_buf_last_key.
  assert (match fst <$> last (buf_kvs (bb_buf b)) with Some k => lt_b k kv.1 | None => true end = true)
    as ->.
  { destruct (last (buf_kvs (bb_buf b))) as [kv0|] eqn:E; cbn; [|done].
    apply last_Some in E as [l' E]. apply ksorted_app in Hs as (_ & _ & Hlt). apply lt_b_true.
    apply (Hlt kv0 kv); [|set_solver]. rewrite Hk, E. set_solver. }
  cbn [res_bind]. match goal with |- context [is_out_of_byte ?b1] => set (b1' := b1) end.
  assert (builder_ok b1' (kvs ++ [kv]) chunks) as Hok1.
  { split; cbn; try done.
    - by rewrite Hk, app_assoc.
    - by rewrite Hl, length_app. }
  destruct (is_out_of_byte b1').
  - destruct (builder_flush_ok _ _ _ Hri Hok1) as (b' & chunks' & -> & Hok' & _). by exists b', chunks'.
  - by exists b1', chunks.
Qed.

Lemma builder_adds_ok b kvs chunks new :
  ri ≠ 0 → builder_ok b kvs chunks → ksorted (kvs ++ new) →
  ∃ b' chunks', res_foldM builder_add b new = Ok b' ∧ builder_ok b' (kvs ++ new) chunks'.
Proof.
  intros Hri. revert b kvs chunks. induction new as [|kv new IH]; intros b kvs chunks Hok Hs; cbn [res_foldM].
  { exists b, chunks. by rewrite app_nil_r. }
  rewrite cons_middle, app_assoc in Hs.
  destruct (builder_add_ok b kvs chunks kv Hri Hok) as (b1 & chunks1 & -> & Hok1).
  { by apply ksorted_app in Hs as (? & _ & _). }
  cbn [res_bind]. destruct (IH b1 _ chunks1 Hok1 Hs) as (b' & chunks' & -> & Hok').
  exists b', chunks'. by rewrite <- app_assoc in Hok'.
Qed.

Lemma builder_new_ok : builder_ok (block_builder_new o) [] [].
Proof. split; cbn; try done. Qed.

(** ** The index *)

Fixpoint chunk_index (off : nat) (chunks : list Chunk) : list (bytes * Index) :=
  match chunks with
  | [] => []
  | ch :: chunks' =>
      (chunk_key ch, {| i_offset := Z.of_nat off; i_len := length (chunk_bytes ch) |})
        :: chunk_index (off + length (chunk_bytes ch)) chunks'
  end.

Definition data_bytes (chunks : list Chunk) : bytes := concat (chunk_bytes <$> chunks).

Lemma index_fold_ok chunks : ∀ bs idx,
  (Z.of_nat (length bs + length (data_bytes chunks)) < 2 ^ 32)%Z →
  res_foldM (builder_index_step ct) (bs, Z.of_nat (length bs), idx) (chunk_block <$> chunks)
  = Ok (bs ++ data_bytes chunks, Z.of_nat (length bs + length (data_bytes chunks)),
        idx ++ chunk_index (length bs) chunks).
Proof.
  induction chunks as [|ch chunks IH]; intros bs idx Hfit.
  { cbn. by rewrite !app_nil_r, Nat.add_0_r. }
  rewrite fmap_cons. cbn [res_foldM]. unfold data_bytes in *. rewrite fmap_cons in *. cbn [concat] in *.
  unfold builder_index_step at 1. cbn [fst snd chunk_block].
  rewrite block_encode_app. fold (chunk_bytes ch). unfold usize_sub.
  rewrite Nat2Z.id, decide_True by (rewrite length_app; lia). cbn [res_bind].
  rewrite !length_app in *. replace (length bs + length (chunk_bytes ch) - length bs)
    with (length (chunk_bytes ch)) by lia.
  unfold u32_add. rewrite as_u32_small by (unfold fits_u32; lia).
  rewrite decide_True by lia. cbn [res_bind].
  replace (Z.of_nat (length bs) + Z.of_nat (length (chunk_bytes ch)))%Z
    with (Z.of_nat (length (bs ++ chunk_bytes ch))) by (rewrite length_app; lia).
  rewrite IH by (rewrite length_app; lia). rewrite !length_app, <- !app_assoc. do 3 f_equal.
  f_equal. lia.
Qed.

Lemma chunk_index_lookup off chunks j :
  chunk_index off chunks !! j
  = (λ ch, (chunk_key ch, {| i_offset := Z.of_nat (off + length (data_bytes (take j chunks)));
                             i_len := length (chunk_bytes ch) |})) <$> chunks !! j.
Proof.
  revert off j. induction chunks as [|ch chunks IH]; intros off [|j]; cbn [chunk_index lookup list_lookup];
    try done.
  - cbn. by rewrite Nat.add_0_r.
  - rewrite IH. destruct (chunks !! j); cbn; [|done]. do 3 f_equal. unfold data_bytes.
    cbn. rewrite length_app. lia.
Qed.

Lemma chunk_index_length off chunks : length (chunk_index off chunks) = length chunks.
Proof. revert off. induction chunks as [|ch chunks IH]; intros off; cbn; [done|]. by rewrite IH. Qed.

Lemma data_bytes_app c1 c2 : data_bytes (c1 ++ c2) = data_bytes c1 ++ data_bytes c2.
Proof. unfold data_bytes. by rewrite fmap_app, concat_app. Qed.

Lemma data_bytes_split chunks j ch :
  chunks !! j = Some ch →
  data_bytes chunks = data_bytes (take j chunks) ++ chunk_bytes ch ++ data_bytes (drop (S j) chunks).
Proof. intros Hj. rewrite <- (take_drop_middle _ _ _ Hj) at 1. by rewrite data_bytes_app. Qed.

(** The bytes of a chunk at the place its index entry names. *)
Lemma chunk_located chunks j ch rest :
  chunks !! j = Some ch →
  ∃ r, drop (length (data_bytes (take j chunks))) (data_bytes chunks ++ rest) = chunk_bytes ch ++ r.
Proof.
  intros Hj. rewrite (data_bytes_split _ _ _ Hj), <- app_assoc, drop_app_length, <- app_assoc.
  by eexists.
Qed.

(** *** Keys lead to their chunk *)

Lemma chunk_key_in ch : ch ≠ [] → ∃ v, (chunk_key ch, v) ∈ ch.
Proof.
  intros Hne. destruct ch as [|kv ch _] using rev_ind; [done|]. unfold chunk_key.
  rewrite last_snoc. exists kv.2. cbn. destruct kv. set_solver.
Qed.

Lemma chunk_key_max ch kv : ksorted ch → kv ∈ ch → le_b kv.1 (chunk_key ch) = true.
Proof.
  intros Hs Hin. destruct ch as [|kv0 ch _] using rev_ind; [set_solver|].
  unfold chunk_key. rewrite last_snoc. cbn. apply ksorted_app in Hs as (_ & _ & Hlt).
  apply elem_of_app in Hin as [Hin|Hin]; [apply cmp_lt_le, Hlt; set_solver|].
  assert (kv = kv0) as -> by set_solver. apply le_b_refl.
Qed.

Lemma concat_sorted_inv (chunks : list Chunk) i j ch ch' kv kv' :
  ksorted (concat chunks) → chunks !! i = Some ch → chunks !! j = Some ch' →
  kv ∈ ch → kv' ∈ ch' → i < j → kv_lt kv kv'.
Proof.
  revert i j. induction chunks as [|c chunks IH]; intros i j Hs Hi Hj Hk Hk' Hij; [done|].
  cbn in Hs. apply ksorted_app in Hs as (_ & Hs & Hlt).
  destruct j as [|j]; [lia|]. destruct i as [|i]; simplify_eq/=.
  - apply Hlt; [done|]. apply elem_of_concat. exists ch'. split; [by eapply list_elem_of_lookup_2|done].
  - eapply (IH i j); eauto with lia.
Qed.

Lemma chunk_sorted (chunks : list Chunk) j ch :
  ksorted (concat chunks) → chunks !! j = Some ch → ksorted ch.
Proof.
  intros Hs Hj. rewrite <- (take_drop_middle _ _ _ Hj), concat_app in Hs.
  apply ksorted_app in Hs as (_ & Hs & _). cbn in Hs. by apply ksorted_app in Hs as (? & _ & _).
Qed.

Lemma chunk_index_sorted off chunks :
  ksorted (concat chunks) → Forall (λ ch, ch ≠ []) chunks → ksorted (chunk_index off chunks).
Proof.
  revert off. induction chunks as [|ch chunks IH]; intros off Hs Hne; [constructor|].
  cbn [chunk_index]. apply Forall_cons in Hne as [Hch Hne].
  apply ksorted_cons; [apply IH; [|done]|].
  - cbn in Hs. by apply ksorted_app in Hs as (_ & ? & _).
  - intros [k idx] (j & Hj)%list_elem_of_lookup. rewrite chunk_index_lookup in Hj.
    destruct (chunks !! j) as [ch'|] eqn:E; [|done]. injection Hj as <- _. unfold kv_lt. cbn.
    destruct (chunk_key_in ch Hch) as [v Hv].
    assert (ch' ≠ []) as Hch' by (eapply (Forall_lookup_1 _ _ _ _ Hne E)).
    destruct (chunk_key_in ch' Hch') as [v' Hv'].
    apply (concat_sorted_inv (ch :: chunks) 0 (S j) ch ch' _ _ Hs eq_refl E Hv Hv'). lia.
Qed.

(** The chunk the index leads to decides the lookup. *)
Lemma chunk_get chunks key j ch off :
  ksorted (concat chunks) → Forall (λ ch, ch ≠ []) chunks → chunks !! j = Some ch →
  j = min (length chunks - 1) (rank key (chunk_index off chunks)) →
  btree_get key (concat chunks) = btree_get key ch.
Proof.
  intros Hs Hne Hj Hidx. pose proof (chunk_sorted _ _ _ Hs Hj) as Hch.
  assert (∀ v, (key, v) ∈ concat chunks ↔ (key, v) ∈ ch) as Hin.
  { intros v. rewrite elem_of_concat. split.
    - intros (ch' & (i & Hi)%list_elem_of_lookup & Hv).
      assert (i = j) as ->; [|congruence].
      pose proof (lookup_lt_Some _ _ _ Hi) as Hlen.
      assert (rank key (chunk_index off chunks) ≤ i) as Hge.
      { destruct (decide (rank key (chunk_index off chunks) ≤ i)) as [|Hlt]; [done|]. exfalso.
        assert (chunk_index off chunks !! i
          = Some (chunk_key ch', {| i_offset := Z.of_nat (off + length (data_bytes (take i chunks)));
                                    i_len := length (chunk_bytes ch') |})) as Hki.
        { by rewrite chunk_index_lookup, Hi. }
        pose proof (rank_spec key _ i _ (chunk_index_sorted off chunks Hs Hne) Hki) as Hr. cbn in Hr.
        assert (cmp (chunk_key ch') key = Lt) as Hcl by (apply Hr; lia).
        pose proof (chunk_key_max ch' (key, v) (chunk_sorted _ _ _ Hs Hi) Hv) as Hle. cbn in Hle.
        apply (cmp_lt_irrefl key). by eapply cmp_le_lt_trans. }
      destruct (decide (i = rank key (chunk_index off chunks))) as [->|Hne']; [lia|]. exfalso.
      assert (j < i) as Hji by lia.
      assert (cmp (chunk_key ch) key ≠ Lt) as Hnlt.
      { intros Hlt. assert (chunk_index off chunks !! j
          = Some (chunk_key ch, {| i_offset := Z.of_nat (off + length (data_bytes (take j chunks)));
                                   i_len := length (chunk_bytes ch) |})) as Hkj.
        { by rewrite chunk_index_lookup, Hj. }
        apply (rank_spec key _ j _ (chunk_index_sorted off chunks Hs Hne) Hkj) in Hlt. lia. }
      destruct (chunk_key_in ch) as [w Hw]; [by apply (Forall_lookup_1 _ _ _ _ Hne Hj)|].
      apply Hnlt. exact (concat_sorted_inv _ _ _ _ _ _ _ Hs Hj Hi Hw Hv Hji).
    - intros Hv. exists ch. split; [by eapply list_elem_of_lookup_2|done]. }
  apply option_eq. intros v. by rewrite !btree_get_Some.
Qed.
End builder_laws.

(** ** What is stored of the pairs

    The builder writes the same bytes whether a value is present and empty or absent. *)

Section stored.
Context `{IE : IntegerEncoding} {CRC : Crc32} {LZ : Lz4} {IT : Itertools}.
Context {IEL : IntegerEncodingLaws} {ITL : ItertoolsLaws}.

(** A block and what is stored of it, under the same key. *)
Definition block_sim (ri : nat) (bk bk' : Block Value * bytes) : Prop :=
  bk.2 = bk'.2 ∧ ∃ ch, Forall (λ kv, value_made kv.2) ch ∧
    bk.1 = block_of ch ri ∧ bk'.1 = block_of (map_items stored_value ch) ri.

Record builder_sim (b b' : BlockBuilder) : Prop := {
  bs_options : bb_options b' = bb_options b;
  bs_interval : opt_data_restart_interval (bb_options b) ≠ 0;
  bs_len : bb_len b' = bb_len b;
  bs_size : buf_bytes_size (bb_buf b') = buf_bytes_size (bb_buf b);
  bs_kvs : buf_kvs (bb_buf b') = map_items stored_value (buf_kvs (bb_buf b));
  bs_made : Forall (λ kv, value_made kv.2) (buf_kvs (bb_buf b));
  bs_blocks : Forall2 (block_sim (opt_data_restart_interval (bb_options b))) (bb_vec_block b) (bb_vec_block b');
}.

(** Results that are related when both succeed, and fail alike. *)
Definition res_sim {A} (R : A → A → Prop) (r r' : KernelResult A) : Prop :=
  match r, r' with
  | Ok a, Ok a' => R a a'
  | Err e, Err e' => e = e'
  | Panic, Panic => True
  | _, _ => False
  end.

Lemma res_sim_bind {A B} (R : A → A → Prop) (R' : B → B → Prop) r r' (f f' : A → KernelResult B) :
  res_sim R r r' → (∀ a a', R a a' → res_sim R' (f a) (f' a')) → res_sim R' (res_bind r f) (res_bind r' f').
Proof. destruct r, r'; cbn; intros; subst; done || by auto. Qed.

Lemma buf_last_key_sim b b' : builder_sim b b' → block_buf_last_key (bb_buf b') = block_buf_last_key (bb_buf b).
Proof.
  intros Hs. unfold block_buf_last_key, map_items. rewrite (bs_kvs _ _ Hs). unfold map_items.
  rewrite fmap_last. by destruct (last _).
Qed.

Lemma builder_flush_sim b b' : builder_sim b b' → res_sim builder_sim (builder_flush b) (builder_flush b').
Proof.
  intros Hs. pose proof (buf_last_key_sim b b' Hs) as Hlast. destruct Hs as [Ho Hri Hl Hz Hk Hm Hb].
  unfold builder_flush, block_buf_flush. rewrite Hlast. destruct (block_buf_last_key (bb_buf b)) as [k|].
  - rewrite Ho, !block_new_Ok by done. cbn [res_bind res_sim]. split; cbn; try done.
    apply Forall2_app; [done|]. apply Forall2_cons. split; [|done]. split; [done|]. eexists. by rewrite Hk.
  - by split.
Qed.

Lemma builder_add_sim b b' kv :
  value_made kv.2 → builder_sim b b' →
  res_sim builder_sim (builder_add b kv) (builder_add b' (prod_map id stored_value kv)).
Proof.
  intros Hv Hs. pose proof (buf_last_key_sim b b' Hs) as Hlast. pose proof Hs as [Ho Hri Hl Hz Hk Hm Hb].
  unfold builder_add, block_buf_add. rewrite Hlast. change (prod_map id stored_value kv).1 with kv.1.
  destruct (match block_buf_last_key (bb_buf b) with Some k => _ | None => _ end); [|done]. cbn [res_bind].
  assert (value_bytes_len (prod_map id stored_value kv) = value_bytes_len kv) as Hlen.
  { destruct kv as [k [n [[|x v]|]]]; done. }
  match goal with |- res_sim _ (if is_out_of_byte ?b1 then _ else _) (if is_out_of_byte ?b2 then _ else _) =>
    assert (builder_sim b1 b2) as Hs1 end.
  { split; cbn; try done.
    - by rewrite Hl.
    - by rewrite Hz, Hlen.
    - rewrite Hk. unfold map_items. by rewrite fmap_app.
    - apply Forall_app. split; [done|by apply Forall_singleton]. }
  unfold is_out_of_byte. rewrite (bs_options _ _ Hs1), (bs_size _ _ Hs1).
  case_bool_decide; [by apply builder_flush_sim|done].
Qed.

(** The bytes are the same. *)
Lemma builder_build_sim b b' : builder_sim b b' → builder_build b' = builder_build b.
Proof.
  intros Hs. unfold builder_build. pose proof (builder_flush_sim b b' Hs) as Hf.
  destruct (builder_flush b) as [c|e|], (builder_flush b') as [c'|e'|]; try done; [|by cbn in *; subst].
  cbn [res_sim res_bind] in *. destruct Hf as [Ho _ _ _ _ _ Hb]. rewrite Ho.
  assert (∀ st, res_foldM (builder_index_step (opt_compress_type (bb_options c))) st (bb_vec_block c')
              = res_foldM (builder_index_step (opt_compress_type (bb_options c))) st (bb_vec_block c)) as ->; [|done].
  induction Hb as [|bk bk' bks bks' (Hk & ch & Hm & E & E') _ IH]; intros st; [done|]. cbn [res_foldM].
  assert (builder_index_step (opt_compress_type (bb_options c)) st bk'
        = builder_index_step (opt_compress_type (bb_options c)) st bk) as ->.
  { destruct st as [[bs off] idx]. unfold builder_index_step. by rewrite Hk, E, E', block_encode_stored. }
  destruct (builder_index_step _ st bk); [apply IH|done..].
Qed.

Lemma builder_new_sim o : opt_data_restart_interval o ≠ 0 → builder_sim (block_builder_new o) (block_builder_new o).
Proof. intros Hri. by split. Qed.
End stored.
