(* ===== verification/MemTable.v ===== *)
(** * The memory table (src/kernel/lsm/mem_table.rs, trigger.rs)

    Versions of every key, ordered by key and sequence number, in a mutable and an
    immutable skip map; the write-ahead log that backs them; the trigger that says when
    they are due for a flush.  The methods take the table's lock for their whole body,
    so each is one step on the table's state. *)

From S2P Require Import Prelude Std Crates Block Iterator Io Log Config.
From Stdlib Require Import ZArith Lia Strings.Byte Sorted.
From stdpp Require Import base list gmap sorting strings.

Set Default Goal Selector "!".

Definition SEQ_MAX : Z := 2 ^ 63 - 1.
Definition SEQ_MIN : Z := - 2 ^ 63.

Definition key_value_bytes_len (kv : KeyValue) : nat :=
  length kv.1 + match kv.2 with Some v => length v | None => 0 end.

(** ** Triggers *)

Record CountTrigger := mkCountTrigger {
  item_count : N;
  ct_threshold : N;
}.

Record SizeOfMemTrigger := mkSizeOfMemTrigger {
  size_of_mem : N;
  st_threshold : N;
}.

(** [Box<dyn Trigger>] *)
Inductive Trigger : Type :=
  | TCount (t : CountTrigger)
  | TSize (t : SizeOfMemTrigger).

Definition item_process (t : Trigger) (kv : KeyValue) : Trigger :=
  match t with
  | TCount c => TCount {| item_count := item_count c + 1; ct_threshold := ct_threshold c |}
  | TSize s => TSize {| size_of_mem := size_of_mem s + N.of_nat (key_value_bytes_len kv);
                        st_threshold := st_threshold s |}
  end.

Definition is_exceeded (t : Trigger) : bool :=
  match t with
  | TCount c => bool_decide (ct_threshold c ≤ item_count c)%N
  | TSize s => bool_decide (st_threshold s ≤ size_of_mem s)%N
  end.

Definition trigger_reset (t : Trigger) : Trigger :=
  match t with
  | TCount c => TCount {| item_count := 0; ct_threshold := ct_threshold c |}
  | TSize s => TSize {| size_of_mem := 0; st_threshold := st_threshold s |}
  end.

Definition trigger_create (tt : TriggerType) (threshold : N) : Trigger :=
  match tt with
  | TriggerCount => TCount {| item_count := 0; ct_threshold := threshold |}
  | TriggerSizeOfMem => TSize {| size_of_mem := 0; st_threshold := threshold |}
  end.

(** ** Internal keys *)

Record InternalKey := mkInternalKey {
  ikey : bytes;
  seq_id : Z;
}.

#[global] Instance internal_key_ord : Ord InternalKey :=
  λ a b, then_with (cmp (ikey a) (ikey b)) (cmp (seq_id a) (seq_id b)).

#[global] Instance internal_key_ord_laws : OrdLaws InternalKey.
Proof.
  assert (∀ a b : InternalKey, cmp a b = cmp (ikey a, seq_id a) (ikey b, seq_id b)) as E by done.
  split.
  - intros [k s] [k' s'] Hc. rewrite E in Hc. apply cmp_eq_iff in Hc. by simplify_eq/=.
  - intros a b. rewrite !E. apply cmp_antisym.
  - intros a b c. rewrite !E. apply cmp_lt_trans.
Qed.

Definition internal_key_new (key : bytes) (c : Counters) : InternalKey * Counters :=
  let '(s, c') := seq_create c in ({| ikey := key; seq_id := s |}, c').

Definition new_with_seq (key : bytes) (s : Z) : InternalKey := {| ikey := key; seq_id := s |}.

(** Equations between versions. *)
Ltac simplify_ik := unfold new_with_seq in *; simplify_eq/=.

Abbreviation Versions := (list (InternalKey * option bytes)).

Section mem_table.
Context {SM : SkipMapOps InternalKey (option bytes)}.
Context `{IE : IntegerEncoding} {CRC : Crc32} {IT : Itertools}.

Abbreviation MemMap := (skipmap InternalKey (option bytes)).

(** ** The iterator over a memory map *)

Record MemMapIter := mkMemMapIter {
  mi_map : MemMap;
  mi_prev_item : option KeyValue;
  mi_iter : option Versions;
}.

Definition mem_map_iter_new (m : MemMap) : MemMapIter :=
  {| mi_map := m; mi_prev_item := None; mi_iter := Some (sm_iter m) |}.

(** The [for] loop of [try_next]: the item to return, the one kept, the rest. *)
Fixpoint mem_iter_loop (l : Versions) (prev : option KeyValue)
    : option KeyValue * option KeyValue * Versions :=
  match l with
  | [] => (prev, None, [])
  | (k, value) :: l' =>
      match prev with
      | Some p => if decide (ikey k ≠ p.1) then (Some p, Some (ikey k, value), l')
                  else mem_iter_loop l' (Some (ikey k, value))
      | None => mem_iter_loop l' (Some (ikey k, value))
      end
  end.

Definition mem_map_iter_try_next (it : MemMapIter) : KernelResult (option KeyValue * MemMapIter) :=
  match mi_iter it with
  | Some l =>
      let '(item, prev, rest) := mem_iter_loop l (mi_prev_item it) in
      Ok (item, {| mi_map := mi_map it; mi_prev_item := prev; mi_iter := Some rest |})
  | None => Ok (None, it)
  end.

#[global] Instance mem_map_iter : Iter MemMapIter KeyValue := {
  try_next := mem_map_iter_try_next;
  is_valid _ := true;
}.

Definition mem_map_iter_seek (s : Seek) (it : MemMapIter) : KernelResult MemMapIter :=
  Ok {| mi_map := mi_map it; mi_prev_item := None;
        mi_iter := match s with
                   | SeekFirst => Some (sm_iter (mi_map it))
                   | SeekLast => None
                   | SeekBackward key =>
                       Some (sm_range (Included (new_with_seq key 0)) Unbounded (mi_map it))
                   end |}.

#[global] Instance mem_map_iter_seek_iter : SeekIter MemMapIter KeyValue := mem_map_iter_seek.

(** ** The table *)

(** [ti_wal] holds the log files other than the current one, [ti_log_writer] the current
    one with its generation. *)
Record TableInner := mkTableInner {
  ti_mem : MemMap;
  ti_immut : option MemMap;
  ti_wal : Dir;
  ti_log_writer : LogWriter * Z;
  ti_trigger : Trigger;
}.

Record MemTable := mkMemTable {
  mt_inner : TableInner;
  tx_count : nat;
}.

Definition data_to_bytes (data : KeyValue) : bytes :=
  entry_encode (entry_new 0 (length data.1) data.1 (value_from data.2)) [].

(** *** Recovery *)

(** What [new] does with a record of the log. *)
Definition decode_wal_record (bs : bytes) (records : Versions) : KernelResult Versions :=
  let? entries := batch_decode (T:=Value) bs in
  Ok (records ++ ((λ ie : nat * Entry Value, (new_with_seq (e_key ie.2) 0, v_bytes (e_item ie.2)))
                    <$> entries)).

Definition sorted_gen_list (d : Dir) : list Z := merge_sort Z.le (map_to_list d).*1.

(** [LogLoader::_reload]: the newest log, or a new one; a generation is always drawn. *)
Definition log_reload_gen (d : Dir) (name : option Z) (c : Counters) : Z * Counters :=
  let '(fresh, c') := gen_create c in
  (default fresh (match name with Some g => Some g | None => last (sorted_gen_list d) end), c').

(** [LogLoader::writer]: the file, created when missing, from its start.  The content of the
    sink is the file once the writer is flushed; [log_on_disk] says which bytes of it are on
    disk before that, for a direct and for a buffered writer. *)
Definition log_loader_writer (d : Dir) (gen : Z) : LogWriter :=
  log_writer_new {| sk_content := file_content d gen; sk_pos := 0 |}.

(** The log is delivered in one piece; [log_records_load] shows that the pieces do not
    matter.  [None]: the recovery does not return. *)
Definition mem_table_new (cfg : Config) (d : Dir) (c : Counters)
    : option (KernelResult (MemTable * Counters)) :=
  let '(log_gen, c1) := log_reload_gen d None c in
  match log_load (one_chunk (file_content d log_gen)) decode_wal_record [] with
  | None => None
  | Some (Err e) => Some (Err e)
  | Some Panic => Some Panic
  | Some (Ok log_records) =>
      let '(ttype, threshold) := cfg_minor_trigger_with_threshold cfg in
      Some (Ok ({| mt_inner :=
                     {| ti_mem := sm_from_iter log_records;
                        ti_immut := None;
                        ti_wal := delete log_gen d;
                        ti_log_writer := (log_loader_writer d log_gen, log_gen);
                        ti_trigger := trigger_create ttype threshold |};
                   tx_count := 0 |}, c1))
  end.

(** *** Writes *)

Definition set_inner (t : MemTable) (i : TableInner) : MemTable :=
  {| mt_inner := i; tx_count := tx_count t |}.

Definition insert_data (t : MemTable) (data : KeyValue) (c : Counters)
    : KernelResult (bool * MemTable * Counters) :=
  let i := mt_inner t in
  let? (_, w) := add_record (ti_log_writer i).1 (data_to_bytes data) in
  let trigger := item_process (ti_trigger i) data in
  let '(k, c') := internal_key_new data.1 c in
  Ok (is_exceeded trigger,
      set_inner t {| ti_mem := sm_insert k data.2 (ti_mem i); ti_immut := ti_immut i;
                     ti_wal := ti_wal i; ti_log_writer := (w, (ti_log_writer i).2);
                     ti_trigger := trigger |}, c').

Definition insert_batch_step (s : Z) (st : MemMap * Trigger * bytes) (item : KeyValue)
    : MemMap * Trigger * bytes :=
  let '(m, trigger, buf) := st in
  (sm_insert (new_with_seq item.1 s) item.2 m, item_process trigger item,
   buf ++ data_to_bytes item).

Definition insert_batch_data (t : MemTable) (vec_data : list KeyValue) (s : Z)
    : KernelResult (bool * MemTable) :=
  let i := mt_inner t in
  let '(m, trigger, buf) := fold_left (insert_batch_step s) vec_data (ti_mem i, ti_trigger i, []) in
  let? (_, w) := add_record (ti_log_writer i).1 buf in
  Ok (is_exceeded trigger,
      set_inner t {| ti_mem := m; ti_immut := ti_immut i; ti_wal := ti_wal i;
                     ti_log_writer := (w, (ti_log_writer i).2); ti_trigger := trigger |}).

(** *** Reads *)

Definition check_key_conflict (t : MemTable) (kvs : list KeyValue) (s : Z) : bool :=
  existsb (λ kv : KeyValue,
    match sm_lower_bound (Excluded (new_with_seq kv.1 s)) (ti_mem (mt_inner t)) with
    | Some (k, _) => bool_decide (ikey k = kv.1)
    | None => false
    end) kvs.

Definition find_ (k : InternalKey) (m : MemMap) : option KeyValue :=
  match sm_upper_bound (Included k) m with
  | Some (upper, value) => if decide (ikey k = ikey upper) then Some (ikey k, value) else None
  | None => None
  end.

Definition find_with_sequence_id (t : MemTable) (key : bytes) (s : Z) : option KeyValue :=
  let k := new_with_seq key s in
  match find_ k (ti_mem (mt_inner t)) with
  | Some kv => Some kv
  | None => match ti_immut (mt_inner t) with
            | Some m => find_ k m
            | None => None
            end
  end.

Definition mem_find (t : MemTable) (key : bytes) : option KeyValue :=
  let k := new_with_seq key SEQ_MAX in
  match find_ k (ti_mem (mt_inner t)) with
  | Some kv => Some kv
  | None => match ti_immut (mt_inner t) with
            | Some m => find_ k m
            | None => None
            end
  end.

Definition mem_is_empty (t : MemTable) : bool := sm_is_empty (ti_mem (mt_inner t)).
Definition mem_len (t : MemTable) : nat := sm_len (ti_mem (mt_inner t)).

(** *** Swap *)

(** [None]: a transaction is alive and [swap] spins. *)
Definition swap (t : MemTable) (c : Counters)
    : option (option (Z * list KeyValue) * MemTable * Counters) :=
  if decide (tx_count t ≠ 0) then None
  else
    let i := mt_inner t in
    if sm_is_empty (ti_mem i) then Some (None, t, c)
    else
      let vec_data :=
        reverse (unique_by fst (reverse ((λ e : InternalKey * option bytes, (ikey e.1, e.2))
                                           <$> sm_iter (ti_mem i)))) in
      let '(new_gen, c') := gen_create c in
      let '(old_writer, old_gen) := ti_log_writer i in
      let wal := <[old_gen := sk_content (lw_dst old_writer)]> (ti_wal i) in
      Some (Some (old_gen, vec_data),
            set_inner t {| ti_mem := sm_new; ti_immut := Some (ti_mem i); ti_wal := wal;
                           ti_log_writer := (log_loader_writer wal new_gen, new_gen);
                           ti_trigger := trigger_reset (ti_trigger i) |}, c').

(** *** Range scans *)

Definition duplicates_push (results : list KeyValue) (kv : KeyValue) : list KeyValue :=
  if decide (fst <$> last results = Some kv.1) then results else results ++ [kv].

Definition to_internal_key (b : Bound bytes) (included excluded : Z) : Bound InternalKey :=
  bound_map (λ key, new_with_seq key
    match b with Included _ => included | _ => excluded end) b.

(** [option_seq.map_or(true, |current_seq| &current_seq >= seq_id)] *)
Definition seq_visible (option_seq : option Z) (s : Z) : bool :=
  match option_seq with Some current => bool_decide (s ≤ current)%Z | None => true end.

(** [range_iter!]: the versions in range, newest first, down to a sequence number. *)
Definition range_iter (m : MemMap) (min_key max_key : Bound InternalKey) (option_seq : option Z)
    : list KeyValue :=
  (λ e : InternalKey * option bytes, (ikey e.1, e.2)) <$>
    filter (λ e : InternalKey * option bytes, seq_visible option_seq (seq_id e.1) = true)
      (reverse (sm_range min_key max_key m)).

(** The [while] loop, then what is left of the two iterators. *)
Fixpoint scan_merge (fuel : nat) (mem immut merged : list KeyValue) : list KeyValue :=
  match fuel, mem, immut with
  | S fuel', x :: mem', y :: immut' =>
      match cmp x.1 y.1 with
      | Gt => scan_merge fuel' mem' immut (duplicates_push merged x)
      | Lt => scan_merge fuel' mem immut' (duplicates_push merged y)
      | Eq => scan_merge fuel' mem' immut' (duplicates_push merged x)
      end
  | _, _, _ =>
      let merged1 := fold_left duplicates_push (take 1 mem) merged in
      let merged2 := fold_left duplicates_push (take 1 immut) merged1 in
      fold_left duplicates_push (drop 1 mem ++ drop 1 immut) merged2
  end.

Definition is_sorted_by_key (l : list KeyValue) : bool :=
  forallb (λ p : KeyValue * KeyValue, le_b p.1.1 p.2.1) (combine l (tail l)).

Definition range_scan (t : MemTable) (lo hi : Bound bytes) (option_seq : option Z)
    : KernelResult (list KeyValue) :=
  let i := mt_inner t in
  let min_key := to_internal_key lo SEQ_MIN SEQ_MAX in
  let max_key := to_internal_key hi SEQ_MAX SEQ_MIN in
  let mem := range_iter (ti_mem i) min_key max_key option_seq in
  let merged :=
    match ti_immut i with
    | Some immut =>
        let imm := range_iter immut min_key max_key option_seq in
        scan_merge (length mem + length imm) mem imm []
    | None => fold_left duplicates_push mem []
    end in
  let result := reverse merged in
  if is_sorted_by_key result && bool_decide (NoDup result) then Ok result else Panic.
End mem_table.
Arguments MemTable {_}.
Arguments TableInner {_}.
Arguments MemMapIter {_}.

(** ** What is visible

    The value of the greatest version of a key among those whose sequence number is
    visible; the abstract view of a memory map. *)

Definition visible (l : Versions) (k : bytes) (P : Z → bool) : option (option bytes) :=
  snd <$> last (filter (λ e : InternalKey * option bytes, ikey e.1 = k ∧ P (seq_id e.1) = true) l).

Definition up_to (s : Z) : Z → bool := λ s', bool_decide (s' ≤ s)%Z.

Lemma ik_cmp_lt a b :
  cmp a b = Lt ↔ cmp (ikey a) (ikey b) = Lt ∨ (ikey a = ikey b ∧ (seq_id a < seq_id b)%Z).
Proof.
  unfold cmp at 1, internal_key_ord. destruct (cmp (ikey a) (ikey b)) eqn:E; simpl.
  - apply cmp_eq_iff in E. rewrite E. unfold cmp at 1, Z_ord. rewrite Z.compare_lt_iff.
    split; [auto|]. intros [Hc|[_ ?]]; [done|done].
  - split; [auto|done].
  - split; [done|]. intros [?|[Heq _]]; [done|]. rewrite Heq, cmp_refl in E. done.
Qed.

Lemma ik_le a b :
  le_b a b = true ↔ cmp (ikey a) (ikey b) = Lt ∨ (ikey a = ikey b ∧ (seq_id a ≤ seq_id b)%Z).
Proof.
  rewrite le_b_true, ik_cmp_lt. split.
  - intros [[?|[? ?]]| ->]; [by left|right; split; [done|lia]|right; split; [done|lia]].
  - intros [?|[Heq Hle]]; [by left; left|].
    destruct (decide (seq_id a = seq_id b)) as [Hs|Hs].
    + right. destruct a, b; simpl in *; congruence.
    + left. right. split; [done|lia].
Qed.

Lemma visible_Some l k P v :
  ksorted l →
  visible l k P = Some v ↔
  ∃ s, (new_with_seq k s, v) ∈ l ∧ P s = true ∧
       ∀ s' v', (new_with_seq k s', v') ∈ l → P s' = true → (s' ≤ s)%Z.
Proof.
  intros Hs. unfold visible. split.
  - intros ([[k0 s] v0] & Hlast & Hv)%fmap_Some. simpl in Hv. subst v0.
    apply last_filter_ksorted in Hlast as (Hin & [Hk HP] & Hmax); [|done]. simpl in *. subst k0.
    exists s. split_and!; [done..|]. intros s' v' Hin' HP'.
    destruct (Hmax _ Hin' (conj eq_refl HP')) as [?|Hlt]; [simplify_ik; lia|].
    unfold kv_lt in Hlt. rewrite ik_cmp_lt in Hlt. simpl in Hlt.
    destruct Hlt as [Hc|[_ ?]]; [by rewrite cmp_refl in Hc|lia].
  - intros (s & Hin & HP & Hmax).
    rewrite (proj2 (last_filter_ksorted _ l (new_with_seq k s, v) Hs)); [done|].
    split; [done|]. split; [done|]. intros [[k' s'] v'] Hin' [Hk' HP']. simpl in Hk', HP'. subst k'.
    specialize (Hmax s' v' Hin' HP'). destruct (decide (s' = s)) as [->|Hne].
    + left. f_equal. eapply (ksorted_functional l); done.
    + right. unfold kv_lt. apply ik_cmp_lt. right. simpl. split; [done|lia].
Qed.

Lemma visible_None l k P :
  visible l k P = None ↔ ∀ s v, (new_with_seq k s, v) ∈ l → P s = false.
Proof.
  unfold visible. rewrite fmap_None, last_None. split.
  - intros Hnil s v Hin. destruct (P s) eqn:HP; [|done]. exfalso.
    eapply filter_nil_not_elem_of; [done| |done]. done.
  - intros Hall. apply filter_none. intros [[k' s] v] Hin [Hk HP]. simpl in *. subst k'.
    rewrite (Hall s v) in HP by done. done.
Qed.

(** Lists with the same versions of a key among those looked at. *)
Lemma visible_agree l l' k P :
  ksorted l → ksorted l' →
  (∀ s v, P s = true → (new_with_seq k s, v) ∈ l' ↔ (new_with_seq k s, v) ∈ l) →
  visible l' k P = visible l k P.
Proof.
  intros Hl Hl' Hiff. destruct (visible l k P) as [v|] eqn:E.
  - apply visible_Some in E as (s & Hin & HP & Hmax); [|done]. apply visible_Some; [done|].
    exists s. rewrite Hiff by done. split_and!; [done..|]. intros s' v' Hin' HP'. by eapply Hmax; [apply Hiff|].
  - rewrite visible_None in E |- *. intros s v Hin. destruct (P s) eqn:HP; [|done].
    rewrite <- HP. eapply E. by apply Hiff.
Qed.

(** A version that is at least as new as every other version of its key. *)
Lemma visible_insert l k s v k' P :
  ksorted l → (∀ s' v', (new_with_seq k s', v') ∈ l → (s' ≤ s)%Z) →
  visible (btree_insert (new_with_seq k s) v l) k' P
  = if decide (k' = k ∧ P s = true) then Some v else visible l k' P.
Proof.
  intros Hl Hnew. pose proof (btree_insert_sorted (new_with_seq k s) v l Hl) as Hl'.
  destruct (decide (k' = k ∧ P s = true)) as [[-> HP]|Hno].
  - apply visible_Some; [done|]. exists s. rewrite btree_insert_elem by done.
    split_and!; [by left|done|]. intros s' v'. rewrite btree_insert_elem by done.
    intros [?|[Hin _]] _; [simplify_ik; lia|eauto].
  - destruct (visible l k' P) as [v0|] eqn:E.
    + apply visible_Some in E as (s0 & Hin & HP0 & Hmax); [|done].
      apply visible_Some; [done|]. exists s0. rewrite btree_insert_elem by done. split_and!.
      * right. split; [done|]. simpl. unfold new_with_seq. intros ?; simplify_eq. naive_solver.
      * done.
      * intros s' v'. rewrite btree_insert_elem by done. intros [?|[Hin' _]] HP'; [|eauto].
        unfold new_with_seq in *. simplify_eq. naive_solver.
    + apply visible_None. intros s0 v0. rewrite btree_insert_elem by done.
      rewrite visible_None in E. intros [?|[Hin _]]; [|eauto].
      unfold new_with_seq in *. simplify_eq. destruct (P s) eqn:HP; [|done]. naive_solver.
Qed.

(** ** The newest versions, as a map *)

Definition user_kv (e : InternalKey * option bytes) : KeyValue := (ikey e.1, e.2).

Definition latest (l : Versions) : list KeyValue := btree_from_iter (user_kv <$> l).

Lemma latest_get l k : btree_get k (latest l) = visible l k (λ _, true).
Proof.
  unfold latest, visible. rewrite btree_get_from_iter, filter_fmap, fmap_last.
  rewrite (list_filter_iff _ (λ e : InternalKey * option bytes, ikey e.1 = k ∧ true = true))
    by naive_solver.
  by destruct (last _) as [[? ?]|].
Qed.

Section mem_laws.
Context {SM : SkipMapOps InternalKey (option bytes)} {SML : SkipMapLaws InternalKey (option bytes)}.
Context `{IE : IntegerEncoding} {CRC : Crc32} {IT : Itertools}.

(** Looking up a key at a sequence number. *)
Lemma find__visible k s m :
  find_ (new_with_seq k s) m = (λ v, (k, v)) <$> visible (sm_iter m) k (up_to s).
Proof.
  pose proof (sm_iter_sorted m) as Hs. unfold find_. rewrite sm_upper_bound_spec.
  destruct (last (filter _ (sm_iter m))) as [[[uk us] v]|] eqn:E.
  - apply last_filter_ksorted in E as (Hin & Hbelow & Hmax); [|done].
    cbn [below fst] in Hbelow. apply ik_le in Hbelow. cbn [ikey seq_id new_with_seq] in Hbelow.
    cbn [ikey new_with_seq]. destruct (decide (k = uk)) as [<-|Hne].
    + rewrite (proj2 (visible_Some _ k (up_to s) v Hs)); [done|]. exists us.
      split_and!; [done| |].
      * unfold up_to. apply bool_decide_eq_true. destruct Hbelow as [Hc|[_ ?]]; [|done].
        by rewrite cmp_refl in Hc.
      * intros s' v' Hin' Hle'%bool_decide_eq_true.
        destruct (Hmax _ Hin') as [?|Hlt]; [apply ik_le; by right|simplify_ik; lia|].
        unfold kv_lt in Hlt. rewrite ik_cmp_lt in Hlt. simpl in Hlt.
        destruct Hlt as [Hc|[_ ?]]; [by rewrite cmp_refl in Hc|lia].
    + rewrite (proj2 (visible_None _ k (up_to s))); [done|]. intros s' v' Hin'.
      apply not_true_iff_false. intros Hle'%bool_decide_eq_true.
      destruct Hbelow as [Hlt|[? _]]; [|done].
      destruct (Hmax _ Hin') as [?|Hlt']; [apply ik_le; by right|by simplify_ik|].
      unfold kv_lt in Hlt'. rewrite ik_cmp_lt in Hlt'. simpl in Hlt'.
      destruct Hlt' as [Hc|[? _]]; [|done].
      apply (cmp_lt_irrefl k). by eapply cmp_lt_trans.
  - rewrite (proj2 (visible_None _ k (up_to s))); [done|]. intros s' v' Hin'.
    apply not_true_iff_false. intros Hle'%bool_decide_eq_true.
    apply last_None in E. refine (filter_nil_not_elem_of _ _ _ E _ Hin').
    apply ik_le. by right.
Qed.

(** The view of the whole table: the mutable map first. *)
Definition table_view (t : MemTable) (k : bytes) (P : Z → bool) : option (option bytes) :=
  match visible (sm_iter (ti_mem (mt_inner t))) k P with
  | Some v => Some v
  | None => match ti_immut (mt_inner t) with
            | Some m => visible (sm_iter m) k P
            | None => None
            end
  end.

Lemma find_with_sequence_id_view t k s :
  find_with_sequence_id t k s = (λ v, (k, v)) <$> table_view t k (up_to s).
Proof.
  unfold find_with_sequence_id, table_view. rewrite find__visible.
  destruct (visible _ k (up_to s)); [done|]. simpl.
  destruct (ti_immut (mt_inner t)); [apply find__visible|done].
Qed.

Lemma mem_find_view t k : mem_find t k = (λ v, (k, v)) <$> table_view t k (up_to SEQ_MAX).
Proof. apply find_with_sequence_id_view. Qed.

(** Every version is older than the counter, and the counter is a proper [i64]. *)
Record mem_wf (t : MemTable) (c : Counters) : Prop := {
  wf_mem k s v : (new_with_seq k s, v) ∈ sm_iter (ti_mem (mt_inner t)) → (0 ≤ s < seq_count c)%Z;
  wf_immut m k s v : ti_immut (mt_inner t) = Some m → (new_with_seq k s, v) ∈ sm_iter m →
                     (0 ≤ s < seq_count c)%Z;
  wf_seq : (0 ≤ seq_count c ≤ SEQ_MAX)%Z;
  wf_log : log_ok (ti_log_writer (mt_inner t)).1;
}.

(** A bound above every version hides nothing. *)
Lemma visible_all (l : Versions) k n :
  (∀ s v, (new_with_seq k s, v) ∈ l → (s ≤ n)%Z) → visible l k (up_to n) = visible l k (λ _, true).
Proof.
  intros Hl. unfold visible. do 2 f_equal. apply filter_iff_in. intros [[k' s] v] Hin. cbn.
  split; [naive_solver|]. intros [-> _]. split; [done|]. apply bool_decide_eq_true.
  by apply (Hl s v).
Qed.

Lemma table_view_bound t c k n :
  mem_wf t c → (seq_count c ≤ n + 1)%Z → table_view t k (up_to n) = table_view t k (λ _, true).
Proof.
  intros [Hm Hi _ _] Hn. unfold table_view.
  rewrite visible_all by (intros s v Hin; apply Hm in Hin; lia). destruct (visible _ k _); [done|].
  destruct (ti_immut (mt_inner t)) as [m|] eqn:E; [|done].
  apply visible_all. intros s v Hin. specialize (Hi m k s v eq_refl Hin). lia.
Qed.

Lemma check_key_conflict_spec t kvs s :
  check_key_conflict t kvs s = true ↔
  ∃ kv s' v, kv ∈ kvs ∧ (new_with_seq kv.1 s', v) ∈ sm_iter (ti_mem (mt_inner t)) ∧ (s < s')%Z.
Proof.
  set (m := ti_mem (mt_inner t)). pose proof (sm_iter_sorted m) as Hs.
  unfold check_key_conflict. fold m. rewrite existsb_exists. split.
  - intros ([key value] & Hin & Hc). apply list_elem_of_In in Hin.
    rewrite sm_lower_bound_spec in Hc.
    destruct (head _) as [[[k' s'] v']|] eqn:E; [|done]. apply bool_decide_eq_true in Hc.
    simpl in Hc. subst k'. apply head_filter_ksorted in E as (Hel & Habove & _); [|done].
    cbn [above fst] in Habove. apply lt_b_true, ik_cmp_lt in Habove. simpl in Habove.
    exists (key, value), s', v'. split_and!; [done..|].
    destruct Habove as [Hlt|[_ ?]]; [by rewrite cmp_refl in Hlt|done].
  - intros ([key value] & s' & v & Hin & Hel & Hlt). exists (key, value).
    split; [by apply list_elem_of_In|]. rewrite sm_lower_bound_spec. cbn [fst].
    assert (above (Excluded (new_with_seq key s)) (new_with_seq key s') = true) as Hab.
    { cbn [above]. apply lt_b_true, ik_cmp_lt. by right. }
    destruct (head _) as [[[k0 s0] v0]|] eqn:E.
    + apply head_filter_ksorted in E as (Hel0 & Hab0 & Hmin); [|done].
      apply bool_decide_eq_true. cbn [ikey].
      cbn [above fst] in Hab0. apply lt_b_true, ik_cmp_lt in Hab0. simpl in Hab0.
      destruct (Hmin _ Hel Hab) as [?|Hlt0]; [unfold new_with_seq in *; by simplify_eq/=|].
      unfold kv_lt in Hlt0. rewrite ik_cmp_lt in Hlt0. simpl in Hlt0.
      destruct Hlt0 as [Hc|[? _]]; [|done]. destruct Hab0 as [Hc'|[? _]]; [|done].
      exfalso. apply (cmp_lt_irrefl key). by eapply cmp_lt_trans.
    + apply head_None in E. exfalso. by refine (filter_nil_not_elem_of _ _ _ E _ Hel).
Qed.

Context {IEL : IntegerEncodingLaws}.

(** *** Single writes *)

(** What an insertion leaves alone. *)
Lemma insert_data_frame t data c exceeded t' c' :
  insert_data t data c = Ok (exceeded, t', c') →
  ti_immut (mt_inner t') = ti_immut (mt_inner t) ∧
  (ti_log_writer (mt_inner t')).2 = (ti_log_writer (mt_inner t)).2 ∧ gen_buf c' = gen_buf c ∧
  (∀ k s v, (new_with_seq k s, v) ∈ sm_iter (ti_mem (mt_inner t')) →
            k = data.1 ∧ s = seq_count c ∨ (new_with_seq k s, v) ∈ sm_iter (ti_mem (mt_inner t))) ∧
  (∀ k s v, (new_with_seq k s, v) ∈ sm_iter (ti_mem (mt_inner t)) → s ≠ seq_count c →
            (new_with_seq k s, v) ∈ sm_iter (ti_mem (mt_inner t'))) ∧
  (new_with_seq data.1 (seq_count c), data.2) ∈ sm_iter (ti_mem (mt_inner t')).
Proof.
  unfold insert_data. destruct (add_record _ _) as [[n w]| |]; [|done..]. cbn [res_bind internal_key_new seq_create].
  intros [= <- <- <-]. split_and!; try done; [intros k s v..|];
    cbn [mt_inner set_inner ti_mem]; rewrite sm_iter_insert, btree_insert_elem by apply sm_iter_sorted.
  - intros [E|[Hin _]]; [left|by right]. by simplify_ik.
  - intros Hin Hs. right. split; [done|]. intros E. unfold new_with_seq in E. by simplify_eq/=.
  - by left.
Qed.

Lemma insert_data_spec t data c :
  mem_wf t c → (seq_count c < SEQ_MAX)%Z →
  ∃ exceeded t' c', insert_data t data c = Ok (exceeded, t', c') ∧
    mem_wf t' c' ∧ seq_count c' = (seq_count c + 1)%Z ∧ tx_count t' = tx_count t ∧
    exceeded = is_exceeded (ti_trigger (mt_inner t')) ∧
    ∀ k P, table_view t' k P =
      if decide (k = data.1 ∧ P (seq_count c) = true) then Some data.2 else table_view t k P.
Proof.
  intros [Hmem Himm Hseq Hlog] Hmax. unfold insert_data.
  destruct (add_record_total _ (data_to_bytes data) Hlog) as (len & w & -> & Hw).
  cbn [res_bind internal_key_new seq_create]. eexists _, _, _. split; [done|].
  pose proof (sm_iter_sorted (ti_mem (mt_inner t))) as Hs. split_and!.
  - split; cbn [mt_inner set_inner ti_mem ti_immut ti_log_writer seq_count fst].
    + intros k s v. rewrite sm_iter_insert, btree_insert_elem by done.
      intros [?|[Hin _]]; [simplify_ik; lia|]. apply Hmem in Hin. lia.
    + intros m k s v Hm Hin. specialize (Himm m k s v Hm Hin). lia.
    + lia.
    + done.
  - done.
  - done.
  - done.
  - intros k P. unfold table_view. cbn [mt_inner set_inner ti_mem ti_immut].
    rewrite sm_iter_insert. change (mkInternalKey data.1 (seq_count c))
      with (new_with_seq data.1 (seq_count c)).
    rewrite visible_insert; [|done|intros s' v' Hin; apply Hmem in Hin; lia].
    by destruct (decide _).
Qed.

(** *** Batches *)

Definition batch_get (kvs : list KeyValue) (k : bytes) : option (option bytes) :=
  snd <$> last (filter (λ kv : KeyValue, kv.1 = k) kvs).

(** A batch whose number is at least as new as every version of its keys; the other keys
    may have newer versions. *)
Lemma insert_batch_fold s kvs m trigger buf :
  (∀ k s' v, k ∈ kvs.*1 → (new_with_seq k s', v) ∈ sm_iter m → (s' ≤ s)%Z) →
  ∃ m' trigger', fold_left (insert_batch_step s) kvs (m, trigger, buf)
      = (m', trigger', buf ++ concat (data_to_bytes <$> kvs)) ∧
    (∀ k s' v, (new_with_seq k s', v) ∈ sm_iter m' →
       (new_with_seq k s', v) ∈ sm_iter m ∨ s' = s) ∧
    ∀ k P, visible (sm_iter m') k P
      = match batch_get kvs k with
        | Some v => if P s then Some v else visible (sm_iter m) k P
        | None => visible (sm_iter m) k P
        end.
Proof.
  revert m trigger buf. induction kvs as [|[key v] kvs IH]; intros m trigger buf Hold.
  { exists m, trigger. cbn. rewrite app_nil_r. split_and!; [done|auto|done]. }
  pose proof (sm_iter_sorted m) as Hs. cbn [fold_left insert_batch_step fst snd].
  destruct (IH (sm_insert (new_with_seq key s) v m) (item_process trigger (key, v))
              (buf ++ data_to_bytes (key, v))) as (m' & trigger' & Hf & Hsub & Hvis).
  { intros k s' v' Hk. rewrite sm_iter_insert, btree_insert_elem by done.
    intros [?|[Hin _]]; [simplify_ik; lia|]. eapply Hold, Hin. by right. }
  exists m', trigger'. split_and!.
  - by rewrite Hf, <- app_assoc.
  - intros k s' v' Hin. destruct (Hsub k s' v' Hin) as [Hin'|]; [|by right].
    rewrite sm_iter_insert, btree_insert_elem in Hin' by done.
    destruct Hin' as [?|[? _]]; [right; by simplify_ik|by left].
  - intros k P. rewrite Hvis, sm_iter_insert, visible_insert;
      [|done|intros s' v' Hin; eapply Hold, Hin; by left].
    unfold batch_get. rewrite (filter_cons _ (key, v)). cbn [fst].
    destruct (decide (key = k)) as [->|Hne].
    + rewrite last_cons. destruct (last (filter _ kvs)) as [[? ?]|]; simpl;
        destruct (decide (k = k ∧ P s = true)) as [[_ ->]|Hno]; try done;
        destruct (P s); try done; naive_solver.
    + rewrite decide_False by naive_solver. done.
Qed.

(** What a batch leaves alone. *)
Lemma insert_batch_fold_frame s kvs m trigger buf m' trigger' buf' :
  fold_left (insert_batch_step s) kvs (m, trigger, buf) = (m', trigger', buf') →
  (∀ k s' v, (new_with_seq k s', v) ∈ sm_iter m' →
             k ∈ kvs.*1 ∧ s' = s ∨ (new_with_seq k s', v) ∈ sm_iter m) ∧
  (∀ k s' v, (new_with_seq k s', v) ∈ sm_iter m → s' ≠ s → (new_with_seq k s', v) ∈ sm_iter m') ∧
  (∀ k, k ∈ kvs.*1 ∨ (∃ v, (new_with_seq k s, v) ∈ sm_iter m) → ∃ v, (new_with_seq k s, v) ∈ sm_iter m').
Proof.
  revert m trigger buf. induction kvs as [|[key x] kvs IH]; intros m trigger buf; cbn [fold_left].
  { intros [= <- _ _]. split_and!; auto. intros k [[]%not_elem_of_nil|]; auto. }
  intros (Hin & Hkeep & Hnew)%IH. pose proof (sm_iter_sorted m) as Hs. cbn [fst fmap list_fmap] in *. split_and!.
  - intros k s' v [[Hk ->]|Hm]%Hin; [left; split; [by right|done]|].
    rewrite sm_iter_insert, btree_insert_elem in Hm by done.
    destruct Hm as [E|[Hm _]]; [left|by right]. simplify_ik. split; [by left|done].
  - intros k s' v Hm Hne. apply Hkeep; [|done]. rewrite sm_iter_insert, btree_insert_elem by done.
    right. split; [done|]. intros E. unfold new_with_seq in E. by simplify_eq/=.
  - intros k Hk. apply Hnew. rewrite elem_of_cons in Hk.
    destruct (decide (k = key)) as [->|Hne].
    { right. exists x. rewrite sm_iter_insert, btree_insert_elem by done. by left. }
    destruct Hk as [[?|?]|[v Hv]]; [done|by left|]. right. exists v.
    rewrite sm_iter_insert, btree_insert_elem by done. right. split; [done|].
    intros E. unfold new_with_seq in E. by simplify_eq/=.
Qed.

Lemma insert_batch_data_frame t kvs s exceeded t' :
  insert_batch_data t kvs s = Ok (exceeded, t') →
  ti_immut (mt_inner t') = ti_immut (mt_inner t) ∧
  (ti_log_writer (mt_inner t')).2 = (ti_log_writer (mt_inner t)).2 ∧
  (∀ k s' v, (new_with_seq k s', v) ∈ sm_iter (ti_mem (mt_inner t')) →
             k ∈ kvs.*1 ∧ s' = s ∨ (new_with_seq k s', v) ∈ sm_iter (ti_mem (mt_inner t))) ∧
  (∀ k s' v, (new_with_seq k s', v) ∈ sm_iter (ti_mem (mt_inner t)) → s' ≠ s →
             (new_with_seq k s', v) ∈ sm_iter (ti_mem (mt_inner t'))) ∧
  (∀ k, k ∈ kvs.*1 ∨ (∃ v, (new_with_seq k s, v) ∈ sm_iter (ti_mem (mt_inner t))) →
        ∃ v, (new_with_seq k s, v) ∈ sm_iter (ti_mem (mt_inner t'))).
Proof.
  unfold insert_batch_data. destruct (fold_left _ _ _) as [[m trigger] buf] eqn:E.
  destruct (add_record _ _) as [[n w]| |]; [|done..]. cbn [res_bind]. intros [= <- <-].
  cbn [mt_inner set_inner ti_mem ti_immut ti_log_writer snd].
  destruct (insert_batch_fold_frame _ _ _ _ _ _ _ _ E) as (Hin & Hkeep & Hnew).
  split_and!; try done.
Qed.

(** A batch always goes in, whatever its number, and what is read below the number stays. *)
Lemma insert_batch_data_total t kvs s c :
  mem_wf t c → (0 ≤ s < seq_count c)%Z →
  ∃ exceeded t', insert_batch_data t kvs s = Ok (exceeded, t') ∧ mem_wf t' c ∧
    tx_count t' = tx_count t ∧ ∀ k P, P s = false → table_view t' k P = table_view t k P.
Proof.
  intros [Hmem Himm Hseq Hlog] Hs.
  assert (∃ exceeded t', insert_batch_data t kvs s = Ok (exceeded, t') ∧ tx_count t' = tx_count t ∧
    log_ok (ti_log_writer (mt_inner t')).1) as (exceeded & t' & Hi & Htx & Hlog').
  { unfold insert_batch_data. destruct (fold_left _ _ _) as [[m' trigger'] buf].
    destruct (add_record_total _ buf Hlog) as (len & w & -> & Hw). by eexists _, _. }
  destruct (insert_batch_data_frame _ _ _ _ _ Hi) as (Himm' & _ & Hin & Hkeep & _).
  exists exceeded, t'. split_and!; [done| |done|].
  - split; [|by rewrite Himm'|done..].
    intros k s' v [[_ ->]|Hold]%Hin; [lia|by eapply Hmem].
  - intros k P HP. unfold table_view. rewrite Himm'.
    rewrite (visible_agree (sm_iter (ti_mem (mt_inner t))) (sm_iter (ti_mem (mt_inner t')))); try apply sm_iter_sorted; [done|].
    intros s' v HP'. assert (s' ≠ s) by congruence. split; [|by intros ?; apply Hkeep].
    by intros [[_ ?]|?]%Hin.
Qed.

Lemma insert_batch_data_spec t kvs s c :
  mem_wf t c → (∀ k s' v, k ∈ kvs.*1 → (new_with_seq k s', v) ∈ sm_iter (ti_mem (mt_inner t)) → (s' ≤ s)%Z) →
  (0 ≤ s < seq_count c)%Z →
  ∃ exceeded t', insert_batch_data t kvs s = Ok (exceeded, t') ∧ mem_wf t' c ∧
    tx_count t' = tx_count t ∧
    ∀ k P, table_view t' k P
      = match batch_get kvs k with
        | Some v => if P s then Some v else table_view t k P
        | None => table_view t k P
        end.
Proof.
  intros Hwf Hold Hs. destruct (insert_batch_data_total t kvs s c Hwf Hs) as (exceeded & t' & Hi & Hwf' & Htx & _).
  exists exceeded, t'. split_and!; try done. revert Hi. unfold insert_batch_data.
  destruct (insert_batch_fold s kvs (ti_mem (mt_inner t)) (ti_trigger (mt_inner t)) [] Hold)
    as (m' & trigger' & -> & _ & Hvis).
  destruct (add_record _ _) as [[len w]| |]; [|done..]. cbn [res_bind]. intros [= _ <-].
  intros k P. unfold table_view. cbn [mt_inner set_inner ti_mem ti_immut].
  rewrite Hvis. destruct (batch_get kvs k); [|done]. by destruct (P s).
Qed.

(** *** Swap *)

Context {ITL : ItertoolsLaws}.

Lemma unique_by_sorted {A B} `{EqDecision B} (f : A → B) (R : A → A → Prop) l :
  StronglySorted R l → StronglySorted R (unique_by f l).
Proof.
  induction 1 as [|x l Hl IH Hx]; [rewrite unique_by_nil; constructor|].
  rewrite unique_by_cons. constructor; [by apply StronglySorted_filter|].
  apply Forall_forall. intros y [_ Hy%unique_by_subset]%list_elem_of_filter.
  rewrite Forall_forall in Hx. by apply Hx.
Qed.

Lemma strict_of_distinct (l : list KeyValue) :
  StronglySorted (λ a b, le_b a.1 b.1 = true) l → NoDup l.*1 → ksorted l.
Proof. apply sorted_distinct_ksorted. Qed.

Lemma versions_sorted (l : Versions) :
  ksorted l → StronglySorted (λ a b, le_b a.1 b.1 = true) (user_kv <$> l).
Proof.
  induction l as [|e l IH]; intros Hs; [constructor|].
  apply ksorted_cons_inv in Hs as [Hs Hlt]. rewrite fmap_cons. constructor; [by apply IH|].
  apply Forall_forall. intros y (e' & -> & He')%list_elem_of_fmap.
  apply Hlt in He'. unfold kv_lt in He'. apply ik_cmp_lt in He'. simpl.
  apply le_b_true. destruct He' as [?|[? _]]; auto.
Qed.

(** The data a swap hands over is the newest version of every key, in order. *)
Lemma swap_data_latest (l : Versions) :
  ksorted l → reverse (unique_by fst (reverse (user_kv <$> l))) = latest l.
Proof.
  intros Hs. set (L := user_kv <$> l).
  assert (ksorted (reverse (unique_by fst (reverse L)))) as Hsorted.
  { apply strict_of_distinct.
    - apply (StronglySorted_impl (flip (flip (λ a b : KeyValue, le_b a.1 b.1 = true)))); [done|].
      apply StronglySorted_reverse, unique_by_sorted, StronglySorted_reverse, versions_sorted, Hs.
    - rewrite fmap_reverse, reverse_Permutation. apply unique_by_NoDup. }
  apply btree_get_ext; [done|apply btree_from_iter_sorted|]. intros k.
  unfold latest. fold L. rewrite btree_get_from_iter, btree_get_last by done.
  rewrite filter_reverse, last_reverse, unique_by_find, filter_reverse, head_reverse.
  by destruct (last _).
Qed.

Lemma swap_spec t c :
  tx_count t = 0 →
  if sm_is_empty (ti_mem (mt_inner t)) then swap t c = Some (None, t, c)
  else ∃ t' c', swap t c
      = Some (Some ((ti_log_writer (mt_inner t)).2, latest (sm_iter (ti_mem (mt_inner t)))), t', c') ∧
    seq_count c' = seq_count c ∧ gen_buf c' = (gen_buf c + 1)%Z ∧ tx_count t' = 0 ∧
    sm_iter (ti_mem (mt_inner t')) = [] ∧
    ti_immut (mt_inner t') = Some (ti_mem (mt_inner t)) ∧
    log_ok (ti_log_writer (mt_inner t')).1 ∧ (ti_log_writer (mt_inner t')).2 = gen_buf c.
Proof.
  intros Htx. unfold swap. rewrite decide_False by lia.
  destruct (sm_is_empty (ti_mem (mt_inner t))); [done|].
  destruct (ti_log_writer (mt_inner t)) as [w g]. cbn [gen_create].
  eexists _, _. split.
  { rewrite <- swap_data_latest by apply sm_iter_sorted. done. }
  split_and!; [done|done|done|apply sm_iter_new|done|apply log_writer_new_ok|done].
Qed.
End mem_laws.

(** *** Iteration *)

(** What the iterator produces from a kept item and the rest. *)
Fixpoint runs (p : KeyValue) (l : Versions) : list KeyValue :=
  match l with
  | [] => [p]
  | e :: l' => if decide (ikey e.1 ≠ p.1) then p :: runs (user_kv e) l' else runs (user_kv e) l'
  end.

Lemma runs_latest p l :
  StronglySorted (λ a b : KeyValue, le_b a.1 b.1 = true) (p :: (user_kv <$> l)) →
  runs p l = btree_from_iter (p :: (user_kv <$> l)).
Proof.
  assert (∀ p l, StronglySorted (λ a b : KeyValue, le_b a.1 b.1 = true) (p :: (user_kv <$> l)) →
    ksorted (runs p l) ∧ (∀ e, e ∈ runs p l → le_b p.1 e.1 = true) ∧
    ∀ k, last (filter (λ e : KeyValue, e.1 = k) (runs p l))
         = last (filter (λ e : KeyValue, e.1 = k) (p :: (user_kv <$> l)))) as Hruns.
  { clear. intros p l. revert p. induction l as [|e l IH]; intros p Hs.
    - cbn [runs fmap list_fmap]. split_and!; [by repeat constructor| |done].
      intros e ->%list_elem_of_singleton. apply le_b_refl.
    - apply StronglySorted_inv in Hs as [Hs Hp]. rewrite fmap_cons in Hs, Hp.
      destruct (IH (user_kv e) Hs) as (Hsr & Hge & Hlast).
      apply Forall_cons in Hp as [Hpe Hp]. cbn [runs].
      destruct (decide (ikey e.1 ≠ p.1)) as [Hne|Heq].
      + apply le_b_true in Hpe as [Hlt|Heq]; [|by destruct Hne].
        split_and!.
        * apply ksorted_cons; [done|]. intros x Hx. by eapply cmp_lt_le_trans, Hge.
        * intros x [->|Hx]%elem_of_cons; [apply le_b_refl|].
          apply cmp_lt_le. by eapply cmp_lt_le_trans, Hge.
        * intros k. rewrite fmap_cons, !(filter_cons _ p).
          destruct (decide (p.1 = k)); by rewrite ?last_cons, Hlast.
      + split_and!; [done| |].
        * intros x Hx. eapply le_b_trans; [done|by apply Hge].
        * intros k. rewrite fmap_cons, Hlast, (filter_cons _ p).
          destruct (decide (p.1 = k)) as [Hk|]; [|done].
          rewrite last_cons, filter_cons_True, last_cons; [by destruct (last _)|].
          simpl. destruct (decide (ikey e.1 = p.1)) as [->|]; [done|by destruct Heq]. }
  intros Hs. destruct (Hruns p l Hs) as (Hsr & _ & Hlast).
  apply btree_get_ext; [done|apply btree_from_iter_sorted|]. intros k.
  by rewrite btree_get_from_iter, btree_get_last, Hlast.
Qed.

Section mem_iter_laws.
Context {SM : SkipMapOps InternalKey (option bytes)} {SML : SkipMapLaws InternalKey (option bytes)}.

Lemma mem_iter_loop_runs l p :
  ∃ x prev rest, mem_iter_loop l (Some p) = (Some x, prev, rest) ∧
    match prev with
    | Some q => runs p l = x :: runs q rest ∧ length rest < length l
    | None => runs p l = [x] ∧ rest = []
    end.
Proof.
  revert p. induction l as [|[k v] l IH]; intros p; cbn [mem_iter_loop runs].
  - by eexists _, _, _.
  - cbn [fst]. destruct (decide (ikey k ≠ p.1)) as [Hne|Heq].
    + eexists _, _, _. split; [done|]. split; [done|simpl; lia].
    + destruct (IH (ikey k, v)) as (x & prev & rest & Hl & Hr).
      exists x, prev, rest. split; [done|]. destruct prev; [|done].
      destruct Hr as [Hr Hlen]. split; [done|simpl; lia].
Qed.

Lemma mem_map_iter_yields_prev m n l p :
  length l < n →
  iter_yields {| mi_map := m; mi_prev_item := Some p; mi_iter := Some l |} (runs p l).
Proof.
  revert l p. induction n as [|n IH]; intros l p Hn; [lia|].
  destruct (mem_iter_loop_runs l p) as (x & prev & rest & Hl & Hr).
  assert (try_next {| mi_map := m; mi_prev_item := Some p; mi_iter := Some l |}
    = Ok (Some x, {| mi_map := m; mi_prev_item := prev; mi_iter := Some rest |})) as Hnext.
  { unfold try_next, mem_map_iter, mem_map_iter_try_next. cbn [mi_iter mi_prev_item mi_map].
    by rewrite Hl. }
  destruct prev as [q|].
  - destruct Hr as [-> Hlen]. eexists. split; [exact Hnext|]. apply IH. lia.
  - destruct Hr as [-> ->]. eexists. split; [exact Hnext|]. by eexists.
Qed.

(** An iterator about to walk sorted versions yields the newest of every key. *)
Lemma mem_map_iter_yields m l :
  ksorted l →
  iter_yields {| mi_map := m; mi_prev_item := None; mi_iter := Some l |} (latest l).
Proof.
  intros Hs. destruct l as [|e l]; [by eexists|].
  assert (latest (e :: l) = runs (user_kv e) l) as ->.
  { unfold latest. rewrite fmap_cons. symmetry. apply runs_latest.
    rewrite <- fmap_cons. by apply versions_sorted. }
  pose proof (mem_map_iter_yields_prev m (S (length l)) l (user_kv e) ltac:(lia)) as Hy.
  destruct (mem_iter_loop_runs l (user_kv e)) as (x & prev & rest & Hl & Hr).
  destruct e as [k v]. 
  assert (∀ out, iter_yields {| mi_map := m; mi_prev_item := Some (user_kv (k, v)); mi_iter := Some l |} out →
    iter_yields {| mi_map := m; mi_prev_item := None; mi_iter := Some ((k, v) :: l) |} out) as Hsame.
  { intros [|y out]; done. }
  by apply Hsame.
Qed.

Lemma mem_map_iter_seek_yields (it : MemMapIter) s :
  (∀ k s' v, (new_with_seq k s', v) ∈ sm_iter (mi_map it) → (0 ≤ s')%Z) →
  ∃ it', seek s it = Ok it' ∧ iter_yields it' (seek_range s (latest (sm_iter (mi_map it)))).
Proof.
  intros Hpos. pose proof (sm_iter_sorted (mi_map it)) as Hs.
  eexists. split; [done|]. destruct s as [| |key].
  - by apply mem_map_iter_yields.
  - by eexists.
  - rewrite sm_range_spec. cbn [seek_range].
    replace (filter (λ e : KeyValue, le_b key e.1 = true) (latest (sm_iter (mi_map it))))
      with (latest (filter (λ e, in_range (Included (new_with_seq key 0)) Unbounded e.1 = true)
                      (sm_iter (mi_map it)))).
    { by apply mem_map_iter_yields, ksorted_filter. }
    apply btree_get_ext; [apply btree_from_iter_sorted|apply ksorted_filter, btree_from_iter_sorted|].
    intros k. pose proof (btree_get_filter (λ k, le_b key k = true) (latest (sm_iter (mi_map it))) k
      (btree_from_iter_sorted _)) as E.
    etransitivity; [|symmetry; exact E]. clear E.
    rewrite !latest_get. unfold visible. rewrite list_filter_filter.
    destruct (decide (le_b key k = true)) as [Hle|Hnle].
    + do 2 f_equal. apply filter_iff_in. intros [[k' s'] v'] Hin. simpl.
      split; [naive_solver|]. intros [-> _]. split; [done|].
      unfold in_range. rewrite andb_true_r. apply ik_le. simpl.
      apply le_b_true in Hle as [?| ->]; [by left|right]. split; [done|]. by eapply Hpos.
    + rewrite filter_none; [done|]. intros [[k' s'] v'] Hin [[Hk _] Hr]. apply Hnle.
      unfold in_range in Hr. rewrite andb_true_r in Hr. apply ik_le in Hr. simpl in Hr, Hk. subst k'.
      apply le_b_true. naive_solver.
Qed.
End mem_iter_laws.

(** *** Range scans *)

Definition first_of (k : bytes) (l : list KeyValue) : option (option bytes) :=
  snd <$> head (filter (λ e : KeyValue, e.1 = k) l).

(** Keys not increasing, keys strictly decreasing. *)
Definition desc (a b : KeyValue) : Prop := le_b b.1 a.1 = true.
Definition sdesc (a b : KeyValue) : Prop := cmp b.1 a.1 = Lt.

Lemma first_of_cons k x l :
  first_of k (x :: l) = if decide (x.1 = k) then Some x.2 else first_of k l.
Proof. unfold first_of. rewrite filter_cons. by destruct (decide (x.1 = k)). Qed.

Lemma first_of_app k l1 l2 :
  first_of k (l1 ++ l2) = match first_of k l1 with Some v => Some v | None => first_of k l2 end.
Proof.
  induction l1 as [|x l1 IH]; [done|]. rewrite <- app_comm_cons, !first_of_cons.
  by destruct (decide (x.1 = k)).
Qed.

Lemma first_of_above k l : (∀ x, x ∈ l → cmp x.1 k = Lt) → first_of k l = None.
Proof.
  intros Hl. unfold first_of. rewrite filter_none; [done|].
  intros x Hx Heq. apply Hl in Hx. rewrite Heq in Hx. by apply cmp_lt_irrefl in Hx.
Qed.

(** Pushing a run of non-increasing keys keeps the first of each key. *)
Lemma push_all_spec M acc :
  StronglySorted desc M → StronglySorted sdesc acc →
  (∀ x y, x ∈ acc → y ∈ M → desc x y) →
  StronglySorted sdesc (fold_left duplicates_push M acc) ∧
  ∀ k, first_of k (fold_left duplicates_push M acc)
       = match first_of k acc with Some v => Some v | None => first_of k M end.
Proof.
  revert acc. induction M as [|x M IH]; intros acc HM Hacc Hle.
  { cbn. split; [done|]. intros k. by destruct (first_of k acc). }
  apply StronglySorted_inv in HM as [HM Hx]. rewrite Forall_forall in Hx.
  cbn [fold_left]. unfold duplicates_push at 2 4.
  destruct (decide (fst <$> last acc = Some x.1)) as [Hdup|Hnew].
  - destruct (IH acc HM Hacc) as [Hs Hf].
    { intros a b Ha Hb. apply Hle; [done|by right]. }
    split; [done|]. intros k. rewrite Hf, first_of_cons.
    destruct (first_of k acc) eqn:E; [done|]. destruct (decide (x.1 = k)) as [<-|]; [|done].
    apply fmap_Some in Hdup as (a & Ha & Hk). exfalso. unfold first_of in E.
    apply last_Some_elem_of in Ha. rewrite fmap_None, head_None in E.
    by refine (filter_nil_not_elem_of _ _ _ E _ Ha).
  - destruct (IH (acc ++ [x]) HM) as [Hs Hf].
    + apply StronglySorted_app. split_and!; [|done|by repeat constructor].
      intros a b Ha ->%list_elem_of_singleton. unfold sdesc.
      destruct (last acc) as [z|] eqn:Ez.
      2: { apply last_None in Ez as ->. by apply not_elem_of_nil in Ha. }
      apply last_Some in Ez as (acc' & ->).
      assert (cmp x.1 z.1 = Lt) as Hxz.
      { pose proof (Hle z x ltac:(set_solver) ltac:(by left)) as H. unfold desc in H.
        apply le_b_true in H as [?|Heq]; [done|]. destruct Hnew. simpl. by rewrite Heq. }
      apply elem_of_app in Ha as [Ha| ->%list_elem_of_singleton]; [|done].
      apply StronglySorted_app in Hacc as (Hlt & _ & _).
      specialize (Hlt a z Ha ltac:(by left)). unfold sdesc in Hlt. by eapply cmp_lt_trans.
    + intros a b [Ha| ->%list_elem_of_singleton]%elem_of_app Hb; [apply Hle; [done|by right]|].
      by apply Hx.
    + split; [done|]. intros k. rewrite Hf, first_of_app, !first_of_cons.
      destruct (first_of k acc); [done|]. by destruct (decide (x.1 = k)).
Qed.

(** The merge of two descending runs, the first one winning. *)
Fixpoint merge_desc (fuel : nat) (mem immut : list KeyValue) : list KeyValue :=
  match fuel, mem, immut with
  | S fuel', x :: mem', y :: immut' =>
      match cmp x.1 y.1 with
      | Gt => x :: merge_desc fuel' mem' immut
      | Lt => y :: merge_desc fuel' mem immut'
      | Eq => x :: merge_desc fuel' mem' immut'
      end
  | _, _, _ => mem ++ immut
  end.

Lemma scan_merge_push fuel mem immut merged :
  length mem + length immut ≤ fuel →
  scan_merge fuel mem immut merged = fold_left duplicates_push (merge_desc fuel mem immut) merged.
Proof.
  revert mem immut merged. induction fuel as [|fuel IH]; intros mem immut merged Hf.
  - destruct mem, immut; [done|simpl in Hf; lia..].
  - destruct mem as [|x mem], immut as [|y immut]; cbn [scan_merge merge_desc]; simpl in Hf.
    + done.
    + simpl. by rewrite drop_0.
    + simpl. rewrite drop_0. done.
    + destruct (cmp x.1 y.1); cbn [fold_left]; apply IH; simpl; lia.
Qed.

Lemma merge_desc_spec fuel mem immut :
  length mem + length immut ≤ fuel → StronglySorted desc mem → StronglySorted desc immut →
  StronglySorted desc (merge_desc fuel mem immut) ∧
  (∀ x, x ∈ merge_desc fuel mem immut → x ∈ mem ∨ x ∈ immut) ∧
  ∀ k, first_of k (merge_desc fuel mem immut)
       = match first_of k mem with Some v => Some v | None => first_of k immut end.
Proof.
  revert mem immut. induction fuel as [|fuel IH]; intros mem immut Hf Hm Hi.
  { destruct mem, immut; [by split_and!; [constructor|set_solver|]|simpl in Hf; lia..]. }
  destruct mem as [|x mem], immut as [|y immut]; cbn [merge_desc]; simpl in Hf.
  - split_and!; [constructor|set_solver|done].
  - split_and!; [done|set_solver|done].
  - rewrite app_nil_r. split_and!; [done|set_solver|].
    intros k. by destruct (first_of k (x :: mem)).
  - pose proof Hm as [Hm' Hx]%StronglySorted_inv. pose proof Hi as [Hi' Hy]%StronglySorted_inv.
    rewrite Forall_forall in Hx, Hy. destruct (cmp x.1 y.1) eqn:E.
    + apply cmp_eq_iff in E. destruct (IH mem immut) as (Hs & Hin & Hfst); [lia|done..|].
      split_and!.
      * constructor; [done|]. apply Forall_forall. intros z [Hz|Hz]%Hin; [by apply Hx|].
        unfold desc. rewrite E. by apply Hy.
      * intros z [->|[Hz|Hz]%Hin]%elem_of_cons; set_solver.
      * intros k. rewrite !first_of_cons, Hfst, E. by destruct (decide (y.1 = k)).
    + destruct (IH (x :: mem) immut) as (Hs & Hin & Hfst); [simpl; lia|done..|].
      split_and!.
      * constructor; [done|]. apply Forall_forall. intros z [Hz|Hz]%Hin; [|by apply Hy].
        apply cmp_lt_le. apply elem_of_cons in Hz as [->|Hz]; [done|].
        by eapply cmp_le_lt_trans; [apply Hx|].
      * intros z [->|[Hz|Hz]%Hin]%elem_of_cons; set_solver.
      * intros k. rewrite (first_of_cons k y), Hfst, (first_of_cons k y).
        destruct (decide (y.1 = k)) as [<-|]; [|done].
        rewrite first_of_above; [done|]. intros z [->|Hz]%elem_of_cons; [done|].
        by eapply cmp_le_lt_trans; [apply Hx|].
    + apply cmp_gt_iff in E. destruct (IH mem (y :: immut)) as (Hs & Hin & Hfst); [simpl; lia|done..|].
      split_and!.
      * constructor; [done|]. apply Forall_forall. intros z [Hz|Hz]%Hin; [by apply Hx|].
        apply cmp_lt_le. apply elem_of_cons in Hz as [->|Hz]; [done|].
        by eapply cmp_le_lt_trans; [apply Hy|].
      * intros z [->|[Hz|Hz]%Hin]%elem_of_cons; set_solver.
      * intros k. rewrite !(first_of_cons k x), Hfst. by destruct (decide (x.1 = k)).
Qed.

Definition i64 (s : Z) : Prop := (SEQ_MIN ≤ s ≤ SEQ_MAX)%Z.

(** The bounds on internal keys select by user key alone. *)
Lemma internal_range lo hi k s :
  i64 s →
  in_range (to_internal_key lo SEQ_MIN SEQ_MAX) (to_internal_key hi SEQ_MAX SEQ_MIN)
           (new_with_seq k s) = in_range lo hi k.
Proof.
  intros [Hmin Hmax]. unfold in_range. f_equal.
  - destruct lo as [a|a|]; cbn [above to_internal_key bound_map]; [| |done]; apply eq_iff_eq_true.
    + rewrite ik_le, le_b_true. simpl. naive_solver.
    + rewrite !lt_b_true, ik_cmp_lt. simpl. split; [|by left]. intros [?|[_ ?]]; [done|lia].
  - destruct hi as [a|a|]; cbn [below to_internal_key bound_map]; [| |done]; apply eq_iff_eq_true.
    + rewrite ik_le, le_b_true. simpl. naive_solver.
    + rewrite !lt_b_true, ik_cmp_lt. simpl. split; [|by left]. intros [?|[_ ?]]; [done|lia].
Qed.

Section scan_laws.
Context {SM : SkipMapOps InternalKey (option bytes)} {SML : SkipMapLaws InternalKey (option bytes)}.

Lemma range_iter_desc m lo hi os : StronglySorted desc (range_iter m lo hi os).
Proof.
  unfold range_iter. rewrite sm_range_spec, filter_reverse, fmap_reverse.
  apply (StronglySorted_impl (flip (λ a b : KeyValue, le_b a.1 b.1 = true))); [done|].
  apply StronglySorted_reverse. apply versions_sorted. do 2 apply ksorted_filter. apply sm_iter_sorted.
Qed.

Lemma range_iter_first m lo hi os k :
  (∀ k s v, (new_with_seq k s, v) ∈ sm_iter m → i64 s) →
  first_of k (range_iter m (to_internal_key lo SEQ_MIN SEQ_MAX)
                (to_internal_key hi SEQ_MAX SEQ_MIN) os)
  = if in_range lo hi k then visible (sm_iter m) k (seq_visible os) else None.
Proof.
  intros Hi64. unfold range_iter, first_of, visible.
  rewrite sm_range_spec, filter_reverse, filter_fmap, filter_reverse, !list_filter_filter.
  rewrite fmap_reverse, head_reverse, fmap_last, <- option_fmap_compose.
  destruct (in_range lo hi k) eqn:E.
  - rewrite (filter_iff_in _ (λ e : InternalKey * option bytes,
      ikey e.1 = k ∧ seq_visible os (seq_id e.1) = true)); [done|].
    intros [[k' s'] v'] Hin. simpl. change (mkInternalKey k' s') with (new_with_seq k' s').
    rewrite internal_range by (by eapply Hi64). naive_solver.
  - rewrite filter_none; [done|]. intros [[k' s'] v'] Hin [[Hk _] Hr]. simpl in Hk, Hr. subst k'.
    change (mkInternalKey k s') with (new_with_seq k s') in Hr.
    rewrite internal_range in Hr by (by eapply Hi64). congruence.
Qed.

Lemma sdesc_reverse_ksorted (l : list KeyValue) : StronglySorted sdesc l → ksorted (reverse l).
Proof.
  intros Hs. apply (StronglySorted_impl (flip sdesc)); [done|]. by apply StronglySorted_reverse.
Qed.

Lemma ksorted_is_sorted_by_key (l : list KeyValue) : ksorted l → is_sorted_by_key l = true.
Proof.
  unfold is_sorted_by_key. induction l as [|x [|y l] IH]; intros Hs; [done|done|].
  apply ksorted_cons_inv in Hs as [Hs Hx]. simpl. apply andb_true_iff. split.
  - apply cmp_lt_le, (Hx y). by left.
  - by apply IH.
Qed.

(** The assertions at the end of a scan hold, and its result is the view of the table. *)
Lemma range_scan_spec t c lo hi os :
  mem_wf t c →
  ∃ out, range_scan t lo hi os = Ok out ∧ ksorted out ∧
    ∀ k, btree_get k out = if in_range lo hi k then table_view t k (seq_visible os) else None.
Proof.
  intros [Hmem Himm Hseq _].
  assert (∀ s, (0 ≤ s < seq_count c)%Z → i64 s) as Hi64.
  { intros s Hs. unfold i64, SEQ_MIN in *. lia. }
  unfold range_scan. set (merged := match ti_immut (mt_inner t) with Some _ => _ | None => _ end).
  assert (StronglySorted sdesc merged ∧ ∀ k, first_of k merged
    = if in_range lo hi k then table_view t k (seq_visible os) else None) as [Hs Hf].
  { subst merged. pose proof (range_iter_desc (ti_mem (mt_inner t))
      (to_internal_key lo SEQ_MIN SEQ_MAX) (to_internal_key hi SEQ_MAX SEQ_MIN) os) as Hd.
    unfold table_view. destruct (ti_immut (mt_inner t)) as [m|] eqn:Em.
    - pose proof (range_iter_desc m (to_internal_key lo SEQ_MIN SEQ_MAX)
        (to_internal_key hi SEQ_MAX SEQ_MIN) os) as Hd'.
      rewrite scan_merge_push by done.
      edestruct (merge_desc_spec _ _ _ (le_n _) Hd Hd') as (Hms & _ & Hmf).
      destruct (push_all_spec _ [] Hms ltac:(constructor)) as [Hps Hpf];
        [by intros ? ? ?%not_elem_of_nil|].
      split; [done|]. intros k. rewrite Hpf, Hmf. simpl.
      rewrite !range_iter_first by eauto. by destruct (in_range lo hi k).
    - destruct (push_all_spec _ [] Hd ltac:(constructor)) as [Hps Hpf];
        [by intros ? ? ?%not_elem_of_nil|].
      split; [done|]. intros k. rewrite Hpf. simpl. rewrite range_iter_first by eauto.
      destruct (in_range lo hi k); [|done]. by destruct (visible _ _ _). }
  pose proof (sdesc_reverse_ksorted _ Hs) as Hk.
  rewrite ksorted_is_sorted_by_key, bool_decide_eq_true_2 by
    (done || apply (NoDup_fmap_1 fst); by apply ksorted_NoDup).
  exists (reverse merged). split_and!; [done..|]. intros k.
  rewrite btree_get_last, filter_reverse, last_reverse by done. apply Hf.
Qed.
End scan_laws.

(** ** Recovery from the write-ahead log *)

Section recovery.
Context {SM : SkipMapOps InternalKey (option bytes)} {SML : SkipMapLaws InternalKey (option bytes)}.
Context `{IE : IntegerEncoding} {IEL : IntegerEncodingLaws} {CRC : Crc32} {CRCL : Crc32Laws}.

(** The files of the log directory once the current log is flushed. *)
Definition wal_files (t : MemTable) : Dir :=
  <[(ti_log_writer (mt_inner t)).2 := sk_content (lw_dst (ti_log_writer (mt_inner t)).1)]>
    (ti_wal (mt_inner t)).

(** One write: a single pair or a transaction's batch, with a fresh sequence number. *)
Inductive MemWrite : Type :=
  | WriteOne (kv : KeyValue)
  | WriteBatch (kvs : list KeyValue).

Definition write_pairs (w : MemWrite) : list KeyValue :=
  match w with WriteOne kv => [kv] | WriteBatch kvs => kvs end.

Definition mem_write (tc : MemTable * Counters) (w : MemWrite) : KernelResult (MemTable * Counters) :=
  match w with
  | WriteOne kv => let? (_, t, c) := insert_data tc.1 kv tc.2 in Ok (t, c)
  | WriteBatch kvs =>
      let '(s, c) := seq_create tc.2 in
      let? (_, t) := insert_batch_data tc.1 kvs s in Ok (t, c)
  end.

(** What the log can hold: lengths below 4 GiB and no present empty value. *)
Definition data_wf (kv : KeyValue) : Prop :=
  fits_u32 (length kv.1) ∧ value_wf (value_from kv.2).

Definition write_wf (w : MemWrite) : Prop :=
  write_pairs w ≠ [] ∧ Forall data_wf (write_pairs w).

Definition write_record (w : MemWrite) : bytes := concat (data_to_bytes <$> write_pairs w).

Lemma data_to_bytes_nonempty kv : data_to_bytes kv ≠ [].
Proof. apply entry_encode_nonempty. Qed.

Lemma write_record_nonempty w : write_wf w → write_record w ≠ [].
Proof.
  intros [Hne _]. unfold write_record. destruct (write_pairs w) as [|kv kvs]; [done|].
  simpl. intros [E _]%app_nil. by apply (data_to_bytes_nonempty kv).
Qed.

Lemma decode_write_record w records :
  write_wf w →
  decode_wal_record (write_record w) records
  = Ok (records ++ ((λ kv : KeyValue, (new_with_seq kv.1 0, kv.2)) <$> write_pairs w)).
Proof.
  intros [_ Hwf]. unfold decode_wal_record, write_record.
  set (ent := λ kv : KeyValue, entry_new 0 (length kv.1) kv.1 (value_from kv.2)).
  replace (concat (data_to_bytes <$> write_pairs w)) with (encode_entries (ent <$> write_pairs w))
    by (unfold encode_entries; by rewrite <- list_fmap_compose).
  rewrite batch_decode_encode.
  - cbn [res_bind]. do 2 f_equal. unfold enumerate.
    transitivity ((λ e : Entry Value, (new_with_seq (e_key e) 0, v_bytes (e_item e)))
                    <$> (enum_from 0 (ent <$> write_pairs w)).*2).
    { by rewrite <- list_fmap_compose. }
    by rewrite enum_from_snd, <- list_fmap_compose.
  - apply Forall_fmap. eapply Forall_impl; [done|]. intros kv [Hk Hv]. by split_and!.
Qed.

(** Writing from a table whose immutable map is empty: the log grows by one record, the
    view is overridden by the pairs written. *)
Lemma mem_write_spec t c w :
  mem_wf t c → (seq_count c < SEQ_MAX)%Z →
  ∃ t' c', mem_write (t, c) w = Ok (t', c') ∧ mem_wf t' c' ∧
    seq_count c' = (seq_count c + 1)%Z ∧ gen_buf c' = gen_buf c ∧
    ti_wal (mt_inner t') = ti_wal (mt_inner t) ∧
    (ti_log_writer (mt_inner t')).2 = (ti_log_writer (mt_inner t)).2 ∧
    write_records (ti_log_writer (mt_inner t)).1 [write_record w]
      = Ok (ti_log_writer (mt_inner t')).1 ∧
    ∀ k, table_view t' k (up_to SEQ_MAX)
      = match batch_get (write_pairs w) k with
        | Some v => Some v
        | None => table_view t k (up_to SEQ_MAX)
        end.
Proof.
  intros Hwf Hmax. pose proof Hwf as [Hmem Himm Hseq Hlog].
  assert (up_to SEQ_MAX (seq_count c) = true) as Hup by (apply bool_decide_eq_true; lia).
  destruct w as [kv|kvs]; unfold mem_write, write_record; cbn [write_pairs fst snd].
  - destruct (insert_data_spec t kv c Hwf Hmax) as (ex & t' & c' & Hi & Hwf' & Hc & _ & _ & Hv).
    pose proof Hi as Hi'. unfold insert_data in Hi'.
    destruct (add_record (ti_log_writer (mt_inner t)).1 (data_to_bytes kv)) as [[len w']| |] eqn:Ea;
      try done. cbn [res_bind internal_key_new seq_create] in Hi'. injection Hi' as _ <- <-.
    rewrite Hi. cbn [res_bind]. eexists _, _. split; [done|].
    split_and!; [done..| |].
    + cbn [fmap list_fmap concat]. rewrite app_nil_r. unfold write_records. cbn [res_foldM].
      by rewrite Ea.
    + intros k. rewrite Hv. unfold batch_get. rewrite filter_cons, filter_nil.
      destruct (decide (kv.1 = k)) as [<-|Hne]; simpl.
      * by rewrite decide_True.
      * by rewrite decide_False by naive_solver.
  - set (c1 := {| seq_count := seq_count c + 1; gen_buf := gen_buf c |}).
    assert (mem_wf t c1) as Hwf1.
    { split; simpl; [intros k s v Hin; apply Hmem in Hin; lia| |lia|done].
      intros m k s v Hm Hin. specialize (Himm m k s v Hm Hin). lia. }
    destruct (insert_batch_data_spec t kvs (seq_count c) c1) as (ex & t' & Hi & Hwf' & _ & Hv);
      [done|intros k s v _ Hin; apply Hmem in Hin; lia|simpl; lia|].
    cbn [seq_create]. rewrite Hi. cbn [res_bind]. eexists _, _. split; [done|].
    unfold insert_batch_data in Hi.
    destruct (insert_batch_fold (seq_count c) kvs (ti_mem (mt_inner t)) (ti_trigger (mt_inner t)) [])
      as (m' & trigger' & Hfold & _ & _); [intros k s v _ Hin; apply Hmem in Hin; lia|].
    rewrite Hfold in Hi. rewrite app_nil_l in Hi.
    destruct (add_record (ti_log_writer (mt_inner t)).1 (concat (data_to_bytes <$> kvs)))
      as [[len w']| |] eqn:Ea; try done. cbn [res_bind] in Hi. injection Hi as _ <-.
    split_and!; [done..| |].
    + unfold write_records. cbn [res_foldM]. by rewrite Ea.
    + intros k. rewrite Hv, Hup. done.
Qed.

Lemma mem_writes_spec t c ws :
  mem_wf t c → (seq_count c + Z.of_nat (length ws) ≤ SEQ_MAX)%Z →
  ∃ t' c', res_foldM mem_write (t, c) ws = Ok (t', c') ∧ mem_wf t' c' ∧
    gen_buf c' = gen_buf c ∧ ti_wal (mt_inner t') = ti_wal (mt_inner t) ∧
    (ti_log_writer (mt_inner t')).2 = (ti_log_writer (mt_inner t)).2 ∧
    write_records (ti_log_writer (mt_inner t)).1 (write_record <$> ws)
      = Ok (ti_log_writer (mt_inner t')).1 ∧
    ∀ k, table_view t' k (up_to SEQ_MAX)
      = match batch_get (concat (write_pairs <$> ws)) k with
        | Some v => Some v
        | None => table_view t k (up_to SEQ_MAX)
        end.
Proof.
  revert t c. induction ws as [|w ws IH]; intros t c Hwf Hmax.
  { exists t, c. by split_and!. }
  cbn [length] in Hmax.
  destruct (mem_write_spec t c w Hwf ltac:(lia)) as (t1 & c1 & H1 & Hwf1 & Hc1 & Hg1 & Hw1 & Hl1 & Hr1 & Hv1).
  destruct (IH t1 c1 Hwf1 ltac:(lia)) as (t' & c' & H' & Hwf' & Hg' & Hw' & Hl' & Hr' & Hv').
  exists t', c'. cbn [res_foldM]. rewrite H1. cbn [res_bind]. split_and!; [done|done|congruence..| |].
  - cbn [fmap list_fmap]. unfold write_records in *. cbn [res_foldM] in *.
    destruct (add_record _ (write_record w)) as [[len lw]| |]; cbn [res_bind] in *; try done.
    by injection Hr1 as ->.
  - intros k. rewrite Hv', Hv1. cbn [fmap list_fmap concat]. unfold batch_get.
    rewrite filter_app, last_app. by destruct (last (filter _ (concat _))).
Qed.

Lemma mem_writes_frame ws t c t' c' :
  res_foldM mem_write (t, c) ws = Ok (t', c') →
  ti_immut (mt_inner t') = ti_immut (mt_inner t) ∧ tx_count t' = tx_count t.
Proof.
  revert t c. induction ws as [|w ws IH]; intros t c; cbn [res_foldM]; [by intros [= <- _]|].
  destruct (mem_write (t, c) w) as [[t1 c1]| |] eqn:E; [|done..]. cbn [res_bind]. intros Hws.
  destruct (IH _ _ Hws) as [-> ->].
  destruct w as [kv|kvs]; unfold mem_write, insert_data, insert_batch_data in E; cbn [fst snd seq_create] in E.
  - destruct (add_record _ _) as [[? ?]| |]; [|done..]. cbn in E. by injection E as <- _.
  - destruct (fold_left _ _ _) as [[? ?] ?]. destruct (add_record _ _) as [[? ?]| |]; [|done..].
    cbn [res_bind] in E. by injection E as <- _.
Qed.

Lemma visible_recovered (L : list KeyValue) k :
  visible (btree_from_iter ((λ kv : KeyValue, (new_with_seq kv.1 0, kv.2)) <$> L)) k (up_to SEQ_MAX)
  = batch_get L k.
Proof.
  induction L as [|[key v] L IH] using rev_ind; [done|].
  rewrite fmap_app. cbn [fmap list_fmap fst snd]. rewrite btree_from_iter_snoc.
  rewrite visible_insert, IH.
  - unfold batch_get. rewrite filter_app, filter_cons, filter_nil. cbn [fst].
    destruct (decide (k = key ∧ up_to SEQ_MAX 0 = true)) as [[-> _]|Hno].
    + by rewrite decide_True, last_snoc.
    + rewrite decide_False, app_nil_r; [done|]. intros ->. by apply Hno.
  - apply btree_from_iter_sorted.
  - intros s' v' Hin%btree_from_iter_subset.
    apply list_elem_of_fmap in Hin as ([k1 v1] & ? & _). simplify_ik. lia.
Qed.

Lemma res_foldM_decode ws records :
  Forall write_wf ws →
  res_foldM (λ acc b, decode_wal_record b acc) records (write_record <$> ws)
  = Ok (records ++ ((λ kv : KeyValue, (new_with_seq kv.1 0, kv.2))
                      <$> concat (write_pairs <$> ws))).
Proof.
  intros Hws. revert records. induction Hws as [|w ws Hw _ IH]; intros records.
  { by rewrite app_nil_r. }
  cbn [fmap list_fmap res_foldM concat]. rewrite decode_write_record by done. cbn [res_bind].
  by rewrite IH, <- app_assoc, <- fmap_app.
Qed.

(** Opening an empty directory, and one that holds one log. *)
Lemma mem_table_new_log cfg gen content c L :
  log_load (one_chunk content) decode_wal_record [] = Some (Ok L) →
  ∃ t c', mem_table_new cfg {[ gen := content ]} c = Some (Ok (t, c')) ∧
    ti_mem (mt_inner t) = sm_from_iter L ∧ ti_immut (mt_inner t) = None.
Proof.
  intros Hload. unfold mem_table_new, log_reload_gen. cbn [gen_create].
  assert (sorted_gen_list {[gen := content]} = [gen]) as ->.
  { unfold sorted_gen_list. by rewrite map_to_list_singleton. }
  cbn [last default from_option id].
  replace (file_content {[gen := content]} gen) with content
    by (unfold file_content; by rewrite lookup_singleton_eq).
  rewrite Hload. destruct (cfg_minor_trigger_with_threshold cfg). by eexists _, _.
Qed.

Lemma mem_table_new_empty cfg c :
  (0 ≤ seq_count c ≤ SEQ_MAX)%Z →
  ∃ t c', mem_table_new cfg ∅ c = Some (Ok (t, c')) ∧ mem_wf t c' ∧ tx_count t = 0 ∧
    seq_count c' = seq_count c ∧
    ti_immut (mt_inner t) = None ∧ sm_iter (ti_mem (mt_inner t)) = [] ∧
    ti_wal (mt_inner t) = ∅ ∧
    (ti_log_writer (mt_inner t)).1 = log_writer_new {| sk_content := []; sk_pos := 0 |} ∧
    (ti_log_writer (mt_inner t)).2 = gen_buf c ∧ gen_buf c' = (gen_buf c + 1)%Z.
Proof.
  intros Hseq. unfold mem_table_new, log_reload_gen. cbn [gen_create].
  assert (sorted_gen_list ∅ = []) as -> by done. cbn [last default from_option id].
  assert (file_content ∅ (gen_buf c) = []) as E by done. rewrite E.
  assert (log_load (one_chunk []) decode_wal_record [] = Some (Ok [])) as ->.
  { unfold log_load. cbn [one_chunk concat length log_load_loop].
    unfold log_read. destruct (log_read_eof 0 0 BLOCK_SIZE [] 0) as [r Hr]; [apply Nat.le_0_l|].
    unfold log_reader_new. rewrite Hr. done. }
  destruct (cfg_minor_trigger_with_threshold cfg). eexists _, _. split; [done|].
  assert (sm_iter (sm_from_iter []) = ([] : Versions)) as Hnil by apply sm_iter_new.
  split_and!; try done; cbn [mt_inner ti_mem ti_wal ti_log_writer fst].
  - split; cbn [mt_inner ti_mem ti_immut ti_log_writer fst seq_count].
    + rewrite Hnil. by intros ? ? ? ?%not_elem_of_nil.
    + done.
    + done.
    + apply log_writer_new_ok.
Qed.
End recovery.

(** ** Properties *)

Section mem_properties.
Context {SM : SkipMapOps InternalKey (option bytes)} {SML : SkipMapLaws InternalKey (option bytes)}.
Context `{IE : IntegerEncoding} {IEL : IntegerEncodingLaws} {CRC : Crc32} {CRCL : Crc32Laws}.
Context {IT : Itertools} {ITL : ItertoolsLaws}.

Lemma mem_write_snapshot t c w k s :
  mem_wf t c → (s < seq_count c < SEQ_MAX)%Z →
  ∃ t' c', mem_write (t, c) w = Ok (t', c') ∧ mem_wf t' c' ∧
    seq_count c' = (seq_count c + 1)%Z ∧
    table_view t' k (up_to s) = table_view t k (up_to s).
Proof.
  intros Hwf [Hs Hmax]. assert (up_to s (seq_count c) = false) as Hup.
  { apply bool_decide_eq_false. lia. }
  destruct (mem_write_spec t c w Hwf Hmax) as (t' & c' & Hw & Hwf' & Hc & _ & _).
  exists t', c'. split_and!; [done..|]. destruct w as [kv|kvs]; unfold mem_write in Hw; cbn [fst snd] in Hw.
  - destruct (insert_data_spec t kv c Hwf Hmax) as (ex & t1 & c1 & Hi & _ & _ & _ & _ & Hv).
    rewrite Hi in Hw. cbn [res_bind] in Hw. injection Hw as <- <-. rewrite Hv.
    rewrite decide_False; [done|]. rewrite Hup. naive_solver.
  - pose proof Hwf as [Hmem Himm Hseq Hlog]. cbn [seq_create] in Hw.
    set (c1 := {| seq_count := seq_count c + 1; gen_buf := gen_buf c |}) in *.
    destruct (insert_batch_data_spec t kvs (seq_count c) c1) as (ex & t1 & Hi & _ & _ & Hv).
    + split; simpl; [intros ? s' v Hin; apply Hmem in Hin; lia| |lia|done].
      intros m ? s' v Hm Hin. specialize (Himm m _ s' v Hm Hin). lia.
    + intros ? s' v _ Hin; apply Hmem in Hin; lia.
    + simpl; lia.
    + rewrite Hi in Hw. cbn [res_bind] in Hw. injection Hw as <- <-. rewrite Hv, Hup.
      by destruct (batch_get kvs k).
Qed.

(** C21: after any writes (single pairs and batches), a lookup returns the last value
    written for the key, a deletion marker included, and what it returned before for a
    key none of them wrote; the table stays well formed. *)
Theorem mem_find_after_writes t c ws :
  mem_wf t c → (seq_count c + Z.of_nat (length ws) ≤ SEQ_MAX)%Z →
  ∃ t' c', res_foldM mem_write (t, c) ws = Ok (t', c') ∧ mem_wf t' c' ∧
    ∀ k, mem_find t' k
      = match batch_get (concat (write_pairs <$> ws)) k with
        | Some v => Some (k, v)
        | None => mem_find t k
        end.
Proof.
  intros Hwf Hmax. destruct (mem_writes_spec t c ws Hwf Hmax)
    as (t' & c' & Hf & Hwf' & _ & _ & _ & _ & Hv).
  exists t', c'. split_and!; [done..|]. intros k. rewrite !mem_find_view, Hv.
  by destruct (batch_get _ k).
Qed.

(** A lookup at a sequence number drawn earlier is not affected by any later write:
    the snapshot of a transaction is stable. *)
Theorem snapshot_stable t c ws k s :
  mem_wf t c → (s < seq_count c)%Z → (seq_count c + Z.of_nat (length ws) ≤ SEQ_MAX)%Z →
  ∃ t' c', res_foldM mem_write (t, c) ws = Ok (t', c') ∧
    find_with_sequence_id t' k s = find_with_sequence_id t k s.
Proof.
  revert t c. induction ws as [|w ws IH]; intros t c Hwf Hs Hmax; [by eexists _, _|].
  cbn [length] in Hmax. destruct (mem_write_snapshot t c w k s Hwf ltac:(lia))
    as (t1 & c1 & H1 & Hwf1 & Hc1 & Hv1).
  destruct (IH t1 c1 Hwf1 ltac:(lia) ltac:(lia)) as (t' & c' & H' & Hv').
  exists t', c'. cbn [res_foldM]. rewrite H1. cbn [res_bind]. split; [done|].
  by rewrite Hv', !find_with_sequence_id_view, Hv1.
Qed.

(** A commit conflicts exactly when the mutable map holds, for one of its keys, a
    version newer than the transaction's sequence number. *)
Theorem check_key_conflict_iff t kvs s :
  check_key_conflict t kvs s = true ↔
  ∃ kv s' v, kv ∈ kvs ∧ (new_with_seq kv.1 s', v) ∈ sm_iter (ti_mem (mt_inner t)) ∧ (s < s')%Z.
Proof. apply check_key_conflict_spec. Qed.

(** C22: a range scan never fails its assertions; it returns, in strictly increasing key
    order, for exactly the keys in range that have a visible version, the newest one,
    the mutable map before the immutable one. *)
Theorem range_scan_correct t c lo hi os :
  mem_wf t c →
  ∃ out, range_scan t lo hi os = Ok out ∧ ksorted out ∧
    ∀ k v, (k, v) ∈ out ↔ in_range lo hi k = true ∧ table_view t k (seq_visible os) = Some v.
Proof.
  intros Hwf. destruct (range_scan_spec t c lo hi os Hwf) as (out & Hr & Hs & Hg).
  exists out. split_and!; [done..|]. intros k v. rewrite <- btree_get_Some, Hg by done.
  destruct (in_range lo hi k); naive_solver.
Qed.

(** Without a live transaction a swap of a non-empty table hands over the sorted
    newest versions of the mutable map with the generation of its log, and from then on
    every lookup is answered by exactly the versions handed over. *)
Theorem swap_correct t c :
  tx_count t = 0 → sm_iter (ti_mem (mt_inner t)) ≠ [] →
  ∃ gen data t' c', swap t c = Some (Some (gen, data), t', c') ∧
    gen = (ti_log_writer (mt_inner t)).2 ∧ ksorted data ∧
    (∀ k, btree_get k data = visible (sm_iter (ti_mem (mt_inner t))) k (λ _, true)) ∧
    (∀ k P, table_view t' k P = visible (sm_iter (ti_mem (mt_inner t))) k P).
Proof.
  intros Htx Hne. pose proof (swap_spec t c Htx) as Hswap.
  destruct (sm_is_empty (ti_mem (mt_inner t))) eqn:E.
  { by apply sm_is_empty_spec in E. }
  destruct Hswap as (t' & c' & -> & _ & _ & _ & Hmem & Himm & _).
  eexists _, _, t', c'. split_and!; [done|done|apply btree_from_iter_sorted|apply latest_get|].
  intros k P. unfold table_view. by rewrite Hmem, Himm.
Qed.

(** Seeking the iterator over a memory map leaves it at the newest versions of the
    keys the seek selects, in key order. *)
Theorem mem_map_iter_seek_correct m s :
  (∀ k s' v, (new_with_seq k s', v) ∈ sm_iter m → (0 ≤ s')%Z) →
  iter_yields (mem_map_iter_new m) (latest (sm_iter m)) ∧
  ∃ it, seek s (mem_map_iter_new m) = Ok it ∧ iter_yields it (seek_range s (latest (sm_iter m))).
Proof.
  intros Hpos. split; [apply mem_map_iter_yields, sm_iter_sorted|].
  by apply (mem_map_iter_seek_yields (mem_map_iter_new m)).
Qed.

(** A table opened on an empty directory, written to, and opened again from its log
    answers every lookup as before: nothing written is lost or resurrected, for pairs
    within the format's limits. *)
Theorem wal_recovery cfg c ws :
  (0 ≤ seq_count c)%Z → (seq_count c + Z.of_nat (length ws) ≤ SEQ_MAX)%Z → Forall write_wf ws →
  ∃ t0 c0 t1 c1 t2 c2,
    mem_table_new cfg ∅ c = Some (Ok (t0, c0)) ∧
    res_foldM mem_write (t0, c0) ws = Ok (t1, c1) ∧
    mem_table_new cfg (wal_files t1) c1 = Some (Ok (t2, c2)) ∧
    ∀ k, mem_find t2 k = mem_find t1 k.
Proof.
  intros Hseq Hmax Hws.
  destruct (mem_table_new_empty cfg c ltac:(lia))
    as (t0 & c0 & H0 & Hwf0 & _ & Hc0 & Himm0 & Hmem0 & Hwal0 & Hlw0 & _).
  destruct (mem_writes_spec t0 c0 ws Hwf0 ltac:(lia))
    as (t1 & c1 & H1 & Hwf1 & _ & Hwal1 & _ & Hrec & Hv1).
  set (content := sk_content (lw_dst (ti_log_writer (mt_inner t1)).1)).
  assert (wal_files t1 = {[ (ti_log_writer (mt_inner t1)).2 := content ]}) as Hfiles.
  { unfold wal_files. by rewrite Hwal1, Hwal0. }
  destruct (log_records_load (write_record <$> ws) (one_chunk content) decode_wal_record [])
    as (w & Hw & Hload).
  { apply Forall_fmap. eapply Forall_impl; [done|]. intros. by apply write_record_nonempty. }
  rewrite Hlw0, Hw in Hrec. injection Hrec as Hrec.
  destruct (one_chunk_ok content) as [Hch Hcat].
  specialize (Hload Hch ltac:(by rewrite Hcat, Hrec)). rewrite res_foldM_decode in Hload by done.
  destruct (mem_table_new_log cfg (ti_log_writer (mt_inner t1)).2 content c1 _ Hload)
    as (t2 & c2 & H2 & Hmem2 & Himm2).
  exists t0, c0, t1, c1, t2, c2. rewrite Hfiles. split_and!; [done..|].
  intros k. rewrite !mem_find_view, Hv1. f_equal. unfold table_view.
  rewrite Hmem2, Himm2, Himm0, Hmem0, sm_iter_from_iter. cbn [app].
  rewrite visible_recovered. by destruct (batch_get _ k).
Qed.
End mem_properties.

(** ** Witnesses *)

Import Reference.

Definition sample_writes : list MemWrite :=
  [WriteOne ([x01], Some [x0a]); WriteBatch [([x02], Some [x0b]); ([x01], None)];
   WriteOne ([x03], Some [x0c])].

Definition sample_counters : Counters := {| seq_count := 1; gen_buf := 100 |}.

(** A fresh table over the reference skip map. *)
Lemma sample_table :
  ∃ t c, mem_table_new (config_new "db"%string) ∅ sample_counters = Some (Ok (t, c)) ∧ mem_wf t c ∧
    tx_count t = 0 ∧ seq_count c = 1%Z.
Proof.
  destruct (mem_table_new_empty (config_new "db"%string) sample_counters)
    as (t & c & Ht & Hwf & Htx & Hc & _); [done|].
  by exists t, c.
Qed.

Lemma mem_find_after_writes_witness :
  ∃ t c t' c', mem_wf t c ∧ res_foldM mem_write (t, c) sample_writes = Ok (t', c') ∧
    mem_find t' [x01] = Some ([x01], None) ∧ mem_find t' [x03] = Some ([x03], Some [x0c]).
Proof.
  destruct sample_table as (t & c & _ & Hwf & _ & Hc).
  destruct (mem_find_after_writes t c sample_writes Hwf) as (t' & c' & Hw & _ & Hf);
    [rewrite Hc; done|].
  exists t, c, t', c'. split_and!; [done..|by rewrite Hf|by rewrite Hf].
Defined.

Lemma snapshot_stable_witness :
  ∃ t c t' c', mem_wf t c ∧ res_foldM mem_write (t, c) sample_writes = Ok (t', c') ∧
    find_with_sequence_id t' [x01] 0 = find_with_sequence_id t [x01] 0.
Proof.
  destruct sample_table as (t & c & _ & Hwf & _ & Hc).
  destruct (snapshot_stable t c sample_writes [x01] 0 Hwf) as (t' & c' & Hw & Hf);
    [rewrite Hc; done|rewrite Hc; done|].
  by exists t, c, t', c'.
Defined.

Lemma check_key_conflict_iff_witness :
  ∃ t c, mem_wf t c ∧ check_key_conflict t [([x01], None)] 0 = false.
Proof.
  destruct (mem_table_new_empty (config_new "db"%string) sample_counters)
    as (t & c & _ & Hwf & _ & _ & _ & Hmem & _); [done|].
  exists t, c. split; [done|]. apply not_true_iff_false. rewrite check_key_conflict_iff, Hmem.
  by intros (kv & s & v & _ & ?%not_elem_of_nil & _).
Defined.

Lemma range_scan_correct_witness :
  ∃ t c out, mem_wf t c ∧
    range_scan t (Included [x01]) (Excluded [x05]) (Some 9%Z) = Ok out ∧ ksorted out.
Proof.
  destruct sample_table as (t & c & _ & Hwf & _ & Hc).
  destruct (range_scan_correct t c (Included [x01]) (Excluded [x05]) (Some 9%Z) Hwf)
    as (out & Hr & Hs & _).
  by exists t, c, out.
Defined.

Lemma swap_correct_witness :
  ∃ (t : MemTable) gen data t' c', swap t sample_counters = Some (Some (gen, data), t', c') ∧
    btree_get [x01] data = Some (Some [x0a]).
Proof.
  set (t := {| mt_inner :=
    {| ti_mem := sm_insert (new_with_seq [x01] 1) (Some [x0a]) sm_new; ti_immut := None; ti_wal := ∅;
       ti_log_writer := (log_writer_new {| sk_content := []; sk_pos := 0 |}, 7%Z);
       ti_trigger := trigger_create TriggerCount 5 |}; tx_count := 0 |}).
  destruct (swap_correct t sample_counters) as (gen & data & t' & c' & Hs & _ & _ & Hd & _);
    [done|done|].
  exists t, gen, data, t', c'. split; [exact Hs|]. rewrite Hd. reflexivity.
Defined.

Lemma mem_map_iter_seek_correct_witness :
  ∃ it, seek (SeekBackward [x02])
          (mem_map_iter_new (sm_insert (new_with_seq [x03] 1) None
             (sm_insert (new_with_seq [x01] 1) (Some [x0a]) sm_new))) = Ok it ∧
        iter_yields it [([x03], None)].
Proof.
  refine (proj2 (mem_map_iter_seek_correct (sm_insert (new_with_seq [x03] 1) None
    (sm_insert (new_with_seq [x01] 1) (Some [x0a]) sm_new)) (SeekBackward [x02]) _)).
  intros k s v Hin. simpl in Hin.
  repeat (apply elem_of_cons in Hin as [?|Hin]; [by simplify_ik|]). by apply not_elem_of_nil in Hin.
Defined.

Lemma wal_recovery_witness :
  ∃ t0 c0 t1 c1 t2 c2,
    mem_table_new (config_new "db"%string) ∅ sample_counters = Some (Ok (t0, c0)) ∧
    res_foldM mem_write (t0, c0) sample_writes = Ok (t1, c1) ∧
    mem_table_new (config_new "db"%string) (wal_files t1) c1 = Some (Ok (t2, c2)) ∧
    ∀ k, mem_find t2 k = mem_find t1 k.
Proof.
  apply wal_recovery; [done|done|].
  repeat constructor; by repeat split.
Defined.
