(* ===== verification/Scope.v ===== *)
(** * Tables as seen from above (src/kernel/lsm/table/mod.rs, scope.rs, meta.rs)

    The trait [Table] with what its clients rely on ([table_holds]); the key range of a
    table with its shared counter of missed seeks; the statistics of a set of tables. *)

From S2P Require Import Prelude Std Crates Iterator.
From Stdlib Require Import ZArith Lia Strings.Byte Sorted.
From stdpp Require Import base list gmap.

Set Default Goal Selector "!".

(** ** The trait *)

Class Table (T : Type) := {
  table_iter_state : Type;
  table_iter_iter :: Iter table_iter_state KeyValue;
  table_iter_seek :: SeekIter table_iter_state KeyValue;
  table_query : T → bytes → KernelResult (option KeyValue);
  table_len : T → nat;
  table_size_of_disk : T → N;
  table_gen : T → Z;
  table_level : T → nat;
  table_iter : T → KernelResult table_iter_state;
}.

(** What a table promises: it holds the sorted entries [l], answers every query from
    them and iterates over all of them. *)
Record table_holds {T} `{Table T} (t : T) (l : list KeyValue) : Prop := {
  holds_sorted : ksorted l;
  holds_query k : table_query t k = Ok ((λ v, (k, v)) <$> btree_get k l);
  holds_iter : ∃ it, table_iter t = Ok it ∧ iter_yields it l;
  holds_len : table_len t = length l;
}.

(** What the iterators of a table promise: a fresh one goes over all entries, and after a
    seek over those the seek selects.  A [Backward] seek may stop too early, at entries
    below the key: the table iterators are allowed a few of them. *)
Definition seek_overrun (s : Seek) (l pre : list KeyValue) : Prop :=
  match s with
  | SeekBackward key => (∀ e, e ∈ pre → cmp e.1 key = Lt) ∧ pre ++ seek_range s l `suffix_of` l
  | _ => pre = []
  end.

Record table_seeks {T} `{Table T} (t : T) (l : list KeyValue) : Prop := {
  seeks_iter : ∃ it, table_iter t = Ok it ∧ iter_exhausts it l;
  seeks_seek s : ∃ it it' pre, table_iter t = Ok it ∧ seek s it = Ok it' ∧
                   iter_exhausts it' (pre ++ seek_range s l) ∧ seek_overrun s l pre;
}.

Lemma seek_overrun_nil s (l : list KeyValue) :
  ksorted l → seek_overrun s l [].
Proof.
  intros Hs. destruct s as [| |key]; [done..|]. split; [by intros e ?%not_elem_of_nil|].
  cbn [app seek_range]. rewrite filter_drop_rank by done. apply suffix_drop.
Qed.

(** ** Scopes *)

Definition SEEK_COMPACTION_COUNT : Z := 100.

(** The counters of all scopes; an [Arc<AtomicU32>] is a position in it, so that the
    clones of a scope share their counter. *)
Abbreviation Seeks := (list Z).

Record Scope := mkScope {
  sc_start : bytes;
  sc_end : bytes;
  sc_gen : Z;
  sc_allowed_seeks : option nat;
}.

#[global] Instance scope_eq_dec : EqDecision Scope.
Proof. solve_decision. Defined.

(** [PartialEq]: two scopes without a counter are never equal. *)
Definition scope_eq (h : Seeks) (a b : Scope) : bool :=
  match sc_allowed_seeks a, sc_allowed_seeks b with
  | Some x, Some y =>
      bool_decide (h !! x = h !! y) && bool_decide (sc_start a = sc_start b)
      && bool_decide (sc_end a = sc_end b) && bool_decide (sc_gen a = sc_gen b)
  | _, _ => false
  end.

(** [AtomicU32::fetch_add(1)] and [compare_exchange] on a cell. *)
Definition fetch_add (x : Z) : Z * Z := (x, (x + 1) `mod` 2 ^ 32)%Z.

Definition compare_exchange (expected new x : Z) : bool * Z :=
  if decide (x = expected) then (true, new) else (false, x).

Definition seeks_increase (s : Scope) (h : Seeks) : KernelResult (bool * Seeks) :=
  match sc_allowed_seeks s with
  | Some loc =>
      let? x := or_panic (h !! loc) in
      let '(current, x1) := fetch_add x in
      if decide (SEEK_COMPACTION_COUNT < current)%Z then
        let? next := u32_add current 1 in
        let '(ok, x2) := compare_exchange next 0 x1 in
        Ok (ok, <[loc := x2]> h)
      else Ok (false, <[loc := x1]> h)
  | None => Ok (false, h)
  end.

Definition from_range (gen : Z) (first last : bytes) (h : Seeks) : Scope * Seeks :=
  ({| sc_start := first; sc_end := last; sc_gen := gen;
      sc_allowed_seeks := Some (length h) |}, h ++ [0%Z]).

Definition from_key (key : bytes) : Scope :=
  {| sc_start := key; sc_end := key; sc_gen := 0; sc_allowed_seeks := None |}.

(** [Iterator::min], [Iterator::max] *)
Fixpoint iter_min (l : list bytes) : option bytes :=
  match l with
  | [] => None
  | x :: l' => match iter_min l' with
               | Some y => Some (if le_b x y then x else y)
               | None => Some x
               end
  end.

Fixpoint iter_max (l : list bytes) : option bytes :=
  match l with
  | [] => None
  | x :: l' => match iter_max l' with
               | Some y => Some (if le_b x y then y else x)
               | None => Some x
               end
  end.

Definition scope_fusion (scopes : list Scope) : option Scope :=
  match iter_min (sc_start <$> scopes), iter_max (sc_end <$> scopes) with
  | Some s, Some e =>
      Some {| sc_start := s; sc_end := e; sc_gen := 0; sc_allowed_seeks := None |}
  | _, _ => None
  end.

Definition scope_meet (self target : Scope) : bool :=
  (le_b (sc_start self) (sc_start target) && le_b (sc_start target) (sc_end self))
  || (le_b (sc_start self) (sc_end target) && le_b (sc_end target) (sc_end self))
  || (le_b (sc_start self) (sc_start target) && le_b (sc_end target) (sc_end self))
  || (le_b (sc_start target) (sc_start self) && le_b (sc_end self) (sc_end target)).

Definition meet_by_key (self : Scope) (key : bytes) : bool :=
  le_b (sc_start self) key && le_b key (sc_end self).

Definition meet_bound (self : Scope) (min max : Bound bytes) : bool :=
  let is_min_inside := match min with
                       | Included key => le_b (sc_start self) key
                       | Excluded key => lt_b (sc_start self) key
                       | Unbounded => true
                       end in
  let is_max_inside := match max with
                       | Included key => le_b key (sc_end self)
                       | Excluded key => lt_b key (sc_end self)
                       | Unbounded => true
                       end in
  is_min_inside && is_max_inside.

Definition from_sorted_vec_data (gen : Z) (vec_mem_data : list KeyValue) (h : Seeks)
    : KernelResult (Scope * Seeks) :=
  match vec_mem_data with
  | [] => Err DataEmpty
  | first :: _ =>
      let last_ := default first (last vec_mem_data) in
      Ok (from_range gen first.1 last_.1 h)
  end.

(** ** Statistics *)

Record TableMeta := mkTableMeta {
  tm_size_of_disk : N;
  tm_len : nat;
}.

#[global] Instance table_meta_eq_dec : EqDecision TableMeta.
Proof. solve_decision. Defined.

Definition table_meta_default : TableMeta := {| tm_size_of_disk := 0; tm_len := 0 |}.

Definition meta_add (m : TableMeta) (size : N) (len : nat) : TableMeta :=
  {| tm_size_of_disk := tm_size_of_disk m + size; tm_len := tm_len m + len |}.

Definition table_meta_fusion (metas : list TableMeta) : TableMeta :=
  fold_left (λ m x, meta_add m (tm_size_of_disk x) (tm_len x)) metas table_meta_default.

Section tables.
Context {T : Type} `{TB : Table T} `{IT : Itertools}.

Definition table_meta_from (t : T) : TableMeta :=
  {| tm_size_of_disk := table_size_of_disk t; tm_len := table_len t |}.

Definition table_meta_from_tables (ts : list T) : TableMeta :=
  fold_left (λ m t, meta_add m (table_size_of_disk t) (table_len t))
    (unique_by table_gen ts) table_meta_default.

(** [.unique()] is [unique_by] on the elements themselves. *)
Definition collect_gen (vec_table : list T) : KernelResult (list Z * TableMeta) :=
  Ok (unique_by id (table_gen <$> vec_table), table_meta_from_tables vec_table).
End tables.

(** ** Scopes as ranges of keys *)

(** Goals on the order of keys that follow in at most one transitivity step. *)
Ltac le_keys :=
  repeat split; first [done | apply le_b_refl | by apply cmp_lt_le | by eauto
    | by eapply le_b_trans | eapply le_b_trans; [by eauto | by eauto]].

Definition scope_wf (s : Scope) : Prop := le_b (sc_start s) (sc_end s) = true.

Lemma meet_by_key_iff s k :
  meet_by_key s k = true ↔ le_b (sc_start s) k = true ∧ le_b k (sc_end s) = true.
Proof. apply andb_true_iff. Qed.

Lemma meet_iff s t :
  scope_wf s → scope_wf t →
  scope_meet s t = true ↔ le_b (sc_start s) (sc_end t) = true ∧ le_b (sc_start t) (sc_end s) = true.
Proof.
  unfold scope_wf, scope_meet. intros Hs Ht. rewrite !orb_true_iff, !andb_true_iff. split.
  - intros [[[[H1 H2]|[H1 H2]]|[H1 H2]]|[H1 H2]]; le_keys.
  - intros [H1 H2]. destruct (le_b_total (sc_start s) (sc_start t)) as [H|H]; [auto 6|].
    destruct (le_b_total (sc_end s) (sc_end t)) as [H'|H']; auto 6.
Qed.

Lemma meet_common s t k :
  meet_by_key s k = true → meet_by_key t k = true → scope_meet s t = true.
Proof.
  rewrite !meet_by_key_iff. intros [H1 H2] [H3 H4].
  apply meet_iff; unfold scope_wf; le_keys.
Qed.

(** Two scopes meet exactly when some key lies in both. *)
Theorem meet_overlap s t :
  scope_wf s → scope_wf t →
  scope_meet s t = true ↔ ∃ k, meet_by_key s k = true ∧ meet_by_key t k = true.
Proof.
  intros Hs Ht. split; [|intros (k & H1 & H2); by eapply meet_common].
  rewrite meet_iff by done. intros [H1 H2].
  destruct (le_b_total (sc_start s) (sc_start t)) as [H|H].
  - exists (sc_start t). rewrite !meet_by_key_iff. le_keys.
  - exists (sc_start s). rewrite !meet_by_key_iff. le_keys.
Qed.

Lemma meet_overlap_witness :
  scope_meet (from_range 1 [x01] [x05] []).1 (from_range 2 [x03] [x09] []).1 = true
  ↔ ∃ k, meet_by_key (from_range 1 [x01] [x05] []).1 k = true
         ∧ meet_by_key (from_range 2 [x03] [x09] []).1 k = true.
Proof. apply meet_overlap; reflexivity. Defined.

Lemma iter_min_spec l m : iter_min l = Some m → m ∈ l ∧ ∀ x, x ∈ l → le_b m x = true.
Proof.
  revert m. induction l as [|x l IH]; intros m; [done|]. simpl.
  destruct (iter_min l) as [y|] eqn:E.
  - destruct (IH y eq_refl) as [Hy Hmin]. destruct (le_b x y) eqn:Hxy; intros [= <-].
    + split; [by left|]. intros z [->|Hz]%elem_of_cons; le_keys.
    + apply le_b_false, cmp_lt_le in Hxy. split; [by right|].
      intros z [->|Hz]%elem_of_cons; le_keys.
  - intros [= <-]. destruct l as [|z l]; [|simpl in E; by destruct (iter_min l)].
    split; [by left|]. intros z ->%list_elem_of_singleton. apply le_b_refl.
Qed.

Lemma iter_max_spec l m : iter_max l = Some m → m ∈ l ∧ ∀ x, x ∈ l → le_b x m = true.
Proof.
  revert m. induction l as [|x l IH]; intros m; [done|]. simpl.
  destruct (iter_max l) as [y|] eqn:E.
  - destruct (IH y eq_refl) as [Hy Hmin]. destruct (le_b x y) eqn:Hxy; intros [= <-].
    + split; [by right|]. intros z [->|Hz]%elem_of_cons; le_keys.
    + apply le_b_false, cmp_lt_le in Hxy. split; [by left|].
      intros z [->|Hz]%elem_of_cons; le_keys.
  - intros [= <-]. destruct l as [|z l]; [|simpl in E; by destruct (iter_max l)].
    split; [by left|]. intros z ->%list_elem_of_singleton. apply le_b_refl.
Qed.

Lemma iter_min_is_Some l : l ≠ [] → is_Some (iter_min l).
Proof. destruct l as [|x l]; [done|]. simpl. destruct (iter_min l); eauto. Qed.

Lemma iter_max_is_Some l : l ≠ [] → is_Some (iter_max l).
Proof. destruct l as [|x l]; [done|]. simpl. destruct (iter_max l); eauto. Qed.

Lemma fusion_is_Some ss : ss ≠ [] → is_Some (scope_fusion ss).
Proof.
  intros Hne. unfold scope_fusion.
  destruct (iter_min_is_Some (sc_start <$> ss)) as [s ->]; [by destruct ss|].
  destruct (iter_max_is_Some (sc_end <$> ss)) as [e ->]; [by destruct ss|]. eauto.
Qed.

(** The fusion contains every scope, and starts and ends where one of them does. *)
Lemma fusion_spec ss f :
  scope_fusion ss = Some f →
  (∀ s, s ∈ ss → le_b (sc_start f) (sc_start s) = true ∧ le_b (sc_end s) (sc_end f) = true) ∧
  (∃ s, s ∈ ss ∧ sc_start f = sc_start s) ∧ (∃ s, s ∈ ss ∧ sc_end f = sc_end s).
Proof.
  unfold scope_fusion. destruct (iter_min _) as [a|] eqn:Ea; [|done].
  destruct (iter_max _) as [b|] eqn:Eb; [|done]. intros [= <-]. cbn [sc_start sc_end].
  apply iter_min_spec in Ea as [(s1 & -> & Hs1)%list_elem_of_fmap Ha].
  apply iter_max_spec in Eb as [(s2 & -> & Hs2)%list_elem_of_fmap Hb].
  split_and!; eauto. intros s Hs. split; [apply Ha|apply Hb]; by apply list_elem_of_fmap_2.
Qed.

Lemma fusion_covers ss f s k :
  scope_fusion ss = Some f → s ∈ ss → meet_by_key s k = true → meet_by_key f k = true.
Proof.
  intros (Hall & _)%fusion_spec Hs. rewrite !meet_by_key_iff. intros [H1 H2].
  destruct (Hall s Hs). le_keys.
Qed.

Lemma fusion_wf ss f :
  scope_fusion ss = Some f → Forall scope_wf ss → scope_wf f.
Proof.
  intros (Hall & (s & Hs & Hst) & _)%fusion_spec Hwf. unfold scope_wf.
  rewrite Forall_forall in Hwf. destruct (Hall s Hs) as [_ He]. rewrite Hst.
  eapply le_b_trans; [|done]. by apply Hwf.
Qed.

(** The scope of sorted data holds every key of it. *)
Lemma from_sorted_vec_data_spec gen l h :
  ksorted l → l ≠ [] →
  ∃ s, from_sorted_vec_data gen l h = Ok (s, h ++ [0%Z]) ∧
       sc_gen s = gen ∧ sc_allowed_seeks s = Some (length h) ∧ scope_wf s ∧
       (∀ e, e ∈ l → meet_by_key s e.1 = true) ∧
       sc_start s ∈ l.*1 ∧ sc_end s ∈ l.*1.
Proof.
  intros Hs Hne. destruct l as [|a l] using rev_ind; [done|]. clear IHl Hne.
  assert (∃ b, head (l ++ [a]) = Some b ∧ b ∈ l ++ [a]) as (b & Hb & Hbin).
  { destruct l as [|b l]; [exists a|exists b]; simpl; split; auto; by left. }
  exists {| sc_start := b.1; sc_end := a.1; sc_gen := gen; sc_allowed_seeks := Some (length h) |}.
  assert (∀ e, e ∈ l ++ [a] → le_b b.1 e.1 = true ∧ le_b e.1 a.1 = true) as Hall.
  { intros e He. split.
    - destruct (l ++ [a]) as [|b' r]; simplify_eq/=.
      apply ksorted_cons_inv in Hs as [_ Hlt].
      apply elem_of_cons in He as [->|He]; [apply le_b_refl|]. by apply cmp_lt_le, Hlt.
    - apply ksorted_app in Hs as (_ & _ & Hlt). apply elem_of_app in He as [He|He].
      + apply cmp_lt_le. apply Hlt; [done|by left].
      + apply list_elem_of_singleton in He as ->. apply le_b_refl. }
  split_and!; try done.
  - unfold from_sorted_vec_data. destruct (l ++ [a]) as [|b' r] eqn:E; [by destruct l|].
    rewrite <- E, last_snoc. simplify_eq/=. done.
  - unfold scope_wf. cbn. by apply Hall.
  - intros e He. by apply meet_by_key_iff, Hall.
  - by apply (list_elem_of_fmap_2 fst).
  - apply (list_elem_of_fmap_2 fst). set_solver.
Qed.

(** ** Missed seeks under concurrency

    Queries increment the counter and reset it with two atomic operations that other
    queries can come between.  A thread is idle or holds what its [fetch_add] read. *)

Record SeekState := mkSeekState {
  ss_counter : Z;
  ss_threads : list (option Z);
  ss_misses : Z;
  ss_triggers : Z;
}.

Inductive seek_step : SeekState → SeekState → Prop :=
  | step_add i c ths m t :
      ths !! i = Some None →
      seek_step (mkSeekState c ths m t)
        (mkSeekState (fetch_add c).2
           (<[i := if decide (SEEK_COMPACTION_COUNT < c)%Z then Some c else None]> ths)
           (m + 1) t)
  | step_cas i c current ths m t :
      ths !! i = Some (Some current) →
      seek_step (mkSeekState c ths m t)
        (mkSeekState (compare_exchange (current + 1) 0 c).2 (<[i := None]> ths) m
           (if (compare_exchange (current + 1) 0 c).1 then t + 1 else t)).

Definition seek_init (n : nat) : SeekState := mkSeekState 0 (replicate n None) 0 0.

Definition seek_inv (s : SeekState) : Prop :=
  (0 ≤ ss_counter s)%Z ∧
  (ss_counter s + 102 * ss_triggers s ≤ ss_misses s)%Z ∧
  ∀ i current, ss_threads s !! i = Some (Some current) → (100 < current)%Z.

Lemma seek_step_inv s s' : seek_step s s' → seek_inv s → seek_inv s'.
Proof.
  intros Hstep. destruct Hstep as [i c ths m t Hi|i c cur ths m t Hi];
    intros (Hc & Hsum & Hth); unfold seek_inv in *; cbn in *.
  - pose proof (Z.mod_pos_bound (c + 1) (2 ^ 32) ltac:(lia)).
    pose proof (Z.mod_le (c + 1) (2 ^ 32) ltac:(lia) ltac:(lia)).
    split_and!; [lia..|]. intros j cur. rewrite list_lookup_insert.
    case_decide as Hj; [|by apply Hth]. unfold SEEK_COMPACTION_COUNT.
    case_decide; [|done]. intros [= <-]. lia.
  - specialize (Hth i cur Hi) as Hcur. unfold compare_exchange.
    assert (∀ j current, <[i := None]> ths !! j = Some (Some current) → (100 < current)%Z).
    { intros j current. rewrite list_lookup_insert. case_decide; [done|]. apply Hth. }
    case_decide; cbn; split_and!; try done; lia.
Qed.

(** However concurrent queries interleave, a seek compaction is triggered at most
    once for every 102 missed seeks. *)
Theorem seek_trigger_rate n s :
  rtc seek_step (seek_init n) s → (102 * ss_triggers s ≤ ss_misses s)%Z.
Proof.
  intros Hr. assert (seek_inv s) as (? & ? & _); [|lia].
  assert (seek_inv (seek_init n)) as H0.
  { split_and!; cbn; [lia..|]. intros i cur Hi. by apply lookup_replicate_1 in Hi as [? _]. }
  revert H0. induction Hr as [|x y z Hxy _ IH]; [done|]. intros Hx.
  by apply IH, (seek_step_inv x y).
Qed.

Lemma seek_trigger_rate_witness :
  rtc seek_step (seek_init 1) (mkSeekState 1 [None] 1 0) ∧ (102 * 0 ≤ 1)%Z.
Proof.
  assert (rtc seek_step (seek_init 1) (mkSeekState 1 [None] 1 0)) as Hr
    by (apply rtc_once; apply (step_add 0 0 [None] 0 0); reflexivity).
  split; [exact Hr|]. exact (seek_trigger_rate 1 (mkSeekState 1 [None] 1 0) Hr).
Defined.

(** One query alone behaves as the counter says. *)
Lemma seeks_increase_spec s h loc x :
  sc_allowed_seeks s = Some loc → h !! loc = Some x → (0 ≤ x < 2 ^ 32 - 1)%Z →
  seeks_increase s h
  = if decide (SEEK_COMPACTION_COUNT < x)%Z then Ok (true, <[loc := 0%Z]> h)
    else Ok (false, <[loc := (x + 1)%Z]> h).
Proof.
  intros Hs Hx Hr. unfold seeks_increase. rewrite Hs, Hx. cbn -[Z.pow Z.modulo].
  unfold u32_add, compare_exchange. rewrite Z.mod_small by lia.
  case_decide; [|done]. rewrite decide_True by lia. cbn. by rewrite decide_True.
Qed.
