(* ===== verification/BTreeTable.v ===== *)
(** * The in-memory table (src/kernel/lsm/table/btree_table/mod.rs, iter.rs)

    A table kept in a [BTreeMap]; it implements [Table]. *)

From S2P Require Import Prelude Std Iterator Scope.
From Stdlib Require Import ZArith Lia Strings.Byte Sorted.
From stdpp Require Import base list gmap.

Set Default Goal Selector "!".

Record BTreeTable := mkBTreeTable {
  bt_level : nat;
  bt_gen : Z;
  bt_len : nat;
  bt_inner : list (bytes * KeyValue);
}.

Definition btree_table_new (level : nat) (gen : Z) (data : list KeyValue) : BTreeTable :=
  {| bt_level := level; bt_gen := gen; bt_len := length data;
     bt_inner := btree_from_iter ((λ kv : KeyValue, (kv.1, kv)) <$> data) |}.

Record BTreeTableIter := mkBTreeTableIter {
  bti_inner : option (list (bytes * KeyValue));
  bti_table : BTreeTable;
}.

Definition btree_table_iter_seek (s : Seek) (it : BTreeTableIter) : BTreeTableIter :=
  {| bti_inner :=
       match s with
       | SeekFirst => Some (btree_range Unbounded Unbounded (bt_inner (bti_table it)))
       | SeekLast => None
       | SeekBackward key =>
           Some (btree_range (Included key) Unbounded (bt_inner (bti_table it)))
       end;
     bti_table := bti_table it |}.

Definition btree_table_iter_new (t : BTreeTable) : BTreeTableIter :=
  btree_table_iter_seek SeekFirst {| bti_inner := None; bti_table := t |}.

Definition item_clone (e : bytes * KeyValue) : KeyValue := e.2.

Definition btree_table_iter_try_next (it : BTreeTableIter)
    : KernelResult (option KeyValue * BTreeTableIter) :=
  Ok (match bti_inner it with
      | Some (e :: rest) =>
          (Some (item_clone e), {| bti_inner := Some rest; bti_table := bti_table it |})
      | _ => (None, it)
      end).

#[global] Instance btree_table_iter_iter : Iter BTreeTableIter KeyValue := {
  try_next := btree_table_iter_try_next;
  is_valid _ := true;
}.

#[global] Instance btree_table_iter_seek_iter : SeekIter BTreeTableIter KeyValue :=
  λ s it, Ok (btree_table_iter_seek s it).

#[global] Instance btree_table : Table BTreeTable := {
  table_iter_state := BTreeTableIter;
  table_query t key := Ok (btree_get key (bt_inner t));
  table_len := bt_len;
  table_size_of_disk _ := 0%N;
  table_gen := bt_gen;
  table_level := bt_level;
  table_iter t := Ok (btree_table_iter_new t);
}.

(** ** Correctness *)

Definition keyed (l : list KeyValue) : list (bytes * KeyValue) := (λ kv, (kv.1, kv)) <$> l.

Lemma keyed_insert k v m :
  btree_insert k (k, v) (keyed m) = keyed (btree_insert k v m).
Proof.
  induction m as [|[k' v'] m IH]; [done|]. cbn. destruct (cmp k k') eqn:E; [|done|].
  - apply cmp_eq_iff in E as ->. done.
  - rewrite fmap_cons. f_equal. apply IH.
Qed.

Lemma keyed_from_iter l : btree_from_iter (keyed l) = keyed (btree_from_iter l).
Proof.
  induction l as [|[k v] l IH] using rev_ind; [done|].
  unfold keyed at 1. rewrite fmap_app. fold (keyed l). cbn [fmap list_fmap fst].
  by rewrite !btree_from_iter_snoc, IH, keyed_insert.
Qed.

Lemma keyed_get k m : btree_get k (keyed m) = (λ v, (k, v)) <$> btree_get k m.
Proof.
  induction m as [|[k' v'] m IH]; [done|]. cbn. destruct (cmp k k') eqn:E; [|done..].
  apply cmp_eq_iff in E as ->. done.
Qed.

Lemma keyed_range lo hi m : btree_range lo hi (keyed m) = keyed (btree_range lo hi m).
Proof. unfold btree_range, keyed. by rewrite filter_fmap. Qed.

Lemma keyed_iter_exhausts t l :
  iter_exhausts {| bti_inner := Some (keyed l); bti_table := t |} l.
Proof.
  induction l as [|kv l IH]; [|by eexists].
  intros n. induction n as [|n IHn]; [done|]. by eexists.
Qed.

Lemma btree_table_seek_exhausts level gen data s inner :
  iter_exhausts
    (btree_table_iter_seek s {| bti_inner := inner; bti_table := btree_table_new level gen data |})
    (seek_range s (btree_from_iter data)).
Proof.
  unfold btree_table_iter_seek, btree_table_new. cbn [bti_table bt_inner].
  fold (keyed data). rewrite keyed_from_iter.
  destruct s as [| |key]; rewrite ?keyed_range.
  - unfold btree_range. rewrite filter_all by done. apply keyed_iter_exhausts.
  - intros n. induction n as [|n IHn]; [done|]. by eexists.
  - replace (seek_range (SeekBackward key) (btree_from_iter data))
      with (btree_range (Included key) Unbounded (btree_from_iter data));
      [apply keyed_iter_exhausts|].
    apply filter_iff_in. intros e _. unfold in_range. cbn. by rewrite andb_true_r.
Qed.

Lemma btree_table_holds level gen data :
  ksorted data → table_holds (btree_table_new level gen data) data.
Proof.
  intros Hs. split; [done| | |done].
  - intros k. cbn. fold (keyed data). by rewrite keyed_from_iter, btree_from_sorted, keyed_get.
  - eexists. split; [done|].
    rewrite <- (btree_from_sorted data Hs) at 2. apply iter_exhausts_yields, (btree_table_seek_exhausts _ _ _ SeekFirst).
Qed.

Lemma btree_table_seeks level gen data :
  ksorted data → table_seeks (btree_table_new level gen data) data.
Proof.
  intros Hs. pose proof (btree_from_sorted data Hs) as E. split.
  - eexists. split; [done|]. rewrite <- E at 2. apply (btree_table_seek_exhausts _ _ _ SeekFirst).
  - intros s. eexists _, _, []. split_and!; [done..| |by apply seek_overrun_nil].
    rewrite <- E at 2. apply btree_table_seek_exhausts.
Qed.

(** An in-memory table built from any data, in any order and with repeated keys,
    answers a query with the last value of the key, and iterates from any seek over the
    keys in order, each with that value. *)
Theorem btree_table_correct level gen data :
  (∀ k, table_query (btree_table_new level gen data) k
        = Ok (last (filter (λ kv : KeyValue, kv.1 = k) data))) ∧
  ∃ it, table_iter (btree_table_new level gen data) = Ok it ∧
  ∀ s, ∃ it', seek s it = Ok it' ∧ iter_yields it' (seek_range s (btree_from_iter data)).
Proof.
  split.
  - intros k. cbn. fold (keyed data).
    rewrite keyed_from_iter, keyed_get, btree_get_from_iter. f_equal.
    destruct (last _) as [[k' v]|] eqn:E; [|done]. cbn.
    apply last_Some in E as [l' Hl'].
    assert ((k', v) ∈ filter (λ e : bytes * option bytes, e.1 = k) data)
      as [Hk _]%list_elem_of_filter by (rewrite Hl'; set_solver).
    cbn in Hk. by rewrite Hk.
  - eexists. split; [done|]. intros s. eexists. split; [done|]. apply iter_exhausts_yields, btree_table_seek_exhausts.
Qed.
