(* ===== verification/SSTable.v ===== *)
(** * Sorted string tables (src/kernel/lsm/table/ss_table/mod.rs, footer.rs, and the
    meta block of block.rs)

    A table file is its data blocks, one index block, the meta block with the bloom
    filter, and a footer of fixed size.  Blocks are read through a cache shared by all
    tables; the theorems show that a table answers as the map it was built from, with
    any coherent cache, and again after it has been reopened from its file. *)

From S2P Require Import Prelude Std Crates Block Iterator Io Config Bloom Lru Builder.
From Stdlib Require Import ZArith QArith Lia Strings.Byte Sorted.
From stdpp Require Import base list gmap.

Set Default Goal Selector "!".
Open Scope nat_scope.

(** ** The footer *)

Definition TABLE_FOOTER_SIZE : nat := 21.

Record Footer := mkFooter {
  ft_level : Z;
  ft_index_offset : Z;
  ft_index_len : Z;
  ft_meta_offset : Z;
  ft_meta_len : Z;
  ft_size_of_disk : Z;
}.

Section footer.
Context `{IE : IntegerEncoding}.

Definition read_fixedint (d : Dir) (r : IoReader) (n : nat) : KernelResult (Z * IoReader) :=
  let? (bs, r') := reader_read_exact d r n in Ok (decode_fixed bs, r').

Definition footer_read (d : Dir) (r : IoReader) : KernelResult Footer :=
  let? r0 := reader_seek d r (FromEnd (- Z.of_nat TABLE_FOOTER_SIZE)) in
  let? (level, r1) := read_fixedint d r0 1 in
  let? (index_offset, r2) := read_fixedint d r1 4 in
  let? (index_len, r3) := read_fixedint d r2 4 in
  let? (meta_offset, r4) := read_fixedint d r3 4 in
  let? (meta_len, r5) := read_fixedint d r4 4 in
  let? (size_of_disk, _) := read_fixedint d r5 4 in
  Ok {| ft_level := level; ft_index_offset := index_offset; ft_index_len := index_len;
        ft_meta_offset := meta_offset; ft_meta_len := meta_len; ft_size_of_disk := size_of_disk |}.

Definition footer_to_raw (f : Footer) (bs : bytes) : bytes :=
  bs ++ encode_fixed 1 (ft_level f) ++ encode_fixed 4 (ft_index_offset f)
     ++ encode_fixed 4 (ft_index_len f) ++ encode_fixed 4 (ft_meta_offset f)
     ++ encode_fixed 4 (ft_meta_len f) ++ encode_fixed 4 (ft_size_of_disk f).
End footer.

(** ** The meta block *)

Record MetaBlock := mkMetaBlock {
  mb_filter : BloomFilter;
  mb_len : nat;
  mb_index_restart_interval : nat;
  mb_data_restart_interval : nat;
}.

Section meta_block.
Context `{IE : IntegerEncoding}.

Definition meta_to_raw (m : MetaBlock) (bs : bytes) : bytes :=
  bloom_to_raw (mb_filter m)
    (bs ++ encode_fixed 4 (as_u32 (mb_len m)) ++ encode_fixed 4 (as_u32 (mb_index_restart_interval m))
        ++ encode_fixed 4 (as_u32 (mb_data_restart_interval m))).

Definition meta_from_raw (bs : bytes) : KernelResult MetaBlock :=
  if decide (length bs < 12) then Panic
  else
    let? filter := bloom_from_raw (drop 12 bs) in
    Ok {| mb_filter := filter;
          mb_len := Z.to_nat (decode_fixed (take 4 bs));
          mb_index_restart_interval := Z.to_nat (decode_fixed (take 4 (drop 4 bs)));
          mb_data_restart_interval := Z.to_nat (decode_fixed (take 4 (drop 8 bs))) |}.
End meta_block.

(** ** Tables *)

Inductive BlockType : Type :=
  | BlockData (b : Block Value)
  | BlockIndex (b : Block Index).

#[global] Instance index_eq_dec : EqDecision Index.
Proof. solve_decision. Defined.

(** The key of a block in the cache; the index block has none of its own. *)
Abbreviation BlockKey := (Z * option Index)%type.

(** [st_dir] is the directory the reader reads from; a table file is never rewritten. *)
Record SSTable := mkSSTable {
  st_footer : Footer;
  st_reader : IoReader;
  st_gen : Z;
  st_meta : MetaBlock;
  st_dir : Dir;
}.

Definition opt_with_compress_type (o : BlockOptions) (c : CompressType) : BlockOptions :=
  {| opt_block_size := opt_block_size o; opt_compress_type := c;
     opt_data_restart_interval := opt_data_restart_interval o;
     opt_index_restart_interval := opt_index_restart_interval o |}.
Definition opt_with_data_restart_interval (o : BlockOptions) (n : nat) : BlockOptions :=
  {| opt_block_size := opt_block_size o; opt_compress_type := opt_compress_type o;
     opt_data_restart_interval := n; opt_index_restart_interval := opt_index_restart_interval o |}.
Definition opt_with_index_restart_interval (o : BlockOptions) (n : nat) : BlockOptions :=
  {| opt_block_size := opt_block_size o; opt_compress_type := opt_compress_type o;
     opt_data_restart_interval := opt_data_restart_interval o; opt_index_restart_interval := n |}.

(** A cache without a cache: every block is loaded anew. *)
#[global] Instance no_cache {K V} : Cache K V unit := λ key fn_once c, (fn_once key, c).
#[global, program] Instance no_cache_laws {K V} : CacheLaws K V unit :=
  {| cache_coherent _ _ := True |}.
Next Obligation.
  intros K V load [] key f _ E. exists (). unfold cache_get_or_insert, no_cache. by rewrite E.
Qed.

Section ss_table.
Context `{IE : IntegerEncoding} {CRC : Crc32} {LZ : Lz4} {IT : Itertools}.
Context {DH : DefaultHasher} {FL : F64}.

(** [SSTable::new]: [meta_len] is computed as written, [len - data + index]. *)
Definition sst_options (config : Config) : BlockOptions :=
  opt_with_index_restart_interval
    (opt_with_data_restart_interval
       (opt_with_compress_type (block_options_from config) CompressLZ4)
       (cfg_data_restart_interval config))
    (cfg_index_restart_interval config).

Definition sst_add (st : BloomFilter * BlockBuilder) (data : KeyValue)
    : KernelResult (BloomFilter * BlockBuilder) :=
  let? filter := bloom_insert st.1 data.1 in
  let? builder := builder_add st.2 (data.1, value_from data.2) in
  Ok (filter, builder).

Definition sst_footer (level data_bytes_len index_bytes_len len : nat) : Footer :=
  {| ft_level := as_u8 level;
     ft_index_offset := as_u32 data_bytes_len;
     ft_index_len := as_u32 index_bytes_len;
     ft_meta_offset := as_u32 (data_bytes_len + index_bytes_len);
     ft_meta_len := as_u32 (len - data_bytes_len + index_bytes_len);
     ft_size_of_disk := as_u32 (len + TABLE_FOOTER_SIZE) |}.

(** The writer's [write_all] and [flush]. *)
Definition write_file (d : Dir) (gen : Z) (io_type : IoType) (bs : bytes) : Dir :=
  let '(d1, w1) := io_writer d gen io_type in
  let '(d2, w2) := writer_write d1 w1 bs in
  (writer_flush d2 w2).1.

Definition sst_new (d : Dir) (config : Config) (gen : Z) (vec_data : list KeyValue) (level : nat)
    (io_type : IoType) (seeds : Z * Z) : KernelResult (SSTable * Dir) :=
  let len := length vec_data in
  let filter0 := bloom_new len (f64_literal (cfg_desired_error_prob config)) seeds in
  let? (filter, builder) :=
    res_foldM sst_add (filter0, block_builder_new (sst_options config)) vec_data in
  let meta := {| mb_filter := filter; mb_len := len;
                 mb_index_restart_interval := cfg_index_restart_interval config;
                 mb_data_restart_interval := cfg_data_restart_interval config |} in
  let? (bs0, data_bytes_len, index_bytes_len) := builder_build builder in
  let bs1 := meta_to_raw meta bs0 in
  let footer := sst_footer level data_bytes_len index_bytes_len (length bs1) in
  let bs2 := footer_to_raw footer bs1 in
  let d1 := write_file d gen io_type bs2 in
  let '(d2, reader) := io_reader d1 gen io_type in
  Ok ({| st_footer := footer; st_reader := reader; st_gen := gen; st_meta := meta; st_dir := d2 |}, d2).

(** [SSTable::load_from_file] *)
Definition sst_load_from_file (d : Dir) (reader : IoReader) : KernelResult SSTable :=
  let? footer := footer_read d reader in
  let? r1 := reader_seek d reader (FromStart (Z.to_nat (ft_meta_offset footer))) in
  let '(buf, r2) := reader_read d r1 (Z.to_nat (ft_meta_len footer)) in
  let? meta := meta_from_raw buf in
  Ok {| st_footer := footer; st_reader := r2; st_gen := rd_gen reader; st_meta := meta; st_dir := d |}.

(** Every load seeks first, so the position the reader is left at does not matter. *)
Definition loading_block {T} `{BlockItem T} (t : SSTable) (offset : Z) (len : nat)
    (compress_type : CompressType) (restart_interval : nat) : KernelResult (Block T) :=
  let? r := reader_seek (st_dir t) (st_reader t) (FromStart (Z.to_nat offset)) in
  let? (buf, _) := reader_read_exact (st_dir t) r len in
  block_decode buf compress_type restart_interval.

Definition data_block (t : SSTable) (index : Index) : KernelResult BlockType :=
  let? b := loading_block t (i_offset index) (i_len index) CompressLZ4
              (mb_data_restart_interval (st_meta t)) in
  Ok (BlockData b).

Definition load_index (t : SSTable) : KernelResult BlockType :=
  let? b := loading_block t (ft_index_offset (st_footer t)) (Z.to_nat (ft_index_len (st_footer t)))
              CompressNone (mb_index_restart_interval (st_meta t)) in
  Ok (BlockIndex b).

(** What the closures passed to the cache load for a key. *)
Definition load_data (t : SSTable) (key : BlockKey) : KernelResult BlockType :=
  let? index := ok_or key.2 DataEmpty in data_block t index.

Section cached.
Context {C : Type} {CC : Cache BlockKey BlockType C}.

(** A computation that uses the cache. *)
Definition cbind {A B} (m : C → KernelResult A * C) (k : A → C → KernelResult B * C)
    (c : C) : KernelResult B * C :=
  match m c with
  | (Ok a, c') => k a c'
  | (Err e, c') => (Err e, c')
  | (Panic, c') => (Panic, c')
  end.
Definition clift {A} (r : KernelResult A) (c : C) : KernelResult A * C := (r, c).

Definition index_block (t : SSTable) (c : C) : KernelResult (Block Index) * C :=
  cbind (cache_get_or_insert (st_gen t, None) (λ _, load_index t)) (λ block_type,
    clift (match block_type with
           | BlockIndex b => Ok b
           | BlockData _ => Err DataEmpty
           end)) c.

Definition sst_query (t : SSTable) (key : bytes) (c : C) : KernelResult (option KeyValue) * C :=
  cbind (clift (bloom_contains (mb_filter (st_meta t)) key)) (λ found,
    if (found : bool) then
      cbind (index_block t) (λ ib,
      cbind (clift (find_with_upper ib key)) (λ index,
      cbind (cache_get_or_insert (st_gen t, Some index) (load_data t)) (λ block_type,
        match block_type with
        | BlockData b =>
            clift (let? (value, found) := block_find b key in
                   Ok (if (found : bool) then Some (key, value) else None))
        | BlockIndex _ => clift (Ok None)
        end)))
    else clift (Ok None)) c.
End cached.

Definition sst_len (t : SSTable) : nat := mb_len (st_meta t).
Definition sst_size_of_disk (t : SSTable) : N := Z.to_N (ft_size_of_disk (st_footer t)).
Definition sst_level (t : SSTable) : nat := Z.to_nat (ft_level (st_footer t)).

(** What is behind the cache: the blocks of a table. *)
Definition sst_load (t : SSTable) (o : option Index) : KernelResult BlockType :=
  match o with Some index => data_block t index | None => load_index t end.
End ss_table.

(** ** Files *)

Lemma write_file_fresh d gen t bs :
  file_content d gen = [] → file_content (write_file d gen t bs) gen = bs.
Proof.
  intros Hd. unfold write_file, io_writer, open_file. rewrite Hd.
  assert (∀ d', file_content (<[gen := file_write (file_content (<[gen := []]> d) gen) 0 bs]> d') gen = bs) as Hw.
  { intros d'. rewrite !file_content_insert. unfold file_write. cbn. rewrite drop_nil. by rewrite app_nil_r. }
  destruct t; cbn [writer_write wr_type].
  - unfold buf_write. cbn [wr_pending length]. rewrite Nat.sub_0_r.
    case_decide as Hlt; cbn [fst set_pending writer_flush wr_type add_logical].
    + unfold flush_buf, set_pending. cbn [wr_pending add_logical app].
      destruct bs as [|x bs]; cbn [fst]; [apply file_content_insert|]. unfold raw_write. cbn [wr_gen wr_pos].
      apply Hw.
    + destruct (decide (BUF_CAPACITY ≤ length bs)) as [_|]; [|lia].
      destruct (decide (BUF_CAPACITY < length bs)); cbn [flush_buf wr_pending]; unfold raw_write;
        cbn [wr_gen wr_pos writer_flush wr_type add_logical fst flush_buf wr_pending]; apply Hw.
  - unfold raw_write. cbn [wr_gen wr_pos writer_flush wr_type fst]. apply Hw.
Qed.

Section file_reads.
Context `{IE : IntegerEncoding} {IEL : IntegerEncodingLaws}.

Lemma seek_read_exact d (r : IoReader) pos n pre mid post :
  file_content d (rd_gen r) = pre ++ mid ++ post → pos = length pre → n = length mid →
  (let? r' := reader_seek d r (FromStart pos) in
   let? (buf, _) := reader_read_exact d r' n in Ok buf) = Ok mid.
Proof.
  intros Hf -> ->. unfold reader_seek, seek_pos. rewrite decide_True by lia. cbn [res_bind].
  unfold reader_read_exact, cursor_read_exact. cbn [rd_gen rd_pos]. rewrite Hf, Nat2Z.id.
  rewrite drop_app_length, decide_True by (rewrite length_app; lia). cbn [res_bind].
  by rewrite take_app_length.
Qed.

Lemma read_fixedint_at d gen ty n v pre post :
  file_content d gen = pre ++ encode_fixed n v ++ post → (0 ≤ v < 2 ^ (8 * Z.of_nat n))%Z →
  read_fixedint d {| rd_gen := gen; rd_type := ty; rd_pos := length pre |} n
  = Ok (v, {| rd_gen := gen; rd_type := ty; rd_pos := length (pre ++ encode_fixed n v) |}).
Proof.
  intros Hf Hv. unfold read_fixedint, reader_read_exact, cursor_read_exact. cbn [rd_gen rd_pos rd_type].
  rewrite Hf. pose proof (encode_fixed_length n v) as Hl.
  rewrite drop_app_length, decide_True by (rewrite length_app; lia). cbn [res_bind].
  rewrite take_app_length' by done. rewrite decode_encode_fixed by done. by rewrite length_app, Hl.
Qed.

Definition footer_wf (f : Footer) : Prop :=
  (0 ≤ ft_level f < 2 ^ 8)%Z ∧ (0 ≤ ft_index_offset f < 2 ^ 32)%Z ∧ (0 ≤ ft_index_len f < 2 ^ 32)%Z ∧
  (0 ≤ ft_meta_offset f < 2 ^ 32)%Z ∧ (0 ≤ ft_meta_len f < 2 ^ 32)%Z ∧
  (0 ≤ ft_size_of_disk f < 2 ^ 32)%Z.

Lemma footer_to_raw_length f bs : length (footer_to_raw f bs) = length bs + TABLE_FOOTER_SIZE.
Proof. unfold footer_to_raw. rewrite !length_app, !encode_fixed_length. done. Qed.

(** The footer is read back from the end of a file. *)
Lemma footer_roundtrip d r f bs :
  footer_wf f → file_content d (rd_gen r) = footer_to_raw f bs → footer_read d r = Ok f.
Proof.
  intros (H0 & H1 & H2 & H3 & H4 & H5) Hf. unfold footer_read.
  assert (reader_seek d r (FromEnd (- Z.of_nat TABLE_FOOTER_SIZE))
    = Ok {| rd_gen := rd_gen r; rd_type := rd_type r; rd_pos := length bs |}) as ->.
  { unfold reader_seek, seek_pos. rewrite Hf, footer_to_raw_length, decide_True by lia. cbn [res_bind].
    do 2 f_equal. lia. }
  cbn [res_bind]. unfold footer_to_raw in Hf.
  rewrite (read_fixedint_at _ _ _ 1 (ft_level f) _ _ Hf) by done. cbn [res_bind].
  rewrite app_assoc in Hf.
  rewrite (read_fixedint_at _ _ _ 4 (ft_index_offset f) _ _ Hf) by done. cbn [res_bind].
  rewrite app_assoc in Hf.
  rewrite (read_fixedint_at _ _ _ 4 (ft_index_len f) _ _ Hf) by done. cbn [res_bind].
  rewrite app_assoc in Hf.
  rewrite (read_fixedint_at _ _ _ 4 (ft_meta_offset f) _ _ Hf) by done. cbn [res_bind].
  rewrite app_assoc in Hf.
  rewrite (read_fixedint_at _ _ _ 4 (ft_meta_len f) _ _ Hf) by done. cbn [res_bind].
  rewrite app_assoc in Hf. rewrite <- (app_nil_r (encode_fixed 4 (ft_size_of_disk f))) in Hf.
  rewrite (read_fixedint_at _ _ _ 4 (ft_size_of_disk f) _ _ Hf) by done. cbn [res_bind].
  by destruct f.
Qed.
End file_reads.

(** ** A table built from data *)

Section built.
Context `{IE : IntegerEncoding} {CRC : Crc32} {LZ : Lz4} {IT : Itertools}.
Context {DH : DefaultHasher} {FL : F64}.
Context {IEL : IntegerEncodingLaws} {CRCL : Crc32Laws} {LZL : Lz4Laws} {ITL : ItertoolsLaws}.
Context (config : Config).

Abbreviation o := (sst_options config).

Definition sst_entries (vec_data : list KeyValue) : list (bytes * Value) :=
  (λ kv : KeyValue, (kv.1, value_from kv.2)) <$> vec_data.

Definition index_bytes (chunks : list (list (bytes * Value))) : bytes :=
  block_encode (block_of (chunk_index o 0 chunks) (cfg_index_restart_interval config)) CompressNone [].

(** What a table can hold: sorted entries, keys and values below 4 GiB, no value that is
    present and empty. *)
Record sst_data_ok (vec_data : list KeyValue) : Prop := {
  sd_sorted : ksorted vec_data;
  sd_nonempty : vec_data ≠ [];
  sd_data_interval : cfg_data_restart_interval config ≠ 0;
  sd_index_interval : cfg_index_restart_interval config ≠ 0;
  sd_data_fits : fits_u32 (cfg_data_restart_interval config);
  sd_index_fits : fits_u32 (cfg_index_restart_interval config);
  sd_wf kv : kv ∈ vec_data → fits_u32 (length kv.1) ∧ value_wf (value_from kv.2);
  sd_len : fits_u32 (length vec_data);
  sd_bits : 0 < optimal_bits_count (length vec_data) (f64_literal (cfg_desired_error_prob config));
}.

(** A table whose file holds its chunks where the footer says, and whose filter knows
    its keys. *)
Record sst_built (t : SSTable) (vec_data : list KeyValue) (chunks : list (list (bytes * Value)))
    : Prop := {
  sb_concat : concat chunks = sst_entries vec_data;
  sb_nonempty : Forall (λ ch, ch ≠ []) chunks;
  sb_file : ∃ rest, file_content (st_dir t) (rd_gen (st_reader t))
                    = data_bytes o chunks ++ index_bytes chunks ++ rest;
  sb_fits : fits_u32 (length (data_bytes o chunks ++ index_bytes chunks));
  sb_index_offset : ft_index_offset (st_footer t) = Z.of_nat (length (data_bytes o chunks));
  sb_index_len : ft_index_len (st_footer t) = Z.of_nat (length (index_bytes chunks));
  sb_filter k : ∃ b, bloom_contains (mb_filter (st_meta t)) k = Ok b ∧ (k ∈ vec_data.*1 → b = true);
  sb_data_interval : mb_data_restart_interval (st_meta t) = cfg_data_restart_interval config;
  sb_index_interval : mb_index_restart_interval (st_meta t) = cfg_index_restart_interval config;
  sb_len : mb_len (st_meta t) = length vec_data;
}.

(** No block of the table runs into the inverted checksum test. *)
Definition sst_clear (t : SSTable) : Prop :=
  load_index t ≠ Err CrcMisMatch ∧
  ∀ b e, load_index t = Ok (BlockIndex b) → e ∈ vec_entry b →
         data_block t (e_item e.2) ≠ Err CrcMisMatch.

Lemma sst_entries_sorted vec_data : ksorted vec_data → ksorted (sst_entries vec_data).
Proof.
  intros Hs. apply StronglySorted_map. eapply StronglySorted_impl; [|exact Hs]. by intros x y _ _ ?.
Qed.

Lemma sst_entries_get vec_data key :
  btree_get key (sst_entries vec_data) = value_from <$> btree_get key vec_data.
Proof.
  unfold sst_entries. induction vec_data as [|[k v] l IH]; [done|]. cbn. by destruct (cmp key k).
Qed.

Section chunks.
Context (t : SSTable) (vec_data : list KeyValue) (chunks : list (list (bytes * Value))).
Context (Hok : sst_data_ok vec_data) (Hb : sst_built t vec_data chunks).

Lemma chunks_sorted : ksorted (concat chunks).
Proof. rewrite (sb_concat _ _ _ Hb). apply sst_entries_sorted, Hok. Qed.

Lemma chunks_wf ch : ch ∈ chunks → kvs_wf ch.
Proof.
  intros Hch kv Hkv. assert (kv ∈ concat chunks) as Hin by (apply elem_of_concat; eauto).
  rewrite (sb_concat _ _ _ Hb) in Hin. apply list_elem_of_fmap in Hin as (kv0 & -> & Hin).
  by apply (sd_wf _ Hok).
Qed.

Lemma chunks_nonempty : chunks ≠ [].
Proof.
  intros E. pose proof (sb_concat _ _ _ Hb) as Hc. rewrite E in Hc. cbn in Hc.
  symmetry in Hc. apply fmap_nil_inv in Hc. by apply (sd_nonempty _ Hok).
Qed.

Lemma index_wf_all : kvs_wf (chunk_index o 0 chunks).
Proof.
  intros [k idx] (j & Hj)%list_elem_of_lookup. rewrite chunk_index_lookup in Hj.
  destruct (chunks !! j) as [ch|] eqn:Ej; [|done]. injection Hj as <- <-.
  pose proof (list_elem_of_lookup_2 _ _ _ Ej) as Hch.
  destruct (chunk_key_in ch) as [v Hv]; [apply (Forall_lookup_1 _ _ _ _ (sb_nonempty _ _ _ Hb) Ej)|].
  split; [apply (chunks_wf ch Hch _ Hv)|]. pose proof (sb_fits _ _ _ Hb) as Hfit.
  unfold fits_u32 in Hfit. rewrite length_app in Hfit.
  rewrite (data_bytes_split o _ _ _ Ej), !length_app in Hfit.
  split; cbn [i_offset i_len snd]; unfold fits_u32; lia.
Qed.

Lemma loading_block_ok {T} {BI : BlockItem T} {BIL : BlockItemLaws T} (b : Block T)
    (off : Z) n ct' pre post :
  block_wf b →
  file_content (st_dir t) (rd_gen (st_reader t)) = pre ++ block_encode b ct' [] ++ post →
  off = Z.of_nat (length pre) → n = length (block_encode b ct' []) →
  loading_block t off n ct' (restart_interval b) = Ok b ∨
  loading_block (T:=T) t off n ct' (restart_interval b) = Err CrcMisMatch.
Proof.
  intros Hwf Hf -> ->. unfold loading_block. rewrite Nat2Z.id.
  pose proof (seek_read_exact (st_dir t) (st_reader t) _ _ _ _ _ Hf eq_refl eq_refl) as Hr.
  destruct (reader_seek _ _ _) as [r| |]; [|done..]. cbn [res_bind] in *.
  destruct (reader_read_exact _ _ _) as [[buf r']| |]; [|done..]. cbn [res_bind] in *.
  injection Hr as ->. unfold block_decode, block_encode. destruct ct'; cbn [res_bind].
  - rewrite from_to_raw by done. case_decide; auto.
  - rewrite app_nil_l, lz4_decode_encode. cbn [res_bind]. rewrite from_to_raw by done.
    case_decide; auto.
Qed.

(** The index block, and the chunks behind its entries. *)
Lemma load_index_ok :
  sst_clear t →
  load_index t = Ok (BlockIndex (block_of (chunk_index o 0 chunks) (cfg_index_restart_interval config))).
Proof.
  intros [Hc _]. unfold load_index in *.
  rewrite (sb_index_interval _ _ _ Hb), (sb_index_offset _ _ _ Hb), (sb_index_len _ _ _ Hb), Nat2Z.id in *.
  destruct (sb_file _ _ _ Hb) as [rest Hf].
  destruct (loading_block_ok (block_of (chunk_index o 0 chunks) (cfg_index_restart_interval config))
    _ _ CompressNone _ _ (block_of_wf _ _ (sd_index_interval _ Hok) index_wf_all) Hf eq_refl eq_refl)
    as [E|E]; cbn [restart_interval block_of] in E; unfold index_bytes in *; rewrite E in *; done.
Qed.

Lemma data_block_ok j ch idx :
  sst_clear t → chunks !! j = Some ch → chunk_index o 0 chunks !! j = Some (chunk_key ch, idx) →
  data_block t idx = Ok (BlockData (block_of ch (cfg_data_restart_interval config))).
Proof.
  intros Hcl Hj Hi. pose proof (load_index_ok Hcl) as Hli. destruct Hcl as [_ Hc].
  assert (data_block t idx ≠ Err CrcMisMatch) as Hn.
  { apply (Hc _ (block_entry (chunk_index o 0 chunks) (cfg_index_restart_interval config)
             (j, (chunk_key ch, idx))) Hli).
    apply (list_elem_of_lookup_2 _ j). by rewrite block_of_lookup, Hi. }
  rewrite chunk_index_lookup, Hj in Hi. injection Hi as <-.
  destruct (sb_file _ _ _ Hb) as [rest Hf].
  rewrite (data_bytes_split o _ _ _ Hj), <- !app_assoc in Hf. unfold data_block in *. cbn [i_offset i_len] in *.
  rewrite (sb_data_interval _ _ _ Hb) in *.
  assert (block_wf (block_of ch (cfg_data_restart_interval config))) as Hwf.
  { apply block_of_wf; [apply Hok|]. apply chunks_wf. by eapply list_elem_of_lookup_2. }
  destruct (loading_block_ok (block_of ch (cfg_data_restart_interval config))
    _ _ CompressLZ4 _ _ Hwf Hf eq_refl eq_refl) as [E|E];
    cbn [restart_interval block_of] in E; unfold chunk_bytes in *; cbn [plus] in *;
    change (opt_compress_type o) with CompressLZ4 in *;
    change (opt_data_restart_interval o) with (cfg_data_restart_interval config) in *;
    rewrite E in *; done.
Qed.

(** The answer of a query that goes straight to the blocks. *)
Lemma sst_query_built key :
  sst_clear t →
  ∃ found, bloom_contains (mb_filter (st_meta t)) key = Ok found ∧
  sst_query t key () = (Ok ((λ v, (key, v)) <$> btree_get key vec_data), ()) ∧
  (found = true → ∃ ib idx b, load_index t = Ok (BlockIndex ib) ∧ find_with_upper ib key = Ok idx ∧
     data_block t idx = Ok (BlockData b)).
Proof.
  intros Hcl. destruct (sb_filter _ _ _ Hb key) as (found & Hf & Hin). exists found. split; [done|].
  unfold sst_query, cbind, clift, index_block. rewrite Hf.
  destruct found; cbn [fst snd]; cycle 1.
  { split; [|done]. do 2 f_equal. destruct (btree_get key vec_data) as [v|] eqn:E; [|done]. exfalso.
    apply btree_get_Some in E; [|apply Hok]. discriminate Hin.
    by apply (list_elem_of_fmap_2 fst _ (key, v)). }
  pose proof (load_index_ok Hcl) as Hli. unfold cbind, clift, cache_get_or_insert, no_cache. rewrite Hli.
  pose proof (chunk_index_sorted o 0 chunks chunks_sorted (sb_nonempty _ _ _ Hb)) as His.
  assert (chunk_index o 0 chunks ≠ []) as Hine.
  { intros E%(f_equal length). rewrite chunk_index_length in E. cbn in E.
    by apply chunks_nonempty, nil_length_inv. }
  rewrite find_with_upper_spec by (done || apply Hok). rewrite chunk_index_length.
  set (j := min (length chunks - 1) (rank key (chunk_index o 0 chunks))).
  destruct (lookup_lt_is_Some_2 chunks j) as [ch Hj].
  { pose proof chunks_nonempty. destruct chunks; [done|]. unfold j. cbn [length]. lia. }
  assert (∃ idx, chunk_index o 0 chunks !! j = Some (chunk_key ch, idx)) as [idx Hidx].
  { rewrite chunk_index_lookup, Hj. by eexists. }
  rewrite Hidx. cbn [fmap option_fmap option_map snd or_panic].
  pose proof (data_block_ok j ch idx Hcl Hj Hidx) as Hdb.
  unfold load_data. cbn [snd ok_or res_bind]. rewrite Hdb. split.
  - rewrite block_find_spec; [|apply Hok|by eapply chunk_sorted, Hj; apply chunks_sorted].
    rewrite <- (chunk_get o chunks key j ch 0 chunks_sorted (sb_nonempty _ _ _ Hb) Hj eq_refl).
    rewrite (sb_concat _ _ _ Hb), sst_entries_get. by destruct (btree_get key vec_data).
  - intros _. eexists _, idx, _. split_and!; [done| |exact Hdb].
    rewrite find_with_upper_spec by (done || apply Hok). rewrite chunk_index_length. fold j. by rewrite Hidx.
Qed.
End chunks.

(** *** Building *)

(** The size of the data blocks the builder cuts the data into. *)
Definition sst_data_size (vec_data : list KeyValue) : KernelResult nat :=
  let? b := res_foldM builder_add (block_builder_new o) (sst_entries vec_data) in
  let? b' := builder_flush b in
  Ok (length (concat ((λ bk : Block Value * bytes, block_encode bk.1 CompressLZ4 []) <$> bb_vec_block b'))).

Lemma sst_adds_split vec_data f b f' b' :
  res_foldM bloom_insert f vec_data.*1 = Ok f' →
  res_foldM builder_add b (sst_entries vec_data) = Ok b' →
  res_foldM sst_add (f, b) vec_data = Ok (f', b').
Proof.
  revert f b. induction vec_data as [|kv l IH]; intros f b; cbn [fmap list_fmap sst_entries res_foldM].
  { by intros [= ->] [= ->]. }
  unfold sst_add at 1. cbn [fst snd].
  destruct (bloom_insert f kv.1) as [f1| |]; [|done..]. cbn [res_bind].
  destruct (builder_add b _) as [b1| |]; [|done..]. cbn [res_bind]. apply IH.
Qed.

Lemma builder_build_ok b kvs chunks :
  cfg_data_restart_interval config ≠ 0 → cfg_index_restart_interval config ≠ 0 →
  builder_ok o b kvs chunks →
  ∃ b' chunks', builder_flush b = Ok b' ∧ concat chunks' = kvs ∧ Forall (λ ch, ch ≠ []) chunks' ∧
    length (concat ((λ bk : Block Value * bytes, block_encode bk.1 CompressLZ4 []) <$> bb_vec_block b'))
    = length (data_bytes o chunks') ∧
    (fits_u32 (length (data_bytes o chunks')) →
     builder_build b = Ok (data_bytes o chunks' ++ index_bytes chunks',
                           length (data_bytes o chunks'), length (index_bytes chunks'))).
Proof.
  intros Hd Hi Hb. destruct (builder_flush_ok o b kvs chunks Hd Hb) as (b' & chunks' & Hf & [Ho Hk Hne Hbl _] & Hbuf).
  exists b', chunks'. rewrite Hbuf, app_nil_r in Hk. split_and!; [done..| |].
  - rewrite Hbl. unfold data_bytes. by rewrite <- list_fmap_compose.
  - intros Hfit. unfold builder_build. rewrite Hf. cbn [res_bind]. rewrite Ho, Hbl.
    rewrite (index_fold_ok o chunks' [] []) by (cbn [length plus]; exact Hfit).
    cbn [res_bind app length plus]. change (opt_index_restart_interval o) with (cfg_index_restart_interval config).
    rewrite block_new_Ok by done. cbn [res_bind]. rewrite block_encode_app. fold (index_bytes chunks').
    do 3 f_equal. rewrite length_app. lia.
Qed.

(** What [sst_new] writes and returns. *)
Record sst_written (t : SSTable) (d' : Dir) gen vec_data level chunks filter : Prop := {
  sw_concat : concat chunks = sst_entries vec_data;
  sw_nonempty : Forall (λ ch, ch ≠ []) chunks;
  sw_meta : st_meta t = {| mb_filter := filter; mb_len := length vec_data;
                           mb_index_restart_interval := cfg_index_restart_interval config;
                           mb_data_restart_interval := cfg_data_restart_interval config |};
  sw_footer : st_footer t = sst_footer level (length (data_bytes o chunks)) (length (index_bytes chunks))
                (length (meta_to_raw (st_meta t) (data_bytes o chunks ++ index_bytes chunks)));
  sw_file : file_content d' gen
            = footer_to_raw (st_footer t) (meta_to_raw (st_meta t) (data_bytes o chunks ++ index_bytes chunks));
  sw_gen : st_gen t = gen ∧ rd_gen (st_reader t) = gen ∧ st_dir t = d';
}.

Lemma sst_new_written {FLL : F64Laws} d gen vec_data level io_type seeds :
  sst_data_ok vec_data → file_content d gen = [] →
  (∀ n, sst_data_size vec_data = Ok n → fits_u32 n) →
  ∃ t d' chunks filter, sst_new d config gen vec_data level io_type seeds = Ok (t, d') ∧
    sst_written t d' gen vec_data level chunks filter ∧ bloom_wf filter ∧
    (∀ k, k ∈ vec_data.*1 → marked filter k) ∧
    bloom_le (bloom_new (length vec_data) (f64_literal (cfg_desired_error_prob config)) seeds) filter.
Proof.
  intros Hok Hd Hsize. pose proof (sst_entries_sorted _ (sd_sorted _ Hok)) as Hs.
  destruct (builder_adds_ok o (block_builder_new o) [] [] (sst_entries vec_data)
    (sd_data_interval _ Hok) (builder_new_ok o) Hs) as (b & chunks0 & Hadd & Hb).
  destruct (builder_build_ok b _ _ (sd_data_interval _ Hok) (sd_index_interval _ Hok) Hb)
    as (b' & chunks & Hfl & Hc & Hne & Hlen & Hbuild).
  destruct (bloom_inserts_spec _ vec_data.*1 (bloom_new_wf _ _ seeds (sd_bits _ Hok)))
    as (filter & Hins & Hwf & Hle & Hmark).
  unfold sst_data_size in Hsize. rewrite Hadd in Hsize. cbn [res_bind] in Hsize.
  rewrite Hfl in Hsize. cbn [res_bind] in Hsize. specialize (Hsize _ eq_refl). rewrite Hlen in Hsize.
  unfold sst_new. rewrite (sst_adds_split _ _ _ _ _ Hins Hadd). cbn [res_bind].
  rewrite (Hbuild Hsize). cbn [res_bind io_reader]. eexists _, _, chunks, filter.
  split; [reflexivity|]. split_and!; [|done..]. split; cbn [st_meta st_footer st_gen st_reader rd_gen st_dir]; try done.
  unfold open_file. rewrite file_content_insert. by apply write_file_fresh.
Qed.

Lemma meta_to_raw_app m bs : meta_to_raw m bs = bs ++ meta_to_raw m [].
Proof.
  unfold meta_to_raw, bloom_to_raw, hasher_to_raw, bit_vector_to_raw. cbn [app].
  by rewrite <- !app_assoc.
Qed.

Lemma sst_footer_wf level a b n : footer_wf (sst_footer level a b n).
Proof.
  unfold sst_footer, footer_wf.
  cbn [ft_level ft_index_offset ft_index_len ft_meta_offset ft_meta_len ft_size_of_disk].
  split; [apply Z.mod_pos_bound; lia|]. split_and!; apply as_u32_range.
Qed.

Section written.
Context (t : SSTable) (d' : Dir) (gen : Z) (vec_data : list KeyValue) (level : nat).
Context (chunks : list (list (bytes * Value))) (filter : BloomFilter).
Context (Hok : sst_data_ok vec_data) (Hw : sst_written t d' gen vec_data level chunks filter).
Context (Hwf : bloom_wf filter) (Hmark : ∀ k, k ∈ vec_data.*1 → marked filter k).
Context (Hfit : fits_u32 (2 * length (file_content d' gen))).

Abbreviation data := (data_bytes o chunks).
Abbreviation index := (index_bytes chunks).
Abbreviation metaraw := (meta_to_raw (st_meta t) []).

Lemma written_file : file_content d' gen = footer_to_raw (st_footer t) ((data ++ index) ++ metaraw).
Proof. rewrite (sw_file _ _ _ _ _ _ _ Hw). by rewrite meta_to_raw_app. Qed.

Lemma written_length : length (file_content d' gen)
  = length data + length index + length metaraw + TABLE_FOOTER_SIZE.
Proof. rewrite written_file, footer_to_raw_length, !length_app. lia. Qed.

Lemma written_fits n : n ≤ 2 * length (file_content d' gen) → fits_u32 n.
Proof. unfold fits_u32 in *. lia. Qed.

Lemma filter_answers f : (∀ k, bloom_contains f k = bloom_contains filter k) →
  ∀ k, ∃ b, bloom_contains f k = Ok b ∧ (k ∈ vec_data.*1 → b = true).
Proof.
  intros E k. destruct (bloom_contains_spec filter k Hwf) as (b & Hb & Hm). exists b.
  split; [by rewrite E|]. intros Hk. by apply Hm, Hmark.
Qed.

(** A table with the footer, the file and the answers of the filter is a built table. *)
Lemma written_built t' :
  st_footer t' = st_footer t → st_dir t' = d' → rd_gen (st_reader t') = gen →
  (∀ k, bloom_contains (mb_filter (st_meta t')) k = bloom_contains filter k) →
  mb_data_restart_interval (st_meta t') = cfg_data_restart_interval config →
  mb_index_restart_interval (st_meta t') = cfg_index_restart_interval config →
  mb_len (st_meta t') = length vec_data → sst_built t' vec_data chunks.
Proof.
  intros Hft Hdir Hgen Hfilter Hdi Hii Hlen. pose proof written_length as Hl.
  split; try done; try apply Hw.
  - eexists. rewrite Hdir, Hgen, written_file. unfold footer_to_raw. by rewrite <- !app_assoc.
  - apply written_fits. rewrite Hl, length_app. lia.
  - rewrite Hft, (sw_footer _ _ _ _ _ _ _ Hw). cbn [sst_footer ft_index_offset ft_index_len]. apply as_u32_small, written_fits. lia.
  - rewrite Hft, (sw_footer _ _ _ _ _ _ _ Hw). cbn [sst_footer ft_index_offset ft_index_len]. apply as_u32_small, written_fits. lia.
  - by apply filter_answers.
Qed.

Lemma sst_new_built : sst_built t vec_data chunks.
Proof.
  destruct (sw_gen _ _ _ _ _ _ _ Hw) as (_ & Hr & Hd).
  apply written_built; try done; by rewrite (sw_meta _ _ _ _ _ _ _ Hw).
Qed.

(** *** Reopening *)

Context (Hseeds : (0 ≤ hash_fn_count filter < 2 ^ 64)%Z ∧
  (0 ≤ seed (hashers filter).1 < 2 ^ 64)%Z ∧ (0 ≤ seed (hashers filter).2 < 2 ^ 64)%Z).

Lemma meta_reload junk :
  ∃ extra, meta_from_raw (metaraw ++ junk)
  = Ok {| mb_filter := bloom_extend filter extra; mb_len := length vec_data;
          mb_index_restart_interval := cfg_index_restart_interval config;
          mb_data_restart_interval := cfg_data_restart_interval config |}.
Proof.
  rewrite (sw_meta _ _ _ _ _ _ _ Hw). unfold meta_to_raw.
  cbn [mb_len mb_filter mb_index_restart_interval mb_data_restart_interval app].
  destruct Hseeds as (Hc & H1 & H2). set (pre := encode_fixed 4 _ ++ _).
  destruct (bloom_roundtrip filter pre (proj1 Hwf) Hc H1 H2) as (raw & -> & Hfrom).
  exists (decode_i8 <$> junk). unfold meta_from_raw, pre.
  set (a := encode_fixed 4 (as_u32 (length vec_data))).
  set (b := encode_fixed 4 (as_u32 (cfg_index_restart_interval config))).
  set (c := encode_fixed 4 (as_u32 (cfg_data_restart_interval config))).
  assert (length a = 4 ∧ length b = 4 ∧ length c = 4) as (La & Lb & Lc)
    by (split_and!; apply encode_fixed_length).
  rewrite <- !app_assoc. rewrite decide_False by (rewrite !length_app; lia).
  assert (drop 12 (a ++ b ++ c ++ raw ++ junk) = raw ++ junk) as ->.
  { rewrite (app_assoc b), (app_assoc a). apply drop_app_length'. rewrite !length_app. lia. }
  assert (drop 8 (a ++ b ++ c ++ raw ++ junk) = c ++ raw ++ junk) as ->.
  { rewrite (app_assoc a). apply drop_app_length'. rewrite !length_app. lia. }
  assert (drop 4 (a ++ b ++ c ++ raw ++ junk) = b ++ c ++ raw ++ junk) as ->
    by (by apply drop_app_length').
  rewrite Hfrom. cbn [res_bind]. rewrite !take_app_length' by done. unfold a, b, c.
  rewrite !decode_encode_fixed by apply as_u32_range.
  rewrite !as_u32_to_nat by apply Hok. done.
Qed.

Lemma sst_reload r :
  rd_gen r = gen →
  ∃ t', sst_load_from_file d' r = Ok t' ∧ st_footer t' = st_footer t ∧ st_dir t' = d' ∧
    rd_gen (st_reader t') = gen ∧ st_gen t' = gen ∧
    mb_data_restart_interval (st_meta t') = cfg_data_restart_interval config ∧
    mb_index_restart_interval (st_meta t') = cfg_index_restart_interval config ∧
    mb_len (st_meta t') = length vec_data ∧
    (∀ k, bloom_contains (mb_filter (st_meta t')) k = bloom_contains filter k).
Proof.
  intros Hr. unfold sst_load_from_file. pose proof written_length as Hl.
  pose proof (sw_footer _ _ _ _ _ _ _ Hw) as Hft.
  rewrite (footer_roundtrip d' r (st_footer t) ((data ++ index) ++ metaraw));
    [|rewrite Hft; apply sst_footer_wf|by rewrite Hr, written_file].
  cbn [res_bind].
  assert (Z.to_nat (ft_meta_offset (st_footer t)) = length (data ++ index)) as ->.
  { rewrite Hft. cbn [sst_footer ft_meta_offset]. rewrite length_app. apply as_u32_to_nat, written_fits. lia. }
  assert (Z.to_nat (ft_meta_len (st_footer t)) = length metaraw + 2 * length index) as ->.
  { rewrite Hft. cbn [sst_footer ft_meta_len]. rewrite meta_to_raw_app, !length_app.
    rewrite as_u32_to_nat by (apply written_fits; lia). lia. }
  unfold reader_seek, seek_pos. rewrite decide_True by lia. cbn [res_bind].
  unfold reader_read. cbn [rd_gen rd_type rd_pos]. rewrite Hr, Nat2Z.id, written_file.
  assert (∃ junk, (cursor_read (length metaraw + 2 * length index)
      (drop (length (data ++ index)) (footer_to_raw (st_footer t) ((data ++ index) ++ metaraw)))).1
    = metaraw ++ junk) as [junk ->].
  { unfold footer_to_raw. rewrite <- (app_assoc (data ++ index)), drop_app_length. unfold cursor_read. cbn [fst].
    rewrite take_app_ge by lia. rewrite <- app_assoc. by eexists. }
  destruct (meta_reload junk) as [extra ->]. cbn [res_bind]. eexists. split; [done|]. cbn.
  split_and!; try done. intros k. by apply bloom_extend_contains.
Qed.
End written.

(** *** Behind a cache *)

Lemma sst_query_cached {C} {CC : Cache BlockKey BlockType C} {CL : CacheLaws BlockKey BlockType C}
    t vec_data chunks load c key :
  sst_data_ok vec_data → sst_built t vec_data chunks → sst_clear t →
  cache_coherent load c → (∀ o, load (st_gen t, o) = sst_load t o) →
  ∃ c', sst_query t key c = (Ok ((λ v, (key, v)) <$> btree_get key vec_data), c') ∧ cache_coherent load c'.
Proof.
  intros Hok Hb Hcl Hc Hload.
  destruct (sst_query_built t vec_data chunks Hok Hb key Hcl) as (found & Hf & Hq & Hblocks).
  unfold sst_query, index_block, cbind, clift in *. rewrite Hf in *. destruct found; cycle 1.
  { exists c. split; [|done]. injection Hq as <-. done. }
  destruct (Hblocks eq_refl) as (ib & idx & b & Hli & Hup & Hdb).
  destruct (cache_transparent load c (st_gen t, None) (λ _, load_index t) Hc) as (c1 & -> & Hc1).
  { by rewrite Hload. }
  unfold cache_get_or_insert, no_cache in Hq. rewrite Hload. cbn [sst_load]. rewrite Hli in *.
  rewrite Hup in *.
  destruct (cache_transparent load c1 (st_gen t, Some idx) (load_data t) Hc1) as (c2 & -> & Hc2).
  { by rewrite Hload. }
  rewrite Hload. cbn [sst_load]. unfold load_data in Hq. cbn [snd ok_or res_bind] in Hq.
  rewrite Hdb in *. exists c2. split; [|done]. injection Hq as ->. done.
Qed.
End built.

(** Tables with the same footer, intervals and file load the same blocks. *)
Section same_blocks.
Context `{IE : IntegerEncoding} {CRC : Crc32} {LZ : Lz4}.

Lemma sst_load_same (t t' : SSTable) :
  st_footer t' = st_footer t →
  file_content (st_dir t') (rd_gen (st_reader t')) = file_content (st_dir t) (rd_gen (st_reader t)) →
  mb_data_restart_interval (st_meta t') = mb_data_restart_interval (st_meta t) →
  mb_index_restart_interval (st_meta t') = mb_index_restart_interval (st_meta t) →
  ∀ o, sst_load t' o = sst_load t o.
Proof.
  intros Hft Hfile Hdi Hii.
  assert (∀ T (BI : BlockItem T) off n ct i, loading_block (T:=T) t' off n ct i = loading_block t off n ct i)
    as Hlb.
  { intros. unfold loading_block, reader_seek, seek_pos. rewrite !decide_True by lia. cbn [res_bind].
    unfold reader_read_exact. cbn [rd_gen rd_pos]. rewrite Hfile. by destruct (cursor_read_exact _ _) as [[]| |]. }
  intros [i|]; cbn [sst_load]; unfold data_block, load_index; by rewrite ?Hft, Hlb, ?Hdi, ?Hii.
Qed.

Lemma sst_clear_same (t t' : SSTable) :
  (∀ o, sst_load t' o = sst_load t o) → sst_clear t → sst_clear t'.
Proof.
  intros Hl. unfold sst_clear. setoid_rewrite (Hl None : load_index t' = load_index t).
  by setoid_rewrite (λ i, Hl (Some i) : data_block t' i = data_block t i).
Qed.
End same_blocks.

(** ** Tables answer as the data they were built from *)

(** What a file stores of data: a present empty value is a deletion. *)
Definition stored_data (data : list KeyValue) : list KeyValue := map_items stored data.

Section table_correct.
Context `{IE : IntegerEncoding} {CRC : Crc32} {LZ : Lz4} {IT : Itertools}.
Context {DH : DefaultHasher} {FL : F64}.
Context {IEL : IntegerEncodingLaws} {CRCL : Crc32Laws} {LZL : Lz4Laws} {ITL : ItertoolsLaws}.
Context {FLL : F64Laws}.

Lemma sst_adds_sim (data : list KeyValue) f b b' :
  builder_sim b b' →
  res_sim (λ st st', st.1 = st'.1 ∧ builder_sim st.2 st'.2)
    (res_foldM sst_add (f, b) data) (res_foldM sst_add (f, b') (stored_data data)).
Proof.
  revert f b b'. induction data as [|kv data IH]; intros f b b' Hs; [done|].
  unfold stored_data, map_items in *. rewrite fmap_cons. cbn [res_foldM].
  apply (res_sim_bind (λ st st', st.1 = st'.1 ∧ builder_sim st.2 st'.2)).
  - unfold sst_add. cbn [fst snd]. change (prod_map id stored kv).1 with kv.1.
    change (prod_map id stored kv).2 with (stored kv.2).
    destruct (bloom_insert f kv.1) as [f'| |]; cbn [res_bind]; [|done..].
    apply (res_sim_bind builder_sim); [|intros c c' Hc; by split].
    apply (builder_add_sim b b' (kv.1, value_from kv.2)); done.
  - intros [f1 c] [f1' c'] [Hf Hc]. cbn [fst snd] in *. subst. by apply IH.
Qed.

(** The file of a table is that of its stored data. *)
Lemma sst_new_stored d config gen data level io_type seeds :
  cfg_data_restart_interval config ≠ 0 →
  sst_new d config gen (stored_data data) level io_type seeds = sst_new d config gen data level io_type seeds.
Proof.
  intros Hri. unfold sst_new. rewrite (length_fmap (prod_map id stored) data : length (stored_data data) = length data).
  pose proof (sst_adds_sim data (bloom_new (length data) (f64_literal (cfg_desired_error_prob config)) seeds)
    _ _ (builder_new_sim (sst_options config) Hri)) as Hs.
  destruct (res_foldM sst_add _ data) as [[f b]| |], (res_foldM sst_add _ (stored_data data)) as [[f' b']| |];
    cbn [res_sim fst snd] in Hs; try done; [|by subst].
  destruct Hs as [<- Hs]. cbn [res_bind]. by rewrite (builder_build_sim b b' Hs).
Qed.

(** C24: a table built from sorted data (not empty, of keys and values below 4 GiB) answers
    every query with what is stored of the value the data has for the key: the value, or
    nothing when it is a tombstone or a present empty value.  The blocks may be read through
    any coherent cache, which stays coherent; the length of the table is that of the data.
    No block may run into the inverted checksum test, and the file is below 2 GiB. *)
Theorem sst_query_correct d config gen vec_data level io_type seeds :
  sst_data_ok config (stored_data vec_data) → file_content d gen = [] →
  (∀ n, sst_data_size config (stored_data vec_data) = Ok n → fits_u32 n) →
  ∃ t d', sst_new d config gen vec_data level io_type seeds = Ok (t, d') ∧
    sst_len t = length vec_data ∧
    (fits_u32 (2 * length (file_content d' gen)) → sst_clear t →
     ∀ C (CC : Cache BlockKey BlockType C) (CL : CacheLaws BlockKey BlockType C) load c key,
       cache_coherent load c → (∀ o, load (gen, o) = sst_load t o) →
       ∃ c', sst_query t key c = (Ok ((λ v, (key, stored v)) <$> btree_get key vec_data), c') ∧
             cache_coherent load c').
Proof.
  intros Hok Hd Hsize. rewrite <- sst_new_stored by apply Hok.
  destruct (sst_new_written config d gen (stored_data vec_data) level io_type seeds Hok Hd Hsize)
    as (t & d' & chunks & filter & Hnew & Hw & Hwf & Hmark & _).
  exists t, d'. split_and!; [done| |].
  { unfold sst_len. rewrite (sw_meta _ _ _ _ _ _ _ _ Hw). cbn [mb_len]. apply length_fmap. }
  intros Hfit Hcl C CC CL load c key Hc Hload.
  pose proof (sst_new_built _ _ _ _ _ _ _ _ Hw Hwf Hmark Hfit) as Hb.
  destruct (sw_gen _ _ _ _ _ _ _ _ Hw) as (Hg & _ & _).
  destruct (sst_query_cached config t (stored_data vec_data) chunks load c key Hok Hb Hcl Hc) as (c' & Hq & Hc').
  { by rewrite Hg. }
  exists c'. split; [|done]. rewrite Hq. unfold stored_data. rewrite btree_get_map_items.
  by destruct (btree_get key vec_data).
Qed.

(** C25: a table reopened from its file, whatever the position of the reader, has the
    length, level and size of the table that was written, loads the same blocks and
    answers every query from the data, through any coherent cache; the precedence slip in [meta_len] only makes it read more
    than the meta block, which the bloom filter ignores. *)
Theorem sst_reload_correct d config gen vec_data level io_type (seeds : Z * Z) r :
  sst_data_ok config vec_data → file_content d gen = [] →
  (∀ n, sst_data_size config vec_data = Ok n → fits_u32 n) →
  (0 ≤ seeds.1 < 2 ^ 64)%Z → (0 ≤ seeds.2 < 2 ^ 64)%Z → rd_gen r = gen →
  ∃ t d', sst_new d config gen vec_data level io_type seeds = Ok (t, d') ∧
    (fits_u32 (2 * length (file_content d' gen)) →
     ∃ t', sst_load_from_file d' r = Ok t' ∧
       sst_len t' = sst_len t ∧ sst_level t' = sst_level t ∧
       sst_size_of_disk t' = sst_size_of_disk t ∧ st_gen t' = st_gen t ∧
       (∀ o, sst_load t' o = sst_load t o) ∧
       (sst_clear t →
        ∀ C (CC : Cache BlockKey BlockType C) (CL : CacheLaws BlockKey BlockType C) load c key,
          cache_coherent load c → (∀ o, load (gen, o) = sst_load t o) →
          ∃ c', sst_query t' key c = (Ok ((λ v, (key, v)) <$> btree_get key vec_data), c') ∧
                cache_coherent load c')).
Proof.
  intros Hok Hd Hsize Hs1 Hs2 Hr.
  destruct (sst_new_written config d gen vec_data level io_type seeds Hok Hd Hsize)
    as (t & d' & chunks & filter & Hnew & Hw & Hwf & Hmark & Hle).
  exists t, d'. split; [done|]. intros Hfit.
  destruct (sst_reload _ t d' gen vec_data level chunks filter Hok Hw Hwf Hfit) with (r := r)
    as (t' & Hload & Hft & Hdir & Hrg & Hg & Hdi & Hii & Hlen & Hfil); [|done|].
  { rewrite (bl_count _ _ Hle), (bl_hashers _ _ Hle). split; [apply f64_as_u64_range|done]. }
  destruct (sw_gen _ _ _ _ _ _ _ _ Hw) as (Hg' & Hrg' & Hdir').
  exists t'. split; [done|]. unfold sst_len, sst_level, sst_size_of_disk.
  rewrite Hft, Hlen, Hg, Hg', (sw_meta _ _ _ _ _ _ _ _ Hw). cbn [mb_len].
  assert (∀ o, sst_load t' o = sst_load t o) as Hl.
  { apply sst_load_same; rewrite ?Hdir, ?Hdir', ?Hrg, ?Hrg', ?Hdi, ?Hii, ?(sw_meta _ _ _ _ _ _ _ _ Hw); done. }
  split_and!; try done. intros Hcl C CC CL load c key Hc Hld.
  pose proof (sst_clear_same t t' Hl Hcl) as Hcl'.
  apply (sst_query_cached config t' vec_data chunks load c key Hok); try done.
  - by apply (written_built config t d' gen vec_data level chunks filter).
  - intros o. by rewrite Hl, Hg.
Qed.
End table_correct.

Module SSTableSample.
Import Reference.

Definition config : Config := config_new String.EmptyString.
Definition data : list KeyValue :=
  [([x01], Some [x0a]); ([x01; x02], None); ([x03], Some [x0b; x0c])].

Lemma data_ok : sst_data_ok config data.
Proof.
  split; try done.
  - repeat constructor.
  - intros kv Hkv. unfold data in Hkv. repeat (apply elem_of_cons in Hkv as [->|Hkv]);
      [done..|]. by apply elem_of_nil in Hkv.
  - vm_compute. lia.
Qed.

Lemma data_fits n : sst_data_size config data = Ok n → fits_u32 n.
Proof. intros E. vm_compute in E. injection E as <-. done. Qed.

Lemma fresh : file_content ∅ 7 = [].
Proof. reflexivity. Qed.

(** The table as built, with the seeds 11 and 22. *)
Definition built : KernelResult (SSTable * Dir) := sst_new ∅ config 7 data 2 IoBuf (11, 22)%Z.

Lemma built_clear t d' : built = Ok (t, d') → sst_clear t ∧ fits_u32 (2 * length (file_content d' 7%Z)).
Proof.
  intros E. vm_compute in E. injection E as <- <-. split; [|vm_compute; done]. split; [vm_compute; done|].
  intros b e Hb He. vm_compute in Hb. injection Hb as <-.
  repeat (apply elem_of_cons in He as [->|He]; [vm_compute; done|]). by apply elem_of_nil in He.
Qed.

Lemma sst_query_correct_witness :
  ∃ t d', built = Ok (t, d') ∧
    (sst_query t [x01; x02] ()).1 = Ok (Some ([x01; x02], None)) ∧
    (sst_query t [x02] ()).1 = Ok None.
Proof.
  destruct (sst_query_correct ∅ config 7 data 2 IoBuf (11, 22)%Z data_ok fresh data_fits)
    as (t & d' & Hn & _ & Hq).
  exists t, d'. split; [exact Hn|]. destruct (built_clear t d' Hn) as [Hc Hf].
  specialize (Hq Hf Hc unit no_cache no_cache_laws (λ k, sst_load t k.2) ()).
  split.
  - destruct (Hq [x01; x02] I (λ _, eq_refl)) as (c & -> & _). reflexivity.
  - destruct (Hq [x02] I (λ _, eq_refl)) as (c & -> & _). reflexivity.
Defined.

Lemma sst_reload_correct_witness :
  ∃ t d' t', built = Ok (t, d') ∧
    sst_load_from_file d' {| rd_gen := 7; rd_type := IoDirect; rd_pos := 5 |} = Ok t' ∧
    sst_len t' = sst_len t ∧ (sst_query t' [x03] ()).1 = Ok (Some ([x03], Some [x0b; x0c])).
Proof.
  destruct (sst_reload_correct ∅ config 7 data 2 IoBuf (11, 22)%Z
    {| rd_gen := 7; rd_type := IoDirect; rd_pos := 5 |} data_ok fresh data_fits
    ltac:(cbn; lia) ltac:(cbn; lia) eq_refl) as (t & d' & Hn & Ht).
  destruct (built_clear t d' Hn) as [Hc Hf]. destruct (Ht Hf) as (t' & Hl & Hlen & _ & _ & _ & _ & Hq).
  exists t, d', t'. split; [exact Hn|]. split; [exact Hl|]. split; [exact Hlen|].
  destruct (Hq Hc unit no_cache no_cache_laws (λ k, sst_load t k.2) () [x03] I (λ _, eq_refl)) as (c & -> & _).
  reflexivity.
Defined.
End SSTableSample.
