(* ===== verification/SSTableIter.v ===== *)
(** * The iterator of a sorted string table (src/kernel/lsm/table/ss_table/iter.rs)

    Two block iterators, one over the index block and one over the data block the index
    is at.  Blocks come from the shared cache, so every operation passes the cache on.
    The iterator is proved to go over the data the table was built from; seeking beyond
    the last key and stepping back over either end are shown not to do what they should. *)

From S2P Require Import Prelude Std Crates Block Iterator BlockIter Io Config Bloom Lru Builder Scope SSTable.
From Stdlib Require Import ZArith QArith Lia Strings.Byte Sorted.
From stdpp Require Import base list gmap.

Set Default Goal Selector "!".
Open Scope nat_scope.

Record SSTableIter := mkSSTableIter {
  si_ss_table : SSTable;
  si_data_iter : BlockIter Value;
  si_index_iter : BlockIter Index;
}.

Definition set_data_iter (it : SSTableIter) (i : BlockIter Value) : SSTableIter :=
  {| si_ss_table := si_ss_table it; si_data_iter := i; si_index_iter := si_index_iter it |}.
Definition set_index_iter (it : SSTableIter) (i : BlockIter Index) : SSTableIter :=
  {| si_ss_table := si_ss_table it; si_data_iter := si_data_iter it; si_index_iter := i |}.

(** [|(key, value)| (key, value.bytes)] *)
Definition item_bytes (kv : bytes * Value) : KeyValue := (kv.1, v_bytes kv.2).

Section ss_table_iter.
Context `{IE : IntegerEncoding} {CRC : Crc32} {LZ : Lz4}.
Context {C : Type} {CC : Cache BlockKey BlockType C}.

Definition data_iter_init (t : SSTable) (index : Index) : C → KernelResult (BlockIter Value) * C :=
  cbind (cache_get_or_insert (st_gen t, Some index) (load_data t)) (λ block_type,
    clift (match block_type with
           | BlockData b => block_iter_new b
           | BlockIndex _ => Err DataEmpty
           end)).

Definition sst_iter_new (t : SSTable) : C → KernelResult SSTableIter * C :=
  cbind (index_block t) (λ ib,
  cbind (clift (let? index_iter := block_iter_new ib in
                let? (o, index_iter') := try_next index_iter in
                let? kv := ok_or o DataEmpty in
                Ok (kv.2, index_iter'))) (λ r : Index * BlockIter Index,
  cbind (data_iter_init t r.1) (λ data_iter,
  clift (Ok {| si_ss_table := t; si_data_iter := data_iter; si_index_iter := r.2 |})))).

Definition data_iter_seek (s : Seek) (index : Index) (it : SSTableIter) : C → KernelResult SSTableIter * C :=
  cbind (data_iter_init (si_ss_table it) index) (λ data_iter,
  clift (let? data_iter' := seek s data_iter in Ok (set_data_iter it data_iter'))).

(** The step of the data iterator once its block is in place. *)
Definition data_next (it : SSTableIter) : KernelResult (option KeyValue * SSTableIter) :=
  let? (o, i) := try_next (si_data_iter it) in Ok (item_bytes <$> o, set_data_iter it i).
Definition data_prev (it : SSTableIter) : KernelResult (option KeyValue * SSTableIter) :=
  let? (o, i) := try_prev (si_data_iter it) in Ok (item_bytes <$> o, set_data_iter it i).

Definition sst_iter_try_prev (it : SSTableIter) : C → KernelResult (option KeyValue * SSTableIter) * C :=
  cbind (clift (data_prev it)) (λ r,
    match r with
    | (Some kv, it1) => clift (Ok (Some kv, it1))
    | (None, it1) =>
        cbind (clift (try_prev (si_index_iter it1))) (λ r,
          let '(o, index_iter) := r in
          let it2 := set_index_iter it1 index_iter in
          match o with
          | Some (_, index) => cbind (data_iter_seek SeekLast index it2) (λ it3, clift (data_prev it3))
          | None => clift (Ok (None, it2))
          end)
    end).

Definition sst_iter_try_next (it : SSTableIter) : C → KernelResult (option KeyValue * SSTableIter) * C :=
  cbind (clift (data_next it)) (λ r,
    match r with
    | (Some kv, it1) => clift (Ok (Some kv, it1))
    | (None, it1) =>
        cbind (clift (try_next (si_index_iter it1))) (λ r,
          let '(o, index_iter) := r in
          let it2 := set_index_iter it1 index_iter in
          match o with
          | Some (_, index) => cbind (data_iter_seek SeekFirst index it2) (λ it3, clift (data_next it3))
          | None => clift (Ok (None, it2))
          end)
    end).

Definition sst_iter_valid (it : SSTableIter) : bool := is_valid (si_data_iter it).

Definition sst_iter_seek (s : Seek) (it : SSTableIter) : C → KernelResult SSTableIter * C :=
  cbind (clift (let? i := seek s (si_index_iter it) in try_next i)) (λ r,
    let '(o, index_iter) := r in
    let it1 := set_index_iter it index_iter in
    cbind (match o with
           | Some (_, index) => data_iter_seek s index it1
           | None => clift (Ok it1)
           end) (λ it2,
    match s with
    | SeekLast => clift (let? i := seek SeekLast (si_data_iter it2) in Ok (set_data_iter it2 i))
    | _ => clift (Ok it2)
    end)).

(** The calls of a client, one after the other. *)
Definition sst_iter_step (it : SSTableIter) (cmd : IterCmd)
    : C → KernelResult (option KeyValue * SSTableIter) * C :=
  match cmd with
  | CmdNext => sst_iter_try_next it
  | CmdPrev => sst_iter_try_prev it
  | CmdSeek s => cbind (sst_iter_seek s it) (λ it', clift (Ok (None, it')))
  end.

Fixpoint sst_iter_run (it : SSTableIter) (cmds : list IterCmd)
    : C → KernelResult (list (option KeyValue) * SSTableIter) * C :=
  match cmds with
  | [] => clift (Ok ([], it))
  | cmd :: cmds' =>
      cbind (sst_iter_step it cmd) (λ r,
      cbind (sst_iter_run r.2 cmds') (λ rs, clift (Ok (r.1 :: rs.1, rs.2))))
  end.
End ss_table_iter.

(** ** Tables as such: the trait's functions, with the blocks loaded on every use *)

Section table.
Context `{IE : IntegerEncoding} {CRC : Crc32} {LZ : Lz4} {DH : DefaultHasher}.

#[global] Instance sst_iter_iter : Iter SSTableIter KeyValue := {
  try_next it := (sst_iter_try_next it ()).1;
  is_valid := sst_iter_valid;
}.
#[global] Instance sst_iter_seek_iter : SeekIter SSTableIter KeyValue :=
  λ s it, (sst_iter_seek s it ()).1.
#[global] Instance sst_iter_forward_iter : ForwardIter SSTableIter KeyValue :=
  λ it, (sst_iter_try_prev it ()).1.

#[global] Instance sst_table : Table SSTable := {
  table_iter_state := SSTableIter;
  table_query t key := (sst_query t key ()).1;
  table_len := sst_len;
  table_size_of_disk := sst_size_of_disk;
  table_gen := st_gen;
  table_level := sst_level;
  table_iter t := (sst_iter_new t ()).1;
}.
End table.

(** ** Computations over a coherent cache

    [cok m P]: from any coherent cache [m] returns a value that satisfies [P] and leaves
    the cache coherent. *)

Section cok.
Context {C : Type} {CC : Cache BlockKey BlockType C} {CL : CacheLaws BlockKey BlockType C}.
Context (load : BlockKey → KernelResult BlockType).

Definition cok {A} (m : C → KernelResult A * C) (P : A → Prop) : Prop :=
  ∀ c, cache_coherent load c → ∃ a c', m c = (Ok a, c') ∧ P a ∧ cache_coherent load c'.

Lemma cok_bind {A B} (m : C → KernelResult A * C) (k : A → C → KernelResult B * C) P Q :
  cok m P → (∀ a, P a → cok (k a) Q) → cok (cbind m k) Q.
Proof.
  intros Hm Hk c Hc. unfold cbind. destruct (Hm c Hc) as (a & c' & -> & HP & Hc'). by apply Hk.
Qed.

Lemma cok_lift {A} (r : KernelResult A) a (P : A → Prop) : r = Ok a → P a → cok (clift r) P.
Proof. intros -> HP c Hc. by exists a, c. Qed.

Lemma cok_lift_bind {A B} (r : KernelResult A) a (k : A → C → KernelResult B * C) Q :
  r = Ok a → cok (k a) Q → cok (cbind (clift r) k) Q.
Proof. intros -> Hk c Hc. by apply Hk. Qed.

Lemma cok_load key f b (P : BlockType → Prop) :
  f key = load key → load key = Ok b → P b → cok (cache_get_or_insert key f) P.
Proof.
  intros Hf Hl HP c Hc. destruct (cache_transparent load c key f Hc Hf) as (c' & -> & Hc').
  rewrite Hl. by exists b, c'.
Qed.

Lemma cok_impl {A} (m : C → KernelResult A * C) (P Q : A → Prop) :
  cok m P → (∀ a, P a → Q a) → cok m Q.
Proof. intros Hm HPQ c Hc. destruct (Hm c Hc) as (a & c' & ? & ? & ?). naive_solver. Qed.
End cok.

(** ** The iterator goes over the data *)

Lemma item_bytes_entries vec_data : item_bytes <$> sst_entries vec_data = vec_data.
Proof.
  unfold sst_entries. rewrite <- list_fmap_compose. rewrite <- (list_fmap_id vec_data) at 2.
  apply list_fmap_ext. by intros i [k v] _.
Qed.

Section iter_laws.
Context `{IE : IntegerEncoding} {CRC : Crc32} {LZ : Lz4} {IT : Itertools}.
Context {DH : DefaultHasher} {FL : F64}.
Context {IEL : IntegerEncodingLaws} {CRCL : Crc32Laws} {LZL : Lz4Laws} {ITL : ItertoolsLaws}.
Context (config : Config) (t : SSTable) (vec_data : list KeyValue).
Context (chunks : list (list (bytes * Value))).
Context (Hok : sst_data_ok config vec_data) (Hb : sst_built config t vec_data chunks).
Context (Hcl : sst_clear t).
Context (Hdi : 2 ≤ cfg_data_restart_interval config) (Hii : 2 ≤ cfg_index_restart_interval config).
Context {C : Type} {CC : Cache BlockKey BlockType C} {CL : CacheLaws BlockKey BlockType C}.
Context (load : BlockKey → KernelResult BlockType) (Hload : ∀ o, load (st_gen t, o) = sst_load t o).

Abbreviation index := (chunk_index (sst_options config) 0 chunks).
Abbreviation dri := (cfg_data_restart_interval config).
Abbreviation iri := (cfg_index_restart_interval config).
Abbreviation csorted := (chunks_sorted config t vec_data chunks Hok Hb).
Abbreviation cok := (cok (CC:=CC) load).

Lemma index_at j ch : chunks !! j = Some ch → ∃ idx, index !! j = Some (chunk_key ch, idx).
Proof. intros Hj. rewrite chunk_index_lookup, Hj. by eexists. Qed.

Lemma index_sorted : ksorted index.
Proof. apply chunk_index_sorted; [apply csorted|apply Hb]. Qed.

Lemma chunk_nonempty j ch : chunks !! j = Some ch → ch ≠ [].
Proof. intros Hj. by apply (Forall_lookup_1 _ _ _ _ (sb_nonempty _ _ _ _ Hb) Hj). Qed.

(** The iterator in the data block [j], at [od]; the index iterator is behind it. *)
Definition sst_iter_at (it : SSTableIter) (oi j : nat) (ch : list (bytes * Value)) (od : nat) : Prop :=
  si_ss_table it = t ∧ at_offset index iri (si_index_iter it) oi ∧ oi ≤ length chunks + 1 ∧
  chunks !! j = Some ch ∧ at_offset ch dri (si_data_iter it) od ∧ od ≤ length ch + 1.

Definition sst_iter_inv (it : SSTableIter) : Prop := ∃ oi j ch od, sst_iter_at it oi j ch od.

Lemma index_block_ok : cok (index_block t) (λ ib, ib = block_of index iri).
Proof.
  unfold index_block. eapply cok_bind.
  - eapply (cok_load load (st_gen t, None) _ _ (λ b, b = BlockIndex (block_of index iri)));
      [by rewrite Hload| |done]. rewrite Hload. by apply (load_index_ok config t vec_data chunks).
  - intros b ->. by eapply cok_lift.
Qed.

Lemma data_iter_init_ok j ch idx :
  chunks !! j = Some ch → index !! j = Some (chunk_key ch, idx) →
  cok (data_iter_init t idx) (λ di, at_offset ch dri di 0).
Proof.
  intros Hj Hi. unfold data_iter_init. eapply cok_bind.
  - eapply (cok_load load (st_gen t, Some idx) _ _ (λ b, b = BlockData (block_of ch dri)));
      [by rewrite Hload| |done]. rewrite Hload. cbn [sst_load].
    by apply (data_block_ok config t vec_data chunks Hok Hb j).
  - intros b ->. destruct (block_iter_new_Ok ch dri Hdi (chunk_nonempty j ch Hj)) as (it & Hn & Hat).
    by eapply cok_lift.
Qed.

Lemma data_iter_seek_ok it oi j0 ch0 od0 j ch idx s :
  sst_iter_at it oi j0 ch0 od0 → chunks !! j = Some ch → index !! j = Some (chunk_key ch, idx) →
  cok (data_iter_seek s idx it) (λ it', sst_iter_at it' oi j ch (cursor_step ch 0 (CmdSeek s)).2).
Proof.
  intros (Ht & Hix & Hoi & _) Hj Hi. unfold data_iter_seek. rewrite Ht. eapply cok_bind.
  - by eapply data_iter_init_ok.
  - intros di Hat. cbn beta in Hat.
    destruct (block_iter_seek_spec ch dri Hdi di 0 s (chunk_sorted _ _ _ csorted Hj) Hat ltac:(lia))
      as (di' & Hs & Hat').
    eapply cok_lift; [unfold seek, block_iter_seek_iter; by rewrite Hs|].
    unfold sst_iter_at. cbn [set_data_iter si_ss_table si_index_iter si_data_iter]. split_and!; try done.
    apply (cursor_step_bound ch dri Hdi). lia.
Qed.

Lemma data_next_ok it oi j ch od :
  sst_iter_at it oi j ch od →
  ∃ it', data_next it = Ok (item_bytes <$> ch !! od, it') ∧
    sst_iter_at it' oi j ch (if decide (od ≤ length ch) then od + 1 else od).
Proof.
  intros (Ht & Hix & Hoi & Hj & Hd & Hod). unfold data_next.
  destruct (block_iter_next_spec ch dri Hdi _ od Hd Hod) as (di' & Hn & Hat).
  cbn [try_next block_iter_iter]. rewrite Hn. cbn [res_bind]. eexists. split; [done|].
  unfold sst_iter_at. cbn [set_data_iter si_ss_table si_index_iter si_data_iter].
  split_and!; try done. case_decide; lia.
Qed.

Lemma data_prev_ok it oi j ch od :
  sst_iter_at it oi j ch od →
  ∃ it', data_prev it = Ok (item_bytes <$> (if decide (2 ≤ od) then ch !! (od - 2) else None), it') ∧
    sst_iter_at it' oi j ch (od - 1).
Proof.
  intros (Ht & Hix & Hoi & Hj & Hd & Hod). unfold data_prev.
  destruct (block_iter_prev_spec ch dri Hdi _ od Hd Hod) as (di' & Hn & Hat).
  unfold try_prev, block_iter_forward_iter. rewrite Hn. cbn [res_bind]. eexists. split; [done|].
  unfold sst_iter_at. cbn [set_data_iter si_ss_table si_index_iter si_data_iter].
  split_and!; try done. lia.
Qed.

(** A step of the index iterator, and the data block it leads to. *)
Lemma index_next_ok it oi j ch od :
  sst_iter_at it oi j ch od →
  ∃ i', try_next (si_index_iter it) = Ok (index !! oi, i') ∧
    sst_iter_at (set_index_iter it i') (if decide (oi ≤ length chunks) then oi + 1 else oi) j ch od.
Proof.
  intros (Ht & Hix & Hoi & Hj & Hd & Hod).
  pose proof (chunk_index_length (sst_options config) 0 chunks) as Hl.
  destruct (block_iter_next_spec index iri Hii _ oi Hix ltac:(lia)) as (i' & Hn & Hat).
  exists i'. split; [done|]. rewrite Hl in Hat. split_and!; try done. case_decide; lia.
Qed.

Lemma index_prev_ok it oi j ch od :
  sst_iter_at it oi j ch od →
  ∃ i', try_prev (si_index_iter it) = Ok (if decide (2 ≤ oi) then index !! (oi - 2) else None, i') ∧
    sst_iter_at (set_index_iter it i') (oi - 1) j ch od.
Proof.
  intros (Ht & Hix & Hoi & Hj & Hd & Hod).
  pose proof (chunk_index_length (sst_options config) 0 chunks) as Hl.
  destruct (block_iter_prev_spec index iri Hii _ oi Hix ltac:(lia)) as (i' & Hn & Hat).
  exists i'. split; [done|]. split_and!; try done. lia.
Qed.

Lemma index_entry j kidx : index !! j = Some kidx →
  ∃ ch, chunks !! j = Some ch ∧ kidx.1 = chunk_key ch.
Proof.
  rewrite chunk_index_lookup. destruct (chunks !! j) as [ch|]; [|done]. intros [= <-]. eauto.
Qed.

(** What is left of the data: the rest of the block, and the blocks the index iterator
    has not reached. *)
Definition rest_of (oi : nat) (ch : list (bytes * Value)) (od : nat) : list KeyValue :=
  item_bytes <$> (drop od ch ++ concat (drop oi chunks)).

Lemma sst_iter_new_ok : cok (sst_iter_new t) (λ it, ∃ ch, sst_iter_at it 1 0 ch 0).
Proof.
  destruct (lookup_lt_is_Some_2 chunks 0) as [ch Hj].
  { pose proof (chunks_nonempty config t vec_data chunks Hok Hb). destruct chunks; [done|]. cbn. lia. }
  destruct (index_at 0 ch Hj) as [idx Hi].
  assert (index ≠ []) as Hine by (intros E; by rewrite E in Hi).
  unfold sst_iter_new. eapply cok_bind; [apply index_block_ok|]. intros ib ->.
  destruct (block_iter_new_Ok index iri Hii Hine) as (i0 & Hn & Hat0).
  destruct (block_iter_next_spec index iri Hii i0 0 Hat0 ltac:(lia)) as (i1 & Hnext & Hat1).
  rewrite Hi in Hnext. apply (cok_lift_bind load _ (idx, i1)).
  { rewrite Hn. cbn [res_bind try_next block_iter_iter]. by rewrite Hnext. }
  cbn [fst snd]. eapply cok_bind; [by eapply data_iter_init_ok|].
  intros di Hdat. eapply cok_lift; [done|]. exists ch.
  unfold sst_iter_at. cbn [si_ss_table si_index_iter si_data_iter]. rewrite decide_True in Hat1 by lia.
  split_and!; try done; lia.
Qed.

(** One step forward. *)
Lemma sst_iter_next_ok it oi j ch od :
  sst_iter_at it oi j ch od →
  cok (sst_iter_try_next it) (λ r, r.1 = head (rest_of oi ch od) ∧
    ∃ oi' j' ch' od', sst_iter_at r.2 oi' j' ch' od' ∧ rest_of oi' ch' od' = tail (rest_of oi ch od)).
Proof.
  intros Hat. unfold sst_iter_try_next.
  destruct (data_next_ok it oi j ch od Hat) as (it1 & Hn & Hat1).
  eapply cok_lift_bind; [exact Hn|].
  destruct (ch !! od) as [kv|] eqn:Eod; cbn [fmap option_fmap option_map].
  { eapply cok_lift; [done|]. cbn [fst snd]. unfold rest_of. rewrite (drop_S _ _ _ Eod).
    cbn [app fmap list_fmap head tail]. split; [done|]. apply lookup_lt_Some in Eod.
    rewrite decide_True in Hat1 by lia. do 4 eexists. by rewrite Nat.add_1_r in *. }
  destruct (index_next_ok it1 oi j ch _ Hat1) as (i' & Hi & Hat2).
  eapply cok_lift_bind; [exact Hi|]. cbn beta iota. apply lookup_ge_None in Eod.
  assert (rest_of oi ch od = item_bytes <$> concat (drop oi chunks)) as Hrest.
  { unfold rest_of. by rewrite drop_ge. }
  rewrite Hrest. destruct (index !! oi) as [[k idx]|] eqn:Eoi.
  - destruct (index_entry oi _ Eoi) as (ch' & Hj' & Ek). cbn in Ek. subst k.
    eapply cok_bind; [by eapply data_iter_seek_ok|]. intros it3 Hat3. cbn [cursor_step snd] in Hat3.
    destruct (data_next_ok _ _ _ _ _ Hat3) as (it4 & Hn4 & Hat4).
    eapply cok_lift; [exact Hn4|]. cbn [fst snd]. rewrite (drop_S _ _ _ Hj').
    pose proof (chunk_nonempty _ _ Hj') as Hne. destruct ch' as [|kv' ch']; [done|].
    split; [done|]. do 4 eexists. split; [exact Hat4|]. apply lookup_lt_Some in Hj'.
    rewrite !decide_True by (cbn; lia). by rewrite Nat.add_1_r.
  - eapply cok_lift; [done|]. cbn [fst snd]. apply lookup_ge_None in Eoi.
    rewrite chunk_index_length in Eoi. rewrite (drop_ge chunks) by done.
    split; [done|]. do 4 eexists. split; [exact Hat2|]. unfold rest_of.
    by rewrite (drop_ge chunks), (drop_ge ch) by (repeat case_decide; lia).
Qed.

Lemma sst_iter_prev_ok it :
  sst_iter_inv it → cok (sst_iter_try_prev it) (λ r, sst_iter_inv r.2).
Proof.
  intros (oi & j & ch & od & Hat). unfold sst_iter_try_prev.
  destruct (data_prev_ok it oi j ch od Hat) as (it1 & Hn & Hat1).
  eapply cok_lift_bind; [exact Hn|].
  destruct (item_bytes <$> _) as [kv|]; [eapply cok_lift; [done|]; by do 4 eexists|].
  destruct (index_prev_ok it1 oi j ch _ Hat1) as (i' & Hi & Hat2).
  eapply cok_lift_bind; [exact Hi|].
  cbn beta iota. destruct (if decide (2 ≤ oi) then _ else _) as [[k idx]|] eqn:Eoi;
    [|eapply cok_lift; [done|]; by do 4 eexists].
  destruct (decide (2 ≤ oi)); [|done].
  destruct (index_entry _ _ Eoi) as (ch' & Hj' & Ek). cbn in Ek. subst k.
  eapply cok_bind; [by eapply data_iter_seek_ok|]. intros it3 Hat3.
  destruct (data_prev_ok _ _ _ _ _ Hat3) as (it4 & Hn4 & Hat4).
  eapply cok_lift; [exact Hn4|]. by do 4 eexists.
Qed.

(** *** What the iterator yields *)

Fixpoint sst_ends (n : nat) (it : SSTableIter) : Prop :=
  match n with
  | O => True
  | S n' => cok (sst_iter_try_next it) (λ r, r.1 = None ∧ sst_ends n' r.2)
  end.

Fixpoint sst_yields (it : SSTableIter) (l : list KeyValue) : Prop :=
  match l with
  | [] => ∀ n, sst_ends n it
  | kv :: l' => cok (sst_iter_try_next it) (λ r, r.1 = Some kv ∧ sst_yields r.2 l')
  end.

Lemma sst_iter_at_yields it oi j ch od : sst_iter_at it oi j ch od → sst_yields it (rest_of oi ch od).
Proof.
  remember (rest_of oi ch od) as l eqn:Hl. revert it oi j ch od Hl.
  induction l as [|kv l IH]; intros it oi j ch od Hl Hat; cbn [sst_yields].
  - intros n. revert it oi j ch od Hl Hat.
    induction n as [|n IHn]; intros it oi j ch od Hl Hat; [done|]. cbn [sst_ends].
    eapply cok_impl; [by eapply sst_iter_next_ok|]. rewrite <- Hl.
    intros r (-> & oi' & j' & ch' & od' & Hat' & Hr). split; [done|]. by eapply (IHn _ oi' j' ch' od').
  - eapply cok_impl; [by eapply sst_iter_next_ok|]. rewrite <- Hl.
    intros r (-> & oi' & j' & ch' & od' & Hat' & Hr). split; [done|]. by eapply (IH _ oi' j' ch' od').
Qed.

Lemma rest_of_first ch : chunks !! 0 = Some ch → rest_of 1 ch 0 = vec_data.
Proof.
  intros Hj. unfold rest_of. rewrite <- (item_bytes_entries vec_data), <- (sb_concat _ _ _ _ Hb).
  destruct chunks as [|c cs]; [done|]. injection Hj as ->. cbn [drop concat]. done.
Qed.

(** The chunks before the rank of a key have only keys below it. *)
Lemma chunk_below key i ch e :
  chunks !! i = Some ch → i < rank key index → e ∈ ch → le_b key e.1 ≠ true.
Proof.
  intros Hi Hlt He Hle. destruct (index_at i ch Hi) as [idx Hidx].
  apply (rank_spec key _ _ _ index_sorted Hidx) in Hlt.
  pose proof (chunk_key_max ch e (chunk_sorted _ _ _ csorted Hi) He) as Hmax.
  apply (cmp_lt_irrefl key). eapply cmp_le_lt_trans; [exact Hle|]. by eapply cmp_le_lt_trans.
Qed.

(** The first chunk whose last key is not below the one sought. *)
Lemma rest_of_backward key ch :
  chunks !! rank key index = Some ch →
  rank key ch < length ch ∧
  rest_of (S (rank key index)) ch (rank key ch) = seek_range (SeekBackward key) vec_data.
Proof.
  intros Hj. set (j := rank key index) in *. destruct (index_at j ch Hj) as [idx Hi].
  assert (cmp (chunk_key ch) key ≠ Lt) as Hge.
  { intros Hlt. apply (rank_spec key _ _ _ index_sorted Hi) in Hlt. unfold j in Hlt. lia. }
  destruct (chunk_key_in ch (chunk_nonempty _ _ Hj)) as [v Hv]. split.
  { pose proof (rank_le key ch). destruct (decide (rank key ch = length ch)) as [E|]; [|lia].
    apply list_elem_of_lookup in Hv as [n Hn]. pose proof (lookup_lt_Some _ _ _ Hn).
    exfalso. apply Hge. apply (rank_spec key _ _ _ (chunk_sorted _ _ _ csorted Hj) Hn). lia. }
  unfold seek_range, rest_of. rewrite <- (item_bytes_entries vec_data), <- (sb_concat _ _ _ _ Hb).
  rewrite filter_fmap. f_equal. rewrite <- (take_drop_middle _ _ _ Hj) at 2.
  rewrite concat_app. cbn [concat]. rewrite !filter_app.
  rewrite filter_none, app_nil_l.
  2: { intros e (ch' & Hin & He)%elem_of_concat Hle. cbn in Hle.
       apply list_elem_of_lookup in Hin as [i Hi'].
       assert (i < j) by (apply lookup_lt_Some in Hi'; rewrite length_take in Hi'; lia).
       rewrite lookup_take_lt in Hi' by lia. by apply (chunk_below key i ch' e). }
  f_equal.
  - symmetry. apply filter_drop_rank. by apply (chunk_sorted _ _ _ csorted Hj).
  - symmetry. apply filter_all. intros e (ch' & Hin & He)%elem_of_concat. cbn.
    apply list_elem_of_lookup in Hin as [i Hi']. rewrite lookup_drop in Hi'.
    apply le_b_true. left.
    pose proof (concat_sorted_inv chunks j (S j + i) ch ch' _ e csorted Hj Hi' Hv He ltac:(lia)) as Hlt.
    eapply cmp_le_lt_trans; [|exact Hlt]. cbn. destruct (le_b key (chunk_key ch)) eqn:E; [done|].
    by apply le_b_false in E.
Qed.

(** Where a seek can lead: anywhere but beyond the last key. *)
Definition seekable (s : Seek) : Prop := seek_range s vec_data = [] → s = SeekLast.

Lemma seekable_rank key : seekable (SeekBackward key) → rank key index < length chunks.
Proof.
  intros Hs. destruct (decide (rank key index < length chunks)) as [|Hge]; [done|]. exfalso.
  assert (seek_range (SeekBackward key) vec_data = []) as E; [|by specialize (Hs E)].
  unfold seek_range. rewrite <- (item_bytes_entries vec_data), <- (sb_concat _ _ _ _ Hb), filter_fmap.
  rewrite filter_none; [done|]. intros e (ch & Hin & He)%elem_of_concat Hle. cbn in Hle.
  apply list_elem_of_lookup in Hin as [i Hi]. pose proof (lookup_lt_Some _ _ _ Hi).
  apply (chunk_below key i ch e Hi); [lia|done..].
Qed.

Lemma index_seek_ok it oi j ch od s :
  sst_iter_at it oi j ch od →
  let oi' := (cursor_step index oi (CmdSeek s)).2 in
  ∃ i', (let? i := seek s (si_index_iter it) in try_next i) = Ok (index !! oi', i') ∧
    sst_iter_at (set_index_iter it i') (if decide (oi' ≤ length chunks) then oi' + 1 else oi') j ch od.
Proof.
  intros (Ht & Hix & Hoi & Hj & Hd & Hod) oi'.
  pose proof (chunk_index_length (sst_options config) 0 chunks) as Hl.
  destruct (block_iter_seek_spec index iri Hii _ oi s index_sorted Hix ltac:(lia)) as (i0 & Hs & Hat0).
  pose proof (cursor_step_bound index iri Hii oi (CmdSeek s) ltac:(lia)) as Hb'. fold oi' in Hat0, Hb'.
  destruct (block_iter_next_spec index iri Hii _ oi' Hat0 Hb') as (i' & Hn & Hat).
  exists i'. split.
  { unfold seek, block_iter_seek_iter. rewrite Hs. cbn [res_bind try_next block_iter_iter]. exact Hn. }
  rewrite Hl in *. split_and!; try done. case_decide; lia.
Qed.

(** A seek lands where the data says, from wherever the iterator was. *)
Lemma sst_iter_seek_ok it s :
  sst_iter_inv it →
  cok (sst_iter_seek s it) (λ it', sst_iter_inv it' ∧ (seekable s → sst_yields it' (seek_range s vec_data))).
Proof.
  intros (oi & j & ch & od & Hat). unfold sst_iter_seek.
  destruct (index_seek_ok it oi j ch od s Hat) as (i' & Hi & Hat1).
  set (oi' := (cursor_step index oi (CmdSeek s)).2) in *.
  eapply cok_lift_bind; [exact Hi|]. cbn beta iota.
  apply (cok_bind load _ _ (λ it2, match index !! oi' with
    | Some _ => ∃ ch', chunks !! oi' = Some ch' ∧
                  sst_iter_at it2 (oi' + 1) oi' ch' (cursor_step ch' 0 (CmdSeek s)).2
    | None => sst_iter_at it2 (if decide (oi' ≤ length chunks) then oi' + 1 else oi') j ch od
    end)).
  { destruct (index !! oi') as [[k idx]|] eqn:E; [|by eapply cok_lift].
    destruct (index_entry _ _ E) as (ch' & Hj' & Ek). cbn in Ek. subst k.
    rewrite decide_True in Hat1 by (apply lookup_lt_Some in Hj'; lia).
    eapply cok_impl; [by eapply data_iter_seek_ok|]. cbn. eauto. }
  intros it2 H2. assert (sst_iter_inv it2) as Hinv.
  { destruct (index !! oi'); [destruct H2 as (ch' & _ & ?)|]; by do 4 eexists. }
  destruct s as [| |key].
  - eapply cok_lift; [done|]. split; [done|]. intros _. cbn [cursor_step snd] in oi'. subst oi'.
    destruct (index !! 0) as [kidx|] eqn:E.
    + destruct H2 as (ch' & Hj' & Hat2). cbn [cursor_step snd] in Hat2.
      cbn [seek_range]. rewrite <- (rest_of_first ch' Hj'). by eapply sst_iter_at_yields.
    + exfalso. apply lookup_ge_None in E. rewrite chunk_index_length in E.
      apply (chunks_nonempty config t vec_data chunks Hok Hb). apply nil_length_inv. lia.
  - cbn [cursor_step snd] in oi'. subst oi'. rewrite chunk_index_length in H2.
    rewrite lookup_ge_None_2 in H2 by (rewrite chunk_index_length; lia).
    rewrite decide_False in H2 by lia. destruct H2 as (Ht & Hix & Hoi & Hj & Hd & Hod).
    destruct (block_iter_seek_spec ch dri Hdi _ od SeekLast (chunk_sorted _ _ _ csorted Hj) Hd Hod)
      as (di & Hs & Hat'). cbn [cursor_step snd] in Hat'.
    eapply cok_lift; [unfold seek, block_iter_seek_iter; rewrite Hs; done|].
    assert (sst_iter_at (set_data_iter it2 di) (length chunks + 1) j ch (length ch + 1)) as Hend.
    { split_and!; done. }
    split; [by do 4 eexists|]. intros _. apply sst_iter_at_yields in Hend. unfold rest_of in Hend.
    by rewrite !drop_ge in Hend by lia.
  - eapply cok_lift; [done|]. split; [done|]. intros Hsk%seekable_rank.
    cbn [cursor_step snd] in oi'. subst oi'. rewrite chunk_index_length, (decide_True _ _ Hsk) in H2.
    destruct (lookup_lt_is_Some_2 _ _ Hsk) as [ch1 Hch1].
    destruct (index_at _ _ Hch1) as [idx Hidx]. rewrite Hidx in H2.
    destruct H2 as (ch' & Hj' & Hat2). destruct (rest_of_backward key ch' Hj') as [Hlt <-].
    cbn [cursor_step snd] in Hat2. rewrite (decide_True _ _ Hlt), Nat.add_1_r in Hat2.
    by eapply sst_iter_at_yields.
Qed.

(** Beyond the last key a fresh iterator goes on to the second block, or stays. *)
Lemma all_below key e :
  length chunks ≤ rank key index → e ∈ vec_data → cmp e.1 key = Lt.
Proof.
  intros Hr. rewrite <- (item_bytes_entries vec_data), <- (sb_concat _ _ _ _ Hb).
  intros (e0 & -> & (ch & Hin & He)%elem_of_concat)%list_elem_of_fmap. cbn.
  apply list_elem_of_lookup in Hin as [i Hi]. pose proof (lookup_lt_Some _ _ _ Hi).
  apply le_b_false, not_true_is_false, (chunk_below key i ch e0 Hi); [lia|done].
Qed.

Lemma rest_of_suffix oi ch : chunks !! (oi - 1) = Some ch → 0 < oi → rest_of oi ch 0 `suffix_of` vec_data.
Proof.
  intros Hj Hoi. rewrite <- (item_bytes_entries vec_data), <- (sb_concat _ _ _ _ Hb).
  rewrite <- (take_drop_middle _ _ _ Hj), concat_app, fmap_app. cbn [concat]. unfold rest_of.
  replace (S (oi - 1)) with oi by lia. apply suffix_app_r. done.
Qed.

Lemma sst_iter_seek_beyond it ch key :
  sst_iter_at it 1 0 ch 0 → length chunks ≤ rank key index →
  cok (sst_iter_seek (SeekBackward key) it) (λ it', ∃ pre, sst_yields it' pre ∧ pre `suffix_of` vec_data).
Proof.
  intros Hat Hr. unfold sst_iter_seek.
  destruct (index_seek_ok it 1 0 ch 0 (SeekBackward key) Hat) as (i' & Hi & Hat1).
  cbn [cursor_step snd] in Hi, Hat1. rewrite chunk_index_length, (decide_False (P:=_ < _)) in * by lia.
  eapply cok_lift_bind; [exact Hi|]. cbn beta iota. pose proof Hat as (_ & _ & _ & Hj & _).
  pose proof (lookup_lt_Some _ _ _ Hj) as Hlen. rewrite decide_True in Hat1 by lia.
  destruct (index !! 1) as [[k idx]|] eqn:E.
  - destruct (index_entry _ _ E) as (ch' & Hj' & Ek). cbn in Ek. subst k.
    eapply cok_bind; [by eapply data_iter_seek_ok|]. intros it' Hat2.
    eapply cok_lift; [done|]. cbn [cursor_step snd] in Hat2.
    replace (if decide (rank key ch' < length ch') then rank key ch' else 0) with 0 in Hat2.
    { eexists. split; [by eapply sst_iter_at_yields|]. by apply rest_of_suffix; [|lia]. }
    case_decide as Hlt; [|done]. exfalso.
    destruct (lookup_lt_is_Some_2 _ _ Hlt) as [e He].
    apply (Nat.lt_irrefl (rank key ch')), (rank_spec key ch' _ e (chunk_sorted _ _ _ csorted Hj') He).
    apply le_b_false, not_true_is_false, (chunk_below key 1 ch' e Hj').
    + apply lookup_lt_Some in Hj'. lia.
    + by eapply list_elem_of_lookup_2.
  - eapply cok_bind; [by eapply (cok_lift load _ _ (λ it2, sst_iter_at it2 (1 + 1) 0 ch 0))|]. intros it2 Hat2. cbn beta in Hat2.
    eapply cok_lift; [done|]. eexists. split; [eapply sst_iter_at_yields, Hat2|].
    apply lookup_ge_None in E. rewrite chunk_index_length in E.
    replace (rest_of (1 + 1) ch 0) with (rest_of 1 ch 0); [by apply rest_of_suffix; [|lia]|].
    unfold rest_of. by rewrite !(drop_ge chunks) by lia.
Qed.

Lemma beyond_rank key : seek_range (SeekBackward key) vec_data = [] → length chunks ≤ rank key index.
Proof.
  intros He. destruct (decide (length chunks ≤ rank key index)) as [|Hlt]; [done|]. exfalso.
  destruct (lookup_lt_is_Some_2 chunks (rank key index)) as [ch Hj]; [lia|].
  destruct (rest_of_backward key ch Hj) as [Hr Hrest]. rewrite He in Hrest.
  unfold rest_of in Hrest. apply fmap_nil_inv, app_eq_nil in Hrest as [E _].
  apply (f_equal length) in E. rewrite length_drop in E. cbn in E. lia.
Qed.

Lemma sst_iter_seek_fresh it ch s :
  sst_iter_at it 1 0 ch 0 →
  cok (sst_iter_seek s it) (λ it', ∃ pre, sst_yields it' (pre ++ seek_range s vec_data) ∧
                                          seek_overrun s vec_data pre).
Proof.
  intros Hat. assert (seekable s ∨ ∃ key, s = SeekBackward key ∧ seek_range s vec_data = [])
    as [Hs|(key & -> & He)].
  { destruct s as [| |key]; [left; intros He; by destruct (sd_nonempty _ _ Hok)|by left|].
    destruct (decide (seek_range (SeekBackward key) vec_data = [])); [eauto|left; intros He; done]. }
  - eapply cok_impl; [apply sst_iter_seek_ok; by do 4 eexists|]. intros it' [_ Hy].
    exists []. split; [by apply Hy|]. apply seek_overrun_nil, Hok.
  - pose proof (beyond_rank key He) as Hr.
    eapply cok_impl; [by eapply sst_iter_seek_beyond|]. intros it' (pre & Hy & Hsuf).
    exists pre. unfold seek_overrun. rewrite He, app_nil_r. split_and!; [done| |done].
    intros e Hin. apply (all_below key e Hr). destruct Hsuf as [l' ->]. set_solver.
Qed.

Lemma sst_iter_run_ok cmds it :
  sst_iter_inv it → cok (sst_iter_run it cmds) (λ r, sst_iter_inv r.2).
Proof.
  revert it. induction cmds as [|cmd cmds IH]; intros it Hinv; cbn [sst_iter_run]; [by eapply cok_lift|].
  apply (cok_bind load _ _ (λ r, sst_iter_inv r.2)).
  - destruct cmd as [| |s]; cbn [sst_iter_step].
    + destruct Hinv as (oi & j & ch & od & Hat). eapply cok_impl; [by eapply sst_iter_next_ok|].
      intros r (_ & oi' & j' & ch' & od' & ? & _). by do 4 eexists.
    + by apply sst_iter_prev_ok.
    + eapply cok_bind; [by apply sst_iter_seek_ok|]. intros it' [? _]. by eapply cok_lift.
  - intros r Hr. eapply cok_bind; [by apply IH|]. intros rs Hrs. by eapply cok_lift.
Qed.
End iter_laws.

Section iter_correct.
Context `{IE : IntegerEncoding} {CRC : Crc32} {LZ : Lz4} {IT : Itertools}.
Context {DH : DefaultHasher} {FL : F64}.
Context {IEL : IntegerEncodingLaws} {CRCL : Crc32Laws} {LZL : Lz4Laws} {ITL : ItertoolsLaws}.
Context {FLL : F64Laws}.

Lemma sst_yields_run {C} {CC : Cache BlockKey BlockType C} {CL : CacheLaws BlockKey BlockType C} load it l :
  sst_yields load it l →
  cok load (sst_iter_run it (replicate (length l + 1) CmdNext)) (λ r, r.1 = (Some <$> l) ++ [None]).
Proof.
  revert it. induction l as [|kv l IH]; intros it Hy; cbn [length plus replicate sst_iter_run sst_iter_step].
  - eapply cok_bind; [exact (Hy 1)|]. intros r [Hr _].
    eapply cok_bind; [by eapply (cok_lift load _ ([], r.2) (λ rs, rs = ([], r.2)))|].
    intros rs ->. eapply cok_lift; [done|]. by rewrite Hr.
  - eapply cok_bind; [exact Hy|]. intros r (Hr & Hl). eapply cok_bind; [by apply IH|].
    intros rs Hrs. eapply cok_lift; [done|]. cbn [fst]. by rewrite Hr, Hrs.
Qed.

Lemma sst_yields_iter load it l :
  sst_yields (CC:=no_cache) (CL:=no_cache_laws) load it l → iter_exhausts it l.
Proof.
  revert it. induction l as [|kv l IH]; intros it Hy; cbn [iter_exhausts].
  - intros n. specialize (Hy n). revert it Hy. induction n as [|n IHn]; intros it Hy; [done|].
    cbn [iter_ends try_next sst_iter_iter].
    destruct (Hy () I) as ([o it'] & c' & -> & (Ho & Hr) & _). cbn [fst snd] in *. subst o.
    eexists. split; [done|]. by apply IHn.
  - cbn [try_next sst_iter_iter]. destruct (Hy () I) as ([o it'] & c' & -> & (Ho & Hr) & _).
    cbn [fst snd] in *. subst o. eexists. split; [done|]. by apply IH.
Qed.

(** Through the trait, a built table holds its data. *)
Lemma sst_table_holds config t vec_data chunks :
  sst_data_ok config vec_data → sst_built config t vec_data chunks → sst_clear t →
  2 ≤ cfg_data_restart_interval config → 2 ≤ cfg_index_restart_interval config →
  table_holds t vec_data.
Proof.
  intros Hok Hb Hcl Hdi Hii. split.
  - apply Hok.
  - intros k. cbn [table_query sst_table].
    destruct (sst_query_built config t vec_data chunks Hok Hb k Hcl) as (found & _ & -> & _). done.
  - destruct (sst_iter_new_ok config t vec_data chunks Hok Hb Hcl Hdi Hii
      (CC:=no_cache) (CL:=no_cache_laws) (λ k, sst_load t k.2) (λ _, eq_refl) () I) as (it & c' & Hn & (ch & Hat) & _).
    exists it. cbn [table_iter sst_table]. rewrite Hn. split; [done|].
    pose proof (sst_iter_at_yields config t vec_data chunks Hok Hb Hcl Hdi Hii
      (CC:=no_cache) (CL:=no_cache_laws) (λ k, sst_load t k.2) (λ _, eq_refl) it 1 0 ch 0 Hat) as Hy.
    rewrite (rest_of_first config t vec_data chunks Hb ch) in Hy by apply Hat. 
    by eapply iter_exhausts_yields, sst_yields_iter.
  - apply Hb.
Qed.

Lemma sst_table_seeks config t vec_data chunks :
  sst_data_ok config vec_data → sst_built config t vec_data chunks → sst_clear t →
  2 ≤ cfg_data_restart_interval config → 2 ≤ cfg_index_restart_interval config →
  table_seeks t vec_data.
Proof.
  intros Hok Hb Hcl Hdi Hii. pose proof (λ o, eq_refl : sst_load t o = sst_load t o) as Hl.
  destruct (sst_iter_new_ok config t vec_data chunks Hok Hb Hcl Hdi Hii
    (CC:=no_cache) (CL:=no_cache_laws) (λ k, sst_load t k.2) Hl () I) as (it & c' & Hn & (ch & Hat) & _).
  assert (table_iter t = Ok it) as Hit by (cbn [table_iter sst_table]; by rewrite Hn).
  split.
  - exists it. split; [done|].
    pose proof (sst_iter_at_yields config t vec_data chunks Hok Hb Hcl Hdi Hii
      (CC:=no_cache) (CL:=no_cache_laws) (λ k, sst_load t k.2) Hl it 1 0 ch 0 Hat) as Hy.
    rewrite (rest_of_first config t vec_data chunks Hb ch) in Hy by apply Hat. by eapply sst_yields_iter.
  - intros s. exists it. unfold seek, table_iter_seek, sst_table, sst_iter_seek_iter.
    destruct (sst_iter_seek_fresh config t vec_data chunks Hok Hb Hcl Hdi Hii
      (CC:=no_cache) (CL:=no_cache_laws) (λ k, sst_load t k.2) Hl it ch s Hat () I)
      as (it' & c2 & Hsk & (pre & Hy & Hov) & _).
    exists it', pre. rewrite Hsk. split_and!; [done..| |done]. by eapply sst_yields_iter.
Qed.

(** C26: over a table built from any sorted data (not empty, keys and values below 4 GiB),
    with restart intervals of two at least and no block that runs into the inverted checksum
    test, no sequence of steps and seeks fails; and a seek after it, to the start, to the
    end or to a key that is not above all others, is followed by exactly what is stored of
    the data from there on, in order, and then by the end.  (A seek above all keys is not:
    [sst_iter_seek_past_end].)  The blocks may come from any coherent cache. *)
Theorem sst_iter_correct d config gen data level io_type seeds :
  let vec_data := stored_data data in
  sst_data_ok config vec_data → file_content d gen = [] →
  (∀ n, sst_data_size config vec_data = Ok n → fits_u32 n) →
  2 ≤ cfg_data_restart_interval config → 2 ≤ cfg_index_restart_interval config →
  ∃ t d', sst_new d config gen data level io_type seeds = Ok (t, d') ∧
    (fits_u32 (2 * length (file_content d' gen)) → sst_clear t →
     ∀ C (CC : Cache BlockKey BlockType C) (CL : CacheLaws BlockKey BlockType C) load c,
       cache_coherent load c → (∀ o, load (gen, o) = sst_load t o) →
       ∀ cmds s, seekable vec_data s →
       ∃ outs it c', cbind (sst_iter_new t) (λ it0, cbind (sst_iter_run it0 cmds) (λ r,
                       cbind (sst_iter_seek s r.2) (λ it1,
                       sst_iter_run it1 (replicate (length (seek_range s vec_data) + 1) CmdNext)))) c
                     = (Ok (outs, it), c') ∧
                     outs = (Some <$> seek_range s vec_data) ++ [None] ∧ cache_coherent load c').
Proof.
  intros vec_data Hok Hd Hsize Hdi Hii. rewrite <- sst_new_stored by lia. fold vec_data.
  destruct (sst_new_written config d gen vec_data level io_type seeds Hok Hd Hsize)
    as (t & d' & chunks & filter & Hnew & Hw & Hwf & Hmark & _).
  exists t, d'. split; [done|]. intros Hfit Hcl C CC CL load c Hc Hload cmds s Hs.
  pose proof (sst_new_built _ _ _ _ _ _ _ _ Hw Hwf Hmark Hfit) as Hb.
  assert (∀ o, load (st_gen t, o) = sst_load t o) as Hload'.
  { by rewrite (proj1 (sw_gen _ _ _ _ _ _ _ _ Hw)). }
  assert (cok load (cbind (sst_iter_new t) (λ it0, cbind (sst_iter_run it0 cmds) (λ r,
    cbind (sst_iter_seek s r.2) (λ it1,
    sst_iter_run it1 (replicate (length (seek_range s vec_data) + 1) CmdNext)))))
    (λ r, r.1 = (Some <$> seek_range s vec_data) ++ [None])) as Hrun.
  { eapply cok_bind; [by apply (sst_iter_new_ok config t vec_data chunks)|]. intros it0 [ch Hat].
    eapply cok_bind; [apply (sst_iter_run_ok config t vec_data chunks); try done; by do 4 eexists|].
    intros r Hinv. eapply cok_bind; [by apply (sst_iter_seek_ok config t vec_data chunks)|].
    intros it1 [_ Hy]. by apply sst_yields_run, Hy. }
  destruct (Hrun c Hc) as ([outs it] & c' & Hr & Ho & Hc'). by exists outs, it, c'.
Qed.
End iter_correct.

Module SSTableIterSample.
Import Reference SSTableSample.

Lemma sst_iter_correct_witness :
  ∃ t d', built = Ok (t, d') ∧ 2 ≤ cfg_data_restart_interval config ∧
  ∃ it, (cbind (sst_iter_new t) (λ it0, cbind (sst_iter_run it0 [CmdNext; CmdPrev; CmdSeek SeekLast]) (λ r,
         cbind (sst_iter_seek (SeekBackward [x01; x01]) r.2) (λ it1,
         sst_iter_run it1 [CmdNext; CmdNext; CmdNext]))) ()).1
        = Ok ([Some ([x01; x02], None); Some ([x03], Some [x0b; x0c]); None], it).
Proof.
  assert (2 ≤ cfg_data_restart_interval config) as H2 by (vm_compute; lia).
  destruct (sst_iter_correct ∅ config 7 data 2 IoBuf (11, 22)%Z data_ok fresh data_fits H2
    ltac:(vm_compute; lia)) as (t & d' & Hn & Ht).
  exists t, d'. split; [exact Hn|]. split; [exact H2|]. destruct (built_clear t d' Hn) as [Hc Hf].
  destruct (Ht Hf Hc unit no_cache no_cache_laws (λ k, sst_load t k.2) () I (λ _, eq_refl)
    [CmdNext; CmdPrev; CmdSeek SeekLast] (SeekBackward [x01; x01])) as (outs & it & c' & Hr & Ho & _).
  { intros E. discriminate E. }
  exists it. change (replicate _ CmdNext) with [CmdNext; CmdNext; CmdNext] in Hr. rewrite Hr, Ho. reflexivity.
Defined.

(** Beyond the last key the iterator stays where it is: all the keys below follow. *)
Remark sst_iter_seek_past_end :
  match built with
  | Ok (t, _) =>
      (cbind (sst_iter_new t) (λ it0, cbind (sst_iter_seek (SeekBackward [x09]) it0) (λ it1,
       cbind (sst_iter_run it1 [CmdNext; CmdNext; CmdNext; CmdNext]) (λ r, clift (Ok r.1)))) ()).1
      = Ok ((Some <$> data) ++ [None]) ∧ seek_range (SeekBackward [x09]) data = []
  | _ => False
  end.
Proof. vm_compute. split; reflexivity. Qed.

(** Going back from the end meets the last block twice. *)
Remark sst_iter_prev_repeats :
  match built with
  | Ok (t, _) =>
      (cbind (sst_iter_new t) (λ it0, cbind (sst_iter_run it0 (CmdSeek SeekLast :: replicate 7 CmdPrev))
        (λ r, clift (Ok r.1))) ()).1
      = Ok (None :: (Some <$> reverse data) ++ (Some <$> reverse data) ++ [None])
  | _ => False
  end.
Proof. vm_compute. reflexivity. Qed.
End SSTableIterSample.
