(* ===== verification/Version.v ===== *)
(** * Versions (src/kernel/lsm/version/mod.rs, edit.rs, meta.rs)

    A version is the tables of every level, as scopes; an edit adds or deletes tables.
    The tables are reached through the loader, a function from generations to
    implementations of [Table]. *)

From S2P Require Import Prelude Std Crates Iterator Io Config Scope BTreeTable.
From Stdlib Require Import ZArith Lia Strings.Byte Sorted.
From stdpp Require Import base list gmap sorting.

Set Default Goal Selector "!".

Definition LEVEL_0 : nat := 0.

(** ** Edits *)

Inductive VersionEdit : Type :=
  | DeleteFile (file : list Z * nat) (meta : TableMeta)
  | NewFile (file : list Scope * nat) (index : nat) (meta : TableMeta).

Inductive EditType : Type :=
  | EditAdd (meta : TableMeta)
  | EditDel (meta : TableMeta).

Definition ord_num (e : EditType) : nat :=
  match e with EditAdd _ => 0 | EditDel _ => 1 end.

(** ** Statistics of a version *)

Record VersionMeta := mkVersionMeta {
  vm_size_of_disk : N;
  vm_len : nat;
}.

(** [u64] subtraction, which panics on underflow when overflow checks are on. *)
Definition u64_sub (a b : N) : KernelResult N :=
  if decide (b ≤ a)%N then Ok (a - b)%N else Panic.

Definition process_event (m : VersionMeta) (e : EditType) : KernelResult VersionMeta :=
  match e with
  | EditAdd meta =>
      Ok {| vm_size_of_disk := vm_size_of_disk m + tm_size_of_disk meta;
            vm_len := vm_len m + tm_len meta |}
  | EditDel meta =>
      let? size := u64_sub (vm_size_of_disk m) (tm_size_of_disk meta) in
      let? len := usize_sub (vm_len m) (tm_len meta) in
      Ok {| vm_size_of_disk := size; vm_len := len |}
  end.

(** ** The channel to the cleaner *)

Inductive CleanTag : Type :=
  | TagClean (version : Z)
  | TagAdd (version : Z) (gens : list Z).

Record CleanChan := mkCleanChan {
  chan_open : bool;
  chan_queue : list CleanTag;
}.

Definition chan_send (ch : CleanChan) (tag : CleanTag) : KernelResult CleanChan :=
  if chan_open ch then Ok {| chan_open := true; chan_queue := chan_queue ch ++ [tag] |}
  else Err SendCleanTagError.

(** [Vec::insert] *)
Definition vec_insert {A} (i : nat) (x : A) (l : list A) : KernelResult (list A) :=
  if decide (i ≤ length l) then Ok (take i l ++ x :: drop i l) else Panic.

(** ** The version *)

Abbreviation LevelSlice := (list (list Scope)).

Record Version := mkVersion {
  version_num : Z;
  level_slice : LevelSlice;
  meta_data : VersionMeta;
}.

Inductive SeekOption (A : Type) : Type :=
  | Hit (a : A)
  | Miss (s : option (Scope * nat)).
Arguments Hit {A} a.
Arguments Miss {A} s.

Definition level_slice_new : LevelSlice := replicate MAX_LEVEL [].

Definition version_len (v : Version) : nat := vm_len (meta_data v).
Definition version_is_empty (v : Version) : bool := bool_decide (version_len v = 0).
Definition version_size_of_disk (v : Version) : N := vm_size_of_disk (meta_data v).

Definition level_len (v : Version) (level : nat) : KernelResult nat :=
  let? l := or_panic (level_slice v !! level) in Ok (length l).

(** The generations of all tables of a version. *)
Definition version_gens (v : Version) : list Z := sc_gen <$> concat (level_slice v).

Section version.
Context `{IT : Itertools}.

Definition statistical_process (m : VersionMeta) (events : list EditType)
    : KernelResult VersionMeta :=
  res_foldM process_event m (sorted_by_key ord_num events).

(** One round of the loop of [apply]: the levels, the deleted generations, the
    statistics. *)
Definition apply_edit (st : LevelSlice * list Z * list EditType) (edit : VersionEdit)
    : KernelResult (LevelSlice * list Z * list EditType) :=
  let '(slice, del_gens, stats) := st in
  match edit with
  | DeleteFile (vec_gen, level) sst_meta =>
      let? l := or_panic (slice !! level) in
      Ok (<[level := filter (λ s, sc_gen s ∉ vec_gen) l]> slice, del_gens ++ vec_gen,
          stats ++ [EditDel sst_meta])
  | NewFile (vec_scope, level) index sst_meta =>
      let scopes := sorted_by_key sc_gen vec_scope in
      let? l := or_panic (slice !! level) in
      if decide (level = LEVEL_0) then
        Ok (<[level := l ++ scopes]> slice, del_gens, stats ++ [EditAdd sst_meta])
      else
        let? l' := res_foldM (λ l s, vec_insert index s l) l (reverse scopes) in
        Ok (<[level := l']> slice, del_gens, stats ++ [EditAdd sst_meta])
  end.

Definition version_apply (v : Version) (vec_version_edit : list VersionEdit) (ch : CleanChan)
    : KernelResult (Version * CleanChan) :=
  let? (slice, del_gens, stats) :=
    res_foldM apply_edit (level_slice v, [], []) vec_version_edit in
  let? meta := statistical_process (meta_data v) stats in
  let num := (version_num v + 1)%Z in
  let? ch' := chan_send ch (TagAdd num del_gens) in
  Ok ({| version_num := num; level_slice := slice; meta_data := meta |}, ch').

Definition version_empty : Version :=
  {| version_num := 0; level_slice := level_slice_new;
     meta_data := {| vm_size_of_disk := 0; vm_len := 0 |} |}.

Definition load_from_log (vec_log : list VersionEdit) (ch : CleanChan)
    : KernelResult (Version * CleanChan) :=
  version_apply version_empty vec_log ch.

(** [Drop]: a failed send is ignored. *)
Definition version_drop (v : Version) (ch : CleanChan) : CleanChan :=
  match chan_send ch (TagClean (version_num v)) with Ok ch' => ch' | _ => ch end.

Definition sst_meta_by_level (level : nat) (size_of_disk : N) (len : nat) : TableMeta :=
  if decide (LEVEL_0 = level) then {| tm_size_of_disk := size_of_disk; tm_len := len |}
  else table_meta_default.

Definition to_vec_edit (v : Version) : list VersionEdit :=
  omap (λ p : nat * list Scope,
    match p.2 with
    | [] => None
    | _ => Some (NewFile (p.2, p.1) 0
                   (sst_meta_by_level p.1 (version_size_of_disk v) (version_len v)))
    end) (enumerate (level_slice v)).

Definition is_threshold_exceeded_major (v : Version) (config : Config) (level : nat)
    : KernelResult bool :=
  let? l := or_panic (level_slice v !! level) in
  Ok (bool_decide (cfg_major_threshold_with_sst_size config
                   * cfg_level_sst_magnification config ^ level ≤ length l)).

(** *** Tables *)

Context {T : Type} `{TB : Table T} (loader_get : Z → option T).

Definition version_table (v : Version) (level offset : nat) : KernelResult (option T) :=
  let? l := or_panic (level_slice v !! level) in
  Ok (match l !! offset with Some scope => loader_get (sc_gen scope) | None => None end).

Definition tables_by_level_0 (v : Version) : KernelResult (list T) :=
  let? l := or_panic (level_slice v !! LEVEL_0) in
  Ok (reverse (omap (λ scope, loader_get (sc_gen scope)) l)).

(** The pairs the closure of [tables_by_scopes] produces, with their index. *)
Definition meeting_tables (target : Scope) (l : list Scope) : list (nat * (T * Scope)) :=
  omap (λ p : nat * Scope, (λ t, (p.1, (t, p.2))) <$> loader_get (sc_gen p.2))
    (filter (λ p : nat * Scope, scope_meet p.2 target = true) (enumerate l)).

Definition tables_by_scopes (v : Version) (level : nat) (target_scope : Scope)
    : KernelResult (list T * list Scope * nat) :=
  let? l := or_panic (level_slice v !! level) in
  let found := meeting_tables target_scope l in
  Ok (found.*2.*1, found.*2.*2, default 0 (head found.*1)).

(** *** Queries *)

Definition query_by_scope (key : bytes) (scope : Scope) (level : nat) (h : Seeks)
    : KernelResult (SeekOption KeyValue) * Seeks :=
  if meet_by_key scope key then
    match loader_get (sc_gen scope) with
    | Some ss_table =>
        match table_query ss_table key with
        | Ok (Some value) => (Ok (Hit value), h)
        | Ok None =>
            if decide (LEVEL_0 < level) then
              match seeks_increase scope h with
              | Ok (true, h') => (Ok (Miss (Some (scope, table_level ss_table))), h')
              | Ok (false, h') => (Ok (Miss None), h')
              | Err e => (Err e, h)
              | Panic => (Panic, h)
              end
            else (Ok (Miss None), h)
        | Err e => (Err e, h)
        | Panic => (Panic, h)
        end
    | None => (Ok (Miss None), h)
    end
  else (Ok (Miss None), h).

Definition query_meet_index (l : list Scope) (key : bytes) : KernelResult nat :=
  let? r := binary_search_by (λ scope, Ok (cmp (sc_start scope) key)) l in
  Ok (match r with inl index => index | inr index => index - 1 end).

(** The loop over level 0, newest table first. *)
Fixpoint query_level_0 (key : bytes) (scopes : list Scope) (h : Seeks)
    : KernelResult (option KeyValue) * Seeks :=
  match scopes with
  | [] => (Ok None, h)
  | scope :: rest =>
      match query_by_scope key scope LEVEL_0 h with
      | (Ok (Hit kv), h') => (Ok (Some kv), h')
      | (Ok (Miss _), h') => query_level_0 key rest h'
      | (Err e, h') => (Err e, h')
      | (Panic, h') => (Panic, h')
      end
  end.

(** The loop over the other levels. *)
Fixpoint query_levels (key : bytes) (level : nat) (slices : LevelSlice)
    (miss_seek : option (Scope * nat)) (h : Seeks)
    : KernelResult (option KeyValue * option (Scope * nat)) * Seeks :=
  match slices with
  | [] => (Ok (None, miss_seek), h)
  | l :: rest =>
      match query_meet_index l key with
      | Ok offset =>
          match l !! offset with
          | Some scope =>
              match query_by_scope key scope level h with
              | (Ok (Hit value), h') => (Ok (Some value, miss_seek), h')
              | (Ok (Miss (Some seek_scope)), h') =>
                  query_levels key (S level) rest
                    (match miss_seek with Some s => Some s | None => Some seek_scope end) h'
              | (Ok (Miss None), h') => query_levels key (S level) rest miss_seek h'
              | (Err e, h') => (Err e, h')
              | (Panic, h') => (Panic, h')
              end
          | None => query_levels key (S level) rest miss_seek h
          end
      | Err e => (Err e, h)
      | Panic => (Panic, h)
      end
  end.

Definition query (v : Version) (key : bytes) (h : Seeks)
    : KernelResult (option KeyValue * option (Scope * nat)) * Seeks :=
  match level_slice v with
  | [] => (Panic, h)
  | l0 :: slices =>
      match query_level_0 key (reverse l0) h with
      | (Ok (Some kv), h') => (Ok (Some kv, None), h')
      | (Ok None, h') => query_levels key 1 (take (MAX_LEVEL - 1) slices) None h'
      | (Err e, h') => (Err e, h')
      | (Panic, h') => (Panic, h')
      end
  end.
End version.

(** ** Well-formed versions

    [contents] gives the entries of every generation.  A scope is loaded when the loader
    has its table, the table holds those entries, and they lie within the scope. *)

Fixpoint first_some {A B} (f : A → option B) (l : list A) : option B :=
  match l with
  | [] => None
  | x :: l' => match f x with Some y => Some y | None => first_some f l' end
  end.

Lemma first_some_app {A B} (f : A → option B) l1 l2 :
  first_some f (l1 ++ l2)
  = match first_some f l1 with Some y => Some y | None => first_some f l2 end.
Proof. induction l1 as [|x l1 IH]; simpl; [done|]. by destruct (f x). Qed.

Lemma first_some_None {A B} (f : A → option B) l :
  (∀ x, x ∈ l → f x = None) → first_some f l = None.
Proof.
  induction l as [|x l IH]; intros Hf; [done|]. simpl. rewrite (Hf x) by (by left).
  apply IH. intros y Hy. apply Hf. by right.
Qed.

(** At most one element answers. *)
Lemma first_some_unique {A B} (f : A → option B) l x :
  x ∈ l → (∀ y, y ∈ l → y = x ∨ f y = None) → first_some f l = f x.
Proof.
  induction l as [|y l IH]; intros Hx Hu; [by apply not_elem_of_nil in Hx|]. simpl.
  destruct (Hu y ltac:(by left)) as [->|Hy].
  - destruct (f x) eqn:E; [done|]. apply first_some_None. intros z Hz.
    destruct (Hu z ltac:(by right)) as [->|]; done.
  - rewrite Hy. apply elem_of_cons in Hx as [->|Hx].
    + rewrite Hy. apply first_some_None. intros z Hz.
      destruct (Hu z ltac:(by right)) as [->|]; done.
    + apply IH; [done|]. intros z Hz. apply Hu. by right.
Qed.

Lemma first_some_fmap {A B C} (f : B → option C) (g : A → B) l :
  first_some f (g <$> l) = first_some (λ x, f (g x)) l.
Proof. induction l as [|x l IH]; cbn; [done|]. by rewrite IH. Qed.

Lemma first_some_ext {A B} (f g : A → option B) l :
  (∀ x, x ∈ l → f x = g x) → first_some f l = first_some g l.
Proof.
  induction l as [|x l IH]; intros He; cbn; [done|]. rewrite (He x) by (by left).
  rewrite IH; [done|]. intros y Hy. apply He. by right.
Qed.

Lemma first_some_elem {A B} (f : A → option B) l y :
  first_some f l = Some y → ∃ x, x ∈ l ∧ f x = Some y.
Proof.
  induction l as [|x l IH]; cbn; [done|]. destruct (f x) eqn:E.
  - intros [= <-]. exists x. split; [by left|done].
  - intros (z & Hz & Hfz)%IH. exists z. split; [by right|done].
Qed.

Lemma first_some_None_iff {A B} (f : A → option B) l :
  first_some f l = None ↔ ∀ x, x ∈ l → f x = None.
Proof.
  split; [|apply first_some_None]. induction l as [|x l IH]; cbn; [set_solver|].
  destruct (f x) eqn:E; [done|]. intros Hl y [->|Hy]%elem_of_cons; [done|by apply IH].
Qed.

Lemma btree_get_app (l1 l2 : list KeyValue) k :
  ksorted (l1 ++ l2) →
  btree_get k (l1 ++ l2)
  = match btree_get k l1 with Some v => Some v | None => btree_get k l2 end.
Proof.
  intros Hs. pose proof Hs as (H1 & H2 & H3)%ksorted_app.
  destruct (btree_get k l1) as [v|] eqn:E1.
  - apply btree_get_Some in E1; [|done]. apply btree_get_Some; [done|]. apply elem_of_app. by left.
  - rewrite btree_get_None in E1 by done. destruct (btree_get k l2) as [v|] eqn:E2.
    + apply btree_get_Some in E2; [|done]. apply btree_get_Some; [done|]. apply elem_of_app. by right.
    + rewrite btree_get_None in E2 by done. apply btree_get_None; [done|].
      intros v [Hv|Hv]%elem_of_app; [by apply (E1 v)|by apply (E2 v)].
Qed.

Lemma btree_get_concat (X : list (list KeyValue)) k :
  ksorted (concat X) → btree_get k (concat X) = first_some (btree_get k) X.
Proof.
  induction X as [|x X IH]; [done|]. cbn [concat first_some]. intros Hs.
  rewrite btree_get_app by done. apply ksorted_app in Hs as (_ & Hs & _). by rewrite IH.
Qed.

(** Scopes in the order of a level other than 0: one ends before the next starts. *)
Definition scope_before (a b : Scope) : Prop := cmp (sc_end a) (sc_start b) = Lt.

Definition level_sorted (l : list Scope) : Prop :=
  Forall scope_wf l ∧ StronglySorted scope_before l.

Section version_laws.
Context {T : Type} `{TB : Table T} (loader_get : Z → option T) (contents : Z → list KeyValue).

Record scope_loaded (s : Scope) : Prop := {
  loaded_table : ∃ t, loader_get (sc_gen s) = Some t ∧ table_holds t (contents (sc_gen s))
                      ∧ table_gen t = sc_gen s;
  loaded_within : ∀ e, e ∈ contents (sc_gen s) → meet_by_key s e.1 = true;
  loaded_wf : scope_wf s;
}.

(** The counter of a scope has a cell; alone, no counter exceeds 101. *)
Definition seeks_ok (h : Seeks) : Prop := Forall (λ x, 0 ≤ x ≤ 101)%Z h.
Definition scope_cell (h : Seeks) (s : Scope) : Prop :=
  ∀ loc, sc_allowed_seeks s = Some loc → loc < length h.

Record version_wf (h : Seeks) (v : Version) : Prop := {
  wf_levels : length (level_slice v) = MAX_LEVEL;
  wf_loaded l s : l ∈ level_slice v → s ∈ l → scope_loaded s;
  wf_cells l s : l ∈ level_slice v → s ∈ l → scope_cell h s;
  wf_sorted l : l ∈ drop 1 (level_slice v) → level_sorted l;
}.

Definition scope_find (key : bytes) (s : Scope) : option (option bytes) :=
  btree_get key (contents (sc_gen s)).

(** All tables, from the newest data to the oldest. *)
Definition version_tables (v : Version) : list Scope :=
  reverse (default [] (head (level_slice v))) ++ concat (drop 1 (level_slice v)).

(** The value of a key in a version: that of the first table that has the key. *)
Definition version_find (v : Version) (key : bytes) : option (option bytes) :=
  first_some (scope_find key) (version_tables v).

Lemma scope_find_outside key s :
  scope_loaded s → meet_by_key s key = false → scope_find key s = None.
Proof.
  intros [(t & _ & Hh & _) Hin _] Hm. apply btree_get_None; [by eapply holds_sorted|].
  intros v Hv. apply Hin in Hv. simpl in Hv. congruence.
Qed.

Lemma seeks_increase_ok s h :
  seeks_ok h → scope_cell h s →
  ∃ b h', seeks_increase s h = Ok (b, h') ∧ seeks_ok h' ∧ length h' = length h.
Proof.
  intros Hh Hc. destruct (sc_allowed_seeks s) as [loc|] eqn:E.
  - destruct (lookup_lt_is_Some_2 h loc (Hc loc E)) as [x Hx].
    pose proof Hh as Hh'. unfold seeks_ok in Hh'. rewrite Forall_lookup in Hh'.
    pose proof (Hh' loc x Hx) as Hr. cbn beta in Hr.
    rewrite (seeks_increase_spec s h loc x) by (done || lia).
    unfold SEEK_COMPACTION_COUNT. case_decide; eexists _, _; (split; [done|]);
      (split; [apply Forall_insert; [done|lia]|by rewrite length_insert]).
  - unfold seeks_increase. rewrite E. eauto.
Qed.

Definition hit_of (key : bytes) (o : option (option bytes)) (r : SeekOption KeyValue) : Prop :=
  match o with
  | Some v => r = Hit (key, v)
  | None => ∃ m, r = Miss m
  end.

Lemma query_by_scope_spec key s level h :
  scope_loaded s → seeks_ok h → scope_cell h s →
  ∃ r h', query_by_scope loader_get key s level h = (Ok r, h') ∧
          hit_of key (scope_find key s) r ∧ seeks_ok h' ∧ length h' = length h.
Proof.
  intros Hl Hh Hc. unfold query_by_scope. destruct (meet_by_key s key) eqn:Hm.
  - destruct (loaded_table _ Hl) as (t & -> & Hholds & _).
    rewrite (holds_query _ _ Hholds). unfold scope_find.
    destruct (btree_get key _) as [v|]; cbn [fmap option_fmap option_map].
    + eexists _, _. split_and!; done.
    + case_decide; [|eexists _, _; split_and!; try done; by eexists].
      destruct (seeks_increase_ok s h Hh Hc) as ([|] & h' & -> & ? & ?);
        eexists _, _; split_and!; try done; by eexists.
  - rewrite scope_find_outside by done. eexists _, _; split_and!; try done; by eexists.
Qed.

Lemma query_level_0_spec key ss h :
  (∀ s, s ∈ ss → scope_loaded s) → (∀ s, s ∈ ss → scope_cell h s) → seeks_ok h →
  ∃ h', query_level_0 loader_get key ss h
        = (Ok ((λ v, (key, v)) <$> first_some (scope_find key) ss), h') ∧
        seeks_ok h' ∧ length h' = length h.
Proof.
  revert h. induction ss as [|s ss IH]; intros h Hl Hc Hh; [by eexists|].
  destruct (query_by_scope_spec key s LEVEL_0 h) as (r & h1 & Hq & Hr & Hh1 & Hlen);
    [by apply Hl; left|done|by apply Hc; left|].
  cbn [query_level_0 first_some]. rewrite Hq.
  destruct (scope_find key s) as [v|]; cbn in Hr.
  - subst r. by eexists.
  - destruct Hr as [m ->]. destruct (IH h1) as (h2 & -> & Hh2 & Hlen2).
    + intros s' Hs'. apply Hl. by right.
    + intros s' Hs' loc Hloc. rewrite Hlen. apply (Hc s'); [by right|done].
    + done.
    + eexists. split_and!; [done|done|congruence].
Qed.
End version_laws.

(** ** The search within a sorted level *)

Definition starts (l : list Scope) : list (bytes * Scope) := (λ s, (sc_start s, s)) <$> l.

Lemma level_sorted_starts l : level_sorted l → ksorted (starts l).
Proof.
  intros [Hwf Hs]. induction Hs as [|s l Hl IH Hb]; [constructor|].
  apply Forall_cons in Hwf as [Hws Hwf]. constructor; [by apply IH|].
  apply Forall_fmap, Forall_forall. intros b Hin. rewrite Forall_forall in Hb.
  eapply cmp_le_lt_trans; [done|]. by apply Hb.
Qed.

Lemma query_meet_index_rank l key :
  level_sorted l →
  query_meet_index l key
  = Ok (if rank_hit key (starts l) then rank key (starts l) else rank key (starts l) - 1).
Proof.
  intros Hs. unfold query_meet_index.
  rewrite (binary_search_rank _ l (starts l) key).
  - by destruct (rank_hit _ _).
  - by apply level_sorted_starts.
  - unfold starts. by rewrite length_fmap.
  - intros j x kv Hx Hkv. unfold starts in Hkv. rewrite list_lookup_fmap, Hx in Hkv.
    by simplify_eq/=.
Qed.

Lemma scope_before_lt l i j a b :
  StronglySorted scope_before l → l !! i = Some a → l !! j = Some b → i < j → scope_before a b.
Proof.
  intros Hs. revert i j. induction Hs as [|s l Hl IH Hb]; [done|].
  intros i j Hi Hj Hij. destruct j as [|j]; [lia|]. destruct i as [|i]; simplify_eq/=.
  - rewrite Forall_forall in Hb. apply Hb. by eapply list_elem_of_lookup_2.
  - eapply IH; [done..|lia].
Qed.

(** The scope of a sorted level that holds a key is the one the search finds. *)
Lemma query_meet_index_hit l key i s :
  level_sorted l → l !! i = Some s → meet_by_key s key = true →
  query_meet_index l key = Ok i.
Proof.
  intros Hs Hi Hm. rewrite query_meet_index_rank by done. f_equal.
  pose proof (level_sorted_starts l Hs) as Hk.
  apply meet_by_key_iff in Hm as [Hst Hend].
  assert (starts l !! i = Some (sc_start s, s)) as Hli
    by (unfold starts; by rewrite list_lookup_fmap, Hi).
  apply le_b_true in Hst as [Hlt|Heq].
  - apply (rank_spec key _ _ _ Hk Hli) in Hlt.
    assert (∀ b, starts l !! S i = Some b → cmp key b.1 = Lt) as Hnext.
    { intros b Hb. unfold starts in Hb. rewrite list_lookup_fmap in Hb.
      destruct (l !! S i) as [b'|] eqn:E; simplify_eq/=.
      eapply cmp_le_lt_trans; [done|].
      by apply (scope_before_lt l i (S i)); [apply Hs|..|lia]. }
    assert (rank key (starts l) = S i) as Hr.
    { destruct (decide (S i < rank key (starts l))) as [Hgt|]; [|lia]. exfalso.
      destruct (lookup_lt_is_Some_2 (starts l) (S i)) as [b Hb].
      { pose proof (rank_le key (starts l)). lia. }
      apply (rank_spec key _ _ _ Hk Hb) in Hgt. apply (cmp_lt_irrefl key).
      eapply cmp_lt_trans; [by apply Hnext|done]. }
    rewrite Hr. unfold rank_hit. rewrite Hr.
    destruct (starts l !! S i) as [b|] eqn:E; [|lia].
    rewrite (cmp_antisym key b.1), (Hnext b eq_refl). simpl. lia.
  - rewrite (rank_hit_elem key s) by (done || rewrite <- Heq; by eapply list_elem_of_lookup_2).
    symmetry. by eapply rank_at.
Qed.

(** Two scopes of a sorted level that hold the same key are the same. *)
Lemma level_sorted_unique l i j a b key :
  level_sorted l → l !! i = Some a → l !! j = Some b →
  meet_by_key a key = true → meet_by_key b key = true → i = j.
Proof.
  intros Hs Hi Hj Ha Hb.
  pose proof (query_meet_index_hit l key i a Hs Hi Ha).
  pose proof (query_meet_index_hit l key j b Hs Hj Hb). congruence.
Qed.

Section query_correct.
Context {T : Type} `{TB : Table T} (loader_get : Z → option T) (contents : Z → list KeyValue).
Abbreviation loaded := (scope_loaded loader_get contents).
Abbreviation find := (scope_find contents).

(** The one table the search selects answers for the whole level. *)
Lemma level_find_index l key :
  level_sorted l → (∀ s, s ∈ l → loaded s) →
  ∃ i, query_meet_index l key = Ok i ∧
       first_some (find key) l
       = match l !! i with Some s => find key s | None => None end.
Proof.
  intros Hs Hl. destruct (decide (Exists (λ s, meet_by_key s key = true) l)) as [He|He].
  - apply Exists_exists in He as (s & (i & Hi)%list_elem_of_lookup & Hm).
    exists i. split; [by eapply query_meet_index_hit|]. rewrite Hi.
    apply first_some_unique; [by eapply list_elem_of_lookup_2|].
    intros y (j & Hj)%list_elem_of_lookup. destruct (meet_by_key y key) eqn:Hy.
    + left. pose proof (level_sorted_unique l i j s y key Hs Hi Hj Hm Hy) as ->. congruence.
    + right. eapply scope_find_outside; [|done]. apply Hl. by eapply list_elem_of_lookup_2.
  - assert (∀ s, s ∈ l → find key s = None) as Hn.
    { intros s Hin. eapply scope_find_outside; [by apply Hl|].
      apply not_true_iff_false. intros Hm. apply He, Exists_exists. eauto. }
    rewrite query_meet_index_rank by done. eexists. split; [done|].
    rewrite first_some_None by done. destruct (l !! _) as [s|] eqn:E; [|done].
    symmetry. apply Hn. by eapply list_elem_of_lookup_2.
Qed.

Lemma query_levels_spec key level slices miss h :
  (∀ l, l ∈ slices → level_sorted l) →
  (∀ l s, l ∈ slices → s ∈ l → loaded s) → (∀ l s, l ∈ slices → s ∈ l → scope_cell h s) →
  seeks_ok h →
  ∃ miss' h', query_levels loader_get key level slices miss h
        = (Ok ((λ v, (key, v)) <$> first_some (find key) (concat slices), miss'), h') ∧
        seeks_ok h' ∧ length h' = length h.
Proof.
  revert level miss h. induction slices as [|l slices IH]; intros level miss h Hs Hl Hc Hh.
  { by eexists _, _. }
  destruct (level_find_index l key) as (i & Hi & Hf); [set_solver..|].
  cbn [query_levels concat]. rewrite Hi, first_some_app, Hf.
  destruct (l !! i) as [s|] eqn:Es; [|apply IH; set_solver].
  assert (s ∈ l) as Hin by (by eapply list_elem_of_lookup_2).
  destruct (query_by_scope_spec loader_get contents key s level h)
    as (r & h1 & -> & Hr & Hh1 & Hlen); [set_solver..|].
  destruct (find key s) as [v|]; cbn in Hr; [subst r; by eexists _, _|].
  destruct Hr as [m ->].
  assert (∀ l s, l ∈ slices → s ∈ l → scope_cell h1 s) as Hc1.
  { intros l' s' Hl' Hs' loc Hloc. rewrite Hlen. eapply Hc; [by right|done..]. }
  assert (∃ miss1, match m with
    | Some seek_scope => query_levels loader_get key (S level) slices
        (match miss with Some s => Some s | None => Some seek_scope end) h1
    | None => query_levels loader_get key (S level) slices miss h1
    end = query_levels loader_get key (S level) slices miss1 h1) as [miss1 Hm]
    by (destruct m; by eexists).
  cbn. rewrite Hm. destruct (IH (S level) miss1 h1) as (m' & h2 & -> & Hh2 & Hlen2).
  - intros l' Hl'. apply Hs. by right.
  - intros l' s' Hl'. apply Hl. by right.
  - done.
  - done.
  - eexists _, _. split_and!; [done..|congruence].
Qed.

Lemma query_spec h v key :
  version_wf loader_get contents h v → seeks_ok h →
  ∃ miss h', query loader_get v key h
        = (Ok ((λ x, (key, x)) <$> version_find contents v key, miss), h') ∧
        seeks_ok h' ∧ length h' = length h.
Proof.
  intros [Hlen Hl Hc Hs] Hh. unfold query, version_find, version_tables.
  destruct (level_slice v) as [|l0 slices] eqn:E; [done|].
  cbn [head from_option id drop] in *. rewrite drop_0 in *.
  destruct (query_level_0_spec loader_get contents key (reverse l0) h)
    as (h1 & -> & Hh1 & Hlen1).
  { intros s Hin. apply (Hl l0); [by left|by apply elem_of_reverse]. }
  { intros s Hin. apply (Hc l0); [by left|by apply elem_of_reverse]. }
  { done. }
  rewrite first_some_app. destruct (first_some _ (reverse l0)) as [x|].
  - cbn. eexists _, _. split_and!; [done..|congruence].
  - cbn [fmap option_fmap option_map]. rewrite take_ge by (unfold MAX_LEVEL in *; simpl in Hlen; lia).
    destruct (query_levels_spec key 1 slices None h1) as (m & h2 & -> & Hh2 & Hlen2).
    + done.
    + intros l s Hin. apply Hl. by right.
    + intros l s Hin Hsin loc Hloc. rewrite Hlen1. eapply Hc; [by right|done..].
    + done.
    + eexists _, _. split_and!; [done..|congruence].
Qed.
End query_correct.

(** ** Edits *)

Lemma vec_insert_all {A} i (xs l : list A) :
  i ≤ length l →
  res_foldM (λ l s, vec_insert i s l) l (reverse xs) = Ok (take i l ++ xs ++ drop i l).
Proof.
  intros Hi. induction xs as [|x xs IH]; cbn [app].
  - by rewrite take_drop.
  - rewrite reverse_cons, res_foldM_app, IH. cbn [res_bind res_foldM]. unfold vec_insert.
    rewrite decide_True by (rewrite !length_app, length_take; lia). cbn [res_bind].
    assert (i = length (take i l)) as Ei by (rewrite length_take; lia).
    by rewrite take_app_length', drop_app_length' by done.
Qed.

(** The bytes and entries a list of events adds and deletes. *)
Definition add_total (events : list EditType) : N * nat :=
  foldr (λ e acc, match e with
                  | EditAdd m => ((tm_size_of_disk m + acc.1)%N, tm_len m + acc.2)
                  | EditDel _ => acc
                  end) (0%N, 0) events.

Definition del_total (events : list EditType) : N * nat :=
  foldr (λ e acc, match e with
                  | EditDel m => ((tm_size_of_disk m + acc.1)%N, tm_len m + acc.2)
                  | EditAdd _ => acc
                  end) (0%N, 0) events.

Section apply_laws.
Context `{IT : Itertools} {ITL : ItertoolsLaws}.

Lemma key_sorted_const {A} (f : A → nat) c (l : list A) :
  (∀ x, x ∈ l → f x = c) → StronglySorted (key_le f) l.
Proof.
  induction l as [|x l IH]; intros Hc; [constructor|]. constructor; [apply IH; set_solver|].
  apply Forall_forall. intros y Hy. unfold key_le.
  rewrite (Hc x), (Hc y) by set_solver. apply le_b_refl.
Qed.

(** Additions come first. *)
Lemma sorted_events (events : list EditType) :
  sorted_by_key ord_num events
  = filter (λ e, cmp (ord_num e) 0 = Eq) events ++ filter (λ e, cmp (ord_num e) 1 = Eq) events.
Proof.
  apply (key_sorted_unique ord_num).
  - apply sorted_by_key_sorted.
  - apply StronglySorted_app. unfold key_le. split_and!.
    + intros a b [Ha _]%list_elem_of_filter [Hb _]%list_elem_of_filter.
      apply cmp_eq_iff in Ha, Hb. by rewrite Ha, Hb.
    + apply (key_sorted_const ord_num 0). by intros e [He%cmp_eq_iff _]%list_elem_of_filter.
    + apply (key_sorted_const ord_num 1). by intros e [He%cmp_eq_iff _]%list_elem_of_filter.
  - rewrite sorted_by_key_perm. induction events as [|[m|m] events IH]; [done| |];
      rewrite !filter_cons; cbn; rewrite IH at 1; [done|by rewrite Permutation_middle].
  - intros k. rewrite sorted_by_key_stable, filter_app, !list_filter_filter.
    destruct (decide (k = 0)) as [->|H0]; [|destruct (decide (k = 1)) as [->|H1]].
    + rewrite (filter_none (λ x, cmp (ord_num x) 0 = Eq ∧ cmp (ord_num x) 1 = Eq)), app_nil_r
        by (intros [m|m] _ [H1 H2]; done).
      apply filter_iff_in. tauto.
    + rewrite (filter_none (λ x, cmp (ord_num x) 1 = Eq ∧ cmp (ord_num x) 0 = Eq))
        by (intros [m|m] _ [H1 H2]; done).
      apply filter_iff_in. tauto.
    + rewrite !filter_none; [done|..]; intros x _; rewrite ?cmp_eq_iff; lia || destruct x; cbn; lia.
Qed.

Lemma process_adds m events rest :
  (∀ e, e ∈ events → ∃ x, e = EditAdd x) →
  res_foldM process_event m (events ++ rest)
  = res_foldM process_event
      {| vm_size_of_disk := vm_size_of_disk m + (add_total events).1;
         vm_len := vm_len m + (add_total events).2 |} rest.
Proof.
  revert m. induction events as [|e events IH]; intros m Hadd.
  - cbn. rewrite N.add_0_r, Nat.add_0_r. by destruct m.
  - destruct (Hadd e ltac:(by left)) as [x ->]. cbn. rewrite IH by set_solver. cbn.
    by rewrite N.add_assoc, Nat.add_assoc.
Qed.

Lemma process_dels m events :
  (∀ e, e ∈ events → ∃ x, e = EditDel x) →
  res_foldM process_event m events
  = if decide (((del_total events).1 ≤ vm_size_of_disk m)%N ∧ (del_total events).2 ≤ vm_len m)
    then Ok {| vm_size_of_disk := vm_size_of_disk m - (del_total events).1;
               vm_len := vm_len m - (del_total events).2 |}
    else Panic.
Proof.
  revert m. induction events as [|e events IH]; intros m Hdel.
  - cbn. rewrite decide_True by lia. rewrite N.sub_0_r, Nat.sub_0_r. by destruct m.
  - destruct (Hdel e ltac:(by left)) as [x ->]. cbn. fold (del_total events).
    unfold u64_sub, usize_sub.
    case_decide as H1; cbn; [|rewrite decide_False by lia; done].
    case_decide as H2; cbn; [|rewrite decide_False by lia; done].
    rewrite IH by set_solver. cbn. case_decide as H3.
    + rewrite decide_True by lia. f_equal; f_equal; lia.
    + rewrite decide_False by lia. done.
Qed.

Lemma add_total_filter events :
  add_total (filter (λ e, cmp (ord_num e) 0 = Eq) events) = add_total events.
Proof.
  induction events as [|[m|m] events IH]; [done|..];
    [rewrite filter_cons_True by done|rewrite filter_cons_False by done];
    unfold add_total in *; cbn [foldr]; by rewrite IH.
Qed.

Lemma del_total_filter events :
  del_total (filter (λ e, cmp (ord_num e) 1 = Eq) events) = del_total events.
Proof.
  induction events as [|[m|m] events IH]; [done|..];
    [rewrite filter_cons_False by done|rewrite filter_cons_True by done];
    unfold del_total in *; cbn [foldr]; by rewrite IH.
Qed.

Lemma statistical_process_spec m events :
  statistical_process m events
  = let size := (vm_size_of_disk m + (add_total events).1)%N in
    let len := vm_len m + (add_total events).2 in
    if decide (((del_total events).1 ≤ size)%N ∧ (del_total events).2 ≤ len)
    then Ok {| vm_size_of_disk := size - (del_total events).1;
               vm_len := len - (del_total events).2 |}
    else Panic.
Proof.
  unfold statistical_process. rewrite sorted_events, process_adds, add_total_filter.
  - rewrite process_dels, del_total_filter; [done|].
    intros [x|x] [Hx _]%list_elem_of_filter; [done|by eexists].
  - intros [x|x] [Hx _]%list_elem_of_filter; [by eexists|done].
Qed.

(** C34: the statistics of a version after any events are what was there, plus all that
    was added, less all that was deleted, in whatever order the events come; they panic
    exactly when more is deleted than there is. *)
Theorem statistical_process_total m events :
  statistical_process m events
  = let size := (vm_size_of_disk m + (add_total events).1)%N in
    let len := vm_len m + (add_total events).2 in
    if decide (((del_total events).1 ≤ size)%N ∧ (del_total events).2 ≤ len)
    then Ok {| vm_size_of_disk := size - (del_total events).1;
               vm_len := len - (del_total events).2 |}
    else Panic.
Proof. apply statistical_process_spec. Qed.
End apply_laws.

(** ** Snapshots *)

Definition chan_new : CleanChan := {| chan_open := true; chan_queue := [] |}.

Section snapshot.
Context `{IT : Itertools} {ITL : ItertoolsLaws}.

Definition level_edit (v : Version) (level : nat) (l : list Scope) : list VersionEdit :=
  match l with
  | [] => []
  | _ => [NewFile (l, level) 0 (sst_meta_by_level level (version_size_of_disk v) (version_len v))]
  end.

Definition level_stats (v : Version) (level : nat) (l : list Scope) : list EditType :=
  match l with
  | [] => []
  | _ => [EditAdd (sst_meta_by_level level (version_size_of_disk v) (version_len v))]
  end.

Lemma to_vec_edit_levels v l0 l1 l2 l3 :
  level_slice v = [l0; l1; l2; l3] →
  to_vec_edit v = level_edit v 0 l0 ++ level_edit v 1 l1 ++ level_edit v 2 l2 ++ level_edit v 3 l3.
Proof. intros E. unfold to_vec_edit. rewrite E. by destruct l0, l1, l2, l3. Qed.

(** Loading the edit of one level into an empty level. *)
Lemma apply_level_edit v level l slice dels stats :
  slice !! level = Some [] → StronglySorted (key_le sc_gen) l →
  res_foldM apply_edit (slice, dels, stats) (level_edit v level l)
  = Ok (<[level := l]> slice, dels, stats ++ level_stats v level l).
Proof.
  intros Hl Hs. destruct l as [|s l]; cbn [level_edit level_stats res_foldM].
  - by rewrite list_insert_id, app_nil_r.
  - cbn [apply_edit]. rewrite Hl, sorted_by_key_id by done. cbn [or_panic res_bind].
    case_decide; [done|]. rewrite (vec_insert_all 0) by (simpl; lia). cbn [res_bind].
    by rewrite take_0, drop_0, app_nil_r.
Qed.

Lemma sst_meta_0 size len : sst_meta_by_level 0 size len = mkTableMeta size len.
Proof. done. Qed.

Lemma sst_meta_S n size len : sst_meta_by_level (S n) size len = table_meta_default.
Proof. done. Qed.

Lemma load_snapshot v l0 l1 l2 l3 :
  level_slice v = [l0; l1; l2; l3] →
  Forall (StronglySorted (key_le sc_gen)) (level_slice v) →
  load_from_log (to_vec_edit v) chan_new
  = Ok ({| version_num := 1; level_slice := level_slice v;
           meta_data := match l0 with
                        | [] => {| vm_size_of_disk := 0; vm_len := 0 |}
                        | _ => meta_data v
                        end |}, {| chan_open := true; chan_queue := [TagAdd 1 []] |}).
Proof.
  intros E Hs. rewrite E in Hs |- *. rewrite !Forall_cons in Hs. destruct Hs as (H0 & H1 & H2 & H3 & _).
  unfold load_from_log, version_apply. rewrite (to_vec_edit_levels v l0 l1 l2 l3) by done.
  cbn [version_empty level_slice]. unfold level_slice_new, MAX_LEVEL. cbn [replicate].
  rewrite res_foldM_app, (apply_level_edit v 0) by done. cbn [res_bind insert list_insert].
  rewrite res_foldM_app, (apply_level_edit v 1) by done. cbn [res_bind insert list_insert].
  rewrite res_foldM_app, (apply_level_edit v 2) by done. cbn [res_bind insert list_insert].
  rewrite (apply_level_edit v 3) by done. cbn [res_bind insert list_insert].
  rewrite statistical_process_spec. cbv zeta.
  assert (del_total (((([] ++ level_stats v 0 l0) ++ level_stats v 1 l1)
    ++ level_stats v 2 l2) ++ level_stats v 3 l3) = (0%N, 0)) as ->.
  { by destruct l0, l1, l2, l3. }
  assert (add_total (((([] ++ level_stats v 0 l0) ++ level_stats v 1 l1)
    ++ level_stats v 2 l2) ++ level_stats v 3 l3)
    = match l0 with [] => (0%N, 0) | _ => (version_size_of_disk v, version_len v) end) as ->.
  { destruct l0, l1, l2, l3; cbn; rewrite ?sst_meta_0, ?sst_meta_S; cbn; f_equal; lia. }
  rewrite decide_True by (cbn; lia). cbn [res_bind chan_send chan_new chan_open fst snd].
  rewrite N.sub_0_r, Nat.sub_0_r. by destruct v as [num slice [size len]], l0.
Qed.

(** C33: when the tables of every level are ordered by generation, replaying the snapshot of
    a version gives the same levels.  The statistics come back only when level 0 has a table;
    otherwise they are zero, and the version counts as empty. *)
Theorem snapshot_roundtrip v :
  length (level_slice v) = MAX_LEVEL →
  Forall (StronglySorted (key_le sc_gen)) (level_slice v) →
  ∃ v' ch, load_from_log (to_vec_edit v) chan_new = Ok (v', ch) ∧
    level_slice v' = level_slice v ∧
    (level_slice v !! 0 ≠ Some [] → meta_data v' = meta_data v) ∧
    (level_slice v !! 0 = Some [] → version_is_empty v' = true).
Proof.
  intros Hlen Hs. destruct (level_slice v) as [|l0 [|l1 [|l2 [|l3 [|]]]]] eqn:E; try done.
  rewrite <- E in Hs. rewrite (load_snapshot v l0 l1 l2 l3) by done.
  eexists _, _. split; [done|]. cbn. rewrite E. split; [done|].
  split; intros H0; destruct l0; done.
Qed.
End snapshot.

(** ** Correctness of queries *)

(** C19: in a version whose levels other than 0 are sorted and disjoint, a query returns
    the value held by the first table, from the newest to the oldest, that has the key,
    whatever the seek counters are: the binary search over scopes and the range checks
    skip no table that matters. *)
Theorem query_correct {T} `{Table T} (loader_get : Z → option T) contents h v key :
  version_wf loader_get contents h v → seeks_ok h →
  ∃ miss h', query loader_get v key h
    = (Ok ((λ x, (key, x)) <$> version_find contents v key, miss), h') ∧ seeks_ok h'.
Proof.
  intros Hv Hh. destruct (query_spec loader_get contents h v key Hv Hh) as (m & h' & ? & ? & _).
  eauto.
Qed.

(** ** Concrete versions

    Versions over in-memory tables, with a decidable check that they are well-formed. *)

Definition demo_contents (data : gmap Z (list KeyValue)) (gen : Z) : list KeyValue :=
  default [] (data !! gen).

Definition demo_get (level : nat) (data : gmap Z (list KeyValue)) (gen : Z) : option BTreeTable :=
  btree_table_new level gen <$> data !! gen.

Definition demo_scope (data : gmap Z (list KeyValue)) (h : Seeks) (s : Scope) : Prop :=
  is_Some (data !! sc_gen s) ∧ ksorted (demo_contents data (sc_gen s)) ∧
  Forall (λ e, meet_by_key s e.1 = true) (demo_contents data (sc_gen s)) ∧
  scope_wf s ∧ default 0 (sc_allowed_seeks s) < length h.

Definition demo_version (data : gmap Z (list KeyValue)) (h : Seeks) (v : Version) : Prop :=
  length (level_slice v) = MAX_LEVEL ∧ Forall (Forall (demo_scope data h)) (level_slice v) ∧
  Forall level_sorted (drop 1 (level_slice v)).

#[global] Instance scope_wf_dec s : Decision (scope_wf s).
Proof. unfold scope_wf. apply _. Defined.

#[global] Instance level_sorted_dec l : Decision (level_sorted l).
Proof. unfold level_sorted, scope_before. apply _. Defined.

#[global] Instance demo_version_dec data h v : Decision (demo_version data h v).
Proof. unfold demo_version, demo_scope. apply _. Defined.

Lemma demo_scope_loaded level data h s :
  demo_scope data h s → scope_loaded (demo_get level data) (demo_contents data) s.
Proof.
  intros ([l Hl] & Hs & Hin & Hwf & _). split.
  - exists (btree_table_new level (sc_gen s) l). unfold demo_get, demo_contents in *.
    rewrite Hl in *. split_and!; [done|by apply btree_table_holds|done].
  - by apply Forall_forall.
  - done.
Qed.

Lemma demo_version_wf level data h v :
  demo_version data h v → version_wf (demo_get level data) (demo_contents data) h v.
Proof.
  intros (Hlen & Hs & Hsort). rewrite Forall_forall in Hs, Hsort. split; [done| | |done].
  - intros l s Hl Hin. specialize (Hs l Hl). rewrite Forall_forall in Hs.
    eapply demo_scope_loaded. by apply Hs.
  - intros l s Hl Hin loc Hloc. specialize (Hs l Hl). rewrite Forall_forall in Hs.
    destruct (Hs s Hin) as (_ & _ & _ & _ & Hc). by rewrite Hloc in Hc.
Qed.

(** Level 0 holds one table, level 1 two; the newer of them has the smaller keys. *)
Definition sample_tables : gmap Z (list KeyValue) :=
  {[ 9%Z := [([x02], Some [x29]); ([x04], None)];
     5%Z := [([x01], Some [x15]); ([x02], Some [x25])];
     3%Z := [([x04], Some [x43]); ([x06], Some [x63])] ]}.

Definition sample_scopes : Scope * Scope * Scope * Seeks :=
  let '(s9, h1) := from_range 9 [x02] [x04] [] in
  let '(s5, h2) := from_range 5 [x01] [x02] h1 in
  let '(s3, h3) := from_range 3 [x04] [x06] h2 in (s9, s5, s3, h3).

Definition sample_seeks : Seeks := sample_scopes.2.

Definition sample_version : Version :=
  let '(s9, s5, s3, _) := sample_scopes in
  {| version_num := 7; level_slice := [[s9]; [s5; s3]; []; []];
     meta_data := {| vm_size_of_disk := 60; vm_len := 6 |} |}.

Lemma sample_version_wf level :
  version_wf (demo_get level sample_tables) (demo_contents sample_tables) sample_seeks
    sample_version.
Proof. apply demo_version_wf, (bool_decide_unpack _). vm_compute. exact I. Qed.

Lemma sample_seeks_ok : seeks_ok sample_seeks.
Proof. repeat constructor; lia. Qed.

Lemma query_correct_witness :
  ∃ miss h', query (demo_get 1 sample_tables) sample_version [x06] sample_seeks
    = (Ok (Some ([x06], Some [x63]), miss), h') ∧ seeks_ok h'.
Proof.
  exact (query_correct (demo_get 1 sample_tables) (demo_contents sample_tables) sample_seeks
    sample_version [x06] (sample_version_wf 1) sample_seeks_ok).
Defined.

Section snapshot_samples.
Import Reference.

Lemma statistical_process_total_witness :
  statistical_process {| vm_size_of_disk := 5; vm_len := 1 |}
    [EditDel {| tm_size_of_disk := 7; tm_len := 2 |}; EditAdd {| tm_size_of_disk := 4; tm_len := 3 |}]
  = Ok {| vm_size_of_disk := 2; vm_len := 2 |}.
Proof.
  refine (eq_trans (statistical_process_total {| vm_size_of_disk := 5; vm_len := 1 |}
    [EditDel {| tm_size_of_disk := 7; tm_len := 2 |};
     EditAdd {| tm_size_of_disk := 4; tm_len := 3 |}]) _).
  vm_compute. reflexivity.
Defined.

Lemma snapshot_roundtrip_witness :
  ∃ v' ch, load_from_log (to_vec_edit
    {| version_num := 4; level_slice := [[(sample_scopes.1.1).1]; []; []; []];
       meta_data := {| vm_size_of_disk := 20; vm_len := 2 |} |}) chan_new = Ok (v', ch) ∧
    level_slice v' = [[(sample_scopes.1.1).1]; []; []; []].
Proof.
  destruct (snapshot_roundtrip
    {| version_num := 4; level_slice := [[(sample_scopes.1.1).1]; []; []; []];
       meta_data := {| vm_size_of_disk := 20; vm_len := 2 |} |}) as (v' & ch & Hl & Hs & _).
  - reflexivity.
  - repeat constructor.
  - exists v', ch. split; [exact Hl|exact Hs].
Defined.

(** A snapshot orders the tables of a level by generation, not by key: a query that
    finds a key in a well-formed version misses it once that version is loaded from its
    own snapshot. *)
Theorem snapshot_reorders_level :
  ∃ data h v v' ch,
    version_wf (demo_get 1 data) (demo_contents data) h v ∧
    load_from_log (to_vec_edit v) chan_new = Ok (v', ch) ∧
    (query (demo_get 1 data) v [x06] h).1 = Ok (Some ([x06], Some [x63]), None) ∧
    (query (demo_get 1 data) v' [x06] h).1 = Ok (None, None).
Proof.
  exists sample_tables, sample_seeks, sample_version.
  eexists _, _. split; [apply sample_version_wf|]. split; [vm_compute; reflexivity|].
  split; vm_compute; reflexivity.
Qed.
End snapshot_samples.
