(* ===== verification/VersionIter.v ===== *)
(** * Iterators over a level and over a version (src/kernel/lsm/iterator/level_iter.rs,
    src/kernel/lsm/version/iter.rs)

    A level other than 0 is iterated table after table; a version by merging the tables
    of level 0, newest first, with the iterators of the levels below.  The loop over the
    levels stops before the last one, so the data of that level is not iterated. *)

From S2P Require Import Prelude Std Iterator Scope BTreeTable Config Version.
From Stdlib Require Import ZArith Lia Strings.Byte Strings.String Sorted.
From stdpp Require Import base list gmap.

Set Default Goal Selector "!".
Open Scope nat_scope.

Definition LEVEL_0_SEEK_MESSAGE : string := "level 0 cannot seek"%string.

(** ** Definitions *)

Section level_iter.
Context {T : Type} {TB : Table T}.

(** [lv_get] is the table loader the version holds. *)
Record LevelIter := mkLevelIter {
  lv_get : Z → option T;
  lv_version : Version;
  lv_level : nat;
  lv_level_len : nat;
  lv_offset : nat;
  lv_child_iter : table_iter_state;
}.

Definition level_iter_new (loader_get : Z → option T) (v : Version) (level : nat)
    : KernelResult LevelIter :=
  let? o := version_table loader_get v level 0 in
  let? table := ok_or o DataEmpty in
  let? child_iter := table_iter table in
  let? n := level_len v level in
  Ok {| lv_get := loader_get; lv_version := v; lv_level := level; lv_level_len := n;
        lv_offset := 0; lv_child_iter := child_iter |}.

Definition set_offset (it : LevelIter) (offset : nat) : LevelIter :=
  {| lv_get := lv_get it; lv_version := lv_version it; lv_level := lv_level it;
     lv_level_len := lv_level_len it; lv_offset := offset; lv_child_iter := lv_child_iter it |}.
Definition set_child_iter (it : LevelIter) (c : table_iter_state) : LevelIter :=
  {| lv_get := lv_get it; lv_version := lv_version it; lv_level := lv_level it;
     lv_level_len := lv_level_len it; lv_offset := lv_offset it; lv_child_iter := c |}.

Definition level_iter_valid (it : LevelIter) : bool :=
  bool_decide (lv_offset it < lv_level_len it).

Definition child_iter_seek (s : Seek) (offset : nat) (it : LevelIter) : KernelResult LevelIter :=
  let it1 := set_offset it offset in
  if level_iter_valid it1 then
    let? o := version_table (lv_get it) (lv_version it) (lv_level it) offset in
    match o with
    | Some table =>
        let? child := table_iter table in
        let? child' := seek s child in
        Ok (set_child_iter it1 child')
    | None => Ok it1
    end
  else Ok it1.

Definition seek_ward (key : bytes) (s : Seek) (it : LevelIter) : KernelResult LevelIter :=
  if decide (lv_level it = LEVEL_0) then Err (NotSupport LEVEL_0_SEEK_MESSAGE)
  else
    let? l := or_panic (level_slice (lv_version it) !! lv_level it) in
    let? index := query_meet_index l key in
    child_iter_seek s index it.

Definition level_iter_try_next (it : LevelIter) : KernelResult (option KeyValue * LevelIter) :=
  let? (o, child) := try_next (lv_child_iter it) in
  match o with
  | None =>
      let? it1 := child_iter_seek SeekFirst (lv_offset it + 1) (set_child_iter it child) in
      let? (o', child') := try_next (lv_child_iter it1) in
      Ok (o', set_child_iter it1 child')
  | Some item => Ok (Some item, set_child_iter it child)
  end.

Definition level_iter_seek (s : Seek) (it : LevelIter) : KernelResult LevelIter :=
  match s with
  | SeekFirst => child_iter_seek SeekFirst 0 it
  | SeekLast => let? n := usize_sub (lv_level_len it) 1 in child_iter_seek SeekLast n it
  | SeekBackward key => seek_ward key s it
  end.

#[global] Instance level_iter_iter : Iter LevelIter KeyValue := {
  try_next := level_iter_try_next;
  is_valid := level_iter_valid;
}.
#[global] Instance level_iter_seek_iter : SeekIter LevelIter KeyValue := level_iter_seek.

(** [VersionIter::merging_with_version]: what is pushed onto the vector. *)
Fixpoint level_iters (loader_get : Z → option T) (v : Version) (levels : list nat)
    : KernelResult (list (table_iter_state + LevelIter)) :=
  match levels with
  | [] => Ok []
  | level :: rest =>
      match level_iter_new loader_get v level with
      | Ok it => let? its := level_iters loader_get v rest in Ok (inr it :: its)
      | Err _ => level_iters loader_get v rest
      | Panic => Panic
      end
  end.

Definition merging_with_version (loader_get : Z → option T) (v : Version)
    : KernelResult (list (table_iter_state + LevelIter)) :=
  let? tables := tables_by_level_0 loader_get v in
  let? its := res_mapM table_iter tables in
  let? lits := level_iters loader_get v (seq 1 (MAX_LEVEL - 1 - 1)) in
  Ok ((inl <$> its) ++ lits).

Record VersionIter := mkVersionIter {
  vri_merge_iter : MergingIter (table_iter_state + LevelIter);
}.

Definition version_iter_new (loader_get : Z → option T) (v : Version) : KernelResult VersionIter :=
  let? vec_iter := merging_with_version loader_get v in
  let? merge_iter := merging_new vec_iter in
  Ok {| vri_merge_iter := merge_iter |}.
Definition version_iter_try_next (it : VersionIter) : KernelResult (option KeyValue * VersionIter) :=
  let? (item, merge_iter) := merging_try_next (vri_merge_iter it) in
  Ok (item, {| vri_merge_iter := merge_iter |}).
Definition version_iter_is_valid (it : VersionIter) : bool := is_valid (vri_merge_iter it).
Definition version_iter_seek (s : Seek) (it : VersionIter) : KernelResult VersionIter :=
  let? merge_iter := merging_seek s (vri_merge_iter it) in Ok {| vri_merge_iter := merge_iter |}.

#[global] Instance version_iter_iter : Iter VersionIter KeyValue := {
  try_next := version_iter_try_next;
  is_valid := version_iter_is_valid;
}.
#[global] Instance version_iter_seek_iter : SeekIter VersionIter KeyValue := version_iter_seek.

(** The wrapper yields what it wraps. *)
Lemma version_iter_yields m l : iter_yields m l → iter_yields {| vri_merge_iter := m |} l.
Proof.
  revert m. induction l as [|x l IH]; intros m; cbn [iter_yields].
  - intros (m' & Hm). exists {| vri_merge_iter := m' |}. cbn. unfold version_iter_try_next.
    cbn [vri_merge_iter]. change (merging_try_next m) with (try_next m). by rewrite Hm.
  - intros (m' & Hm & Hy). exists {| vri_merge_iter := m' |}. split; [|by apply IH].
    cbn. unfold version_iter_try_next. cbn [vri_merge_iter]. change (merging_try_next m) with (try_next m). by rewrite Hm.
Qed.
End level_iter.
Arguments LevelIter T {_}.
Arguments VersionIter T {_}.

(** ** A level as one sorted run *)

Section level_laws.
Context {T : Type} {TB : Table T} (get : Z → option T) (contents : Z → list KeyValue).

(** A scope whose table can be iterated; its data is not empty. *)
Record scope_iterable (s : Scope) : Prop := {
  sit_within e : e ∈ contents (sc_gen s) → meet_by_key s e.1 = true;
  sit_sorted : ksorted (contents (sc_gen s));
  sit_table : ∃ t, get (sc_gen s) = Some t ∧ table_seeks t (contents (sc_gen s));
  sit_nonempty : contents (sc_gen s) ≠ [];
}.

Definition level_data (l : list Scope) : list KeyValue :=
  concat ((λ s, contents (sc_gen s)) <$> l).

Lemma level_data_elem l e : e ∈ level_data l ↔ ∃ s, s ∈ l ∧ e ∈ contents (sc_gen s).
Proof.
  unfold level_data. rewrite elem_of_concat. split.
  - intros (c & (s & -> & Hs)%list_elem_of_fmap & He). eauto.
  - intros (s & Hs & He). exists (contents (sc_gen s)). split; [|done].
    by apply (list_elem_of_fmap_2 (λ s, contents (sc_gen s))).
Qed.

Lemma level_data_sorted l :
  level_sorted l → (∀ s, s ∈ l → scope_iterable s) → ksorted (level_data l).
Proof.
  intros [_ Hs]. induction Hs as [|s l Hl IH Hb]; intros Hi; [constructor|]. cbn.
  apply ksorted_app. split_and!; [by apply Hi; left|apply IH; set_solver|].
  intros x y Hx (s' & Hs' & Hy)%level_data_elem. rewrite Forall_forall in Hb.
  apply (sit_within s) in Hx; [|by apply Hi; left]. apply (sit_within s') in Hy; [|apply Hi; by right].
  apply meet_by_key_iff in Hx as [_ Hx]. apply meet_by_key_iff in Hy as [Hy _].
  eapply cmp_le_lt_trans; [done|]. eapply cmp_lt_le_trans; [|done]. by apply Hb.
Qed.

Context (v : Version) (level : nat) (l : list Scope).
Context (Hlevel : level_slice v !! level = Some l).
Context (Hi : ∀ s, s ∈ l → scope_iterable s).

Record lv_at (it : LevelIter T) (off : nat) (rest : list KeyValue) : Prop := {
  at_get : lv_get it = get;
  at_version : lv_version it = v;
  at_level : lv_level it = level;
  at_len : lv_level_len it = length l;
  at_off : lv_offset it = off;
  at_child : iter_exhausts (lv_child_iter it) rest;
}.

Lemma version_table_at off s :
  l !! off = Some s →
  ∃ t, version_table get v level off = Ok (Some t) ∧ table_seeks t (contents (sc_gen s)).
Proof.
  intros Hs. destruct (sit_table s) as (t & Ht & Hseeks); [apply Hi; by eapply list_elem_of_lookup_2|].
  exists t. split; [|done]. unfold version_table. rewrite Hlevel. cbn [or_panic res_bind].
  by rewrite Hs, Ht.
Qed.

Lemma child_iter_seek_at s it off0 rest off sc :
  lv_at it off0 rest → l !! off = Some sc →
  ∃ it' pre, child_iter_seek s off it = Ok it' ∧
    lv_at it' off (pre ++ seek_range s (contents (sc_gen sc))) ∧
    seek_overrun s (contents (sc_gen sc)) pre.
Proof.
  intros [Hg Hv Hlv Hlen _ _] Hsc. pose proof (lookup_lt_Some _ _ _ Hsc) as Hlt.
  destruct (version_table_at off sc Hsc) as (t & Ht & Hseeks).
  destruct (seeks_seek t _ Hseeks s) as (c & c' & pre & Hc & Hc' & Hex & Hov).
  unfold child_iter_seek, level_iter_valid. cbn [set_offset lv_offset lv_level_len].
  rewrite Hlen, bool_decide_eq_true_2 by done. rewrite Hg, Hv, Hlv, Ht. cbn [res_bind].
  rewrite Hc. cbn [res_bind]. rewrite Hc'. cbn [res_bind]. exists (set_child_iter (set_offset it off) c'), pre.
  by split_and!.
Qed.

(** At the end of the last table the iterator stays at the end. *)
Lemma lv_at_ends it off m : lv_at it off [] → length l ≤ S off → iter_ends m it.
Proof.
  revert it off. induction m as [|m IHm]; intros it off Hat E; [done|]. cbn [iter_ends].
  destruct (iter_ends_step _ (at_child _ _ _ Hat)) as (c & Hc & Hends).
  destruct (iter_ends_step c Hends) as (c' & Hc' & Hends').
  cbn [try_next level_iter_iter]. unfold level_iter_try_next. rewrite Hc. cbn [res_bind].
  unfold child_iter_seek, level_iter_valid.
  cbn [set_offset set_child_iter lv_offset lv_level_len lv_child_iter].
  rewrite (at_len _ _ _ Hat), (at_off _ _ _ Hat), bool_decide_eq_false_2 by lia.
  cbn [res_bind set_offset set_child_iter lv_child_iter]. rewrite Hc'. cbn [res_bind].
  eexists. split; [done|]. apply (IHm _ (off + 1)); [|lia]. by destruct Hat.
Qed.

(** The current table, then the ones after it. *)
Lemma lv_at_exhausts it off rest :
  lv_at it off rest → iter_exhausts it (rest ++ level_data (drop (S off) l)).
Proof.
  remember (length l - off) as n eqn:Hn. revert it off rest Hn.
  induction n as [n IHn] using lt_wf_ind. intros it off rest Hn.
  revert it. induction rest as [|kv rest IH]; intros it Hat.
  - destruct (l !! S off) as [sc|] eqn:E.
    + rewrite (drop_S _ _ _ E). cbn [app]. pose proof (lookup_lt_Some _ _ _ E).
      destruct (iter_ends_step _ (at_child _ _ _ Hat)) as (c & Hc & Hends).
      destruct (child_iter_seek_at SeekFirst (set_child_iter it c) off [] (S off) sc) as (it1 & pre & Hs & Hat1 & ->);
        [by destruct Hat|done|].
      cbn [app seek_range] in Hat1. pose proof (sit_nonempty sc) as Hne.
      assert (iter_exhausts it1 (contents (sc_gen sc) ++ level_data (drop (S (S off)) l))) as Hex.
      { eapply (IHn (length l - S off)); [lia|done|done]. }
      unfold level_data. cbn [fmap list_fmap concat]. fold (level_data (drop (S (S off)) l)).
      destruct (contents (sc_gen sc)) as [|kv data] eqn:Ec.
      { exfalso. apply Hne; [|done]. apply Hi. by eapply list_elem_of_lookup_2. }
      cbn [app iter_exhausts] in *. destruct Hex as (it2 & Hnext & Hex2). exists it2. split; [|done].
      destruct (at_child _ _ _ Hat1) as (c2 & Hc2 & _).
      unfold try_next in Hnext |- *. cbn [level_iter_iter] in *. unfold level_iter_try_next in *.
      rewrite Hc2 in Hnext. cbn [res_bind] in Hnext. rewrite Hc. cbn [res_bind].
      rewrite (at_off _ _ _ Hat), Nat.add_1_r, Hs. cbn [res_bind]. rewrite Hc2. cbn [res_bind].
      done.
    + apply lookup_ge_None in E. rewrite drop_ge by lia. intros m. by eapply lv_at_ends.
  - destruct (at_child _ _ _ Hat) as (c & Hc & Hex). exists (set_child_iter it c).
    split; [cbn [try_next level_iter_iter]; unfold level_iter_try_next; by rewrite Hc|].
    apply IH. by destruct Hat.
Qed.

Lemma level_iter_new_at :
  l ≠ [] → ∃ it s, level_iter_new get v level = Ok it ∧ l !! 0 = Some s ∧
                   lv_at it 0 (contents (sc_gen s)).
Proof.
  intros Hne. destruct (lookup_lt_is_Some_2 l 0) as [s Hs]; [destruct l; [done|cbn; lia]|].
  destruct (version_table_at 0 s Hs) as (t & Ht & Hseeks).
  destruct (seeks_iter t _ Hseeks) as (c & Hc & Hex).
  unfold level_iter_new, level_len. rewrite Ht, Hlevel. cbn [res_bind ok_or or_panic]. rewrite Hc.
  cbn [res_bind]. eexists _, s. by split_and!.
Qed.

(** Where the search leads: the tables before are below the key, those after above it. *)
Lemma query_meet_index_split key :
  level_sorted l → l ≠ [] →
  ∃ i s, query_meet_index l key = Ok i ∧ l !! i = Some s ∧
    (∀ e, e ∈ level_data (take i l) → cmp e.1 key = Lt) ∧
    (∀ e, e ∈ level_data (drop (S i) l) → le_b key e.1 = true).
Proof.
  intros Hs Hne. rewrite query_meet_index_rank by done.
  set (i := if rank_hit key (starts l) then _ else _).
  pose proof (rank_le key (starts l)) as Hle. unfold starts in Hle at 2. rewrite length_fmap in Hle.
  assert (0 < length l) as Hpos by (destruct l; [done|cbn; lia]).
  assert (i < length l) as Hlt.
  { subst i. destruct (rank_hit key (starts l)) eqn:Eh; [|lia].
    apply rank_hit_true in Eh as (x & Hx%lookup_lt_Some). unfold starts in Hx at 2. by rewrite length_fmap in Hx. }
  assert (∀ j s, l !! j = Some s → starts l !! j = Some (sc_start s, s)) as Hst.
  { intros j s Hj. unfold starts. by rewrite list_lookup_fmap, Hj. }
  pose proof (level_sorted_starts l Hs) as Hk.
  destruct (lookup_lt_is_Some_2 l i Hlt) as [s Hi']. exists i, s. split_and!; [done|done| |].
  - intros e (s' & (j & Hj)%list_elem_of_lookup & He)%level_data_elem.
    assert (j < i) as Hji by (apply lookup_lt_Some in Hj; rewrite length_take in Hj; lia).
    rewrite lookup_take_lt in Hj by done.
    assert (s' ∈ l) as Hin by (by eapply list_elem_of_lookup_2).
    apply (sit_within s' (Hi s' Hin)), meet_by_key_iff in He as [_ He].
    pose proof (scope_before_lt l j i s' s (proj2 Hs) Hj Hi' Hji) as Hb.
    eapply cmp_le_lt_trans; [exact He|]. eapply cmp_lt_le_trans; [exact Hb|].
    apply le_b_true. subst i. destruct (rank_hit key (starts l)) eqn:Eh.
    + right. apply rank_hit_true in Eh as [x Hx]. rewrite (Hst _ _ Hi') in Hx. by injection Hx as ->.
    + left. apply (rank_spec key _ _ _ Hk (Hst _ _ Hi')). lia.
  - intros e (s' & (j & Hj)%list_elem_of_lookup & He)%level_data_elem. rewrite lookup_drop in Hj.
    assert (s' ∈ l) as Hin by (by eapply list_elem_of_lookup_2).
    apply (sit_within s' (Hi s' Hin)), meet_by_key_iff in He as [He _].
    eapply le_b_trans; [|exact He]. destruct (le_b key (sc_start s')) eqn:El; [done|].
    apply le_b_false in El. apply (rank_spec key _ _ _ Hk (Hst _ _ Hj)) in El.
    subst i. destruct (rank_hit key (starts l)); lia.
Qed.

Lemma seek_overrun_level key i s pre :
  level_sorted l → l !! i = Some s →
  (∀ e, e ∈ level_data (take i l) → cmp e.1 key = Lt) →
  (∀ e, e ∈ level_data (drop (S i) l) → le_b key e.1 = true) →
  seek_overrun (SeekBackward key) (contents (sc_gen s)) pre →
  (pre ++ seek_range (SeekBackward key) (contents (sc_gen s))) ++ level_data (drop (S i) l)
  = pre ++ seek_range (SeekBackward key) (level_data l) ∧
  seek_overrun (SeekBackward key) (level_data l) pre.
Proof.
  intros Hs Hi' Hbelow Habove [Hpre Hsuf].
  assert (level_data l = level_data (take i l) ++ contents (sc_gen s) ++ level_data (drop (S i) l)) as E.
  { rewrite <- (take_drop_middle l i s Hi') at 1. unfold level_data.
    by rewrite fmap_app, concat_app. }
  assert (seek_range (SeekBackward key) (level_data l)
    = seek_range (SeekBackward key) (contents (sc_gen s)) ++ level_data (drop (S i) l)) as Er.
  { rewrite E. cbn [seek_range]. rewrite !filter_app, filter_none, (filter_all _ (level_data (drop _ _))); [done|done|].
    intros e He Hle. apply Hbelow in He. apply (cmp_lt_irrefl key). by eapply cmp_le_lt_trans. }
  rewrite Er, <- app_assoc. split; [done|]. split; [done|]. rewrite Er, E, app_assoc.
  destruct Hsuf as [k Hk]. exists (level_data (take i l) ++ k). rewrite <- !app_assoc. f_equal.
  rewrite Hk at 1. by rewrite <- !app_assoc.
Qed.

(** A seek in a level other than 0. *)
Lemma level_iter_seek_exhausts s it off rest :
  level_sorted l → l ≠ [] → level ≠ LEVEL_0 → lv_at it off rest →
  ∃ it' pre, level_iter_seek s it = Ok it' ∧
    iter_exhausts it' (pre ++ seek_range s (level_data l)) ∧ seek_overrun s (level_data l) pre.
Proof.
  intros Hs Hne Hl0 Hat. assert (0 < length l) as Hpos by (destruct l; [done|cbn; lia]).
  destruct s as [| |key]; cbn [level_iter_seek].
  - destruct (lookup_lt_is_Some_2 l 0 Hpos) as [sc Hsc].
    destruct (child_iter_seek_at SeekFirst it off rest 0 sc Hat Hsc) as (it' & pre & -> & Hat' & ->).
    exists it', []. split_and!; [done| |done]. apply lv_at_exhausts in Hat'.
    destruct l as [|s0 l']; [done|]. injection Hsc as ->. exact Hat'.
  - rewrite (at_len _ _ _ Hat). unfold usize_sub. rewrite decide_True by lia. cbn [res_bind].
    destruct (lookup_lt_is_Some_2 l (length l - 1)) as [sc Hsc]; [lia|].
    destruct (child_iter_seek_at SeekLast it off rest _ sc Hat Hsc) as (it' & pre & -> & Hat' & ->).
    exists it', []. split_and!; [done| |done]. apply lv_at_exhausts in Hat'.
    rewrite drop_ge in Hat' by lia. exact Hat'.
  - unfold seek_ward. rewrite (at_level _ _ _ Hat), (at_version _ _ _ Hat), decide_False by done.
    rewrite Hlevel. cbn [or_panic res_bind].
    destruct (query_meet_index_split key Hs Hne) as (i & sc & -> & Hsc & Hbelow & Habove). cbn [res_bind].
    destruct (child_iter_seek_at (SeekBackward key) it off rest i sc Hat Hsc) as (it' & pre & -> & Hat' & Hov).
    exists it', pre. apply lv_at_exhausts in Hat'.
    destruct (seek_overrun_level key i sc pre Hs Hsc Hbelow Habove Hov) as [<- Hov']. by split_and!.
Qed.
End level_laws.

(** ** The iterators of a version *)

Lemma merge_spec_get k (ls : list (list KeyValue)) :
  Forall (λ l, ksorted l) ls → btree_get k (merge_spec ls) = first_some (btree_get k) ls.
Proof.
  intros Hall. apply option_eq. intros v. rewrite btree_get_Some, merge_spec_elem by (done || apply merge_spec_sorted).
  induction Hall as [|l ls Hl _ IH]; cbn [first_some].
  - split; [by intros (i & l & ? & _)|done].
  - rewrite winner_cons. cbn [fst]. destruct (btree_get k l) as [x|] eqn:E.
    + apply btree_get_Some in E; [|done]. split.
      * intros [Hv|[_ Hn]]; [|destruct Hn; by apply (list_elem_of_fmap_2 fst _ (k, x))].
        f_equal. by apply (ksorted_functional l k).
      * intros [= <-]. by left.
    + rewrite IH. pose proof (proj1 (btree_get_None k l Hl) E) as Hno. split.
      * intros [Hv|[Hw _]]; [by destruct (Hno v)|done].
      * intros Hw. right. split; [done|]. intros ([k' x] & -> & Hx)%list_elem_of_fmap. by apply (Hno x).
Qed.

Section version_laws.
Context {T : Type} {TB : Table T} (get : Z → option T) (contents : Z → list KeyValue).

Record version_iterable (v : Version) : Prop := {
  vi_levels : length (level_slice v) = MAX_LEVEL;
  vi_sorted l : l ∈ drop 1 (level_slice v) → level_sorted l;
  vi_iterable l s : l ∈ level_slice v → s ∈ l → scope_iterable get contents s;
}.

(** An iterator over [d], fresh: it yields [d], and after a seek what the seek selects. *)
Record run_iter {It} `{SeekIter It KeyValue} (it : It) (d : list KeyValue) : Prop := {
  ri_sorted : ksorted d;
  ri_yields : iter_yields it d;
  ri_seek s : ∃ it' pre, seek s it = Ok it' ∧ iter_yields it' (pre ++ seek_range s d) ∧
                         seek_overrun s d pre;
}.

(** The sorted runs a version iterator merges: level 0 from the newest table on, then
    each of the levels 1 and 2 that is not empty. *)
Definition level_of (v : Version) (level : nat) : list Scope := default [] (level_slice v !! level).

Definition version_runs (v : Version) : list (list KeyValue) :=
  ((λ s, contents (sc_gen s)) <$> reverse (level_of v 0))
  ++ (level_data contents <$> filter (λ l, l ≠ []) (level_of v <$> seq 1 2)).

Lemma table_run t d :
  ksorted d → table_seeks t d →
  ∃ it, table_iter t = Ok it ∧ run_iter (inl it : table_iter_state + LevelIter T) d.
Proof.
  intros Hs [(it & Hit & Hex) Hseek]. exists it. split; [done|]. split; [done| |].
  - by apply sum_iter_yields_l, iter_exhausts_yields.
  - intros s. destruct (Hseek s) as (it0 & it' & pre & Hit0 & Hsk & Hex' & Hov).
    rewrite Hit in Hit0. injection Hit0 as <-. exists (inl it'), pre.
    split_and!; [|by apply sum_iter_yields_l, iter_exhausts_yields|done].
    unfold seek at 1, sum_seek_iter. by rewrite Hsk.
Qed.

Lemma level_run v level l :
  version_iterable v → level_slice v !! level = Some l → level ≠ LEVEL_0 → l ≠ [] →
  ∃ it, level_iter_new get v level = Ok it ∧
        run_iter (inr it : table_iter_state + LevelIter T) (level_data contents l).
Proof.
  intros Hv Hl Hl0 Hne.
  assert (∀ s, s ∈ l → scope_iterable get contents s) as Hi.
  { intros s. apply (vi_iterable v Hv). by eapply list_elem_of_lookup_2. }
  assert (level_sorted l) as Hs.
  { apply (vi_sorted v Hv). apply (list_elem_of_lookup_2 _ (level - 1)). rewrite lookup_drop.
    unfold LEVEL_0 in Hl0. by replace (1 + (level - 1)) with level by lia. }
  destruct (level_iter_new_at get contents v level l Hl Hi Hne) as (it & s0 & Hit & Hs0 & Hat).
  exists it. split; [done|]. split; [by apply (level_data_sorted get)| |].
  - apply sum_iter_yields_r, iter_exhausts_yields. apply (lv_at_exhausts get contents v level l Hl Hi) in Hat.
    destruct l as [|s1 l']; [done|]. injection Hs0 as ->. exact Hat.
  - intros s. destruct (level_iter_seek_exhausts get contents v level l Hl Hi s it _ _ Hs Hne Hl0 Hat)
      as (it' & pre & Hsk & Hex & Hov).
    exists (inr it'), pre. split_and!; [|by apply sum_iter_yields_r, iter_exhausts_yields|done].
    unfold seek, sum_seek_iter, seek, level_iter_seek_iter. by rewrite Hsk.
Qed.

Lemma level_iters_runs v levels :
  version_iterable v → (∀ level, level ∈ levels → 0 < level < MAX_LEVEL) →
  ∃ its, level_iters get v levels = Ok its ∧
    Forall2 run_iter its (level_data contents <$> filter (λ l, l ≠ []) (level_of v <$> levels)).
Proof.
  intros Hv. induction levels as [|level levels IH]; intros Hr; [by eexists|].
  destruct IH as (its & Hits & Hall); [set_solver|].
  destruct (lookup_lt_is_Some_2 (level_slice v) level) as [l Hl].
  { rewrite (vi_levels v Hv). apply Hr. by left. }
  assert (level_of v level = l) as El by (unfold level_of; by rewrite Hl).
  cbn [level_iters fmap list_fmap]. rewrite filter_cons, El. case_decide as Hne.
  - destruct (level_run v level l Hv Hl) as (it & -> & Hrun); [|done|].
    { specialize (Hr level ltac:(by left)). unfold LEVEL_0. lia. }
    rewrite Hits. cbn [res_bind]. eexists. split; [done|]. by constructor.
  - exists its. split; [|done].
    unfold level_iter_new, version_table. rewrite Hl, Hne. exact Hits.
Qed.

Lemma merging_with_version_runs v :
  version_iterable v →
  ∃ its, merging_with_version get v = Ok its ∧ Forall2 run_iter its (version_runs v).
Proof.
  intros Hv. destruct (lookup_lt_is_Some_2 (level_slice v) 0) as [l0 Hl0].
  { rewrite (vi_levels v Hv). unfold MAX_LEVEL. lia. }
  destruct (level_iters_runs v (seq 1 2) Hv) as (lits & Hlits & Hall).
  { intros level Hin%elem_of_seq. unfold MAX_LEVEL. lia. }
  assert (∀ s, s ∈ l0 → scope_iterable get contents s) as Hi.
  { intros s. apply (vi_iterable v Hv). by eapply list_elem_of_lookup_2. }
  assert (∀ ss, (∀ s, s ∈ ss → scope_iterable get contents s) →
    ∃ its, res_mapM table_iter (omap (λ s, get (sc_gen s)) ss) = Ok its ∧
      Forall2 run_iter (inl <$> its : list (table_iter_state + LevelIter T))
        ((λ s, contents (sc_gen s)) <$> ss)) as Htables.
  { induction ss as [|s ss IH]; intros Hss; [by exists []|].
    destruct IH as (its & Hits & Hf); [set_solver|].
    destruct (Hss s ltac:(by left)) as [_ Hsorted (t & Ht & Hseeks) _].
    destruct (table_run t _ Hsorted Hseeks) as (it & Hit & Hrun).
    exists (it :: its). cbn [omap list_omap]. rewrite Ht. cbn [res_mapM]. rewrite Hit. cbn [res_bind].
    rewrite Hits. cbn [res_bind]. split; [done|]. by constructor. }
  destruct (Htables (reverse l0)) as (its & Hits & Hf).
  { intros s. rewrite elem_of_reverse. apply Hi. }
  unfold merging_with_version, tables_by_level_0, LEVEL_0. rewrite Hl0. cbn [or_panic res_bind].
  exists ((inl <$> its) ++ lits). split.
  - replace (reverse (omap (λ scope, get (sc_gen scope)) l0))
      with (omap (λ s, get (sc_gen s)) (reverse l0)).
    { rewrite Hits. cbn [res_bind]. change (MAX_LEVEL - 1 - 1) with 2. rewrite Hlits. done. }
    clear. induction l0 as [|s l IH]; [done|]. rewrite reverse_cons, omap_app, IH. cbn [omap list_omap].
    destruct (get (sc_gen s)); [by rewrite reverse_cons|apply app_nil_r].
  - unfold version_runs, level_of at 1. rewrite Hl0. cbn [default]. by apply Forall2_app.
Qed.

Lemma version_runs_sorted v : version_iterable v → Forall (λ l, ksorted l) (version_runs v).
Proof.
  intros Hv. destruct (merging_with_version_runs v Hv) as (its & _ & Hf).
  induction Hf as [|it d its ds Hr _ IH]; constructor; [apply Hr|done].
Qed.

(** The tables behind the runs, and what they say of a key. *)
Definition iterated_tables (v : Version) : list Scope :=
  reverse (level_of v 0) ++ level_of v 1 ++ level_of v 2.

Lemma level_data_get v level k :
  version_iterable v → 0 < level < MAX_LEVEL →
  btree_get k (level_data contents (level_of v level)) = first_some (scope_find contents k) (level_of v level).
Proof.
  intros Hv Hr. destruct (lookup_lt_is_Some_2 (level_slice v) level) as [l Hl].
  { rewrite (vi_levels v Hv). lia. }
  unfold level_of. rewrite Hl. cbn [default]. unfold level_data. rewrite btree_get_concat.
  - by rewrite first_some_fmap.
  - apply (level_data_sorted get contents).
    + apply (vi_sorted v Hv). apply (list_elem_of_lookup_2 _ (level - 1)). rewrite lookup_drop.
      by replace (1 + (level - 1)) with level by lia.
    + intros s. apply (vi_iterable v Hv). by eapply list_elem_of_lookup_2.
Qed.

Lemma version_runs_get v k :
  version_iterable v →
  first_some (btree_get k) (version_runs v) = first_some (scope_find contents k) (iterated_tables v).
Proof.
  intros Hv. unfold version_runs, iterated_tables. rewrite !first_some_app, !first_some_fmap.
  change (first_some (λ x, btree_get k (contents (sc_gen x))) (reverse (level_of v 0)))
    with (first_some (scope_find contents k) (reverse (level_of v 0))).
  destruct (first_some _ (reverse (level_of v 0))); [done|].
  assert (∀ levels, (∀ level, level ∈ levels → 0 < level < MAX_LEVEL) →
    first_some (λ l, btree_get k (level_data contents l)) (filter (λ l, l ≠ []) (level_of v <$> levels))
    = first_some (scope_find contents k) (concat (level_of v <$> levels))) as Hlv.
  { induction levels as [|level levels IH]; intros Hr; [done|]. cbn [fmap list_fmap concat].
    rewrite filter_cons, first_some_app, <- (level_data_get v level k Hv) by (apply Hr; by left).
    case_decide as Hne; cbn [first_some].
    - destruct (btree_get k _); [done|]. apply IH. set_solver.
    - rewrite Hne. cbn. apply IH. set_solver. }
  rewrite Hlv by (intros level Hin%elem_of_seq; unfold MAX_LEVEL; lia). cbn. by rewrite app_nil_r, first_some_app.
Qed.

Lemma iterated_tables_all v k :
  length (level_slice v) = MAX_LEVEL → level_of v 3 = [] →
  first_some (scope_find contents k) (iterated_tables v) = version_find contents v k.
Proof.
  intros Hlen H3. unfold version_find, version_tables, iterated_tables, level_of in *.
  destruct (level_slice v) as [|l0 [|l1 [|l2 [|l3 [|]]]]]; try done. cbn in *. subst l3.
  by rewrite !app_nil_r.
Qed.

(** C27: iterating over a version yields, in key order and once each, the keys of the
    tables of levels 0, 1 and 2, each with the value of the newest table that has it;
    that is all of the version when its last level is empty, and not otherwise. *)
Theorem version_iter_correct v :
  version_iterable v →
  ∃ it out, version_iter_new get v = Ok it ∧ iter_yields it out ∧ ksorted out ∧
    (∀ k, btree_get k out = first_some (scope_find contents k) (iterated_tables v)) ∧
    (level_of v 3 = [] → ∀ k, btree_get k out = version_find contents v k).
Proof.
  intros Hv. destruct (merging_with_version_runs v Hv) as (its & Hits & Hf).
  destruct (merging_new_yields its (version_runs v) (version_runs_sorted v Hv)) as (m & Hm & Hy).
  { eapply Forall2_impl; [exact Hf|]. intros it d Hr. apply Hr. }
  exists {| vri_merge_iter := m |}, (merge_spec (version_runs v)).
  unfold version_iter_new. rewrite Hits. cbn [res_bind]. rewrite Hm. cbn [res_bind].
  assert (∀ k, btree_get k (merge_spec (version_runs v))
    = first_some (scope_find contents k) (iterated_tables v)) as Hget.
  { intros k. by rewrite merge_spec_get, version_runs_get by (by try apply version_runs_sorted). }
  split_and!; [done|by apply version_iter_yields|apply merge_spec_sorted|done|]. intros H3 k.
  rewrite Hget. apply iterated_tables_all; [apply Hv|done].
Qed.
End version_laws.

(** ** Concrete versions *)

Lemma demo_version_iterable level data h v :
  demo_version data h v → Forall (Forall (λ s, demo_contents data (sc_gen s) ≠ [])) (level_slice v) →
  version_iterable (demo_get level data) (demo_contents data) v.
Proof.
  intros (Hlen & Hs & Hsort) Hne. split; [done|by apply Forall_forall|]. intros l s Hl Hin.
  rewrite Forall_forall in Hs, Hne. specialize (Hs l Hl). specialize (Hne l Hl).
  rewrite Forall_forall in Hs, Hne. destruct (Hs s Hin) as ([d Hd] & Hsd & Hw & _).
  split; [by apply Forall_forall|done| |by apply Hne].
  unfold demo_get, demo_contents in *. rewrite Hd in *. eexists. split; [done|]. by apply btree_table_seeks.
Qed.

Lemma sample_version_iterable :
  version_iterable (demo_get 1 sample_tables) (demo_contents sample_tables) sample_version.
Proof.
  apply (demo_version_iterable 1 _ sample_seeks); apply (bool_decide_unpack _); vm_compute; exact I.
Qed.

Lemma version_iter_correct_witness :
  ∃ it out, version_iter_new (demo_get 1 sample_tables) sample_version = Ok it ∧ iter_yields it out ∧
    btree_get [x02] out = Some (Some [x29]) ∧ btree_get [x06] out = Some (Some [x63]).
Proof.
  destruct (version_iter_correct (demo_get 1 sample_tables) (demo_contents sample_tables)
    sample_version sample_version_iterable) as (it & out & Hit & Hy & _ & _ & Hall).
  exists it, out. split; [exact Hit|]. split; [exact Hy|]. split; rewrite Hall; reflexivity.
Defined.

(** The same tables one and two levels further down: the key of the last level is found
    by a query and missed by the iterator. *)
Definition deep_version : Version :=
  let '(s9, s5, s3, _) := sample_scopes in
  {| version_num := 7; level_slice := [[]; [s9]; []; [s5; s3]];
     meta_data := {| vm_size_of_disk := 60; vm_len := 6 |} |}.

Remark version_iter_skips_last_level :
  version_wf (demo_get 1 sample_tables) (demo_contents sample_tables) sample_seeks deep_version ∧
  (query (demo_get 1 sample_tables) deep_version [x06] sample_seeks).1 = Ok (Some ([x06], Some [x63]), None) ∧
  (let? it := version_iter_new (demo_get 1 sample_tables) deep_version in iter_drain 10 it)
  = Ok [([x02], Some [x29]); ([x04], None)].
Proof.
  split; [apply demo_version_wf, (bool_decide_unpack _); vm_compute; exact I|].
  split; vm_compute; reflexivity.
Qed.
