(* ===== verification/Cleaner.v ===== *)
(** * The cleaner (src/kernel/lsm/version/cleaner.rs)

    Deleting the files of tables no version needs any more.  Versions announce the
    generations they removed, and their own end, over a channel; the cleaner works
    through it in its own task.  The system of live versions, channel and cleaner is a
    step relation. *)

From S2P Require Import Prelude Std Crates Iterator Config Scope Version.
From Stdlib Require Import ZArith Lia Strings.Byte Sorted.
From stdpp Require Import base list gmap sorting.

Set Default Goal Selector "!".

(** [del_gens]: the versions not cleaned yet, each with the generations to delete with
    it.  [cl_cleaned] records the calls of [TableLoader::clean], in order; a failure of
    one is only logged. *)
Record Cleaner := mkCleaner {
  cl_del_gens : list (Z * list Z);
  cl_cleaned : list Z;
}.

Definition cleaner_new : Cleaner := {| cl_del_gens := []; cl_cleaned := [] |}.

Definition find_index_with_ver_num (del_gen : list (Z * list Z)) (ver_num : Z) : option nat :=
  fst <$> head (filter (λ p : nat * (Z * list Z), p.2.1 = ver_num) (enumerate del_gen)).

(** [Vec::remove] *)
Definition vec_remove {A} (i : nat) (l : list A) : list A := take i l ++ drop (S i) l.

Definition cleaner_clean (c : Cleaner) (ver_num : Z) : Cleaner :=
  match find_index_with_ver_num (cl_del_gens c) ver_num with
  | Some index =>
      let vec_gen := default [] (snd <$> cl_del_gens c !! index) in
      let del_gens := vec_remove index (cl_del_gens c) in
      if decide (index = 0) then
        {| cl_del_gens := del_gens; cl_cleaned := cl_cleaned c ++ vec_gen |}
      else
        {| cl_del_gens :=
             alter (λ e : Z * list Z, (e.1, e.2 ++ vec_gen)) (index - 1) del_gens;
           cl_cleaned := cl_cleaned c |}
  | None => c
  end.

(** What [listen] does with one message. *)
Definition cleaner_recv (c : Cleaner) (tag : CleanTag) : Cleaner :=
  match tag with
  | TagClean ver_num => cleaner_clean c ver_num
  | TagAdd version gens =>
      {| cl_del_gens := cl_del_gens c ++ [(version, gens)]; cl_cleaned := cl_cleaned c |}
  end.

(** What it does when the channel is closed. *)
Definition cleaner_close (c : Cleaner) : Cleaner :=
  fold_left cleaner_clean (cl_del_gens c).*1 c.

(** The messages of a channel until its senders are gone. *)
Definition cleaner_listen (c : Cleaner) (queue : list CleanTag) : Cleaner :=
  cleaner_close (fold_left cleaner_recv queue c).

(** ** Cleaning one version *)

Definition all_gens (entries : list (Z * list Z)) : list Z := concat entries.*2.

Lemma find_index_spec entries n i :
  find_index_with_ver_num entries n = Some i →
  ∃ pre gs post, entries = pre ++ (n, gs) :: post ∧ length pre = i ∧ n ∉ pre.*1.
Proof.
  unfold find_index_with_ver_num, enumerate. revert i.
  assert (∀ k i, fst <$> head (filter (λ p : nat * (Z * list Z), p.2.1 = n) (enum_from k entries))
    = Some i → ∃ pre gs post, entries = pre ++ (n, gs) :: post ∧ k + length pre = i ∧ n ∉ pre.*1)
    as H; [|intros i Hi; by apply (H 0)].
  induction entries as [|[m gs] entries IH]; intros k i; [done|]. cbn [enum_from].
  rewrite filter_cons. cbn [snd fst]. case_decide as Hm.
  - intros [= <-]. subst m. exists [], gs, entries. split_and!; [done|cbn; lia|set_solver].
  - intros (pre & gs' & post & -> & Hl & Hn)%IH. exists ((m, gs) :: pre), gs', post.
    split_and!; [done|cbn; lia|set_solver].
Qed.

Lemma find_index_None entries n :
  find_index_with_ver_num entries n = None → n ∉ entries.*1.
Proof.
  unfold find_index_with_ver_num, enumerate. generalize 0.
  induction entries as [|[m gs] entries IH]; intros k; [set_solver|]. cbn [enum_from].
  rewrite filter_cons. cbn [snd fst]. case_decide; [done|]. intros Hn%IH. set_solver.
Qed.

(** Either nothing waits for the version, or its generations are deleted because it is
    the oldest, or they are handed to the version before it. *)
Lemma cleaner_clean_cases c n :
  (n ∉ (cl_del_gens c).*1 ∧ cleaner_clean c n = c) ∨
  (∃ gs post, cl_del_gens c = (n, gs) :: post ∧
     cleaner_clean c n = {| cl_del_gens := post; cl_cleaned := cl_cleaned c ++ gs |}) ∨
  (∃ pre p gp gs post, cl_del_gens c = pre ++ (p, gp) :: (n, gs) :: post ∧
     cleaner_clean c n = {| cl_del_gens := pre ++ (p, gp ++ gs) :: post;
                            cl_cleaned := cl_cleaned c |}).
Proof.
  unfold cleaner_clean. destruct (find_index_with_ver_num _ n) as [i|] eqn:E.
  - apply find_index_spec in E as (pre & gs & post & -> & <- & _). right.
    unfold vec_remove. rewrite list_lookup_middle by done. cbn.
    rewrite take_app_length, <- Nat.add_1_r, drop_app_add. cbn [drop]. rewrite drop_0.
    destruct pre as [|[p gp] pre _] using rev_ind; [left; by eexists _, _|]. right.
    rewrite decide_False by (rewrite length_app; cbn; lia).
    eexists pre, p, gp, gs, post. rewrite <- !app_assoc. cbn [app].
    split; [done|]. f_equal. rewrite length_app. cbn [length].
    replace (length pre + 1 - 1) with (length pre + 0) by lia.
    by rewrite alter_app_r.
  - apply find_index_None in E. by left.
Qed.

(** Nothing is lost and nothing is deleted twice. *)
Lemma cleaner_clean_perm c n :
  cl_cleaned (cleaner_clean c n) ++ all_gens (cl_del_gens (cleaner_clean c n))
  ≡ₚ cl_cleaned c ++ all_gens (cl_del_gens c).
Proof.
  unfold all_gens.
  destruct (cleaner_clean_cases c n)
    as [[_ ->]|[(gs & post & E & ->)|(pre & p & gp & gs & post & E & ->)]]; [done|..];
    rewrite E; cbn.
  - by rewrite app_assoc.
  - rewrite !fmap_app, !concat_app. cbn. by rewrite <- !app_assoc.
Qed.

Definition tag_gens (t : CleanTag) : list Z :=
  match t with TagAdd _ gens => gens | TagClean _ => [] end.

Lemma cleaner_recv_perm c t :
  cl_cleaned (cleaner_recv c t) ++ all_gens (cl_del_gens (cleaner_recv c t))
  ≡ₚ cl_cleaned c ++ all_gens (cl_del_gens c) ++ tag_gens t.
Proof.
  destruct t as [n|n gs]; cbn [cleaner_recv tag_gens].
  - rewrite app_nil_r. apply cleaner_clean_perm.
  - unfold all_gens. cbn. rewrite fmap_app, concat_app. cbn. by rewrite app_nil_r.
Qed.

Lemma cleaner_recvs_perm q c :
  cl_cleaned (fold_left cleaner_recv q c) ++ all_gens (cl_del_gens (fold_left cleaner_recv q c))
  ≡ₚ cl_cleaned c ++ all_gens (cl_del_gens c) ++ concat (tag_gens <$> q).
Proof.
  revert c. induction q as [|t q IH]; intros c; cbn [fold_left fmap list_fmap concat].
  - by rewrite app_nil_r.
  - rewrite IH, !app_assoc. f_equiv. rewrite <- !app_assoc. apply cleaner_recv_perm.
Qed.

Lemma cleaner_close_empty c : cl_del_gens (cleaner_close c) = [].
Proof.
  unfold cleaner_close. remember (cl_del_gens c) as entries eqn:E.
  revert c E. induction entries as [|[n gs] entries IH]; intros c E; [done|].
  cbn. apply IH. destruct (cleaner_clean_cases c n)
    as [[Hn _]|[(gs' & post & E' & ->)|(pre & p & gp & gs' & post & E' & Hc)]].
  - rewrite <- E in Hn. set_solver.
  - rewrite <- E in E'. by simplify_eq.
  - unfold cleaner_clean. rewrite <- E. unfold find_index_with_ver_num. cbn.
    by rewrite decide_True.
Qed.

Lemma cleaner_close_perm c :
  cl_cleaned (cleaner_close c) ≡ₚ cl_cleaned c ++ all_gens (cl_del_gens c).
Proof.
  transitivity (cl_cleaned (cleaner_close c) ++ all_gens (cl_del_gens (cleaner_close c))).
  { rewrite cleaner_close_empty. by rewrite app_nil_r. }
  unfold cleaner_close. generalize (cl_del_gens c).*1. intros ns. revert c.
  induction ns as [|n ns IH]; intros c; cbn; [done|]. by rewrite IH, cleaner_clean_perm.
Qed.

Lemma cleaner_listen_perm c q :
  cl_cleaned (cleaner_listen c q) ≡ₚ cl_cleaned c ++ all_gens (cl_del_gens c) ++ concat (tag_gens <$> q).
Proof. unfold cleaner_listen. by rewrite cleaner_close_perm, cleaner_recvs_perm. Qed.

(** What is deleted stays deleted. *)
Lemma cleaner_clean_prefix c n : cl_cleaned c `prefix_of` cl_cleaned (cleaner_clean c n).
Proof.
  destruct (cleaner_clean_cases c n)
    as [[_ ->]|[(gs & post & E & ->)|(pre & p & gp & gs & post & E & ->)]]; [done|by eexists|done].
Qed.

Lemma cleaner_recv_prefix c t : cl_cleaned c `prefix_of` cl_cleaned (cleaner_recv c t).
Proof. destruct t; [apply cleaner_clean_prefix|done]. Qed.

Lemma cleaner_fold_prefix {A} (f : Cleaner → A → Cleaner) l c :
  (∀ c x, cl_cleaned c `prefix_of` cl_cleaned (f c x)) → cl_cleaned c `prefix_of` cl_cleaned (fold_left f l c).
Proof. intros Hf. revert c. induction l as [|x l IH]; intros c; [done|]. etrans; [apply Hf|apply IH]. Qed.

Lemma cleaner_listen_prefix c q : cl_cleaned c `prefix_of` cl_cleaned (cleaner_listen c q).
Proof.
  etrans; [apply (cleaner_fold_prefix cleaner_recv q), cleaner_recv_prefix|].
  apply cleaner_fold_prefix, cleaner_clean_prefix.
Qed.

(** When the channel closes, every generation any version announced for deletion
    has been cleaned, exactly as often as it was announced, whatever the order in which
    versions ended. *)
Theorem cleaner_no_leak q :
  cl_cleaned (cleaner_listen cleaner_new q) ≡ₚ concat (tag_gens <$> q) ∧
  cl_del_gens (cleaner_listen cleaner_new q) = [].
Proof.
  split; [apply cleaner_listen_perm|apply cleaner_close_empty].
Qed.

(** ** Versions, channel and cleaner together *)

(** [cs_current] is the version the status holds; [cs_live] are all versions some
    reader or the status still holds; [cs_used] are the generations ever used. *)
Record CleanSys := mkCleanSys {
  cs_current : Version;
  cs_live : list Version;
  cs_used : list Z;
  cs_chan : CleanChan;
  cs_cleaner : Cleaner;
}.

(** The generations a list of edits deletes. *)
Definition edit_dels (edits : list VersionEdit) : list Z :=
  concat ((λ e, match e with DeleteFile (gens, _) _ => gens | NewFile _ _ _ => [] end) <$> edits).

(** What is asked of edits that lead from [v] to [v']: the tables they add have new
    generations, and what they delete is gone from the new version. *)
Record edits_ok (used : list Z) (v v' : Version) (edits : list VersionEdit) : Prop := {
  ok_fresh g : g ∈ version_gens v' → g ∈ version_gens v ∨ g ∉ used;
  ok_dels g : g ∈ edit_dels edits → g ∉ version_gens v';
  ok_dels_used g : g ∈ edit_dels edits → g ∈ used;
}.

Section clean_system.
Context `{IT : Itertools}.

Inductive clean_step : CleanSys → CleanSys → Prop :=
  (** [log_and_apply]: a new version becomes the current one. *)
  | step_apply cur live used ch cl edits v' ch' :
      cur ∈ live → version_apply cur edits ch = Ok (v', ch') → edits_ok used cur v' edits →
      clean_step (mkCleanSys cur live used ch cl)
        (mkCleanSys v' (v' :: live) (version_gens v' ++ used) ch' cl)
  (** The last handle on a version goes. *)
  | step_drop cur v pre post used ch cl :
      clean_step (mkCleanSys cur (pre ++ v :: post) used ch cl)
        (mkCleanSys cur (pre ++ post) used (version_drop v ch) cl)
  (** The cleaner takes a message. *)
  | step_recv cur live used t q cl :
      clean_step (mkCleanSys cur live used {| chan_open := true; chan_queue := t :: q |} cl)
        (mkCleanSys cur live used {| chan_open := true; chan_queue := q |} (cleaner_recv cl t)).

(** After [load_with_path]. *)
Inductive clean_init : CleanSys → Prop :=
  | init_loaded edits v ch used :
      load_from_log edits chan_new = Ok (v, ch) → edits_ok used version_empty v edits →
      clean_init (mkCleanSys v [v] (version_gens v ++ used) ch cleaner_new).

(** *** The invariant *)

Definition tag_entry (t : CleanTag) : option (Z * list Z) :=
  match t with TagAdd n gens => Some (n, gens) | TagClean _ => None end.

Lemma tag_gens_entries q : concat (tag_gens <$> q) = all_gens (omap tag_entry q).
Proof.
  unfold all_gens. induction q as [|[n|n gs] q IH]; [done|..]; rewrite fmap_cons; cbn; [done|by rewrite IH].
Qed.

(** The announced versions, processed or still in the channel, oldest first. *)
Definition entries (s : CleanSys) : list (Z * list Z) :=
  cl_del_gens (cs_cleaner s) ++ omap tag_entry (chan_queue (cs_chan s)).

Definition entries_sorted (l : list (Z * list Z)) : Prop :=
  StronglySorted (λ a b, a.1 < b.1)%Z l.

Record clean_inv (s : CleanSys) : Prop := {
  inv_open : chan_open (cs_chan s) = true;
  inv_sorted : entries_sorted (entries s);
  inv_bound n gs : (n, gs) ∈ entries s → (n ≤ version_num (cs_current s))%Z;
  inv_live_nums : NoDup (version_num <$> cs_live s);
  inv_live v : v ∈ cs_live s →
    version_num v ∈ (entries s).*1 ∧ (version_num v = version_num (cs_current s) → v = cs_current s);
  inv_clean n : TagClean n ∈ chan_queue (cs_chan s) →
    (n ≤ version_num (cs_current s))%Z ∧ n ∉ version_num <$> cs_live s;
  inv_entry n gs g v : (n, gs) ∈ entries s → g ∈ gs → v ∈ cs_live s →
    (n < version_num v)%Z → g ∉ version_gens v;
  inv_current gs g : (version_num (cs_current s), gs) ∈ entries s → g ∈ gs →
    g ∉ version_gens (cs_current s);
  inv_used n gs g : (n, gs) ∈ entries s → g ∈ gs → g ∈ cs_used s;
  inv_live_used v g : v ∈ cs_live s → g ∈ version_gens v → g ∈ cs_used s;
  inv_cleaned g : g ∈ cl_cleaned (cs_cleaner s) → g ∈ cs_used s ∧
    ∀ v, v ∈ cs_live s → g ∉ version_gens v;
}.

Lemma apply_edits_dels slice dels stats edits r :
  res_foldM apply_edit (slice, dels, stats) edits = Ok r → r.1.2 = dels ++ edit_dels edits.
Proof.
  revert slice dels stats. induction edits as [|e edits IH]; intros slice dels stats.
  - intros [= <-]. cbn. by rewrite app_nil_r.
  - cbn [res_foldM]. destruct e as [[gens level] m|[scopes level] i m]; cbn [apply_edit].
    + destruct (slice !! level); cbn; [|done]. intros ->%IH. cbn. by rewrite <- app_assoc.
    + destruct (slice !! level) as [l|]; cbn; [|done]. case_decide; cbn.
      * by intros ->%IH.
      * destruct (res_foldM _ l _); cbn; [|done..]. by intros ->%IH.
Qed.

Lemma apply_announces v edits ch v' ch' :
  version_apply v edits ch = Ok (v', ch') →
  chan_open ch = true ∧ version_num v' = (version_num v + 1)%Z ∧
  ch' = {| chan_open := true;
           chan_queue := chan_queue ch ++ [TagAdd (version_num v + 1) (edit_dels edits)] |}.
Proof.
  unfold version_apply. destruct (res_foldM _ _ _) as [[[slice dels] stats]| |] eqn:E; cbn; [|done..].
  apply apply_edits_dels in E. cbn in E. subst dels.
  destruct (statistical_process _ _); cbn; [|done..]. unfold chan_send.
  destruct (chan_open ch); cbn; [|done]. intros [= <- <-]. done.
Qed.

Lemma entries_sorted_fun l n gs gs' :
  entries_sorted l → (n, gs) ∈ l → (n, gs') ∈ l → gs = gs'.
Proof.
  intros Hs. induction Hs as [|[m g] l Hl IH Hm]; [set_solver|]. rewrite Forall_forall in Hm.
  rewrite !elem_of_cons. intros [E1|H1] [E2|H2]; simplify_eq; [done|..|by apply IH].
  - apply Hm in H2. cbn in H2. lia.
  - apply Hm in H1. cbn in H1. lia.
Qed.

Lemma inv_apply cur live used ch cl edits v' ch' :
  clean_inv (mkCleanSys cur live used ch cl) → cur ∈ live →
  version_apply cur edits ch = Ok (v', ch') → edits_ok used cur v' edits →
  clean_inv (mkCleanSys v' (v' :: live) (version_gens v' ++ used) ch' cl).
Proof.
  intros Hinv Hcur (_ & Hnum & ->)%apply_announces [Hfresh Hdels Hdused].
  destruct Hinv as [Hopen Hsort Hbound Hnums Hlive Hclean Hentry Hcurr Hused Hlused Hdel].
  unfold entries in *. cbn [cs_current cs_live cs_used cs_chan cs_cleaner chan_queue chan_open] in *.
  set (es := cl_del_gens cl ++ omap tag_entry (chan_queue ch)) in *.
  assert (∀ n gs, (n, gs) ∈ es ++ [(version_num v', edit_dels edits)] →
    (n, gs) ∈ es ∨ (n = version_num v' ∧ gs = edit_dels edits)) as Hsplit.
  { intros n gs [?|Hin]%elem_of_app; [by left|right].
    apply list_elem_of_singleton in Hin. by simplify_eq. }
  assert (∀ v, v ∈ live → (version_num v ≤ version_num cur)%Z) as Hle.
  { intros v Hv. destruct (Hlive v Hv) as [((n & gs) & -> & Hin)%list_elem_of_fmap _].
    by eapply Hbound. }
  split; unfold entries; cbn [cs_current cs_live cs_used cs_chan cs_cleaner chan_queue chan_open];
    rewrite ?omap_app; cbn [omap list_omap tag_entry]; rewrite ?(app_assoc (cl_del_gens cl)), <- ?Hnum;
    fold es.
  - done.
  - apply StronglySorted_app. split_and!; [|done|by repeat constructor].
    intros [n gs] b Hin ->%list_elem_of_singleton. apply Hbound in Hin. cbn. lia.
  - intros n gs [Hin|[-> _]]%Hsplit; [apply Hbound in Hin; lia|lia].
  - cbn. constructor; [|done]. intros (v & Hv & Hin)%list_elem_of_fmap. apply Hle in Hin. lia.
  - intros v [->|Hv]%elem_of_cons; [split; [set_solver|done]|].
    split; [destruct (Hlive v Hv); set_solver|]. specialize (Hle v Hv). lia.
  - intros n [Hin|Hin]%elem_of_app; [|set_solver]. apply Hclean in Hin as [Hn Hin].
    split; [lia|]. cbn. apply not_elem_of_cons. split; [lia|done].
  - intros n gs g v [Hin|[-> ->]]%Hsplit Hg [->|Hv]%elem_of_cons Hlt; [|by eapply Hentry|lia|].
    + intros [Hin'|Hin']%Hfresh; [|by eapply Hin', Hused].
      destruct (decide (n = version_num cur)) as [->|Hne]; [by eapply Hcurr|].
      eapply (Hentry n gs g cur); [done..| |done]. apply Hbound in Hin. lia.
    + specialize (Hle v Hv). lia.
  - intros gs g [Hin|[_ ->]]%Hsplit Hg; [apply Hbound in Hin; lia|by apply Hdels].
  - intros n gs g [Hin|[-> ->]]%Hsplit Hg; apply elem_of_app; right; [by eapply Hused|by apply Hdused].
  - intros v g [->|Hv]%elem_of_cons Hg; apply elem_of_app; [by left|right; by eapply Hlused].
  - intros g [Hg Hn]%Hdel. split; [set_solver|].
    intros v [->|Hv]%elem_of_cons; [|by apply Hn].
    intros [Hin|Hin]%Hfresh; [by eapply Hn|done].
Qed.

Lemma inv_drop cur v pre post used ch cl :
  clean_inv (mkCleanSys cur (pre ++ v :: post) used ch cl) →
  clean_inv (mkCleanSys cur (pre ++ post) used (version_drop v ch) cl).
Proof.
  intros Hinv.
  destruct Hinv as [Hopen Hsort Hbound Hnums Hlive Hclean Hentry Hcurr Hused Hlused Hdel].
  unfold entries in *. cbn [cs_current cs_live cs_used cs_chan cs_cleaner chan_queue chan_open] in *.
  unfold version_drop, chan_send. rewrite Hopen.
  assert (∀ u, u ∈ pre ++ post → u ∈ pre ++ v :: post) as Hsub by set_solver.
  rewrite <- Permutation_middle in Hnums. cbn in Hnums. apply NoDup_cons in Hnums as [Hv Hnums].
  split; unfold entries; cbn [cs_current cs_live cs_used cs_chan cs_cleaner chan_queue chan_open];
    rewrite ?omap_app; cbn [omap list_omap tag_entry]; rewrite ?app_nil_r; eauto.
  - intros n [Hin|Hin]%elem_of_app.
    + apply Hclean in Hin as [Hn Hin]. split; [done|]. set_solver.
    + apply list_elem_of_singleton in Hin. simplify_eq. split.
      * destruct (Hlive v ltac:(set_solver)) as [((n & gs) & -> & Hin)%list_elem_of_fmap _].
        by eapply Hbound.
      * done.
  - intros g [Hg Hn]%Hdel. split; [done|]. intros u Hu. by apply Hn, Hsub.
Qed.

(** Taking the oldest entry out of the list. *)
Lemma inv_delete_first cur live used q cl n gs post :
  clean_inv (mkCleanSys cur live used {| chan_open := true; chan_queue := TagClean n :: q |} cl) →
  cl_del_gens cl = (n, gs) :: post →
  clean_inv (mkCleanSys cur live used {| chan_open := true; chan_queue := q |}
    {| cl_del_gens := post; cl_cleaned := cl_cleaned cl ++ gs |}).
Proof.
  intros Hinv E.
  destruct Hinv as [Hopen Hsort Hbound Hnums Hlive Hclean Hentry Hcurr Hused Hlused Hdel].
  unfold entries in *. cbn [cs_current cs_live cs_used cs_chan cs_cleaner chan_queue chan_open
    omap list_omap tag_entry] in *. rewrite E in *. cbn [app] in *.
  set (es := post ++ omap tag_entry q) in *.
  apply StronglySorted_inv in Hsort as [Hsort Hfirst]. rewrite Forall_forall in Hfirst.
  destruct (Hclean n ltac:(by left)) as [_ Hdead].
  assert (∀ v, v ∈ live → (n < version_num v)%Z ∧ version_num v ∈ es.*1) as Hafter.
  { intros v Hv. destruct (Hlive v Hv) as [Hin _]. cbn in Hin.
    apply elem_of_cons in Hin as [Heq|Hin].
    - destruct Hdead. rewrite <- Heq. by apply list_elem_of_fmap_2.
    - split; [|done]. apply list_elem_of_fmap in Hin as ([m gm] & -> & Hin).
      by apply Hfirst in Hin. }
  split; unfold entries; cbn [cs_current cs_live cs_used cs_chan cs_cleaner chan_queue chan_open
    cl_del_gens cl_cleaned]; fold es; eauto.
  - intros m gm Hin. eapply Hbound. by right.
  - intros v Hv. split; [by apply Hafter|by apply Hlive].
  - intros m Hin. apply Hclean. by right.
  - intros m gm g v Hin. apply (Hentry m gm). by right.
  - intros gm g Hin. apply (Hcurr gm). by right.
  - intros m gm g Hin. apply (Hused m gm). by right.
  - intros g [Hg|Hg]%elem_of_app; [by apply Hdel|].
    split; [by eapply (Hused n gs); [left|]|]. intros v Hv.
    eapply (Hentry n gs); [by left|done..|by apply Hafter].
Qed.

(** Handing the generations of an entry to the entry before it. *)
Lemma inv_hand_over cur live used q cl pre p gp n gs post :
  clean_inv (mkCleanSys cur live used {| chan_open := true; chan_queue := TagClean n :: q |} cl) →
  cl_del_gens cl = pre ++ (p, gp) :: (n, gs) :: post →
  clean_inv (mkCleanSys cur live used {| chan_open := true; chan_queue := q |}
    {| cl_del_gens := pre ++ (p, gp ++ gs) :: post; cl_cleaned := cl_cleaned cl |}).
Proof.
  intros Hinv E.
  destruct Hinv as [Hopen Hsort Hbound Hnums Hlive Hclean Hentry Hcurr Hused Hlused Hdel].
  unfold entries in *. cbn [cs_current cs_live cs_used cs_chan cs_cleaner chan_queue chan_open
    omap list_omap tag_entry] in *. rewrite E in *. rewrite <- !app_assoc in *. cbn [app] in *.
  set (es := post ++ omap tag_entry q) in *.
  destruct (Hclean n ltac:(by left)) as [_ Hdead].
  pose proof Hsort as (H1 & H2 & H3)%StronglySorted_app.
  apply StronglySorted_inv in H3 as [[H4 H5]%StronglySorted_inv H6].
  rewrite Forall_forall in H5, H6.
  assert (p < n)%Z as Hpn by (apply (H6 (n, gs)); by left).
  assert (∀ m gm, (m, gm) ∈ pre ++ (p, gp ++ gs) :: es →
    (m, gm) ∈ pre ++ (p, gp) :: (n, gs) :: es ∨ (m = p ∧ gm = gp ++ gs)) as Hsplit.
  { intros m gm. rewrite !elem_of_app, !elem_of_cons. naive_solver. }
  assert (∀ v, v ∈ live → (p < version_num v)%Z → (n < version_num v)%Z) as Hgap.
  { intros v Hv Hlt. destruct (Hlive v Hv) as [([m gm] & Hm & Hin)%list_elem_of_fmap _].
    cbn in Hm. subst m.
    apply elem_of_app in Hin as [Hin|Hin].
    - specialize (H1 _ (p, gp) Hin ltac:(by left)). cbn in H1. lia.
    - rewrite !elem_of_cons in Hin. destruct Hin as [?|[?|Hin]]; simplify_eq; [lia| |].
      + destruct Hdead. by apply list_elem_of_fmap_2.
      + by apply H5 in Hin. }
  assert (∀ m, m ≠ n → m ∈ (pre ++ (p, gp) :: (n, gs) :: es).*1 →
    m ∈ (pre ++ (p, gp ++ gs) :: es).*1) as Hkeep.
  { intros m Hne. rewrite !fmap_app. cbn. set_solver. }
  split; unfold entries; cbn [cs_current cs_live cs_used cs_chan cs_cleaner chan_queue chan_open
    cl_del_gens cl_cleaned]; rewrite <- ?app_assoc; cbn [app]; fold es; eauto.
  - apply StronglySorted_app. split_and!; [|done|].
    + intros a b Ha [->|Hb]%elem_of_cons; [apply (H1 a (p, gp)); [done|by left]|].
      apply H1; [done|]. by do 2 right.
    + constructor; [done|]. apply Forall_forall. intros b Hb. apply H5 in Hb. cbn in *. lia.
  - intros m gm [Hin|[-> _]]%Hsplit; [by eapply Hbound|]. eapply (Hbound p gp). set_solver.
  - intros v Hv. destruct (Hlive v Hv) as [Hin Heq]. split; [|done].
    apply Hkeep; [|done]. intros Hn. destruct Hdead. rewrite <- Hn. by apply list_elem_of_fmap_2.
  - intros m Hin. apply Hclean. by right.
  - intros m gm g v [Hin|[-> ->]]%Hsplit Hg Hv Hlt; [by eapply Hentry|].
    apply elem_of_app in Hg as [Hg|Hg].
    + eapply (Hentry p gp); [set_solver|done..].
    + eapply (Hentry n gs); [set_solver|done..|by apply Hgap].
  - intros gm g [Hin|[Hp ->]]%Hsplit Hg; [by eapply Hcurr|].
    pose proof (Hbound n gs ltac:(set_solver)). lia.
  - intros m gm g [Hin|[-> ->]]%Hsplit Hg; [by eapply Hused|].
    apply elem_of_app in Hg as [Hg|Hg]; [eapply (Hused p gp)|eapply (Hused n gs)]; set_solver.
Qed.

Lemma inv_recv cur live used t q cl :
  clean_inv (mkCleanSys cur live used {| chan_open := true; chan_queue := t :: q |} cl) →
  clean_inv (mkCleanSys cur live used {| chan_open := true; chan_queue := q |} (cleaner_recv cl t)).
Proof.
  intros Hinv. destruct t as [n|n gs]; cbn [cleaner_recv].
  - destruct (cleaner_clean_cases cl n)
      as [[_ ->]|[(gs & post & E & ->)|(pre & p & gp & gs & post & E & ->)]].
    + destruct Hinv as [Hopen Hsort Hbound Hnums Hlive Hclean Hentry Hcurr Hused Hlused Hdel].
      split; try done. intros m Hin. apply Hclean. cbn. by right.
    + by eapply inv_delete_first.
    + by eapply inv_hand_over.
  - assert (entries (mkCleanSys cur live used {| chan_open := true; chan_queue := q |}
      {| cl_del_gens := cl_del_gens cl ++ [(n, gs)]; cl_cleaned := cl_cleaned cl |})
      = entries (mkCleanSys cur live used
          {| chan_open := true; chan_queue := TagAdd n gs :: q |} cl)) as E.
    { unfold entries. cbn. by rewrite <- app_assoc. }
    destruct Hinv as [Hopen Hsort Hbound Hnums Hlive Hclean Hentry Hcurr Hused Hlused Hdel].
    split; rewrite ?E; try done. intros m Hin. apply Hclean. cbn. by right.
Qed.

Lemma inv_init s : clean_init s → clean_inv s.
Proof.
  intros Hi. destruct Hi as [edits v ch used Hload [Hfresh Hdels Hdused]].
  apply apply_announces in Hload as (_ & Hnum & ->). cbn [version_empty version_num] in *.
  assert (∀ n gs, (n, gs) ∈ [(version_num v, edit_dels edits)] →
    n = version_num v ∧ gs = edit_dels edits) as Hone by set_solver.
  split; unfold entries;
    cbn [cs_current cs_live cs_used cs_chan cs_cleaner chan_queue chan_open cl_del_gens cl_cleaned
         cleaner_new chan_new app omap list_omap tag_entry]; rewrite <- ?Hnum; try done.
  - by repeat constructor.
  - intros n gs [-> _]%Hone. done.
  - apply NoDup_singleton.
  - intros u ->%list_elem_of_singleton. split; [set_solver|done].
  - set_solver.
  - intros n gs g u [-> ->]%Hone _ ->%list_elem_of_singleton. lia.
  - intros gs g [_ ->]%Hone. apply Hdels.
  - intros n gs g [-> ->]%Hone Hg. apply elem_of_app. right. by apply Hdused.
  - intros u g ->%list_elem_of_singleton Hg. apply elem_of_app. by left.
  - intros g Hg. by apply not_elem_of_nil in Hg.
Qed.

Lemma clean_reachable_inv s0 s : clean_init s0 → rtc clean_step s0 s → clean_inv s.
Proof.
  intros Hi Hr. apply inv_init in Hi. revert Hi.
  induction Hr as [|x y z Hxy _ IH]; [done|]. intros Hx. apply IH.
  destruct Hxy; [by eapply inv_apply|by apply inv_drop|by apply inv_recv].
Qed.

(** Whatever the order in which versions are installed and dropped and the cleaner
    takes its messages, it never deletes a table that a version still held by a reader
    needs. *)
Theorem cleaner_safe s0 s v g :
  clean_init s0 → rtc clean_step s0 s → v ∈ cs_live s → g ∈ version_gens v →
  g ∉ cl_cleaned (cs_cleaner s).
Proof.
  intros Hi Hr Hv Hg Hin. pose proof (clean_reachable_inv s0 s Hi Hr) as Hinv.
  by eapply (inv_cleaned s Hinv g).
Qed.
End clean_system.

(** ** A concrete run *)

Definition edits_check (used : list Z) (v v' : Version) (edits : list VersionEdit) : Prop :=
  Forall (λ g, g ∈ version_gens v ∨ g ∉ used) (version_gens v') ∧
  Forall (λ g, g ∉ version_gens v') (edit_dels edits) ∧ Forall (λ g, g ∈ used) (edit_dels edits).

Lemma edits_check_ok used v v' edits : edits_check used v v' edits → edits_ok used v v' edits.
Proof. intros (H1 & H2 & H3). rewrite Forall_forall in H1, H2, H3. by split. Qed.

Module CleanerSample.
Import Reference.

Definition scope (gen : Z) : Scope :=
  {| sc_start := [x01]; sc_end := [x05]; sc_gen := gen; sc_allowed_seeks := None |}.

Definition meta : TableMeta := {| tm_size_of_disk := 10; tm_len := 1 |}.

Definition edits1 : list VersionEdit := [NewFile ([scope 1], 0) 0 meta].
Definition edits2 : list VersionEdit :=
  [NewFile ([scope 2], 1) 0 meta; DeleteFile ([1%Z], 0) meta].
Definition edits3 : list VersionEdit := [NewFile ([scope 3], 0) 0 meta].

Definition version (l0 l1 : list Z) (num : Z) : Version :=
  {| version_num := num; level_slice := [scope <$> l0; scope <$> l1; []; []];
     meta_data := {| vm_size_of_disk := N.of_nat (10 * (length l0 + length l1));
                     vm_len := length l0 + length l1 |} |}.

Definition chan (q : list CleanTag) : CleanChan := {| chan_open := true; chan_queue := q |}.

Definition v1 : Version := version [1%Z] [] 1.
Definition v2 : Version := version [] [2%Z] 2.
Definition v3 : Version := version [3%Z] [2%Z] 3.

Definition start : CleanSys := mkCleanSys v1 [v1] [1%Z] (chan [TagAdd 1 []]) cleaner_new.

(** Versions 1 and 2 are dropped; version 3 is live and needs tables 2 and 3. *)
Definition finish : CleanSys :=
  mkCleanSys v3 [v3] [3%Z; 2%Z; 2%Z; 1%Z] (chan [])
    {| cl_del_gens := [(3%Z, [])]; cl_cleaned := [1%Z] |}.

Lemma start_init : clean_init start.
Proof.
  apply (init_loaded edits1 v1 (chan [TagAdd 1 []]) []); [vm_compute; reflexivity|].
  apply edits_check_ok, (bool_decide_unpack _). vm_compute. exact I.
Qed.

Lemma run : rtc clean_step start finish.
Proof.
  eapply rtc_l.
  { eapply (step_apply v1 [v1] [1%Z] (chan [TagAdd 1 []]) cleaner_new edits2 v2); [by left|..].
    - vm_compute. reflexivity.
    - apply edits_check_ok, (bool_decide_unpack _). vm_compute. exact I. }
  eapply rtc_l.
  { eapply (step_apply v2 [v2; v1] _ _ cleaner_new edits3 v3); [by left|..].
    - vm_compute. reflexivity.
    - apply edits_check_ok, (bool_decide_unpack _). vm_compute. exact I. }
  eapply rtc_l; [eapply (step_drop v3 v1 [v3; v2] [])|].
  eapply rtc_l; [eapply (step_drop v3 v2 [v3] [])|].
  do 5 (eapply rtc_l; [eapply step_recv|]). apply rtc_refl.
Qed.

Lemma cleaner_safe_witness : 2%Z ∉ cl_cleaned (cs_cleaner finish).
Proof.
  apply (cleaner_safe start finish v3 2).
  - exact start_init.
  - exact run.
  - left.
  - apply (bool_decide_unpack _). vm_compute. exact I.
Defined.
End CleanerSample.
