(* ===== verification/Status.v ===== *)
(** * Persistent versions (src/kernel/lsm/version/status.rs, snapshot_gen of version/mod.rs)

    The current version with its log: every batch of edits is appended to the log as a
    bincode record before it is applied, the log is replaced by a snapshot from time to
    time, and a version is rebuilt from it at start. *)

From S2P Require Import Prelude Std Crates Iterator Io Log Config MemTable Scope BTreeTable Version.
From Stdlib Require Import ZArith Lia Strings.Byte Sorted.
From stdpp Require Import base list gmap sorting.

Set Default Goal Selector "!".

(** ** Edits on disk

    serde writes the value behind an [Arc<AtomicU32>] and builds a new one on reading. *)

Record RawScope := mkRawScope {
  rs_start : bytes;
  rs_end : bytes;
  rs_gen : Z;
  rs_seeks : option Z;
}.

Inductive RawEdit : Type :=
  | RawDelete (file : list Z * nat) (meta : TableMeta)
  | RawNew (file : list RawScope * nat) (index : nat) (meta : TableMeta).

Definition scope_to_raw (h : Seeks) (s : Scope) : RawScope :=
  {| rs_start := sc_start s; rs_end := sc_end s; rs_gen := sc_gen s;
     rs_seeks := match sc_allowed_seeks s with Some loc => h !! loc | None => None end |}.

Definition edit_to_raw (h : Seeks) (e : VersionEdit) : RawEdit :=
  match e with
  | DeleteFile file meta => RawDelete file meta
  | NewFile (scopes, level) index meta => RawNew (scope_to_raw h <$> scopes, level) index meta
  end.

Definition scope_of_raw (r : RawScope) (h : Seeks) : Scope * Seeks :=
  match rs_seeks r with
  | Some x => ({| sc_start := rs_start r; sc_end := rs_end r; sc_gen := rs_gen r;
                  sc_allowed_seeks := Some (length h) |}, h ++ [x])
  | None => ({| sc_start := rs_start r; sc_end := rs_end r; sc_gen := rs_gen r;
                sc_allowed_seeks := None |}, h)
  end.

Fixpoint scopes_of_raw (rs : list RawScope) (h : Seeks) : list Scope * Seeks :=
  match rs with
  | [] => ([], h)
  | r :: rs' =>
      let '(s, h1) := scope_of_raw r h in
      let '(ss, h2) := scopes_of_raw rs' h1 in (s :: ss, h2)
  end.

Definition edit_of_raw (r : RawEdit) (h : Seeks) : VersionEdit * Seeks :=
  match r with
  | RawDelete file meta => (DeleteFile file meta, h)
  | RawNew (rs, level) index meta =>
      let '(ss, h') := scopes_of_raw rs h in (NewFile (ss, level) index meta, h')
  end.

Fixpoint edits_of_raw (rs : list RawEdit) (h : Seeks) : list VersionEdit * Seeks :=
  match rs with
  | [] => ([], h)
  | r :: rs' =>
      let '(e, h1) := edit_of_raw r h in
      let '(es, h2) := edits_of_raw rs' h1 in (e :: es, h2)
  end.

(** ** The status *)

(** [vs_logs] holds the version logs other than the current one. *)
Record VersionStatus := mkVersionStatus {
  vs_version : Version;
  vs_ver_log_writer : LogWriter * Z;
  vs_logs : Dir;
  vs_edit_approximate_count : nat;
  vs_chan : CleanChan;
}.

Section status.
Context `{IE : IntegerEncoding} {CRC : Crc32} {IT : Itertools} {BC : Bincode (list RawEdit)}.

(** *** Opening *)

Definition snapshot_gen (d : Dir) (c : Counters) : KernelResult (Z * Dir * Counters) :=
  match reverse (sorted_gen_list d) with
  | new_snapshot :: old_snapshot :: _ =>
      let? d' := io_clean d new_snapshot in Ok (old_snapshot, d', c)
  | [snapshot] => Ok (snapshot, d, c)
  | [] => let '(gen, c') := gen_create c in Ok (gen, d, c')
  end.

(** The closure [load_with_path] decodes records with. *)
Definition decode_version_record (bs : bytes) (records : list RawEdit)
    : KernelResult (list RawEdit) :=
  let? edits := ok_or (deserialize bs) SerdeBinCode in Ok (records ++ edits).

(** [None]: reading the log does not return.  The loader of tables is opened by the
    caller; the cleaner task starts with the channel it is given here. *)
Definition load_with_path (d : Dir) (c : Counters)
    : option (KernelResult (VersionStatus * Seeks * Counters)) :=
  match snapshot_gen d c with
  | Err e => Some (Err e)
  | Panic => Some Panic
  | Ok (gen, d1, c1) =>
      let '(log_gen, c2) := log_reload_gen d1 (Some gen) c1 in
      match log_load (one_chunk (file_content d1 log_gen)) decode_version_record [] with
      | None => None
      | Some (Err e) => Some (Err e)
      | Some Panic => Some Panic
      | Some (Ok raw_logs) =>
          let '(version_logs, h) := edits_of_raw raw_logs [] in
          Some (let? (version, ch) := load_from_log version_logs chan_new in
                let '(writer, _) := log_seek_end (log_loader_writer d1 log_gen) in
                Ok ({| vs_version := version; vs_ver_log_writer := (writer, log_gen);
                       vs_logs := delete log_gen d1;
                       vs_edit_approximate_count := length version_logs;
                       vs_chan := ch |}, h, c2))
      end
  end.

(** *** Edits *)

Definition set_writer (vs : VersionStatus) (w : LogWriter * Z) (logs : Dir) : VersionStatus :=
  {| vs_version := vs_version vs; vs_ver_log_writer := w; vs_logs := logs;
     vs_edit_approximate_count := vs_edit_approximate_count vs; vs_chan := vs_chan vs |}.

Definition write_snap_shot (vs : VersionStatus) (h : Seeks) (c : Counters)
    : KernelResult (VersionStatus * Counters) :=
  let '(new_gen, c') := gen_create c in
  let '(old_writer, old_gen) := vs_ver_log_writer vs in
  let logs := <[old_gen := sk_content (lw_dst old_writer)]> (vs_logs vs) in
  let new_writer := log_loader_writer logs new_gen in
  let snap_shot_version_edits := edit_to_raw h <$> to_vec_edit (vs_version vs) in
  let? (_, w) := add_record new_writer (serialize snap_shot_version_edits) in
  let? logs' := io_clean logs old_gen in
  Ok (set_writer vs (w, new_gen) logs', c').

Definition log_and_apply (vs : VersionStatus) (h : Seeks) (c : Counters)
    (vec_version_edit : list VersionEdit) (snapshot_threshold : nat)
    : KernelResult (VersionStatus * Counters) :=
  let? (vs1, c1) :=
    if decide (snapshot_threshold ≤ vs_edit_approximate_count vs) then write_snap_shot vs h c
    else Ok ({| vs_version := vs_version vs; vs_ver_log_writer := vs_ver_log_writer vs;
                vs_logs := vs_logs vs;
                vs_edit_approximate_count := vs_edit_approximate_count vs + 1;
                vs_chan := vs_chan vs |}, c) in
  let '(writer, gen) := vs_ver_log_writer vs1 in
  let? (_, w) := add_record writer (serialize (edit_to_raw h <$> vec_version_edit)) in
  let? (version, ch) := version_apply (vs_version vs) vec_version_edit (vs_chan vs1) in
  Ok ({| vs_version := version; vs_ver_log_writer := (w, gen); vs_logs := vs_logs vs1;
         vs_edit_approximate_count := vs_edit_approximate_count vs1; vs_chan := ch |}, c1).

(** The files on disk. *)
Definition status_files (vs : VersionStatus) : Dir :=
  <[(vs_ver_log_writer vs).2 := sk_content (lw_dst (vs_ver_log_writer vs).1)]> (vs_logs vs).
End status.

(** ** Levels up to seek counters *)

Definition strip (s : Scope) : Scope :=
  {| sc_start := sc_start s; sc_end := sc_end s; sc_gen := sc_gen s; sc_allowed_seeks := None |}.

Definition strip_levels (slice : LevelSlice) : LevelSlice :=
  (λ l : list Scope, strip <$> l) <$> slice.

Definition strip_edit (e : VersionEdit) : VersionEdit :=
  match e with
  | DeleteFile file meta => DeleteFile file meta
  | NewFile (scopes, level) index meta => NewFile (strip <$> scopes, level) index meta
  end.

Lemma scopes_of_raw_strip h ss h' :
  strip <$> (scopes_of_raw (scope_to_raw h <$> ss) h').1 = strip <$> ss.
Proof.
  revert h'. induction ss as [|s ss IH]; intros h'; [done|].
  cbn [fmap list_fmap scopes_of_raw]. destruct (scope_of_raw (scope_to_raw h s) h') as [s' h1] eqn:E.
  specialize (IH h1). change (list_fmap Scope RawScope) with (fmap (M:=list) (A:=Scope) (B:=RawScope)).
  destruct (scopes_of_raw _ h1) as [ss' h2]. cbn in *.
  f_equal; [|done]. unfold scope_of_raw in E. by destruct (rs_seeks _); simplify_eq/=.
Qed.

Lemma edits_of_raw_strip h es h' :
  strip_edit <$> (edits_of_raw (edit_to_raw h <$> es) h').1 = strip_edit <$> es.
Proof.
  revert h'. induction es as [|e es IH]; intros h'; [done|].
  cbn [fmap list_fmap edits_of_raw].
  change (list_fmap VersionEdit RawEdit) with (fmap (M:=list) (A:=VersionEdit) (B:=RawEdit)).
  destruct (edit_of_raw (edit_to_raw h e) h') as [e' h1] eqn:E. specialize (IH h1).
  destruct (edits_of_raw _ h1) as [es' h2]. cbn in *. f_equal; [|done].
  destruct e as [file m|[ss level] i m]; cbn in E; [by simplify_eq|].
  pose proof (scopes_of_raw_strip h ss h') as Hs. destruct (scopes_of_raw _ h'). simplify_eq.
  cbn in *. by rewrite Hs.
Qed.

Lemma edits_of_raw_app rs1 rs2 h :
  ∃ h', edits_of_raw (rs1 ++ rs2) h
        = ((edits_of_raw rs1 h).1 ++ (edits_of_raw rs2 h').1, (edits_of_raw rs2 h').2).
Proof.
  revert h. induction rs1 as [|r rs1 IH]; intros h.
  - exists h. cbn. by destruct (edits_of_raw rs2 h).
  - cbn [edits_of_raw app]. destruct (edit_of_raw r h) as [e h1].
    destruct (IH h1) as (h' & ->). exists h'. by destruct (edits_of_raw rs1 h1).
Qed.

Section strip_laws.
Context `{IT : Itertools} {ITL : ItertoolsLaws}.

Lemma sorted_by_key_fmap {A B} (g : A → B) (f : B → Z) (l : list A) :
  sorted_by_key f (g <$> l) = g <$> sorted_by_key (λ x, f (g x)) l.
Proof.
  apply (key_sorted_unique f).
  - apply sorted_by_key_sorted.
  - pose proof (sorted_by_key_sorted (λ x, f (g x)) l) as Hs.
    induction Hs as [|x l' Hl IH Hx]; [constructor|]. cbn. constructor; [done|].
    apply Forall_fmap. eapply Forall_impl; [done|]. done.
  - rewrite sorted_by_key_perm. apply fmap_Permutation. by rewrite sorted_by_key_perm.
  - intros k. rewrite sorted_by_key_stable, !filter_fmap.
    by rewrite (sorted_by_key_stable (λ x, f (g x)) l k).
Qed.

(** Applying edits to the levels alone. *)
Definition levels_edit (slice : LevelSlice) (e : VersionEdit) : KernelResult LevelSlice :=
  let? r := apply_edit (slice, [], []) e in Ok r.1.1.

Definition edit_event (e : VersionEdit) : EditType :=
  match e with DeleteFile _ m => EditDel m | NewFile _ _ m => EditAdd m end.

Lemma apply_edit_levels slice dels stats e :
  res_map (λ r, (r.1.1, r.2)) (apply_edit (slice, dels, stats) e)
  = let? slice' := levels_edit slice e in Ok (slice', stats ++ [edit_event e]).
Proof.
  unfold levels_edit. destruct e as [[gens level] m|[ss level] i m]; cbn [apply_edit edit_event].
  - by destruct (slice !! level).
  - destruct (slice !! level) as [l|]; cbn; [|done]. case_decide; [done|].
    by destruct (res_foldM _ l _).
Qed.

Lemma apply_edits_levels slice dels stats es :
  res_map (λ r, (r.1.1, r.2)) (res_foldM apply_edit (slice, dels, stats) es)
  = let? slice' := res_foldM levels_edit slice es in Ok (slice', stats ++ (edit_event <$> es)).
Proof.
  revert slice dels stats. induction es as [|e es IH]; intros slice dels stats.
  - cbn. by rewrite app_nil_r.
  - cbn [res_foldM fmap list_fmap]. pose proof (apply_edit_levels slice dels stats e) as He.
    destruct (apply_edit _ e) as [[[s1 d1] st1]| |]; destruct (levels_edit slice e);
      cbn in *; simplify_eq; try done.
    rewrite IH. change (list_fmap VersionEdit EditType) with (fmap (M:=list) (A:=VersionEdit) (B:=EditType)).
    by destruct (res_foldM levels_edit _ es); cbn; rewrite <- ?app_assoc.
Qed.

(** The outcome of [apply] in terms of the levels and the events. *)
Lemma version_apply_levels v es ch v' ch' :
  version_apply v es ch = Ok (v', ch') ↔
  chan_open ch = true ∧
  res_foldM levels_edit (level_slice v) es = Ok (level_slice v') ∧
  statistical_process (meta_data v) (edit_event <$> es) = Ok (meta_data v') ∧
  version_num v' = (version_num v + 1)%Z ∧
  ∃ dels, (∃ st, res_foldM apply_edit (level_slice v, [], []) es = Ok (level_slice v', dels, st)) ∧
  ch' = {| chan_open := true; chan_queue := chan_queue ch ++ [TagAdd (version_num v') dels] |}.
Proof.
  unfold version_apply. pose proof (apply_edits_levels (level_slice v) [] [] es) as Hl.
  destruct (res_foldM apply_edit _ es) as [[[slice dels] stats]| |]; cbn in *;
    destruct (res_foldM levels_edit _ es); cbn in *; simplify_eq;
    try (split; [done|naive_solver]).
  destruct (statistical_process _ _) as [m| |]; cbn; [|split; [done|naive_solver]..].
  unfold chan_send. destruct (chan_open ch); cbn; [|split; [done|naive_solver]]. split.
  - intros [= <- <-]. split_and!; try done. eexists. split; [by eexists|done].
  - intros (_ & [= Hs] & [= Hm] & Hn & dels' & (st & [= _ -> _]) & ->). destruct v'. cbn in *.
    by subst.
Qed.

Lemma vec_insert_strip i s l :
  res_map (fmap (M:=list) strip) (vec_insert i s l) = vec_insert i (strip s) (strip <$> l).
Proof.
  unfold vec_insert. rewrite length_fmap. case_decide; [|done]. cbn [res_map res_bind].
  by rewrite fmap_app, fmap_cons, fmap_take, fmap_drop.
Qed.

Lemma vec_inserts_strip i l ss :
  res_map (fmap (M:=list) strip) (res_foldM (λ l s, vec_insert i s l) l ss)
  = res_foldM (λ l s, vec_insert i s l) (strip <$> l) (strip <$> ss).
Proof.
  revert l. induction ss as [|s ss IH]; intros l; [done|].
  rewrite fmap_cons. cbn [res_foldM]. rewrite <- vec_insert_strip.
  destruct (vec_insert i s l); cbn; [apply IH|done..].
Qed.

Lemma levels_edit_strip slice e :
  res_map strip_levels (levels_edit slice e) = levels_edit (strip_levels slice) (strip_edit e).
Proof.
  unfold levels_edit, strip_levels.
  destruct e as [[gens level] m|[ss level] i m]; cbn [apply_edit strip_edit];
    rewrite list_lookup_fmap; destruct (slice !! level) as [l|]; cbn [fmap option_fmap option_map
      or_panic res_bind res_map]; try done.
  - cbn. f_equal. rewrite list_fmap_insert. f_equal. by rewrite filter_fmap.
  - rewrite (sorted_by_key_fmap strip sc_gen ss). case_decide; cbn [res_bind res_map fst snd].
    + rewrite list_fmap_insert. by rewrite fmap_app.
    + rewrite <- fmap_reverse, <- vec_inserts_strip.
      change (λ x, sc_gen (strip x)) with sc_gen.
      destruct (res_foldM _ l _); cbn; [|done..]. by rewrite list_fmap_insert.
Qed.

Lemma levels_edits_strip slice es :
  res_map strip_levels (res_foldM levels_edit slice es)
  = res_foldM levels_edit (strip_levels slice) (strip_edit <$> es).
Proof.
  revert slice. induction es as [|e es IH]; intros slice; [done|].
  rewrite fmap_cons. cbn [res_foldM]. rewrite <- levels_edit_strip.
  destruct (levels_edit slice e); cbn; [apply IH|done..].
Qed.

(** Versions that differ in nothing but their seek counters apply edits alike. *)
Lemma levels_edits_same es es' slice slice' r :
  strip_edit <$> es = strip_edit <$> es' → strip_levels slice = strip_levels slice' →
  res_foldM levels_edit slice es = Ok r →
  ∃ r', res_foldM levels_edit slice' es' = Ok r' ∧ strip_levels r' = strip_levels r.
Proof.
  intros He Hs Hr. pose proof (levels_edits_strip slice es) as H1.
  pose proof (levels_edits_strip slice' es') as H2. rewrite Hr in H1.
  rewrite <- Hs, <- He, <- H1 in H2. cbn in H2.
  destruct (res_foldM levels_edit slice' es') as [r'| |]; cbn in H2; [|done..].
  exists r'. split; [done|]. by simplify_eq.
Qed.

Lemma edit_event_strip (es es' : list VersionEdit) :
  strip_edit <$> es = strip_edit <$> es' → edit_event <$> es = edit_event <$> es'.
Proof.
  intros He.
  assert (∀ l : list VersionEdit, edit_event <$> l = edit_event <$> (strip_edit <$> l)) as Hs.
  { intros l. rewrite <- list_fmap_compose. apply list_fmap_ext.
    intros _ [file m|[ss level] i m] _; done. }
  by rewrite (Hs es), (Hs es'), He.
Qed.

Lemma add_total_app e1 e2 :
  add_total (e1 ++ e2) = (((add_total e1).1 + (add_total e2).1)%N, (add_total e1).2 + (add_total e2).2).
Proof.
  induction e1 as [|[m|m] e1 IH];
    [change (add_total []) with (0%N, 0); cbn [fst snd app]; rewrite N.add_0_l;
     by destruct (add_total e2)|..];
    cbn; fold (add_total (e1 ++ e2)) (add_total e1); rewrite IH; cbn; [f_equal; lia|done].
Qed.

Lemma del_total_app e1 e2 :
  del_total (e1 ++ e2) = (((del_total e1).1 + (del_total e2).1)%N, (del_total e1).2 + (del_total e2).2).
Proof.
  induction e1 as [|[m|m] e1 IH];
    [change (del_total []) with (0%N, 0); cbn [fst snd app]; rewrite N.add_0_l;
     by destruct (del_total e2)|..];
    cbn; fold (del_total (e1 ++ e2)) (del_total e1); rewrite IH; cbn; [done|f_equal; lia].
Qed.

(** Statistics in two batches are those of one. *)
Lemma statistical_process_app m e1 e2 m1 m2 :
  statistical_process m e1 = Ok m1 → statistical_process m1 e2 = Ok m2 →
  statistical_process m (e1 ++ e2) = Ok m2.
Proof.
  rewrite !statistical_process_spec, add_total_app, del_total_app. cbv zeta. cbn [fst snd].
  case_decide as H1; [|done]. intros [= <-]. cbn [vm_size_of_disk vm_len].
  case_decide as H2; [|done]. intros [= <-].
  rewrite decide_True by lia. f_equal. f_equal; lia.
Qed.

End strip_laws.

(** ** Recovery *)

Section recovery.
Context `{IE : IntegerEncoding} {IEL : IntegerEncodingLaws} {CRC : Crc32} {CRCL : Crc32Laws}.
Context {IT : Itertools} {ITL : ItertoolsLaws}.
Context {BC : Bincode (list RawEdit)} {BCL : BincodeLaws (list RawEdit)}.

Definition apply_batches (vs : VersionStatus) (h : Seeks) (c : Counters) (threshold : nat)
    (batches : list (list VersionEdit)) : KernelResult (VersionStatus * Counters) :=
  res_foldM (λ s es, log_and_apply s.1 h s.2 es threshold) (vs, c) batches.

(** Below the threshold, a batch is appended to the log and applied. *)
Lemma log_and_apply_append vs h c es threshold vs' c' :
  vs_edit_approximate_count vs < threshold →
  log_and_apply vs h c es threshold = Ok (vs', c') →
  vs_edit_approximate_count vs' = vs_edit_approximate_count vs + 1 ∧
  vs_logs vs' = vs_logs vs ∧
  (vs_ver_log_writer vs').2 = (vs_ver_log_writer vs).2 ∧
  (∃ n, add_record (vs_ver_log_writer vs).1 (serialize (edit_to_raw h <$> es))
        = Ok (n, (vs_ver_log_writer vs').1)) ∧
  ∃ ch ch', version_apply (vs_version vs) es ch = Ok (vs_version vs', ch').
Proof.
  intros Ht. unfold log_and_apply. rewrite decide_False by lia. cbn [res_bind].
  cbn [vs_ver_log_writer vs_chan vs_logs vs_edit_approximate_count].
  destruct (vs_ver_log_writer vs) as [w g]. cbn [fst snd].
  destruct (add_record w _) as [[n w']| |]; cbn; [|done..].
  destruct (version_apply _ es _) as [[v ch]| |] eqn:E; cbn; [|done..].
  intros [= <- <-]. cbn. split_and!; eauto.
Qed.

(** With a snapshot or without, the batch is applied to the version and announced on the
    channel as it was. *)
Lemma log_and_apply_version vs h c es threshold vs' c' :
  log_and_apply vs h c es threshold = Ok (vs', c') →
  version_apply (vs_version vs) es (vs_chan vs) = Ok (vs_version vs', vs_chan vs').
Proof.
  unfold log_and_apply. intros Hla.
  match type of Hla with (let? (_, _) := ?r in _) = _ =>
    destruct r as [[vs1 c1]| |] eqn:E1; [|done..] end. cbn [res_bind] in Hla.
  assert (vs_chan vs1 = vs_chan vs) as Hch.
  { case_decide; [|by injection E1 as <- _]. unfold write_snap_shot in E1. cbn [gen_create] in E1.
    destruct (vs_ver_log_writer vs) as [w g]. destruct (add_record _ _) as [[n w']| |]; [|done..].
    cbn [res_bind] in E1. destruct (io_clean _ _); [|done..]. by injection E1 as <- _. }
  destruct (vs_ver_log_writer vs1) as [w g]. destruct (add_record w _) as [[n w']| |]; [|done..].
  cbn [res_bind] in Hla. rewrite Hch in Hla.
  destruct (version_apply _ es _) as [[v ch]| |]; [|done..]. by injection Hla as <- _.
Qed.

(** A batch that the levels and the statistics accept is logged and applied. *)
Lemma log_and_apply_total vs h c es threshold slice m :
  log_ok (vs_ver_log_writer vs).1 → chan_open (vs_chan vs) = true →
  res_foldM levels_edit (level_slice (vs_version vs)) es = Ok slice →
  statistical_process (meta_data (vs_version vs)) (edit_event <$> es) = Ok m →
  ∃ vs' c', log_and_apply vs h c es threshold = Ok (vs', c') ∧
    level_slice (vs_version vs') = slice ∧ meta_data (vs_version vs') = m ∧
    log_ok (vs_ver_log_writer vs').1 ∧ chan_open (vs_chan vs') = true ∧
    (gen_buf c ≤ gen_buf c')%Z ∧ seq_count c' = seq_count c.
Proof.
  intros Hlog Hch Hs Hm. unfold log_and_apply.
  assert (∃ vs1 c1,
    (if decide (threshold ≤ vs_edit_approximate_count vs) then write_snap_shot vs h c
     else Ok ({| vs_version := vs_version vs; vs_ver_log_writer := vs_ver_log_writer vs;
                 vs_logs := vs_logs vs;
                 vs_edit_approximate_count := vs_edit_approximate_count vs + 1;
                 vs_chan := vs_chan vs |}, c)) = Ok (vs1, c1) ∧
    log_ok (vs_ver_log_writer vs1).1 ∧ vs_chan vs1 = vs_chan vs ∧
    (gen_buf c ≤ gen_buf c1)%Z ∧ seq_count c1 = seq_count c) as (vs1 & c1 & -> & Hl1 & Hc1 & Hg & Hsq).
  { case_decide; [|by eexists _, _]. unfold write_snap_shot. cbn [gen_create].
    destruct (vs_ver_log_writer vs) as [w g].
    match goal with |- context [add_record (log_loader_writer ?d ?g') ?r] =>
      destruct (add_record_total (log_loader_writer d g') r (log_writer_new_ok _))
        as (n & w' & -> & Hw') end.
    cbn [res_bind]. unfold io_clean. rewrite lookup_insert_eq. cbn [res_bind].
    eexists _, _. split; [done|]. cbn [set_writer vs_ver_log_writer vs_chan gen_buf seq_count fst].
    split_and!; (done || lia). }
  cbn [res_bind]. destruct (vs_ver_log_writer vs1) as [w g]. cbn [fst] in Hl1.
  destruct (add_record_total w (serialize (edit_to_raw h <$> es)) Hl1) as (n & w' & -> & Hw').
  cbn [res_bind]. rewrite Hc1. unfold version_apply.
  pose proof (apply_edits_levels (level_slice (vs_version vs)) [] [] es) as Hl. rewrite Hs in Hl.
  destruct (res_foldM apply_edit _ es) as [[[slice' dels] stats]| |];
    cbn [res_map res_bind] in Hl; [|done..].
  injection Hl as -> ->. cbn [res_bind]. rewrite Hm. cbn [res_bind]. unfold chan_send. rewrite Hch.
  cbn [res_bind]. eexists _, _. split; [done|]. cbn. by split_and!.
Qed.

Definition batch_record (h : Seeks) (es : list VersionEdit) : bytes :=
  serialize (edit_to_raw h <$> es).

Lemma apply_batches_spec vs h c threshold batches vs' c' :
  vs_edit_approximate_count vs + length batches ≤ threshold →
  apply_batches vs h c threshold batches = Ok (vs', c') →
  vs_logs vs' = vs_logs vs ∧
  (vs_ver_log_writer vs').2 = (vs_ver_log_writer vs).2 ∧
  write_records (vs_ver_log_writer vs).1 (batch_record h <$> batches)
  = Ok (vs_ver_log_writer vs').1 ∧
  res_foldM levels_edit (level_slice (vs_version vs)) (concat batches)
  = Ok (level_slice (vs_version vs')) ∧
  statistical_process (meta_data (vs_version vs)) (edit_event <$> concat batches)
  = Ok (meta_data (vs_version vs')).
Proof.
  unfold apply_batches. revert vs c. induction batches as [|es batches IH]; intros vs c Ht.
  - intros [= <- <-]. split_and!; try done. rewrite statistical_process_spec. cbv zeta. cbn.
    rewrite decide_True by lia. destruct (meta_data _); cbn. do 2 f_equal; lia.
  - cbn [res_foldM length] in *. destruct (log_and_apply _ _ _ es _) as [[vs1 c1]| |] eqn:E;
      cbn [res_bind]; [|done..]. cbn [fst snd] in E.
    apply log_and_apply_append in E as (Hc & Hl & Hg & (n & Hw) & ch & ch' & Ha); [|lia].
    apply version_apply_levels in Ha as (_ & Hlev & Hst & _).
    intros (IHl & IHg & IHw & IHlev & IHst)%IH; [|lia]. split_and!; [congruence..| | |].
    + rewrite fmap_cons. unfold write_records in *. cbn [res_foldM]. unfold batch_record at 1.
      rewrite Hw. done.
    + cbn [concat]. by rewrite res_foldM_app, Hlev.
    + cbn [concat]. rewrite fmap_app. by eapply statistical_process_app.
Qed.

Lemma decode_records h batches acc :
  res_foldM (λ acc b, decode_version_record b acc) acc (batch_record h <$> batches)
  = Ok (acc ++ (edit_to_raw h <$> concat batches)).
Proof.
  revert acc. induction batches as [|es batches IH]; intros acc; cbn [concat].
  - cbn. by rewrite app_nil_r.
  - rewrite fmap_cons, fmap_app. cbn [res_foldM]. unfold decode_version_record at 1, batch_record at 1.
    rewrite deserialize_serialize. cbn [ok_or res_bind]. by rewrite IH, <- app_assoc.
Qed.

Lemma load_from_log_levels es slice m :
  res_foldM levels_edit level_slice_new es = Ok slice →
  statistical_process {| vm_size_of_disk := 0; vm_len := 0 |} (edit_event <$> es) = Ok m →
  ∃ v ch, load_from_log es chan_new = Ok (v, ch) ∧ level_slice v = slice ∧ meta_data v = m.
Proof.
  intros Hs Hm. unfold load_from_log, version_apply.
  pose proof (apply_edits_levels level_slice_new [] [] es) as Hl. rewrite Hs in Hl.
  cbn [version_empty level_slice meta_data].
  destruct (res_foldM apply_edit _ es) as [[[slice' dels] stats]| |]; cbn in Hl; [|done..].
  simplify_eq. cbn [res_bind]. rewrite Hm. cbn. eexists _, _. split; [done|]. done.
Qed.

Lemma load_empty c :
  ∃ vs g c', load_with_path ∅ c = Some (Ok (vs, [], c')) ∧
    vs_logs vs = ∅ ∧ vs_edit_approximate_count vs = 0 ∧
    vs_ver_log_writer vs = (log_writer_new {| sk_content := []; sk_pos := 0 |}, g) ∧
    level_slice (vs_version vs) = level_slice_new ∧
    meta_data (vs_version vs) = {| vm_size_of_disk := 0; vm_len := 0 |} ∧
    chan_open (vs_chan vs) = true ∧ seq_count c' = seq_count c ∧ (gen_buf c ≤ gen_buf c')%Z ∧
    load_from_log [] chan_new = Ok (vs_version vs, vs_chan vs).
Proof.
  unfold load_with_path, snapshot_gen. assert (sorted_gen_list ∅ = []) as -> by done.
  cbn [reverse rev_append gen_create]. unfold log_reload_gen. cbn [gen_create default from_option id].
  assert (file_content ∅ (gen_buf c) = []) as -> by done.
  assert (log_load (one_chunk []) decode_version_record [] = Some (Ok [])) as ->.
  { unfold log_load. cbn [one_chunk concat length log_load_loop].
    unfold log_read. destruct (log_read_eof 0 0 BLOCK_SIZE [] 0) as [r Hr]; [apply Nat.le_0_l|].
    unfold log_reader_new. rewrite Hr. done. }
  cbn [edits_of_raw]. unfold load_from_log, version_apply. cbn [res_foldM res_bind].
  rewrite statistical_process_spec. cbv zeta. cbn [add_total del_total foldr fst snd].
  rewrite decide_True by lia. cbn [res_bind chan_send chan_new chan_open].
  unfold log_seek_end, log_loader_writer.
  assert (file_content ∅ (gen_buf c) = []) as -> by done.
  eexists _, _, _. split; [reflexivity|].
  cbn [vs_logs vs_edit_approximate_count vs_ver_log_writer vs_version level_slice meta_data
       length log_writer_new lw_dst sk_content lw_offset lw_block_size].
  split_and!; try reflexivity. cbn. lia.
Qed.

Lemma load_one_log gen content c raws v ch :
  log_load (one_chunk content) decode_version_record [] = Some (Ok raws) →
  load_from_log (edits_of_raw raws []).1 chan_new = Ok (v, ch) →
  ∃ vs h c', load_with_path {[ gen := content ]} c = Some (Ok (vs, h, c')) ∧ vs_version vs = v.
Proof.
  intros Hload Hv. unfold load_with_path, snapshot_gen.
  assert (sorted_gen_list {[gen := content]} = [gen]) as ->.
  { unfold sorted_gen_list. by rewrite map_to_list_singleton. }
  cbn [reverse rev_append]. unfold log_reload_gen. cbn [gen_create default from_option id].
  replace (file_content {[gen := content]} gen) with content
    by (unfold file_content; by rewrite lookup_singleton_eq).
  rewrite Hload. destruct (edits_of_raw raws []) as [es h]. cbn [fst] in Hv.
  rewrite Hv. cbn [res_bind]. destruct (log_seek_end _) as [w n].
  eexists _, _, _. split; [done|]. done.
Qed.

(** C20: a version opened on an empty directory and changed by at most as many batches of
    edits as the snapshot threshold is rebuilt from its log with the same tables at the same
    places in every level, their seek counters apart, which are new, and with the same
    statistics.  (Past the threshold, and after a second restart, it need not be:
    [snapshot_recovery_loses_key], [reopened_log_misaligned].) *)
Theorem version_log_recovery c h threshold batches :
  length batches ≤ threshold →
  ∃ vs0 c0, load_with_path ∅ c = Some (Ok (vs0, [], c0)) ∧
  ∀ vs1 c1, apply_batches vs0 h c0 threshold batches = Ok (vs1, c1) →
  ∃ vs2 h2 c2, load_with_path (status_files vs1) c1 = Some (Ok (vs2, h2, c2)) ∧
    strip_levels (level_slice (vs_version vs2)) = strip_levels (level_slice (vs_version vs1)) ∧
    meta_data (vs_version vs2) = meta_data (vs_version vs1).
Proof.
  intros Ht. destruct (load_empty c) as (vs0 & g & c0 & H0 & Hlogs & Hcount & Hwriter & Hlev & Hmeta & _).
  exists vs0, c0. split; [done|]. intros vs1 c1 Hrun.
  apply apply_batches_spec in Hrun as (Hl1 & Hg1 & Hw1 & Hs1 & Hm1); [|lia].
  rewrite Hwriter in Hw1, Hg1. cbn [fst snd] in *. rewrite Hlev, Hmeta in *.
  set (content := sk_content (lw_dst (vs_ver_log_writer vs1).1)).
  assert (status_files vs1 = {[ g := content ]}) as ->.
  { unfold status_files. by rewrite Hl1, Hlogs, Hg1. }
  destruct (log_records_load (batch_record h <$> batches) (one_chunk content)
    decode_version_record []) as (w & Hw & Hload).
  { apply Forall_fmap, Forall_forall. intros es _. apply serialize_nonempty. }
  rewrite Hw in Hw1. injection Hw1 as Hw1. destruct (one_chunk_ok content) as [Hch Hcat].
  specialize (Hload Hch ltac:(by rewrite Hcat, Hw1)). rewrite decode_records in Hload. cbn in Hload.
  pose proof (edits_of_raw_strip h (concat batches) []) as Hstrip.
  destruct (levels_edits_same _ _ _ _ _ (eq_sym Hstrip) eq_refl Hs1) as (slice & Hs2 & Hsame).
  pose proof (edit_event_strip _ _ Hstrip) as Hev.
  destruct (load_from_log_levels _ slice (meta_data (vs_version vs1)) Hs2) as (v & ch & Hv & Hvs & Hvm).
  { by rewrite Hev. }
  destruct (load_one_log g content c1 _ v ch Hload Hv) as (vs2 & h2 & c2 & H2 & Hv2).
  exists vs2, h2, c2. split; [done|]. subst v. by rewrite Hvs, Hvm.
Qed.
End recovery.

(** The count of edits is not reset by a snapshot: once it has reached the
    threshold, every further batch of edits rewrites the whole log as a new snapshot. *)
Theorem snapshot_every_edit `{IntegerEncoding, Crc32, Itertools, Bincode (list RawEdit)}
    vs h c es threshold vs' c' :
  threshold ≤ vs_edit_approximate_count vs →
  log_and_apply vs h c es threshold = Ok (vs', c') →
  threshold ≤ vs_edit_approximate_count vs' ∧
  (vs_ver_log_writer vs').2 = gen_buf c ∧ gen_buf c' = (gen_buf c + 1)%Z.
Proof.
  intros Ht. unfold log_and_apply, write_snap_shot. rewrite decide_True by done.
  cbn [gen_create]. destruct (vs_ver_log_writer vs) as [w g].
  destruct (add_record (log_loader_writer _ _) _) as [[n w1]| |];
    cbn [res_bind set_writer vs_ver_log_writer vs_version vs_chan vs_logs
         vs_edit_approximate_count]; [|done..].
  destruct (io_clean _ g);
    cbn [res_bind set_writer vs_ver_log_writer vs_version vs_chan vs_logs
         vs_edit_approximate_count]; [|done..].
  destruct (add_record w1 _) as [[n2 w2]| |];
    cbn [res_bind set_writer vs_ver_log_writer vs_version vs_chan vs_logs
         vs_edit_approximate_count]; [|done..].
  destruct (version_apply _ _ _) as [[v ch]| |];
    cbn [res_bind set_writer vs_ver_log_writer vs_version vs_chan vs_logs
         vs_edit_approximate_count]; [|done..].
  intros [= <- <-]. done.
Qed.

(** ** Witnesses *)

#[global] Instance raw_scope_eq_dec : EqDecision RawScope.
Proof. solve_decision. Defined.

#[global] Instance raw_edit_eq_dec : EqDecision RawEdit.
Proof. solve_decision. Defined.

Module StatusSample.
Import Reference.

(** An edit as lists of numbers, the form that keeps the codes of the samples short. *)
Definition scope_code (r : RawScope) : list (list Z) :=
  [byte_to_Z <$> rs_start r; byte_to_Z <$> rs_end r; rs_gen r :: option_list (rs_seeks r)].

Definition scope_decode (l : list (list Z)) : option RawScope :=
  match l with
  | [start; stop; gen :: seeks] =>
      Some (mkRawScope (byte_of_Z <$> start) (byte_of_Z <$> stop) gen (head seeks))
  | _ => None
  end.

Definition edit_code (e : RawEdit) : list (list (list Z)) :=
  match e with
  | RawDelete (gens, level) m =>
      [[[0; Z.of_nat level; Z.of_N (tm_size_of_disk m); Z.of_nat (tm_len m)]; gens]]
  | RawNew (scopes, level) index m =>
      [[1; Z.of_nat level; Z.of_nat index; Z.of_N (tm_size_of_disk m); Z.of_nat (tm_len m)]]
        :: (scope_code <$> scopes)
  end%Z.

Definition edit_decode (l : list (list (list Z))) : option RawEdit :=
  match l with
  | [[[_; level; size; len]; gens]] =>
      Some (RawDelete (gens, Z.to_nat level) (mkTableMeta (Z.to_N size) (Z.to_nat len)))
  | [[_; level; index; size; len]] :: scopes =>
      scopes ← mapM scope_decode scopes;
      Some (RawNew (scopes, Z.to_nat level) (Z.to_nat index)
              (mkTableMeta (Z.to_N size) (Z.to_nat len)))
  | _ => None
  end.

Lemma scope_decode_code r : scope_decode (scope_code r) = Some r.
Proof.
  assert (Hb : ∀ l : bytes, byte_of_Z <$> (byte_to_Z <$> l) = l).
  { intros l. induction l as [|x l IH]; cbn; [done|]. rewrite byte_of_to_Z. by f_equal. }
  destruct r as [start stop gen [n|]]; cbn; by rewrite !Hb.
Qed.

#[export] Instance raw_edit_countable : Countable RawEdit.
Proof.
  refine (inj_countable edit_code edit_decode _). intros [[gens level] [size len]|[scopes level] i [size len]].
  - cbn. by rewrite N2Z.id, !Nat2Z.id.
  - cbn. rewrite N2Z.id, !Nat2Z.id.
    assert (mapM scope_decode (scope_code <$> scopes) = Some scopes) as ->; [|done].
    apply mapM_fmap_Some, scope_decode_code.
Defined.

Definition batches : list (list VersionEdit) :=
  let meta := mkTableMeta 10 2 in
  [[NewFile ([mkScope [x01] [x05] 1 None], 0) 0 meta];
   [NewFile ([mkScope [x01] [x05] 2 None], 1) 0 meta; DeleteFile ([1%Z], 0) meta]].

Definition counters : Counters := mkCounters 1 100.

Lemma version_log_recovery_witness :
  ∃ vs0 c0, load_with_path ∅ counters = Some (Ok (vs0, [], c0)) ∧
  ∀ vs1 c1, apply_batches vs0 [] c0 5 batches = Ok (vs1, c1) →
  ∃ vs2 h2 c2, load_with_path (status_files vs1) c1 = Some (Ok (vs2, h2, c2)) ∧
    strip_levels (level_slice (vs_version vs2)) = strip_levels (level_slice (vs_version vs1)) ∧
    meta_data (vs_version vs2) = meta_data (vs_version vs1).
Proof. apply version_log_recovery. vm_compute. lia. Defined.

(** The batches are applied. *)
Example batches_applied :
  match load_with_path ∅ counters with
  | Some (Ok (vs0, _, c0)) =>
      match apply_batches vs0 [] c0 5 batches with
      | Ok (vs1, _) => sc_gen <$> concat (level_slice (vs_version vs1))
      | _ => []
      end
  | _ => []
  end = [2%Z].
Proof. vm_compute. reflexivity. Qed.

Definition opened : option (VersionStatus * Counters) :=
  match load_with_path ∅ counters with Some (Ok (vs0, _, c0)) => Some (vs0, c0) | _ => None end.

Lemma snapshot_every_edit_witness :
  ∃ vs c vs' c', opened = Some (vs, c) ∧
    log_and_apply vs [] c (default [] (head batches)) 0 = Ok (vs', c') ∧
    (vs_ver_log_writer vs').2 = gen_buf c ∧ gen_buf c' = (gen_buf c + 1)%Z.
Proof.
  assert (match opened with
          | Some (vs, c) => match log_and_apply vs [] c (default [] (head batches)) 0 with
                            | Ok _ => true | _ => false end
          | None => false
          end = true) as Hok by (vm_compute; reflexivity).
  destruct opened as [[vs c]|]; [|discriminate].
  destruct (log_and_apply vs [] c (default [] (head batches)) 0) as [[vs' c']| |] eqn:E;
    [|discriminate..].
  exists vs, c, vs', c'. split; [reflexivity|]. split; [exact E|].
  destruct (snapshot_every_edit vs [] c (default [] (head batches)) 0 vs' c') as [_ H].
  - apply Nat.le_0_l.
  - exact E.
  - exact H.
Defined.
End StatusSample.
