(* ===== verification/Compactor.v ===== *)
(** * Compaction (src/kernel/lsm/compactor.rs, data_sharding of lsm/mod.rs)

    Flushing the memory table into a table of level 0 (minor compaction) and merging
    tables of a level into the next one (major compaction).  Tables are created through
    the interface [TableBuilder], with its law, so that the theorems hold for every kind
    of table. *)

From S2P Require Import Prelude Std Crates Iterator Io Log Config MemTable.
From S2P Require Import Scope BTreeTable Version Status.
From Stdlib Require Import ZArith Lia Strings.Byte Sorted.
From stdpp Require Import base list gmap sorting.

Set Default Goal Selector "!".

(** ** Building tables *)

Class TableBuilder (T : Type) := build_table :
  TableType → Z → list KeyValue → nat → KernelResult T.

(** [buildable] is what the format of the table can hold. *)
Class TableBuilderLaws (T : Type) `{Table T} `{TableBuilder T} := {
  buildable : TableType → Z → list KeyValue → nat → Prop;
  build_table_holds tp gen data level : ksorted data → data ≠ [] → buildable tp gen data level →
    ∃ t, build_table tp gen data level = Ok t ∧ table_holds t data ∧ table_gen t = gen;
}.

#[global] Instance btree_builder : TableBuilder BTreeTable :=
  λ _ gen data level, Ok (btree_table_new level gen data).

#[global] Instance btree_builder_laws : TableBuilderLaws BTreeTable.
Proof.
  refine {| buildable _ _ _ _ := True |}. intros tp gen data level Hs _ _. eexists.
  split_and!; [done|by apply btree_table_holds|done].
Defined.

(** ** Cutting data into tables *)

(** [slice[i].1.push(kv)] *)
Definition shard_push (i : nat) (kv : KeyValue) (slice : list (Z * list KeyValue))
    : list (Z * list KeyValue) :=
  alter (λ s : Z * list KeyValue, (s.1, s.2 ++ [kv])) i slice.

(** The [while] loop for one shard; the data is popped in order. *)
Fixpoint shard_while (i part_size file_size data_len : nat) (data : list KeyValue)
    (slice : list (Z * list KeyValue)) : list KeyValue * list (Z * list KeyValue) :=
  match data with
  | [] => ([], slice)
  | kv :: rest =>
      let data_len' := data_len + key_value_bytes_len kv in
      if decide (file_size ≤ data_len' ∧ i < part_size - 1) then (rest, shard_push (i + 1) kv slice)
      else shard_while i part_size file_size data_len' rest (shard_push i kv slice)
  end.

(** One round of the [for] loop. *)
Definition shard_step (part_size file_size : nat)
    (st : list KeyValue * list (Z * list KeyValue) * Counters) (i : nat)
    : list KeyValue * list (Z * list KeyValue) * Counters :=
  let '(data, slice, c) := st in
  let '(gen, c') := gen_create c in
  let slice1 := alter (λ s : Z * list KeyValue, (gen, s.2)) i slice in
  let '(rest, slice2) := shard_while i part_size file_size 0 data slice1 in
  (rest, slice2, c').

Definition total_bytes (data : list KeyValue) : nat := sum_list_with key_value_bytes_len data.

(** [file_size] 0 underflows or divides by zero. *)
Definition data_sharding (vec_data : list KeyValue) (file_size : nat) (c : Counters)
    : KernelResult (list (Z * list KeyValue) * Counters) :=
  if decide (file_size = 0) then Panic
  else
    let part_size := (total_bytes vec_data + file_size - 1) / file_size in
    let '(_, vec_sharding, c') :=
      fold_left (shard_step part_size file_size) (seq 0 part_size)
        (vec_data, replicate part_size (0%Z, []), c) in
    Ok (filter (λ s : Z * list KeyValue, s.2 ≠ []) vec_sharding, c').

(** ** Merging *)

Section compactor.
Context {SM : SkipMapOps InternalKey (option bytes)}.
Context `{IE : IntegerEncoding} {CRC : Crc32} {IT : Itertools} {BC : Bincode (list RawEdit)}.
Context {T : Type} {TB : Table T} {BLD : TableBuilder T}.

(** The [while let] of [table_load_data]. *)
Fixpoint load_loop (fuel : nat) (it : table_iter_state) (keep : bytes → bool)
    (vec_cmd : list KeyValue) : KernelResult (list KeyValue) :=
  match fuel with
  | O => Panic
  | S fuel' =>
      let? (o, it') := try_next it in
      match o with
      | Some item =>
          load_loop fuel' it' keep (if keep item.1 then vec_cmd ++ [item] else vec_cmd)
      | None => Ok vec_cmd
      end
  end.

(** A table that holds [table_len] entries answers within one more call. *)
Definition table_load_data (t : T) (keep : bytes → bool) : KernelResult (list KeyValue) :=
  let? it := table_iter t in load_loop (S (table_len t)) it keep [].

Definition data_merge_and_sharding (tables_l tables_ll : list T) (file_size : nat) (c : Counters)
    : KernelResult (list (Z * list KeyValue) * Counters) :=
  let? sharding_l :=
    res_mapM (λ t, table_load_data t (λ _, true)) (sorted_unstable_by_key table_gen tables_l) in
  let filter_set_l := (concat sharding_l).*1 in
  let? sharding_ll :=
    res_mapM (λ t, table_load_data t (λ key, bool_decide (key ∉ filter_set_l))) tables_ll in
  let vec_cmd_data :=
    sorted_unstable_by_key fst (unique_by fst (reverse (concat (sharding_ll ++ sharding_l)))) in
  data_sharding vec_cmd_data file_size c.

(** ** The store the compactor works on *)

Record Store := mkStore {
  so_mem_table : MemTable;
  so_tables : gmap Z T;
  so_status : VersionStatus;
  so_seeks : Seeks;
  so_counters : Counters;
}.

(** [TableLoader::get] and [TableLoader::create] over the loaded tables. *)
Definition store_get (st : Store) (gen : Z) : option T := so_tables st !! gen.

Definition set_status (st : Store) (vs : VersionStatus) (c : Counters) : Store :=
  {| so_mem_table := so_mem_table st; so_tables := so_tables st; so_status := vs;
     so_seeks := so_seeks st; so_counters := c |}.

Definition set_counters (st : Store) (c : Counters) : Store := set_status st (so_status st) c.

Definition loader_create (st : Store) (gen : Z) (vec_data : list KeyValue) (level : nat)
    (table_type : TableType) : KernelResult (Scope * TableMeta * Store) :=
  let? (scope, h) := from_sorted_vec_data gen vec_data (so_seeks st) in
  let? table := build_table table_type gen vec_data level in
  Ok (scope, table_meta_from table,
      {| so_mem_table := so_mem_table st; so_tables := <[gen := table]> (so_tables st);
         so_status := so_status st; so_seeks := h; so_counters := so_counters st |}).

Definition DelNode : Type := list Z * TableMeta.

Definition data_loading_with_level (config : Config) (st : Store) (level : nat) (target : Scope)
    (is_skip_sized : bool)
    : KernelResult (option (nat * (DelNode * DelNode) * list (Z * list KeyValue)) * Store) :=
  let version := vs_version (so_status st) in
  let next_level := level + 1 in
  if decide (MAX_LEVEL - 2 < level) then Ok (None, st)
  else
    let? exceeded := if is_skip_sized then Ok true
                     else is_threshold_exceeded_major version config level in
    if negb exceeded then Ok (None, st)
    else
      let? (tables_l, scopes_l, _) := tables_by_scopes (store_get st) version level target in
      match scopes_l with
      | [] => Ok (None, st)
      | _ =>
          let fusion_scope_l := default target (scope_fusion scopes_l) in
          let? (tables_ll, _, index) :=
            tables_by_scopes (store_get st) version next_level fusion_scope_l in
          let? del_gen_l := collect_gen tables_l in
          let? del_gen_ll := collect_gen tables_ll in
          let? (vec_merge_sharding, c) :=
            data_merge_and_sharding tables_l tables_ll (N.to_nat (cfg_sst_file_size config))
              (so_counters st) in
          Ok (Some (index, (del_gen_l, del_gen_ll), vec_merge_sharding), set_counters st c)
      end.

(** The tables of all shards; [try_join_all]. *)
Fixpoint create_tables (st : Store) (shards : list (Z * list KeyValue)) (level : nat)
    (table_type : TableType) : KernelResult (list (Scope * TableMeta) * Store) :=
  match shards with
  | [] => Ok ([], st)
  | (gen, sharding) :: shards' =>
      let? (scope, meta, st1) := loader_create st gen sharding level table_type in
      let? (rest, st2) := create_tables st1 shards' level table_type in
      Ok ((scope, meta) :: rest, st2)
  end.

Definition compaction_edits (level index : nat) (created : list (Scope * TableMeta))
    (del_l del_ll : DelNode) : list VersionEdit :=
  [NewFile (created.*1, level + 1) index (table_meta_fusion created.*2);
   DeleteFile (del_l.1, level) del_l.2; DeleteFile (del_ll.1, level + 1) del_ll.2].

(** One round of the [while] loop of [major_compaction]: whether it was the last, and the
    new store. *)
Definition compaction_round (config : Config) (st : Store) (level : nat) (scope : Scope)
    (vec_ver_edit : list VersionEdit) (is_skip_sized : bool) : KernelResult (bool * Store) :=
  let? (loaded, st1) := data_loading_with_level config st level scope is_skip_sized in
  let? (is_over, edits, st2) :=
    match loaded with
    | Some (index, (del_l, del_ll), vec_sharding) =>
        let? tp := or_panic (cfg_level_table_type config !! (level + 1)) in
        let? (created, st2) := create_tables st1 vec_sharding (level + 1) tp in
        Ok (false, vec_ver_edit ++ compaction_edits level index created del_l del_ll, st2)
    | None => Ok (true, vec_ver_edit, st1)
    end in
  match edits with
  | [] => Ok (is_over, st2)
  | _ =>
      let? (vs, c) := log_and_apply (so_status st2) (so_seeks st2) (so_counters st2) edits
                        (cfg_ver_log_snapshot_threshold config) in
      Ok (is_over, set_status st2 vs c)
  end.

(** The level rises with every round that is not the last, so [MAX_LEVEL] rounds are
    enough. *)
Fixpoint major_loop (fuel : nat) (config : Config) (st : Store) (level : nat) (scope : Scope)
    (vec_ver_edit : list VersionEdit) (is_skip_sized : bool) : KernelResult Store :=
  match fuel with
  | O => Ok st
  | S fuel' =>
      if decide (level < MAX_LEVEL) then
        let? (is_over, st') := compaction_round config st level scope vec_ver_edit is_skip_sized in
        if (is_over : bool) then Ok st' else major_loop fuel' config st' (level + 1) scope [] false
      else Ok st
  end.

Definition major_compaction (config : Config) (st : Store) (level : nat) (scope : Scope)
    (vec_ver_edit : list VersionEdit) (is_skip_sized : bool) : KernelResult Store :=
  if decide (MAX_LEVEL - 1 < level) then Err LevelOver
  else major_loop (S MAX_LEVEL) config st level scope vec_ver_edit is_skip_sized.

Definition minor_compaction (config : Config) (st : Store) (gen : Z) (values : list KeyValue)
    : KernelResult Store :=
  match values with
  | [] => Ok st
  | _ =>
      let? tp := or_panic (cfg_level_table_type config !! LEVEL_0) in
      let? (scope, meta, st1) := loader_create st gen values LEVEL_0 tp in
      major_compaction config st1 LEVEL_0 scope [NewFile ([scope], 0) 0 meta] false
  end.

(** [tx] says whether a waiting sender's receiver is still there; [None]: a transaction
    is alive and the swap spins. *)
Definition check_then_compaction (config : Config) (st : Store) (tx : option bool)
    : option (KernelResult Store) :=
  match swap (so_mem_table st) (so_counters st) with
  | None => None
  | Some (swapped, mem, c) =>
      let st1 := {| so_mem_table := mem; so_tables := so_tables st; so_status := so_status st;
                    so_seeks := so_seeks st; so_counters := c |} in
      Some (let? st2 := match swapped with
                        | Some (gen, values) =>
                            match values with
                            | [] => Ok st1
                            | _ => minor_compaction config st1 gen values
                            end
                        | None => Ok st1
                        end in
            match tx with
            | Some false => Err ChannelClose
            | _ => Ok st2
            end)
  end.
End compactor.
Arguments Store {_} T.

(** ** Sharding *)

Lemma total_bytes_app l1 l2 : total_bytes (l1 ++ l2) = total_bytes l1 + total_bytes l2.
Proof. induction l1 as [|kv l1 IH]; cbn in *; [done|]. unfold total_bytes in *. lia. Qed.

Lemma alter_middle {A} (f : A → A) pre s post :
  alter f (length pre) (pre ++ s :: post) = pre ++ f s :: post.
Proof. rewrite <- (Nat.add_0_r (length pre)). by rewrite alter_app_r. Qed.

Lemma shard_push_middle pre (s : Z * list KeyValue) post kv :
  shard_push (length pre) kv (pre ++ s :: post) = pre ++ (s.1, s.2 ++ [kv]) :: post.
Proof. apply (alter_middle (λ s : Z * list KeyValue, (s.1, s.2 ++ [kv]))). Qed.

Lemma shard_push_next pre (s n : Z * list KeyValue) post kv :
  shard_push (length pre + 1) kv (pre ++ s :: n :: post)
  = pre ++ s :: (n.1, n.2 ++ [kv]) :: post.
Proof. unfold shard_push. by rewrite alter_app_r. Qed.

(** One shard takes entries until the next one would reach the size, and passes that one
    on; the last shard takes everything. *)
Lemma shard_while_spec pre g s post P F len data :
  length pre + S (length post) = P →
  ∃ taken passed rest,
    data = taken ++ passed ++ rest ∧
    (passed = [] ∧ rest = [] ∧
     shard_while (length pre) P F len data (pre ++ (g, s) :: post)
     = ([], pre ++ (g, s ++ taken) :: post)
     ∨ ∃ kv n post', passed = [kv] ∧ post = n :: post' ∧
       F ≤ len + total_bytes (taken ++ [kv]) ∧
       shard_while (length pre) P F len data (pre ++ (g, s) :: post)
       = (rest, pre ++ (g, s ++ taken) :: (n.1, n.2 ++ [kv]) :: post')) ∧
    (taken ≠ [] → post ≠ [] → len + total_bytes taken < F).
Proof.
  revert s len. induction data as [|kv data IH]; intros s len Hlen.
  { exists [], [], []. split; [done|]. split; [left|done]. by rewrite app_nil_r. }
  cbn [shard_while]. case_decide as Hfull.
  - destruct post as [|n post]; [cbn in Hlen; lia|].
    exists [], [kv], data. split; [done|]. split; [right|done].
    exists kv, n, post. rewrite shard_push_next, app_nil_r. split_and!; try done.
    cbn. unfold total_bytes in *. cbn. lia.
  - rewrite shard_push_middle. cbn [fst snd].
    destruct (IH (s ++ [kv]) (len + key_value_bytes_len kv) Hlen)
      as (taken & passed & rest & Hd & Hcase & Hlt).
    exists (kv :: taken), passed, rest. split; [cbn; by rewrite <- Hd|]. split.
    + destruct Hcase as [(-> & -> & ->)|(kv' & n & post' & -> & -> & HF & ->)].
      * left. by rewrite <- app_assoc.
      * right. exists kv', n, post'. rewrite <- app_assoc. split_and!; try done.
        cbn. unfold total_bytes in *. cbn. lia.
    + intros _ Hp. unfold total_bytes in *. cbn. destruct taken as [|kv' taken].
      * cbn in *. destruct post; [done|]. cbn in Hlen. lia.
      * specialize (Hlt ltac:(done) Hp). lia.
Qed.

(** After [i] rounds: the finished shards, the entry carried over to the next one, and
    what is left. *)
Record shard_inv (P F : nat) (data : list KeyValue) (c0 : Counters) (i : nat)
    (st : list KeyValue * list (Z * list KeyValue) * Counters) : Prop := {
  shi_done : ∃ D carry,
    st.1.2 = D ++ match P - i with
                  | 0 => []
                  | S n => (0%Z, carry) :: replicate n (0%Z, [])
                  end ∧
    length D = i ∧ D.*1 = seqZ (gen_buf c0) (Z.of_nat i) ∧
    length carry ≤ 1 ∧ (i = P → carry = []) ∧
    data = concat D.*2 ++ carry ++ st.1.1 ∧
    (carry = [] → st.1.1 = [] ∨ i = 0) ∧
    (i * F ≤ total_bytes (concat D.*2 ++ carry) ∨ st.1.1 = []) ∧
    (∀ s, s ∈ D.*2 → total_bytes (tail s) ≤ F);
  shi_end : i = P → 0 < P → st.1.1 = [];
  shi_counters : gen_buf st.2 = (gen_buf c0 + Z.of_nat i)%Z ∧ seq_count st.2 = seq_count c0;
}.

Lemma tail_bytes_le l : total_bytes (tail l) ≤ total_bytes l.
Proof. destruct l as [|kv l]; cbn; [done|]. unfold total_bytes. cbn. lia. Qed.

(** What a shard holds beyond its first entry. *)
Lemma shard_tail P F i carry taken done_bytes rest_bytes n :
  length carry ≤ 1 → P - i = S n →
  (carry = [] → taken = [] ∨ i = 0) →
  (i * F ≤ done_bytes + total_bytes carry ∨ taken = []) →
  done_bytes + total_bytes carry + total_bytes taken + rest_bytes ≤ P * F →
  (taken ≠ [] → n ≠ 0 → total_bytes taken < F) →
  total_bytes (tail (carry ++ taken)) ≤ F.
Proof.
  intros Hc Hn Hcarry Hb Htot Hlt.
  assert (total_bytes taken ≤ F) as Ht.
  { destruct taken as [|kv taken]; [cbn; lia|]. destruct n as [|n].
    - destruct Hb as [Hb|]; [|done]. assert (P = S i) as -> by lia. lia.
    - apply Nat.lt_le_incl. by apply Hlt. }
  destruct carry as [|kv [|]]; cbn [app tail]; [|done|cbn in Hc; lia].
  pose proof (tail_bytes_le taken). lia.
Qed.

Lemma shard_step_inv P F data c0 i st :
  i < P → total_bytes data ≤ P * F →
  shard_inv P F data c0 i st → shard_inv P F data c0 (S i) (shard_step P F st i).
Proof.
  intros Hi Htot. destruct st as [[rest slice] c].
  intros [(D & carry & Hslice & HD & Hg & Hc1 & _ & Hdata & Hcar & Hb & Htail) _ [Hgen Hseq]].
  cbn [fst snd] in *. destruct (P - i) as [|n] eqn:En; [lia|].
  assert (P - S i = n) as HPn by lia. subst i.
  unfold shard_step. cbn [gen_create]. rewrite Hslice.
  rewrite alter_middle. cbn [snd].
  destruct (shard_while_spec D (gen_buf c) carry (replicate n (0%Z, [])) P F 0 rest)
    as (taken & passed & rest' & Hrest & Hcase & Hlt); [rewrite length_replicate; lia|].
  assert (total_bytes (tail (carry ++ taken)) ≤ F) as Hnew.
  { rewrite Hdata, Hrest, !total_bytes_app in Htot. rewrite total_bytes_app in Hb.
    eapply (shard_tail P F (length D) carry taken (total_bytes (concat D.*2))
      (total_bytes passed + total_bytes rest') n); try done.
    - intros E. destruct (Hcar E) as [E'|E']; [left|right; lia].
      rewrite Hrest in E'. by apply app_nil in E' as [].
    - destruct Hb as [Hb|E']; [by left|right]. rewrite Hrest in E'. by apply app_nil in E' as [].
    - lia.
    - intros Ht Hn. apply Hlt; [done|]. by destruct n. }
  assert (∀ x, (D ++ [(gen_buf c, x)]).*1 = seqZ (gen_buf c0) (Z.of_nat (S (length D)))) as Hgens.
  { intros x. by rewrite fmap_app, Hg, seqZ_S, Hgen. }
  destruct Hcase as [(-> & -> & ->)|(kv & m & post & -> & Hpost & HF & ->)]; split;
    cbn [fst snd gen_buf seq_count]; [| | lia | | |lia].
  - exists (D ++ [(gen_buf c, carry ++ taken)]), []. rewrite Hgens, length_app, !fmap_app, concat_app.
    cbn [length fmap list_fmap snd concat]. rewrite !app_nil_r in *. split_and!; try done.
    + rewrite HPn, <- app_assoc. f_equal. by destruct n.
    + lia.
    + cbn. lia.
    + rewrite Hdata, Hrest. by rewrite app_assoc.
    + by left.
    + by right.
    + intros s [Hs|Hs]%elem_of_app; [by apply Htail|].
      apply list_elem_of_singleton in Hs as ->. done.
  - done.
  - destruct n as [|n]; [done|]. cbn [replicate] in Hpost. injection Hpost as <- <-.
    exists (D ++ [(gen_buf c, carry ++ taken)]), [kv]. rewrite Hgens, length_app, !fmap_app, concat_app.
    cbn [length fmap list_fmap snd fst concat app]. rewrite !app_nil_r in *. split_and!; try done.
    + by rewrite HPn, <- app_assoc.
    + lia.
    + lia.
    + rewrite Hdata, Hrest. by rewrite <- !app_assoc.
    + left. rewrite !total_bytes_app in *.
      destruct Hb as [Hb|E']; [lia|]. rewrite Hrest in E'. by destruct taken.
    + intros s [Hs|Hs]%elem_of_app; [by apply Htail|].
      apply list_elem_of_singleton in Hs as ->. done.
  - intros HP _. assert (n = 0) as -> by lia. done.
Qed.

Lemma concat_filter_nonempty (D : list (Z * list KeyValue)) :
  concat (filter (λ s : Z * list KeyValue, s.2 ≠ []) D).*2 = concat D.*2.
Proof.
  induction D as [|[g s] D IH]; [done|]. rewrite filter_cons. case_decide as Hs; cbn.
  - by rewrite IH.
  - cbn in Hs. rewrite IH. by rewrite Hs.
Qed.

Lemma seqZ_sorted a n : StronglySorted Z.lt (seqZ a n).
Proof.
  unfold seqZ. generalize (Z.to_nat n). clear n. intros n. generalize 0.
  induction n as [|n IH]; intros k; cbn; constructor; [apply IH|].
  apply Forall_fmap, Forall_forall. intros m [Hm _]%elem_of_seq. cbn. lia.
Qed.

Lemma fst_filter_sorted (R : Z → Z → Prop) (P : Z * list KeyValue → Prop) `{∀ x, Decision (P x)}
    (D : list (Z * list KeyValue)) :
  StronglySorted R D.*1 → StronglySorted R (filter P D).*1.
Proof.
  induction D as [|d D IH]; [done|]. rewrite fmap_cons. intros [Hs Hd]%StronglySorted_inv.
  rewrite filter_cons. case_decide; [|by apply IH]. rewrite fmap_cons. constructor; [by apply IH|].
  rewrite Forall_forall in Hd |- *. intros x (e & -> & [_ He]%list_elem_of_filter)%list_elem_of_fmap.
  apply Hd. by apply list_elem_of_fmap_2.
Qed.

Lemma data_sharding_spec data F c :
  0 < F → 0 < total_bytes data →
  ∃ shards c', data_sharding data F c = Ok (shards, c') ∧
    concat shards.*2 = data ∧
    (∀ s, s ∈ shards → s.2 ≠ [] ∧ total_bytes (tail s.2) ≤ F ∧
                       (gen_buf c ≤ s.1 < gen_buf c')%Z) ∧
    StronglySorted Z.lt shards.*1 ∧ seq_count c' = seq_count c ∧ (gen_buf c ≤ gen_buf c')%Z.
Proof.
  intros HF Htot. unfold data_sharding. rewrite decide_False by lia.
  set (P := (total_bytes data + F - 1) / F).
  assert (total_bytes data ≤ P * F ∧ 0 < P) as [HP HP0].
  { subst P. pose proof (Nat.div_mod_eq (total_bytes data + F - 1) F).
    pose proof (Nat.mod_upper_bound (total_bytes data + F - 1) F ltac:(lia)). nia. }
  assert (∀ n, n ≤ P → shard_inv P F data c n
    (fold_left (shard_step P F) (seq 0 n) (data, replicate P (0%Z, []), c))) as Hinv.
  { induction n as [|n IH]; intros Hn.
    - split; [|lia|cbn; lia]. exists [], []. cbn. rewrite Nat.sub_0_r. split_and!; try done.
      + by destruct P.
      + lia.
      + by right.
      + left. lia.
      + intros s Hs. by apply not_elem_of_nil in Hs.
    - rewrite seq_S, fold_left_app. cbn [fold_left Nat.add]. apply shard_step_inv; [lia|done|].
      apply IH. lia. }
  specialize (Hinv P ltac:(done)).
  destruct (fold_left _ _ _) as [[rest slice] c'].
  destruct Hinv as [(D & carry & Hs & HD & Hg & _ & Hcar & Hdata & _ & _ & Htail) Hend [Hc Hseq]].
  cbn [fst snd] in *. rewrite Nat.sub_diag, app_nil_r in Hs. subst slice.
  rewrite (Hend eq_refl HP0), (Hcar eq_refl), !app_nil_r in Hdata.
  eexists _, _. split; [done|]. split_and!.
  - by rewrite concat_filter_nonempty.
  - intros s [Hne Hin]%list_elem_of_filter. split_and!; try done.
    + apply Htail. by apply list_elem_of_fmap_2.
    + assert (s.1 ∈ D.*1) as Hg1 by (by apply list_elem_of_fmap_2).
      rewrite Hg in Hg1. apply elem_of_seqZ in Hg1. lia.
    + assert (s.1 ∈ D.*1) as Hg1 by (by apply list_elem_of_fmap_2).
      rewrite Hg in Hg1. apply elem_of_seqZ in Hg1. lia.
  - apply fst_filter_sorted. rewrite Hg. apply seqZ_sorted.
  - done.
  - lia.
Qed.

(** ** Merging *)

Lemma last_filter_app {A} (P : A → Prop) `{∀ x, Decision (P x)} (l1 l2 : list A) :
  last (filter P (l1 ++ l2))
  = match last (filter P l2) with Some x => Some x | None => last (filter P l1) end.
Proof. rewrite filter_app. apply last_app. Qed.

Lemma head_reverse_last {A} (l : list A) : head (reverse l) = last l.
Proof. by rewrite <- (reverse_involutive l) at 2; rewrite last_reverse. Qed.

(** The last entry of a key in a sequence of sorted lists. *)
Lemma last_concat (X : list (list KeyValue)) k :
  Forall (λ l, ksorted l) X →
  snd <$> last (filter (λ e : KeyValue, e.1 = k) (concat X)) = first_some (btree_get k) (reverse X).
Proof.
  induction X as [|x X IH] using rev_ind; intros Hs; [done|].
  apply Forall_app in Hs as [HX Hx]. rewrite Forall_singleton in Hx.
  rewrite concat_app, last_filter_app, reverse_app. cbn [concat reverse rev_append app first_some].
  rewrite app_nil_r, (btree_get_last x k Hx).
  by destruct (last (filter _ x)) as [e|]; [|apply IH].
Qed.

Section merge_laws.
Context {IT : Itertools} {ITL : ItertoolsLaws}.

(** The entries a merge keeps. *)
Definition merged (ls lls : list (list KeyValue)) : list KeyValue :=
  sorted_unstable_by_key fst (unique_by fst (reverse (concat
    ((filter (λ e : KeyValue, e.1 ∉ (concat ls).*1) <$> lls) ++ ls)))).

Lemma unique_sorted_get (l : list KeyValue) k :
  let d := sorted_unstable_by_key fst (unique_by fst l) in
  ksorted d ∧ btree_get k d = snd <$> head (filter (λ e : KeyValue, e.1 = k) l).
Proof.
  intros d. assert (ksorted d) as Hd by apply sorted_unstable_ksorted, unique_by_NoDup.
  split; [done|]. pose proof (unique_by_find fst l k) as Hu.
  assert (∀ v, (k, v) ∈ d ↔ (k, v) ∈ filter (λ e : KeyValue, e.1 = k) (unique_by fst l)) as He.
  { intros v. unfold d. rewrite sorted_unstable_by_key_perm, list_elem_of_filter. naive_solver. }
  destruct (head (filter _ l)) as [[k' v]|] eqn:Eh; cbn in Hu.
  - apply btree_get_Some; [done|]. apply He. rewrite Hu.
    assert ((k', v) ∈ filter (λ e : KeyValue, e.1 = k) l) as [Hk _]%list_elem_of_filter.
    { destruct (filter _ l); simplify_eq/=. by left. }
    cbn in Hk. subst. by left.
  - apply btree_get_None; [done|]. intros v Hv%He. rewrite Hu in Hv. by apply not_elem_of_nil in Hv.
Qed.

Section load_laws.
Context {T : Type} {TB : Table T}.

Lemma load_loop_yields fuel (it : table_iter_state) keep l acc :
  iter_yields it l → length l < fuel →
  load_loop fuel it keep acc = Ok (acc ++ filter (λ e : KeyValue, keep e.1 = true) l).
Proof.
  revert it fuel acc. induction l as [|e l IH]; intros it [|fuel] acc Hy Hf; cbn in Hf; try lia;
    cbn [load_loop iter_yields] in *.
  - destruct Hy as [it' ->]. cbn. by rewrite app_nil_r.
  - destruct Hy as (it' & -> & Hy). cbn [res_bind]. rewrite IH by (done || lia).
    rewrite filter_cons. destruct (keep e.1); cbn; [by rewrite <- app_assoc|done].
Qed.

Lemma table_load_data_spec (t : T) l keep :
  table_holds t l → table_load_data t keep = Ok (filter (λ e : KeyValue, keep e.1 = true) l).
Proof.
  intros [_ _ (it & Hit & Hy) Hlen]. unfold table_load_data. rewrite Hit. cbn [res_bind].
  by rewrite (load_loop_yields _ it keep l) by (done || lia).
Qed.

(** The tables' iterators feed the merge. *)
Lemma data_merge_and_sharding_spec (tl tll : list T) ls lls F c :
  Forall2 table_holds (sorted_unstable_by_key table_gen tl) ls → Forall2 table_holds tll lls →
  data_merge_and_sharding tl tll F c = data_sharding (merged ls lls) F c.
Proof.
  intros Hl Hll. unfold data_merge_and_sharding.
  assert (res_mapM (λ t, table_load_data t (λ _, true)) (sorted_unstable_by_key table_gen tl) = Ok ls)
    as ->.
  { apply res_mapM_Forall2. eapply Forall2_impl; [exact Hl|]. intros t l Ht. cbn beta.
    rewrite (table_load_data_spec t l) by done. by rewrite filter_all. }
  cbn [res_bind].
  assert (res_mapM (λ t, table_load_data t (λ key, bool_decide (key ∉ (concat ls).*1))) tll
    = Ok (filter (λ e : KeyValue, e.1 ∉ (concat ls).*1) <$> lls)) as ->; [|done].
  apply res_mapM_Forall2. apply Forall2_fmap_r. eapply Forall2_impl; [exact Hll|].
  intros t l Ht. cbn beta. rewrite (table_load_data_spec t l) by done. f_equal. apply filter_iff_in.
  intros e _. by rewrite bool_decide_eq_true.
Qed.
End load_laws.

(** The newest table of the upper level wins, then those of the lower level. *)
Lemma merged_spec ls lls k :
  Forall (λ l, ksorted l) ls → Forall (λ l, ksorted l) lls →
  ksorted (merged ls lls) ∧
  btree_get k (merged ls lls) = first_some (btree_get k) (reverse ls ++ reverse lls).
Proof.
  intros Hls Hlls. unfold merged.
  match goal with |- context [unique_by fst (reverse ?c)] => set (cc := c) end.
  destruct (unique_sorted_get (reverse cc) k) as [Hs Hg]. split; [done|]. rewrite Hg.
  rewrite filter_reverse, head_reverse_last. subst cc. rewrite last_concat.
  2: { apply Forall_app. split; [|done]. apply Forall_fmap. eapply Forall_impl; [done|].
       intros l Hl. by apply ksorted_filter. }
  rewrite reverse_app, !first_some_app.
  destruct (first_some (btree_get k) (reverse ls)) as [v|] eqn:E; [done|].
  rewrite <- fmap_reverse, first_some_fmap. apply first_some_ext.
  intros l Hl. rewrite elem_of_reverse in Hl. rewrite Forall_forall in Hlls.
  pose proof (btree_get_filter (λ x, x ∉ (concat ls).*1) l k (Hlls l Hl)) as Hf.
  etransitivity; [exact Hf|]. rewrite decide_True; [done|].
  intros ([k' v] & Hk & (x & Hx & Hin)%elem_of_concat)%list_elem_of_fmap. cbn in Hk. subst k'.
  rewrite first_some_None_iff in E. specialize (E x ltac:(by apply elem_of_reverse)).
  rewrite Forall_forall in Hls. rewrite btree_get_None in E by (by apply Hls). by apply (E v).
Qed.
End merge_laws.

(** ** Reading before and after *)

Section reorder.
Context {A B : Type} (f : A → option B).

(** Elements of [P] can be moved behind the others, when none of them hides a later
    element outside [P]. *)
Lemma first_some_split (P : A → Prop) `{∀ x, Decision (P x)} l :
  StronglySorted (λ x y, P x → ¬ P y → f x = None ∨ f y = None) l →
  first_some f l
  = match first_some f (filter (λ x, ¬ P x) l) with
    | Some y => Some y
    | None => first_some f (filter P l)
    end.
Proof.
  induction 1 as [|x l Hl IH Hx]; [done|]. rewrite Forall_forall in Hx. cbn [first_some].
  rewrite IH. destruct (decide (P x)) as [HP|HP].
  - rewrite (filter_cons_False (λ x, ¬ P x)), (filter_cons_True P) by naive_solver.
    cbn [first_some]. destruct (f x) as [y|] eqn:E; [|done].
    rewrite first_some_None; [done|].
    intros z [Hz Hin]%list_elem_of_filter. destruct (Hx z Hin HP Hz); congruence.
  - rewrite (filter_cons_True (λ x, ¬ P x)), (filter_cons_False P) by done.
    cbn [first_some]. by destruct (f x).
Qed.

(** When at most one element answers, the order does not matter. *)
Definition one_answer (l : list A) : Prop :=
  ∀ x y, x ∈ l → y ∈ l → f x ≠ None → f y ≠ None → x = y.

Lemma first_some_one l x : one_answer l → x ∈ l → f x ≠ None → first_some f l = f x.
Proof.
  intros H1 Hx Hf. apply first_some_unique; [done|]. intros y Hy.
  destruct (f y) eqn:E; [left|by right]. apply H1; [done..|by rewrite E|done].
Qed.

Lemma first_some_perm l l' : one_answer l → (∀ x, x ∈ l ↔ x ∈ l') → first_some f l = first_some f l'.
Proof.
  intros H1 He. destruct (first_some f l') as [y|] eqn:E.
  - apply first_some_elem in E as (x & Hx & Hy). rewrite <- Hy.
    apply first_some_one; [done|by apply He|congruence].
  - rewrite first_some_None_iff in E. apply first_some_None. intros x Hx. by apply E, He.
Qed.
End reorder.

(** The lower level after a compaction: the tables before, the new ones, those after. *)
Lemma first_some_replace {A B} (f : A → option B) (order_rest order_sel sel pre new post all_ll : list A)
    order_all (o : option B) :
  first_some f order_all
  = match first_some f order_rest with
    | Some y => Some y
    | None => first_some f order_sel
    end →
  first_some f all_ll
  = match first_some f sel with Some y => Some y | None => first_some f (pre ++ post) end →
  o = match first_some f order_sel with Some y => Some y | None => first_some f sel end →
  first_some f new = o →
  (o ≠ None → first_some f (pre ++ post) = None) →
  first_some f (order_rest ++ pre ++ new ++ post) = first_some f (order_all ++ all_ll).
Proof.
  intros HA HB Ho Hn Hone. rewrite !first_some_app, HA, HB, Hn in *.
  destruct (first_some f order_rest); [done|].
  destruct (first_some f order_sel) as [y|].
  - subst o. specialize (Hone ltac:(done)). by destruct (first_some f pre).
  - subst o. destruct (first_some f sel) as [y|].
    + specialize (Hone ltac:(done)). by destruct (first_some f pre).
    + by destruct (first_some f pre).
Qed.

(** ** Selecting tables *)

Lemma scope_meet_false s t :
  scope_wf s → scope_wf t → scope_meet s t = false → scope_before s t ∨ scope_before t s.
Proof.
  intros Hs Ht Hm. unfold scope_before.
  destruct (le_b (sc_start s) (sc_end t)) eqn:E1; [|right; by apply le_b_false].
  destruct (le_b (sc_start t) (sc_end s)) eqn:E2; [|left; by apply le_b_false].
  rewrite (proj2 (meet_iff s t Hs Ht) (conj E1 E2)) in Hm. done.
Qed.

Lemma scope_before_meet s t :
  scope_wf s → scope_wf t → scope_before s t → scope_meet s t = false ∧ scope_meet t s = false.
Proof.
  unfold scope_before. intros Hs Ht Hb. apply le_b_false in Hb.
  split; apply not_true_iff_false; rewrite meet_iff by done; intros [H1 H2]; congruence.
Qed.

Lemma scope_before_trans a b c :
  scope_wf b → scope_before a b → scope_before b c → scope_before a c.
Proof.
  unfold scope_before, scope_wf. intros Hb H1 H2.
  eapply cmp_lt_trans; [done|]. by eapply cmp_le_lt_trans.
Qed.

(** A scope cuts a sorted level in three: what lies before it, what it meets, what lies
    after it. *)
Lemma level_split B f :
  level_sorted B → scope_wf f →
  ∃ pre mid post, B = pre ++ mid ++ post ∧
    (∀ s, s ∈ pre → scope_before s f) ∧ (∀ s, s ∈ mid → scope_meet s f = true) ∧
    (∀ s, s ∈ post → scope_before f s).
Proof.
  intros [Hwf Hs] Hf. induction Hs as [|s B HB IH Hb].
  { exists [], [], []. split_and!; [done|set_solver..]. }
  apply Forall_cons in Hwf as [Hws Hwf]. rewrite Forall_forall in Hb.
  destruct (IH Hwf) as (pre & mid & post & -> & Hpre & Hmid & Hpost).
  destruct (scope_meet s f) eqn:Em.
  - assert (pre = []) as ->.
    { destruct pre as [|r pre]; [done|]. exfalso.
      specialize (Hb r ltac:(by left)). specialize (Hpre r ltac:(by left)).
      assert (scope_wf r) as Hr by (rewrite Forall_forall in Hwf; apply Hwf; by left).
      pose proof (scope_before_trans s r f Hr Hb Hpre) as Hsf.
      destruct (scope_before_meet s f Hws Hf Hsf). congruence. }
    exists [], (s :: mid), post. split_and!; [done|set_solver| |done].
    intros r [->|Hr]%elem_of_cons; [done|by apply Hmid].
  - destruct (scope_meet_false s f Hws Hf Em) as [Hsf|Hfs].
    + exists (s :: pre), mid, post. split_and!; [done| |done..].
      intros r [->|Hr]%elem_of_cons; [done|by apply Hpre].
    + exists [], [], (s :: pre ++ mid ++ post). split_and!; [done|set_solver..|].
      intros r [->|Hr]%elem_of_cons; [done|].
      eapply (scope_before_trans f s r); [done..|by apply Hb].
Qed.

(** The selection of [tables_by_scopes]. *)
Section selection.
Context {T : Type} {TB : Table T} (get : Z → option T) (contents : Z → list KeyValue).

(** A table with its scope. *)
Definition table_of (s : Scope) (t : T) : Prop :=
  get (sc_gen s) = Some t ∧ table_holds t (contents (sc_gen s)) ∧ table_gen t = sc_gen s.

Lemma meeting_tables_loaded target l :
  (∀ s, s ∈ l → scope_loaded get contents s) →
  ∃ ts, Forall2 table_of (filter (λ s, scope_meet s target = true) l) ts ∧
    (meeting_tables get target l).*2.*1 = ts ∧
    (meeting_tables get target l).*2.*2 = filter (λ s, scope_meet s target = true) l ∧
    (meeting_tables get target l).*1
    = (filter (λ p : nat * Scope, scope_meet p.2 target = true) (enumerate l)).*1.
Proof.
  unfold meeting_tables, enumerate. generalize 0.
  induction l as [|s l IH]; intros n Hl; [exists []; by split_and!; [constructor|..]|].
  destruct (IH (S n)) as (ts & Hts & E1 & E2 & E3); [set_solver|].
  cbn [enum_from]. rewrite !filter_cons. cbn [snd]. case_decide as Hm; [|by exists ts].
  destruct (loaded_table _ _ _ (Hl s ltac:(by left))) as (t & Hget & Hh & Hg).
  exists (t :: ts). cbn [omap list_omap fst snd]. rewrite Hget. cbn [fmap option_fmap option_map].
  split_and!.
  - by constructor.
  - rewrite !fmap_cons. cbn. by f_equal.
  - rewrite !fmap_cons. cbn. by f_equal.
  - rewrite !fmap_cons. cbn. by f_equal.
Qed.

Lemma filter_meet_split f pre mid post :
  (∀ s, s ∈ pre → scope_meet s f = false) → (∀ s, s ∈ mid → scope_meet s f = true) →
  (∀ s, s ∈ post → scope_meet s f = false) →
  filter (λ s, scope_meet s f = true) (pre ++ mid ++ post) = mid.
Proof.
  intros H1 H2 H3. rewrite !filter_app, (filter_none _ pre), (filter_all _ mid), (filter_none _ post).
  - by rewrite app_nil_r.
  - intros s Hs. by rewrite (H3 s Hs).
  - done.
  - intros s Hs. by rewrite (H1 s Hs).
Qed.

Lemma first_index_split f pre mid post :
  (∀ s, s ∈ pre → scope_meet s f = false) → (∀ s, s ∈ mid → scope_meet s f = true) → mid ≠ [] →
  head (filter (λ p : nat * Scope, scope_meet p.2 f = true) (enumerate (pre ++ mid ++ post))).*1
  = Some (length pre).
Proof.
  intros H1 H2 Hne. unfold enumerate. rewrite enum_from_app, filter_app, filter_none.
  2: { intros [i s] [_ Hs]%enum_from_elem. cbn. rewrite (H1 s); [done|].
       by eapply list_elem_of_lookup_2. }
  destruct mid as [|s mid]; [done|]. cbn [app enum_from]. rewrite filter_cons_True; [done|].
  apply H2. by left.
Qed.
End selection.

(** ** Creating tables *)

Section creation.
Context {SM : SkipMapOps InternalKey (option bytes)}.
Context {T : Type} {TB : Table T} {BLD : TableBuilder T} {BLDL : TableBuilderLaws T}.

(** What [create] leaves for a shard. *)
Record new_table (tables : gmap Z T) (cells : nat) (shard : Z * list KeyValue)
    (created : Scope * TableMeta) : Prop := {
  new_gen : sc_gen created.1 = shard.1;
  new_wf : scope_wf created.1;
  new_within : ∀ e, e ∈ shard.2 → meet_by_key created.1 e.1 = true;
  new_start : sc_start created.1 ∈ shard.2.*1;
  new_end : sc_end created.1 ∈ shard.2.*1;
  new_cell : ∀ loc, sc_allowed_seeks created.1 = Some loc → loc < cells;
  new_loaded : ∃ t, tables !! shard.1 = Some t ∧ table_holds t shard.2 ∧
                    table_gen t = shard.1 ∧ created.2 = table_meta_from t;
}.

Lemma create_tables_spec (st : Store T) shards level tp :
  (∀ s, s ∈ shards → ksorted s.2 ∧ s.2 ≠ []) → NoDup shards.*1 →
  Forall (λ s : Z * list KeyValue, buildable tp s.1 s.2 level) shards →
  ∃ created st', create_tables st shards level tp = Ok (created, st') ∧
    Forall2 (new_table (so_tables st') (length (so_seeks st'))) shards created ∧
    (∀ g, g ∉ shards.*1 → so_tables st' !! g = so_tables st !! g) ∧
    so_seeks st' = so_seeks st ++ replicate (length shards) 0%Z ∧
    so_status st' = so_status st ∧ so_counters st' = so_counters st ∧
    so_mem_table st' = so_mem_table st.
Proof.
  revert st. induction shards as [|[g data] shards IH]; intros st Hok Hnd Hbuild.
  { exists [], st. cbn. rewrite app_nil_r. by split_and!. }
  apply Forall_cons in Hbuild as [Hb Hbuild].
  rewrite fmap_cons, NoDup_cons in Hnd. destruct Hnd as [Hg Hnd]. cbn [fst] in Hg.
  destruct (Hok (g, data) ltac:(by left)) as [Hs Hne]. cbn [snd] in *.
  destruct (from_sorted_vec_data_spec g data (so_seeks st) Hs Hne)
    as (sc & Hsc & Hscg & Hcell & Hwf & Hin & Hst & Hend).
  destruct (build_table_holds tp g data level Hs Hne Hb) as (t & Ht & Hh & Htg).
  cbn [create_tables]. unfold loader_create. rewrite Hsc. cbn [res_bind]. rewrite Ht. cbn [res_bind].
  match goal with |- context [create_tables ?s shards _ _] => destruct (IH s) as
    (created & st' & Hc & Hall & Hkeep & Hseeks & Hstat & Hcnt & Hmem) end.
  { intros s Hs'. apply Hok. by right. }
  { done. }
  { done. }
  cbn [so_tables so_seeks so_status so_counters so_mem_table] in *.
  rewrite Hc. cbn [res_bind]. eexists _, st'. split; [done|]. split_and!; try done.
  - constructor; [|done]. split; cbn [fst snd]; try done.
    + intros loc Hloc. rewrite Hcell in Hloc. injection Hloc as <-.
      rewrite Hseeks, !length_app. cbn. lia.
    + exists t. rewrite Hkeep by done. by rewrite lookup_insert_eq.
  - intros g' [Hne' Hg']%not_elem_of_cons. rewrite Hkeep by done. by rewrite lookup_insert_ne.
  - rewrite Hseeks, <- app_assoc. done.
Qed.

Lemma new_tables_gens tables cells shards created :
  Forall2 (new_table tables cells) shards created → sc_gen <$> created.*1 = shards.*1.
Proof.
  induction 1 as [|sh cr shs crs Hn _ IH]; [done|]. rewrite !fmap_cons, IH.
  by rewrite (new_gen _ _ _ _ Hn).
Qed.

(** The scopes of consecutive shards of sorted data are in order. *)
Lemma new_tables_sorted tables cells shards created :
  Forall2 (new_table tables cells) shards created → ksorted (concat shards.*2) →
  level_sorted created.*1.
Proof.
  intros Hall Hs. split.
  - apply Forall_fmap. clear Hs. induction Hall as [|s c shards created Hn Hall IH]; constructor; [|done].
    by apply new_wf in Hn.
  - induction Hall as [|s c shards created Hn Hall IH]; [constructor|].
    rewrite fmap_cons in Hs. cbn [concat] in Hs. apply ksorted_app in Hs as (_ & Hs & Hlt).
    cbn. constructor; [by apply IH|]. apply Forall_fmap, Forall_forall. intros c' Hc'.
    apply list_elem_of_lookup in Hc' as [i Hi].
    destruct (Forall2_lookup_r _ _ _ _ _ Hall Hi) as (s' & Hs' & Hn').
    pose proof (new_end _ _ _ _ Hn) as (e & He & Hein)%list_elem_of_fmap.
    pose proof (new_start _ _ _ _ Hn') as (e' & He' & Hein')%list_elem_of_fmap.
    unfold scope_before, compose. rewrite He, He'. apply (Hlt e e'); [done|].
    apply elem_of_concat. exists s'.2. split; [|done].
    apply list_elem_of_fmap_2. by eapply list_elem_of_lookup_2.
Qed.

(** All keys of the new scopes lie between keys of the data. *)
Lemma new_tables_bounds tables cells shards created c :
  Forall2 (new_table tables cells) shards created → c ∈ created.*1 →
  ∃ e e', e ∈ concat shards.*2 ∧ e' ∈ concat shards.*2 ∧ sc_start c = e.1 ∧ sc_end c = e'.1.
Proof.
  intros Hall ((c0 & m) & -> & (i & Hi)%list_elem_of_lookup)%list_elem_of_fmap.
  destruct (Forall2_lookup_r _ _ _ _ _ Hall Hi) as (s & Hs & Hn).
  pose proof (new_start _ _ _ _ Hn) as (e & He & Hein)%list_elem_of_fmap.
  pose proof (new_end _ _ _ _ Hn) as (e' & He' & Hein')%list_elem_of_fmap.
  assert (s.2 ∈ shards.*2) as Hin by (apply list_elem_of_fmap_2; by eapply list_elem_of_lookup_2).
  exists e, e'. split_and!; [apply elem_of_concat; eauto..|done|done].
Qed.
End creation.

(** ** Properties of sharding *)

(** Sorted data of positive size is cut, at positive file size, into non-empty
    shards that put together give the data back, with fresh generations in ascending
    order; beyond its first entry no shard has more bytes than the file size. *)
Theorem data_sharding_correct data file_size c :
  0 < file_size → 0 < total_bytes data →
  ∃ shards c', data_sharding data file_size c = Ok (shards, c') ∧
    concat shards.*2 = data ∧
    (∀ s, s ∈ shards → s.2 ≠ [] ∧ total_bytes (tail s.2) ≤ file_size ∧
                       (gen_buf c ≤ s.1 < gen_buf c')%Z) ∧
    StronglySorted Z.lt shards.*1.
Proof.
  intros HF Htot.
  destruct (data_sharding_spec data file_size c HF Htot) as (sh & c' & H1 & H2 & H3 & H4 & _).
  exists sh, c'. by split_and!.
Qed.

Lemma data_sharding_correct_witness :
  ∃ shards c',
    data_sharding [([x01], Some [x02; x03]); ([x02], None); ([x04], Some [x05])] 3 (mkCounters 1 60)
    = Ok (shards, c') ∧
    concat shards.*2 = [([x01], Some [x02; x03]); ([x02], None); ([x04], Some [x05])] ∧
    (∀ s, s ∈ shards → s.2 ≠ [] ∧ total_bytes (tail s.2) ≤ 3 ∧ (60 ≤ s.1 < gen_buf c')%Z) ∧
    StronglySorted Z.lt shards.*1.
Proof. apply data_sharding_correct; vm_compute; lia. Defined.

(** An entry whose key and value are both empty is dropped when it is compacted
    alone. *)
Theorem data_sharding_empty_entry v c file_size :
  0 < file_size → default [] v = [] →
  data_sharding [([], v)] file_size c = Ok ([], c).
Proof.
  intros HF Hv. unfold data_sharding. rewrite decide_False by lia.
  assert (total_bytes [([], v)] = 0) as ->.
  { unfold total_bytes. cbn. unfold key_value_bytes_len. cbn. destruct v; cbn in *; by subst. }
  rewrite Nat.div_small by lia. done.
Qed.

Lemma data_sharding_empty_entry_witness :
  data_sharding [([], Some [])] 64 (mkCounters 1 60) = Ok ([], mkCounters 1 60).
Proof. apply data_sharding_empty_entry; [vm_compute; lia|reflexivity]. Defined.
