(* ===== verification/Loader.v ===== *)
(** * The table loader (src/kernel/lsm/table/loader.rs)

    The tables of a store behind an LRU cache.  A table that is not in the cache is read
    from its file; when that fails, it is a table of level 0 that was kept in memory only
    and is rebuilt from the write-ahead log of its generation. *)

From S2P Require Import Prelude Std Crates Block Iterator Io Log Config Bloom Lru MemTable Scope BTreeTable SSTable SSTableIter Version Compactor.
From Stdlib Require Import ZArith Lia Strings.Byte.
From stdpp Require Import base list gmap countable.

Set Default Goal Selector "!".
Open Scope nat_scope.

(** ** Definitions *)

(** [Box<dyn Table>] *)
Abbreviation BoxTable := (SSTable + BTreeTable)%type.

Section loader.
Context `{IE : IntegerEncoding} {CRC : Crc32} {LZ : Lz4} {IT : Itertools}.
Context {DH : DefaultHasher} {FL : F64}.

#[global] Instance box_table : Table BoxTable := {
  table_iter_state := (SSTableIter + BTreeTableIter)%type;
  table_query t key := match t with inl s => table_query s key | inr b => table_query b key end;
  table_len t := match t with inl s => table_len s | inr b => table_len b end;
  table_size_of_disk t := match t with inl s => table_size_of_disk s | inr b => table_size_of_disk b end;
  table_gen t := match t with inl s => table_gen s | inr b => table_gen b end;
  table_level t := match t with inl s => table_level s | inr b => table_level b end;
  table_iter t := match t with
                  | inl s => let? i := table_iter s in Ok (inl i)
                  | inr b => let? i := table_iter b in Ok (inr i)
                  end;
}.

(** The directories of the table files and of the write-ahead logs; [tl_hash] is the
    cache's hasher.  The cache of blocks is shared by the tables, not used here. *)
Record TableLoader := mkTableLoader {
  tl_inner : ShardingLruCache Z BoxTable;
  tl_factory : Dir;
  tl_config : Config;
  tl_wal : Dir;
  tl_hash : Z → N;
}.

Definition CACHE_SHARDING : nat := 16.

(** Both caches are refused when their size is not a multiple of the number of shards. *)
Definition table_loader_new (config : Config) (factory wal : Dir) (hash : Z → N)
    : KernelResult TableLoader :=
  let? inner := sharding_new (cfg_table_cache_size config) CACHE_SHARDING in
  let? _ := (sharding_new (cfg_block_cache_size config) CACHE_SHARDING
             : KernelResult (ShardingLruCache Z BlockType)) in
  Ok {| tl_inner := inner; tl_factory := factory; tl_config := config; tl_wal := wal; tl_hash := hash |}.

Definition set_loader (l : TableLoader) (inner : ShardingLruCache Z BoxTable) (factory wal : Dir)
    : TableLoader :=
  {| tl_inner := inner; tl_factory := factory; tl_config := tl_config l; tl_wal := wal; tl_hash := tl_hash l |}.

(** [None] from an operation of the cache is a use of a dangling pointer. *)
Definition create_ss_table (gen : Z) (reload_data : list KeyValue) (level : nat) (seeds : Z * Z)
    (l : TableLoader) : KernelResult (SSTable * Dir) :=
  sst_new (tl_factory l) (tl_config l) gen reload_data level IoDirect seeds.

Definition table_loader_create (gen : Z) (vec_data : list KeyValue) (level : nat) (table_type : TableType)
    (seeds : Z * Z) (h : Seeks) (l : TableLoader)
    : option (KernelResult (Scope * TableMeta * Seeks * TableLoader)) :=
  match (let? (scope, h') := from_sorted_vec_data gen vec_data h in
         let? (table, factory) :=
           match table_type with
           | SortedString =>
               let? (t, d) := create_ss_table gen vec_data level seeds l in Ok (inl t : BoxTable, d)
           | BTree => Ok (inr (btree_table_new level gen vec_data), tl_factory l)
           end in
         Ok (scope, h', table, factory)) with
  | Ok (scope, h', table, factory) =>
      match sharding_put (tl_hash l) gen table (tl_inner l) with
      | Some r =>
          Some (let? (_, inner) := r in
                Ok (scope, table_meta_from table, h', set_loader l inner factory (tl_wal l)))
      | None => None
      end
  | Err e => Some (Err e)
  | Panic => Some Panic
  end.

(** What the closure does with a record of the log. *)
Definition reload_record (bs : bytes) (records : list KeyValue) : KernelResult (list KeyValue) :=
  let? entries := batch_decode (T:=Value) bs in
  Ok (records ++ ((λ ie : nat * Entry Value, (e_key ie.2, v_bytes (e_item ie.2))) <$> entries)).

(** The closure of [get]; [None]: reading the log does not return. *)
Definition load_table (factory wal : Dir) (gen : Z) : option (KernelResult BoxTable) :=
  let '(d, reader) := io_reader factory gen IoDirect in
  match sst_load_from_file d reader with
  | Ok ss_table => Some (Ok (inl ss_table))
  | Err _ =>
      match log_load (one_chunk (file_content wal gen)) reload_record [] with
      | Some r => Some (let? reload_data := r in Ok (inr (btree_table_new LEVEL_0 gen reload_data)))
      | None => None
      end
  | Panic => Some Panic
  end.

Definition is_cached (gen : Z) (l : TableLoader) : bool :=
  match sharding_get (tl_hash l) gen (tl_inner l) with Some (Ok (Some _, _)) => true | _ => false end.

(** [get]: the closure runs on a miss only; opening the reader creates the file. *)
Definition table_loader_get (gen : Z) (l : TableLoader) : option (KernelResult (option BoxTable) * TableLoader) :=
  let cached := is_cached gen l in
  match (if cached then Some Panic else load_table (tl_factory l) (tl_wal l) gen) with
  | None => None
  | Some loaded =>
      let factory := if cached then tl_factory l else open_file (tl_factory l) gen in
      match sharding_get_or_insert (tl_hash l) gen (λ _, loaded) (tl_inner l) with
      | Some (Ok (r, inner)) =>
          Some (match r with Ok t => Ok (Some t) | Err _ => Ok None | Panic => Panic end,
                set_loader l inner factory (tl_wal l))
      | Some (Err _) => Some (Ok None, l)
      | Some Panic => Some (Panic, l)
      | None => None
      end
  end.

Definition table_loader_remove (gen : Z) (l : TableLoader)
    : option (KernelResult (option BoxTable * TableLoader)) :=
  match sharding_remove (tl_hash l) gen (tl_inner l) with
  | Some r => Some (let? (o, inner) := r in Ok (o, set_loader l inner (tl_factory l) (tl_wal l)))
  | None => None
  end.

(** [clean]: what is done before the first error stays done. *)
Definition table_loader_clean (gen : Z) (l : TableLoader) : option (KernelResult unit * TableLoader) :=
  match table_loader_remove gen l with
  | Some (Ok (_, l1)) =>
      match io_clean (tl_factory l1) gen with
      | Ok d =>
          let l2 := set_loader l1 (tl_inner l1) d (tl_wal l1) in
          match io_clean (tl_wal l2) gen with
          | Ok w => Some (Ok (), set_loader l2 (tl_inner l2) d w)
          | Err e => Some (Err e, l2)
          | Panic => Some (Panic, l2)
          end
      | Err e => Some (Err e, l1)
      | Panic => Some (Panic, l1)
      end
  | Some (Err e) => Some (Err e, l)
  | Some Panic => Some (Panic, l)
  | None => None
  end.

Definition table_loader_is_empty (l : TableLoader) : bool := sharding_is_empty (tl_inner l).
Definition is_table_file_exist (gen : Z) (l : TableLoader) : bool := io_exists (tl_factory l) gen.
End loader.

(** ** What the loader serves *)

(** A table that answers and iterates as the data [l].  (The length of a table rebuilt
    from a log counts the overwritten entries too.) *)
Record table_serves {T} `{Table T} (t : T) (l : list KeyValue) : Prop := {
  serves_sorted : ksorted l;
  serves_query k : table_query t k = Ok ((λ v, (k, v)) <$> btree_get k l);
  serves_iter : ∃ it, table_iter t = Ok it ∧ iter_yields it l;
}.

Lemma holds_serves {T} `{Table T} (t : T) l : table_holds t l → table_serves t l.
Proof. by intros [? ? ? _]. Qed.

Section loader_laws.
Context `{IE : IntegerEncoding} {CRC : Crc32} {LZ : Lz4} {IT : Itertools}.
Context {DH : DefaultHasher} {FL : F64}.
Context {IEL : IntegerEncodingLaws} {CRCL : Crc32Laws} {LZL : Lz4Laws} {ITL : ItertoolsLaws}.
Context {FLL : F64Laws}.

Lemma serves_inl (t : SSTable) l : table_serves t l → table_serves (inl t : BoxTable) l.
Proof.
  intros [Hs Hq (it & Hit & Hy)]. split; [done|exact Hq|]. exists (inl it). cbn [table_iter box_table].
  rewrite Hit. split; [done|]. by apply (sum_iter_yields_l (Jt:=BTreeTableIter)).
Qed.

Lemma serves_inr (t : BTreeTable) l : table_serves t l → table_serves (inr t : BoxTable) l.
Proof.
  intros [Hs Hq (it & Hit & Hy)]. split; [done|exact Hq|]. exists (inr it). cbn [table_iter box_table].
  rewrite Hit. split; [done|]. by apply (sum_iter_yields_r (It:=SSTableIter)).
Qed.

(** A table that is rebuilt when it is not cached, whatever the other files are. *)
Definition reloadable (factory wal : Dir) (gen : Z) (l : list KeyValue) : Prop :=
  ∀ d, file_content d gen = file_content factory gen →
  ∃ t, load_table d wal gen = Some (Ok t) ∧ table_serves t l.

Lemma open_file_content d gen g : file_content (open_file d gen) g = file_content d g.
Proof.
  unfold open_file. destruct (decide (g = gen)) as [->|Hne]; [apply file_content_insert|].
  by apply file_content_insert_ne.
Qed.

(** *** Table files *)

(** The table read back from a file with the bytes of the one that was written. *)
Lemma sst_load_back wal (t : SSTable) d' config gen vec_data level chunks filter d :
  sst_data_ok config vec_data → sst_written config t d' gen vec_data level chunks filter →
  bloom_wf filter → (∀ k, k ∈ vec_data.*1 → marked filter k) →
  (0 ≤ hash_fn_count filter < 2 ^ 64)%Z → (0 ≤ seed (hashers filter).1 < 2 ^ 64)%Z →
  (0 ≤ seed (hashers filter).2 < 2 ^ 64)%Z →
  fits_u32 (2 * length (file_content d' gen)) → sst_clear t →
  2 ≤ cfg_data_restart_interval config → 2 ≤ cfg_index_restart_interval config →
  file_content d gen = file_content d' gen →
  ∃ t', load_table d wal gen = Some (Ok (inl t')) ∧ table_holds t' vec_data ∧ st_gen t' = gen ∧
    st_footer t' = st_footer t ∧ sst_len t' = length vec_data.
Proof.
  intros Hok Hw Hwf Hmark Hc H1 H2 Hfit Hcl Hdi Hii Hd.
  set (d2 := open_file d gen).
  assert (file_content d2 gen = file_content d' gen) as Hd2 by (unfold d2; by rewrite open_file_content).
  set (t2 := {| st_footer := st_footer t; st_reader := st_reader t; st_gen := st_gen t; st_meta := st_meta t;
                st_dir := d2 |}).
  assert (sst_written config t2 d2 gen vec_data level chunks filter) as Hw2.
  { destruct Hw as [? ? ? ? ? (? & ? & ?)]. split; try done. by rewrite Hd2. }
  destruct (sst_reload config t2 d2 gen vec_data level chunks filter Hok Hw2 Hwf) with
    (r := {| rd_gen := gen; rd_type := IoDirect; rd_pos := 0 |})
    as (t' & Hload & Hft & Hdir & Hrg & Hg & Hdi' & Hii' & Hlen & Hfil); [by rewrite Hd2|done|done|].
  exists t'. unfold load_table. cbn [io_reader]. fold d2. rewrite Hload. split_and!; try done.
  destruct (sw_gen _ _ _ _ _ _ _ _ Hw) as (_ & Hrg0 & Hdir0).
  apply (sst_table_holds config t' vec_data chunks); try done.
  - apply (written_built config t2 d2 gen vec_data level chunks filter); try done. by rewrite Hd2.
  - apply (sst_clear_same t); [|done]. apply sst_load_same.
    + done.
    + by rewrite Hdir, Hrg, Hdir0, Hrg0.
    + by rewrite Hdi', (sw_meta _ _ _ _ _ _ _ _ Hw).
    + by rewrite Hii', (sw_meta _ _ _ _ _ _ _ _ Hw).
Qed.

Lemma sst_reloadable wal (t : SSTable) d' config gen vec_data level chunks filter :
  sst_data_ok config vec_data → sst_written config t d' gen vec_data level chunks filter →
  bloom_wf filter → (∀ k, k ∈ vec_data.*1 → marked filter k) →
  (0 ≤ hash_fn_count filter < 2 ^ 64)%Z → (0 ≤ seed (hashers filter).1 < 2 ^ 64)%Z →
  (0 ≤ seed (hashers filter).2 < 2 ^ 64)%Z →
  fits_u32 (2 * length (file_content d' gen)) → sst_clear t →
  2 ≤ cfg_data_restart_interval config → 2 ≤ cfg_index_restart_interval config →
  reloadable d' wal gen vec_data.
Proof.
  intros Hok Hw Hwf Hmark Hc H1 H2 Hfit Hcl Hdi Hii d Hd.
  edestruct (sst_load_back wal t d' config gen vec_data level chunks filter d) as (t' & Hl & Hh & _); try done.
  exists (inl t'). split; [done|]. by apply serves_inl, holds_serves.
Qed.

(** *** Write-ahead logs *)

Lemma reload_record_decode bs (r : Versions) :
  reload_record bs (user_kv <$> r) = let? l := decode_wal_record bs r in Ok (user_kv <$> l).
Proof.
  unfold reload_record, decode_wal_record. destruct (batch_decode bs) as [es| |]; [|done..]. cbn [res_bind].
  by rewrite fmap_app, <- list_fmap_compose.
Qed.

Lemma res_foldM_reload bss (r : Versions) :
  res_foldM (λ acc b, reload_record b acc) (user_kv <$> r) bss
  = let? l := res_foldM (λ acc b, decode_wal_record b acc) r bss in Ok (user_kv <$> l).
Proof.
  revert r. induction bss as [|bs bss IH]; intros r; [done|]. cbn [res_foldM].
  rewrite reload_record_decode. destruct (decode_wal_record bs r); [|done..]. apply IH.
Qed.

(** A log of writes is read back as the pairs written, in order. *)
Lemma reload_writes ws w content :
  Forall write_wf ws →
  write_records (log_writer_new {| sk_content := []; sk_pos := 0 |}) (write_record <$> ws) = Ok w →
  sk_content (lw_dst w) = content →
  log_load (one_chunk content) reload_record [] = Some (Ok (concat (write_pairs <$> ws))).
Proof.
  intros Hws Hw Hc.
  destruct (log_records_load (write_record <$> ws) (one_chunk content) reload_record []) as (w' & Hw' & Hload).
  { apply Forall_fmap, Forall_forall. intros x Hx. cbn. rewrite Forall_forall in Hws.
    by apply write_record_nonempty, Hws. }
  rewrite Hw in Hw'. injection Hw' as <-. destruct (one_chunk_ok content) as [Hch Hcat].
  rewrite Hload by (done || by rewrite Hcat). f_equal.
  pose proof (res_foldM_reload (write_record <$> ws) []) as Hf. cbn [fmap list_fmap] in Hf. rewrite Hf.
  rewrite res_foldM_decode by done. cbn [res_bind app]. f_equal. rewrite <- list_fmap_compose.
  rewrite (list_fmap_ext _ id); [apply list_fmap_id|]. by intros _ [? ?] _.
Qed.

Lemma btree_table_serves level gen data :
  table_serves (btree_table_new level gen data) (btree_from_iter data).
Proof.
  split; [apply btree_from_iter_sorted| |].
  - intros k. cbn. fold (keyed data). by rewrite keyed_from_iter, keyed_get.
  - eexists. split; [done|]. apply iter_exhausts_yields, (btree_table_seek_exhausts _ _ _ SeekFirst).
Qed.

(** Without a table file the table comes from the log. *)
Lemma wal_reloadable factory wal gen pairs :
  file_content factory gen = [] →
  log_load (one_chunk (file_content wal gen)) reload_record [] = Some (Ok pairs) →
  reloadable factory wal gen (btree_from_iter pairs).
Proof.
  intros Hf Hl d Hd. exists (inr (btree_table_new LEVEL_0 gen pairs)).
  split; [|by apply serves_inr, btree_table_serves]. unfold load_table. cbn [io_reader].
  assert (∃ e, sst_load_from_file (open_file d gen) {| rd_gen := gen; rd_type := IoDirect; rd_pos := 0 |} = Err e)
    as [e ->].
  { unfold sst_load_from_file, footer_read, reader_seek, seek_pos. cbn [rd_gen rd_pos].
    rewrite open_file_content, Hd, Hf. eexists. done. }
  by rewrite Hl.
Qed.

(** *** The cache *)

Lemma sharding_inv_impl {V} (P Q : Z → V → Prop) (c : ShardingLruCache Z V) :
  (∀ k v, P k v → Q k v) → sharding_inv P c → sharding_inv Q c.
Proof.
  intros HPQ [Hne Hall]. split; [done|]. rewrite Forall_forall in Hall |- *. intros lru Hin.
  destruct (Hall lru Hin) as (a & Ha & HP). exists a. split; [done|]. intros e He. by apply HPQ, HP.
Qed.

Section cache.
Context {V : Type} (hash : Z → N) (P : Z → V → Prop).
Implicit Types c : ShardingLruCache Z V.

(** The shard of a key is a list of entries that all satisfy [P]; an operation on it that
    keeps this keeps it for the cache. *)
Lemma with_shard_step key c :
  sharding_inv P c →
  ∃ lru a, lru_refines lru a ∧ (∀ e, e ∈ a → P e.1 e.2) ∧
    ∀ A (op : LruCache Z V → option (A * LruCache Z V)) out lru' a',
      op lru = Some (out, lru') → lru_refines lru' a' → (∀ e, e ∈ a' → P e.1 e.2) →
      ∃ c', with_shard hash key op c = Some (Ok (out, c')) ∧ sharding_inv P c'.
Proof.
  intros Hinv. destruct (shard_lookup hash P key c Hinv) as (i & lru & Hs & Hi).
  destruct Hinv as [Hne Hall]. pose proof (Forall_lookup_1 _ _ _ _ Hall Hi) as (a & Hr & HP).
  exists lru, a. split_and!; [done..|]. intros A op out lru' a' Hop Hr' HP'.
  unfold with_shard. rewrite Hs, Hi, Hop. eexists. split; [done|]. split; cbn.
  - intros E%(f_equal length). rewrite length_insert in E. by destruct (sharding_vec c).
  - apply Forall_insert; [done|]. by exists a'.
Qed.

Lemma sharding_put_inv key v c :
  sharding_inv P c → P key v →
  ∃ o c', sharding_put hash key v c = Some (Ok (o, c')) ∧ sharding_inv P c'.
Proof.
  intros Hc Hv. destruct (with_shard_step key c Hc) as (lru & a & Hr & HP & Hstep).
  destruct (lru_put_refines lru a key v Hr) as (lru' & Hop & Hr' & _).
  destruct (Hstep _ _ _ _ _ Hop Hr') as (c' & Hw & Hc').
  - intros e [->|He]%elem_of_cons; [done|]. by eapply HP, spec_delete_subset, spec_evict_subset.
  - eauto.
Qed.

Lemma sharding_get_or_insert_cases key c :
  sharding_inv P c →
  (∃ v, P key v ∧ (∃ c', sharding_get hash key c = Some (Ok (Some v, c'))) ∧
     ∀ fn, ∃ c', sharding_get_or_insert hash key fn c = Some (Ok (Ok v, c')) ∧ sharding_inv P c') ∨
  ((∃ c', sharding_get hash key c = Some (Ok (None, c'))) ∧
     ∀ fn v, fn key = Ok v → P key v →
       ∃ c', sharding_get_or_insert hash key fn c = Some (Ok (Ok v, c')) ∧ sharding_inv P c').
Proof.
  intros Hc. destruct (with_shard_step key c Hc) as (lru & a & Hr & HP & Hstep).
  destruct (lru_get_refines lru a key Hr) as (lru1 & Hget & Hr1 & _). unfold spec_get in Hget, Hr1.
  destruct (spec_lookup key a) as [v|] eqn:E; cbn [fst snd] in Hget, Hr1.
  - left. exists v. assert (P key v) as Hv by (by apply (HP (key, v)), spec_lookup_elem).
    assert (∀ e, e ∈ (key, v) :: spec_delete key a → P e.1 e.2) as HP'.
    { intros e [->|He]%elem_of_cons; [done|]. by eapply HP, spec_delete_subset. }
    split_and!; [done| |].
    + destruct (Hstep _ _ _ _ _ Hget Hr1 HP') as (c' & ? & _). eauto.
    + intros fn. destruct (lru_get_or_insert_refines lru a key fn Hr) as (lru2 & Hop & Hr2 & _).
      unfold spec_get_or_insert in Hop, Hr2. rewrite E in Hop, Hr2. by eapply Hstep.
  - right. split; [destruct (Hstep _ _ _ _ _ Hget Hr1 HP) as (c' & ? & _); eauto|].
    intros fn v Hf Hv. destruct (lru_get_or_insert_refines lru a key fn Hr) as (lru2 & Hop & Hr2 & _).
    unfold spec_get_or_insert in Hop, Hr2. rewrite E, Hf in Hop, Hr2. eapply Hstep; [done..|].
    intros e [->|He]%elem_of_cons; [done|]. by eapply HP, spec_evict_subset.
Qed.
End cache.

(** *** The loader *)

(** The [live] tables can be rebuilt, and only they are cached. *)
Record loader_ok (contents : Z → list KeyValue) (live : Z → Prop) (l : TableLoader) : Prop := {
  lo_cached : sharding_inv (λ g t, live g ∧ table_serves t (contents g)) (tl_inner l);
  lo_reload g : live g → reloadable (tl_factory l) (tl_wal l) g (contents g);
}.

Lemma reloadable_file factory factory' wal g l :
  file_content factory' g = file_content factory g → reloadable factory wal g l → reloadable factory' wal g l.
Proof. intros Hf Hr d Hd. apply Hr. by rewrite Hd. Qed.

Lemma table_loader_get_ok contents live l gen :
  loader_ok contents live l → live gen →
  ∃ t l', table_loader_get gen l = Some (Ok (Some t), l') ∧ table_serves t (contents gen) ∧
    loader_ok contents live l'.
Proof.
  intros [Hc Hr] Hl. unfold table_loader_get, is_cached.
  assert (∀ inner, sharding_inv (λ g t, live g ∧ table_serves t (contents g)) inner →
    ∀ b : bool, loader_ok contents live
      (set_loader l inner (if b then tl_factory l else open_file (tl_factory l) gen) (tl_wal l))) as Hset.
  { intros inner Hi b. split; [done|]. intros g Hg. cbn. eapply reloadable_file, Hr, Hg.
    destruct b; [done|]. apply open_file_content. }
  destruct (sharding_get_or_insert_cases (tl_hash l) _ gen (tl_inner l) Hc)
    as [(t & Ht & (c1 & ->) & Hget)|((c1 & ->) & Hmiss)].
  - destruct (Hget (λ _, Panic)) as (c' & -> & Hc'). eexists t, _. split; [done|]. split; [by apply Ht|].
    by apply (Hset c' Hc' true).
  - destruct (Hr gen Hl (tl_factory l) eq_refl) as (t & -> & Ht).
    destruct (Hmiss (λ _, Ok t) t eq_refl) as (c' & -> & Hc'); [done|].
    eexists t, _. split; [done|]. split; [done|]. by apply (Hset c' Hc' false).
Qed.

(** *** Creating tables *)

Lemma sst_new_frame d config gen vec_data level seeds t d' g :
  sst_new d config gen vec_data level IoDirect seeds = Ok (t, d') → g ≠ gen →
  file_content d' g = file_content d g.
Proof.
  unfold sst_new. destruct (res_foldM _ _ _) as [[? ?]| |]; [|done..]. cbn [res_bind].
  destruct (builder_build _) as [[[? ?] ?]| |]; [|done..]. cbn [res_bind io_reader]. intros [= _ <-] Hne.
  rewrite open_file_content. unfold write_file. cbn [io_writer writer_write wr_type raw_write writer_flush fst wr_gen].
  by rewrite file_content_insert_ne, open_file_content.
Qed.

Definition add_contents (contents : Z → list KeyValue) (gen : Z) (data : list KeyValue) : Z → list KeyValue :=
  λ g, if decide (g = gen) then data else contents g.
Definition add_live (live : Z → Prop) (gen : Z) : Z → Prop := λ g, live g ∨ g = gen.

(** A table that serves its data and can be rebuilt from the new files joins the others. *)
Lemma loader_ok_add contents live l gen data table inner factory :
  loader_ok contents live l → ¬ live gen → table_serves table data →
  (∀ g, g ≠ gen → file_content factory g = file_content (tl_factory l) g) →
  reloadable factory (tl_wal l) gen data →
  sharding_put (tl_hash l) gen table (tl_inner l) = Some (Ok inner) →
  loader_ok (add_contents contents gen data) (add_live live gen) (set_loader l inner.2 factory (tl_wal l)).
Proof.
  intros [Hc Hr] Hnew Hserves Hfiles Hrel Hput. unfold add_contents, add_live. split.
  - assert (sharding_inv (λ g t, (live g ∨ g = gen) ∧
        table_serves t (if decide (g = gen) then data else contents g)) (tl_inner l)) as Hc'.
    { eapply sharding_inv_impl; [|exact Hc]. intros g t [Hl Hs]. rewrite decide_False by (by intros ->). auto. }
    destruct (sharding_put_inv (tl_hash l) _ gen table (tl_inner l) Hc') as (o & c' & Hput' & Hinv).
    { rewrite decide_True by done. auto. }
    rewrite Hput in Hput'. by injection Hput' as ->.
  - intros g Hg. cbn. case_decide as E; [by subst|]. destruct Hg as [Hg|?]; [|done].
    eapply reloadable_file; [|by apply Hr]. by apply Hfiles.
Qed.

(** Gets one after the other. *)
Fixpoint loader_gets (gens : list Z) (l : TableLoader) : option (list (KernelResult (option BoxTable)) * TableLoader) :=
  match gens with
  | [] => Some ([], l)
  | g :: rest =>
      match table_loader_get g l with
      | Some (r, l1) =>
          match loader_gets rest l1 with Some (rs, l2) => Some (r :: rs, l2) | None => None end
      | None => None
      end
  end.

Definition served (contents : Z → list KeyValue) (gen : Z) (r : KernelResult (option BoxTable)) : Prop :=
  ∃ t, r = Ok (Some t) ∧ table_serves t (contents gen).

Lemma loader_gets_ok contents live l gens :
  loader_ok contents live l → Forall live gens →
  ∃ rs l', loader_gets gens l = Some (rs, l') ∧ Forall2 (served contents) gens rs ∧ loader_ok contents live l'.
Proof.
  intros Hl Hg. revert l Hl. induction Hg as [|g gens Hg _ IH]; intros l Hl; [by exists [], l|].
  destruct (table_loader_get_ok contents live l g Hl Hg) as (t & l1 & Hget & Ht & Hl1).
  destruct (IH l1 Hl1) as (rs & l2 & Hrs & Hf & Hl2). exists (Ok (Some t) :: rs), l2. cbn [loader_gets].
  rewrite Hget, Hrs. split_and!; [done| |done]. constructor; [by exists t|done].
Qed.

Lemma table_loader_create_stored gen data level seeds h l :
  cfg_data_restart_interval (tl_config l) ≠ 0 →
  table_loader_create gen (stored_data data) level SortedString seeds h l
  = table_loader_create gen data level SortedString seeds h l.
Proof.
  intros Hri. unfold table_loader_create, create_ss_table. rewrite sst_new_stored by done.
  assert (from_sorted_vec_data gen (stored_data data) h = from_sorted_vec_data gen data h) as ->; [|done].
  unfold from_sorted_vec_data, stored_data, map_items. destruct data as [|kv data]; [done|].
  pose proof (fmap_last (prod_map id stored) (kv :: data)) as E. rewrite fmap_cons in *. rewrite E.
  by destruct (list.last (kv :: data)).
Qed.

(** C12: a table file written through the loader (of data that is not empty, below the size
    bounds, with restart intervals of two at least and no block that runs into the inverted
    checksum test) joins the tables the loader serves: from then on any sequence of gets
    returns, for the new table and for the old ones, a table that answers and iterates as
    its stored data, in which a present empty value is a deletion, whether it is still
    cached or was evicted and read back from its file. *)
Theorem table_loader_create_correct contents live l gen vec_data level seeds h :
  let data := stored_data vec_data in
  loader_ok contents live l → ¬ live gen → sst_data_ok (tl_config l) data →
  file_content (tl_factory l) gen = [] →
  (∀ n, sst_data_size (tl_config l) data = Ok n → fits_u32 n) →
  (0 ≤ seeds.1 < 2 ^ 64)%Z → (0 ≤ seeds.2 < 2 ^ 64)%Z →
  2 ≤ cfg_data_restart_interval (tl_config l) → 2 ≤ cfg_index_restart_interval (tl_config l) →
  ∃ t d', create_ss_table gen vec_data level seeds l = Ok (t, d') ∧
    (fits_u32 (2 * length (file_content d' gen)) → sst_clear t →
     ∃ scope meta l', table_loader_create gen vec_data level SortedString seeds h l
       = Some (Ok (scope, meta, h ++ [0%Z], l')) ∧
       ∀ gens, Forall (add_live live gen) gens →
       ∃ rs l'', loader_gets gens l' = Some (rs, l'') ∧ Forall2 (served (add_contents contents gen data)) gens rs).
Proof.
  intros data Hl Hnew Hok Hfile Hsize Hs1 Hs2 Hdi Hii. rewrite <- table_loader_create_stored by lia.
  unfold create_ss_table. rewrite <- sst_new_stored by lia. fold data.
  destruct (sst_new_written (tl_config l) (tl_factory l) gen data level IoDirect seeds Hok Hfile Hsize)
    as (t & d' & chunks & filter & Hn & Hw & Hwf & Hmark & Hle).
  exists t, d'. split; [done|]. intros Hfit Hcl.
  assert (reloadable d' (tl_wal l) gen data) as Hrel.
  { eapply sst_reloadable; try done; rewrite ?(bl_count _ _ Hle), ?(bl_hashers _ _ Hle); [|done..].
    apply f64_as_u64_range. }
  assert (table_serves t data) as Ht.
  { apply holds_serves, (sst_table_holds (tl_config l) t data chunks); try done.
    by apply (sst_new_built (tl_config l) t d' gen data level chunks filter). }
  destruct (from_sorted_vec_data_spec gen data h) as (scope & Hscope & _); [apply Hok|apply Hok|].
  destruct (sharding_put_inv (tl_hash l) (λ _ _, True) gen (inl t) (tl_inner l)) as (o & inner & Hput & _).
  { eapply sharding_inv_impl; [|apply Hl]. done. }
  { done. }
  eexists scope, _, _. unfold table_loader_create, create_ss_table. rewrite Hscope, Hn. cbn [res_bind].
  rewrite Hput. cbn [res_bind]. split; [done|]. intros gens Hg.
  destruct (loader_gets_ok (add_contents contents gen data) (add_live live gen)
    (set_loader l inner d' (tl_wal l)) gens) as (rs & l'' & Hrs & Hf & _); [|done|by exists rs, l''].
  apply (loader_ok_add contents live l gen data (inl t) (o, inner) d' Hl Hnew); try done.
  - by apply serves_inl.
  - intros g Hne. by eapply sst_new_frame.
Qed.
End loader_laws.

(** ** Level 0 from the log *)

Section wal_rebuild.
Context `{IE : IntegerEncoding} {CRC : Crc32} {LZ : Lz4} {IT : Itertools}.
Context {DH : DefaultHasher} {FL : F64}.
Context {IEL : IntegerEncodingLaws} {CRCL : Crc32Laws} {ITL : ItertoolsLaws}.
Context {SM : SkipMapOps InternalKey (option bytes)} {SML : SkipMapLaws InternalKey (option bytes)}.

Lemma btree_from_iter_nonempty (l : list KeyValue) : l ≠ [] → btree_from_iter l ≠ [].
Proof.
  destruct l as [|[k v] l _] using rev_ind; [done|]. intros _. rewrite btree_from_iter_snoc.
  destruct (btree_from_iter l) as [|[k' v'] m]; [done|]. cbn. by destruct (cmp k k').
Qed.

(** What the log stores of a write. *)
Definition stored_write (w : MemWrite) : MemWrite :=
  match w with
  | WriteOne kv => WriteOne (prod_map id stored kv)
  | WriteBatch kvs => WriteBatch (stored_data kvs)
  end.

Lemma stored_write_pairs w : write_pairs (stored_write w) = stored_data (write_pairs w).
Proof. by destruct w. Qed.

Lemma stored_write_record w : write_record (stored_write w) = write_record w.
Proof.
  unfold write_record. rewrite stored_write_pairs. unfold stored_data, map_items. rewrite <- list_fmap_compose.
  f_equal. apply list_fmap_ext. intros i [k v] _. unfold compose, prod_map. cbn [fst snd].
  unfold data_to_bytes, entry_encode. cbn [fst snd entry_new e_item e_key shared_len unshared_len item_encode value_item id].
  by apply (value_encode_stored (value_from v)).
Qed.

Lemma stored_pairs ws : concat (write_pairs <$> (stored_write <$> ws)) = stored_data (concat (write_pairs <$> ws)).
Proof.
  induction ws as [|w ws IH]; [done|]. rewrite !fmap_cons. cbn [concat]. rewrite IH, stored_write_pairs.
  unfold stored_data, map_items. by rewrite fmap_app.
Qed.

Lemma stored_from_iter (l : list KeyValue) : btree_from_iter (stored_data l) = stored_data (btree_from_iter l).
Proof.
  assert (∀ k v (m : list KeyValue), btree_insert k (stored v) (stored_data m) = stored_data (btree_insert k v m)) as Hi.
  { intros k v m. unfold stored_data, map_items. induction m as [|[k' v'] m IH]; [done|]. cbn.
    destruct (cmp k k'); cbn; [done|done|]. f_equal. exact IH. }
  induction l as [|[k v] l IH] using rev_ind; [done|]. unfold stored_data, map_items in *.
  rewrite fmap_app. cbn. rewrite !btree_from_iter_snoc, IH. apply Hi.
Qed.

(** C13: a table of level 0 that was only kept in memory is not lost with the cache.  After
    any writes, of keys and values below 4 GiB, to a memory table created on an empty log
    directory, and a swap, the loader rebuilds from the log that is left a table that answers
    and iterates as what is stored of the data the swap handed over: that data, with a
    present empty value read as a deletion. *)
Theorem wal_table_rebuilt cfg c ws factory :
  (0 ≤ seq_count c)%Z → (seq_count c + Z.of_nat (length ws) ≤ SEQ_MAX)%Z →
  Forall write_wf (stored_write <$> ws) → ws ≠ [] →
  ∃ t0 c0 t1 c1 gen data t2 c2,
    mem_table_new cfg ∅ c = Some (Ok (t0, c0)) ∧ res_foldM mem_write (t0, c0) ws = Ok (t1, c1) ∧
    swap t1 c1 = Some (Some (gen, data), t2, c2) ∧
    (file_content factory gen = [] →
     ∃ t, load_table factory (ti_wal (mt_inner t2)) gen = Some (Ok t) ∧ table_serves t (stored_data data)).
Proof.
  intros Hseq Hmax Hws Hne.
  destruct (mem_table_new_empty cfg c ltac:(lia))
    as (t0 & c0 & H0 & Hwf0 & Htx0 & Hc0 & Himm0 & Hmem0 & Hwal0 & Hlw0 & _).
  destruct (mem_writes_spec t0 c0 ws Hwf0 ltac:(lia))
    as (t1 & c1 & H1 & Hwf1 & _ & _ & _ & Hrec & Hv1).
  destruct (mem_writes_frame ws _ _ _ _ H1) as [Himm1 Htx1]. rewrite Hlw0 in Hrec.
  set (pairs := concat (write_pairs <$> ws)) in *.
  assert (latest (sm_iter (ti_mem (mt_inner t1))) = btree_from_iter pairs) as Hlatest.
  { apply btree_get_ext; [apply btree_from_iter_sorted..|]. intros k.
    specialize (Hv1 k). unfold table_view in Hv1. rewrite Himm1, Himm0, Hmem0 in Hv1. cbn in Hv1.
    rewrite latest_get, btree_get_from_iter. fold (batch_get pairs k).
    rewrite <- (visible_all (sm_iter (ti_mem (mt_inner t1))) k SEQ_MAX).
    - destruct (visible _ k _), (batch_get pairs k); congruence.
    - intros s v Hin. destruct Hwf1 as [Hm _ Hsq _]. apply Hm in Hin. lia. }
  pose proof (swap_spec t1 c1 ltac:(congruence)) as Hswap.
  destruct (sm_is_empty (ti_mem (mt_inner t1))) eqn:E.
  { exfalso. apply sm_is_empty_spec in E. rewrite E in Hlatest. symmetry in Hlatest. revert Hlatest.
    apply btree_from_iter_nonempty. unfold pairs. destruct ws as [|w ws]; [done|].
    rewrite fmap_cons in Hws. apply Forall_inv in Hws as [Hw _]. rewrite stored_write_pairs in Hw. cbn.
    by destruct (write_pairs w). }
  destruct Hswap as (t2 & c2 & Hsw & _).
  exists t0, c0, t1, c1, (ti_log_writer (mt_inner t1)).2, (latest (sm_iter (ti_mem (mt_inner t1)))), t2, c2.
  split_and!; [done..|]. intros Hf. rewrite Hlatest, <- stored_from_iter. unfold pairs. rewrite <- stored_pairs.
  apply (wal_reloadable factory (ti_wal (mt_inner t2)) _ _ Hf); [|done].
  assert (write_record <$> (stored_write <$> ws) = write_record <$> ws) as Hrs.
  { rewrite <- list_fmap_compose. apply list_fmap_ext. intros i w _. apply stored_write_record. }
  rewrite <- Hrs in Hrec. apply (reload_writes (stored_write <$> ws) _ _ Hws Hrec). unfold swap in Hsw. rewrite decide_False, E in Hsw by lia.
  destruct (ti_log_writer (mt_inner t1)) as [w g]. cbn [gen_create snd fst] in *.
  injection Hsw as _ <- _. cbn [mt_inner set_inner ti_wal]. by rewrite file_content_insert.
Qed.
End wal_rebuild.

(** ** Witnesses *)

Module LoaderSample.
Import Reference SSTableSample.

Definition hash (g : Z) : N := Z.to_N g.

(** A cache of 16 tables, one in each shard. *)
Definition loader_config : Config := config_table_cache_size config 16.

Definition inner0 : ShardingLruCache Z BoxTable :=
  match sharding_new (cfg_table_cache_size loader_config) CACHE_SHARDING with
  | Ok c => c
  | _ => mkSharding []
  end.

Definition loader0 : TableLoader :=
  {| tl_inner := inner0; tl_factory := ∅; tl_config := loader_config; tl_wal := ∅; tl_hash := hash |}.

Lemma loader0_new : table_loader_new loader_config ∅ ∅ hash = Ok loader0.
Proof. reflexivity. Qed.

Lemma loader0_ok : loader_ok (λ _, []) (λ _, False) loader0.
Proof. split; [|done]. apply (sharding_new_inv _ (cfg_table_cache_size loader_config) CACHE_SHARDING). reflexivity. Qed.

Definition created : KernelResult (SSTable * Dir) := create_ss_table 7 data 2 (11, 22)%Z loader0.

Lemma created_clear t d' : created = Ok (t, d') → sst_clear t ∧ fits_u32 (2 * length (file_content d' 7%Z)).
Proof.
  intros E. vm_compute in E. injection E as <- <-. split; [|vm_compute; done]. split; [vm_compute; done|].
  intros b e Hb He. vm_compute in Hb. injection Hb as <-.
  repeat (apply elem_of_cons in He as [->|He]; [vm_compute; done|]). by apply elem_of_nil in He.
Qed.

Lemma loader_data_ok : sst_data_ok loader_config data.
Proof. destruct data_ok as [? ? ? ? ? ? ? ? ?]. by split. Qed.

Lemma table_loader_create_correct_witness :
  ∃ scope meta h' l' rs l'', table_loader_create 7 data 2 SortedString (11, 22)%Z [] loader0
    = Some (Ok (scope, meta, h', l')) ∧ loader_gets [7; 7]%Z l' = Some (rs, l'') ∧
    Forall2 (served (add_contents (λ _, []) 7 data)) [7; 7]%Z rs.
Proof.
  destruct (table_loader_create_correct (λ _, []) (λ _, False) loader0 7 data 2 (11, 22)%Z [] loader0_ok
    (λ F, F) loader_data_ok eq_refl data_fits ltac:(cbn; lia) ltac:(cbn; lia)
    ltac:(vm_compute; lia) ltac:(vm_compute; lia)) as (t & d' & Hc & Hget).
  destruct (created_clear t d' Hc) as [Hcl Hfit].
  destruct (Hget Hfit Hcl) as (scope & meta & l' & Hcr & Hgets).
  destruct (Hgets [7; 7]%Z) as (rs & l'' & Hrs & Hf).
  - repeat constructor; by right.
  - exists scope, meta, [0%Z], l', rs, l''. auto.
Defined.

Lemma wal_table_rebuilt_witness :
  ∃ t0 c0 t1 c1 gen data t2 c2 t,
    mem_table_new config ∅ sample_counters = Some (Ok (t0, c0)) ∧
    res_foldM mem_write (t0, c0) (WriteOne ([x07], Some []) :: sample_writes) = Ok (t1, c1) ∧
    swap t1 c1 = Some (Some (gen, data), t2, c2) ∧
    load_table ∅ (ti_wal (mt_inner t2)) gen = Some (Ok t) ∧ table_serves t (stored_data data).
Proof.
  destruct (wal_table_rebuilt config sample_counters (WriteOne ([x07], Some []) :: sample_writes) ∅)
    as (t0 & c0 & t1 & c1 & gen & data & t2 & c2 & H0 & H1 & Hs & Hl).
  - vm_compute. discriminate.
  - vm_compute. discriminate.
  - repeat constructor; by repeat split.
  - done.
  - destruct (Hl eq_refl) as (t & Ht & Hserves). exists t0, c0, t1, c1, gen, data, t2, c2, t. auto.
Defined.

(** A table of level 0 that has no file is cleaned out of the cache, but the error of the
    missing file comes before the removal of its log. *)
Definition logged : TableLoader :=
  {| tl_inner := inner0; tl_factory := ∅; tl_config := loader_config; tl_wal := {[ 9%Z := [x00] ]};
     tl_hash := hash |}.

Remark clean_keeps_log :
  (fst <$> table_loader_clean 9 logged) = Some (Err (Io NotFound)) ∧
  ((λ r : _ * TableLoader, tl_wal r.2 !! 9%Z) <$> table_loader_clean 9 logged) = Some (Some [x00]).
Proof. split; vm_compute; reflexivity. Qed.
End LoaderSample.
