(* ===== verification/CompactorCorrect.v ===== *)
(** * Compaction is correct (src/kernel/lsm/compactor.rs)

    The invariant of the store, and that a round of major compaction keeps it and
    changes no answer of any query, under a condition on the tables it selects; and two
    runs where that condition fails and answers are lost. *)

From S2P Require Import Prelude Std Crates Iterator Io Log Config MemTable.
From S2P Require Import Scope BTreeTable Version Cleaner Status Compactor.
From Stdlib Require Import ZArith Lia Strings.Byte Sorted.
From stdpp Require Import base list gmap sorting strings.

Set Default Goal Selector "!".

(** ** Sums of statistics *)

Definition meta_plus (a b : TableMeta) : TableMeta :=
  {| tm_size_of_disk := tm_size_of_disk a + tm_size_of_disk b; tm_len := tm_len a + tm_len b |}.

Definition meta_sum (l : list TableMeta) : TableMeta := foldr meta_plus table_meta_default l.

Lemma meta_eq (a b : TableMeta) :
  tm_size_of_disk a = tm_size_of_disk b → tm_len a = tm_len b → a = b.
Proof. destruct a, b; cbn; congruence. Qed.

Arguments meta_sum : simpl never.

Lemma meta_sum_nil : meta_sum [] = table_meta_default.
Proof. done. Qed.

Lemma meta_sum_cons m l : meta_sum (m :: l) = meta_plus m (meta_sum l).
Proof. done. Qed.

Lemma meta_sum_app l1 l2 : meta_sum (l1 ++ l2) = meta_plus (meta_sum l1) (meta_sum l2).
Proof.
  induction l1 as [|m l1 IH]; cbn [app]; rewrite ?meta_sum_nil, ?meta_sum_cons, ?IH;
    apply meta_eq; cbn; lia.
Qed.

Lemma meta_sum_perm l1 l2 : l1 ≡ₚ l2 → meta_sum l1 = meta_sum l2.
Proof.
  induction 1 as [|m l1 l2 _ IH|m m' l|l1 l2 l3 _ IH1 _ IH2]; rewrite ?meta_sum_cons;
    [done|by rewrite IH| |congruence].
  apply meta_eq; cbn; lia.
Qed.

Lemma meta_fold_sum {A} (f : A → TableMeta) (l : list A) m :
  fold_left (λ m x, meta_add m (tm_size_of_disk (f x)) (tm_len (f x))) l m
  = meta_plus m (meta_sum (f <$> l)).
Proof.
  revert m. induction l as [|x l IH]; intros m; cbn [fold_left]; rewrite ?fmap_cons, ?IH;
    apply meta_eq; rewrite ?fmap_nil, ?meta_sum_nil, ?meta_sum_cons; cbn; lia.
Qed.

Lemma table_meta_fusion_sum l : table_meta_fusion l = meta_sum l.
Proof.
  unfold table_meta_fusion. rewrite (meta_fold_sum id), list_fmap_id. by apply meta_eq; cbn.
Qed.

Section sums.
Context {T : Type} {TB : Table T} `{IT : Itertools} {ITL : ItertoolsLaws}.

Lemma collect_gen_spec (ts : list T) :
  NoDup (table_gen <$> ts) →
  collect_gen ts = Ok (table_gen <$> ts, meta_sum (table_meta_from <$> ts)).
Proof.
  intros Hnd. unfold collect_gen, table_meta_from_tables.
  rewrite (unique_by_id id), (unique_by_id table_gen) by (done || by rewrite list_fmap_id).
  do 2 f_equal. etransitivity; [apply (meta_fold_sum table_meta_from)|by apply meta_eq; cbn].
Qed.

(** The statistics of the table of a scope. *)
Definition scope_meta (get : Z → option T) (s : Scope) : TableMeta :=
  match get (sc_gen s) with Some t => table_meta_from t | None => table_meta_default end.

Lemma scope_meta_tables get contents ss ts :
  Forall2 (table_of get contents) ss ts →
  table_meta_from <$> ts = scope_meta get <$> ss ∧ table_gen <$> ts = sc_gen <$> ss.
Proof.
  induction 1 as [|s t ss ts (Hg & _ & Htg) _ [IH1 IH2]]; [done|].
  rewrite !fmap_cons, IH1, IH2, Htg. unfold scope_meta at 2. by rewrite Hg.
Qed.
End sums.

(** ** The invariant of the store *)

Section store_inv.
Context {SM : SkipMapOps InternalKey (option bytes)}.
Context {T : Type} {TB : Table T}.

Abbreviation store_version st := (vs_version (so_status st)).

(** Apart from what makes queries correct: generations are unique and below the next
    one, level 0 is in the order of its generations, the statistics are those of the
    tables, no key is empty and no table is. *)
Record store_inv (contents : Z → list KeyValue) (st : Store T) : Prop := {
  si_wf : version_wf (store_get st) contents (so_seeks st) (store_version st);
  si_seeks : seeks_ok (so_seeks st);
  si_gens : NoDup (version_gens (store_version st));
  si_fresh g : g ∈ version_gens (store_version st) → (g < gen_buf (so_counters st))%Z;
  si_level_0 l : level_slice (store_version st) !! 0 = Some l → StronglySorted Z.lt (sc_gen <$> l);
  si_meta : let total := meta_sum (scope_meta (store_get st) <$> concat (level_slice (store_version st))) in
    meta_data (store_version st)
    = {| vm_size_of_disk := tm_size_of_disk total; vm_len := tm_len total |};
  si_log : log_ok (vs_ver_log_writer (so_status st)).1;
  si_chan : chan_open (vs_chan (so_status st)) = true;
  si_keys g e : g ∈ version_gens (store_version st) → e ∈ contents g → e.1 ≠ [];
  si_nonempty g : g ∈ version_gens (store_version st) → contents g ≠ [];
}.

(** What compaction leaves alone: the memory table, the sequence numbers, and level 0 up
    to tables it takes away, and the old tables and seek counters; the generations it adds
    are fresh. *)
Record store_step (st st' : Store T) : Prop := {
  ss_mem : so_mem_table st' = so_mem_table st;
  ss_seq : seq_count (so_counters st') = seq_count (so_counters st);
  ss_gen : (gen_buf (so_counters st) ≤ gen_buf (so_counters st'))%Z;
  ss_gens g : g ∈ version_gens (store_version st') →
              g ∈ version_gens (store_version st) ∨ (gen_buf (so_counters st) ≤ g)%Z;
  ss_level_0 l' : level_slice (store_version st') !! 0 = Some l' →
                  ∃ l, level_slice (store_version st) !! 0 = Some l ∧ ∀ s, s ∈ l' → s ∈ l;
  ss_tables g : (g < gen_buf (so_counters st))%Z → so_tables st' !! g = so_tables st !! g;
  ss_seeks : length (so_seeks st) ≤ length (so_seeks st');
  ss_seeks_ok : seeks_ok (so_seeks st) → seeks_ok (so_seeks st');
}.

#[global] Instance store_step_refl : Reflexive store_step.
Proof. intros st. split; try done; eauto. Qed.

#[global] Instance store_step_trans : Transitive store_step.
Proof.
  intros a b c [m1 s1 g1 n1 l1 t1 h1 o1] [m2 s2 g2 n2 l2 t2 h2 o2]. split; [congruence..|lia| | | |lia|auto].
  - intros g [Hg|Hg]%n2; [by apply n1|right; lia].
  - intros l' (l & Hl & Hs)%l2. destruct (l1 l Hl) as (l0 & Hl0 & Hs0). eauto.
  - intros g Hg. rewrite t2 by lia. by apply t1.
Qed.

(** The tables of a level from the newest to the oldest. *)
Definition newest_first (level : nat) (l : list Scope) : list Scope :=
  if decide (level = LEVEL_0) then reverse l else l.

(** The condition on the tables a round selects.  At level 0, no table left behind is
    older than a selected one with the same key.  The selected tables meet some table of
    the next level, or lie before all of them. *)
Definition selection_ok (contents : Z → list KeyValue) (st : Store T) (level : nat) (target : Scope)
    : Prop :=
  ∀ A B, level_slice (store_version st) !! level = Some A →
         level_slice (store_version st) !! (level + 1) = Some B →
  let sel := filter (λ s, scope_meet s target = true) A in
  (level = LEVEL_0 → ∀ s t k, s ∈ A → t ∈ A → scope_meet s target = false →
     scope_meet t target = true → (sc_gen s < sc_gen t)%Z →
     scope_find contents k s = None ∨ scope_find contents k t = None) ∧
  ∀ f, scope_fusion sel = Some f →
    (∃ s, s ∈ B ∧ scope_meet s f = true) ∨ (∀ s, s ∈ B → scope_before f s).
End store_inv.

(** ** One round on the tables *)

Lemma first_some_frame {A B} (f g : A → option B) X Y M N :
  (∀ x, x ∈ X ++ Y → f x = g x) → first_some f M = first_some g N →
  first_some f (X ++ M ++ Y) = first_some g (X ++ N ++ Y).
Proof.
  intros Hfg HMN. rewrite !first_some_app, HMN, (first_some_ext f g X), (first_some_ext f g Y);
    [done|set_solver..].
Qed.

Section one_answer_app.
Context {A B : Type} (f : A → option B).

Lemma first_some_middle (pre mid post : list A) :
  one_answer f (pre ++ mid ++ post) →
  first_some f (pre ++ mid ++ post)
  = match first_some f mid with Some y => Some y | None => first_some f (pre ++ post) end.
Proof.
  intros H1. destruct (first_some f mid) as [y|] eqn:E.
  - apply first_some_elem in E as (x & Hx & Hy). rewrite <- Hy.
    apply first_some_one; [done|set_solver|congruence].
  - rewrite !first_some_app, E. done.
Qed.
End one_answer_app.

Section round.
Context {T : Type} {TB : Table T} `{IT : Itertools} {ITL : ItertoolsLaws}.
Context (get : Z → option T) (contents : Z → list KeyValue).
Context (level : nat) (A pre mid post : list Scope) (target f : Scope).

Abbreviation find := (scope_find contents).
Abbreviation selected := (filter (λ s, scope_meet s target = true) A).
Abbreviation kept := (filter (λ s, ¬ scope_meet s target = true) A).

Context (HA : ∀ s, s ∈ A → scope_loaded get contents s).
Context (HB : ∀ s, s ∈ pre ++ mid ++ post → scope_loaded get contents s).
Context (HAs : level ≠ LEVEL_0 → level_sorted A).
Context (HA0 : level = LEVEL_0 → StronglySorted Z.lt (sc_gen <$> A)).
Context (HBs : level_sorted (pre ++ mid ++ post)).
Context (Hsel : level = LEVEL_0 → ∀ s t k, s ∈ A → t ∈ A → scope_meet s target = false →
     scope_meet t target = true → (sc_gen s < sc_gen t)%Z → find k s = None ∨ find k t = None).
Context (Hf : scope_fusion selected = Some f).
Context (Hpre : ∀ s, s ∈ pre → scope_before s f).
Context (Hpost : ∀ s, s ∈ post → scope_before f s).

Lemma level_one_answer l k :
  level_sorted l → (∀ s, s ∈ l → scope_loaded get contents s) → one_answer (find k) l.
Proof.
  intros Hs Hl x y (i & Hi)%list_elem_of_lookup (j & Hj)%list_elem_of_lookup Hx Hy.
  assert (∀ n s, l !! n = Some s → find k s ≠ None → meet_by_key s k = true) as Hmeet.
  { intros n s Hn Hfs. destruct (meet_by_key s k) eqn:E; [done|]. exfalso. apply Hfs.
    eapply scope_find_outside; [|done]. apply Hl. by eapply list_elem_of_lookup_2. }
  assert (i = j) as -> by (eapply level_sorted_unique; eauto). congruence.
Qed.

(** Reading the tables left behind first changes nothing. *)
Lemma upper_split k :
  first_some (find k) (newest_first level A)
  = match first_some (find k) (newest_first level kept) with
    | Some y => Some y
    | None => first_some (find k) (newest_first level selected)
    end.
Proof.
  unfold newest_first. destruct (decide (level = LEVEL_0)) as [H0|H0].
  - rewrite <- !filter_reverse. apply first_some_split.
    pose proof (HA0 H0) as Hs0. rewrite StronglySorted_map in Hs0.
    apply StronglySorted_reverse in Hs0. eapply StronglySorted_impl; [|exact Hs0].
    intros x y Hx Hy Hlt Hmx Hmy. cbn in Hlt. rewrite elem_of_reverse in Hx, Hy.
    apply or_comm. eapply Hsel; try done. by apply not_true_iff_false.
  - apply first_some_split. pose proof (HAs H0) as Hs0.
    pose proof (level_one_answer A k Hs0 HA) as H1.
    apply (StronglySorted_impl scope_before); [|apply Hs0].
    intros x y Hx Hy _ Hmx Hmy. destruct (find k x) eqn:Ex; [|by left].
    destruct (find k y) eqn:Ey; [|by right]. destruct Hmy.
    by rewrite <- (H1 x y Hx Hy ltac:(congruence) ltac:(congruence)).
Qed.

Lemma lower_split k :
  first_some (find k) (pre ++ mid ++ post)
  = match first_some (find k) mid with
    | Some y => Some y
    | None => first_some (find k) (pre ++ post)
    end.
Proof. apply first_some_middle, level_one_answer; done. Qed.

(** The keys the merge handles lie between the tables before and after. *)
Lemma merged_between k s :
  s ∈ selected ++ mid → find k s ≠ None →
  (∀ r, r ∈ pre → cmp (sc_end r) k = Lt) ∧ (∀ r, r ∈ post → cmp k (sc_start r) = Lt).
Proof.
  intros Hs Hk. pose proof HBs as [_ (Hp1 & _ & (Hp2 & _ & _)%StronglySorted_app)%StronglySorted_app].
  assert (scope_loaded get contents s) as Hl.
  { apply elem_of_app in Hs as [[_ Hs]%list_elem_of_filter|Hs]; [by apply HA|].
    apply HB. set_solver. }
  assert (meet_by_key s k = true) as Hm.
  { destruct (meet_by_key s k) eqn:E; [done|]. by destruct Hk; eapply scope_find_outside. }
  apply elem_of_app in Hs as [Hs|Hs].
  - pose proof (fusion_covers _ f s k Hf Hs Hm) as [Hk1 Hk2]%meet_by_key_iff. split; intros r Hr.
    + eapply cmp_lt_le_trans; [by apply Hpre|done].
    + eapply cmp_le_lt_trans; [done|by apply Hpost].
  - apply meet_by_key_iff in Hm as [Hk1 Hk2]. split; intros r Hr.
    + eapply cmp_lt_le_trans; [|done]. apply Hp1; [done|]. set_solver.
    + eapply cmp_le_lt_trans; [done|]. by apply Hp2.
Qed.

Lemma outside_none k :
  (∀ r, r ∈ pre → cmp (sc_end r) k = Lt) → (∀ r, r ∈ post → cmp k (sc_start r) = Lt) →
  first_some (find k) (pre ++ post) = None.
Proof.
  intros H1 H2. apply first_some_None. intros r Hr.
  eapply scope_find_outside; [apply HB; set_solver|].
  apply not_true_iff_false. intros [Ha Hb]%meet_by_key_iff.
  apply elem_of_app in Hr as [Hr|Hr].
  - apply H1, le_b_false in Hr. congruence.
  - apply H2, le_b_false in Hr. congruence.
Qed.

(** The order of generations is the order of age. *)
Lemma selected_order (ts : list T) k :
  Forall2 (table_of get contents) selected ts →
  first_some (λ g, btree_get k (contents g))
    (reverse (table_gen <$> sorted_unstable_by_key table_gen ts))
  = first_some (find k) (newest_first level selected).
Proof.
  intros Hts. destruct (scope_meta_tables _ _ _ _ Hts) as [_ Hg].
  assert (table_gen <$> sorted_unstable_by_key table_gen ts ≡ₚ sc_gen <$> selected) as Hp.
  { rewrite <- Hg. apply fmap_Permutation, sorted_unstable_by_key_perm. }
  unfold newest_first. destruct (decide (level = LEVEL_0)) as [H0|H0].
  - assert (table_gen <$> sorted_unstable_by_key table_gen ts = sc_gen <$> selected) as ->.
    { apply (StronglySorted_unique Z.le); [| |done].
      - apply StronglySorted_map. eapply StronglySorted_impl; [|apply sorted_unstable_by_key_sorted].
        intros x y _ _ Hle. unfold key_le in Hle. apply le_b_true in Hle as [Hlt| ->]; [|done].
        unfold cmp, Z_ord in Hlt. rewrite Z.compare_lt_iff in Hlt. lia.
      - apply StronglySorted_map, StronglySorted_filter.
        pose proof (HA0 H0) as Hs0. rewrite StronglySorted_map in Hs0.
        eapply StronglySorted_impl; [|exact Hs0]. cbn. lia. }
    by rewrite <- fmap_reverse, first_some_fmap.
  - transitivity (first_some (λ g, btree_get k (contents g)) (sc_gen <$> selected));
      [|apply (first_some_fmap (λ g, btree_get k (contents g)) sc_gen)].
    apply first_some_perm.
    + intros x y Hx Hy Hfx Hfy.
      rewrite elem_of_reverse, Hp in Hx, Hy.
      apply list_elem_of_fmap in Hx as (sx & -> & [_ Hx]%list_elem_of_filter).
      apply list_elem_of_fmap in Hy as (sy & -> & [_ Hy]%list_elem_of_filter).
      by rewrite (level_one_answer A k (HAs H0) HA sx sy Hx Hy Hfx Hfy).
    + intros x. by rewrite elem_of_reverse, Hp.
Qed.

Lemma merge_tables (ts tll : list T) F c :
  Forall2 (table_of get contents) selected ts → Forall2 (table_of get contents) mid tll →
  ∃ d, data_merge_and_sharding ts tll F c = data_sharding d F c ∧ ksorted d ∧
    ∀ k, btree_get k d
         = match first_some (find k) (newest_first level selected) with
           | Some y => Some y
           | None => first_some (find k) mid
           end.
Proof.
  intros Hts Htll.
  assert (∀ ss us, Forall2 (table_of get contents) ss us →
    ∀ u, u ∈ us → table_holds u (contents (table_gen u))) as Hholds.
  { intros ss us Hall u (i & Hi)%list_elem_of_lookup.
    destruct (Forall2_lookup_r _ _ _ _ _ Hall Hi) as (s & _ & (_ & Hh & Hg)). by rewrite Hg. }
  assert (∀ us, (∀ u, u ∈ us → table_holds u (contents (table_gen u))) →
    Forall2 table_holds us ((λ u, contents (table_gen u)) <$> us)) as Hall2.
  { intros us Hu. apply Forall2_fmap_r, Forall2_same_length_lookup_2; [done|].
    intros i x y Hx Hy. simplify_eq. apply Hu. by eapply list_elem_of_lookup_2. }
  assert (∀ us, (∀ u, u ∈ us → table_holds u (contents (table_gen u))) →
    Forall (λ l, ksorted l) ((λ u, contents (table_gen u)) <$> us)) as Hsort.
  { intros us Hu. apply Forall_fmap, Forall_forall. intros u Hin. eapply holds_sorted. by apply Hu. }
  set (sts := sorted_unstable_by_key table_gen ts).
  assert (∀ u, u ∈ sts → table_holds u (contents (table_gen u))) as Hsts.
  { intros u Hu. subst sts. rewrite sorted_unstable_by_key_perm in Hu. exact (Hholds _ _ Hts u Hu). }
  pose proof (Hholds _ _ Htll) as Hlls.
  exists (merged ((λ u, contents (table_gen u)) <$> sts) ((λ u, contents (table_gen u)) <$> tll)).
  split; [apply data_merge_and_sharding_spec; by apply Hall2|].
  split; [by apply (merged_spec _ _ []); apply Hsort|].
  intros k. destruct (merged_spec ((λ u, contents (table_gen u)) <$> sts)
    ((λ u, contents (table_gen u)) <$> tll) k (Hsort _ Hsts) (Hsort _ Hlls)) as [_ ->].
  rewrite first_some_app, <- !fmap_reverse, !first_some_fmap.
  rewrite <- (selected_order ts k Hts), <- fmap_reverse, first_some_fmap. fold sts.
  destruct (first_some _ (reverse sts)); [done|].
  destruct (scope_meta_tables _ _ _ _ Htll) as [_ Hg].
  rewrite <- (first_some_fmap (λ g, btree_get k (contents g)) table_gen).
  rewrite fmap_reverse, Hg, <- fmap_reverse, first_some_fmap. symmetry. apply first_some_perm.
  - intros x y Hx Hy.
    apply (level_one_answer (pre ++ mid ++ post) k HBs HB); set_solver.
  - intros x. by rewrite elem_of_reverse.
Qed.

(** *** The new tables *)

Context (d : list KeyValue) (shards : list (Z * list KeyValue)) (created : list (Scope * TableMeta)).
Context (tables : gmap Z T) (cells : nat).
Context (Hd : ksorted d) (Hshards : concat shards.*2 = d).
Context (Hget : ∀ k, btree_get k d
         = match first_some (find k) (newest_first level selected) with
           | Some y => Some y
           | None => first_some (find k) mid
           end).
Context (Hnew : Forall2 (new_table tables cells) shards created).

Lemma data_source k : btree_get k d ≠ None → ∃ s, s ∈ selected ++ mid ∧ find k s ≠ None.
Proof.
  rewrite Hget. intros Hk.
  destruct (first_some (find k) (newest_first level selected)) as [y|] eqn:E.
  - apply first_some_elem in E as (s & Hs & Hy). exists s. split; [|congruence].
    apply elem_of_app. left. unfold newest_first in Hs. case_decide; [|done].
    by rewrite elem_of_reverse in Hs.
  - destruct (first_some (find k) mid) as [y|] eqn:E2; [|done].
    apply first_some_elem in E2 as (s & Hs & Hy). exists s. split; [|congruence].
    apply elem_of_app. by right.
Qed.

Lemma data_between e :
  e ∈ d → (∀ r, r ∈ pre → cmp (sc_end r) e.1 = Lt) ∧ (∀ r, r ∈ post → cmp e.1 (sc_start r) = Lt).
Proof.
  intros He. destruct (data_source e.1) as (s & Hs & Hk).
  { destruct e as [k v]. apply btree_get_Some in He; [|done]. cbn. congruence. }
  by eapply merged_between.
Qed.

Lemma round_sorted : level_sorted (pre ++ created.*1 ++ post).
Proof.
  pose proof HBs as [Hwf (H1 & H2 & (_ & _ & H3)%StronglySorted_app)%StronglySorted_app].
  destruct (new_tables_sorted _ _ _ _ Hnew) as [Hcwf Hcs]; [by rewrite Hshards|].
  rewrite !Forall_app in Hwf. destruct Hwf as (Hw1 & _ & Hw3).
  split; [by rewrite !Forall_app|].
  apply StronglySorted_app. split_and!; [|done|].
  - intros r c Hr [Hc|Hc]%elem_of_app; [|apply H1; [done|set_solver]].
    destruct (new_tables_bounds _ _ _ _ _ Hnew Hc) as (e & _ & He & _ & Hst & _).
    rewrite Hshards in He. unfold scope_before. rewrite Hst. by apply data_between.
  - apply StronglySorted_app. split_and!; [|done|done].
    intros c r Hc Hr. destruct (new_tables_bounds _ _ _ _ _ Hnew Hc) as (_ & e & _ & He & _ & Hend).
    rewrite Hshards in He. unfold scope_before. rewrite Hend. by apply data_between.
Qed.

Context (contents' : Z → list KeyValue).
Context (Hold : ∀ s, s ∈ A ++ pre ++ mid ++ post → contents' (sc_gen s) = contents (sc_gen s)).
Context (Hnew' : ∀ sh, sh ∈ shards → contents' sh.1 = sh.2).

Lemma created_find k : first_some (scope_find contents' k) created.*1 = btree_get k d.
Proof.
  rewrite <- Hshards, btree_get_concat by (by rewrite Hshards).
  assert (∀ shs crs, Forall2 (new_table tables cells) shs crs → (∀ sh, sh ∈ shs → sh ∈ shards) →
    first_some (scope_find contents' k) crs.*1 = first_some (btree_get k) shs.*2) as Hgen.
  { induction 1 as [|sh c shs crs Hn _ IH]; intros Hin; [done|]. cbn.
    unfold scope_find at 1. rewrite (new_gen _ _ _ _ Hn), Hnew' by (apply Hin; by left).
    rewrite IH; [done|]. intros sh' Hsh'. apply Hin. by right. }
  by apply Hgen.
Qed.

Lemma round_find k :
  first_some (scope_find contents' k) (newest_first level kept ++ pre ++ created.*1 ++ post)
  = first_some (find k) (newest_first level A ++ pre ++ mid ++ post).
Proof.
  assert (∀ l, (∀ s, s ∈ l → s ∈ A ++ pre ++ mid ++ post) →
    first_some (scope_find contents' k) l = first_some (find k) l) as Hsame.
  { intros l Hl. apply first_some_ext. intros s Hs. unfold scope_find. by rewrite Hold by auto. }
  assert (∀ l s, s ∈ newest_first level l → s ∈ l) as Hnf.
  { intros l s. unfold newest_first. case_decide; [by rewrite elem_of_reverse|done]. }
  transitivity (first_some (scope_find contents' k) (newest_first level A ++ pre ++ mid ++ post)).
  2: { apply Hsame. intros s [Hs%Hnf|Hs]%elem_of_app; set_solver. }
  apply (first_some_replace _ _ (newest_first level selected) mid _ _ _ _ _ (btree_get k d)).
  - rewrite !Hsame; [apply upper_split|..]; intros s Hs%Hnf;
      rewrite ?list_elem_of_filter in Hs; set_solver.
  - rewrite !Hsame by set_solver. apply lower_split.
  - rewrite Hget, !Hsame; [done|set_solver|].
    intros s [_ Hs]%Hnf%list_elem_of_filter. set_solver.
  - apply created_find.
  - intros Hk. rewrite Hsame by set_solver. destruct (data_source k Hk) as (s & Hs & Hks).
    destruct (merged_between k s Hs Hks). by apply outside_none.
Qed.
End round.

(** ** One round on the levels *)

(** Replacing two adjacent levels. *)
Lemma levels_frame (slice : LevelSlice) level A B :
  length slice = MAX_LEVEL → slice !! level = Some A → slice !! (level + 1) = Some B →
  ∃ X Y, ∀ A' B' v, level_slice v = <[level + 1 := B']> (<[level := A']> slice) →
    version_tables v = X ++ (newest_first level A' ++ B') ++ Y ∧
    concat (level_slice v) ≡ₚ A' ++ B' ++ X ++ Y.
Proof.
  intros Hlen HA HB. destruct slice as [|l0 [|l1 [|l2 [|l3 [|]]]]]; try done.
  pose proof (lookup_lt_Some _ _ _ HB) as Hlt. cbn in Hlt. clear Hlen.
  destruct level as [|[|[|level]]]; [..|lia]; cbn in HA, HB; simplify_eq.
  - exists [], (l2 ++ l3). intros A' B' v E. unfold version_tables. rewrite E. cbn.
    unfold newest_first. rewrite decide_True by done. rewrite app_nil_r, <- !app_assoc. done.
  - exists (reverse l0), l3. intros A' B' v E. unfold version_tables. rewrite E. cbn.
    unfold newest_first. rewrite decide_False by done. rewrite app_nil_r, <- !app_assoc.
    split; [done|]. rewrite (reverse_Permutation l0), (Permutation_app_comm l0).
    rewrite <- !app_assoc. do 2 f_equiv. apply Permutation_app_comm.
  - exists (reverse l0 ++ l1), []. intros A' B' v E. unfold version_tables. rewrite E. cbn.
    unfold newest_first. rewrite decide_False by done. rewrite !app_nil_r, <- !app_assoc.
    split; [done|]. rewrite (reverse_Permutation l0), (app_assoc l0), (Permutation_app_comm (l0 ++ l1)).
    by rewrite <- !app_assoc.
Qed.

Section compaction_levels.
Context `{IT : Itertools} {ITL : ItertoolsLaws}.

Lemma strict_gens_sorted ss :
  StronglySorted Z.lt (sc_gen <$> ss) → sorted_by_key sc_gen ss = ss.
Proof.
  intros Hs. apply sorted_by_key_id. rewrite StronglySorted_map in Hs.
  eapply StronglySorted_impl; [|exact Hs]. intros x y _ _ Hlt. unfold key_le.
  apply le_b_true. left. unfold cmp, Z_ord. by apply Z.compare_lt_iff.
Qed.

Lemma compaction_levels (slice : LevelSlice) level A pre mid post created del_l del_ll :
  slice !! level = Some A → slice !! (level + 1) = Some (pre ++ mid ++ post) →
  StronglySorted Z.lt (sc_gen <$> created.*1) →
  res_foldM levels_edit slice (compaction_edits level (length pre) created del_l del_ll)
  = Ok (<[level + 1 := filter (λ s, sc_gen s ∉ del_ll.1) (pre ++ created.*1 ++ mid ++ post)]>
         (<[level := filter (λ s, sc_gen s ∉ del_l.1) A]> slice)).
Proof.
  intros HA HB Hs. pose proof (lookup_lt_Some _ _ _ HA). pose proof (lookup_lt_Some _ _ _ HB).
  unfold compaction_edits. cbn [res_foldM]. unfold levels_edit at 1. cbn [apply_edit].
  rewrite HB. cbn [or_panic res_bind]. rewrite decide_False by (unfold LEVEL_0; lia).
  rewrite strict_gens_sorted, vec_insert_all by (done || rewrite length_app; lia).
  cbn [res_bind fst]. rewrite take_app_length, drop_app_length.
  unfold levels_edit at 1. cbn [apply_edit]. rewrite list_lookup_insert_ne, HA by lia.
  cbn [or_panic res_bind fst]. unfold levels_edit at 1. cbn [apply_edit].
  rewrite list_lookup_insert_ne by lia. rewrite list_lookup_insert_eq by lia.
  cbn [or_panic res_bind fst]. f_equal.
  rewrite (list_insert_insert_ne _ level (level + 1)) by lia. by rewrite list_insert_insert_eq.
Qed.

(** Deleting the selected generations. *)
Lemma filter_gens (P : Scope → Prop) `{∀ s, Decision (P s)} (A : list Scope) :
  NoDup (sc_gen <$> A) →
  filter (λ s, sc_gen s ∉ sc_gen <$> filter P A) A = filter (λ s, ¬ P s) A.
Proof.
  intros Hnd. apply filter_iff_in. intros s Hs. split.
  - intros Hn HP. apply Hn. by apply list_elem_of_fmap_2, list_elem_of_filter.
  - intros HP (s' & Hg & [HP' Hs']%list_elem_of_filter)%list_elem_of_fmap.
    apply HP. by rewrite (NoDup_fmap_elem sc_gen A s s').
Qed.
End compaction_levels.

(** ** One round on the store *)

Section round_store.
Context {SM : SkipMapOps InternalKey (option bytes)}.
Context `{IE : IntegerEncoding} {IEL : IntegerEncodingLaws} {CRC : Crc32}.
Context {IT : Itertools} {ITL : ItertoolsLaws} {BC : Bincode (list RawEdit)}.
Context {T : Type} {TB : Table T} {BLD : TableBuilder T} {BLDL : TableBuilderLaws T}.
Context (config : Config) (contents : Z → list KeyValue) (st : Store T) (level : nat) (target : Scope).
Context (Hinv : store_inv contents st) (Hsel : selection_ok contents st level target).
Context (Hsize : (0 < cfg_sst_file_size config)%N).

Abbreviation version := (vs_version (so_status st)).
Abbreviation find := (scope_find contents).

Context (A B : list Scope).
Context (HlA : level_slice version !! level = Some A).
Context (HlB : level_slice version !! (level + 1) = Some B).

Abbreviation selected := (filter (λ s, scope_meet s target = true) A).
Abbreviation kept := (filter (λ s, ¬ scope_meet s target = true) A).

Lemma level_gens l i : level_slice version !! i = Some l → ∀ s, s ∈ l → sc_gen s ∈ version_gens version.
Proof.
  intros Hl s Hs. apply list_elem_of_fmap_2, elem_of_concat. exists l. split; [|done].
  by eapply list_elem_of_lookup_2.
Qed.

Lemma level_gens_nodup l i : level_slice version !! i = Some l → NoDup (sc_gen <$> l).
Proof.
  intros Hl. pose proof (si_gens _ _ Hinv) as Hnd. unfold version_gens in Hnd.
  rewrite <- (take_drop_middle _ _ _ Hl), concat_app in Hnd. cbn [concat] in Hnd.
  rewrite !fmap_app, !NoDup_app in Hnd. naive_solver.
Qed.

Lemma level_loaded l i :
  level_slice version !! i = Some l → ∀ s, s ∈ l → scope_loaded (store_get st) contents s.
Proof.
  intros Hl s Hs. eapply (wf_loaded _ _ _ _ (si_wf _ _ Hinv) l); [|done].
  by eapply list_elem_of_lookup_2.
Qed.

Lemma next_level_sorted : level_sorted B.
Proof.
  eapply (wf_sorted _ _ _ _ (si_wf _ _ Hinv)). apply list_elem_of_lookup. exists level.
  rewrite lookup_drop. by replace (1 + level) with (level + 1) by lia.
Qed.

Lemma upper_level_sorted : level ≠ LEVEL_0 → level_sorted A.
Proof.
  intros Hne. eapply (wf_sorted _ _ _ _ (si_wf _ _ Hinv)). apply list_elem_of_lookup.
  exists (level - 1). rewrite lookup_drop. unfold LEVEL_0 in Hne.
  by replace (1 + (level - 1)) with level by lia.
Qed.

(** The part of the next level the selected tables meet. *)
Record lower_cut (f : Scope) (pre mid post : list Scope) : Prop := {
  cut_fusion : scope_fusion selected = Some f;
  cut_level : B = pre ++ mid ++ post;
  cut_pre s : s ∈ pre → scope_before s f;
  cut_mid s : s ∈ mid → scope_meet s f = true;
  cut_post s : s ∈ post → scope_before f s;
  cut_index : mid = [] → pre = [];
}.

Lemma fusion_scope_wf f : scope_fusion selected = Some f → scope_wf f.
Proof.
  intros Hf. eapply fusion_wf; [done|]. apply Forall_forall. intros s [_ Hs]%list_elem_of_filter.
  eapply loaded_wf. by eapply (level_loaded A).
Qed.

Lemma lower_cut_exists : selected ≠ [] → ∃ f pre mid post, lower_cut f pre mid post.
Proof.
  intros Hne. destruct (fusion_is_Some _ Hne) as [f Hf]. pose proof (fusion_scope_wf f Hf) as Hwf.
  pose proof next_level_sorted as HBs.
  destruct (level_split B f HBs Hwf) as (pre & mid & post & HB & Hpre & Hmid & Hpost).
  exists f, pre, mid, post. split; try done. intros ->.
  destruct (Hsel A B HlA HlB) as [_ Hidx]. destruct (Hidx f Hf) as [(s & Hs & Hm)|Hall].
  - exfalso. rewrite HB in Hs. destruct HBs as [Hw _]. rewrite HB, Forall_forall in Hw.
    specialize (Hw s Hs). cbn [app] in Hs. apply elem_of_app in Hs as [Hs|Hs].
    + destruct (scope_before_meet s f Hw Hwf (Hpre s Hs)). congruence.
    + destruct (scope_before_meet f s Hwf Hw (Hpost s Hs)). congruence.
  - destruct pre as [|s pre]; [done|]. exfalso.
    specialize (Hall s ltac:(rewrite HB; by left)). specialize (Hpre s ltac:(by left)).
    assert (scope_wf s) as Hs.
    { destruct HBs as [Hw _]. rewrite HB, Forall_forall in Hw. apply Hw. by left. }
    pose proof (scope_before_trans f s f Hs Hall Hpre) as Hff.
    unfold scope_before, scope_wf in *. apply le_b_false in Hff. congruence.
Qed.

(** What [tables_by_scopes] returns on the next level. *)
Lemma lower_tables f pre mid post :
  lower_cut f pre mid post →
  ∃ tll, tables_by_scopes (store_get st) version (level + 1) f = Ok (tll, mid, length pre) ∧
         Forall2 (table_of (store_get st) contents) mid tll.
Proof.
  intros [Hf HB Hpre Hmid Hpost Hidx]. pose proof (fusion_scope_wf f Hf) as Hwf.
  pose proof next_level_sorted as [Hw _]. rewrite HB, Forall_forall in Hw.
  assert (∀ s, s ∈ pre → scope_meet s f = false) as Hpre'.
  { intros s Hs. apply (scope_before_meet s f); [apply Hw; set_solver|done|by apply Hpre]. }
  assert (∀ s, s ∈ post → scope_meet s f = false) as Hpost'.
  { intros s Hs. apply (scope_before_meet f s); [done|apply Hw; set_solver|by apply Hpost]. }
  destruct (meeting_tables_loaded (store_get st) contents f B) as (tll & Hall & E1 & E2 & E3).
  { by eapply level_loaded. }
  rewrite HB, filter_meet_split in Hall, E2 by done.
  exists tll. split; [|done]. unfold tables_by_scopes. rewrite HlB. cbn [or_panic res_bind].
  rewrite HB in *. rewrite E1, E2, E3. do 2 f_equal.
  destruct mid as [|s mid].
  - rewrite (Hidx eq_refl) in *. cbn [app length].
    rewrite filter_none; [done|]. intros [i s] [_ Hs]%enum_from_elem. cbn.
    rewrite Hpost'; [done|]. by eapply list_elem_of_lookup_2.
  - by rewrite first_index_split by done.
Qed.

Lemma sum_list_pos (l : list KeyValue) e : e ∈ l → e.1 ≠ [] → 0 < total_bytes l.
Proof.
  intros (l1 & l2 & ->)%list_elem_of_split Hne. rewrite total_bytes_app. unfold total_bytes.
  cbn. unfold key_value_bytes_len. destruct e.1; [done|]. cbn. lia.
Qed.

(** What a round loads: the merge of the selected tables, cut into shards. *)
Record loaded_round (pre mid : list Scope) (d : list KeyValue) (shards : list (Z * list KeyValue))
    (c : Counters) : Prop := {
  lr_sorted : ksorted d;
  lr_shards : concat shards.*2 = d;
  lr_get k : btree_get k d
    = match first_some (find k) (newest_first level selected) with
      | Some y => Some y
      | None => first_some (find k) mid
      end;
  lr_shard s : s ∈ shards → s.2 ≠ [] ∧ (gen_buf (so_counters st) ≤ s.1 < gen_buf c)%Z;
  lr_gens : StronglySorted Z.lt shards.*1;
  lr_counters : (gen_buf (so_counters st) ≤ gen_buf c)%Z;
  lr_seq : seq_count c = seq_count (so_counters st);
}.

Lemma level_0_gens : level = LEVEL_0 → StronglySorted Z.lt (sc_gen <$> A).
Proof. intros H0. apply (si_level_0 _ _ Hinv). rewrite H0 in HlA. exact HlA. Qed.

(** The merge of at least one table is not empty. *)
Lemma merged_nonempty mid d :
  selected ≠ [] → ksorted d →
  (∀ k, btree_get k d
    = match first_some (find k) (newest_first level selected) with
      | Some y => Some y
      | None => first_some (find k) mid
      end) → 0 < total_bytes d.
Proof.
  intros Hne Hd Hget.
  assert (∃ s, s ∈ selected) as [s Hs] by (destruct selected; [done|eexists; by left]).
  pose proof Hs as [_ HsA]%list_elem_of_filter.
  pose proof (level_gens A level HlA s HsA) as Hg.
  destruct (contents (sc_gen s)) as [|[k v] l] eqn:Ec; [by destruct (si_nonempty _ _ Hinv _ Hg)|].
  assert (btree_get k d ≠ None) as Hk.
  { rewrite Hget. destruct (first_some _ (newest_first level _)) eqn:En; [done|].
    rewrite first_some_None_iff in En. exfalso.
    assert (s ∈ newest_first level selected) as Hin
      by (unfold newest_first; case_decide; [by apply elem_of_reverse|done]).
    specialize (En s Hin). unfold scope_find in En. rewrite Ec in En. cbn in En.
    by rewrite cmp_refl in En. }
  destruct (btree_get k d) as [w|] eqn:Ew; [|done]. apply btree_get_Some in Ew; [|done].
  apply (sum_list_pos d (k, w) Ew). apply (si_keys _ _ Hinv (sc_gen s) (k, v)); [done|].
  rewrite Ec. by left.
Qed.

Lemma data_loading_spec skip f pre mid post :
  lower_cut f pre mid post → selected ≠ [] → level ≤ MAX_LEVEL - 2 →
  (skip = true ∨ is_threshold_exceeded_major version config level = Ok true) →
  ∃ d shards c, loaded_round pre mid d shards c ∧
    data_loading_with_level config st level target skip
    = Ok (Some (length pre,
                ((sc_gen <$> selected, meta_sum (scope_meta (store_get st) <$> selected)),
                 (sc_gen <$> mid, meta_sum (scope_meta (store_get st) <$> mid))), shards),
          set_counters st c).
Proof.
  intros Hcut Hne Hlevel Hexc. destruct (lower_tables _ _ _ _ Hcut) as (tll & Htll & Hmid).
  pose proof (level_loaded A level HlA) as HlA'. pose proof (level_loaded B _ HlB) as HlB'.
  destruct (meeting_tables_loaded (store_get st) contents target A HlA') as (ts & Hts & E1 & E2 & _).
  assert (tables_by_scopes (store_get st) version level target
    = Ok (ts, selected, default 0 (head (meeting_tables (store_get st) target A).*1))) as Hsel_l.
  { unfold tables_by_scopes. rewrite HlA. cbn [or_panic res_bind]. by rewrite E1, E2. }
  pose proof Hcut as [Hf HB Hpre Hmid' Hpost _].
  pose proof next_level_sorted as HBs. rewrite HB in HBs, HlB'.
  destruct (merge_tables (store_get st) contents level A pre mid post target f HlA' HlB'
    upper_level_sorted level_0_gens HBs (proj1 (Hsel A B HlA HlB)) Hf Hpre Hpost ts tll
    (N.to_nat (cfg_sst_file_size config)) (so_counters st) Hts Hmid) as (d & Hd & Hds & Hget).
  destruct (scope_meta_tables _ _ _ _ Hts) as [Hm1 Hg1].
  destruct (scope_meta_tables _ _ _ _ Hmid) as [Hm2 Hg2].
  assert (0 < total_bytes d) as Hpos.
  { by apply (merged_nonempty mid). }
  destruct (data_sharding_spec d (N.to_nat (cfg_sst_file_size config)) (so_counters st))
    as (shards & c & Hsh & Hcat & Hall & Hgs & Hsq & Hle); [lia|done|].
  exists d, shards, c. split.
  { split; try done. intros s Hs. by destruct (Hall s Hs) as (? & _ & ?). }
  unfold data_loading_with_level. rewrite decide_False by lia.
  assert ((if skip then Ok true else is_threshold_exceeded_major version config level) = Ok true)
    as -> by (destruct Hexc as [->| ->]; [done|by destruct skip]).
  cbn [res_bind negb]. rewrite Hsel_l. cbn [res_bind].
  destruct selected as [|s0 sel0] eqn:Es; [done|]. rewrite <- Es in *.
  rewrite Hf. cbn [default from_option id]. rewrite Htll. cbn [res_bind].
  rewrite !collect_gen_spec.
  - cbn [res_bind]. rewrite Hd, Hsh, Hg1, Hg2, Hm1, Hm2. done.
  - rewrite Hg2. pose proof (level_gens_nodup B _ HlB) as Hnd. rewrite HB, !fmap_app, !NoDup_app in Hnd.
    naive_solver.
  - rewrite Hg1. pose proof (level_gens_nodup A _ HlA) as Hnd.
    by apply NoDup_fmap_filter.
Qed.

(** *** The version after the round *)

Context (f : Scope) (pre mid post : list Scope) (d : list KeyValue).
Context (shards : list (Z * list KeyValue)) (c : Counters).
Context (created : list (Scope * TableMeta)) (st2 : Store T).
Context (Hcut : lower_cut f pre mid post) (Hlr : loaded_round pre mid d shards c).
Context (Hcreated : Forall2 (new_table (so_tables st2) (length (so_seeks st2))) shards created).
Context (Htables : ∀ g, g ∉ shards.*1 → so_tables st2 !! g = so_tables st !! g).
Context (Hseeks : so_seeks st2 = so_seeks st ++ replicate (length shards) 0%Z).

Definition round_contents (g : Z) : list KeyValue :=
  default (contents g) ((list_to_map shards : gmap Z (list KeyValue)) !! g).

Lemma created_gens : sc_gen <$> created.*1 = shards.*1.
Proof. by eapply new_tables_gens. Qed.

Lemma shards_nodup : NoDup shards.*1.
Proof.
  pose proof (lr_gens _ _ _ _ _ Hlr) as Hs. clear -Hs.
  induction Hs as [|g gs Hs IH Hg]; constructor; [|done].
  intros Hin. rewrite Forall_forall in Hg. apply Hg in Hin. lia.
Qed.

(** Generations of the old version are not among the new ones. *)
Lemma old_gen_fresh g : g ∈ version_gens version → g ∉ shards.*1.
Proof.
  intros Hg (sh & -> & Hsh)%list_elem_of_fmap.
  pose proof (lr_shard _ _ _ _ _ Hlr sh Hsh) as [_ ?].
  pose proof (si_fresh _ _ Hinv _ Hg). lia.
Qed.

Lemma round_contents_old g : g ∈ version_gens version → round_contents g = contents g.
Proof.
  intros Hg%old_gen_fresh. unfold round_contents.
  by rewrite not_elem_of_list_to_map_1.
Qed.

Lemma round_contents_new sh : sh ∈ shards → round_contents sh.1 = sh.2.
Proof.
  intros Hsh. unfold round_contents. destruct sh as [g l].
  rewrite (elem_of_list_to_map_1 shards g l); [done|apply shards_nodup|done].
Qed.

Lemma next_level_filter :
  filter (λ s, sc_gen s ∉ sc_gen <$> mid) (pre ++ created.*1 ++ mid ++ post)
  = pre ++ created.*1 ++ post.
Proof.
  pose proof (cut_level _ _ _ _ Hcut) as HB.
  pose proof (level_gens_nodup B _ HlB) as Hnd. rewrite HB, !fmap_app in Hnd.
  apply NoDup_app in Hnd as (_ & Hd1 & (_ & Hd2 & _)%NoDup_app).
  rewrite !filter_app, (filter_all _ pre), (filter_all _ created.*1), (filter_none _ mid),
    (filter_all _ post); [done|..].
  - intros s Hs Hin. apply (Hd2 _ Hin). by apply list_elem_of_fmap_2.
  - intros s Hs Hn. apply Hn. by apply list_elem_of_fmap_2.
  - intros s Hs (s' & E & Hs')%list_elem_of_fmap.
    assert (sc_gen s ∈ shards.*1) as Hin by (rewrite <- created_gens; by apply list_elem_of_fmap_2).
    rewrite E in Hin. revert Hin. apply old_gen_fresh. apply (level_gens B _ HlB).
    rewrite HB. set_solver.
  - intros s Hs Hin. apply (Hd1 (sc_gen s)); [by apply list_elem_of_fmap_2|set_solver].
Qed.

Abbreviation round_levels :=
  (<[level + 1 := pre ++ created.*1 ++ post]> (<[level := kept]> (level_slice version))).

Lemma round_levels_edit mm ml :
  res_foldM levels_edit (level_slice version)
    (compaction_edits level (length pre) created (sc_gen <$> selected, mm) (sc_gen <$> mid, ml))
  = Ok round_levels.
Proof.
  rewrite (compaction_levels _ level A pre mid post).
  - cbn [fst]. rewrite next_level_filter, filter_gens; [done|]. by eapply level_gens_nodup.
  - done.
  - by rewrite HlB, (cut_level _ _ _ _ Hcut).
  - rewrite created_gens. apply (lr_gens _ _ _ _ _ Hlr).
Qed.

(** The rest of the version, before and after. *)
Lemma round_frame :
  ∃ X Y, version_tables version = X ++ (newest_first level A ++ pre ++ mid ++ post) ++ Y ∧
    concat (level_slice version) ≡ₚ A ++ (pre ++ mid ++ post) ++ X ++ Y ∧
    ∀ v, level_slice v = round_levels →
      version_tables v = X ++ (newest_first level kept ++ pre ++ created.*1 ++ post) ++ Y ∧
      concat (level_slice v) ≡ₚ kept ++ (pre ++ created.*1 ++ post) ++ X ++ Y.
Proof.
  destruct (levels_frame (level_slice version) level A B) as (X & Y & Hframe);
    [apply (si_wf _ _ Hinv)|done..|].
  exists X, Y. destruct (Hframe A B version) as [H1 H2].
  { by rewrite (list_insert_id _ level), (list_insert_id _ (level + 1)) by done. }
  rewrite (cut_level _ _ _ _ Hcut) in H1, H2. split_and!; [done..|].
  intros v Hv. by apply Hframe.
Qed.

Lemma old_scope_meta s :
  sc_gen s ∈ version_gens version → scope_meta (store_get st2) s = scope_meta (store_get st) s.
Proof.
  intros Hg%old_gen_fresh. unfold scope_meta, store_get. by rewrite Htables.
Qed.

Lemma created_meta : scope_meta (store_get st2) <$> created.*1 = created.*2.
Proof.
  rewrite <- list_fmap_compose. apply list_fmap_ext. intros i cr Hi.
  destruct (Forall2_lookup_r _ _ _ _ _ Hcreated Hi) as (sh & _ & Hn).
  destruct (new_loaded _ _ _ _ Hn) as (t & Ht & _ & _ & Hm). unfold compose, scope_meta, store_get.
  by rewrite (new_gen _ _ _ _ Hn), Ht.
Qed.

Lemma round_meta :
  let total := meta_sum (scope_meta (store_get st2) <$> concat round_levels) in
  statistical_process (meta_data version)
    (edit_event <$> compaction_edits level (length pre) created
      (sc_gen <$> selected, meta_sum (scope_meta (store_get st) <$> selected))
      (sc_gen <$> mid, meta_sum (scope_meta (store_get st) <$> mid)))
  = Ok {| vm_size_of_disk := tm_size_of_disk total; vm_len := tm_len total |}.
Proof.
  cbv zeta. destruct round_frame as (X & Y & _ & Hold & Hnew).
  destruct (Hnew (mkVersion 0 round_levels (meta_data version)) eq_refl) as [_ Hp]. cbn in Hp.
  assert (∀ l : list Scope, (∀ s, s ∈ l → s ∈ concat (level_slice version)) →
    scope_meta (store_get st2) <$> l = scope_meta (store_get st) <$> l) as Hsame.
  { intros l Hl. apply list_fmap_ext. intros i s Hs. apply old_scope_meta.
    apply list_elem_of_fmap_2, Hl. by eapply list_elem_of_lookup_2. }
  rewrite statistical_process_spec, (si_meta _ _ Hinv). cbv zeta.
  assert (scope_meta (store_get st) <$> concat (level_slice version)
    ≡ₚ (scope_meta (store_get st) <$> kept) ++ (scope_meta (store_get st) <$> selected)
       ++ (scope_meta (store_get st) <$> pre) ++ (scope_meta (store_get st) <$> mid)
       ++ (scope_meta (store_get st) <$> post) ++ (scope_meta (store_get st) <$> X ++ Y)) as Hp1.
  { rewrite Hold. rewrite <- (filter_app_complement (λ s, scope_meet s target = true) A) at 1.
    rewrite (Permutation_app_comm selected kept), !fmap_app. by rewrite <- !app_assoc. }
  assert (scope_meta (store_get st2) <$> concat round_levels
    ≡ₚ (scope_meta (store_get st) <$> kept) ++ (scope_meta (store_get st) <$> pre) ++ created.*2
       ++ (scope_meta (store_get st) <$> post) ++ (scope_meta (store_get st) <$> X ++ Y)) as Hp2.
  { rewrite Hp, !fmap_app, created_meta, !Hsame; [by rewrite <- !app_assoc|..]; intros s Hs;
      rewrite Hold; rewrite ?list_elem_of_filter in Hs; set_solver. }
  rewrite (meta_sum_perm _ _ Hp1), (meta_sum_perm _ _ Hp2), !meta_sum_app.
  cbn [edit_event compaction_edits fmap list_fmap add_total del_total foldr fst snd meta_plus
       tm_size_of_disk tm_len vm_size_of_disk vm_len].
  rewrite table_meta_fusion_sum, decide_True by lia. f_equal. f_equal; lia.
Qed.

(** *** The invariant after the round *)

(** A scope of the new version is an old one or a created one. *)
Lemma round_scopes s :
  s ∈ concat round_levels → s ∈ concat (level_slice version) ∨ s ∈ created.*1.
Proof.
  destruct round_frame as (X & Y & _ & Hold & Hnew).
  destruct (Hnew (mkVersion 0 round_levels (meta_data version)) eq_refl) as [_ Hp]. cbn in Hp.
  rewrite Hp, Hold, !elem_of_app, list_elem_of_filter. naive_solver.
Qed.

Lemma old_scope_elem s : s ∈ concat (level_slice version) → sc_gen s ∈ version_gens version.
Proof. intros Hs. by apply list_elem_of_fmap_2. Qed.

Lemma created_elem cr : cr ∈ created.*1 →
  ∃ sh m, sh ∈ shards ∧ new_table (so_tables st2) (length (so_seeks st2)) sh (cr, m).
Proof.
  intros ((cr0 & m) & -> & (i & Hi)%list_elem_of_lookup)%list_elem_of_fmap.
  destruct (Forall2_lookup_r _ _ _ _ _ Hcreated Hi) as (sh & Hsh & Hn).
  exists sh, m. split; [by eapply list_elem_of_lookup_2|done].
Qed.

Lemma round_loaded s :
  s ∈ concat round_levels → scope_loaded (store_get st2) round_contents s ∧ scope_cell (so_seeks st2) s.
Proof.
  intros [Hs|Hs]%round_scopes.
  - pose proof (old_scope_elem s Hs) as Hg. apply elem_of_concat in Hs as (l & Hl & Hs).
    pose proof (wf_loaded _ _ _ _ (si_wf _ _ Hinv) l s Hl Hs) as [(t & Ht & Hh & Htg) Hin Hwf].
    split.
    + split; rewrite ?round_contents_old by done; [|done|done].
      exists t. unfold store_get in *. rewrite Htables; [done|by apply old_gen_fresh].
    + intros loc Hloc. rewrite Hseeks, length_app.
      pose proof (wf_cells _ _ _ _ (si_wf _ _ Hinv) l s Hl Hs loc Hloc). lia.
  - apply created_elem in Hs as (sh & m & Hsh & Hn).
    destruct (new_loaded _ _ _ _ Hn) as (t & Ht & Hh & Htg & _).
    pose proof (new_gen _ _ _ _ Hn) as Hgen. cbn [fst] in Hgen. split.
    + split; rewrite ?Hgen, ?round_contents_new by done.
      * exists t. by split_and!.
      * apply (new_within _ _ _ _ Hn).
      * apply (new_wf _ _ _ _ Hn).
    + exact (new_cell _ _ _ _ Hn).
Qed.

Lemma level_sorted_filter (P : Scope → Prop) `{∀ s, Decision (P s)} l :
  level_sorted l → level_sorted (filter P l).
Proof.
  intros [Hw Hs]. split; [|by apply StronglySorted_filter].
  apply Forall_forall. intros s [_ Hin]%list_elem_of_filter. rewrite Forall_forall in Hw. by apply Hw.
Qed.

Lemma round_level_sorted : level_sorted (pre ++ created.*1 ++ post).
Proof.
  pose proof Hcut as [Hf HB Hpre Hmid Hpost _].
  pose proof next_level_sorted as HBs. pose proof (level_loaded B _ HlB) as HlB'.
  rewrite HB in HBs, HlB'.
  eapply (round_sorted (store_get st) contents level A pre mid post target f
    (level_loaded A _ HlA) HlB' upper_level_sorted level_0_gens HBs (proj1 (Hsel A B HlA HlB))
    Hf Hpre Hpost d shards created); [apply Hlr..|exact Hcreated].
Qed.

Lemma round_wf num m :
  version_wf (store_get st2) round_contents (so_seeks st2) (mkVersion num round_levels m).
Proof.
  split; cbn [level_slice].
  - rewrite !length_insert. apply (si_wf _ _ Hinv).
  - intros l s Hl Hs. apply round_loaded. apply elem_of_concat. eauto.
  - intros l s Hl Hs. apply round_loaded. apply elem_of_concat. eauto.
  - intros l (i & Hi)%list_elem_of_lookup. rewrite lookup_drop in Hi.
    rewrite !list_lookup_insert in Hi. case_decide as E1; [|case_decide as E2].
    + simplify_eq. apply round_level_sorted.
    + simplify_eq. apply level_sorted_filter, upper_level_sorted. unfold LEVEL_0. lia.
    + apply (wf_sorted _ _ _ _ (si_wf _ _ Hinv)). apply list_elem_of_lookup. exists i.
      by rewrite lookup_drop.
Qed.

(** The generations of the version after the round: the new ones and those not deleted. *)
Lemma round_gens_split :
  ∃ rest, version_gens version ≡ₚ (sc_gen <$> selected ++ mid) ++ rest ∧
          sc_gen <$> concat round_levels ≡ₚ shards.*1 ++ rest.
Proof.
  destruct round_frame as (X & Y & _ & Hold & Hnew).
  destruct (Hnew (mkVersion 0 round_levels (meta_data version)) eq_refl) as [_ Hp]. cbn in Hp.
  exists (sc_gen <$> kept ++ (pre ++ post) ++ X ++ Y). rewrite <- created_gens, <- !fmap_app. split; apply fmap_Permutation.
  - rewrite Hold, <- (filter_app_complement (λ s, scope_meet s target = true) A) at 1.
    rewrite <- !app_assoc. apply Permutation_app_head. rewrite (Permutation_app_swap_app pre mid).
    apply Permutation_app_swap_app.
  - rewrite Hp, <- !app_assoc, (app_assoc kept pre), (Permutation_app_swap_app (kept ++ pre)).
    by rewrite <- !app_assoc.
Qed.

Lemma round_gens_nodup : NoDup (sc_gen <$> concat round_levels).
Proof.
  destruct round_gens_split as (rest & Hold & ->). pose proof (si_gens _ _ Hinv) as Hnd.
  assert (∀ g, g ∈ rest → g ∈ version_gens version) as Hin by (intros g; rewrite Hold; set_solver).
  rewrite Hold in Hnd. apply NoDup_app in Hnd as (_ & _ & Hnd). apply NoDup_app.
  split_and!; [apply shards_nodup| |done]. intros g Hg Hr. by eapply old_gen_fresh, Hg; auto.
Qed.

(** What a round deletes is what the version had and the next one does not have. *)
Lemma round_dels mm ml g :
  g ∈ edit_dels (compaction_edits level (length pre) created (sc_gen <$> selected, mm) (sc_gen <$> mid, ml)) ↔
  g ∈ version_gens version ∧ g ∉ sc_gen <$> concat round_levels.
Proof.
  destruct round_gens_split as (rest & Hold & Hnew). pose proof (si_gens _ _ Hinv) as Hnd.
  unfold edit_dels. cbn [compaction_edits fmap list_fmap concat fst]. rewrite app_nil_r. cbn [app].
  rewrite <- fmap_app, Hnew. split.
  - intros Hg. assert (g ∈ version_gens version) as Hin by (rewrite Hold; set_solver). split; [done|].
    rewrite Hold in Hnd. apply NoDup_app in Hnd as (_ & Hdisj & _). rewrite elem_of_app.
    intros [Hs|Hr]; [by eapply old_gen_fresh|by eapply Hdisj].
  - rewrite Hold. set_solver.
Qed.

Lemma round_level_0 l : round_levels !! 0 = Some l → StronglySorted Z.lt (sc_gen <$> l).
Proof.
  rewrite !list_lookup_insert. case_decide as E1; [lia|]. case_decide as E2.
  - intros [= <-]. pose proof (level_0_gens ltac:(unfold LEVEL_0; lia)) as Hs.
    rewrite StronglySorted_map in *. by apply StronglySorted_filter.
  - apply (si_level_0 _ _ Hinv).
Qed.

Lemma round_keys g e : g ∈ sc_gen <$> concat round_levels → e ∈ round_contents g →
  e.1 ≠ [].
Proof.
  intros (s & -> & [Hs|Hs]%round_scopes)%list_elem_of_fmap He.
  - apply old_scope_elem in Hs. rewrite round_contents_old in He by done.
    by eapply (si_keys _ _ Hinv).
  - apply created_elem in Hs as (sh & m & Hsh & Hn).
    pose proof (new_gen _ _ _ _ Hn) as Hgen. cbn in Hgen.
    rewrite Hgen, round_contents_new in He by done.
    assert (e ∈ d) as Hd.
    { rewrite <- (lr_shards _ _ _ _ _ Hlr). apply elem_of_concat. exists sh.2.
      split; [by apply list_elem_of_fmap_2|done]. }
    destruct (data_source contents level A mid target d (lr_get _ _ _ _ _ Hlr) e.1)
      as (s0 & Hs0 & Hk).
    { destruct e as [k v]. apply btree_get_Some in Hd; [|apply Hlr]. cbn. congruence. }
    destruct (find e.1 s0) as [w|] eqn:Ew; [|done].
    assert (s0 ∈ concat (level_slice version)) as Hin.
    { apply elem_of_concat. apply elem_of_app in Hs0 as [[_ Hs0]%list_elem_of_filter|Hs0].
      - exists A. split; [by eapply list_elem_of_lookup_2|done].
      - exists B. split; [by eapply list_elem_of_lookup_2|].
        rewrite (cut_level _ _ _ _ Hcut). set_solver. }
    pose proof (old_scope_elem s0 Hin) as Hg. apply elem_of_concat in Hin as (l & Hl & Hin).
    pose proof (wf_loaded _ _ _ _ (si_wf _ _ Hinv) l s0 Hl Hin) as [(t & _ & Hh & _) _ _].
    apply btree_get_Some in Ew; [|by eapply holds_sorted].
    by eapply (si_keys _ _ Hinv (sc_gen s0) (e.1, w)).
Qed.

Lemma round_nonempty g : g ∈ sc_gen <$> concat round_levels → round_contents g ≠ [].
Proof.
  intros (s & -> & [Hs|Hs]%round_scopes)%list_elem_of_fmap.
  - apply old_scope_elem in Hs. rewrite round_contents_old by done. by apply (si_nonempty _ _ Hinv).
  - apply created_elem in Hs as (sh & m & Hsh & Hn).
    pose proof (new_gen _ _ _ _ Hn) as Hgen. cbn in Hgen.
    rewrite Hgen, round_contents_new by done. by apply (lr_shard _ _ _ _ _ Hlr).
Qed.

Lemma round_fresh g (c' : Counters) :
  (gen_buf c ≤ gen_buf c')%Z → g ∈ sc_gen <$> concat round_levels → (g < gen_buf c')%Z.
Proof.
  intros Hc (s & -> & [Hs|Hs]%round_scopes)%list_elem_of_fmap.
  - pose proof (si_fresh _ _ Hinv _ (old_scope_elem s Hs)).
    pose proof (lr_counters _ _ _ _ _ Hlr). lia.
  - apply created_elem in Hs as (sh & m & Hsh & Hn).
    pose proof (new_gen _ _ _ _ Hn) as Hgen. cbn in Hgen.
    pose proof (lr_shard _ _ _ _ _ Hlr sh Hsh). lia.
Qed.

Lemma round_version_find k v :
  level_slice v = round_levels → version_find round_contents v k = version_find contents version k.
Proof.
  intros Hv. destruct round_frame as (X & Y & H1 & Hold & Hnew). destruct (Hnew v Hv) as [H2 _].
  unfold version_find. rewrite H1, H2.
  pose proof Hcut as [Hf HB Hpre Hmid Hpost _].
  pose proof next_level_sorted as HBs. pose proof (level_loaded B _ HlB) as HlB'.
  rewrite HB in HBs, HlB'.
  assert (∀ s, s ∈ A ++ (pre ++ mid ++ post) ++ X ++ Y →
    round_contents (sc_gen s) = contents (sc_gen s)) as Hsame.
  { intros s Hs. apply round_contents_old, old_scope_elem. by rewrite Hold. }
  apply first_some_frame.
  - intros s Hs. unfold scope_find. by rewrite Hsame by set_solver.
  - apply (round_find (store_get st) contents level A pre mid post target f
      (level_loaded A _ HlA) HlB' upper_level_sorted level_0_gens HBs (proj1 (Hsel A B HlA HlB))
      Hf Hpre Hpost d shards created (so_tables st2) (length (so_seeks st2)));
      [apply Hlr..|exact Hcreated| |].
    + intros s Hs. apply Hsame. set_solver.
    + apply round_contents_new.
Qed.

(** The store once the edits of the round are applied. *)
Lemma round_store_inv vs' c' :
  level_slice (vs_version vs') = round_levels →
  meta_data (vs_version vs')
  = (let total := meta_sum (scope_meta (store_get st2) <$> concat round_levels) in
     {| vm_size_of_disk := tm_size_of_disk total; vm_len := tm_len total |}) →
  log_ok (vs_ver_log_writer vs').1 → chan_open (vs_chan vs') = true →
  (gen_buf c ≤ gen_buf c')%Z →
  store_inv round_contents (set_status st2 vs' c').
Proof.
  intros Hs Hm Hlog Hch Hc. destruct vs' as [[num slice m] w logs n ch]. cbn in Hs, Hm, Hlog, Hch.
  subst slice m.
  split; cbn [set_status so_status so_seeks so_counters so_tables vs_version vs_ver_log_writer
    vs_chan level_slice meta_data]; unfold version_gens; cbn [level_slice].
  - apply round_wf.
  - rewrite Hseeks. unfold seeks_ok. apply Forall_app. split; [apply (si_seeks _ _ Hinv)|].
    apply Forall_replicate. lia.
  - apply round_gens_nodup.
  - intros g. by apply round_fresh.
  - apply round_level_0.
  - done.
  - done.
  - done.
  - apply round_keys.
  - apply round_nonempty.
Qed.

Lemma round_store_step vs' c' :
  level_slice (vs_version vs') = round_levels → so_mem_table st2 = so_mem_table st →
  seq_count c' = seq_count c → (gen_buf c ≤ gen_buf c')%Z →
  (∀ g, (g < gen_buf (so_counters st))%Z → so_tables st2 !! g = so_tables st !! g) →
  store_step st (set_status st2 vs' c').
Proof.
  intros Hs Hmem Hsq Hc Htab. pose proof (lr_counters _ _ _ _ _ Hlr). pose proof (lr_seq _ _ _ _ _ Hlr).
  split; cbn [set_status so_status so_counters so_mem_table].
  - done.
  - congruence.
  - lia.
  - intros g. unfold version_gens at 1. rewrite Hs. intros (s & -> & [Hin|Hin]%round_scopes)%list_elem_of_fmap.
    + left. by apply old_scope_elem.
    + right. apply created_elem in Hin as (sh & m & Hsh & Hn).
      pose proof (new_gen _ _ _ _ Hn) as Hgen. cbn in Hgen.
      pose proof (lr_shard _ _ _ _ _ Hlr sh Hsh). lia.
  - intros l'. rewrite Hs, !list_lookup_insert. case_decide as E1; [lia|]. case_decide as E2; [|eauto].
    intros [= <-]. exists A. split; [|by intros s [_ ?]%list_elem_of_filter].
    destruct E2 as [-> _]. done.
  - done.
  - cbn [set_status so_seeks]. rewrite Hseeks, length_app. lia.
  - cbn [set_status so_seeks]. rewrite Hseeks. intros Hh. apply Forall_app. split; [done|]. by apply Forall_replicate.
Qed.
End round_store.

Section round_theorem.
Context {SM : SkipMapOps InternalKey (option bytes)}.
Context `{IE : IntegerEncoding} {IEL : IntegerEncodingLaws} {CRC : Crc32}.
Context {IT : Itertools} {ITL : ItertoolsLaws} {BC : Bincode (list RawEdit)}.
Context {T : Type} {TB : Table T} {BLD : TableBuilder T} {BLDL : TableBuilderLaws T}.

(** Two stores answer every query alike. *)
Definition same_answers (st st' : Store T) : Prop :=
  ∀ key, ∃ r m h m' h',
    query (store_get st) (vs_version (so_status st)) key (so_seeks st) = (Ok (r, m), h) ∧
    query (store_get st') (vs_version (so_status st')) key (so_seeks st') = (Ok (r, m'), h').

Lemma same_answers_find contents contents' (st st' : Store T) :
  store_inv contents st → store_inv contents' st' →
  (∀ k, version_find contents' (vs_version (so_status st')) k
        = version_find contents (vs_version (so_status st)) k) →
  same_answers st st'.
Proof.
  intros Hi Hi' Hf key.
  destruct (query_spec _ _ _ _ key (si_wf _ _ Hi) (si_seeks _ _ Hi)) as (m & h & Hq & _).
  destruct (query_spec _ _ _ _ key (si_wf _ _ Hi') (si_seeks _ _ Hi')) as (m' & h' & Hq' & _).
  rewrite Hf in Hq'. by eexists _, m, h, m', h'.
Qed.

(** What a round does, apart from the edits it is given: the store before the edits are
    applied, and its own edits with their effect. *)
Record round_result config contents (st : Store T) level target skip (over : bool)
    (own : list VersionEdit) (st2 : Store T) contents' slice m : Prop := {
  rr_round es : compaction_round config st level target es skip
    = match es ++ own with
      | [] => Ok (over, st2)
      | _ => let? (vs, c) := log_and_apply (so_status st2) (so_seeks st2) (so_counters st2) (es ++ own)
                               (cfg_ver_log_snapshot_threshold config) in
             Ok (over, set_status st2 vs c)
      end;
  rr_status : so_status st2 = so_status st;
  rr_levels : res_foldM levels_edit (level_slice (vs_version (so_status st))) own = Ok slice;
  rr_meta : statistical_process (meta_data (vs_version (so_status st))) (edit_event <$> own) = Ok m;
  rr_own : over = true → own = [] ∧ st2 = st;
  rr_level_0 : over = false → ∃ nl idx cm gl ml gll mll,
    own = [NewFile (nl, level + 1) idx cm; DeleteFile (gl, level) ml; DeleteFile (gll, level + 1) mll] ∧
    ∀ g, g ∈ gl → g ∈ version_gens (vs_version (so_status st));
  rr_dels g : g ∈ edit_dels own ↔ g ∈ version_gens (vs_version (so_status st)) ∧ g ∉ sc_gen <$> concat slice;
  rr_created g : is_Some (so_tables st2 !! g) → is_Some (so_tables st !! g) ∨ g ∈ sc_gen <$> concat slice;
  rr_tables g : (g < gen_buf (so_counters st))%Z → so_tables st2 !! g = so_tables st !! g;
  rr_seeks : length (so_seeks st) ≤ length (so_seeks st2);
  rr_contents g : (g < gen_buf (so_counters st))%Z → contents' g = contents g;
  rr_done vs' c' :
    level_slice (vs_version vs') = slice → meta_data (vs_version vs') = m →
    log_ok (vs_ver_log_writer vs').1 → chan_open (vs_chan vs') = true →
    (gen_buf (so_counters st2) ≤ gen_buf c')%Z → seq_count c' = seq_count (so_counters st2) →
    store_inv contents' (set_status st2 vs' c') ∧ store_step st (set_status st2 vs' c') ∧
    ∀ k, version_find contents' (vs_version vs') k = version_find contents (vs_version (so_status st)) k;
}.

(** The format of the next level's tables can hold what a round writes. *)
Definition shards_buildable config (st : Store T) level target skip : Prop :=
  ∀ index dels shards st1 tp,
    data_loading_with_level config st level target skip = Ok (Some (index, dels, shards), st1) →
    cfg_level_table_type config !! (level + 1) = Some tp →
    Forall (λ s : Z * list KeyValue, buildable tp s.1 s.2 (level + 1)) shards.

(** A round that does compact. *)
Lemma compaction_round_works config contents (st : Store T) level target skip A B tp :
  store_inv contents st → selection_ok contents st level target →
  shards_buildable config st level target skip →
  (0 < cfg_sst_file_size config)%N → level ≤ MAX_LEVEL - 2 →
  cfg_level_table_type config !! (level + 1) = Some tp →
  level_slice (vs_version (so_status st)) !! level = Some A →
  level_slice (vs_version (so_status st)) !! (level + 1) = Some B →
  filter (λ s, scope_meet s target = true) A ≠ [] →
  (skip = true ∨ is_threshold_exceeded_major (vs_version (so_status st)) config level = Ok true) →
  ∃ own st2 contents' slice m,
    round_result config contents st level target skip false own st2 contents' slice m.
Proof.
  intros Hinv Hsel Hbuild Hsize Hlevel Htp HlA HlB Hne Hexc.
  destruct (lower_cut_exists config contents st level target Hinv Hsel Hsize A B HlA HlB Hne)
    as (f & pre & mid & post & Hcut).
  destruct (data_loading_spec config contents st level target Hinv Hsel Hsize A B HlA HlB
    skip f pre mid post Hcut Hne Hlevel Hexc) as (d & shards & c & Hlr & Hload).
  destruct (create_tables_spec (set_counters st c) shards (level + 1) tp)
    as (created & st2 & Hcr & Hcreated & Htables & Hseeks & Hstat & Hcnt & Hmem).
  { intros s Hs. split; [|by apply (lr_shard _ _ _ _ _ _ _ _ _ _ Hlr)].
    pose proof (lr_sorted _ _ _ _ _ _ _ _ _ _ Hlr) as Hd.
    rewrite <- (lr_shards _ _ _ _ _ _ _ _ _ _ Hlr) in Hd.
    apply list_elem_of_split in Hs as (s1 & s2 & ->). rewrite fmap_app, concat_app in Hd.
    apply ksorted_app in Hd as (_ & (Hd & _)%ksorted_app & _). exact Hd. }
  { by eapply shards_nodup. }
  { by eapply Hbuild. }
  cbn [set_counters set_status so_tables so_seeks so_status so_counters so_mem_table] in *.
  assert (∀ g, (g < gen_buf (so_counters st))%Z → g ∉ shards.*1) as Hold.
  { intros g Hg (sh & -> & Hsh)%list_elem_of_fmap.
    pose proof (lr_shard _ _ _ _ _ _ _ _ _ _ Hlr sh Hsh). lia. }
  pose proof (round_meta config contents st level target Hinv Hsel Hsize A B HlA HlB
    f pre mid post d shards c created st2 Hcut Hlr Hcreated Htables Hseeks) as Hmeta. cbv zeta in Hmeta.
  eexists _, st2, (round_contents contents shards), _, _. split; [|exact Hstat|..].
  - intros es. unfold compaction_round. rewrite Hload. cbn [res_bind]. rewrite Htp. cbn [or_panic res_bind].
    rewrite Hcr. cbn [res_bind]. reflexivity.
  - by apply (round_levels_edit config contents st level target Hinv Hsel Hsize A B HlA HlB
      f pre mid post d shards c created st2 Hcut Hlr Hcreated).
  - exact Hmeta.
  - done.
  - intros _. do 7 eexists. split; [reflexivity|]. intros g (s & -> & [_ Hs]%list_elem_of_filter)%list_elem_of_fmap.
    apply list_elem_of_fmap_2, elem_of_concat. exists A. split; [by eapply list_elem_of_lookup_2|done].
  - by apply (round_dels config contents st level target Hinv Hsel Hsize A B HlA HlB
      f pre mid post d shards c created st2 Hcut Hlr Hcreated).
  - intros g Hg. destruct (decide (g ∈ shards.*1)) as [Hs|Hs]; [right|left; by rewrite <- Htables].
    edestruct round_gens_split as (rest & _ & ->); [done..|]. set_solver.
  - intros g Hg. by apply Htables, Hold.
  - rewrite Hseeks, length_app. lia.
  - intros g Hg. unfold round_contents. by rewrite not_elem_of_list_to_map_1 by (by apply Hold).
  - intros vs' c' Hs' Hm' Hlog' Hch' Hg' Hsq'. rewrite Hcnt in Hg', Hsq'. split_and!.
    + by apply (round_store_inv config contents st level target Hinv Hsel Hsize A B HlA HlB
        f pre mid post d shards c created st2 Hcut Hlr Hcreated Htables Hseeks).
    + apply (round_store_step config contents st level target Hinv Hsel Hsize A B HlA HlB
        f pre mid post d shards c created st2 Hcut Hlr Hcreated Hseeks); try done.
      intros g Hg. by apply Htables, Hold.
    + intros k. by apply (round_version_find config contents st level target Hinv Hsel Hsize A B HlA HlB
        f pre mid post d shards c created st2 Hcut Hlr Hcreated Htables Hseeks).
Qed.

(** A round that finds nothing to do. *)
Lemma compaction_round_idle config contents (st : Store T) level target skip :
  store_inv contents st → data_loading_with_level config st level target skip = Ok (None, st) →
  round_result config contents st level target skip true [] st contents
    (level_slice (vs_version (so_status st))) (meta_data (vs_version (so_status st))).
Proof.
  intros Hinv Hload. split; try done.
  - intros es. unfold compaction_round. rewrite Hload. cbn [res_bind]. by rewrite app_nil_r.
  - rewrite statistical_process_spec. cbn. rewrite decide_True by lia.
    destruct (meta_data _) as [sz ln]. cbn. do 2 f_equal; lia.
  - intros g. split; [by intros ?%not_elem_of_nil|]. by intros [??].
  - by left.
  - intros vs' c' Hs Hm Hlog Hch Hg Hsq. destruct vs' as [[num slice m] w logs n ch]. cbn in *. subst slice m.
    split_and!.
    + destruct Hinv as [Hwf ? ? Hfresh ? ? ? ? ? ?]. split; try done.
      * by destruct Hwf.
      * intros g Hin. specialize (Hfresh g Hin). cbn [set_status so_counters]. lia.
    + split; try done. * intros g. by left. * eauto.
    + done.
Qed.

(** A round may compact when it has nothing to do or its selection is right. *)
Definition round_ok config contents (st : Store T) level target skip : Prop :=
  data_loading_with_level config st level target skip = Ok (None, st) ∨
  selection_ok contents st level target ∧ shards_buildable config st level target skip.

(** A round, whether it compacts or not. *)
Lemma compaction_round_result config contents (st : Store T) level target skip :
  store_inv contents st → round_ok config contents st level target skip →
  (0 < cfg_sst_file_size config)%N → level < MAX_LEVEL →
  length (cfg_level_table_type config) = MAX_LEVEL →
  ∃ over own st2 contents' slice m,
    round_result config contents st level target skip over own st2 contents' slice m.
Proof.
  intros Hinv Hsel Hsize Hlevel Htypes.
  pose proof (wf_levels _ _ _ _ (si_wf _ _ Hinv)) as Hlen.
  destruct (lookup_lt_is_Some_2 (level_slice (vs_version (so_status st))) level ltac:(lia)) as [A HlA].
  pose proof (compaction_round_idle config contents st level target skip Hinv) as Hnone.
  destruct Hsel as [Hidle|[Hsel Hbuild]]; [do 6 eexists; by apply Hnone|].
  destruct (decide (MAX_LEVEL - 2 < level)) as [Hlast|Hlast].
  { do 6 eexists. apply Hnone. unfold data_loading_with_level. by rewrite decide_True. }
  destruct (lookup_lt_is_Some_2 (level_slice (vs_version (so_status st))) (level + 1)) as [B HlB];
    [unfold MAX_LEVEL in *; lia|].
  destruct (lookup_lt_is_Some_2 (cfg_level_table_type config) (level + 1)) as [tp Htp];
    [unfold MAX_LEVEL in *; lia|].
  destruct (is_threshold_exceeded_major (vs_version (so_status st)) config level) as [ex| |] eqn:Eex;
    [|unfold is_threshold_exceeded_major in Eex; by rewrite HlA in Eex..].
  destruct (decide (filter (λ s, scope_meet s target = true) A = [])) as [Hnil|Hne].
  { do 6 eexists. apply Hnone. unfold data_loading_with_level. rewrite decide_False, Eex by done.
    destruct skip, ex; cbn [res_bind negb]; try done; unfold tables_by_scopes; rewrite HlA;
      cbn [or_panic res_bind];
      destruct (meeting_tables_loaded (store_get st) contents target A
        (level_loaded contents st Hinv A level HlA)) as (ts & _ & _ & -> & _);
      by rewrite Hnil. }
  destruct (decide (skip = true ∨ ex = true)) as [Hexc|Hexc].
  - destruct (compaction_round_works config contents st level target skip A B tp) as (own & st2 & c' & sl & m & Hr);
      try done; [lia| |].
    { destruct Hexc as [->| ->]; [by left|by right]. }
    by exists false, own, st2, c', sl, m.
  - do 6 eexists. apply Hnone. unfold data_loading_with_level. rewrite decide_False, Eex by done.
    destruct skip, ex; cbn [res_bind negb]; try done; naive_solver.
Qed.

Lemma compaction_round_spec config contents (st : Store T) level target skip :
  store_inv contents st → round_ok config contents st level target skip →
  (0 < cfg_sst_file_size config)%N → level < MAX_LEVEL →
  length (cfg_level_table_type config) = MAX_LEVEL →
  ∃ over contents' st', compaction_round config st level target [] skip = Ok (over, st') ∧
    store_inv contents' st' ∧ store_step st st' ∧
    ∀ k, version_find contents' (vs_version (so_status st')) k
         = version_find contents (vs_version (so_status st)) k.
Proof.
  intros Hinv Hsel Hsize Hlevel Htypes.
  destruct (compaction_round_result config contents st level target skip Hinv Hsel Hsize Hlevel Htypes)
    as (over & own & st2 & contents' & slice & m & Hrr). pose proof Hrr as [Hr Hst Hlev Hm Hown Hne _ _ _ _ _ Hdone].
  rewrite Hr. cbn [app]. destruct over.
  { destruct (Hown eq_refl) as [-> ->]. by exists true, contents, st. }
  destruct (Hne eq_refl) as (nl & idx & cm & gl & ml & gll & mll & Ho & _).
  destruct (log_and_apply_total (so_status st2) (so_seeks st2) (so_counters st2) own
    (cfg_ver_log_snapshot_threshold config) slice m) as (vs' & c' & Hla & Hs' & Hm' & Hlog' & Hch' & Hg' & Hsq').
  { rewrite Hst. apply (si_log _ _ Hinv). }
  { rewrite Hst. apply (si_chan _ _ Hinv). }
  { by rewrite Hst. }
  { by rewrite Hst. }
  destruct (Hdone vs' c') as (Hi & Hs & Hf); try done.
  exists false, contents', (set_status st2 vs' c'). split; [|done]. rewrite Ho in *. by rewrite Hla.
Qed.

(** C7: a round of major compaction returns, keeps the invariant of the store (levels sorted
    and disjoint, generations unique, statistics exact) and changes no answer of any query,
    when its selection is safe: at level 0 no table left behind is older than a selected
    table with a common key, and the selected tables meet a table of the next level or come
    before all of them; and the table format can hold the shards, the file size is positive,
    the level exists and every level has a table type.  The code does not test the selection;
    [level_0_stale_read] and [unsorted_level_lost_key] are what happens without it. *)
Theorem compaction_round_correct config contents (st : Store T) level target skip :
  store_inv contents st → selection_ok contents st level target →
  shards_buildable config st level target skip →
  (0 < cfg_sst_file_size config)%N → level < MAX_LEVEL →
  length (cfg_level_table_type config) = MAX_LEVEL →
  ∃ over contents' st', compaction_round config st level target [] skip = Ok (over, st') ∧
    store_inv contents' st' ∧ same_answers st st'.
Proof.
  intros Hinv Hsel Hbuild Hsize Hlevel Htypes.
  destruct (compaction_round_spec config contents st level target skip Hinv
    (or_intror (conj Hsel Hbuild)) Hsize Hlevel Htypes)
    as (over & contents' & st' & Hr & Hi & _ & Hf).
  exists over, contents', st'. split_and!; [done..|]. by eapply same_answers_find.
Qed.
End round_theorem.

(** ** Concrete stores *)

Module CompactorSample.
Import Reference.
Export StatusSample.

Definition mem : MemTable :=
  {| mt_inner := {| ti_mem := sm_new; ti_immut := None; ti_wal := ∅;
                    ti_log_writer := (log_writer_new {| sk_content := []; sk_pos := 0 |}, 50%Z);
                    ti_trigger := trigger_create TriggerCount 100 |};
     tx_count := 0 |}.

Definition tables (data : gmap Z (list KeyValue)) : gmap Z BTreeTable :=
  map_imap (λ g l, Some (btree_table_new 1 g l)) data.

Definition scopes_meta (data : gmap Z (list KeyValue)) (ss : list Scope) : TableMeta :=
  meta_sum (scope_meta (λ g, tables data !! g) <$> ss).

(** A store over the given tables, its next generation 60. *)
Definition store (data : gmap Z (list KeyValue)) (levels : LevelSlice) (h : Seeks)
    : Store BTreeTable :=
  let total := scopes_meta data (concat levels) in
  {| so_mem_table := mem; so_tables := tables data;
     so_status :=
       {| vs_version := {| version_num := 1; level_slice := levels;
                           meta_data := {| vm_size_of_disk := tm_size_of_disk total;
                                           vm_len := tm_len total |} |};
          vs_ver_log_writer := (log_writer_new {| sk_content := []; sk_pos := 0 |}, 7%Z);
          vs_logs := ∅; vs_edit_approximate_count := 0; vs_chan := chan_new |};
     so_seeks := h; so_counters := mkCounters 1 60 |}.

Definition store_check (data : gmap Z (list KeyValue)) (levels : LevelSlice) (h : Seeks) : Prop :=
  demo_version data h (vs_version (so_status (store data levels h))) ∧
  Forall (λ x, 0 ≤ x ≤ 101)%Z h ∧
  NoDup (sc_gen <$> concat levels) ∧ Forall (λ g, g < 60)%Z (sc_gen <$> concat levels) ∧
  StronglySorted Z.lt (sc_gen <$> default [] (levels !! 0)) ∧
  Forall (λ g, demo_contents data g ≠ [] ∧ Forall (λ e : KeyValue, e.1 ≠ []) (demo_contents data g))
    (sc_gen <$> concat levels).

#[export] Instance store_check_dec data levels h : Decision (store_check data levels h).
Proof. unfold store_check. apply _. Defined.

Lemma store_check_inv data levels h :
  store_check data levels h → store_inv (demo_contents data) (store data levels h).
Proof.
  intros (Hv & Hh & Hnd & Hfresh & H0 & Hc).
  assert (∀ g, store_get (store data levels h) g = demo_get 1 data g) as Hget.
  { intros g. unfold store_get, demo_get. cbn. unfold tables. rewrite map_lookup_imap.
    by destruct (data !! g). }
  apply (demo_version_wf 1) in Hv as [Hlen Hl Hcells Hs].
  rewrite Forall_forall in Hc, Hfresh.
  split; cbn [store so_status vs_version vs_ver_log_writer vs_chan so_seeks so_counters meta_data].
  - split; [exact Hlen| |exact Hcells|exact Hs]. intros l s Hin Hsin.
    destruct (Hl l s Hin Hsin) as [(t & Ht & ?) ? ?]. split; [|done..]. exists t. by rewrite Hget.
  - done.
  - done.
  - intros g Hg. by apply Hfresh.
  - intros l Hl0. cbn in Hl0. by rewrite Hl0 in H0.
  - done.
  - apply log_writer_new_ok.
  - done.
  - intros g e Hg He. destruct (Hc g Hg) as [_ Hk]. rewrite Forall_forall in Hk. by apply Hk.
  - intros g Hg. by apply Hc.
Qed.

(** A round on small tables. *)
Definition config : Config := config_sst_file_size (config_new "db"%string) 64.

Definition scope_at (gen : Z) (a b : byte) (cell : nat) : Scope :=
  {| sc_start := [a]; sc_end := [b]; sc_gen := gen; sc_allowed_seeks := Some cell |}.

(** Two overlapping tables of level 0 over two tables of level 1. *)
Definition data1 : gmap Z (list KeyValue) :=
  {[ 4%Z := [([x03], Some [x34]); ([x05], None)];
     3%Z := [([x02], Some [x23]); ([x03], Some [x33])];
     1%Z := [([x01], Some [x11]); ([x03], Some [x31])];
     2%Z := [([x06], Some [x62])] ]}.

Definition levels1 : LevelSlice :=
  [[scope_at 3 x02 x03 0; scope_at 4 x03 x05 1]; [scope_at 1 x01 x03 2; scope_at 2 x06 x06 3]; []; []].

(** Tables in memory hold anything. *)
Lemma btree_shards_buildable config (st : Store BTreeTable) level target skip :
  shards_buildable config st level target skip.
Proof. intros index dels shards st1 tp _ _. by apply Forall_true. Qed.

Lemma store1_inv : store_inv (demo_contents data1) (store data1 levels1 [0; 0; 0; 0]%Z).
Proof. apply store_check_inv, (bool_decide_unpack _). vm_compute. exact I. Qed.

Lemma compaction_round_correct_witness :
  ∃ over contents' st',
    compaction_round config (store data1 levels1 [0; 0; 0; 0]%Z) 0 (scope_at 0 x02 x05 0) [] true
    = Ok (over, st') ∧
    store_inv contents' st' ∧ same_answers (store data1 levels1 [0; 0; 0; 0]%Z) st'.
Proof.
  apply (compaction_round_correct config (demo_contents data1)).
  - exact store1_inv.
  - intros A B HA HB. vm_compute in HA, HB. injection HA as <-. injection HB as <-. split.
    + intros _ s t k Hs _ Hm. exfalso.
      repeat (apply elem_of_cons in Hs as [->|Hs]; [vm_compute in Hm; discriminate|]).
      by apply not_elem_of_nil in Hs.
    + intros f Hf. vm_compute in Hf. injection Hf as <-. left. exists (scope_at 1 x01 x03 2).
      split; [left|reflexivity].
  - apply btree_shards_buildable.
  - reflexivity.
  - vm_compute. lia.
  - reflexivity.
Defined.

(** The outcome of a round, read off its evaluation. *)
Definition outcome {S} (r : KernelResult (bool * S)) : option bool :=
  match r with Ok (over, _) => Some over | _ => None end.

Definition after {S} (r : KernelResult (bool * S)) (st : S) : S :=
  match r with Ok (_, st') => st' | _ => st end.

Lemma outcome_Ok {S} (r : KernelResult (bool * S)) st over :
  outcome r = Some over → r = Ok (over, after r st).
Proof. destruct r as [[o s]| |]; cbn; [|done..]. by intros [= ->]. Qed.

Lemma ok_after {S} (r : KernelResult (bool * S)) st over st' : r = Ok (over, st') → st' = after r st.
Proof. by intros ->. Qed.

Definition answer (st : Store BTreeTable) (key : bytes)
    : KernelResult (option KeyValue * option (Scope * nat)) :=
  (query (store_get st) (vs_version (so_status st)) key (so_seeks st)).1.

(** C39: a round that leaves an older table behind at level 0 can bring back old values:
    here the table with the new value of a key moves to level 1 and the table with the
    old value stays at level 0. *)
Theorem level_0_stale_read :
  ∃ contents st st' target,
    store_inv contents st ∧ compaction_round config st 0 target [] true = Ok (false, st') ∧
    answer st [x01] = Ok (Some ([x01], Some [x12]), None) ∧
    answer st' [x01] = Ok (Some ([x01], Some [x11]), None).
Proof.
  pose (data := {[ 1%Z := [([x01], Some [x11])];
                   2%Z := [([x01], Some [x12]); ([x05], Some [x52])] ]} : gmap Z (list KeyValue)).
  pose (st := store data [[scope_at 1 x01 x01 0; scope_at 2 x01 x05 1]; []; []; []] [0; 0]%Z).
  exists (demo_contents data), st, (after (compaction_round config st 0 (scope_at 0 x05 x05 0) [] true) st),
    (scope_at 0 x05 x05 0).
  split_and!.
  - apply store_check_inv, (bool_decide_unpack _). vm_compute. exact I.
  - apply outcome_Ok. vm_compute. reflexivity.
  - vm_compute. reflexivity.
  - vm_compute. reflexivity.
Qed.

(** C40: a round whose tables meet none of the next level puts the new tables in front of
    it: a level with smaller keys is then out of order and a query misses a key that is
    there. *)
Theorem unsorted_level_lost_key :
  ∃ contents st st' target,
    store_inv contents st ∧ compaction_round config st 0 target [] true = Ok (false, st') ∧
    answer st [x05] = Ok (Some ([x05], Some [x52]), None) ∧ answer st' [x05] = Ok (None, None).
Proof.
  pose (data := {[ 1%Z := [([x01], Some [x11])]; 2%Z := [([x05], Some [x52])] ]}
    : gmap Z (list KeyValue)).
  pose (st := store data [[scope_at 2 x05 x05 0]; [scope_at 1 x01 x01 1]; []; []] [0; 0]%Z).
  exists (demo_contents data), st, (after (compaction_round config st 0 (scope_at 0 x05 x05 0) [] true) st),
    (scope_at 0 x05 x05 0).
  split_and!.
  - apply store_check_inv, (bool_decide_unpack _). vm_compute. exact I.
  - apply outcome_Ok. vm_compute. reflexivity.
  - vm_compute. reflexivity.
  - vm_compute. reflexivity.
Qed.
End CompactorSample.
