(* ===== verification/Storage.v ===== *)
(** * The storage front end (src/kernel/lsm/storage.rs, src/kernel/lsm/mod.rs,
    src/kernel/mod.rs)

    [KipStorage] puts the memory table, the current version and the channel to the
    compactor together: reads go through the memory table to the version, writes to the
    memory table, and both may leave a task in the channel, which holds one.  The
    background task takes the tasks one by one. *)

From S2P Require Import Prelude Std Crates Block Iterator Io Log Config MemTable Scope BTreeTable Version Status Compactor.
From Stdlib Require Import ZArith Lia Strings.Byte Strings.String.
From stdpp Require Import base list gmap.

Set Default Goal Selector "!".
Open Scope nat_scope.

(** ** Commands *)

Inductive CommandData : Type :=
  | CmdSet (key value : bytes)
  | CmdRemove (key : bytes)
  | CmdGet (key : bytes).

Definition get_key (c : CommandData) : bytes :=
  match c with CmdSet key _ => key | CmdRemove key => key | CmdGet key => key end.
Definition get_value (c : CommandData) : option bytes :=
  match c with CmdSet _ value => Some value | CmdRemove _ | CmdGet _ => None end.
Definition command_bytes_len (c : CommandData) : nat :=
  length (get_key c) + default 0 (length <$> get_value c)
  + match c with CmdSet _ _ => 20 | CmdRemove _ => 12 | CmdGet _ => 12 end.

(** ** The lock file

    The outcomes of successive [try_lock] calls; the back-off doubles from 1 and the call
    gives up once it exceeds 4. *)

Fixpoint lock_loop (fuel backoff : nat) (try_lock : nat → KernelResult bool) (attempt : nat)
    : KernelResult unit :=
  match fuel with
  | O => Panic
  | S fuel' =>
      let? locked := try_lock attempt in
      if (locked : bool) then Ok ()
      else if decide (4 < backoff) then Err ProcessExists
      else lock_loop fuel' (backoff * 2) try_lock (S attempt)
  end.

Definition lock_or_time_out (try_lock : nat → KernelResult bool) : KernelResult unit :=
  lock_loop 4 1 try_lock 0.

(** The fourth attempt is the last: the loop returns, with the lock when one of four
    attempts takes it. *)
Lemma lock_or_time_out_spec (locked : nat → bool) :
  lock_or_time_out (λ attempt, Ok (locked attempt))
  = if existsb locked [0; 1; 2; 3] then Ok () else Err ProcessExists.
Proof.
  unfold lock_or_time_out. cbn. destruct (locked 0); [done|]. cbn. destruct (locked 1); [done|]. cbn.
  destruct (locked 2); [done|]. cbn. by destruct (locked 3).
Qed.

(** ** Tasks *)

(** [tx] of a flush says whether the receiver of the reply is still there. *)
Inductive CompactTask : Type :=
  | TaskSeek (scope : Scope) (level : nat)
  | TaskFlush (tx : option bool).

(** [channel(1)] *)
Record TaskChan := mkTaskChan {
  task_open : bool;
  task_queue : list CompactTask;
}.

Definition TASK_CAPACITY : nat := 1.

(** [try_send], with [TrySendError::Full] ignored and [Closed] reported. *)
Definition try_send (ch : TaskChan) (task : CompactTask) : KernelResult TaskChan :=
  if task_open ch then
    Ok (if decide (length (task_queue ch) < TASK_CAPACITY)
        then {| task_open := true; task_queue := task_queue ch ++ [task] |} else ch)
  else Err ChannelClose.

(** [send(task).await]: [None] while the channel is full. *)
Definition send (ch : TaskChan) (task : CompactTask) : option (KernelResult TaskChan) :=
  if task_open ch then
    if decide (length (task_queue ch) < TASK_CAPACITY)
    then Some (Ok {| task_open := true; task_queue := task_queue ch ++ [task] |}) else None
  else Some (Err SendCompactTaskError).

Section storage.
Context {SM : SkipMapOps InternalKey (option bytes)}.
Context `{IE : IntegerEncoding} {CRC : Crc32} {IT : Itertools} {BC : Bincode (list RawEdit)}.
Context {T : Type} {TB : Table T} {BLD : TableBuilder T}.

Definition query_and_compaction (get : Z → option T) (key : bytes) (version : Version) (h : Seeks)
    (compactor_tx : TaskChan) : KernelResult (option KeyValue) * Seeks * TaskChan :=
  match query get version key h with
  | (Ok (value_option, miss_option), h') =>
      match (match miss_option with
             | Some (scope, level) => try_send compactor_tx (TaskSeek scope level)
             | None => Ok compactor_tx
             end) with
      | Ok tx => (Ok value_option, h', tx)
      | Err e => (Err e, h', compactor_tx)
      | Panic => (Panic, h', compactor_tx)
      end
  | (Err e, h') => (Err e, h', compactor_tx)
  | (Panic, h') => (Panic, h', compactor_tx)
  end.

(** ** The storage *)

Record KipStorage := mkKipStorage {
  ks_inner : Store T;
  ks_config : Config;
  ks_locked : bool;
  ks_compactor_tx : TaskChan;
}.

Definition set_inner_store (s : KipStorage) (st : Store T) : KipStorage :=
  {| ks_inner := st; ks_config := ks_config s; ks_locked := ks_locked s;
     ks_compactor_tx := ks_compactor_tx s |}.
Definition set_tx (s : KipStorage) (tx : TaskChan) : KipStorage :=
  {| ks_inner := ks_inner s; ks_config := ks_config s; ks_locked := ks_locked s; ks_compactor_tx := tx |}.
Definition set_mem_table (st : Store T) (m : MemTable) (c : Counters) : Store T :=
  {| so_mem_table := m; so_tables := so_tables st; so_status := so_status st;
     so_seeks := so_seeks st; so_counters := c |}.
Definition set_seeks (st : Store T) (h : Seeks) : Store T :=
  {| so_mem_table := so_mem_table st; so_tables := so_tables st; so_status := so_status st;
     so_seeks := h; so_counters := so_counters st |}.

Definition mem_table (s : KipStorage) : MemTable := so_mem_table (ks_inner s).
Definition current_version (s : KipStorage) : Version := vs_version (so_status (ks_inner s)).

(** *** Opening

    The directories of the write-ahead log and of the version log, and the tables the
    loader finds.  [None]: reading a log does not return. *)

Definition store_inner_new (config : Config) (wal ver : Dir) (tables : gmap Z T) (c : Counters)
    : option (KernelResult (Store T)) :=
  match mem_table_new config wal c with
  | Some (Ok (mem, c1)) =>
      match load_with_path ver c1 with
      | Some (Ok (vs, h, c2)) =>
          Some (Ok {| so_mem_table := mem; so_tables := tables; so_status := vs; so_seeks := h;
                      so_counters := c2 |})
      | Some (Err e) => Some (Err e)
      | Some Panic => Some Panic
      | None => None
      end
  | Some (Err e) => Some (Err e)
  | Some Panic => Some Panic
  | None => None
  end.

Definition open_with_config (config : Config) (now : Z) (try_lock : nat → KernelResult bool)
    (wal ver : Dir) (tables : gmap Z T) (c : Counters) : option (KernelResult KipStorage) :=
  let c0 := gen_init now c in
  match lock_or_time_out try_lock with
  | Ok _ =>
      match store_inner_new config wal ver tables c0 with
      | Some r =>
          Some (let? st := r in
                Ok {| ks_inner := st; ks_config := config; ks_locked := true;
                      ks_compactor_tx := {| task_open := true; task_queue := [] |} |})
      | None => None
      end
  | Err e => Some (Err e)
  | Panic => Some Panic
  end.

Definition storage_open (path : string) := open_with_config (config_new path).

(** *** Reads and writes *)

Definition storage_get (key : bytes) (s : KipStorage) : KernelResult (option bytes) * KipStorage :=
  match mem_find (mem_table s) key with
  | Some (_, value) => (Ok value, s)
  | None =>
      let '(r, h, tx) :=
        query_and_compaction (store_get (ks_inner s)) key (current_version s) (so_seeks (ks_inner s))
          (ks_compactor_tx s) in
      let s' := set_tx (set_inner_store s (set_seeks (ks_inner s) h)) tx in
      (let? o := r in Ok (match o with Some (_, value) => value | None => None end), s')
  end.

Definition append_cmd_data (data : KeyValue) (s : KipStorage) : KernelResult unit * KipStorage :=
  match insert_data (mem_table s) data (so_counters (ks_inner s)) with
  | Ok (is_exceeds, m, c) =>
      let s1 := set_inner_store s (set_mem_table (ks_inner s) m c) in
      if (is_exceeds : bool) then
        match try_send (ks_compactor_tx s) (TaskFlush None) with
        | Ok tx => (Ok (), set_tx s1 tx)
        | Err e => (Err e, s1)
        | Panic => (Panic, s1)
        end
      else (Ok (), s1)
  | Err e => (Err e, s)
  | Panic => (Panic, s)
  end.

Definition storage_set (key value : bytes) (s : KipStorage) : KernelResult unit * KipStorage :=
  append_cmd_data (key, Some value) s.

Definition storage_remove (key : bytes) (s : KipStorage) : KernelResult unit * KipStorage :=
  match storage_get key s with
  | (Ok (Some _), s') => append_cmd_data (key, None) s'
  | (Ok None, s') => (Err KeyNotFound, s')
  | (Err e, s') => (Err e, s')
  | (Panic, s') => (Panic, s')
  end.

Definition storage_size_of_disk (s : KipStorage) : KernelResult N :=
  Ok (version_size_of_disk (current_version s)).
Definition storage_len (s : KipStorage) : KernelResult nat :=
  Ok (version_len (current_version s) + mem_len (mem_table s)).
Definition storage_is_empty (s : KipStorage) : bool :=
  version_is_empty (current_version s) && mem_is_empty (mem_table s).

(** *** Tasks from the client *)

Definition send_task (task : CompactTask) (s : KipStorage) : option (KernelResult KipStorage) :=
  match send (ks_compactor_tx s) task with
  | Some r => Some (let? tx := r in Ok (set_tx s tx))
  | None => None
  end.

(** [flush] up to the point where it waits for the reply. *)
Definition flush_send := send_task (TaskFlush (Some true)).
Definition flush_background := send_task (TaskFlush None).

Definition manual_compaction (min max : bytes) (level : nat) (s : KipStorage)
    : option (KernelResult KipStorage) :=
  if le_b min max then
    let '(scope, h) := from_range 0 min max (so_seeks (ks_inner s)) in
    send_task (TaskSeek scope level) (set_inner_store s (set_seeks (ks_inner s) h))
  else Some (Ok s).

Definition storage_drop (s : KipStorage) : KipStorage :=
  {| ks_inner := ks_inner s; ks_config := ks_config s; ks_locked := false;
     ks_compactor_tx := match try_send (ks_compactor_tx s) (TaskFlush None) with
                        | Ok tx => tx
                        | _ => ks_compactor_tx s
                        end |}.

(** *** The background task *)

(** One task.  An error is logged and the loop goes on; what the failed call leaves of
    the store is not tracked.  [None]: a transaction is alive and the swap spins. *)
Definition run_task (config : Config) (task : CompactTask) (st : Store T)
    : option (KernelResult (Store T)) :=
  match task with
  | TaskSeek scope level => Some (major_compaction config st level scope [] true)
  | TaskFlush option_tx => check_then_compaction config st option_tx
  end.

(** One round of the [while let] loop; an empty channel leaves the task waiting. *)
Definition background_step (s : KipStorage) : option (KernelResult KipStorage) :=
  match task_queue (ks_compactor_tx s) with
  | [] => Some (Ok s)
  | task :: rest =>
      match run_task (ks_config s) task (ks_inner s) with
      | Some r =>
          Some (let? st := r in
                Ok (set_tx (set_inner_store s st)
                      {| task_open := task_open (ks_compactor_tx s); task_queue := rest |}))
      | None => None
      end
  end.
(** [n] rounds of the loop. *)
Fixpoint background_run (n : nat) (s : KipStorage) : option (KernelResult KipStorage) :=
  match n with
  | 0 => Some (Ok s)
  | S n' =>
      match background_step s with
      | Some (Ok s') => background_run n' s'
      | r => r
      end
  end.

(** The whole of [flush] with no other client: the task is sent behind those that wait, the
    background task runs them all and replies to the last one.  A flush that fails drops
    the sender, and the wait for the reply fails.  What an earlier task that fails leaves
    behind is not modelled: the answer is an error then too.  [None]: the channel is full,
    or a transaction is alive. *)
Definition storage_flush (s : KipStorage) : option (KernelResult KipStorage) :=
  match flush_send s with
  | Some (Ok s1) =>
      match background_run (length (task_queue (ks_compactor_tx s1))) s1 with
      | Some (Ok s2) => Some (Ok s2)
      | Some _ => Some (Err ChannelClose)
      | None => None
      end
  | r => r
  end.
End storage.
Arguments KipStorage {_} T.
