(* ===== verification/StorageCorrect.v ===== *)
(** * Flushes and compactions change no answer

    A table installed at level 0, the rounds of a compaction one after the other, and the
    tasks of the background loop: each keeps the invariants of the store and of the memory
    table, and the map a client sees. *)

From S2P Require Import Prelude Std Crates Block Iterator Io Log Config MemTable Scope BTreeTable Version Status Compactor.
From S2P Require Import CompactorCorrect Storage.
From Stdlib Require Import ZArith Lia Strings.Byte Sorted.
From stdpp Require Import base list gmap sorting.

Set Default Goal Selector "!".
Open Scope nat_scope.

(** ** A new table at level 0 *)

Section install.
Context {T : Type} {TB : Table T} {BLD : TableBuilder T} {BLDL : TableBuilderLaws T}.
Context {SM : SkipMapOps InternalKey (option bytes)}.
Context `{IT : Itertools} {ITL : ItertoolsLaws}.

Abbreviation store_version st := (vs_version (so_status st)).
Abbreviation push scope := (alter (λ l : list Scope, l ++ [scope]) 0).

(** A table that can be installed: loaded, in its scope, younger than all of level 0. *)
Record installable (contents : Z → list KeyValue) (st : Store T) (scope : Scope) (meta : TableMeta) : Prop := {
  in_loaded : scope_loaded (store_get st) contents scope;
  in_cell : scope_cell (so_seeks st) scope;
  in_fresh : sc_gen scope ∉ version_gens (store_version st);
  in_youngest l s : level_slice (store_version st) !! 0 = Some l → s ∈ l → (sc_gen s < sc_gen scope)%Z;
  in_bound : (sc_gen scope < gen_buf (so_counters st))%Z;
  in_keys e : e ∈ contents (sc_gen scope) → e.1 ≠ [];
  in_nonempty : contents (sc_gen scope) ≠ [];
  in_meta : scope_meta (store_get st) scope = meta;
}.

Lemma push_concat slice scope :
  length slice = MAX_LEVEL → concat (push scope slice) ≡ₚ scope :: concat slice.
Proof.
  destruct slice as [|l0 slice]; [done|]. intros _. cbn [alter list_alter concat].
  rewrite <- app_assoc. cbn [app]. by rewrite Permutation_middle.
Qed.

Lemma install_inv contents (st : Store T) scope meta vs' c' :
  store_inv contents st → installable contents st scope meta →
  level_slice (vs_version vs') = push scope (level_slice (store_version st)) →
  meta_data (vs_version vs')
  = {| vm_size_of_disk := vm_size_of_disk (meta_data (store_version st)) + tm_size_of_disk meta;
       vm_len := vm_len (meta_data (store_version st)) + tm_len meta |} →
  log_ok (vs_ver_log_writer vs').1 → chan_open (vs_chan vs') = true →
  (gen_buf (so_counters st) ≤ gen_buf c')%Z →
  store_inv contents (set_status st vs' c') ∧
  ∀ k, version_find contents (vs_version vs') k
       = match btree_get k (contents (sc_gen scope)) with
         | Some v => Some v
         | None => version_find contents (store_version st) k
         end.
Proof.
  intros [[Hlen Hl Hc Hs] Hse Hg Hf H0 Hm Hlog Hch Hk Hne] Hin Hsl Hmd Hlog' Hch' Hc'.
  destruct (level_slice (store_version st)) as [|l0 slice] eqn:E; [done|]. cbn [alter list_alter] in Hsl.
  assert (∀ s, s ∈ concat ((l0 ++ [scope]) :: slice) → s = scope ∨ s ∈ concat (l0 :: slice)) as Hcases.
  { cbn [concat]. intros s. rewrite !elem_of_app, list_elem_of_singleton. naive_solver. }
  split; [split|]; cbn [set_status so_status so_seeks so_counters so_tables].
  - split.
    + by rewrite Hsl.
    + intros l s. rewrite Hsl. intros Hl' Hs'. destruct (Hcases s) as [->|(l1 & ? & ?)%elem_of_concat].
      { apply elem_of_concat. eauto. } { apply Hin. } { by eapply Hl. }
    + intros l s. rewrite Hsl. intros Hl' Hs'. destruct (Hcases s) as [->|(l1 & ? & ?)%elem_of_concat].
      { apply elem_of_concat. eauto. } { apply Hin. } { by eapply Hc. }
    + rewrite Hsl. exact Hs.
  - done.
  - unfold version_gens. rewrite Hsl. unfold version_gens in Hg. rewrite E in Hg.
    pose proof (in_fresh _ _ _ _ Hin) as Hfr. unfold version_gens in Hfr. rewrite E in Hfr.
    assert (concat ((l0 ++ [scope]) :: slice) ≡ₚ scope :: concat (l0 :: slice)) as ->
      by (apply (push_concat (l0 :: slice)); done).
    rewrite fmap_cons. by constructor.
  - intros g. unfold version_gens. rewrite Hsl. intros (s & -> & [->|Hs']%Hcases)%list_elem_of_fmap.
    + pose proof (in_bound _ _ _ _ Hin). lia.
    + assert (sc_gen s < gen_buf (so_counters st))%Z; [|lia]. apply Hf. unfold version_gens. rewrite E.
      by apply list_elem_of_fmap_2.
  - intros l. rewrite Hsl. intros [= <-]. rewrite fmap_app. apply StronglySorted_app. split_and!.
    + intros a b (s & -> & Hs')%list_elem_of_fmap ->%list_elem_of_singleton.
      apply (in_youngest _ _ _ _ Hin l0); [by rewrite E|done].
    + by apply H0.
    + repeat constructor.
  - cbv zeta. rewrite Hmd, Hsl. cbv zeta in Hm. rewrite Hm.
    assert (scope_meta (store_get (set_status st vs' c')) <$> concat ((l0 ++ [scope]) :: slice)
      ≡ₚ meta :: (scope_meta (store_get st) <$> concat (l0 :: slice))) as Hp.
    { change (store_get (set_status st vs' c')) with (store_get st).
      rewrite (push_concat (l0 :: slice) scope Hlen), fmap_cons. by rewrite (in_meta _ _ _ _ Hin). }
    rewrite (meta_sum_perm _ _ Hp). rewrite meta_sum_cons.
    cbn [meta_plus tm_size_of_disk tm_len vm_size_of_disk vm_len]. f_equal; lia.
  - done.
  - done.
  - intros g e. unfold version_gens. rewrite Hsl. intros (s & -> & [->|Hs']%Hcases)%list_elem_of_fmap.
    + apply (in_keys _ _ _ _ Hin).
    + apply Hk. unfold version_gens. rewrite E. by apply list_elem_of_fmap_2.
  - intros g. unfold version_gens. rewrite Hsl. intros (s & -> & [->|Hs']%Hcases)%list_elem_of_fmap.
    + apply (in_nonempty _ _ _ _ Hin).
    + apply Hne. unfold version_gens. rewrite E. by apply list_elem_of_fmap_2.
  - intros k. unfold version_find, version_tables. rewrite Hsl, E. cbn [head default drop].
    unfold id. rewrite reverse_snoc. cbn [app first_some]. unfold scope_find at 1. done.
Qed.

(** Edits that do not add to level 0 or delete the new table commute with its arrival. *)
Definition edit_commutes (g : Z) (e : VersionEdit) : Prop :=
  match e with
  | NewFile (_, level) _ _ => level ≠ LEVEL_0
  | DeleteFile (gens, level) _ => level = LEVEL_0 → g ∉ gens
  end.

Lemma levels_edit_push scope slice e slice' :
  edit_commutes (sc_gen scope) e → levels_edit slice e = Ok slice' →
  levels_edit (push scope slice) e = Ok (push scope slice').
Proof.
  assert (∀ level, level ≠ 0 → push scope slice !! level = slice !! level) as Hl.
  { intros level Hne. by rewrite list_lookup_alter_ne. }
  unfold levels_edit. destruct e as [[gens level] m|[scopes level] idx m]; cbn [edit_commutes apply_edit].
  - intros Hg. destruct (decide (level = 0)) as [->|Hne].
    + destruct slice as [|l0 slice]; [done|]. cbn. intros [= <-].
      f_equal. f_equal. rewrite filter_app, filter_cons_True, filter_nil; [done|]. by apply Hg.
    + rewrite Hl by done. destruct (slice !! level) as [l|] eqn:E; [|done]. cbn [or_panic res_bind fst].
      intros [= <-]. f_equal. rewrite !list_insert_alter. by apply list_alter_alter_ne.
  - intros Hne. rewrite Hl by done. destruct (slice !! level) as [l|] eqn:E; [|done]. cbn [or_panic res_bind fst].
    rewrite !decide_False by done. destruct (res_foldM _ _ _) as [l'| |]; [|done..]. cbn [res_bind fst].
    intros [= <-]. f_equal. rewrite !list_insert_alter. by apply list_alter_alter_ne.
Qed.

Lemma levels_edits_push scope es slice slice' :
  Forall (edit_commutes (sc_gen scope)) es → res_foldM levels_edit slice es = Ok slice' →
  res_foldM levels_edit (push scope slice) es = Ok (push scope slice').
Proof.
  intros Hes. revert slice. induction Hes as [|e es He _ IH]; intros slice; cbn [res_foldM]; [by intros [= ->]|].
  destruct (levels_edit slice e) as [s1| |] eqn:E; cbn [res_bind]; [|done..]. intros H1.
  rewrite (levels_edit_push scope slice e s1 He E). cbn [res_bind]. by apply IH.
Qed.

Lemma levels_edit_install slice scope idx meta :
  length slice = MAX_LEVEL → levels_edit slice (NewFile ([scope], 0) idx meta) = Ok (push scope slice).
Proof.
  destruct slice as [|l0 slice]; [done|]. intros _. unfold levels_edit, apply_edit.
  rewrite sorted_by_key_id by repeat constructor. done.
Qed.

(** The statistics with the new table. *)
Lemma statistics_install m events m' meta :
  statistical_process m events = Ok m' →
  statistical_process m (EditAdd meta :: events)
  = Ok {| vm_size_of_disk := vm_size_of_disk m' + tm_size_of_disk meta; vm_len := vm_len m' + tm_len meta |}.
Proof.
  rewrite !statistical_process_spec. cbv zeta. case_decide as H1; [|done]. intros [= <-].
  cbn [add_total del_total foldr fst snd vm_size_of_disk vm_len].
  fold (add_total events) (del_total events).
  rewrite decide_True by lia. do 2 f_equal; lia.
Qed.
End install.

(** ** Flushing *)

Section flush.
Context {SM : SkipMapOps InternalKey (option bytes)}.
Context `{IE : IntegerEncoding} {IEL : IntegerEncodingLaws} {CRC : Crc32}.
Context {IT : Itertools} {ITL : ItertoolsLaws} {BC : Bincode (list RawEdit)}.
Context {T : Type} {TB : Table T} {BLD : TableBuilder T} {BLDL : TableBuilderLaws T}.
Context (config : Config) (Hsize : (0 < cfg_sst_file_size config)%N)
        (Htypes : length (cfg_level_table_type config) = MAX_LEVEL).

Abbreviation store_version st := (vs_version (so_status st)).

(** The contents with those of a new generation. *)
Definition with_table (gen : Z) (values : list KeyValue) (contents : Z → list KeyValue) (g : Z)
    : list KeyValue := if decide (g = gen) then values else contents g.

(** A generation the flush can use for its table. *)
Record gen_ok (st : Store T) (gen : Z) : Prop := {
  go_fresh : gen ∉ version_gens (store_version st);
  go_youngest l s : level_slice (store_version st) !! 0 = Some l → s ∈ l → (sc_gen s < gen)%Z;
  go_bound : (gen < gen_buf (so_counters st))%Z;
}.

Lemma store_inv_grow contents (st : Store T) gen values t h c :
  store_inv contents st → gen ∉ version_gens (store_version st) → (gen_buf (so_counters st) ≤ gen_buf c)%Z →
  store_inv (with_table gen values contents)
    {| so_mem_table := so_mem_table st; so_tables := <[gen := t]> (so_tables st);
       so_status := so_status st; so_seeks := so_seeks st ++ replicate h 0%Z; so_counters := c |}.
Proof.
  intros [[Hlen Hl Hc Hs] Hse Hg Hf H0 Hm Hlog Hch Hk Hne] Hgen Hc'.
  assert (∀ g, g ∈ version_gens (store_version st) → g ≠ gen) as Hdiff by set_solver.
  assert (∀ s l, l ∈ level_slice (store_version st) → s ∈ l → sc_gen s ≠ gen) as Hsd.
  { intros s l Hl' Hs'. apply Hdiff, list_elem_of_fmap_2, elem_of_concat. eauto. }
  split; cbn [so_status so_seeks so_counters so_tables]; try done.
  - split; try done.
    + intros l s Hl' Hs'. pose proof (Hsd s l Hl' Hs') as Hn.
      destruct (Hl l s Hl' Hs') as [(t0 & Ht0 & Hh & Htg) Hw Hwf]. split; [|..].
      * exists t0. unfold store_get, with_table in *. cbn [so_tables].
        rewrite lookup_insert_ne by done. by rewrite decide_False.
      * unfold with_table. by rewrite decide_False.
      * done.
    + intros l s Hl' Hs' loc Hloc. rewrite length_app. pose proof (Hc l s Hl' Hs' loc Hloc). lia.
  - unfold seeks_ok. apply Forall_app. split; [done|]. apply Forall_replicate. lia.
  - intros g Hin. specialize (Hf g Hin). lia.
  - cbv zeta in *. rewrite Hm.
    replace (scope_meta (store_get {| so_mem_table := so_mem_table st; so_tables := <[gen:=t]> (so_tables st);
      so_status := so_status st; so_seeks := so_seeks st ++ replicate h 0%Z; so_counters := c |})
      <$> concat (level_slice (store_version st)))
      with (scope_meta (store_get st) <$> concat (level_slice (store_version st))); [done|].
    apply list_fmap_ext. intros i s Hi. unfold scope_meta, store_get. cbn [so_tables].
    rewrite lookup_insert_ne; [done|]. apply not_eq_sym, Hdiff, list_elem_of_fmap_2.
    by eapply list_elem_of_lookup_2.
  - intros g e Hin. unfold with_table. rewrite decide_False by (by apply Hdiff). by apply Hk.
  - intros g Hin. unfold with_table. rewrite decide_False by (by apply Hdiff). by apply Hne.
Qed.

Lemma with_table_find contents (st : Store T) gen values k :
  gen ∉ version_gens (store_version st) → length (level_slice (store_version st)) = MAX_LEVEL →
  version_find (with_table gen values contents) (store_version st) k = version_find contents (store_version st) k.
Proof.
  intros Hgen Hlen. unfold version_find. apply first_some_ext. intros s Hs. unfold scope_find, with_table.
  rewrite decide_False; [done|]. intros <-. apply Hgen, list_elem_of_fmap_2.
  unfold version_tables in Hs. destruct (level_slice (store_version st)) as [|l0 sl]; [done|].
  cbn [head default from_option drop concat] in Hs |- *. unfold id in Hs. rewrite ?drop_0 in Hs. rewrite elem_of_app, elem_of_reverse in Hs. set_solver.
Qed.

(** The new table, built and known to the loader. *)
Lemma loader_create_ok contents (st : Store T) gen values tp :
  store_inv contents st → gen_ok st gen → ksorted values → values ≠ [] → (∀ e, e ∈ values → e.1 ≠ []) →
  buildable tp gen values LEVEL_0 →
  ∃ scope meta st1, loader_create st gen values LEVEL_0 tp = Ok (scope, meta, st1) ∧
    sc_gen scope = gen ∧ so_status st1 = so_status st ∧ so_mem_table st1 = so_mem_table st ∧
    so_counters st1 = so_counters st ∧
    store_inv (with_table gen values contents) st1 ∧
    installable (with_table gen values contents) st1 scope meta.
Proof.
  intros Hinv [Hfresh Hyoung Hbound] Hs Hne Hkeys Hbuild.
  destruct (from_sorted_vec_data_spec gen values (so_seeks st) Hs Hne)
    as (scope & Hsc & Hg & Hcell & Hwf & Hwithin & _).
  destruct (build_table_holds tp gen values LEVEL_0 Hs Hne Hbuild) as (t & Ht & Hholds & Htg).
  unfold loader_create. rewrite Hsc. cbn [res_bind]. rewrite Ht. cbn [res_bind].
  eexists scope, _, _. split; [reflexivity|]. split_and!; [done..| |].
  - by apply (store_inv_grow contents st gen values t 1).
  - split; cbn [so_status so_seeks so_counters]; rewrite ?Hg; unfold with_table; rewrite ?decide_True by done; try done.
    + split; rewrite ?Hg, ?decide_True by done; try done.
      exists t. unfold store_get. cbn [so_tables]. by rewrite lookup_insert_eq.
    + intros loc Hloc. rewrite Hcell in Hloc. injection Hloc as <-. rewrite length_app. cbn. lia.
    + unfold scope_meta, store_get. cbn [so_tables]. by rewrite Hg, lookup_insert_eq.
Qed.

(** Compaction and at most one new table, of generation [gen]. *)
Record grown (gen : Z) (st st' : Store T) : Prop := {
  gr_mem : so_mem_table st' = so_mem_table st;
  gr_seq : seq_count (so_counters st') = seq_count (so_counters st);
  gr_gen : (gen_buf (so_counters st) ≤ gen_buf (so_counters st'))%Z;
  gr_gens g : g ∈ version_gens (store_version st') →
              g ∈ version_gens (store_version st) ∨ g = gen ∨ (gen_buf (so_counters st) ≤ g)%Z;
  gr_level_0 l' s : level_slice (store_version st') !! 0 = Some l' → s ∈ l' →
                    sc_gen s = gen ∨ sc_gen s ∈ version_gens (store_version st);
}.

Lemma level_0_gens_in (v : Version) l s :
  level_slice v !! 0 = Some l → s ∈ l → sc_gen s ∈ version_gens v.
Proof.
  intros Hl Hs. apply list_elem_of_fmap_2, elem_of_concat. exists l. split; [|done].
  by eapply list_elem_of_lookup_2.
Qed.

Lemma store_step_grown gen (st st' : Store T) : store_step st st' → grown gen st st'.
Proof.
  intros [? ? ? Hg Hl _ _ _]. split; try done; [naive_solver|]. intros l' s Hl' Hs.
  destruct (Hl l' Hl') as (l & Hll & Hin). right. eapply level_0_gens_in; [done|by apply Hin].
Qed.

Lemma grown_step gen (st st1 st2 : Store T) : grown gen st st1 → store_step st1 st2 → grown gen st st2.
Proof.
  intros [m1 q1 g1 n1 l1] [m2 q2 g2 n2 l2 _ _ _]. split; [congruence..|lia| |].
  - intros g [Hg|Hg]%n2; [by apply n1|right; right; lia].
  - intros l' s Hl' Hs. destruct (l2 l' Hl') as (l & Hl & Hin). by apply (l1 l s Hl), Hin.
Qed.

(** The edits of a round commute with the arrival of a table it does not know. *)
Lemma round_commutes contents (st : Store T) level target skip over own st2 contents' slice m g :
  round_result config contents st level target skip over own st2 contents' slice m →
  g ∉ version_gens (store_version st) → Forall (edit_commutes g) own.
Proof.
  intros [_ _ _ _ Hown Hne _ _ _ _ _ _] Hfresh. destruct over; [by destruct (Hown eq_refl) as [-> _]|].
  destruct (Hne eq_refl) as (nl & idx & cm & gl & ml & gll & mll & -> & Hgl).
  repeat constructor; cbn; unfold LEVEL_0; [lia| |lia]. intros _ Hg. by apply Hfresh, Hgl.
Qed.

(** The first round of a flush installs the new table after what it compacts itself. *)
Lemma minor_round contents (st : Store T) scope meta :
  store_inv contents st → installable contents st scope meta →
  round_ok config contents st LEVEL_0 scope false →
  ∃ over contents' st',
    compaction_round config st LEVEL_0 scope [NewFile ([scope], 0) 0 meta] false = Ok (over, st') ∧
    store_inv contents' st' ∧ grown (sc_gen scope) st st' ∧
    ∀ k, version_find contents' (store_version st') k
         = match btree_get k (contents (sc_gen scope)) with
           | Some v => Some v
           | None => version_find contents (store_version st) k
           end.
Proof.
  intros Hinv Hin Hsel.
  destruct (compaction_round_result config contents st LEVEL_0 scope false Hinv Hsel Hsize
    ltac:(unfold LEVEL_0, MAX_LEVEL; lia) Htypes) as (over & own & st2 & contents' & slice & m & Hrr).
  pose proof Hrr as [Hr Hst Hlev Hm Hown Hne _ _ Htab Hsk Hcont Hdone].
  pose proof (in_fresh _ _ _ _ Hin) as Hfresh. pose proof (in_bound _ _ _ _ Hin) as Hbound.
  pose proof (round_commutes _ _ _ _ _ _ _ _ _ _ _ _ Hrr Hfresh) as Hcomm.
  pose proof (wf_levels _ _ _ _ (si_wf _ _ Hinv)) as Hlen.
  destruct (log_and_apply_total (so_status st2) (so_seeks st2) (so_counters st2)
    ([NewFile ([scope], 0) 0 meta] ++ own) (cfg_ver_log_snapshot_threshold config)
    (alter (λ l, l ++ [scope]) 0 slice)
    {| vm_size_of_disk := vm_size_of_disk m + tm_size_of_disk meta; vm_len := vm_len m + tm_len meta |})
    as (vs' & c' & Hla & Hs' & Hm' & Hlog' & Hch' & Hg' & Hsq').
  { rewrite Hst. apply (si_log _ _ Hinv). }
  { rewrite Hst. apply (si_chan _ _ Hinv). }
  { rewrite Hst. cbn [app res_foldM]. rewrite levels_edit_install by done. cbn [res_bind].
    by apply levels_edits_push. }
  { rewrite Hst. by apply statistics_install. }
  rewrite Hr. cbn [app] in *. rewrite Hla. cbn [res_bind].
  set (vs1 := {| vs_version := mkVersion 0 slice m; vs_ver_log_writer := vs_ver_log_writer vs';
                 vs_logs := vs_logs vs'; vs_edit_approximate_count := 0; vs_chan := vs_chan vs' |}).
  destruct (Hdone vs1 c') as (Hi1 & Hs1 & Hf1); try done.
  assert (installable contents' (set_status st2 vs1 c') scope meta) as Hin1.
  { destruct Hin as [[(t & Ht & Hh & Htg) Hw Hwf] Hcell _ Hyoung _ Hkeys Hne' Hmeta].
    assert (store_get (set_status st2 vs1 c') (sc_gen scope) = store_get st (sc_gen scope)) as Hget.
    { unfold store_get. cbn [set_status so_tables]. by apply Htab. }
    split; rewrite ?(Hcont _ Hbound); try done.
    - split; rewrite ?(Hcont _ Hbound); try done. exists t. by rewrite Hget.
    - intros loc Hloc. cbn [set_status so_seeks]. specialize (Hcell loc Hloc). lia.
    - intros [Hg|Hg]%(ss_gens _ _ Hs1); [done|lia].
    - intros l s Hl Hs. destruct (ss_level_0 _ _ Hs1 l Hl) as (l0 & Hl0 & Hsub).
      by apply (Hyoung l0), Hsub.
    - cbn [set_status so_counters]. pose proof (ss_gen _ _ Hs1) as Hgg. cbn in Hgg. lia.
    - unfold scope_meta in *. by rewrite Hget. }
  destruct (install_inv contents' (set_status st2 vs1 c') scope meta vs' c' Hi1 Hin1) as [Hi2 Hf2];
    try done.
  exists over, contents', (set_status st2 vs' c'). split_and!; [done|exact Hi2| |].
  - destruct Hs1 as [m1 q1 g1 n1 l1 _ _ _]. split; try done; cbn [set_status so_status so_counters] in *.
    + intros g. unfold version_gens at 1. rewrite Hs'. intros Hg.
      assert (g = sc_gen scope ∨ g ∈ version_gens (vs_version vs1)) as [->|Hg1].
      { pose proof (wf_levels _ _ _ _ (si_wf _ _ Hi1)) as Hl1. cbn in Hl1.
        rewrite (push_concat slice scope Hl1), fmap_cons, elem_of_cons in Hg. exact Hg. }
      { by right; left. } { destruct (n1 g Hg1); auto. }
    + intros l' s. rewrite Hs'. destruct slice as [|l0 slice]; [done|]. cbn [alter list_alter lookup list_lookup].
      intros [= <-] [Hs|Hs%list_elem_of_singleton]%elem_of_app; [right|left; by subst].
      destruct (l1 l0 eq_refl) as (l & Hl & Hsub). eapply level_0_gens_in; [done|by apply Hsub].
  - intros k. cbn [set_status so_status] in *. rewrite Hf2, Hf1, (Hcont _ Hbound). done.
Qed.

(** *** Rounds one after the other *)

(** Every round has nothing to do or finds a selection it may compact. *)
Fixpoint rounds_ok (fuel : nat) (st : Store T) (level : nat) (target : Scope) (edits : list VersionEdit)
    (skip : bool) : Prop :=
  match fuel with
  | O => True
  | S fuel' =>
      level < MAX_LEVEL →
      (∀ contents, store_inv contents st → round_ok config contents st level target skip) ∧
      ∀ st', compaction_round config st level target edits skip = Ok (false, st') →
             rounds_ok fuel' st' (level + 1) target [] false
  end.

Lemma major_loop_ok fuel contents (st : Store T) level target skip :
  store_inv contents st → rounds_ok fuel st level target [] skip →
  ∃ contents' st', major_loop fuel config st level target [] skip = Ok st' ∧
    store_inv contents' st' ∧ store_step st st' ∧
    ∀ k, version_find contents' (store_version st') k = version_find contents (store_version st) k.
Proof.
  revert contents st level skip. induction fuel as [|fuel IH]; intros contents st level skip Hinv Hok.
  { by exists contents, st. }
  cbn [major_loop rounds_ok] in *. case_decide as Hl; [|by exists contents, st].
  destruct (Hok Hl) as [Hsel Hnext].
  destruct (compaction_round_spec config contents st level target skip Hinv (Hsel _ Hinv) Hsize Hl Htypes)
    as (over & contents1 & st1 & Hr & Hi1 & Hs1 & Hf1).
  rewrite Hr. cbn [res_bind]. destruct over; [by exists contents1, st1|].
  destruct (IH contents1 st1 (level + 1) false Hi1 (Hnext st1 Hr)) as (contents2 & st2 & -> & Hi2 & Hs2 & Hf2).
  exists contents2, st2. split_and!; [done|done|by etrans|]. intros k. by rewrite Hf2, Hf1.
Qed.

(** The whole of a flush after the swap. *)
Lemma minor_compaction_ok contents (st : Store T) gen values :
  store_inv contents st → gen_ok st gen → ksorted values → values ≠ [] → (∀ e, e ∈ values → e.1 ≠ []) →
  (∀ tp, cfg_level_table_type config !! LEVEL_0 = Some tp → buildable tp gen values LEVEL_0) →
  (∀ tp scope meta st1, loader_create st gen values LEVEL_0 tp = Ok (scope, meta, st1) →
     rounds_ok (S MAX_LEVEL) st1 LEVEL_0 scope [NewFile ([scope], 0) 0 meta] false) →
  ∃ contents' st', minor_compaction config st gen values = Ok st' ∧
    store_inv contents' st' ∧ grown gen st st' ∧
    ∀ k, version_find contents' (store_version st') k
         = match btree_get k values with
           | Some v => Some v
           | None => version_find contents (store_version st) k
           end.
Proof.
  intros Hinv Hgen Hs Hne Hkeys Hbuild Hrounds. unfold minor_compaction.
  destruct values as [|e vs] eqn:Ev; [done|]. rewrite <- Ev in *.
  destruct (lookup_lt_is_Some_2 (cfg_level_table_type config) LEVEL_0) as [tp Htp];
    [rewrite Htypes; unfold LEVEL_0, MAX_LEVEL; lia|].
  rewrite Htp. cbn [or_panic res_bind].
  destruct (loader_create_ok contents st gen values tp Hinv Hgen Hs Hne Hkeys (Hbuild tp Htp))
    as (scope & meta & st1 & Hlc & Hg & Hst & Hmem & Hcnt & Hi1 & Hin).
  specialize (Hrounds tp scope meta st1 Hlc). rewrite Hlc. cbn [res_bind].
  unfold major_compaction. rewrite decide_False by (unfold LEVEL_0, MAX_LEVEL; lia).
  cbn [major_loop rounds_ok] in *. rewrite decide_True by (unfold LEVEL_0, MAX_LEVEL; lia).
  destruct Hrounds as [Hsel Hnext]; [unfold LEVEL_0, MAX_LEVEL; lia|].
  destruct (minor_round (with_table gen values contents) st1 scope meta Hi1 Hin (Hsel _ Hi1))
    as (over & contents2 & st2 & Hr & Hi2 & Hgr & Hf2).
  rewrite Hr. cbn [res_bind].
  assert (∀ st', grown gen st1 st' → grown gen st st') as Hback.
  { intros st' [? ? ? Hgg Hll]. rewrite Hst, Hcnt in *. split; try done; congruence. }
  assert (∀ k, version_find contents2 (store_version st2) k
    = match btree_get k values with Some v => Some v | None => version_find contents (store_version st) k end) as Hf.
  { intros k. rewrite Hf2, Hg, Hst. unfold with_table at 1. rewrite decide_True by done.
    rewrite with_table_find; [done|apply Hgen|apply (si_wf _ _ Hinv)]. }
  rewrite Hg in Hgr. destruct over; [by exists contents2, st2; auto|].
  destruct (major_loop_ok MAX_LEVEL contents2 st2 (LEVEL_0 + 1) scope false Hi2 (Hnext st2 Hr))
    as (contents3 & st3 & -> & Hi3 & Hs3 & Hf3).
  exists contents3, st3. split_and!; [done|done|apply Hback; by eapply grown_step|].
  intros k. by rewrite Hf3.
Qed.
End flush.

(** ** The memory table over the version *)

Section storage_laws.
Context {SM : SkipMapOps InternalKey (option bytes)} {SML : SkipMapLaws InternalKey (option bytes)}.
Context `{IE : IntegerEncoding} {IEL : IntegerEncodingLaws} {CRC : Crc32} {CRCL : Crc32Laws}.
Context {IT : Itertools} {ITL : ItertoolsLaws} {BC : Bincode (list RawEdit)}.
Context {T : Type} {TB : Table T} {BLD : TableBuilder T} {BLDL : TableBuilderLaws T}.

Abbreviation store_version st := (vs_version (so_status st)).
Abbreviation mem_versions t := (sm_iter (ti_mem (mt_inner t))).

(** What the memory table owes the version: its generation can be used for the next table,
    and the immutable map is already on disk. *)
Record mem_inv (contents : Z → list KeyValue) (st : Store T) : Prop := {
  mi_wf : mem_wf (so_mem_table st) (so_counters st);
  mi_keys k s v : (new_with_seq k s, v) ∈ mem_versions (so_mem_table st) → k ≠ [];
  mi_immut m k v : ti_immut (mt_inner (so_mem_table st)) = Some m →
                   visible (sm_iter m) k (λ _, true) = Some v →
                   version_find contents (store_version st) k = Some v;
  mi_gen : gen_ok st (ti_log_writer (mt_inner (so_mem_table st))).2;
}.

(** The map the client sees. *)
Definition store_view (contents : Z → list KeyValue) (st : Store T) (k : bytes) : option bytes :=
  match table_view (so_mem_table st) k (up_to SEQ_MAX) with
  | Some v => v
  | None => default None (version_find contents (store_version st) k)
  end.

(** [swap] and what it leaves. *)
Lemma flush_swap contents (st : Store T) :
  mem_inv contents st → tx_count (so_mem_table st) = 0 →
  (swap (so_mem_table st) (so_counters st) = Some (None, so_mem_table st, so_counters st)) ∨
  ∃ mem c, swap (so_mem_table st) (so_counters st)
    = Some (Some ((ti_log_writer (mt_inner (so_mem_table st))).2, latest (mem_versions (so_mem_table st))), mem, c) ∧
    latest (mem_versions (so_mem_table st)) ≠ [] ∧ mem_wf mem c ∧ tx_count mem = 0 ∧
    mem_versions mem = [] ∧ ti_immut (mt_inner mem) = Some (ti_mem (mt_inner (so_mem_table st))) ∧
    (ti_log_writer (mt_inner mem)).2 = gen_buf (so_counters st) ∧
    seq_count c = seq_count (so_counters st) ∧ gen_buf c = (gen_buf (so_counters st) + 1)%Z.
Proof.
  intros [Hwf Hkeys Himm Hgen] Htx. pose proof (swap_spec _ (so_counters st) Htx) as Hswap.
  destruct (sm_is_empty (ti_mem (mt_inner (so_mem_table st)))) eqn:E; [by left|right].
  destruct Hswap as (mem & c & Hsw & Hsq & Hgb & Htx' & Hm & Hi & Hlog & Hg).
  exists mem, c. destruct Hwf as [Hw1 Hw2 Hw3 Hw4]. split_and!; try done.
  - intros Hn. apply not_true_iff_false in E. apply E. apply sm_is_empty_spec.
    destruct (mem_versions (so_mem_table st)) as [|[[k s] v] l] eqn:El; [done|].
    assert (btree_get k (latest ((new_with_seq k s, v) :: l)) ≠ None) as Hk.
    { rewrite latest_get. intros Hnone. rewrite visible_None in Hnone.
      discriminate (Hnone s v ltac:(by left)). }
    unfold new_with_seq in Hk. by rewrite Hn in Hk.
  - split; rewrite ?Hsq, ?Hm, ?Hi; try done.
    + by intros ? ? ? ?%not_elem_of_nil.
    + intros m k s v [= <-]. apply Hw1.
Qed.

(** What a flush writes. *)
Lemma flush_values_ok contents (st : Store T) :
  mem_inv contents st →
  ksorted (latest (mem_versions (so_mem_table st))) ∧
  ∀ e, e ∈ latest (mem_versions (so_mem_table st)) → e.1 ≠ [].
Proof.
  intros Hmem. split; [apply btree_from_iter_sorted|]. intros [k v] He.
  apply btree_get_Some in He; [|apply btree_from_iter_sorted].
  rewrite latest_get, visible_Some in He by apply sm_iter_sorted. destruct He as (s & Hin & _).
  by eapply (mi_keys _ _ Hmem).
Qed.

(** *** Background tasks *)

Lemma mem_inv_step contents contents' (st st' : Store T) :
  mem_inv contents st → store_step st st' →
  (∀ k, version_find contents' (store_version st') k = version_find contents (store_version st) k) →
  mem_inv contents' st' ∧ ∀ k, store_view contents' st' k = store_view contents st k.
Proof.
  intros [[Hw1 Hw2 Hw3 Hw4] Hkeys Himm [Hg1 Hg2 Hg3]] [Hm Hsq Hgb Hgens Hl0 _ _ _] Hf. split.
  - split; rewrite ?Hm; try done.
    + split; rewrite ?Hsq; done.
    + intros m k v Hi Hv. rewrite Hf. by eapply Himm.
    + split.
      * intros [?|?]%Hgens; [done|lia].
      * intros l s Hl Hs. destruct (Hl0 l Hl) as (l1 & Hl1 & Hsub). by eapply Hg2, Hsub.
      * lia.
  - intros k. unfold store_view. by rewrite Hm, Hf.
Qed.

Lemma set_mem_table_inv contents (st : Store T) mem c :
  store_inv contents st → (gen_buf (so_counters st) ≤ gen_buf c)%Z →
  store_inv contents (set_mem_table st mem c).
Proof.
  intros [Hwf ? ? Hf ? ? ? ? ? ?] Hc. split; try done.
  intros g Hg. specialize (Hf g Hg). cbn [set_mem_table so_counters]. lia.
Qed.

(** A flush moves the memory table to disk; no key changes its value. *)
Lemma flush_view contents contents' (st st' : Store T) mem c :
  store_inv contents st → mem_inv contents st →
  latest (mem_versions (so_mem_table st)) ≠ [] → mem_wf mem c →
  mem_versions mem = [] → ti_immut (mt_inner mem) = Some (ti_mem (mt_inner (so_mem_table st))) →
  (ti_log_writer (mt_inner mem)).2 = gen_buf (so_counters st) →
  seq_count c = seq_count (so_counters st) → gen_buf c = (gen_buf (so_counters st) + 1)%Z →
  grown (ti_log_writer (mt_inner (so_mem_table st))).2 (set_mem_table st mem c) st' →
  (∀ k, version_find contents' (store_version st') k
        = match btree_get k (latest (mem_versions (so_mem_table st))) with
          | Some v => Some v
          | None => version_find contents (store_version st) k
          end) →
  mem_inv contents' st' ∧ seq_count (so_counters st') = seq_count (so_counters st) ∧
  ∀ k, store_view contents' st' k = store_view contents st k.
Proof.
  intros Hinv [[Hw1 Hw2 Hw3 Hw4] Hkeys Himm [Hg1 Hg2 Hg3]] Hne Hwf' Hm Hi Hwg Hsq Hgb
    [Hgm Hgsq Hggb Hgens Hgl] Hf.
  cbn [set_mem_table so_mem_table so_counters so_status] in *. split_and!.
  - split; rewrite ?Hgm; try done.
    + destruct Hwf'. split; rewrite ?Hgsq; done.
    + intros k s v. rewrite Hm. by intros ?%not_elem_of_nil.
    + intros m k v. rewrite Hi. intros [= <-] Hv. rewrite Hf, latest_get, Hv. done.
    + rewrite Hwg. split.
      * intros [Hg|[Hg|Hg]]%Hgens; [pose proof (si_fresh _ _ Hinv _ Hg)| |]; lia.
      * intros l s Hl Hs. destruct (Hgl l s Hl Hs) as [Hg|Hg]; [lia|]. by apply (si_fresh _ _ Hinv).
      * lia.
  - congruence.
  - intros k. unfold store_view. rewrite Hgm. unfold table_view. rewrite Hm, Hi. cbn [visible filter list_filter last fmap option_fmap option_map].
    rewrite Hf, latest_get.
    rewrite (visible_all (mem_versions (so_mem_table st)) k SEQ_MAX)
      by (intros s v Hin; apply Hw1 in Hin; lia).
    destruct (visible (mem_versions (so_mem_table st)) k (λ _, true)) as [v|] eqn:Ev; [done|].
    destruct (ti_immut (mt_inner (so_mem_table st))) as [m|] eqn:Em; [|done].
    rewrite (visible_all (sm_iter m) k SEQ_MAX)
      by (intros s v Hin; specialize (Hw2 m k s v eq_refl Hin); lia).
    destruct (visible (sm_iter m) k (λ _, true)) as [v|] eqn:Ei; [|done].
    by rewrite (Himm m k v eq_refl Ei).
Qed.

Section tasks.
Context (config : Config) (Hsize : (0 < cfg_sst_file_size config)%N)
        (Htypes : length (cfg_level_table_type config) = MAX_LEVEL).

(** A task that can run to its end: a compaction of a level there is; a flush with a client
    still waiting, if any, and with no transaction alive, which [swap] waits for. *)
Definition task_ready (st : Store T) (task : CompactTask) : Prop :=
  match task with
  | TaskSeek _ level => level < MAX_LEVEL
  | TaskFlush tx => tx ≠ Some false ∧ tx_count (so_mem_table st) = 0
  end.

(** A task whose rounds select what they may compact and whose tables can be built.  The
    code does not test this: it runs every task it is sent. *)
Definition task_safe (st : Store T) (task : CompactTask) : Prop :=
  match task with
  | TaskSeek scope level => rounds_ok config (S MAX_LEVEL) st level scope [] true
  | TaskFlush tx =>
      ∀ gen values mem c,
        swap (so_mem_table st) (so_counters st) = Some (Some (gen, values), mem, c) →
        (∀ tp, cfg_level_table_type config !! LEVEL_0 = Some tp → buildable tp gen values LEVEL_0) ∧
        ∀ tp scope meta st1, loader_create (set_mem_table st mem c) gen values LEVEL_0 tp = Ok (scope, meta, st1) →
        rounds_ok config (S MAX_LEVEL) st1 LEVEL_0 scope [NewFile ([scope], 0) 0 meta] false
  end.

Definition task_ok (st : Store T) (task : CompactTask) : Prop := task_ready st task ∧ task_safe st task.

(** A task that has ended was ready. *)
Lemma run_task_ready task (st st' : Store T) : run_task config task st = Some (Ok st') → task_ready st task.
Proof.
  clear Hsize Htypes. destruct task as [scope level|tx]; cbn [run_task task_ready].
  - unfold major_compaction. case_decide; [done|]. intros _. unfold MAX_LEVEL in *. lia.
  - unfold check_then_compaction. destruct (swap _ _) as [[[o mem] c]|] eqn:Es; [|done].
    assert (tx_count (so_mem_table st) = 0) as -> by (unfold swap in Es; case_decide; [done|lia]).
    intros Hr. split; [|done]. intros ->. injection Hr as Hr. by destruct (match o with Some _ => _ | None => _ end).
Qed.

(** Once a round has nothing to do there is no next one. *)
Lemma idle_rounds fuel (st : Store T) level target edits skip :
  data_loading_with_level config st level target skip = Ok (None, st) →
  rounds_ok config (S fuel) st level target edits skip.
Proof.
  intros Hload _. split; [by left|]. intros st' Hr. unfold compaction_round in Hr.
  rewrite Hload in Hr. cbn [res_bind] in Hr. destruct edits; [done|].
  by destruct (log_and_apply _ _ _ _ _) as [[? ?]| |].
Qed.

(** A flush is in order as long as its table can be built and level 0 has not reached its
    limit: then it compacts nothing. *)
Lemma flush_task_ok (st : Store T) tx :
  tx ≠ Some false → tx_count (so_mem_table st) = 0 →
  is_threshold_exceeded_major (store_version st) config LEVEL_0 = Ok false →
  (∀ gen values mem c tp, swap (so_mem_table st) (so_counters st) = Some (Some (gen, values), mem, c) →
     cfg_level_table_type config !! LEVEL_0 = Some tp → buildable tp gen values LEVEL_0) →
  task_ok st (TaskFlush tx).
Proof.
  intros Htx H0 Hex Hbuild. split; [done|]. cbn [task_safe].
  intros gen values mem c Hsw. split; [intros tp; by eapply Hbuild|]. intros tp scope meta st1 Hlc.
  assert (so_status st1 = so_status st) as Hst.
  { unfold loader_create in Hlc. destruct (from_sorted_vec_data _ _ _) as [[? ?]| |]; [|done..].
    cbn [res_bind] in Hlc. destruct (build_table _ _ _ _); [|done..]. by injection Hlc as <- <- <-. }
  apply idle_rounds. unfold data_loading_with_level. rewrite Hst, Hex. by case_decide.
Qed.

Lemma seek_task_ok contents (st : Store T) scope level :
  store_inv contents st → mem_inv contents st → task_ok st (TaskSeek scope level) →
  ∃ contents' st', run_task config (TaskSeek scope level) st = Some (Ok st') ∧ store_inv contents' st' ∧
    mem_inv contents' st' ∧ store_step st st' ∧ ∀ k, store_view contents' st' k = store_view contents st k.
Proof.
  intros Hinv Hmem [Hl Hr]. cbn [run_task task_ready task_safe] in *. unfold major_compaction.
  rewrite decide_False by (unfold MAX_LEVEL in *; lia).
  destruct (major_loop_ok config Hsize Htypes _ contents st level scope true Hinv Hr)
    as (contents' & st' & -> & Hi & Hs & Hf).
  destruct (mem_inv_step contents contents' st st' Hmem Hs Hf) as [Hm Hv].
  by exists contents', st'.
Qed.

Lemma run_task_ok contents (st : Store T) task :
  store_inv contents st → mem_inv contents st → task_ok st task →
  ∃ contents' st', run_task config task st = Some (Ok st') ∧ store_inv contents' st' ∧
    mem_inv contents' st' ∧ seq_count (so_counters st') = seq_count (so_counters st) ∧
    ∀ k, store_view contents' st' k = store_view contents st k.
Proof.
  intros Hinv Hmem. destruct task as [scope level|tx].
  { intros Hok. destruct (seek_task_ok contents st scope level Hinv Hmem Hok)
      as (contents' & st' & Hrun & Hi & Hm & Hs & Hv).
    exists contents', st'. split_and!; try done. apply Hs. }
  cbn [run_task]. intros [[Htx Htx0] Hok]. cbn [task_safe] in Hok. unfold check_then_compaction.
  destruct (flush_swap contents st Hmem Htx0) as [Hsw|(mem & c & Hsw & Hne & Hrest)]; rewrite Hsw.
  { exists contents, st. destruct st; cbn [res_bind]. split_and!; try done. by destruct tx as [[]|]. }
  destruct Hrest as (Hwf & Htx' & Hm & Hi & Hwg & Hsq & Hgb).
  destruct (latest (mem_versions (so_mem_table st))) as [|e l] eqn:El; [done|]. rewrite <- El in *.
  destruct (minor_compaction_ok config Hsize Htypes contents (set_mem_table st mem c)
    (ti_log_writer (mt_inner (so_mem_table st))).2 (latest (mem_versions (so_mem_table st))))
    as (contents' & st' & Hmc & Hi' & Hgr & Hf).
  - apply set_mem_table_inv; [done|lia].
  - destruct (mi_gen _ _ Hmem) as [Hg1 Hg2 Hg3]. split; try done. cbn. lia.
  - by eapply flush_values_ok.
  - by rewrite El.
  - by eapply flush_values_ok.
  - intros tp. eapply (proj1 (Hok _ _ _ _ Hsw)).
  - intros tp scope meta st1. eapply (proj2 (Hok _ _ _ _ Hsw)).
  - destruct (flush_view contents contents' st st' mem c) as (Hm' & Hsq' & Hv); try done.
    exists contents', st'. unfold set_mem_table in Hmc. rewrite Hmc. cbn [res_bind].
    split_and!; try done. by destruct tx as [[]|].
Qed.
End tasks.
End storage_laws.
