(* ===== verification/StorageRefine.v ===== *)
(** * The storage implements a map

    The state of the storage as a step relation: the commands of the clients, the tasks
    they send, and the background task, in any interleaving.  The background task runs
    every task it is sent, and a removal may be interrupted between its lookup and its
    write.  As long as the tasks are safe and no removal comes too late, every reachable
    state represents a map from keys to values, the commands answer as that map does, and
    neither a flush nor a compaction changes it. *)

From S2P Require Import Prelude Std Crates Block Iterator Io Log Config MemTable Scope BTreeTable Version Status Compactor CompactorCorrect Storage StorageCorrect.
From Stdlib Require Import ZArith Lia Strings.Byte Strings.String.
From stdpp Require Import base list gmap sorting.

Set Default Goal Selector "!".
Open Scope nat_scope.

(** ** The specification: a map *)

Abbreviation KeyMap := (bytes → option bytes).

Definition map_put (m : KeyMap) (k : bytes) (v : option bytes) : KeyMap :=
  λ k', if decide (k' = k) then v else m k'.

(** What a command answers and leaves. *)
Definition map_exec (cmd : CommandData) (m : KeyMap) : KernelResult (option bytes) * KeyMap :=
  match cmd with
  | CmdSet key value => (Ok None, map_put m key (Some value))
  | CmdGet key => (Ok (m key), m)
  | CmdRemove key =>
      match m key with
      | Some _ => (Ok None, map_put m key None)
      | None => (Err KeyNotFound, m)
      end
  end.

(** Maps are compared pointwise. *)
Definition keymap_eq : relation KeyMap := pointwise_relation bytes eq.

#[export] Instance keymap_eq_equivalence : Equivalence keymap_eq := _.

#[export] Instance map_put_proper : Proper (keymap_eq ==> eq ==> eq ==> keymap_eq) map_put.
Proof. intros m1 m2 Hm k ? <- v ? <- k'. unfold map_put. case_decide; [done|apply Hm]. Qed.

#[export] Instance map_exec_proper cmd : Proper (keymap_eq ==> prod_relation eq keymap_eq) (map_exec cmd).
Proof.
  intros m1 m2 Hm. destruct cmd as [k v|k|k]; cbn [map_exec].
  - split; [done|]. cbn. by rewrite Hm.
  - rewrite (Hm k). destruct (m2 k); split; try done. cbn. by rewrite Hm.
  - split; [cbn; by rewrite (Hm k)|done].
Qed.

Section refine.
Context {SM : SkipMapOps InternalKey (option bytes)} {SML : SkipMapLaws InternalKey (option bytes)}.
Context `{IE : IntegerEncoding} {IEL : IntegerEncodingLaws} {CRC : Crc32} {CRCL : Crc32Laws}.
Context {IT : Itertools} {ITL : ItertoolsLaws} {BC : Bincode (list RawEdit)}.
Context {T : Type} {TB : Table T} {BLD : TableBuilder T} {BLDL : TableBuilderLaws T}.

Abbreviation store_version st := (vs_version (so_status st)).
Abbreviation seq_of s := (seq_count (so_counters (ks_inner s))).

(** ** The invariant *)

Record kip_inv (contents : Z → list KeyValue) (s : KipStorage T) : Prop := {
  ki_store : store_inv contents (ks_inner s);
  ki_mem : mem_inv contents (ks_inner s);
  ki_open : task_open (ks_compactor_tx s) = true;
  ki_size : (0 < cfg_sst_file_size (ks_config s))%N;
  ki_types : length (cfg_level_table_type (ks_config s)) = MAX_LEVEL;
}.

Definition view (contents : Z → list KeyValue) (s : KipStorage T) : KeyMap :=
  store_view contents (ks_inner s).

Lemma set_seeks_inv contents (st : Store T) h :
  store_inv contents st → seeks_ok h → length (so_seeks st) ≤ length h →
  store_inv contents (set_seeks st h).
Proof.
  intros [[Hlen Hl Hc Hs] ? ? ? ? ? ? ? ? ?] Hh Hn. split; try done.
  split; try done. intros l s Hin Hsin loc Hloc. cbn. eapply Nat.lt_le_trans; [by eapply Hc|done].
Qed.

Lemma set_seeks_mem contents (st : Store T) h :
  mem_inv contents st → mem_inv contents (set_seeks st h).
Proof. intros [? ? ? []]. by do 2 (split; try done). Qed.

(** The channel of a live storage takes or drops a task. *)
Lemma try_send_open ch task :
  task_open ch = true → ∃ ch', try_send ch task = Ok ch' ∧ task_open ch' = true.
Proof. intros Ho. unfold try_send. rewrite Ho. case_decide; by eexists. Qed.

(** The read path shared by the storage and the transactions. *)
Lemma query_and_compaction_ok contents (get : Z → option T) h v key ch :
  version_wf get contents h v → seeks_ok h → task_open ch = true →
  ∃ h' ch', query_and_compaction get key v h ch
      = (Ok ((λ x, (key, x)) <$> version_find contents v key), h', ch') ∧
    seeks_ok h' ∧ length h' = length h ∧ task_open ch' = true.
Proof.
  intros Hwf Hh Ho. unfold query_and_compaction.
  destruct (query_spec get contents h v key Hwf Hh) as (miss & h' & -> & Hh' & Hlen).
  destruct miss as [[scope level]|]; [|by eexists _, _].
  destruct (try_send_open ch (TaskSeek scope level) Ho) as (ch' & -> & Ho'). by eexists _, _.
Qed.

Lemma set_seeks_kip contents (s : KipStorage T) h ch :
  kip_inv contents s → seeks_ok h → length (so_seeks (ks_inner s)) ≤ length h → task_open ch = true →
  kip_inv contents (set_tx (set_inner_store s (set_seeks (ks_inner s) h)) ch).
Proof.
  intros [Hst Hmem Ho Hsize Htypes] Hh Hlen Hch.
  split; cbn; [by apply set_seeks_inv|by apply set_seeks_mem|done..].
Qed.

(** A read answers from the map; what it changes is the seek counters and the channel. *)
Lemma storage_get_ok contents (s : KipStorage T) key :
  kip_inv contents s →
  ∃ s', storage_get key s = (Ok (view contents s key), s') ∧ kip_inv contents s' ∧
        seq_of s' = seq_of s ∧ so_mem_table (ks_inner s') = so_mem_table (ks_inner s) ∧
        keymap_eq (view contents s') (view contents s).
Proof.
  intros Hk. pose proof Hk as [Hst Hmem Ho Hsize Htypes].
  unfold storage_get, view, store_view, mem_table. rewrite mem_find_view.
  destruct (table_view (so_mem_table (ks_inner s)) key (up_to SEQ_MAX)) as [v|] eqn:Ev;
    cbn [fmap option_fmap option_map].
  { exists s. by split_and!. }
  destruct (query_and_compaction_ok contents (store_get (ks_inner s)) (so_seeks (ks_inner s))
    (current_version s) key (ks_compactor_tx s) (si_wf _ _ Hst) (si_seeks _ _ Hst) Ho)
    as (h & ch & -> & Hh & Hlen & Hch).
  eexists. cbn [res_bind]. split; [unfold current_version; by destruct (version_find _ _ key)|].
  split_and!; try done. apply set_seeks_kip; [done..|lia|done].
Qed.

(** A write puts its pair on the map. *)
Lemma append_cmd_data_ok contents (s : KipStorage T) data :
  kip_inv contents s → data.1 ≠ [] → (seq_of s < SEQ_MAX)%Z →
  ∃ s', append_cmd_data data s = (Ok (), s') ∧ kip_inv contents s' ∧
        seq_of s' = (seq_of s + 1)%Z ∧ tx_count (so_mem_table (ks_inner s')) = tx_count (so_mem_table (ks_inner s)) ∧
        keymap_eq (view contents s') (map_put (view contents s) data.1 data.2).
Proof.
  intros [Hst Hmem Ho Hsize Htypes] Hkey Hseq. unfold append_cmd_data, mem_table.
  destruct (insert_data_spec _ data _ (mi_wf _ _ Hmem) Hseq)
    as (exceeded & m & c & Hins & Hwf & Hsq & Htx & Hex & Hv).
  destruct (insert_data_frame _ _ _ _ _ _ Hins) as (Himm & Hlog & Hgb & Hin & _). rewrite Hins.
  assert (∀ tx, task_open tx = true → kip_inv contents
    (set_tx (set_inner_store s (set_mem_table (ks_inner s) m c)) tx)) as Hset.
  { intros tx Htxo. split; try done; cbn.
    - apply set_mem_table_inv; [done|]. lia.
    - destruct Hmem as [_ Hkeys Hi [Hg1 Hg2 Hg3]]. split; try done; cbn.
      + intros k sq v [[-> _]|?]%Hin; [done|]. by eapply Hkeys.
      + intros im k v. rewrite Himm. apply Hi.
      + rewrite Hlog. split; try done. cbn. lia. }
  assert (∀ k, store_view contents (set_mem_table (ks_inner s) m c) k
    = map_put (view contents s) data.1 data.2 k) as Hview.
  { intros k. unfold store_view, map_put, view, store_view. cbn. rewrite Hv.
    assert (up_to SEQ_MAX (seq_of s) = true) as -> by (apply bool_decide_eq_true; lia).
    do 2 case_decide; naive_solver. }
  destruct exceeded; [|eexists; split; [done|]; split_and!; try done; by apply (Hset (ks_compactor_tx s))].
  destruct (try_send_open (ks_compactor_tx s) (TaskFlush None) Ho) as (tx & -> & Htxo).
  eexists. split; [done|]. by split_and!; [apply Hset|..].
Qed.

(** ** Commands *)

Definition storage_exec (cmd : CommandData) (s : KipStorage T) : KernelResult (option bytes) * KipStorage T :=
  match cmd with
  | CmdSet key value => let '(r, s') := storage_set key value s in (let? _ := r in Ok None, s')
  | CmdGet key => storage_get key s
  | CmdRemove key => let '(r, s') := storage_remove key s in (let? _ := r in Ok None, s')
  end.

Lemma storage_exec_ok contents (s : KipStorage T) cmd :
  kip_inv contents s → get_key cmd ≠ [] → (seq_of s < SEQ_MAX)%Z →
  ∃ s', storage_exec cmd s = ((map_exec cmd (view contents s)).1, s') ∧ kip_inv contents s' ∧
        (seq_of s ≤ seq_of s' ≤ seq_of s + 1)%Z ∧
        keymap_eq (view contents s') (map_exec cmd (view contents s)).2.
Proof.
  intros Hk Hkey Hseq. destruct cmd as [k v|k|k]; cbn [get_key storage_exec map_exec fst snd] in *.
  - unfold storage_set.
    destruct (append_cmd_data_ok contents s (k, Some v) Hk Hkey Hseq) as (s' & -> & Hk' & Hsq & _ & Hv).
    exists s'. split_and!; try done; lia.
  - unfold storage_remove. destruct (storage_get_ok contents s k Hk) as (s1 & -> & Hk1 & Hsq1 & _ & Hv1).
    destruct (view contents s k) as [v|]; [|exists s1; split_and!; try done; lia].
    destruct (append_cmd_data_ok contents s1 (k, None) Hk1 Hkey ltac:(lia))
      as (s' & -> & Hk' & Hsq & _ & Hv).
    exists s'. split_and!; try done; [lia..|]. by rewrite Hv, Hv1.
  - destruct (storage_get_ok contents s k Hk) as (s' & -> & Hk' & Hsq & _ & Hv).
    exists s'. split_and!; try done; lia.
Qed.

(** ** Steps *)

(** What is seen of a step: a command and its answer; the two halves of a removal that
    other steps interrupt, the lookup that found the key ([LFound]) and the write
    ([LErase]); a task put on the channel; a task that the background task has run. *)
Inductive KLabel : Type :=
  | LCmd (cmd : CommandData) (answer : KernelResult (option bytes))
  | LFound (key : bytes)
  | LErase (key : bytes) (answer : KernelResult (option bytes))
  | LSilent
  | LTask (task : CompactTask).

(** The steps of the code.  [remove] is a lookup and then a write, each under its own lock:
    it is one step when nothing comes in between and two otherwise.  The background task
    runs whatever is first on its channel; a flush does not return while a transaction is
    alive. *)
Inductive kip_step : KipStorage T → KLabel → KipStorage T → Prop :=
  | step_cmd s cmd r s' :
      get_key cmd ≠ [] → storage_exec cmd s = (r, s') → kip_step s (LCmd cmd r) s'
  | step_found key value s s' :
      key ≠ [] → storage_get key s = (Ok (Some value), s') → kip_step s (LFound key) s'
  | step_erase key r s s' :
      key ≠ [] → append_cmd_data (key, None) s = (r, s') → kip_step s (LErase key (let? _ := r in Ok None)) s'
  | step_flush s s' : flush_send s = Some (Ok s') → kip_step s LSilent s'
  | step_flush_background s s' : flush_background s = Some (Ok s') → kip_step s LSilent s'
  | step_manual min max level s s' :
      manual_compaction min max level s = Some (Ok s') → kip_step s LSilent s'
  | step_task task rest s s' :
      task_queue (ks_compactor_tx s) = task :: rest → background_step s = Some (Ok s') →
      kip_step s (LTask task) s'.

(** A run with the state each step was taken in. *)
Abbreviation KTrace := (list (KipStorage T * KLabel)).

Inductive kip_run : KipStorage T → KTrace → KipStorage T → Prop :=
  | run_nil s : kip_run s [] s
  | run_cons s1 l s2 tr s3 : kip_step s1 l s2 → kip_run s2 tr s3 → kip_run s1 ((s1, l) :: tr) s3.

(** The tasks that are run are safe where they are run. *)
Definition event_safe (e : KipStorage T * KLabel) : Prop :=
  match e.2 with LTask task => task_safe (ks_config e.1) (ks_inner e.1) task | _ => True end.

(** No removal comes too late: the key it has found is still there when it writes. *)
Definition event_timely (e : KipStorage T * KLabel) : Prop :=
  match e.2 with LErase key _ => ∃ value, (storage_get key e.1).1 = Ok (Some value) | _ => True end.

(** The steps of the map. *)
Definition map_step (m : KeyMap) (l : KLabel) (m' : KeyMap) : Prop :=
  match l with
  | LCmd cmd r => (map_exec cmd m).1 = r ∧ keymap_eq m' (map_exec cmd m).2
  | LFound key => (∃ value, m key = Some value) ∧ keymap_eq m' m
  | LErase key r => (map_exec (CmdRemove key) m).1 = r ∧ keymap_eq m' (map_exec (CmdRemove key) m).2
  | LSilent | LTask _ => keymap_eq m' m
  end.

Fixpoint map_run (m : KeyMap) (ls : list KLabel) (m' : KeyMap) : Prop :=
  match ls with
  | [] => keymap_eq m' m
  | l :: ls' => ∃ m1, map_step m l m1 ∧ map_run m1 ls' m'
  end.

Lemma map_step_proper m1 m2 l m : keymap_eq m1 m2 → map_step m2 l m → map_step m1 l m.
Proof.
  intros E Hs. destruct l as [cmd r|key|key r| |task]; cbn [map_step] in *.
  2: by rewrite (E key), E.
  3-4: by rewrite E.
  - destruct (map_exec_proper cmd _ _ E) as [E1 E2], Hs as [<- Hs]. split; [done|]. by rewrite E2.
  - destruct (map_exec_proper (CmdRemove key) _ _ E) as [E1 E2], Hs as [<- Hs]. split; [done|]. by rewrite E2.
Qed.

Lemma map_run_proper m1 m2 ls m1' m2' :
  keymap_eq m1 m2 → keymap_eq m1' m2' → map_run m2 ls m2' → map_run m1 ls m1'.
Proof.
  revert m1 m2. induction ls as [|l ls IH]; intros m1 m2 H1 H2; cbn [map_run].
  { intros H. by rewrite H1, H2. }
  intros (m & Hs & Hr). exists m. split; [|by eapply IH]. by eapply map_step_proper.
Qed.

Lemma send_task_ok contents (s : KipStorage T) task s' :
  kip_inv contents s → send_task task s = Some (Ok s') →
  kip_inv contents s' ∧ ks_inner s' = ks_inner s.
Proof.
  intros [? ? Ho ? ?]. unfold send_task, send. rewrite Ho. case_decide; [|done].
  intros [= <-]. by do 2 (split; try done).
Qed.

Lemma manual_compaction_ok contents (s : KipStorage T) min max level s' :
  kip_inv contents s → manual_compaction min max level s = Some (Ok s') →
  kip_inv contents s' ∧ seq_of s' = seq_of s ∧ keymap_eq (view contents s') (view contents s).
Proof.
  intros [Hst Hmem Ho Hsize Htypes]. unfold manual_compaction.
  destruct (le_b min max); [|by intros [= <-]]. cbn [from_range]. intros Hs.
  apply (send_task_ok contents) in Hs as [Hk Hin].
  - split_and!; [done|by rewrite Hin|]. intros k. unfold view. by rewrite Hin.
  - split; try done; cbn; [|by apply set_seeks_mem].
    apply set_seeks_inv; [done| |rewrite length_app; lia].
    apply Forall_app. split; [apply (si_seeks _ _ Hst)|]. repeat constructor; lia.
Qed.

Lemma background_ready (s : KipStorage T) task rest s' :
  task_queue (ks_compactor_tx s) = task :: rest → background_step s = Some (Ok s') → task_ready (ks_inner s) task.
Proof.
  intros Hq. unfold background_step. rewrite Hq.
  destruct (run_task _ _ _) as [[st| |]|] eqn:Er; [|done..]. intros _. by eapply run_task_ready.
Qed.

Lemma background_step_ok contents (s : KipStorage T) task rest :
  kip_inv contents s → task_queue (ks_compactor_tx s) = task :: rest →
  task_ok (ks_config s) (ks_inner s) task →
  ∃ contents' s', background_step s = Some (Ok s') ∧ kip_inv contents' s' ∧ seq_of s' = seq_of s ∧
    keymap_eq (view contents' s') (view contents s).
Proof.
  intros [Hst Hmem Ho Hsize Htypes] Hq Hok. unfold background_step. rewrite Hq.
  destruct (run_task_ok (ks_config s) Hsize Htypes contents (ks_inner s) task Hst Hmem Hok)
    as (contents' & st & -> & Hst' & Hmem' & Hsq & Hv).
  cbn [res_bind]. eexists contents', _. by split_and!.
Qed.

Lemma background_run_add n k (s s' : KipStorage T) :
  background_run n s = Some (Ok s') → background_run (n + k) s = background_run k s'.
Proof.
  revert s. induction n as [|n IH]; intros s Hr; [by injection Hr as ->|]. cbn [background_run Nat.add] in *.
  destruct (background_step s) as [[s1| |]|]; [by apply IH|done..].
Qed.

(** Each of the tasks is ready and safe when its turn comes. *)
Fixpoint tasks_ok (config : Config) (tasks : list CompactTask) (st : Store T) : Prop :=
  match tasks with
  | [] => True
  | task :: tasks' =>
      task_ok config st task ∧ ∀ st', run_task config task st = Some (Ok st') → tasks_ok config tasks' st'
  end.

(** The background task works its channel off. *)
Lemma background_run_ok contents (s : KipStorage T) tasks rest :
  kip_inv contents s → task_queue (ks_compactor_tx s) = tasks ++ rest →
  tasks_ok (ks_config s) (tasks ++ rest) (ks_inner s) →
  ∃ contents' s', background_run (length tasks) s = Some (Ok s') ∧ kip_inv contents' s' ∧ seq_of s' = seq_of s ∧
    keymap_eq (view contents' s') (view contents s) ∧ task_queue (ks_compactor_tx s') = rest ∧
    tasks_ok (ks_config s') rest (ks_inner s').
Proof.
  revert contents s. induction tasks as [|task tasks IH]; intros contents s Hk Hq Hok; [by exists contents, s|].
  destruct Hok as [Hok Hnext].
  destruct (background_step_ok contents s task (tasks ++ rest) Hk Hq Hok) as (c1 & s1 & Hb & Hk1 & Hsq1 & Hv1).
  cbn [background_run length]. rewrite Hb. unfold background_step in Hb. rewrite Hq in Hb. cbn [app] in Hb.
  destruct (run_task _ _ _) as [[st| |]|] eqn:Er; cbn [res_bind] in Hb; [|done..]. injection Hb as <-.
  destruct (IH c1 _ Hk1 eq_refl (Hnext st eq_refl)) as (c' & s' & Hr & Hk' & Hsq & Hv & Hq' & Hok').
  exists c', s'. split_and!; [exact Hr|done|by rewrite Hsq|by etrans|done|done].
Qed.

(** The whole of a flush: the earlier tasks, then the flush itself. *)
Lemma storage_flush_ok contents (s : KipStorage T) :
  kip_inv contents s → length (task_queue (ks_compactor_tx s)) < TASK_CAPACITY →
  tasks_ok (ks_config s) (task_queue (ks_compactor_tx s) ++ [TaskFlush (Some true)]) (ks_inner s) →
  ∃ contents' s1 s', storage_flush s = Some (Ok s') ∧
    task_queue (ks_compactor_tx s1) = [TaskFlush (Some true)] ∧ background_step s1 = Some (Ok s') ∧
    kip_inv contents' s' ∧ seq_of s' = seq_of s ∧ keymap_eq (view contents' s') (view contents s).
Proof.
  intros Hk Hlen Hok. unfold storage_flush, flush_send, send_task, send.
  rewrite (ki_open _ _ Hk), decide_True by done. cbn [res_bind]. set (s0 := set_tx s _).
  assert (kip_inv contents s0) as Hk0 by (destruct Hk; by split).
  destruct (background_run_ok contents s0 _ _ Hk0 eq_refl Hok) as (c1 & s1 & Hr & Hk1 & Hsq1 & Hv1 & Hq1 & Hok1).
  destruct (background_step_ok c1 s1 _ [] Hk1 Hq1 (proj1 Hok1)) as (c' & s' & Hb & Hk' & Hsq & Hv).
  exists c', s1, s'. split_and!; [|done|done|done|by rewrite Hsq|by etrans].
  cbn [s0 set_tx ks_compactor_tx task_queue]. rewrite length_app, (background_run_add _ _ _ _ Hr).
  cbn [length background_run]. by rewrite Hb.
Qed.

(** The lookup half of a removal is a read, the other half a write. *)
Lemma erase_ok contents (s : KipStorage T) key r s' :
  kip_inv contents s → key ≠ [] → (seq_of s < SEQ_MAX)%Z → append_cmd_data (key, None) s = (r, s') →
  r = Ok () ∧ kip_inv contents s' ∧ seq_of s' = (seq_of s + 1)%Z ∧
  keymap_eq (view contents s') (map_put (view contents s) key None).
Proof.
  intros Hk Hkey Hseq He.
  destruct (append_cmd_data_ok contents s (key, None) Hk Hkey Hseq) as (s1 & He' & Hk' & Hsq & _ & Hv).
  rewrite He in He'. by simplify_eq.
Qed.

Lemma timely_view contents (s : KipStorage T) key r :
  kip_inv contents s → event_timely (s, LErase key r) → ∃ value, view contents s key = Some value.
Proof.
  intros Hk [value Hg]. destruct (storage_get_ok contents s key Hk) as (s1 & E & _). cbn [fst] in Hg. rewrite E in Hg.
  injection Hg as ->. eauto.
Qed.

(** The invariant is kept by every step whose task is safe, and the map is followed by
    every step that is timely as well. *)
Lemma kip_step_ok contents (s : KipStorage T) l s' :
  kip_inv contents s → kip_step s l s' → event_safe (s, l) → (seq_of s < SEQ_MAX)%Z →
  ∃ contents', kip_inv contents' s' ∧ (seq_of s' ≤ seq_of s + 1)%Z ∧
               (event_timely (s, l) → map_step (view contents s) l (view contents' s')).
Proof.
  intros Hk Hstep Hsafe Hseq.
  assert (∀ task s'', send_task task s = Some (Ok s'') → ∃ contents', kip_inv contents' s'' ∧
    (seq_of s'' ≤ seq_of s + 1)%Z ∧ (True → map_step (view contents s) LSilent (view contents' s''))) as Hsend.
  { intros task s'' Hs. destruct (send_task_ok _ _ _ _ Hk Hs) as [Hk' Hin]. exists contents.
    rewrite Hin. split_and!; [done|lia|]. intros _ k. unfold view. by rewrite Hin. }
  destruct Hstep as [s cmd r s' Hkey He|key value s s' Hkey Hg|key r s s' Hkey He|s s' Hs|s s' Hs
    |min max level s s' Hm|task rest s s' Hq Hb].
  - destruct (storage_exec_ok contents s cmd Hk Hkey Hseq) as (s1 & He' & Hk' & Hsq & Hv).
    rewrite He in He'. simplify_eq. exists contents. split_and!; [done|lia|done..].
  - destruct (storage_get_ok contents s key Hk) as (s1 & Hg' & Hk' & Hsq & _ & Hv).
    rewrite Hg in Hg'. injection Hg' as Hval ->. exists contents. split_and!; [done|lia|].
    intros _. split; [by exists value|done].
  - destruct (erase_ok contents s key r s' Hk Hkey Hseq He) as (-> & Hk' & Hsq & Hv).
    exists contents. split_and!; [done|lia|]. intros Ht. cbn [map_step map_exec].
    destruct (timely_view contents s key _ Hk Ht) as [value ->]. done.
  - by eapply Hsend.
  - by eapply Hsend.
  - destruct (manual_compaction_ok _ _ _ _ _ _ Hk Hm) as (Hk' & Hsq & Hv).
    exists contents. split_and!; [done|lia|done].
  - destruct (background_step_ok contents s task rest Hk Hq) as (contents' & s1 & Hb' & Hk' & Hsq & Hv).
    { split; [by eapply background_ready|exact Hsafe]. }
    rewrite Hb in Hb'. simplify_eq. exists contents'. split_and!; [done|lia|done].
Qed.

(** C5: any interleaving of client commands with keys that are not empty, removals in two
    halves, flush and compaction requests and background tasks, in which every task that is
    run is safe and no removal comes too late, answers every command as a map does; no task
    changes the map, and the state reached satisfies the invariant again and represents the
    map reached.  The code does not test that a task is safe: [level_0_stale_read] and
    [unsorted_level_lost_key] are tasks that are not. *)
Theorem storage_refines_map contents (s : KipStorage T) tr s' :
  kip_inv contents s → kip_run s tr s' → Forall event_safe tr → Forall event_timely tr →
  (seq_of s + Z.of_nat (length tr) ≤ SEQ_MAX)%Z →
  ∃ contents', kip_inv contents' s' ∧ map_run (view contents s) tr.*2 (view contents' s').
Proof.
  intros Hk Hrun. revert contents Hk. induction Hrun as [s|s1 l s2 tr s3 Hstep _ IH];
    intros contents Hk Hsafe Htime Hseq; [by exists contents|].
  cbn [length] in Hseq. apply Forall_cons in Hsafe as [Hs Hsafe]. apply Forall_cons in Htime as [Ht Htime].
  destruct (kip_step_ok contents s1 l s2 Hk Hstep Hs ltac:(lia)) as (contents2 & Hk2 & Hsq & Hm).
  destruct (IH contents2 Hk2 Hsafe Htime ltac:(lia)) as (contents3 & Hk3 & Hms). exists contents3. split; [done|].
  cbn. eauto.
Qed.

(** C10: nothing gets stuck: from a state that satisfies the invariant every command with a
    key is answered, with a value or with [KeyNotFound], never with another error or a
    panic; and a waiting task that is ready (no transaction alive if it is a flush, a level
    there is if it is a compaction) and safe is taken off the channel and finished. *)
Theorem storage_live contents (s : KipStorage T) :
  kip_inv contents s → (seq_of s < SEQ_MAX)%Z →
  (∀ cmd, get_key cmd ≠ [] → ∃ r s', kip_step s (LCmd cmd r) s' ∧ ((∃ v, r = Ok v) ∨ r = Err KeyNotFound)) ∧
  (∀ task rest, task_queue (ks_compactor_tx s) = task :: rest →
    task_ready (ks_inner s) task → task_safe (ks_config s) (ks_inner s) task →
    ∃ s', kip_step s (LTask task) s' ∧ task_queue (ks_compactor_tx s') = rest).
Proof.
  intros Hk Hseq. split.
  - intros cmd Hkey. destruct (storage_exec_ok contents s cmd Hk Hkey Hseq) as (s' & He & _).
    eexists _, s'. split; [by constructor|]. destruct cmd as [k v|k|k]; cbn [map_exec fst]; eauto.
    destruct (view contents s k); cbn; eauto.
  - intros task rest Hq Hready Hsafe.
    destruct (background_step_ok contents s task rest Hk Hq (conj Hready Hsafe)) as (contents' & s' & Hb & _).
    exists s'. split; [by eapply step_task|]. unfold background_step in Hb. rewrite Hq in Hb.
    destruct (run_task _ _ _) as [[st| |]|]; by simplify_eq/=.
Qed.

(** Two removals of a key that both find it before either writes are both answered with
    success, in any order of the writes; a map would refuse the second. *)
Theorem racing_removals_both_succeed contents (s : KipStorage T) key value :
  kip_inv contents s → key ≠ [] → (seq_of s + 1 < SEQ_MAX)%Z → view contents s key = Some value →
  ∃ s1 s2 s3 s4,
    kip_step s (LFound key) s1 ∧ kip_step s1 (LFound key) s2 ∧
    kip_step s2 (LErase key (Ok None)) s3 ∧ kip_step s3 (LErase key (Ok None)) s4 ∧
    (storage_exec (CmdRemove key) s3).1 = Err KeyNotFound.
Proof.
  intros Hk Hkey Hseq Hval.
  destruct (storage_get_ok contents s key Hk) as (s1 & E1 & Hk1 & Hsq1 & _ & Hv1).
  destruct (storage_get_ok contents s1 key Hk1) as (s2 & E2 & Hk2 & Hsq2 & _ & Hv2).
  destruct (append_cmd_data_ok contents s2 (key, None) Hk2 Hkey ltac:(lia)) as (s3 & E3 & Hk3 & Hsq3 & _ & Hv3).
  destruct (append_cmd_data_ok contents s3 (key, None) Hk3 Hkey ltac:(lia)) as (s4 & E4 & _).
  rewrite Hval in E1. rewrite Hv1, Hval in E2.
  exists s1, s2, s3, s4. split_and!; [by econstructor..|by apply (step_erase key (Ok ()))|by apply (step_erase key (Ok ()))|].
  destruct (storage_exec_ok contents s3 (CmdRemove key) Hk3 Hkey ltac:(lia)) as (s5 & -> & _).
  cbn [fst map_exec]. rewrite Hv3. unfold map_put. by rewrite decide_True.
Qed.

(** ** Opening *)

Lemma level_slice_new_elem l : l ∈ level_slice_new → l = [].
Proof. intros Hin. unfold level_slice_new in Hin. by apply elem_of_replicate in Hin as [-> _]. Qed.

(** A storage opened on empty directories, once the lock file is locked, satisfies the
    invariant and represents the empty map. *)
Theorem open_empty_correct config now try_lock tables c :
  lock_or_time_out try_lock = Ok () → (0 ≤ seq_count c ≤ SEQ_MAX)%Z →
  (0 < cfg_sst_file_size config)%N → length (cfg_level_table_type config) = MAX_LEVEL →
  ∃ s : KipStorage T, open_with_config config now try_lock ∅ ∅ tables c = Some (Ok s) ∧
    kip_inv (λ _, []) s ∧ seq_of s = seq_count c ∧ ks_locked s = true ∧
    keymap_eq (view (λ _, []) s) (λ _, None).
Proof.
  intros Hlock Hseq Hsize Htypes. unfold open_with_config, store_inner_new. rewrite Hlock.
  destruct (mem_table_new_empty config (gen_init now c) Hseq)
    as (t & c1 & -> & Hwf & _ & Hc1 & Himm & Hmem & _ & _ & Hgen & Hgb).
  destruct (load_empty c1) as (vs & g & c2 & -> & _ & _ & Hw & Hlev & Hmeta & Hch & Hsq & Hgb2 & _).
  cbn [res_bind]. eexists. split; [done|].
  assert (∀ l, l ∈ level_slice (vs_version vs) → l = []) as Hnil
    by (intros l; rewrite Hlev; apply level_slice_new_elem).
  assert (∀ l, level_slice (vs_version vs) !! 0 = Some l → l = []) as H0
    by (intros l Hl; by eapply Hnil, list_elem_of_lookup_2).
  assert (version_gens (vs_version vs) = []) as Hgens by (unfold version_gens; by rewrite Hlev).
  assert (∀ g, ¬ g ∈ version_gens (vs_version vs)) as Hno by (intros ?; rewrite Hgens; apply not_elem_of_nil).
  split_and!.
  - split; cbn [ks_inner ks_config ks_compactor_tx task_open]; try done.
    + split; cbn [so_status so_seeks so_counters]; try (intros; exfalso; by eapply Hno).
      * split; cbn [so_status so_seeks].
        -- by rewrite Hlev.
        -- intros l s ->%Hnil []%not_elem_of_nil.
        -- intros l s ->%Hnil []%not_elem_of_nil.
        -- intros l Hl. assert (l = []) as ->; [|repeat constructor].
           apply Hnil. rewrite <- (take_drop 1 (level_slice _)). set_solver.
      * constructor.
      * rewrite Hgens. constructor.
      * intros l ->%H0. constructor.
      * rewrite Hlev, Hmeta. reflexivity.
      * rewrite Hw. apply log_writer_new_ok.
      * done.
    + destruct Hwf as [Hw1 Hw2 Hw3 Hw4]. split; cbn [so_mem_table so_status so_counters].
      * split; rewrite ?Hsq; done.
      * intros k s v. rewrite Hmem. by intros ?%not_elem_of_nil.
      * intros m k v. by rewrite Himm.
      * split; cbn [so_status so_counters]; [apply Hno| |].
        -- intros l s ->%H0 []%not_elem_of_nil.
        -- rewrite Hgen, Hgb in *. cbn [gen_init gen_buf] in *. lia.
  - cbn. by rewrite Hsq, Hc1.
  - done.
  - intros k. unfold view, store_view. cbn [ks_inner so_mem_table so_status]. unfold table_view.
    rewrite Hmem, Himm. cbn. unfold version_find, version_tables. by rewrite Hlev.
Qed.
(** ** The types of the state *)

(** A task that is sent keeps the channel within its capacity. *)
Definition queue_fits (s : KipStorage T) : Prop := length (task_queue (ks_compactor_tx s)) ≤ TASK_CAPACITY.

Lemma try_send_fits ch task ch' :
  length (task_queue ch) ≤ TASK_CAPACITY → try_send ch task = Ok ch' → length (task_queue ch') ≤ TASK_CAPACITY.
Proof.
  unfold try_send. destruct (task_open ch); [|done]. case_decide; intros ? [= <-]; [|done].
  cbn [task_queue]. rewrite length_app. cbn. lia.
Qed.

Lemma send_task_fits task (s s' : KipStorage T) :
  queue_fits s → send_task task s = Some (Ok s') → queue_fits s'.
Proof.
  unfold queue_fits, send_task, send. destruct (task_open _); [|done]. case_decide; [|done]. intros _ [= <-].
  cbn [set_tx ks_compactor_tx task_queue]. rewrite length_app. cbn. lia.
Qed.

Lemma storage_get_fits key (s : KipStorage T) r s' :
  queue_fits s → storage_get key s = (r, s') → queue_fits s'.
Proof.
  intros Hq. unfold storage_get. destruct (mem_find _ _) as [[k v]|]; [by intros [= _ <-]|].
  unfold query_and_compaction. destruct (query _ _ _ _) as [[[v miss]| |] h]; [|by intros [= _ <-]..].
  destruct miss as [[scope level]|]; [|by intros [= _ <-]].
  destruct (try_send _ _) as [tx| |] eqn:E; intros [= _ <-]; [|done..]. by eapply try_send_fits.
Qed.

Lemma append_cmd_data_fits data (s : KipStorage T) r s' :
  queue_fits s → append_cmd_data data s = (r, s') → queue_fits s'.
Proof.
  intros Hq. unfold append_cmd_data. destruct (insert_data _ _ _) as [[[ex m] c]| |]; [|by intros [= _ <-]..].
  destruct ex; [|by intros [= _ <-]]. destruct (try_send _ _) as [tx| |] eqn:E; intros [= _ <-]; [|done..].
  by eapply try_send_fits.
Qed.

Lemma storage_exec_fits cmd (s : KipStorage T) r s' :
  queue_fits s → storage_exec cmd s = (r, s') → queue_fits s'.
Proof.
  intros Hq. destruct cmd as [key value|key|key]; cbn [storage_exec].
  - unfold storage_set. destruct (append_cmd_data _ _) as [r1 s1] eqn:E. intros [= _ <-].
    by eapply append_cmd_data_fits.
  - unfold storage_remove. destruct (storage_get key s) as [r1 s1] eqn:Eg. apply storage_get_fits in Eg; [|done].
    destruct r1 as [[v|]| |]; [|by intros [= _ <-]..].
    destruct (append_cmd_data _ s1) as [r2 s2] eqn:E. intros [= _ <-]. by eapply append_cmd_data_fits.
  - by eapply storage_get_fits.
Qed.

Lemma kip_step_fits (s : KipStorage T) l s' : kip_step s l s' → queue_fits s → queue_fits s'.
Proof.
  intros [s1 cmd r s2 Hkey He|key value s1 s2 Hkey Hg|key r s1 s2 Hkey He|s1 s2 Hs|s1 s2 Hs
    |min max level s1 s2 Hm|task rest s1 s2 Hq Hb] Hf.
  - by eapply storage_exec_fits.
  - by eapply storage_get_fits.
  - by eapply append_cmd_data_fits.
  - by eapply send_task_fits.
  - by eapply send_task_fits.
  - unfold manual_compaction in Hm. destruct (le_b min max); [|by injection Hm as <-].
    cbn [from_range] in Hm. by eapply send_task_fits in Hm.
  - unfold background_step in Hb. rewrite Hq in Hb.
    destruct (run_task _ _ _) as [[st| |]|]; cbn [res_bind] in Hb; [|done..]. injection Hb as <-.
    unfold queue_fits in *. rewrite Hq in Hf. cbn in *. lia.
Qed.

(** What the types and the unchecked uses of the fields rely on: [AtomicI64] sequence
    numbers, [AtomicU32] counters of seeks that every table of the version has, a bounded
    channel, [MAX_LEVEL] levels of tables the loader knows, with unique generations the
    counter has handed out, and log writers within a block. *)
Record storage_typed (s : KipStorage T) : Prop := {
  ty_queue : queue_fits s;
  ty_levels : length (level_slice (current_version s)) = MAX_LEVEL;
  ty_seq : (0 ≤ seq_of s < 2 ^ 63)%Z;
  ty_versions k n v : (new_with_seq k n, v) ∈ sm_iter (ti_mem (mt_inner (mem_table s))) →
                      k ≠ [] ∧ (0 ≤ n < seq_of s)%Z;
  ty_seeks : Forall (λ x, 0 ≤ x < 2 ^ 32)%Z (so_seeks (ks_inner s));
  ty_scopes l sc : l ∈ level_slice (current_version s) → sc ∈ l →
    (∃ t, store_get (ks_inner s) (sc_gen sc) = Some t ∧ table_gen t = sc_gen sc) ∧
    (∀ cell, sc_allowed_seeks sc = Some cell → cell < length (so_seeks (ks_inner s))) ∧
    le_b (sc_start sc) (sc_end sc) = true;
  ty_gens : NoDup (version_gens (current_version s));
  ty_fresh g : g ∈ version_gens (current_version s) → (g < gen_buf (so_counters (ks_inner s)))%Z;
  ty_wal : lw_offset (ti_log_writer (mt_inner (mem_table s))).1 ≤ BLOCK_SIZE;
  ty_ver : lw_offset (vs_ver_log_writer (so_status (ks_inner s))).1 ≤ BLOCK_SIZE;
}.

Lemma kip_inv_typed contents (s : KipStorage T) : kip_inv contents s → queue_fits s → storage_typed s.
Proof.
  intros [[Hwf Hse Hg Hf _ _ Hlog _ _ _] [Hm Hkeys _ _] _ _ _] Hq. split; try done.
  - apply Hwf.
  - pose proof (wf_seq _ _ Hm). unfold SEQ_MAX in *. lia.
  - intros k n v Hin. split; [by eapply Hkeys|by eapply (wf_mem _ _ Hm)].
  - eapply Forall_impl; [exact Hse|]. cbn. lia.
  - intros l sc Hl Hsc. destruct (wf_loaded _ _ _ _ Hwf l sc Hl Hsc) as [(t & Ht & _ & Htg) _ Hscw].
    split_and!; [by exists t|by eapply (wf_cells _ _ _ _ Hwf)|done].
  - apply (wf_log _ _ Hm).
  - apply Hlog.
Qed.

(** C8: along any run of a storage opened on empty directories, commands, removals in two
    halves, flushes and compactions interleaved in any order, in which every task that is
    run is safe and whose steps fit into the sequence numbers that are left, the state stays
    within its types: counters of seeks stay within [u32], the channel within its capacity,
    the writers of the logs within a block, every version in memory has a key and a number
    that was handed out, and every scope of the version names a table the loader has, by a
    unique generation the counter has handed out. *)
Theorem storage_stays_typed config now try_lock tables c (s : KipStorage T) tr s' :
  lock_or_time_out try_lock = Ok () → (0 ≤ seq_count c)%Z →
  (0 < cfg_sst_file_size config)%N → length (cfg_level_table_type config) = MAX_LEVEL →
  open_with_config config now try_lock ∅ ∅ tables c = Some (Ok s) →
  kip_run s tr s' → Forall event_safe tr →
  (seq_count c + Z.of_nat (length tr) ≤ SEQ_MAX)%Z → storage_typed s'.
Proof.
  intros Hlock Hseq Hsize Htypes Hopen Hrun Hsafe Hmax.
  destruct (open_empty_correct config now try_lock tables c Hlock ltac:(lia) Hsize Htypes)
    as (s0 & Hs0 & Hk & Hsq & _). rewrite Hopen in Hs0. injection Hs0 as <-.
  assert (queue_fits s) as Hq.
  { unfold open_with_config in Hopen. rewrite Hlock in Hopen.
    destruct (store_inner_new _ _ _ _ _) as [[st| |]|]; cbn [res_bind] in Hopen; [|done..].
    injection Hopen as <-. cbn. unfold queue_fits, TASK_CAPACITY. cbn. lia. }
  rewrite <- Hsq in Hmax. clear Hopen Hsq. revert Hsafe Hk Hq Hmax. generalize (λ _ : Z, [] : list KeyValue) as contents.
  induction Hrun as [s|s1 l s2 tr s3 Hstep _ IH]; intros contents Hsafe Hk Hq Hmax; [by eapply kip_inv_typed|].
  cbn [length] in Hmax. apply Forall_cons in Hsafe as [Hs Hsafe].
  destruct (kip_step_ok contents s1 l s2 Hk Hstep Hs ltac:(lia)) as (contents2 & Hk2 & Hsq & _).
  apply (IH contents2); [done|done|by eapply kip_step_fits|lia].
Qed.
End refine.

(** ** Witnesses *)

Module StorageSample.
Import Reference CompactorSample.

(** Two tables at level 1 and an empty level 0. *)
Definition data2 : gmap Z (list KeyValue) :=
  {[ 1%Z := [([x01], Some [x11]); ([x03], Some [x31])]; 2%Z := [([x06], Some [x62])] ]}.

Definition levels2 : LevelSlice := [[]; [scope_at 1 x01 x03 0; scope_at 2 x06 x06 1]; []; []].

Definition start : KipStorage BTreeTable :=
  {| ks_inner := store data2 levels2 [0; 0]%Z; ks_config := config; ks_locked := true;
     ks_compactor_tx := {| task_open := true; task_queue := [] |} |}.

Lemma start_inv : kip_inv (demo_contents data2) start.
Proof.
  split; try done.
  - apply store_check_inv, (bool_decide_unpack _). vm_compute. exact I.
  - split; cbn [start ks_inner store so_mem_table mem mt_inner ti_mem ti_immut ti_log_writer]; [| |done|].
    + split; cbn; try done; try lia; [by intros ? ? ? ?%not_elem_of_nil|apply log_writer_new_ok].
    + by intros ? ? ? ?%not_elem_of_nil.
    + split; [..|done].
      * apply (bool_decide_unpack _). vm_compute. exact I.
      * by intros l s [= <-] ?%not_elem_of_nil.
Qed.

Definition settle {T} (r : option (KernelResult (KipStorage T))) (s : KipStorage T) : KipStorage T :=
  match r with Some (Ok s') => s' | _ => s end.

Definition settled {T} (r : option (KernelResult (KipStorage T))) : bool :=
  match r with Some (Ok _) => true | _ => false end.

Lemma settle_Ok {T} (r : option (KernelResult (KipStorage T))) s : settled r = true → r = Some (Ok (settle r s)).
Proof. by destruct r as [[]|]. Qed.

Lemma exec_step cmd (s : KipStorage BTreeTable) :
  get_key cmd ≠ [] → kip_step s (LCmd cmd (storage_exec cmd s).1) (storage_exec cmd s).2.
Proof. intros Hk. constructor; [done|]. by destruct (storage_exec cmd s). Qed.

Lemma found_step key value (s : KipStorage BTreeTable) :
  key ≠ [] → (storage_get key s).1 = Ok (Some value) → kip_step s (LFound key) (storage_get key s).2.
Proof. intros Hk Hg. apply (step_found key value); [done|]. destruct (storage_get key s). by cbn in *; subst. Qed.

Lemma erase_step key (s : KipStorage BTreeTable) :
  key ≠ [] → (append_cmd_data (key, None) s).1 = Ok () →
  kip_step s (LErase key (Ok None)) (append_cmd_data (key, None) s).2.
Proof. intros Hk Hg. apply (step_erase key (Ok ())); [done|]. destruct (append_cmd_data _ s). by cbn in *; subst. Qed.

(** A value overwritten, a key removed in two halves, a flush and its task, a compaction of level 1 and
    its task, a read. *)
Definition st1 := (storage_exec (CmdSet [x03] [xaa]) start).2.
Definition st1' := (storage_get [x06] st1).2.
Definition st2 := (append_cmd_data ([x06], None) st1').2.
Definition st3 := settle (flush_background st2) st2.
Definition st4 := settle (background_step st3) st3.
Definition st5 := settle (manual_compaction [x01] [x05] 1 st4) st4.
Definition st6 := settle (background_step st5) st5.
Definition st7 := (storage_exec (CmdGet [x06]) st6).2.
Definition st8 := (storage_exec (CmdGet [x03]) st7).2.

Definition trace : list (KipStorage BTreeTable * KLabel) :=
  [(start, LCmd (CmdSet [x03] [xaa]) (Ok None)); (st1, LFound [x06]); (st1', LErase [x06] (Ok None));
   (st2, LSilent); (st3, LTask (TaskFlush None)); (st4, LSilent);
   (st5, LTask (TaskSeek (scope_at 0 x01 x05 3) 1));
   (st6, LCmd (CmdGet [x06]) (Ok None)); (st7, LCmd (CmdGet [x03]) (Ok (Some [xaa])))].

Lemma st5_task_safe : task_safe (ks_config st5) (ks_inner st5) (TaskSeek (scope_at 0 x01 x05 3) 1).
Proof.
  cbn [task_safe rounds_ok]. intros _. split.
  - intros contents _. right. split; [|apply btree_shards_buildable]. intros A B HA HB. vm_compute in HA, HB. injection HA as <-.
    injection HB as <-. split; [done|]. intros f _. right. set_solver.
  - intros st Hr _. split.
    + intros contents _. left. unfold data_loading_with_level.
      assert (is_threshold_exceeded_major (vs_version (so_status st)) (ks_config st5) (1 + 1) = Ok false) as ->
        by (rewrite (ok_after _ (ks_inner st5) _ _ Hr); vm_compute; reflexivity).
      by case_decide.
    + intros st' Hr'. rewrite (ok_after _ (ks_inner st5) _ _ Hr) in Hr'.
      apply (f_equal outcome) in Hr'. vm_compute in Hr'. discriminate.
Qed.

Lemma trace_run : kip_run start trace st8.
Proof.
  apply (run_cons _ _ st1); [by apply exec_step|].
  apply (run_cons _ _ st1'); [apply (found_step [x06] [x62]); [done|vm_compute; reflexivity]|].
  apply (run_cons _ _ st2); [apply erase_step; [done|vm_compute; reflexivity]|].
  apply (run_cons _ _ st3); [apply step_flush_background, settle_Ok; vm_compute; reflexivity|].
  apply (run_cons _ _ st4); [apply (step_task (TaskFlush None) []); [|apply settle_Ok]; vm_compute; reflexivity|].
  apply (run_cons _ _ st5); [apply (step_manual [x01] [x05] 1), settle_Ok; vm_compute; reflexivity|].
  apply (run_cons _ _ st6); [eapply (step_task _ []); [|apply settle_Ok]; vm_compute; reflexivity|].
  apply (run_cons _ _ st7); [by apply exec_step|]. apply (run_cons _ _ st8); [by apply exec_step|].
  constructor.
Qed.

Lemma trace_safe : Forall event_safe trace.
Proof.
  do 4 (apply Forall_cons; split; [exact I|]). apply Forall_cons; split.
  { apply (flush_task_ok (ks_config st3) (ks_inner st3) None); [done|reflexivity|vm_compute; reflexivity|done]. }
  apply Forall_cons; split; [exact I|]. apply Forall_cons; split; [exact st5_task_safe|].
  do 2 (apply Forall_cons; split; [exact I|]). constructor.
Qed.

Lemma trace_timely : Forall event_timely trace.
Proof.
  do 2 (apply Forall_cons; split; [exact I|]). apply Forall_cons; split; [exists [x62]; vm_compute; reflexivity|].
  do 6 (apply Forall_cons; split; [exact I|]). constructor.
Qed.

Lemma storage_refines_map_witness :
  ∃ contents', kip_inv contents' st8 ∧ map_run (view (demo_contents data2) start) trace.*2 (view contents' st8).
Proof.
  apply storage_refines_map; [exact start_inv|exact trace_run|exact trace_safe|exact trace_timely|vm_compute; discriminate].
Defined.

Lemma racing_removals_witness :
  ∃ s1 s2 s3 s4,
    kip_step start (LFound [x03]) s1 ∧ kip_step s1 (LFound [x03]) s2 ∧
    kip_step s2 (LErase [x03] (Ok None)) s3 ∧ kip_step s3 (LErase [x03] (Ok None)) s4 ∧
    (storage_exec (CmdRemove [x03]) s3).1 = Err KeyNotFound.
Proof.
  apply (racing_removals_both_succeed (demo_contents data2) start [x03] [x31]).
  - exact start_inv.
  - discriminate.
  - vm_compute. reflexivity.
  - vm_compute. reflexivity.
Defined.

Lemma storage_live_witness :
  ∃ r s', kip_step start (LCmd (CmdRemove [x05]) r) s' ∧ ((∃ v, r = Ok v) ∨ r = Err KeyNotFound).
Proof.
  apply (storage_live (demo_contents data2) start start_inv); [vm_compute; reflexivity|done].
Defined.

Lemma open_empty_correct_witness :
  ∃ s : KipStorage BTreeTable,
    open_with_config config 1700000000000 (λ attempt, Ok (Nat.eqb attempt 2)) ∅ ∅ ∅ (mkCounters 1 0) = Some (Ok s) ∧
    kip_inv (λ _, []) s.
Proof.
  destruct (open_empty_correct config 1700000000000 (λ attempt, Ok (Nat.eqb attempt 2)) (∅ : gmap Z BTreeTable)
    (mkCounters 1 0)) as (s & Hs & Hk & _).
  - reflexivity.
  - vm_compute. split; discriminate.
  - reflexivity.
  - reflexivity.
  - exists s. split; [exact Hs|exact Hk].
Defined.
End StorageSample.
