(* ===== verification/Mvcc.v ===== *)
(** * Transactions (src/kernel/lsm/mvcc.rs)

    A transaction reads at the sequence number drawn when it began and from the version
    that was current then, keeps its writes to itself, and at the commit inserts them into
    the memory table under one new sequence number, unless a key of its was written
    since the transaction began.  The check, the drawing of the number and the insertion are
    separate steps.  Its iterator merges the write buffer, a scan of the memory table and the
    iterators of the version.

    The storage is shared: every operation takes the current [KipStorage] and returns the
    next.  [tx_count] and the sequence numbers are counters without a bound; the latter
    are kept below [SEQ_MAX] by the theorems. *)

From S2P Require Import Prelude Std Crates Block Iterator Io Log Config MemTable Scope BTreeTable Version VersionIter Status Compactor Storage.
From Stdlib Require Import ZArith Lia Strings.Byte Strings.String.
From stdpp Require Import base list gmap.

Set Default Goal Selector "!".
Open Scope nat_scope.

Inductive CheckType : Type := Optimistic.

Record Transaction := mkTransaction {
  tx_version : Version;
  tx_seq_id : Z;
  tx_check_type : CheckType;
  tx_write_buf : option (list KeyValue);
}.

Definition set_write_buf (tx : Transaction) (buf : option (list KeyValue)) : Transaction :=
  {| tx_version := tx_version tx; tx_seq_id := tx_seq_id tx; tx_check_type := tx_check_type tx;
     tx_write_buf := buf |}.

Definition write_buf_or_init (tx : Transaction) : list KeyValue := default [] (tx_write_buf tx).

Definition transaction_set (key value : bytes) (tx : Transaction) : Transaction :=
  set_write_buf tx (Some (btree_insert key (Some value) (write_buf_or_init tx))).

(** [BTreeMap::range]: panics when the start is after the end, or equal to it with both
    bounds excluded. *)
Definition range_panics (lo hi : Bound bytes) : bool :=
  match lo, hi with
  | Excluded a, Excluded b => le_b b a
  | Included a, Included b | Included a, Excluded b | Excluded a, Included b => lt_b b a
  | _, _ => false
  end.

Definition map_range (lo hi : Bound bytes) (m : list KeyValue) : KernelResult (list KeyValue) :=
  if range_panics lo hi then Panic else Ok (btree_range lo hi m).

(** ** The iterators over the buffers *)

Record BufIter := mkBufIter {
  bf_inner : list KeyValue;
  bf_pos : nat;
}.

Definition buf_iter_valid (it : BufIter) : bool := bool_decide (bf_pos it < length (bf_inner it)).

Definition buf_iter_try_next (it : BufIter) : KernelResult (option KeyValue * BufIter) :=
  if buf_iter_valid it then
    let? item := or_panic (bf_inner it !! bf_pos it) in
    Ok (Some item, {| bf_inner := bf_inner it; bf_pos := bf_pos it + 1 |})
  else Ok (None, it).

#[global] Instance buf_iter : Iter BufIter KeyValue := {
  try_next := buf_iter_try_next;
  is_valid := buf_iter_valid;
}.

(** [InnerIter]: what is left of the range over the write buffer. *)
Record RangeIter := mkRangeIter { rg_iter : list KeyValue }.

#[global] Instance range_iter_iter : Iter RangeIter KeyValue := {
  try_next it := Ok (match rg_iter it with
                     | [] => (None, it)
                     | x :: l => (Some x, {| rg_iter := l |})
                     end);
  is_valid _ := true;
}.

(** ** The iterator of a transaction *)

Section transaction_iter.
Context {T : Type} {TB : Table T}.

Abbreviation DiskIter := (table_iter_state + LevelIter T)%type.
Abbreviation TxIter := (RangeIter + (BufIter + DiskIter))%type.

(** [tri_mem_buf] is the buffer behind [mem_buf_ptr]. *)
Record TransactionIter := mkTransactionIter {
  tri_inner : MergingIter TxIter;
  tri_mem_buf : list KeyValue;
  tri_min : Bound bytes;
  tri_max : Bound bytes;
  tri_is_overed : bool;
  tri_is_inited : bool;
}.

(** Whether the loop over the items below the range ends at [item]. *)
Definition reached_min (min : Bound bytes) (item : option KeyValue) : bool :=
  match min with
  | Included key => negb (from_option (λ data : KeyValue, lt_b data.1 key) false item)
  | Excluded key => negb (from_option (λ data : KeyValue, le_b data.1 key) false item)
  | Unbounded => true
  end.

(** One round per item below the range. *)
Fixpoint skip_loop (fuel : nat) (min : Bound bytes) (item : option KeyValue) (inner : MergingIter TxIter)
    : KernelResult (option KeyValue * MergingIter TxIter) :=
  if reached_min min item then Ok (item, inner)
  else
    match fuel with
    | O => Panic
    | S fuel' => let? (item', inner') := try_next inner in skip_loop fuel' min item' inner'
    end.

Definition within_max (max : Bound bytes) (item : option KeyValue) : option KeyValue :=
  match max with
  | Included key => x ← item; if le_b x.1 key then Some x else None
  | Excluded key => x ← item; if lt_b x.1 key then Some x else None
  | Unbounded => item
  end.

Definition transaction_iter_try_next (fuel : nat) (it : TransactionIter)
    : KernelResult (option KeyValue * TransactionIter) :=
  if tri_is_overed it then Ok (None, it)
  else
    let? (item0, inner0) := try_next (tri_inner it) in
    let? (item, inner) := if tri_is_inited it then Ok (item0, inner0)
                          else skip_loop fuel (tri_min it) item0 inner0 in
    let option := within_max (tri_max it) item in
    Ok (option, {| tri_inner := inner; tri_mem_buf := tri_mem_buf it; tri_min := tri_min it;
                   tri_max := tri_max it;
                   tri_is_overed := match option with None => true | Some _ => false end;
                   tri_is_inited := true |}).

Definition transaction_iter_is_valid (it : TransactionIter) : bool := is_valid (tri_inner it).

Definition transaction_iter_iter (fuel : nat) : Iter TransactionIter KeyValue := {|
  try_next := transaction_iter_try_next fuel;
  is_valid := transaction_iter_is_valid;
|}.
End transaction_iter.
Arguments TransactionIter T {_}.

(** ** The operations *)

Section transaction.
Context {SM : SkipMapOps InternalKey (option bytes)}.
Context `{IE : IntegerEncoding} {CRC : Crc32} {IT : Itertools} {BC : Bincode (list RawEdit)}.
Context {T : Type} {TB : Table T} {BLD : TableBuilder T}.

Definition set_tx_count (m : MemTable) (n : nat) : MemTable := {| mt_inner := mt_inner m; tx_count := n |}.

Definition transaction_new (check_type : CheckType) (s : KipStorage T) : Transaction * KipStorage T :=
  let m := set_tx_count (mem_table s) (tx_count (mem_table s) + 1) in
  let '(seq_id, c) := seq_create (so_counters (ks_inner s)) in
  ({| tx_version := current_version s; tx_seq_id := seq_id; tx_check_type := check_type;
      tx_write_buf := None |},
   set_inner_store s (set_mem_table (ks_inner s) m c)).

Definition transaction_get (key : bytes) (tx : Transaction) (s : KipStorage T)
    : KernelResult (option bytes) * KipStorage T :=
  match (buf ← tx_write_buf tx; btree_get key buf) with
  | Some value => (Ok value, s)
  | None =>
      match find_with_sequence_id (mem_table s) key (tx_seq_id tx) with
      | Some (_, value) => (Ok value, s)
      | None =>
          let '(r, h, ch) :=
            query_and_compaction (store_get (ks_inner s)) key (tx_version tx) (so_seeks (ks_inner s))
              (ks_compactor_tx s) in
          let s' := set_tx (set_inner_store s (set_seeks (ks_inner s) h)) ch in
          (let? o := r in Ok (match o with Some (_, value) => value | None => None end), s')
      end
  end.

Definition transaction_remove (key : bytes) (tx : Transaction) (s : KipStorage T)
    : KernelResult unit * Transaction * KipStorage T :=
  match transaction_get key tx s with
  | (Ok (Some _), s') =>
      (Ok (), set_write_buf tx (Some (btree_insert key None (write_buf_or_init tx))), s')
  | (Ok None, s') => (Err KeyNotFound, tx, s')
  | (Err e, s') => (Err e, tx, s')
  | (Panic, s') => (Panic, tx, s')
  end.

(** [drop] *)
Definition transaction_drop (s : KipStorage T) : KipStorage T :=
  set_inner_store s (set_mem_table (ks_inner s)
    (set_tx_count (mem_table s) (tx_count (mem_table s) - 1)) (so_counters (ks_inner s))).

(** *** Commit

    [commit] checks for conflicts under the lock of the memory table, draws a sequence
    number under no lock, and inserts its batch under the lock again; others may come in
    between. *)

(** The conflict check: the batch to insert, or nothing to do. *)
Definition commit_check (tx : Transaction) (s : KipStorage T) : KernelResult (option (list KeyValue)) :=
  match tx_write_buf tx with
  | None => Ok None
  | Some batch_data =>
      if match tx_check_type tx with
         | Optimistic => check_key_conflict (mem_table s) batch_data (tx_seq_id tx)
         end
      then Err RepeatedWrite
      else Ok (Some batch_data)
  end.

(** The argument [Sequence::create()] of the insertion. *)
Definition commit_draw (s : KipStorage T) : Z * KipStorage T :=
  let '(seq_id, c) := seq_create (so_counters (ks_inner s)) in
  (seq_id, set_inner_store s (set_mem_table (ks_inner s) (mem_table s) c)).

(** The insertion, and the flush it may ask for. *)
Definition commit_insert (batch_data : list KeyValue) (seq_id : Z) (s : KipStorage T)
    : KernelResult unit * KipStorage T :=
  match insert_batch_data (mem_table s) batch_data seq_id with
  | Ok (is_exceeds, m) =>
      let s1 := set_inner_store s (set_mem_table (ks_inner s) m (so_counters (ks_inner s))) in
      if (is_exceeds : bool) then
        match try_send (ks_compactor_tx s) (TaskFlush None) with
        | Ok ch => (Ok (), set_tx s1 ch)
        | Err e => (Err e, s1)
        | Panic => (Panic, s1)
        end
      else (Ok (), s1)
  | Err e => (Err e, s)
  | Panic => (Panic, s)
  end.

(** The body of [commit] when nothing comes in between. *)
Definition commit_body (tx : Transaction) (s : KipStorage T) : KernelResult unit * KipStorage T :=
  match commit_check tx s with
  | Ok None => (Ok (), s)
  | Ok (Some batch_data) => let '(seq_id, s1) := commit_draw s in commit_insert batch_data seq_id s1
  | Err e => (Err e, s)
  | Panic => (Panic, s)
  end.

(** [commit] takes the transaction, which is dropped at its end. *)
Definition transaction_commit (tx : Transaction) (s : KipStorage T) : KernelResult unit * KipStorage T :=
  let '(r, s') := commit_body tx s in (r, transaction_drop s').

Definition disk_iter (tx : Transaction) (s : KipStorage T) : KernelResult (VersionIter T) :=
  version_iter_new (store_get (ks_inner s)) (tx_version tx).

Definition seek_disk (key : bytes) (it : table_iter_state + LevelIter T)
    : KernelResult (RangeIter + (BufIter + (table_iter_state + LevelIter T))) :=
  let? it' := seek (SeekBackward key) it in Ok (inr (inr it')).

Definition transaction_iter (min max : Bound bytes) (tx : Transaction) (s : KipStorage T)
    : KernelResult (TransactionIter T) :=
  let? write_iter :=
    match tx_write_buf tx with
    | Some write_buf => let? range := map_range min max write_buf in Ok [inl {| rg_iter := range |}]
    | None => Ok []
    end in
  let? mem_buf := range_scan (mem_table s) min max (Some (tx_seq_id tx)) in
  let mem_iter := [inr (inl {| bf_inner := mem_buf; bf_pos := 0 |})] in
  let? vec_seek_iter := merging_with_version (store_get (ks_inner s)) (tx_version tx) in
  let? seek_iter :=
    match min with
    | Included key | Excluded key => res_mapM (seek_disk key) vec_seek_iter
    | Unbounded => Ok []
    end in
  let? inner := merging_new (write_iter ++ mem_iter ++ seek_iter) in
  Ok {| tri_inner := inner; tri_mem_buf := mem_buf; tri_min := min; tri_max := max;
        tri_is_overed := false; tri_is_inited := false |}.
End transaction.
