(* ===== verification/MvccCorrect.v ===== *)
(** * Transactions are isolated

    What a transaction reads is the map of the storage at its beginning under its own
    writes, whatever the other clients, the other transactions and the compactor do
    meanwhile, as long as no commit was between drawing its number and inserting when the
    transaction began.  The check of a commit fails when one of its keys was written since
    the transaction began; the insertion puts all its writes on the map at once.  What is
    written between the check and the insertion goes unnoticed: two commits of a key can
    both succeed, and a snapshot can change. *)

From S2P Require Import Prelude Std Crates Block Iterator Io Log Config MemTable Scope BTreeTable Version VersionIter Status Compactor.
From S2P Require Import CompactorCorrect Storage StorageCorrect StorageRefine Mvcc.
From Stdlib Require Import ZArith Lia Strings.Byte Strings.String.
From stdpp Require Import base list gmap sorting relations.

Set Default Goal Selector "!".
Open Scope nat_scope.

Section tx_laws.
Context {SM : SkipMapOps InternalKey (option bytes)} {SML : SkipMapLaws InternalKey (option bytes)}.
Context `{IE : IntegerEncoding} {IEL : IntegerEncodingLaws} {CRC : Crc32} {CRCL : Crc32Laws}.
Context {IT : Itertools} {ITL : ItertoolsLaws} {BC : Bincode (list RawEdit)}.
Context {T : Type} {TB : Table T} {BLD : TableBuilder T} {BLDL : TableBuilderLaws T}.

Abbreviation seq_of s := (seq_count (so_counters (ks_inner s))).
Abbreviation gen_of s := (gen_buf (so_counters (ks_inner s))).
Abbreviation mem_of s := (so_mem_table (ks_inner s)).
Abbreviation mem_versions t := (sm_iter (ti_mem (mt_inner t))).

(** ** A transaction that is alive *)

(** [contents] is what the tables held when the transaction began. *)
Record tx_ok (contents : Z → list KeyValue) (tx : Transaction) (s : KipStorage T) : Prop := {
  to_wf : version_wf (store_get (ks_inner s)) contents (so_seeks (ks_inner s)) (tx_version tx);
  to_gens g : g ∈ version_gens (tx_version tx) → (g < gen_of s)%Z;
  to_seq : (tx_seq_id tx < seq_of s)%Z;
  to_live : 0 < tx_count (mem_of s);
}.

(** What the transaction sees of a key: its own write, else the newest version up to its
    sequence number, else the value in its version. *)
Definition snapshot (contents : Z → list KeyValue) (tx : Transaction) (s : KipStorage T) (k : bytes)
    : option (option bytes) :=
  match table_view (mem_of s) k (up_to (tx_seq_id tx)) with
  | Some v => Some v
  | None => version_find contents (tx_version tx) k
  end.

Definition tx_find (contents : Z → list KeyValue) (tx : Transaction) (s : KipStorage T) (k : bytes)
    : option (option bytes) :=
  match btree_get k (write_buf_or_init tx) with Some v => Some v | None => snapshot contents tx s k end.

Definition tx_view contents tx s : KeyMap := λ k, default None (tx_find contents tx s k).

Lemma set_tx_count_inv contents (s : KipStorage T) n c :
  kip_inv contents s → (seq_of s ≤ seq_count c ≤ SEQ_MAX)%Z → gen_buf c = gen_of s →
  kip_inv contents (set_inner_store s (set_mem_table (ks_inner s) (set_tx_count (mem_of s) n) c)).
Proof.
  intros [Hst Hmem Ho ? ?] Hsq Hgb. split; try done; cbn.
  - apply set_mem_table_inv; [done|]. lia.
  - destruct Hmem as [[Hw1 Hw2 Hw3 Hw4] Hkeys Hi [Hg1 Hg2 Hg3]]. split; try done; cbn.
    + split; try done; cbn; [intros k s' v Hin; apply Hw1 in Hin; lia| |lia].
      intros m k s' v Hm Hin. specialize (Hw2 m k s' v Hm Hin). lia.
    + split; try done. cbn. lia.
Qed.

(** A transaction on the current version with the newest number reads the map. *)
Lemma tx_view_newest contents tx (s : KipStorage T) :
  kip_inv contents s → tx_version tx = current_version s → tx_write_buf tx = None →
  (seq_of s ≤ tx_seq_id tx + 1)%Z → keymap_eq (tx_view contents tx s) (view contents s).
Proof.
  intros Hk Hver Hbuf Hsq k. unfold tx_view, tx_find, snapshot, view, store_view, write_buf_or_init.
  rewrite Hver, Hbuf. unfold current_version. cbn [default btree_get].
  assert (mem_wf (mem_of s) (so_counters (ks_inner s))) as Hwf by apply Hk. pose proof (wf_seq _ _ Hwf).
  rewrite (table_view_bound (mem_of s) _ k SEQ_MAX Hwf) by lia.
  rewrite (table_view_bound (mem_of s) _ k (tx_seq_id tx) Hwf) by lia. by destruct (table_view _ k _).
Qed.

(** The beginning of a transaction. *)
Lemma transaction_new_ok contents (s : KipStorage T) ct tx s' :
  kip_inv contents s → (seq_of s < SEQ_MAX)%Z → transaction_new ct s = (tx, s') →
  kip_inv contents s' ∧ tx_ok contents tx s' ∧ tx_write_buf tx = None ∧
  seq_of s' = (seq_of s + 1)%Z ∧ tx_count (mem_of s') = tx_count (mem_of s) + 1 ∧
  mt_inner (mem_of s') = mt_inner (mem_of s) ∧
  keymap_eq (view contents s') (view contents s) ∧ keymap_eq (tx_view contents tx s') (view contents s).
Proof.
  intros Hk Hseq. unfold transaction_new. cbn [seq_create]. intros [= <- <-]. set (s' := set_inner_store s _).
  assert (kip_inv contents s') as Hk' by (apply set_tx_count_inv; [done|cbn; lia|done]).
  pose proof Hk as [Hst Hmem _ _ _]. split_and!; try done.
  - split; cbn; [apply Hst|apply (si_fresh _ _ Hst)|lia|lia].
  - apply (tx_view_newest contents _ s'); try done.
Qed.

(** ** Reads *)

(** A read answers from the snapshot. *)
Lemma transaction_get_ok contents contents0 tx (s : KipStorage T) key :
  kip_inv contents s → tx_ok contents0 tx s →
  ∃ s', transaction_get key tx s = (Ok (tx_view contents0 tx s key), s') ∧ kip_inv contents s' ∧
        so_mem_table (ks_inner s') = mem_of s ∧ so_tables (ks_inner s') = so_tables (ks_inner s) ∧
        so_counters (ks_inner s') = so_counters (ks_inner s) ∧
        length (so_seeks (ks_inner s')) = length (so_seeks (ks_inner s)) ∧
        keymap_eq (view contents s') (view contents s).
Proof.
  intros Hk Htx. pose proof Hk as [Hst _ Ho _ _].
  unfold transaction_get, tx_view, tx_find, snapshot, write_buf_or_init.
  replace (tx_write_buf tx ≫= btree_get key) with (btree_get key (default [] (tx_write_buf tx)))
    by (by destruct (tx_write_buf tx)).
  destruct (btree_get key (default [] (tx_write_buf tx))) as [v|]; [by exists s|].
  rewrite find_with_sequence_id_view. unfold mem_table.
  destruct (table_view (mem_of s) key (up_to (tx_seq_id tx))) as [v|]; [by exists s|].
  cbn [fmap option_fmap option_map].
  destruct (query_and_compaction_ok contents0 (store_get (ks_inner s)) (so_seeks (ks_inner s))
    (tx_version tx) key (ks_compactor_tx s) (to_wf _ _ _ Htx) (si_seeks _ _ Hst) Ho)
    as (h & ch & -> & Hh & Hlen & Hch).
  eexists. cbn [res_bind]. split; [by destruct (version_find _ _ key)|].
  split_and!; try done. apply set_seeks_kip; [done..|lia|done].
Qed.

(** ** What the others may do *)

(** What is kept for a transaction that is alive: the old tables and their seek counters,
    what is read of the memory table below the number [b], and every version in the mutable
    map. *)
Record evolves (b : Z) (s s' : KipStorage T) : Prop := {
  ev_seq : (seq_of s ≤ seq_of s')%Z;
  ev_gen : (gen_of s ≤ gen_of s')%Z;
  ev_tables g : (g < gen_of s)%Z → so_tables (ks_inner s') !! g = so_tables (ks_inner s) !! g;
  ev_seeks : length (so_seeks (ks_inner s)) ≤ length (so_seeks (ks_inner s'));
  ev_view n k : (n < b)%Z → table_view (mem_of s') k (up_to n) = table_view (mem_of s) k (up_to n);
  ev_versions k q v : (new_with_seq k q, v) ∈ mem_versions (mem_of s) →
                      ∃ v', (new_with_seq k q, v') ∈ mem_versions (mem_of s');
}.

#[global] Instance evolves_refl b : Reflexive (evolves b).
Proof. intros s. split; try done. eauto. Qed.

#[global] Instance evolves_trans b : Transitive (evolves b).
Proof.
  intros x y z [q1 g1 t1 h1 v1 m1] [q2 g2 t2 h2 v2 m2]. split; [lia|lia| |lia| |].
  - intros g Hg. rewrite t2 by lia. by apply t1.
  - intros n k Hn. rewrite v2 by lia. by apply v1.
  - intros k q v [v' Hv]%m1. by eapply m2.
Qed.

Lemma evolves_le b b' (s s' : KipStorage T) : (b' ≤ b)%Z → evolves b s s' → evolves b' s s'.
Proof. intros Hb [? ? ? ? Hv ?]. split; try done. intros n k Hn. apply Hv. lia. Qed.

Lemma evolves_frame b (s s' : KipStorage T) :
  mt_inner (mem_of s') = mt_inner (mem_of s) → (seq_of s ≤ seq_of s')%Z → gen_of s' = gen_of s →
  so_tables (ks_inner s') = so_tables (ks_inner s) →
  length (so_seeks (ks_inner s)) ≤ length (so_seeks (ks_inner s')) → evolves b s s'.
Proof.
  intros Hm Hsq Hg Ht Hh. split; rewrite ?Ht, ?Hm; try done; [lia| |by eauto].
  intros n k _. unfold table_view. by rewrite Hm.
Qed.

(** The versions a step adds to the mutable map, all with the number [n]. *)
Record writes (n : Z) (ks : list bytes) (s s' : KipStorage T) : Prop := {
  wr_new k q v : (new_with_seq k q, v) ∈ mem_versions (mem_of s') →
                 k ∈ ks ∧ q = n ∨ (new_with_seq k q, v) ∈ mem_versions (mem_of s);
  wr_keys k : k ∈ ks → ∃ v, (new_with_seq k n, v) ∈ mem_versions (mem_of s');
}.

Lemma writes_nothing n (s s' : KipStorage T) : mt_inner (mem_of s') = mt_inner (mem_of s) → writes n [] s s'.
Proof. intros E. split; rewrite E; [by right|]. by intros k ?%not_elem_of_nil. Qed.

(** A step that writes nothing before or after one that does. *)
Lemma writes_after n ks (s1 s2 s3 : KipStorage T) :
  mt_inner (mem_of s2) = mt_inner (mem_of s1) → writes n ks s2 s3 → writes n ks s1 s3.
Proof. intros Hm [H1 H2]. rewrite Hm in *. by split. Qed.

Lemma writes_before n ks (s1 s2 s3 : KipStorage T) :
  mt_inner (mem_of s3) = mt_inner (mem_of s2) → writes n ks s1 s2 → writes n ks s1 s3.
Proof. intros Hm [H1 H2]. rewrite <- Hm in *. by split. Qed.

Lemma tx_ok_kept b contents tx (s s' : KipStorage T) :
  tx_ok contents tx s → evolves b s s' → 0 < tx_count (mem_of s') → tx_ok contents tx s'.
Proof.
  intros [[Hlen Hl Hc Hs] Hg Hsq _] [q1 g1 t1 h1 v1 _] Hlive.
  split; [|intros g Hin; specialize (Hg g Hin); lia|lia|done]. split; try done.
  - intros l sc Hlin Hin. destruct (Hl l sc Hlin Hin) as [(t & Ht & ?) ? ?]. split; [|done..].
    exists t. split; [|done]. unfold store_get in *. rewrite t1; [done|]. apply Hg.
    apply list_elem_of_fmap_2, elem_of_concat. eauto.
  - intros l sc Hlin Hin loc Hloc. eapply Nat.lt_le_trans; [by eapply Hc|done].
Qed.

Lemma tx_ok_evolves b contents tx (s s' : KipStorage T) :
  tx_ok contents tx s → evolves b s s' → (tx_seq_id tx < b)%Z → 0 < tx_count (mem_of s') →
  tx_ok contents tx s' ∧ ∀ k, snapshot contents tx s' k = snapshot contents tx s k.
Proof.
  intros Htx Hev Hb Hlive. split; [by eapply tx_ok_kept|]. intros k. unfold snapshot. by rewrite (ev_view _ _ _ Hev).
Qed.

(** *** Writes of other clients *)

Lemma append_cmd_data_evolves contents (s : KipStorage T) data r s' :
  kip_inv contents s → (seq_of s < SEQ_MAX)%Z → append_cmd_data data s = (r, s') →
  evolves (seq_of s) s s' ∧ tx_count (mem_of s') = tx_count (mem_of s) ∧ writes (seq_of s) [data.1] s s'.
Proof.
  intros [_ Hmem Ho _ _] Hseq. unfold append_cmd_data, mem_table.
  destruct (insert_data_spec _ data _ (mi_wf _ _ Hmem) Hseq)
    as (exceeded & m & c & Hins & _ & Hsq & Htx & _ & Hv).
  destruct (insert_data_frame _ _ _ _ _ _ Hins) as (_ & _ & Hgb & Hadd & Hkeep & Hnew). rewrite Hins.
  assert (∀ ch, let s1 := set_tx (set_inner_store s (set_mem_table (ks_inner s) m c)) ch in
    evolves (seq_of s) s s1 ∧ tx_count (mem_of s1) = tx_count (mem_of s) ∧ writes (seq_of s) [data.1] s s1) as Hev.
  { intros ch. split_and!; [|done|].
    - split; try done; cbn; [lia|lia| |].
      + intros n k Hn. rewrite Hv. case_decide as E; [|done]. destruct E as [_ E%bool_decide_eq_true]. lia.
      + intros k q v Hin. exists v. apply Hkeep; [done|]. apply (wf_mem _ _ (mi_wf _ _ Hmem)) in Hin. lia.
    - split; cbn.
      + intros k q v [[-> ->]|Hin]%Hadd; [left|by right]. split; [by left|done].
      + intros k ->%list_elem_of_singleton. eauto. }
  destruct exceeded; [|intros [= _ <-]; apply (Hev (ks_compactor_tx s))].
  destruct (try_send_open (ks_compactor_tx s) (TaskFlush None) Ho) as (ch & -> & _).
  intros [= _ <-]. apply Hev.
Qed.

Lemma storage_get_evolves contents (s : KipStorage T) key r s' :
  kip_inv contents s → storage_get key s = (r, s') →
  (∀ b, evolves b s s') ∧ tx_count (mem_of s') = tx_count (mem_of s) ∧ mem_of s' = mem_of s ∧ seq_of s' = seq_of s.
Proof.
  intros [Hst _ Ho _ _]. unfold storage_get. destruct (mem_find _ key) as [[? ?]|]; [by intros [= _ <-]|].
  destruct (query_and_compaction_ok contents (store_get (ks_inner s)) (so_seeks (ks_inner s))
    (current_version s) key (ks_compactor_tx s) (si_wf _ _ Hst) (si_seeks _ _ Hst) Ho)
    as (h & ch & -> & _ & Hlen & _).
  intros [= _ <-]. split; [|done]. intros b. apply evolves_frame; try done. cbn. lia.
Qed.

(** The keys a command writes. *)
Definition cmd_writes (cmd : CommandData) (m : KeyMap) : list bytes :=
  match cmd with
  | CmdSet k _ => [k]
  | CmdRemove k => match m k with Some _ => [k] | None => [] end
  | CmdGet _ => []
  end.

Lemma storage_exec_evolves contents (s : KipStorage T) cmd r s' :
  kip_inv contents s → (seq_of s < SEQ_MAX)%Z → storage_exec cmd s = (r, s') →
  evolves (seq_of s) s s' ∧ tx_count (mem_of s') = tx_count (mem_of s) ∧
  writes (seq_of s) (cmd_writes cmd (view contents s)) s s'.
Proof.
  intros Hk Hseq. destruct cmd as [k v|k|k]; cbn [storage_exec cmd_writes].
  - unfold storage_set. destruct (append_cmd_data (k, Some v) s) as [r1 s1] eqn:E. intros [= _ <-].
    by apply (append_cmd_data_evolves contents s _ _ _ Hk Hseq E).
  - unfold storage_remove. destruct (storage_get_ok contents s k Hk) as (s1 & Hg & Hk1 & Hsq1 & _ & _).
    destruct (storage_get_evolves contents s k _ _ Hk Hg) as (Hev & Htx & Hm & _). rewrite Hg.
    destruct (view contents s k) as [x|]; [|intros [= _ <-]; split_and!; [done..|apply writes_nothing; by rewrite Hm]].
    destruct (append_cmd_data (k, None) s1) as [r2 s2] eqn:E. intros [= _ <-].
    destruct (append_cmd_data_evolves contents s1 _ _ _ Hk1 ltac:(lia) E) as (Hev2 & Htx2 & Hw).
    rewrite Hsq1 in *. split_and!; [by etrans; [apply Hev|]|congruence|]. apply (writes_after _ _ s s1); [by rewrite Hm|done].
  - intros E. destruct (storage_get_evolves contents s k _ _ Hk E) as (? & ? & Hm & _).
    split_and!; [done..|]. apply writes_nothing. by rewrite Hm.
Qed.

(** *** Commits *)

(** Drawing a number changes nothing else. *)
Lemma commit_draw_ok contents (s : KipStorage T) n s' :
  kip_inv contents s → (seq_of s < SEQ_MAX)%Z → commit_draw s = (n, s') →
  n = seq_of s ∧ kip_inv contents s' ∧ (∀ b, evolves b s s') ∧ seq_of s' = (seq_of s + 1)%Z ∧
  mem_of s' = mem_of s ∧ ∀ k, view contents s' k = view contents s k.
Proof.
  intros Hk Hseq. unfold commit_draw. cbn [seq_create]. intros [= <- <-].
  pose proof (set_tx_count_inv contents s (tx_count (mem_of s))
    {| seq_count := seq_of s + 1; gen_buf := gen_of s |} Hk ltac:(cbn; lia) eq_refl) as Hk'.
  assert (set_tx_count (mem_of s) (tx_count (mem_of s)) = mem_of s) as E by (by destruct (mem_of s)).
  rewrite E in Hk'. split_and!; try done. intros b. apply evolves_frame; try done. cbn. lia.
Qed.

(** The insertion of a batch under a number that was drawn before: below the number
    nothing changes; if the keys of the batch have no newer version the map gets the
    batch. *)
Lemma commit_insert_ok contents batch n (s : KipStorage T) :
  kip_inv contents s → (0 ≤ n < seq_of s)%Z → Forall (λ e, e.1 ≠ []) batch →
  ∃ s', commit_insert batch n s = (Ok (), s') ∧ kip_inv contents s' ∧ evolves n s s' ∧
    seq_of s' = seq_of s ∧ tx_count (mem_of s') = tx_count (mem_of s) ∧ writes n batch.*1 s s' ∧
    ((∀ k q v, k ∈ batch.*1 → (new_with_seq k q, v) ∈ mem_versions (mem_of s) → (q ≤ n)%Z) →
     ∀ k, view contents s' k = match batch_get batch k with Some v => v | None => view contents s k end).
Proof.
  intros [Hst Hmem Ho Hsize Htypes] Hn Hne. unfold commit_insert, mem_table.
  pose proof (mi_wf _ _ Hmem) as Hwf.
  destruct (insert_batch_data_total (mem_of s) batch n (so_counters (ks_inner s)) Hwf Hn)
    as (ex & m & Hins & Hwf' & Htx & Hlow).
  destruct (insert_batch_data_frame _ _ _ _ _ Hins) as (Himm & Hlog & Hin & Hkeep & Hnew). rewrite Hins.
  assert (∀ ch, task_open ch = true →
    let s1 := set_tx (set_inner_store s (set_mem_table (ks_inner s) m (so_counters (ks_inner s)))) ch in
    kip_inv contents s1 ∧ evolves n s s1 ∧ writes n batch.*1 s s1) as Hset.
  { intros ch Hch. split_and!; [..|split; cbn; auto].
    - split; try done; cbn; [apply set_mem_table_inv; [done|cbn; lia]|].
      destruct Hmem as [_ Hkeys Hi [Hg1 Hg2 Hg3]]. split; try done; cbn.
      + intros k q v [[(e & -> & He)%list_elem_of_fmap _]|?]%Hin; [|by eapply Hkeys].
        rewrite Forall_forall in Hne. by apply Hne.
      + intros im k v. rewrite Himm. apply Hi.
      + rewrite Hlog. by split.
    - split; try done; cbn.
      + intros q k Hq. apply Hlow. apply bool_decide_eq_false. lia.
      + intros k q v Hq. destruct (decide (q = n)) as [->|Hqn]; [apply Hnew; eauto|]. exists v. by apply Hkeep. }
  assert ((∀ k q v, k ∈ batch.*1 → (new_with_seq k q, v) ∈ mem_versions (mem_of s) → (q ≤ n)%Z) →
    ∀ k, store_view contents (set_mem_table (ks_inner s) m (so_counters (ks_inner s))) k
    = match batch_get batch k with Some v => v | None => view contents s k end) as Hview.
  { intros Hold k. unfold store_view, view, store_view. cbn.
    destruct (insert_batch_data_spec (mem_of s) batch n (so_counters (ks_inner s)) Hwf Hold Hn)
      as (ex2 & m2 & Hins2 & _ & _ & Hv). rewrite Hins in Hins2. injection Hins2 as <- <-. rewrite Hv.
    pose proof (wf_seq _ _ Hwf). destruct (batch_get batch k); [|done].
    by assert (up_to SEQ_MAX n = true) as -> by (apply bool_decide_eq_true; lia). }
  destruct ex; [|eexists; split; [done|]; destruct (Hset (ks_compactor_tx s) Ho) as (? & ? & ?); by split_and!].
  destruct (try_send_open (ks_compactor_tx s) (TaskFlush None) Ho) as (ch & -> & Hch).
  eexists. split; [done|]. destruct (Hset ch Hch) as (? & ? & ?). by split_and!.
Qed.

(** The write of a commit that has no conflict and that nothing interrupts. *)
Lemma commit_write_ok contents tx (s : KipStorage T) batch :
  kip_inv contents s → (seq_of s < SEQ_MAX)%Z → Forall (λ e, e.1 ≠ []) batch →
  commit_check tx s = Ok (Some batch) →
  ∃ s', commit_body tx s = (Ok (), s') ∧ kip_inv contents s' ∧ evolves (seq_of s) s s' ∧
    seq_of s' = (seq_of s + 1)%Z ∧ tx_count (mem_of s') = tx_count (mem_of s) ∧
    writes (seq_of s) batch.*1 s s' ∧
    ∀ k, view contents s' k = match batch_get batch k with Some v => v | None => view contents s k end.
Proof.
  intros Hk Hseq Hne Hc. unfold commit_body. rewrite Hc.
  destruct (commit_draw s) as [n s1] eqn:Ed.
  destruct (commit_draw_ok contents s n s1 Hk Hseq Ed) as (-> & Hk1 & Hev1 & Hsq1 & Hm1 & Hv1).
  pose proof (wf_seq _ _ (mi_wf _ _ (ki_mem _ _ Hk))) as Hseq0.
  destruct (commit_insert_ok contents batch (seq_of s) s1 Hk1 ltac:(lia) Hne)
    as (s' & Hi & Hk' & Hev & Hsq & Htx & Hw & Hv).
  exists s'. split_and!; try done; [etrans; [apply Hev1|done]|congruence|congruence| |].
  - apply (writes_after _ _ s s1); [by rewrite Hm1|done].
  - intros k. rewrite Hv, Hv1; [done|]. intros k' q v _ Hin. rewrite Hm1 in Hin.
    apply (wf_mem _ _ (mi_wf _ _ (ki_mem _ _ Hk))) in Hin. lia.
Qed.

Lemma transaction_drop_ok contents (s : KipStorage T) :
  kip_inv contents s → kip_inv contents (transaction_drop s) ∧ ∀ b, evolves b s (transaction_drop s).
Proof.
  intros Hk. split; [|intros b; by apply evolves_frame].
  apply set_tx_count_inv; [done| |done]. pose proof (wf_seq _ _ (mi_wf _ _ (ki_mem _ _ Hk))). lia.
Qed.

(** A version newer than the transaction exists for one of its keys. *)
Definition conflict (tx : Transaction) (s : KipStorage T) : bool :=
  check_key_conflict (mem_of s) (write_buf_or_init tx) (tx_seq_id tx).

Lemma commit_check_conflict tx (s : KipStorage T) :
  commit_check tx s = if conflict tx s then Err RepeatedWrite else Ok (tx_write_buf tx).
Proof.
  unfold commit_check, conflict, write_buf_or_init, mem_table. destruct (tx_write_buf tx); [|done].
  by destruct (tx_check_type tx).
Qed.

Lemma batch_get_sorted (l : list KeyValue) k : ksorted l → batch_get l k = btree_get k l.
Proof. intros Hs. unfold batch_get. by rewrite btree_get_last. Qed.

Lemma transaction_commit_ok contents tx (s : KipStorage T) :
  kip_inv contents s → (seq_of s < SEQ_MAX)%Z → Forall (λ e, e.1 ≠ []) (write_buf_or_init tx) →
  ∃ s', transaction_commit tx s = (if conflict tx s then Err RepeatedWrite else Ok (), s') ∧
    kip_inv contents s' ∧ evolves (seq_of s) s s' ∧ (seq_of s' ≤ seq_of s + 1)%Z ∧
    tx_count (mem_of s') = tx_count (mem_of s) - 1 ∧
    writes (seq_of s) (if conflict tx s then [] else (write_buf_or_init tx).*1) s s' ∧
    ∀ k, view contents s' k
      = if conflict tx s then view contents s k
        else match batch_get (write_buf_or_init tx) k with Some v => v | None => view contents s k end.
Proof.
  intros Hk Hseq Hne. unfold transaction_commit.
  assert (∀ s1, kip_inv contents s1 → evolves (seq_of s) s s1 → kip_inv contents (transaction_drop s1) ∧
    evolves (seq_of s) s (transaction_drop s1)) as Hdrop.
  { intros s1 Hk1 Hev1. destruct (transaction_drop_ok contents s1 Hk1) as [? ?]. split; [done|by etrans]. }
  pose proof (commit_check_conflict tx s) as Hcheck.
  destruct (conflict tx s).
  - assert (commit_body tx s = (Err RepeatedWrite, s)) as -> by (unfold commit_body; by rewrite Hcheck).
    exists (transaction_drop s). destruct (Hdrop s Hk) as [? ?]; [done|].
    split_and!; try done; [cbn; lia|by apply writes_nothing].
  - unfold write_buf_or_init in *. destruct (tx_write_buf tx) as [batch|] eqn:Eb.
    + destruct (commit_write_ok contents tx s batch Hk Hseq Hne Hcheck)
        as (s1 & -> & Hk1 & Hev1 & Hsq & Htx & Hnew & Hv).
      exists (transaction_drop s1). destruct (Hdrop s1 Hk1 Hev1) as [? ?].
      split_and!; try done; [cbn; lia|by rewrite <- Htx|by apply (writes_before _ _ s s1)].
    + assert (commit_body tx s = (Ok (), s)) as -> by (unfold commit_body; by rewrite Hcheck).
      exists (transaction_drop s). destruct (Hdrop s Hk) as [? ?]; [done|].
      split_and!; try done; [cbn; lia|by apply writes_nothing].
Qed.

(** ** Isolation *)

(** What happens while a transaction is alive: everything the storage does by itself or
    for its clients, and what other transactions do, their commits in their two effective
    steps.  [os_drawn] are the numbers that commits have drawn and not used yet. *)
Record Others := mkOthers {
  os_store : KipStorage T;
  os_drawn : list Z;
}.

Inductive other_step : Others → list (KipStorage T * KLabel) → Others → Prop :=
  | other_client l s s' drawn : kip_step s l s' → other_step (mkOthers s drawn) [(s, l)] (mkOthers s' drawn)
  | other_begin ct s drawn : other_step (mkOthers s drawn) [] (mkOthers (transaction_new ct s).2 drawn)
  | other_read contents tx key s drawn :
      tx_ok contents tx s → other_step (mkOthers s drawn) [] (mkOthers (transaction_get key tx s).2 drawn)
  | other_draw n s s' drawn :
      commit_draw s = (n, s') → other_step (mkOthers s drawn) [] (mkOthers s' (n :: drawn))
  | other_insert batch n s r s' pre post :
      Forall (λ e, e.1 ≠ []) batch → 1 < tx_count (mem_of s) → commit_insert batch n s = (r, s') →
      other_step (mkOthers s (pre ++ n :: post)) [] (mkOthers (transaction_drop s') (pre ++ post))
  | other_drop s drawn :
      1 < tx_count (mem_of s) → other_step (mkOthers s drawn) [] (mkOthers (transaction_drop s) drawn).

(** [n] steps and the steps of the storage among them. *)
Inductive other_run : Others → nat → list (KipStorage T * KLabel) → Others → Prop :=
  | others_nil o : other_run o 0 [] o
  | others_cons o1 e o2 n tr o3 : other_step o1 e o2 → other_run o2 n tr o3 → other_run o1 (S n) (e ++ tr) o3.

(** A flush does not run: it waits for the transactions. *)
Lemma flush_waits config (st : Store T) tx :
  tx_count (so_mem_table st) ≠ 0 → run_task config (TaskFlush tx) st = None.
Proof. intros Hn. cbn [run_task]. unfold check_then_compaction, swap. by rewrite decide_True. Qed.

Definition label_writes (l : KLabel) (m : KeyMap) : list bytes :=
  match l with LCmd cmd _ => cmd_writes cmd m | LErase key _ => [key] | _ => [] end.

Lemma kip_step_evolves contents (s : KipStorage T) l s' :
  kip_inv contents s → kip_step s l s' → event_safe (s, l) → (seq_of s < SEQ_MAX)%Z → 0 < tx_count (mem_of s) →
  evolves (seq_of s) s s' ∧ tx_count (mem_of s') = tx_count (mem_of s) ∧
  writes (seq_of s) (label_writes l (view contents s)) s s'.
Proof.
  intros Hk Hstep Hsafe Hseq Hlive.
  assert (∀ s1 : KipStorage T, ks_inner s1 = ks_inner s →
    evolves (seq_of s) s s1 ∧ tx_count (mem_of s1) = tx_count (mem_of s) ∧ writes (seq_of s) [] s s1) as Hsame.
  { intros s1 E. rewrite E. split_and!; [|done|apply writes_nothing; by rewrite E]. apply evolves_frame; by rewrite E. }
  destruct Hstep as [s cmd r s' Hkey He|key value s s' Hkey Hg|key r s s' Hkey He|s s' Hs|s s' Hs
    |min max level s s' Hm|task rest s s' Hq Hb]; cbn [label_writes].
  - by eapply storage_exec_evolves.
  - destruct (storage_get_evolves contents s key _ _ Hk Hg) as (? & ? & Hm & _).
    split_and!; [done..|]. apply writes_nothing. by rewrite Hm.
  - by apply (append_cmd_data_evolves contents s _ _ _ Hk Hseq He).
  - apply Hsame. by eapply send_task_ok.
  - apply Hsame. by eapply send_task_ok.
  - unfold manual_compaction in Hm.
    destruct (le_b min max); [|injection Hm as <-; by apply Hsame]. cbn [from_range] in Hm.
    unfold send_task, send in Hm. cbn [set_inner_store ks_compactor_tx] in Hm.
    rewrite (ki_open _ _ Hk) in Hm. case_decide; [|done]. injection Hm as <-.
    split_and!; [|done|by apply writes_nothing]. apply evolves_frame; try done. cbn. rewrite length_app. lia.
  - pose proof (background_ready s task rest s' Hq Hb) as Hready. destruct task as [scope level|tx].
    + destruct Hk as [Hst Hmem Ho Hsize Htypes].
      destruct (seek_task_ok (ks_config s) Hsize Htypes contents (ks_inner s) scope level Hst Hmem (conj Hready Hsafe))
        as (c2 & st' & Hrun & _ & _ & [m2 q2 g2 n2 l2 t2 h2 o2] & _).
      unfold background_step in Hb. rewrite Hq, Hrun in Hb. cbn [res_bind] in Hb. injection Hb as <-.
      cbn. split_and!; [|by rewrite m2|apply writes_nothing; cbn; by rewrite m2].
      split; cbn; rewrite ?q2, ?m2; by eauto.
    + destruct Hready as [_ H0]. lia.
Qed.

(** The numbers drawn since [b]. *)
Definition drawn_since (b : Z) (o : Others) : Prop :=
  Forall (λ n, b ≤ n < seq_of (os_store o))%Z (os_drawn o).

Record others_inv (b : Z) (contents : Z → list KeyValue) (o : Others) : Prop := {
  oi_inv : kip_inv contents (os_store o);
  oi_seq : (0 ≤ b ≤ seq_of (os_store o))%Z;
  oi_live : 0 < tx_count (mem_of (os_store o));
  oi_drawn : drawn_since b o;
}.

Lemma drawn_since_le b (s s' : KipStorage T) drawn :
  (seq_of s ≤ seq_of s')%Z → drawn_since b (mkOthers s drawn) → drawn_since b (mkOthers s' drawn).
Proof. intros Hle Hd. eapply Forall_impl; [exact Hd|]. cbn. lia. Qed.

Lemma other_step_ok b contents o e o' :
  others_inv b contents o → other_step o e o' → Forall event_safe e → (seq_of (os_store o) < SEQ_MAX)%Z →
  ∃ contents', others_inv b contents' o' ∧ evolves b (os_store o) (os_store o') ∧
    (seq_of (os_store o') ≤ seq_of (os_store o) + 1)%Z.
Proof.
  intros [Hk Hb Hlive Hd] Hstep Hsafe Hseq.
  assert (∀ contents' s' drawn, kip_inv contents' s' → evolves b (os_store o) s' → 0 < tx_count (mem_of s') →
    (seq_of s' ≤ seq_of (os_store o) + 1)%Z → drawn_since b (mkOthers s' drawn) →
    ∃ contents', others_inv b contents' (mkOthers s' drawn) ∧ evolves b (os_store o) s' ∧
      (seq_of s' ≤ seq_of (os_store o) + 1)%Z) as Hdone.
  { intros c' s' drawn Hk' Hev Hn Hsq Hd'. exists c'. split_and!; try done. split; try done.
    pose proof (ev_seq _ _ _ Hev). cbn. lia. }
  assert (∀ s', evolves b (os_store o) s' → drawn_since b (mkOthers s' (os_drawn o))) as Hkeep.
  { intros s' Hev. destruct o as [s drawn]. eapply drawn_since_le; [|exact Hd]. apply Hev. }
  destruct Hstep as [l s s' drawn Hs|ct s drawn|c0 tx key s drawn Htx|n s s' drawn Hdr|batch n s r s' pre post Hne Hn Hi
    |s drawn Hn]; cbn [os_store os_drawn] in *.
  - apply Forall_cons in Hsafe as [Hsafe _]. destruct (kip_step_ok contents s l s' Hk Hs Hsafe Hseq) as (c' & Hk' & Hsq & _).
    destruct (kip_step_evolves contents s l s' Hk Hs Hsafe Hseq Hlive) as (Hev & Htx & _).
    assert (evolves b s s') as Hev' by (eapply evolves_le, Hev; lia).
    apply (Hdone c'); [done..|lia|done|by apply Hkeep].
  - destruct (transaction_new ct s) as [tx s'] eqn:E.
    destruct (transaction_new_ok contents s ct tx s' Hk Hseq E) as (Hk' & _ & _ & Hsq & Htx & Hm & _ & _).
    assert (evolves b s s') by (injection E as _ <-; apply evolves_frame; cbn; (done || lia)).
    apply (Hdone contents); [done..|cbn; lia|cbn; lia|by apply Hkeep].
  - destruct (transaction_get_ok contents c0 tx s key Hk Htx) as (s' & -> & Hk' & Hm & Ht & Hc & Hh & _).
    assert (evolves b s s') by (apply evolves_frame; rewrite ?Hm, ?Ht, ?Hc; (done || lia)).
    apply (Hdone contents); cbn [snd]; [done..|by rewrite Hm|rewrite Hc; lia|by apply Hkeep].
  - destruct (commit_draw_ok contents s n s' Hk Hseq Hdr) as (-> & Hk' & Hev & Hsq & Hm & _).
    apply (Hdone contents); [done|done|by rewrite Hm|lia|].
    apply Forall_cons. split; [cbn; lia|by apply Hkeep].
  - apply Forall_app in Hd as [Hpre [Hnb Hpost]%Forall_cons]. cbn [os_store] in *.
    destruct (commit_insert_ok contents batch n s Hk ltac:(lia) Hne) as (s1 & Hi' & Hk1 & Hev & Hsq & Htx & _).
    rewrite Hi in Hi'. injection Hi' as -> ->. destruct (transaction_drop_ok contents s1 Hk1) as [Hk' Hev'].
    apply (Hdone contents); [done| |unfold transaction_drop, mem_table; cbn; lia|cbn; lia|].
    + etrans; [eapply evolves_le, Hev; lia|done].
    + unfold drawn_since. cbn [transaction_drop set_inner_store set_mem_table ks_inner so_counters os_store os_drawn].
      rewrite Hsq. apply Forall_app. by split.
  - destruct (transaction_drop_ok contents s Hk) as [Hk' Hev].
    apply (Hdone contents); [done|done|unfold transaction_drop, mem_table; cbn; lia|cbn; lia|by apply Hkeep].
Qed.

Lemma other_run_ok b contents n o tr o' :
  others_inv b contents o → other_run o n tr o' → Forall event_safe tr →
  (seq_of (os_store o) + Z.of_nat n ≤ SEQ_MAX)%Z →
  ∃ contents', others_inv b contents' o' ∧ evolves b (os_store o) (os_store o') ∧
    (seq_of (os_store o') ≤ seq_of (os_store o) + Z.of_nat n)%Z.
Proof.
  intros Hi Hrun. revert contents Hi. induction Hrun as [o|o1 e o2 n tr o3 Hstep _ IH];
    intros contents Hi Hsafe Hseq.
  { exists contents. split_and!; [done..|lia]. }
  apply Forall_app in Hsafe as [Hs Hsafe].
  destruct (other_step_ok b contents o1 e o2 Hi Hstep Hs ltac:(lia)) as (c2 & Hi2 & Hev2 & Hsq2).
  destruct (IH c2 Hi2 Hsafe ltac:(lia)) as (c3 & Hi3 & Hev3 & Hsq3).
  exists c3. split_and!; [done|by etrans|lia].
Qed.

(** The state in which a transaction has begun and no number is drawn and not used. *)
Lemma others_begun contents (s : KipStorage T) ct tx s1 :
  kip_inv contents s → (seq_of s < SEQ_MAX)%Z → transaction_new ct s = (tx, s1) →
  others_inv (seq_of s1) contents (mkOthers s1 []) ∧ (tx_seq_id tx < seq_of s1)%Z ∧ seq_of s1 = (seq_of s + 1)%Z.
Proof.
  intros Hk Hseq Hnew. pose proof (wf_seq _ _ (mi_wf _ _ (ki_mem _ _ Hk))).
  destruct (transaction_new_ok contents s ct tx s1 Hk Hseq Hnew) as (Hk1 & Htx & _ & Hsq & _).
  split_and!; [|apply Htx|done]. split; cbn [os_store]; [done|lia|apply Htx|constructor].
Qed.

(** C6: snapshot isolation: if no commit was between drawing its number and inserting when a
    transaction began, then whatever the clients, the other transactions (their commits
    interrupted or not, racing or not) and the background task with safe tasks do after
    that, each of its reads returns its own write of the key, or else the value the storage
    held for it when the transaction began. *)
Theorem snapshot_isolation contents (s : KipStorage T) ct tx s1 n tr s2 drawn buf key :
  kip_inv contents s → transaction_new ct s = (tx, s1) →
  other_run (mkOthers s1 []) n tr (mkOthers s2 drawn) → Forall event_safe tr →
  (seq_of s + 1 + Z.of_nat n ≤ SEQ_MAX)%Z →
  ∃ s3, transaction_get key (set_write_buf tx buf) s2
    = (Ok (match btree_get key (default [] buf) with Some v => v | None => view contents s key end), s3).
Proof.
  intros Hk Hnew Hrun Hsafe Hseq.
  destruct (transaction_new_ok contents s ct tx s1 Hk ltac:(lia) Hnew)
    as (Hk1 & Htx & Hbuf & _ & _ & _ & _ & Hv).
  destruct (others_begun contents s ct tx s1 Hk ltac:(lia) Hnew) as (Ho & Hb & Hsq).
  destruct (other_run_ok _ contents n _ tr _ Ho Hrun Hsafe) as (c2 & [Hk2 _ Hlive _] & Hev & _);
    [cbn [os_store]; lia|]. cbn [os_store] in *.
  destruct (tx_ok_evolves _ contents tx s1 s2 Htx Hev Hb Hlive) as [Htx2 Hsnap].
  assert (tx_ok contents (set_write_buf tx buf) s2) as Htx3 by (by destruct Htx2).
  destruct (transaction_get_ok c2 contents (set_write_buf tx buf) s2 key Hk2 Htx3) as (s3 & -> & _).
  exists s3. do 2 f_equal. unfold tx_view, tx_find, write_buf_or_init. cbn [set_write_buf tx_write_buf].
  destruct (btree_get key (default [] buf)); [done|].
  change (snapshot contents (set_write_buf tx buf) s2 key) with (snapshot contents tx s2 key).
  rewrite Hsnap. specialize (Hv key). unfold tx_view, tx_find, write_buf_or_init in Hv. by rewrite Hbuf in Hv.
Qed.

(** A write of the key [k]: a client's set, the second half of a removal, or the insertion
    of another transaction's commit. *)
Inductive writes_key (k : bytes) : Others → Others → Prop :=
  | writes_set v r s s' drawn :
      k ≠ [] → storage_exec (CmdSet k v) s = (r, s') → writes_key k (mkOthers s drawn) (mkOthers s' drawn)
  | writes_erase r s s' drawn :
      k ≠ [] → append_cmd_data (k, None) s = (r, s') → writes_key k (mkOthers s drawn) (mkOthers s' drawn)
  | writes_insert batch n s r s' pre post :
      Forall (λ e, e.1 ≠ []) batch → 1 < tx_count (mem_of s) → commit_insert batch n s = (r, s') →
      k ∈ batch.*1 → writes_key k (mkOthers s (pre ++ n :: post)) (mkOthers (transaction_drop s') (pre ++ post)).

Lemma writes_key_ok b contents k o o' :
  others_inv b contents o → (seq_of (os_store o) < SEQ_MAX)%Z → writes_key k o o' →
  (∃ e, other_step o e o' ∧ Forall event_safe e) ∧
  ∃ q v, (b ≤ q)%Z ∧ (new_with_seq k q, v) ∈ mem_versions (mem_of (os_store o')).
Proof.
  intros [Hk Hb _ Hd] Hseq Hw.
  destruct Hw as [v r s s' drawn Hne He|r s s' drawn Hne He|batch n s r s' pre post Hne Hn He Hin];
    cbn [os_store os_drawn] in *.
  - split; [eexists; split; [by eapply other_client, (step_cmd s (CmdSet k v))|by repeat constructor]|].
    destruct (storage_exec_evolves contents s _ _ _ Hk Hseq He) as (_ & _ & Hw).
    destruct (wr_keys _ _ _ _ Hw k) as [v' Hv]; [by left|]. exists (seq_of s), v'. by split; [lia|].
  - split; [eexists; split; [by eapply other_client, (step_erase k r)|by repeat constructor]|].
    destruct (append_cmd_data_evolves contents s _ _ _ Hk Hseq He) as (_ & _ & Hw).
    destruct (wr_keys _ _ _ _ Hw k) as [v' Hv]; [by left|]. exists (seq_of s), v'. by split; [lia|].
  - split; [eexists; split; [by eapply other_insert|by constructor]|].
    apply Forall_app in Hd as [_ [Hnb _]%Forall_cons]. cbn [os_store] in Hnb.
    destruct (commit_insert_ok contents batch n s Hk ltac:(lia) Hne) as (s1 & He' & _ & _ & _ & _ & Hw & _).
    rewrite He in He'. injection He' as -> ->. destruct (wr_keys _ _ _ _ Hw k Hin) as [v' Hv].
    exists n, v'. by split; [lia|].
Qed.

(** C9: the first writer wins: once another client or transaction has written a key after a
    transaction began (no commit then being between drawing its number and inserting), the
    check of the transaction's commit of that key fails, whatever else happens in between
    with safe background tasks, and a commit that runs it ends with [RepeatedWrite] and
    changes nothing. *)
Theorem first_committer_wins contents (s : KipStorage T) ct tx s1 n1 tr1 o2 o3 n2 tr2 s4 drawn buf k :
  kip_inv contents s → transaction_new ct s = (tx, s1) →
  other_run (mkOthers s1 []) n1 tr1 o2 → Forall event_safe tr1 → writes_key k o2 o3 →
  other_run o3 n2 tr2 (mkOthers s4 drawn) → Forall event_safe tr2 →
  (seq_of s + 2 + Z.of_nat n1 + Z.of_nat n2 ≤ SEQ_MAX)%Z → k ∈ buf.*1 →
  commit_check (set_write_buf tx (Some buf)) s4 = Err RepeatedWrite ∧
  commit_body (set_write_buf tx (Some buf)) s4 = (Err RepeatedWrite, s4).
Proof.
  intros Hk Hnew H1 Hs1 Hw H2 Hs2 Hseq Hin.
  destruct (others_begun contents s ct tx s1 Hk ltac:(lia) Hnew) as (Ho1 & Hb & Hsq).
  destruct (other_run_ok _ contents n1 _ tr1 _ Ho1 H1 Hs1) as (c2 & Ho2 & _ & Hsq2); [cbn [os_store]; lia|].
  cbn [os_store] in Hsq2.
  destruct (writes_key_ok _ c2 k o2 o3 Ho2 ltac:(lia) Hw) as ((e & Hstep & He) & q & v & Hq & Hv).
  destruct (other_step_ok _ c2 o2 e o3 Ho2 Hstep He ltac:(lia)) as (c3 & Ho3 & _ & Hsq3).
  destruct (other_run_ok _ c3 n2 o3 tr2 _ Ho3 H2 Hs2 ltac:(lia)) as (c4 & _ & Hev4 & _).
  destruct (ev_versions _ _ _ Hev4 _ _ _ Hv) as [v4 Hv4]. cbn [os_store] in Hv4.
  assert (commit_check (set_write_buf tx (Some buf)) s4 = Err RepeatedWrite) as Hc.
  { rewrite commit_check_conflict. unfold conflict.
    change (write_buf_or_init (set_write_buf tx (Some buf))) with buf.
    change (tx_seq_id (set_write_buf tx (Some buf))) with (tx_seq_id tx).
    assert (check_key_conflict (mem_of s4) buf (tx_seq_id tx) = true) as ->; [|done].
    apply check_key_conflict_spec. apply list_elem_of_fmap in Hin as (kv & -> & Hkv).
    exists kv, q, v4. split_and!; [done..|lia]. }
  split; [done|]. unfold commit_body. by rewrite Hc.
Qed.

(** ** Races *)

Lemma commit_insert_status batch n (s : KipStorage T) r s' :
  commit_insert batch n s = (r, s') → so_status (ks_inner s') = so_status (ks_inner s).
Proof.
  unfold commit_insert. destruct (insert_batch_data _ _ _) as [[ex m]| |]; [|by intros [= _ <-]..].
  destruct ex; [|by intros [= _ <-]]. by destruct (try_send _ _); intros [= _ <-].
Qed.

(** Two commits that both pass the check before either inserts both succeed, although they
    write the same key: the write of the first is lost, and a check after its insertion
    would have refused the second. *)
Theorem racing_commits_both_succeed contents (s : KipStorage T) tx1 tx2 b1 b2 k v2 :
  kip_inv contents s → (seq_of s + 1 < SEQ_MAX)%Z →
  tx_write_buf tx1 = Some b1 → tx_write_buf tx2 = Some b2 →
  Forall (λ e, e.1 ≠ []) b1 → Forall (λ e, e.1 ≠ []) b2 → ksorted b2 →
  conflict tx1 s = false → conflict tx2 s = false → (tx_seq_id tx2 < seq_of s)%Z →
  k ∈ b1.*1 → btree_get k b2 = Some v2 →
  ∃ n1 n2 s1 s2 s3 s4,
    commit_check tx1 s = Ok (Some b1) ∧ commit_check tx2 s = Ok (Some b2) ∧
    commit_draw s = (n1, s1) ∧ commit_draw s1 = (n2, s2) ∧
    commit_insert b1 n1 s2 = (Ok (), s3) ∧ commit_insert b2 n2 s3 = (Ok (), s4) ∧
    view contents s4 k = v2 ∧ commit_check tx2 s3 = Err RepeatedWrite.
Proof.
  intros Hk Hseq Hb1 Hb2 Hne1 Hne2 Hsort Hc1 Hc2 Htx2 Hk1 Hk2.
  pose proof (wf_seq _ _ (mi_wf _ _ (ki_mem _ _ Hk))) as Hs0.
  destruct (commit_draw s) as [n1 s1] eqn:E1.
  destruct (commit_draw_ok contents s n1 s1 Hk ltac:(lia) E1) as (-> & Hi1 & _ & Hsq1 & Hm1 & _).
  destruct (commit_draw s1) as [n2 s2] eqn:E2.
  destruct (commit_draw_ok contents s1 n2 s2 Hi1 ltac:(lia) E2) as (-> & Hi2 & _ & Hsq2 & Hm2 & _).
  destruct (commit_insert_ok contents b1 (seq_of s) s2 Hi2 ltac:(lia) Hne1)
    as (s3 & E3 & Hi3 & _ & Hsq3 & _ & Hw & _).
  destruct (commit_insert_ok contents b2 (seq_of s1) s3 Hi3 ltac:(lia) Hne2) as (s4 & E4 & _ & _ & _ & _ & _ & Hv).
  eexists _, _, s1, s2, s3, s4.
  split_and!; [by rewrite commit_check_conflict, Hc1, Hb1|by rewrite commit_check_conflict, Hc2, Hb2|done..| |].
  - rewrite Hv, batch_get_sorted, Hk2; [done..|]. intros k' q v _ [[_ ->]|Hin]%(wr_new _ _ _ _ Hw); [lia|].
    rewrite Hm2, Hm1 in Hin. apply (wf_mem _ _ (mi_wf _ _ (ki_mem _ _ Hk))) in Hin. lia.
  - rewrite commit_check_conflict.
    assert (conflict tx2 s3 = true) as ->; [|done]. unfold conflict, write_buf_or_init. rewrite Hb2. cbn [default from_option id].
    apply check_key_conflict_spec. destruct (wr_keys _ _ _ _ Hw k Hk1) as [v Hv3].
    exists (k, v2), (seq_of s), v. split_and!; [by apply btree_get_Some|done|done].
Qed.

(** A transaction that begins while a commit is between drawing its number and inserting
    does not have a stable snapshot: it reads the old value of a key of the commit before
    the insertion and the new one after it. *)
Theorem snapshot_changes_under_commit contents (s : KipStorage T) ct batch n s1 tx s2 k v :
  kip_inv contents s → (seq_of s + 1 < SEQ_MAX)%Z → Forall (λ e, e.1 ≠ []) batch → ksorted batch →
  btree_get k batch = Some v →
  commit_draw s = (n, s1) → transaction_new ct s1 = (tx, s2) →
  ∃ s3, commit_insert batch n s2 = (Ok (), s3) ∧
    (transaction_get k tx s2).1 = Ok (view contents s k) ∧ (transaction_get k tx s3).1 = Ok v.
Proof.
  intros Hk Hseq Hne Hsort Hkv E1 Hnew. pose proof (wf_seq _ _ (mi_wf _ _ (ki_mem _ _ Hk))) as Hs0.
  destruct (commit_draw_ok contents s n s1 Hk ltac:(lia) E1) as (-> & Hk1 & _ & Hsq1 & Hm1 & Hv1).
  destruct (transaction_new_ok contents s1 ct tx s2 Hk1 ltac:(lia) Hnew)
    as (Hk2 & Htx & Hbuf & Hsq2 & Hn2 & Hm2 & Hv2 & Htv).
  destruct (commit_insert_ok contents batch (seq_of s) s2 Hk2 ltac:(lia) Hne)
    as (s3 & E3 & Hk3 & Hev & Hsq3 & Htx3 & _ & Hv3).
  exists s3. split; [done|]. split.
  { destruct (transaction_get_ok contents contents tx s2 k Hk2 Htx) as (s4 & -> & _). cbn [fst]. by rewrite Htv, Hv1. }
  assert (tx_version tx = current_version s3 ∧ tx_seq_id tx = seq_of s1) as [Hver Hid].
  { injection Hnew as <- <-. cbn [tx_version tx_seq_id]. split; [|done].
    unfold current_version. by rewrite (commit_insert_status _ _ _ _ _ E3). }
  assert (tx_ok contents tx s3) as Hok3 by (eapply tx_ok_kept; [done..|rewrite Htx3; apply Htx]).
  destruct (transaction_get_ok contents contents tx s3 k Hk3 Hok3) as (s4 & -> & _). cbn [fst]. f_equal.
  rewrite (tx_view_newest contents tx s3 Hk3 Hver Hbuf ltac:(lia) k), Hv3, batch_get_sorted, Hkv; [done..|].
  intros k' q v' _ Hin. rewrite Hm2, Hm1 in Hin. apply (wf_mem _ _ (mi_wf _ _ (ki_mem _ _ Hk))) in Hin. lia.
Qed.

(** A commit is all or nothing: without a conflict it returns [Ok] and puts exactly
    the buffered writes on the map, at once; with one it returns [RepeatedWrite] and
    leaves the map as it was.  Both end the transaction. *)
Theorem commit_atomic contents tx (s : KipStorage T) :
  kip_inv contents s → (seq_of s < SEQ_MAX)%Z → ksorted (write_buf_or_init tx) →
  Forall (λ e, e.1 ≠ []) (write_buf_or_init tx) →
  ∃ r s', transaction_commit tx s = (r, s') ∧ kip_inv contents s' ∧
    tx_count (mem_of s') = tx_count (mem_of s) - 1 ∧
    ((r = Ok () ∧ conflict tx s = false ∧ ∀ k, view contents s' k
        = match btree_get k (write_buf_or_init tx) with Some v => v | None => view contents s k end) ∨
     (r = Err RepeatedWrite ∧ conflict tx s = true ∧ ∀ k, view contents s' k = view contents s k)).
Proof.
  intros Hk Hseq Hs Hne. destruct (transaction_commit_ok contents tx s Hk Hseq Hne)
    as (s' & -> & Hk' & _ & _ & Htx & _ & Hv).
  eexists _, s'. split; [done|]. split_and!; [done..|].
  destruct (conflict tx s); [by right|left]. split_and!; [done..|]. intros k.
  by rewrite Hv, batch_get_sorted.
Qed.
End tx_laws.
