(* ===== verification/MvccIter.v ===== *)
(** * The iterator of a transaction yields its snapshot

    From a lower bound on, the iterator yields, in key order and once each, the keys in
    range with what the transaction sees of them, deletions included.  Without a lower
    bound the iterators of the version are left out. *)

From S2P Require Import Prelude Std Crates Block Iterator Io Log Config MemTable Scope BTreeTable Version VersionIter Status Compactor.
From S2P Require Import CompactorCorrect Storage StorageCorrect StorageRefine Mvcc MvccCorrect.
From Stdlib Require Import ZArith Lia Strings.Byte Strings.String.
From stdpp Require Import base list gmap sorting relations.

Set Default Goal Selector "!".
Open Scope nat_scope.

(** ** The buffers *)

Lemma buf_iter_yields l n : iter_yields {| bf_inner := l; bf_pos := n |} (drop n l).
Proof.
  remember (length l - n) as m eqn:Hm. revert n Hm. induction m as [|m IH]; intros n Hm.
  - rewrite drop_ge by lia. cbn. unfold buf_iter_try_next, buf_iter_valid.
    rewrite bool_decide_eq_false_2 by (cbn; lia). eauto.
  - destruct (lookup_lt_is_Some_2 l n) as [x Hx]; [lia|]. rewrite (drop_S _ _ _ Hx). cbn [iter_yields].
    exists {| bf_inner := l; bf_pos := n + 1 |}. split.
    + cbn. unfold buf_iter_try_next, buf_iter_valid. rewrite bool_decide_eq_true_2 by (cbn; lia).
      cbn [bf_inner bf_pos]. by rewrite Hx.
    + rewrite Nat.add_1_r. apply IH. lia.
Qed.

Lemma range_iter_yields l : iter_yields {| rg_iter := l |} l.
Proof. induction l as [|x l IH]; cbn; eauto. Qed.

(** ** The iterators of the version, after the seek *)

Section disk.
Context {T : Type} {TB : Table T}.

(** What is left of a run once everything below a key may be gone. *)
Definition cut_at (key : bytes) (d d' : list KeyValue) : Prop :=
  ksorted d' ∧ ∀ k, le_b key k = true → btree_get k d' = btree_get k d.

Lemma seek_cut_at key d pre :
  ksorted d → seek_overrun (SeekBackward key) d pre → cut_at key d (pre ++ seek_range (SeekBackward key) d).
Proof.
  intros Hs [Hpre [l Hl]].
  assert (ksorted (pre ++ seek_range (SeekBackward key) d)) as Hs'.
  { rewrite Hl in Hs. by apply ksorted_app in Hs as (_ & ? & _). }
  split; [done|]. intros k Hk. rewrite btree_get_app by done.
  assert (btree_get k pre = None) as ->.
  { apply ksorted_app in Hs' as (Hp & _ & _). apply btree_get_None; [done|]. intros v Hv%Hpre. cbn in Hv.
    apply (cmp_lt_irrefl k). by eapply cmp_lt_le_trans. }
  pose proof (btree_get_filter (λ k, le_b key k = true) d k Hs) as Hf. by rewrite decide_True in Hf.
Qed.

Lemma seek_disk_runs key (its : list (table_iter_state + LevelIter T)) ds :
  Forall2 run_iter its ds →
  ∃ its' ds', res_mapM (seek_disk key) its = Ok its' ∧ Forall2 iter_yields its' ds' ∧ Forall2 (cut_at key) ds ds'.
Proof.
  induction 1 as [|it d its ds [Hs _ Hseek] _ (its' & ds' & Hm & Hy & Hc)]; [by exists [], []|].
  destruct (Hseek (SeekBackward key)) as (it' & pre & Hsk & Hy' & Hov).
  exists (inr (inr it') :: its'), ((pre ++ seek_range (SeekBackward key) d) :: ds').
  cbn [res_mapM]. unfold seek_disk at 1. rewrite Hsk. cbn [res_bind]. rewrite Hm. split_and!; [done|..].
  - constructor; [|done]. by apply sum_iter_yields_r, sum_iter_yields_r.
  - constructor; [|done]. by apply seek_cut_at.
Qed.

Lemma cut_at_first key ds ds' k :
  Forall2 (cut_at key) ds ds' → le_b key k = true →
  first_some (btree_get k) ds' = first_some (btree_get k) ds.
Proof.
  intros Hc Hk. induction Hc as [|d d' ds ds' [_ Hd] _ IH]; [done|]. cbn [first_some]. by rewrite Hd, IH.
Qed.

(** ** The range *)

Abbreviation TxIter := (RangeIter + (BufIter + (table_iter_state + LevelIter T)))%type.

Lemma reached_min_above min (e : KeyValue) : reached_min min (Some e) = above min e.1.
Proof.
  destruct min as [k|k|]; cbn; [destruct (le_b k e.1) eqn:E|destruct (lt_b k e.1) eqn:E|done].
  - apply lt_b_false in E. by rewrite E.
  - apply le_b_false, lt_b_true in E. by rewrite E.
  - apply lt_b_true, le_b_false in E. by rewrite E.
  - apply lt_b_false in E. by rewrite E.
Qed.

Lemma within_max_below max (e : KeyValue) : within_max max (Some e) = if below max e.1 then Some e else None.
Proof. by destruct max. Qed.

(** Above a lower bound the keys stay above it; below an upper bound, what is not stays
    so. *)
Lemma above_mono min (x y : bytes) : above min x = true → cmp x y = Lt → above min y = true.
Proof.
  destruct min as [k|k|]; cbn; [| |done].
  - intros Hx Hy. apply cmp_lt_le. by eapply cmp_le_lt_trans.
  - rewrite !lt_b_true. intros. by eapply cmp_lt_trans.
Qed.

Lemma below_mono max (x y : bytes) : below max x = false → cmp x y = Lt → below max y = false.
Proof.
  destruct max as [k|k|]; cbn; [| |done].
  - rewrite !le_b_false. intros. by eapply cmp_lt_trans.
  - rewrite !lt_b_false. intros Hx Hy. apply cmp_lt_le. by eapply cmp_le_lt_trans.
Qed.

Abbreviation tx_yields fuel it l := (@iter_yields _ _ (@transaction_iter_iter T TB fuel) it l).

Definition mk_iter (inner : MergingIter TxIter) buf min max over inited : TransactionIter T :=
  {| tri_inner := inner; tri_mem_buf := buf; tri_min := min; tri_max := max; tri_is_overed := over;
     tri_is_inited := inited |}.

Definition is_over (item : option KeyValue) : bool := match item with None => true | Some _ => false end.

(** A call: the next item, the skipping before the first one, and the upper bound. *)
Lemma tx_step fuel inner buf min max inited item inner' :
  (let? (item0, inner0) := try_next inner in
   if inited : bool then Ok (item0, inner0) else skip_loop fuel min item0 inner0) = Ok (item, inner') →
  transaction_iter_try_next fuel (mk_iter inner buf min max false inited)
  = Ok (within_max max item, mk_iter inner' buf min max (is_over (within_max max item)) true).
Proof.
  unfold transaction_iter_try_next. cbn [mk_iter tri_is_overed tri_inner tri_is_inited tri_min tri_max tri_mem_buf].
  destruct (try_next inner) as [[item0 inner0]| |]; cbn [res_bind]; [|done..]. intros E. rewrite E. done.
Qed.

(** Once the loop has run, the items up to the upper bound. *)
Lemma inited_yields fuel (inner : MergingIter TxIter) buf min max M :
  ksorted M → iter_yields inner M →
  tx_yields fuel (mk_iter inner buf min max false true) (filter (λ e, below max e.1 = true) M).
Proof.
  revert inner. induction M as [|e M IH]; intros inner Hs Hy; cbn [iter_yields] in Hy.
  - destruct Hy as [inner' Hn]. eexists. refine (eq_trans (tx_step fuel inner buf min max true None inner' _) _).
    + by rewrite Hn.
    + by destruct max.
  - destruct Hy as (inner' & Hn & Hy). apply ksorted_cons_inv in Hs as [Hs Hlt].
    pose proof (tx_step fuel inner buf min max true (Some e) inner' ltac:(by rewrite Hn)) as Hstep.
    rewrite within_max_below in Hstep. rewrite filter_cons. destruct (below max e.1) eqn:E.
    + rewrite decide_True by done. eexists. split; [exact Hstep|]. by apply IH.
    + rewrite decide_False, filter_none by (done || intros x Hx Hb;
        by rewrite (below_mono max e.1 x.1 E (Hlt x Hx)) in Hb).
      by eexists.
Qed.

(** The loop skips what lies below the range. *)
Lemma skip_loop_spec fuel min (M : list KeyValue) e (inner : MergingIter TxIter) :
  ksorted (e :: M) → length M < fuel → iter_yields inner M →
  ∃ item inner', skip_loop fuel min (Some e) inner = Ok (item, inner') ∧
    match filter (λ x : KeyValue, above min x.1 = true) (e :: M) with
    | [] => item = None
    | x :: M' => item = Some x ∧ iter_yields inner' M'
    end.
Proof.
  revert e M inner. induction fuel as [|fuel IH]; intros e M inner Hs Hf Hy; [lia|].
  cbn [skip_loop]. rewrite reached_min_above, filter_cons.
  apply ksorted_cons_inv in Hs as [Hs Hlt]. destruct (above min e.1) eqn:E.
  - rewrite decide_True by done. eexists _, _. split; [done|]. split; [done|].
    rewrite filter_all; [done|]. intros x Hx. by apply (above_mono min e.1), Hlt.
  - rewrite decide_False by done. destruct M as [|e' M]; cbn [iter_yields] in Hy.
    + destruct Hy as [inner' ->]. cbn [res_bind]. exists None, inner'. split; [|done].
      destruct fuel; cbn; by destruct min.
    + destruct Hy as (inner' & -> & Hy). cbn [res_bind]. apply IH; [done|cbn in *; lia|done].
Qed.

(** The whole iterator: the items in range. *)
Lemma mk_iter_yields fuel (inner : MergingIter TxIter) buf min max M :
  ksorted M → iter_yields inner M → length M < fuel →
  tx_yields fuel (mk_iter inner buf min max false false) (filter (λ e, in_range min max e.1 = true) M).
Proof.
  intros Hs Hy Hf.
  assert (filter (λ e : KeyValue, in_range min max e.1 = true) M
    = filter (λ e : KeyValue, below max e.1 = true) (filter (λ e : KeyValue, above min e.1 = true) M)) as ->.
  { rewrite list_filter_filter. apply list_filter_iff. intros x. unfold in_range. rewrite andb_true_iff. tauto. }
  assert (∃ item inner', (let? (item0, inner0) := try_next inner in
      if false then Ok (item0, inner0) else skip_loop fuel min item0 inner0) = Ok (item, inner') ∧
    match filter (λ x : KeyValue, above min x.1 = true) M with
    | [] => item = None
    | x :: M' => item = Some x ∧ iter_yields inner' M'
    end) as (item & inner' & Hskip & Hitem).
  { destruct M as [|e M]; cbn [iter_yields] in Hy.
    - destruct Hy as [inner' ->]. cbn [res_bind]. exists None, inner'. split; [|done].
      destruct fuel; cbn; by destruct min.
    - destruct Hy as (inner' & -> & Hy). cbn [res_bind]. apply skip_loop_spec; [done|cbn in *; lia|done]. }
  pose proof (tx_step fuel inner buf min max false item inner' Hskip) as Hstep.
  pose proof (ksorted_filter (λ e : KeyValue, above min e.1 = true) M Hs) as Hs'.
  destruct (filter (λ x : KeyValue, above min x.1 = true) M) as [|x M'] eqn:EM.
  - subst item. cbn. eexists. etrans; [exact Hstep|]. by destruct max.
  - destruct Hitem as [-> Hy']. rewrite within_max_below in Hstep.
    apply ksorted_cons_inv in Hs' as [Hs' Hlt]. rewrite filter_cons. destruct (below max x.1) eqn:E.
    + rewrite decide_True by done. eexists. split; [exact Hstep|]. by apply inited_yields.
    + rewrite decide_False, filter_none by (done || intros y Hy1 Hb;
        by rewrite (below_mono max x.1 y.1 E (Hlt y Hy1)) in Hb).
      by eexists.
Qed.
End disk.

(** ** The snapshot in range *)

Section tx_iter.
Context {SM : SkipMapOps InternalKey (option bytes)} {SML : SkipMapLaws InternalKey (option bytes)}.
Context {T : Type} {TB : Table T}.

Abbreviation mem_of s := (so_mem_table (ks_inner s)).

Lemma in_range_above (min max : Bound bytes) (k key : bytes) :
  min = Included key ∨ min = Excluded key → in_range min max k = true → le_b key k = true.
Proof.
  intros [-> | ->]; unfold in_range; cbn; intros [H _]%andb_true_iff; [done|]. by apply cmp_lt_le, lt_b_true.
Qed.

Lemma btree_get_range (lo hi : Bound bytes) (m : list KeyValue) k :
  ksorted m → btree_get k (btree_range lo hi m) = if in_range lo hi k then btree_get k m else None.
Proof.
  intros Hs. etrans; [exact (btree_get_filter (λ k, in_range lo hi k = true) m k Hs)|].
  cbn beta. case_decide as E; [by rewrite E|]. by destruct (in_range lo hi k).
Qed.

(** The runs the iterator merges, and what they say of a key in range. *)
Lemma transaction_iter_runs contents tx (s : KipStorage T) min max key :
  mem_wf (mem_of s) (so_counters (ks_inner s)) →
  version_iterable (store_get (ks_inner s)) contents (tx_version tx) →
  ksorted (write_buf_or_init tx) → range_panics min max = false → min = Included key ∨ min = Excluded key →
  ∃ m buf M, transaction_iter min max tx s = Ok (mk_iter m buf min max false false) ∧ iter_yields m M ∧
    ksorted M ∧ ∀ k, in_range min max k = true → btree_get k M
      = match btree_get k (write_buf_or_init tx) with
        | Some v => Some v
        | None => match table_view (mem_of s) k (up_to (tx_seq_id tx)) with
                  | Some v => Some v
                  | None => first_some (scope_find contents k) (iterated_tables (tx_version tx))
                  end
        end.
Proof.
  intros Hwf Hv Hbuf Hpanic Hmin.
  destruct (range_scan_spec (mem_of s) _ min max (Some (tx_seq_id tx)) Hwf) as (buf & Hscan & Hsb & Hgb).
  destruct (merging_with_version_runs (store_get (ks_inner s)) contents (tx_version tx) Hv) as (its & Hits & Hruns).
  destruct (seek_disk_runs key its _ Hruns) as (its' & ds & Hsk & Hyd & Hcut).
  set (W := btree_range min max (write_buf_or_init tx)).
  assert (ksorted W) as HsW by (by apply ksorted_filter).
  assert (∀ k, in_range min max k = true → btree_get k W = btree_get k (write_buf_or_init tx)) as HgW.
  { intros k Hk. unfold W. by rewrite btree_get_range, Hk. }
  set (wits := match tx_write_buf tx with Some _ => [inl {| rg_iter := W |}] | None => [] end
    : list (RangeIter + (BufIter + (table_iter_state + LevelIter T)))).
  set (wls := match tx_write_buf tx with Some _ => [W] | None => [] end).
  assert (Forall2 iter_yields wits wls ∧ Forall (λ l, ksorted l) wls ∧
    ∀ k, in_range min max k = true → first_some (btree_get k) wls = btree_get k (write_buf_or_init tx))
    as (Hyw & Hsw & Hgw).
  { unfold wits, wls, W, write_buf_or_init in *. destruct (tx_write_buf tx) as [wb|]; [|by split_and!].
    split_and!; [|by repeat constructor|].
    - repeat constructor. apply sum_iter_yields_l, range_iter_yields.
    - intros k Hk. cbn [first_some]. rewrite HgW by done. by destruct (btree_get k _). }
  assert (Forall (λ l, ksorted l) (wls ++ [buf] ++ ds)) as Hall.
  { apply Forall_app. split; [done|]. apply Forall_app. split; [by repeat constructor|].
    clear -Hcut. induction Hcut as [|d d' ? ? [? _] _ IH]; by constructor. }
  destruct (merging_new_yields (wits ++ [inr (inl {| bf_inner := buf; bf_pos := 0 |})] ++ its')
    (wls ++ [buf] ++ ds)) as (m & Hm & Hy).
  { exact Hall. }
  { apply Forall2_app; [done|]. apply Forall2_app; [|done]. repeat constructor.
    apply sum_iter_yields_r, sum_iter_yields_l, (buf_iter_yields buf 0). }
  exists m, buf, (merge_spec (wls ++ [buf] ++ ds)). split_and!; [|done|apply merge_spec_sorted|].
  - unfold transaction_iter.
    assert (match tx_write_buf tx with
            | Some wb => let? range := map_range min max wb in Ok [inl {| rg_iter := range |}]
            | None => Ok []
            end = Ok wits) as ->.
    { unfold wits, W, write_buf_or_init, map_range. rewrite Hpanic. by destruct (tx_write_buf tx). }
    cbn [res_bind]. unfold mem_table. rewrite Hscan. cbn [res_bind]. rewrite Hits. cbn [res_bind].
    destruct Hmin as [-> | ->]; rewrite Hsk; cbn [res_bind]; by rewrite Hm.
  - intros k Hk. rewrite merge_spec_get, !first_some_app, Hgw by done. cbn [first_some].
    rewrite Hgb, Hk. change (seq_visible (Some (tx_seq_id tx))) with (up_to (tx_seq_id tx)).
    rewrite (cut_at_first key _ ds k Hcut), (version_runs_get (store_get (ks_inner s)))
      by (done || by eapply in_range_above).
    destruct (btree_get k _); [done|]. by destruct (table_view _ k _).
Qed.

(** Successive calls of the iterator's [try_next] yield [l], then the end. *)
Definition tx_iter_yields (fuel : nat) (it : TransactionIter T) (l : list KeyValue) : Prop :=
  @iter_yields _ _ (transaction_iter_iter fuel) it l.

(** C11: an iterator of a transaction over a range with a lower bound, whose end is not before
    its start, and over a version whose last level is empty (the iterator leaves that level
    out) yields, in key order and once each, exactly the keys in range that the transaction
    sees, with the value or the deletion it sees: its own write, else the version of its
    sequence number, else its version of the disk. *)
Theorem transaction_iter_correct contents tx (s : KipStorage T) min max :
  mem_wf (mem_of s) (so_counters (ks_inner s)) →
  version_iterable (store_get (ks_inner s)) contents (tx_version tx) → level_of (tx_version tx) 3 = [] →
  ksorted (write_buf_or_init tx) → range_panics min max = false → min ≠ Unbounded →
  ∃ it out n, transaction_iter min max tx s = Ok it ∧ ksorted out ∧
    (∀ fuel, n < fuel → tx_iter_yields fuel it out) ∧
    ∀ k, btree_get k out = if in_range min max k then tx_find contents tx s k else None.
Proof.
  intros Hwf Hv H3 Hbuf Hpanic Hmin.
  assert (∃ key, min = Included key ∨ min = Excluded key) as [key Hkey].
  { destruct min as [key|key|]; [exists key; by left|exists key; by right|done]. }
  destruct (transaction_iter_runs contents tx s min max key Hwf Hv Hbuf Hpanic Hkey)
    as (m & buf & M & Hit & Hy & Hs & Hg).
  exists (mk_iter m buf min max false false), (btree_range min max M), (length M).
  split_and!; [done|by apply ksorted_filter| |].
  - intros fuel Hf. by apply mk_iter_yields.
  - intros k. rewrite btree_get_range by done. destruct (in_range min max k) eqn:E; [|done]. rewrite Hg by done.
    unfold tx_find, snapshot. by rewrite iterated_tables_all by (done || apply Hv).
Qed.
End tx_iter.

(** ** Witnesses *)

Module MvccSample.
Import Reference CompactorSample StorageSample.

Definition tx0 : Transaction := (transaction_new Optimistic start).1.
Definition begun : KipStorage BTreeTable := (transaction_new Optimistic start).2.

(** Another transaction begins and commits a write of one key, its draw and its insertion
    two steps. *)
Definition other_batch : list KeyValue := [([x03], Some [xaa])].
Definition begun2 : KipStorage BTreeTable := (transaction_new Optimistic begun).2.
Definition drawn2 : KipStorage BTreeTable := (commit_draw begun2).2.
Definition number2 : Z := (commit_draw begun2).1.
Definition inserted2 : KipStorage BTreeTable := (commit_insert other_batch number2 drawn2).2.
Definition written : KipStorage BTreeTable := transaction_drop inserted2.

Lemma begun_new : transaction_new Optimistic start = (tx0, begun).
Proof. reflexivity. Qed.

Lemma drawn_run : other_run (mkOthers begun []) 2 [] (mkOthers drawn2 [number2]).
Proof.
  apply (others_cons _ [] (mkOthers begun2 []) 1 []); [apply other_begin|].
  apply (others_cons _ [] (mkOthers drawn2 [number2]) 0 []); [|constructor].
  apply other_draw. apply surjective_pairing.
Qed.

Lemma written_run : other_run (mkOthers begun []) 3 [] (mkOthers written []).
Proof.
  apply (others_cons _ [] (mkOthers begun2 []) 2 []); [apply other_begin|].
  apply (others_cons _ [] (mkOthers drawn2 [number2]) 1 []); [apply other_draw, surjective_pairing|].
  apply (others_cons _ [] (mkOthers written []) 0 []); [|constructor].
  apply (other_insert other_batch number2 drawn2 (commit_insert other_batch number2 drawn2).1 inserted2 [] []).
  - by repeat constructor.
  - vm_compute. lia.
  - apply surjective_pairing.
Qed.

(** The key is overwritten after the transaction began; it still reads the old value. *)
Lemma snapshot_isolation_witness :
  ∃ s3, transaction_get [x03] (set_write_buf tx0 None) written = (Ok (Some [x31]), s3).
Proof.
  apply (snapshot_isolation (demo_contents data2) start Optimistic tx0 begun 3 [] written [] None [x03]).
  - exact start_inv.
  - exact begun_new.
  - exact written_run.
  - constructor.
  - vm_compute. discriminate.
Defined.

Lemma first_committer_wins_witness :
  commit_check (set_write_buf tx0 (Some [([x03], Some [xbb])])) written = Err RepeatedWrite ∧
  commit_body (set_write_buf tx0 (Some [([x03], Some [xbb])])) written = (Err RepeatedWrite, written).
Proof.
  apply (first_committer_wins (demo_contents data2) start Optimistic tx0 begun 2 [] (mkOthers drawn2 [number2])
    (mkOthers written []) 0 [] written [] _ [x03]).
  - exact start_inv.
  - exact begun_new.
  - exact drawn_run.
  - constructor.
  - apply (writes_insert [x03] other_batch number2 drawn2 (commit_insert other_batch number2 drawn2).1 inserted2 [] []).
    + by repeat constructor.
    + vm_compute. lia.
    + apply surjective_pairing.
    + by left.
  - constructor.
  - constructor.
  - vm_compute. discriminate.
  - by left.
Defined.

Definition tx1 : Transaction := transaction_set [x07] [x77] (transaction_set [x03] [xbb] tx0).

Lemma begun_inv : kip_inv (demo_contents data2) begun.
Proof.
  apply (transaction_new_ok (demo_contents data2) start Optimistic tx0 begun start_inv); [vm_compute; reflexivity|].
  exact begun_new.
Qed.

(** Two transactions on the same state that write the same key. *)
Lemma racing_commits_witness :
  let tx2 := transaction_set [x03] [xcc] tx0 in
  ∃ n1 n2 s1 s2 s3 s4,
    commit_check tx1 begun = Ok (tx_write_buf tx1) ∧ commit_check tx2 begun = Ok (tx_write_buf tx2) ∧
    commit_draw begun = (n1, s1) ∧ commit_draw s1 = (n2, s2) ∧
    commit_insert (write_buf_or_init tx1) n1 s2 = (Ok (), s3) ∧
    commit_insert (write_buf_or_init tx2) n2 s3 = (Ok (), s4) ∧
    view (demo_contents data2) s4 [x03] = Some [xcc] ∧ commit_check tx2 s3 = Err RepeatedWrite.
Proof.
  apply (racing_commits_both_succeed (demo_contents data2) begun tx1 (transaction_set [x03] [xcc] tx0)
    (write_buf_or_init tx1) (write_buf_or_init (transaction_set [x03] [xcc] tx0)) [x03] (Some [xcc])).
  - exact begun_inv.
  - vm_compute. reflexivity.
  - reflexivity.
  - reflexivity.
  - repeat constructor; done.
  - repeat constructor; done.
  - apply btree_insert_sorted. constructor.
  - vm_compute. reflexivity.
  - vm_compute. reflexivity.
  - vm_compute. reflexivity.
  - by left.
  - vm_compute. reflexivity.
Defined.

Lemma snapshot_changes_witness :
  ∃ s3, commit_insert other_batch (commit_draw start).1 (transaction_new Optimistic (commit_draw start).2).2 = (Ok (), s3) ∧
    (transaction_get [x03] (transaction_new Optimistic (commit_draw start).2).1
       (transaction_new Optimistic (commit_draw start).2).2).1 = Ok (Some [x31]) ∧
    (transaction_get [x03] (transaction_new Optimistic (commit_draw start).2).1 s3).1 = Ok (Some [xaa]).
Proof.
  apply (snapshot_changes_under_commit (demo_contents data2) start Optimistic other_batch (commit_draw start).1
    (commit_draw start).2 (transaction_new Optimistic (commit_draw start).2).1
    (transaction_new Optimistic (commit_draw start).2).2 [x03] (Some [xaa])).
  - exact start_inv.
  - vm_compute. reflexivity.
  - by repeat constructor.
  - by repeat constructor.
  - reflexivity.
  - apply surjective_pairing.
  - apply surjective_pairing.
Defined.

Lemma commit_atomic_witness :
  ∃ r s', transaction_commit tx1 begun = (r, s') ∧ tx_count (so_mem_table (ks_inner s')) = 0.
Proof.
  destruct (commit_atomic (demo_contents data2) tx1 begun begun_inv) as (r & s' & Hc & _ & Htx & _).
  - vm_compute. reflexivity.
  - apply btree_insert_sorted, btree_insert_sorted. constructor.
  - repeat constructor; done.
  - exists r, s'. split; [exact Hc|]. rewrite Htx. reflexivity.
Defined.

Lemma begun_iterable :
  version_iterable (store_get (ks_inner begun)) (demo_contents data2) (tx_version tx1).
Proof.
  assert (demo_version data2 [0; 0]%Z (tx_version tx1)) as Hv.
  { apply (bool_decide_unpack _). vm_compute. exact I. }
  apply (demo_version_iterable 1) in Hv as [Hlen Hs Hi].
  - split; [done..|]. intros l s Hl Hin. destruct (Hi l s Hl Hin) as [Hw Hks (t & Ht & Hseek) Hne].
    split; [done..| |done]. exists t. split; [|done]. rewrite <- Ht. unfold store_get, demo_get. cbn.
    unfold tables. rewrite map_lookup_imap. by destruct (data2 !! sc_gen s).
  - apply (bool_decide_unpack _). vm_compute. exact I.
Qed.

Lemma transaction_iter_correct_witness :
  ∃ it out, transaction_iter (Included [x02]) (Excluded [x07]) tx1 begun = Ok it ∧ ksorted out ∧
    btree_get [x03] out = Some (Some [xbb]) ∧ btree_get [x06] out = Some (Some [x62]) ∧
    btree_get [x07] out = None.
Proof.
  destruct (transaction_iter_correct (demo_contents data2) tx1 begun (Included [x02]) (Excluded [x07]))
    as (it & out & n & Hit & Hs & _ & Hg).
  - apply begun_inv.
  - exact begun_iterable.
  - reflexivity.
  - apply btree_insert_sorted, btree_insert_sorted. constructor.
  - reflexivity.
  - done.
  - exists it, out. split; [exact Hit|]. split; [exact Hs|]. rewrite !Hg. vm_compute. done.
Defined.

Definition drain (min max : Bound bytes) (tx : Transaction) (s : KipStorage BTreeTable) : KernelResult (list KeyValue) :=
  let? it := transaction_iter min max tx s in
  @iter_drain _ _ (transaction_iter_iter 10) 10 it.

(** Without a lower bound the iterator leaves the tables on disk out: a key that a
    read of the same transaction finds is not among its items, while it is from any lower
    bound below it. *)
Theorem transaction_iter_unbounded_min :
  (transaction_get [x01] tx1 begun).1 = Ok (Some [x11]) ∧
  drain Unbounded Unbounded tx1 begun = Ok [([x03], Some [xbb]); ([x07], Some [x77])] ∧
  drain (Included []) Unbounded tx1 begun
  = Ok [([x01], Some [x11]); ([x03], Some [xbb]); ([x06], Some [x62]); ([x07], Some [x77])].
Proof. split_and!; vm_compute; reflexivity. Qed.

(** A range whose start is after its end panics once the transaction has written. *)
Remark transaction_iter_empty_range :
  drain (Included [x05]) (Excluded [x03]) tx0 begun = Ok [] ∧
  drain (Included [x05]) (Excluded [x03]) tx1 begun = Panic.
Proof. split; vm_compute; reflexivity. Qed.
End MvccSample.
