(* ===== verification/Reclaim.v ===== *)
(** * Compaction and the cleaner

    What the cleaner is told about: every version the compactor installs is announced with
    the generations its edits delete.  The cleaner is safe ([Cleaner.v]) for edits that add
    new generations only and delete nothing they keep; here the edits of flushes and
    compactions are shown to be such edits, so that the versions, the channel and the
    cleaner keep their invariant through every task of the background loop. *)

From S2P Require Import Prelude Std Crates Block Iterator Io Log Config MemTable Scope BTreeTable Version Cleaner Status Compactor.
From S2P Require Import CompactorCorrect Storage StorageCorrect StorageRefine.
From Stdlib Require Import ZArith Lia Strings.Byte Sorted.
From stdpp Require Import base list list_numbers gmap sorting.

Set Default Goal Selector "!".
Open Scope nat_scope.

Section reclaim.
Context {SM : SkipMapOps InternalKey (option bytes)} {SML : SkipMapLaws InternalKey (option bytes)}.
Context `{IE : IntegerEncoding} {IEL : IntegerEncodingLaws} {CRC : Crc32} {CRCL : Crc32Laws}.
Context {IT : Itertools} {ITL : ItertoolsLaws} {BC : Bincode (list RawEdit)}.
Context {T : Type} {TB : Table T} {BLD : TableBuilder T} {BLDL : TableBuilderLaws T}.

Abbreviation store_version st := (vs_version (so_status st)).
Abbreviation store_chan st := (vs_chan (so_status st)).
Abbreviation gen_next st := (gen_buf (so_counters st)).

(** ** The versions of a store *)

(** The versions [live], the newest of them the store's, with the channel and a cleaner;
    [used] are the generations of all tables so far. *)
Record versions_ok (st : Store T) (live : list Version) (used : list Z) (cl : Cleaner) : Prop := {
  vo_clean : clean_inv (mkCleanSys (store_version st) live used (store_chan st) cl);
  vo_current : store_version st ∈ live;
  vo_used g : g ∈ used → (g < gen_next st)%Z;
}.

(** The generations announced for deletion and not deleted yet. *)
Definition announced (st : Store T) (cl : Cleaner) : list Z :=
  all_gens (cl_del_gens cl ++ omap tag_entry (chan_queue (store_chan st))).

(** Every table belongs to the version, is announced or is deleted, but for the tables
    [gens] on their way into the version. *)
Definition covers (gens : list Z) (st : Store T) (cl : Cleaner) : Prop :=
  ∀ g, is_Some (so_tables st !! g) →
    g ∈ gens ∨ g ∈ version_gens (store_version st) ∨ g ∈ announced st cl ∨ g ∈ cl_cleaned cl.

(** The numbers of the versions installed between two stores. *)
Definition installed (v v' : Version) : list Z :=
  seqZ (version_num v + 1) (version_num v' - version_num v).

(** From [st] to [st'] versions are installed, with tables of the generations [gens] and of
    new ones. *)
Record installs (gens : list Z) (st st' : Store T) : Prop := {
  is_next : (gen_next st ≤ gen_next st')%Z;
  is_num : (version_num (store_version st) ≤ version_num (store_version st'))%Z;
  is_tables g : (g < gen_next st)%Z → g ∉ gens → so_tables st' !! g = so_tables st !! g;
  is_covers cl : covers gens st cl → covers [] st' cl;
  is_versions live used cl : versions_ok st live used cl → (∀ g, g ∈ gens → g ∉ used) →
    ∃ vs used', versions_ok st' (vs ++ live) used' cl ∧
      version_num <$> vs ≡ₚ installed (store_version st) (store_version st') ∧
      ∀ g, g ∈ used' → g ∈ used ∨ g ∈ gens ∨ (gen_next st ≤ g)%Z;
}.

(** Nothing is installed when the status stays. *)
Lemma installs_nothing (st : Store T) : installs [] st st.
Proof.
  split; [done..|]. intros live used cl Hv _. exists [], used. split_and!; [done| |by left].
  unfold installed. by rewrite Z.sub_diag.
Qed.

Lemma installs_trans gens (a b c : Store T) : installs gens a b → installs [] b c → installs gens a c.
Proof.
  intros [g1 n1 t1 c1 H1] [g2 n2 t2 c2 H2]. split; [lia|lia| |auto|].
  { intros g Hg Hn. rewrite t2 by (lia || apply not_elem_of_nil). by apply t1. }
  intros live used cl Hv Hf.
  destruct (H1 live used cl Hv Hf) as (vs1 & used1 & Hv1 & Hp1 & Hu1).
  destruct (H2 _ used1 cl Hv1) as (vs2 & used2 & Hv2 & Hp2 & Hu2); [by intros g ?%not_elem_of_nil|].
  exists (vs2 ++ vs1), used2. rewrite <- app_assoc. split_and!; [done| |].
  - rewrite fmap_app, Hp1, Hp2, Permutation_app_comm. unfold installed.
    replace (version_num (store_version c) - version_num (store_version a))%Z
      with ((version_num (store_version b) - version_num (store_version a)) +
            (version_num (store_version c) - version_num (store_version b)))%Z by lia.
    rewrite seqZ_app by lia. by replace (version_num (store_version a) + 1 +
      (version_num (store_version b) - version_num (store_version a)))%Z
      with (version_num (store_version b) + 1)%Z by lia.
  - intros g Hg. destruct (Hu2 g Hg) as [Hin|[?%not_elem_of_nil|?]]; [|done|right; right; lia].
    by apply Hu1.
Qed.

(** One application of edits. *)
Lemma installs_apply gens (st st' : Store T) es :
  version_apply (store_version st) es (store_chan st) = Ok (store_version st', store_chan st') →
  (gen_next st ≤ gen_next st')%Z →
  (∀ g, g ∈ version_gens (store_version st') → (g < gen_next st')%Z ∧
     (g ∈ version_gens (store_version st) ∨ g ∈ gens ∨ (gen_next st ≤ g)%Z)) →
  (∀ g, g ∈ edit_dels es ↔ g ∈ version_gens (store_version st) ∧ g ∉ version_gens (store_version st')) →
  (∀ g, g ∈ gens → g ∈ version_gens (store_version st')) →
  (∀ g, is_Some (so_tables st' !! g) → is_Some (so_tables st !! g) ∨ g ∈ version_gens (store_version st')) →
  (∀ g, (g < gen_next st)%Z → so_tables st' !! g = so_tables st !! g) →
  installs gens st st'.
Proof.
  intros Ha Hgen Hg Hd Hgens Ht Hkeep. pose proof (apply_announces _ _ _ _ _ Ha) as (_ & Hnum & Hch).
  split; [done|lia|by auto| |].
  { intros cl Hcov g [Hold|Hnew]%Ht; [|by right; left].
    destruct (decide (g ∈ version_gens (store_version st'))) as [Hv|Hv]; [by right; left|].
    unfold announced, all_gens. rewrite Hch. cbn [chan_queue]. rewrite omap_app. cbn [omap list_omap tag_entry].
    rewrite (app_assoc (cl_del_gens cl)), fmap_app, concat_app. cbn [fmap list_fmap concat snd]. rewrite app_nil_r, elem_of_app.
    destruct (Hcov g Hold) as [Hc|[Hc|[Hc|Hc]]]; [by destruct Hv; auto| |by auto|by auto].
    right. right. left. right. by apply Hd. }
  intros live used cl [Hc Hcur Hu] Hf.
  exists [store_version st'], (version_gens (store_version st') ++ used). split_and!.
  - split.
    + apply (inv_apply _ _ _ _ _ es _ _ Hc Hcur Ha). split.
      * intros g [_ [?|[?|Hle]]]%Hg; [by left|right; by apply Hf|]. right. intros Hin. specialize (Hu g Hin). lia.
      * intros g [_ ?]%Hd. done.
      * intros g [Hin _]%Hd. by eapply (inv_live_used _ Hc _ g Hcur).
    + by left.
    + intros g [Hin|Hin]%elem_of_app; [by apply Hg|]. specialize (Hu g Hin). lia.
  - unfold installed. replace (version_num (store_version st') - version_num (store_version st))%Z
      with 1%Z by lia. cbn. by rewrite Hnum.
  - intros g [[_ [Hin|?]]%Hg|?]%elem_of_app; [|by right|by left].
    left. by eapply (inv_live_used _ Hc _ g Hcur).
Qed.

(** ** The rounds of a compaction *)

Context (config : Config) (Hsize : (0 < cfg_sst_file_size config)%N)
        (Htypes : length (cfg_level_table_type config) = MAX_LEVEL).

(** A round that logs edits applies them to the version. *)
Lemma logged_round contents (st : Store T) level target skip over own st2 contents' slice m es st' :
  round_result config contents st level target skip over own st2 contents' slice m → es ++ own ≠ [] →
  compaction_round config st level target es skip = Ok (over, st') →
  version_apply (store_version st) (es ++ own) (store_chan st) = Ok (store_version st', store_chan st').
Proof.
  intros [Hr Hst _ _ _ _ _ _ _ _ _ _] Hne. rewrite Hr. destruct (es ++ own) as [|e l] eqn:E; [done|].
  destruct (log_and_apply _ _ _ _ _) as [[vs c]| |] eqn:Hla; [|done..]. cbn [res_bind]. intros [= <-].
  apply log_and_apply_version in Hla. by rewrite Hst in Hla.
Qed.

Lemma round_tables contents (st : Store T) level target skip over own st2 contents' slice m es over' st' :
  round_result config contents st level target skip over own st2 contents' slice m →
  compaction_round config st level target es skip = Ok (over', st') →
  (∀ g, is_Some (so_tables st' !! g) → is_Some (so_tables st !! g) ∨ g ∈ sc_gen <$> concat slice) ∧
  ∀ g, (g < gen_next st)%Z → so_tables st' !! g = so_tables st !! g.
Proof.
  intros Hrr. rewrite (rr_round _ _ _ _ _ _ _ _ _ _ _ _ Hrr). intros Hround.
  assert (so_tables st' = so_tables st2) as ->;
    [|split; [apply (rr_created _ _ _ _ _ _ _ _ _ _ _ _ Hrr)|apply (rr_tables _ _ _ _ _ _ _ _ _ _ _ _ Hrr)]].
  destruct (es ++ own); [by injection Hround as _ <-|].
  destruct (log_and_apply _ _ _ _ _) as [[vs c]| |]; [|done..]. by injection Hround as _ <-.
Qed.

Lemma round_installs contents (st : Store T) level target skip over st' :
  store_inv contents st → round_ok config contents st level target skip → level < MAX_LEVEL →
  compaction_round config st level target [] skip = Ok (over, st') → installs [] st st'.
Proof.
  intros Hinv Hok Hl Hround.
  destruct (compaction_round_result config contents st level target skip Hinv Hok Hsize Hl Htypes)
    as (over1 & own & st2 & contents' & slice & m & Hrr).
  destruct (compaction_round_spec config contents st level target skip Hinv Hok Hsize Hl Htypes)
    as (over2 & contents2 & st'' & Hr2 & Hi & Hs & _).
  rewrite Hround in Hr2. injection Hr2 as <- <-.
  pose proof (rr_round _ _ _ _ _ _ _ _ _ _ _ _ Hrr []) as Hr. rewrite Hround in Hr. cbn [app] in Hr.
  destruct own as [|e own0] eqn:Eown; [|rewrite <- Eown in *].
  { destruct over1; [|by destruct (rr_level_0 _ _ _ _ _ _ _ _ _ _ _ _ Hrr eq_refl) as (? & ? & ? & ? & ? & ? & ? & ? & _)].
    destruct (rr_own _ _ _ _ _ _ _ _ _ _ _ _ Hrr eq_refl) as [_ ->]. injection Hr as _ ->. apply installs_nothing. }
  assert (over1 = over) as ->.
  { rewrite Eown in Hr. destruct (log_and_apply _ _ _ _ _) as [[vs c]| |]; [|done..]. by injection Hr as <- _. }
  pose proof (logged_round _ _ _ _ _ _ _ _ _ _ _ [] _ Hrr ltac:(by rewrite Eown) Hround) as Ha. cbn [app] in Ha.
  pose proof (proj1 (version_apply_levels _ _ _ _ _) Ha) as (_ & Hlev & _).
  rewrite (rr_levels _ _ _ _ _ _ _ _ _ _ _ _ Hrr) in Hlev. injection Hlev as Hlev.
  apply (installs_apply [] st st' own Ha); [apply Hs|..].
  - intros g Hg. split; [by apply (si_fresh _ _ Hi)|]. destruct (ss_gens _ _ Hs g Hg); auto.
  - intros g. rewrite (rr_dels _ _ _ _ _ _ _ _ _ _ _ _ Hrr g). unfold version_gens at 3. by rewrite <- Hlev.
  - by intros g ?%not_elem_of_nil.
  - intros g. unfold version_gens. rewrite <- Hlev. apply (round_tables _ _ _ _ _ _ _ _ _ _ _ _ _ _ Hrr Hround).
  - apply (round_tables _ _ _ _ _ _ _ _ _ _ _ _ _ _ Hrr Hround).
Qed.

(** The first round of a flush. *)
Lemma minor_round_installs contents (st : Store T) scope meta over st' :
  store_inv contents st → installable contents st scope meta → round_ok config contents st LEVEL_0 scope false →
  compaction_round config st LEVEL_0 scope [NewFile ([scope], 0) 0 meta] false = Ok (over, st') →
  installs [sc_gen scope] st st'.
Proof.
  intros Hinv Hin Hok Hround. set (es := [NewFile ([scope], 0) 0 meta]) in *.
  destruct (compaction_round_result config contents st LEVEL_0 scope false Hinv Hok Hsize
    ltac:(unfold LEVEL_0, MAX_LEVEL; lia) Htypes) as (over1 & own & st2 & contents' & slice & m & Hrr).
  destruct (minor_round config Hsize Htypes contents st scope meta Hinv Hin Hok)
    as (over2 & contents2 & st'' & Hr2 & Hi & Hs & _).
  fold es in Hr2. rewrite Hround in Hr2. injection Hr2 as <- <-.
  assert (over1 = over) as ->.
  { pose proof (rr_round _ _ _ _ _ _ _ _ _ _ _ _ Hrr es) as Hr. rewrite Hround in Hr. cbn [es app] in Hr.
    destruct (log_and_apply _ _ _ _ _) as [[vs c]| |]; [|done..]. by injection Hr as <- _. }
  pose proof (logged_round _ _ _ _ _ _ _ _ _ _ _ es _ Hrr ltac:(done) Hround) as Ha.
  pose proof (proj1 (version_apply_levels _ _ _ _ _) Ha) as (_ & Hlev & _).
  pose proof (in_fresh _ _ _ _ Hin) as Hfresh.
  pose proof (round_commutes config Hsize Htypes _ _ _ _ _ _ _ _ _ _ _ _ Hrr Hfresh) as Hcomm.
  cbn [es app res_foldM] in Hlev. rewrite levels_edit_install in Hlev by apply (si_wf _ _ Hinv).
  cbn [res_bind] in Hlev.
  rewrite (levels_edits_push scope own _ slice Hcomm (rr_levels _ _ _ _ _ _ _ _ _ _ _ _ Hrr)) in Hlev.
  injection Hlev as Hlev.
  assert (∀ g, g ∈ version_gens (store_version st') ↔ g ∈ sc_gen scope :: (sc_gen <$> concat slice)) as Hgens.
  { intros g. unfold version_gens. rewrite <- Hlev, push_concat, fmap_cons; [done|].
    rewrite <- (length_alter (λ l, l ++ [scope]) slice 0), Hlev. apply (si_wf _ _ Hi). }
  apply (installs_apply _ st st' (es ++ own) Ha); [apply Hs|..].
  - intros g Hg. split; [by apply (si_fresh _ _ Hi)|]. destruct (gr_gens _ _ _ Hs g Hg) as [?|[->|?]]; [auto| |auto].
    right. left. by left.
  - intros g. rewrite Hgens. pose proof (rr_dels _ _ _ _ _ _ _ _ _ _ _ _ Hrr g) as Hd.
    change (edit_dels (es ++ own)) with (edit_dels own). rewrite elem_of_cons. naive_solver.
  - intros g ->%list_elem_of_singleton. apply Hgens. by left.
  - intros g Hg. rewrite Hgens, elem_of_cons.
    destruct (proj1 (round_tables _ _ _ _ _ _ _ _ _ _ _ _ _ _ Hrr Hround) g Hg); auto.
  - apply (round_tables _ _ _ _ _ _ _ _ _ _ _ _ _ _ Hrr Hround).
Qed.

Lemma major_loop_installs fuel contents (st : Store T) level target skip st' :
  store_inv contents st → rounds_ok config fuel st level target [] skip →
  major_loop fuel config st level target [] skip = Ok st' → installs [] st st'.
Proof.
  revert contents st level skip. induction fuel as [|fuel IH]; intros contents st level skip Hinv Hok;
    [intros [= <-]; apply installs_nothing|].
  cbn [major_loop rounds_ok] in *. case_decide as Hl; [|intros [= <-]; apply installs_nothing].
  destruct (Hok Hl) as [Hsel Hnext]. specialize (Hsel _ Hinv).
  destruct (compaction_round_spec config contents st level target skip Hinv Hsel Hsize Hl Htypes)
    as (over & contents1 & st1 & Hr & Hi1 & _).
  pose proof (round_installs _ _ _ _ _ _ _ Hinv Hsel Hl Hr) as H1.
  rewrite Hr. cbn [res_bind]. destruct over; [by intros [= <-]|]. intros Hloop.
  eapply installs_trans; [done|]. by apply (IH contents1 st1 (level + 1) false Hi1 (Hnext st1 Hr)).
Qed.

Lemma loader_create_other (st : Store T) gen data level tp scope meta st' g :
  loader_create st gen data level tp = Ok (scope, meta, st') → g ≠ gen → so_tables st' !! g = so_tables st !! g.
Proof.
  unfold loader_create. destruct (from_sorted_vec_data _ _ _) as [[? ?]| |]; [|done..]. cbn [res_bind].
  destruct (build_table _ _ _ _); [|done..]. cbn [res_bind]. intros [= _ _ <-] Hne. by apply lookup_insert_ne.
Qed.

Lemma minor_compaction_installs contents (st : Store T) gen values st' :
  store_inv contents st → gen_ok st gen → ksorted values → values ≠ [] → (∀ e, e ∈ values → e.1 ≠ []) →
  (∀ tp, cfg_level_table_type config !! LEVEL_0 = Some tp → buildable tp gen values LEVEL_0) →
  (∀ tp scope meta st1, loader_create st gen values LEVEL_0 tp = Ok (scope, meta, st1) →
     rounds_ok config (S MAX_LEVEL) st1 LEVEL_0 scope [NewFile ([scope], 0) 0 meta] false) →
  minor_compaction config st gen values = Ok st' → installs [gen] st st'.
Proof.
  intros Hinv Hgen Hs Hne Hkeys Hbuild Hrounds. unfold minor_compaction.
  destruct values as [|e vs] eqn:Ev; [done|]. rewrite <- Ev in *.
  destruct (cfg_level_table_type config !! LEVEL_0) as [tp|] eqn:Htp; [|done]. cbn [or_panic res_bind].
  destruct (loader_create_ok config Hsize Htypes contents st gen values tp Hinv Hgen Hs Hne Hkeys (Hbuild tp eq_refl))
    as (scope & meta & st1 & Hlc & Hg & Hst & _ & Hcnt & Hi1 & Hin).
  specialize (Hrounds tp scope meta st1 Hlc). rewrite Hlc. cbn [res_bind].
  unfold major_compaction. case_decide; [done|]. cbn [major_loop rounds_ok] in *.
  rewrite decide_True by (unfold LEVEL_0, MAX_LEVEL; lia).
  destruct Hrounds as [Hsel Hnext]; [unfold LEVEL_0, MAX_LEVEL; lia|]. specialize (Hsel _ Hi1).
  destruct (minor_round config Hsize Htypes _ st1 scope meta Hi1 Hin Hsel) as (over & contents2 & st2 & Hr & Hi2 & _).
  pose proof (minor_round_installs _ _ _ _ _ _ Hi1 Hin Hsel Hr) as H1. rewrite Hg in H1.
  assert (∀ st2, installs [gen] st1 st2 → installs [gen] st st2) as Hback.
  { intros st3 [H2 H3 Hkeep Hcv H4]. rewrite Hst, Hcnt in *. split; rewrite ?Hst; try done.
    - intros g Hlt Hng. rewrite Hkeep by done. apply (loader_create_other _ _ _ _ _ _ _ _ g Hlc). set_solver.
    - intros cl Hcov. apply Hcv. intros g. destruct (decide (g = gen)) as [->|Hne2]; [by left; left|].
      rewrite (loader_create_other _ _ _ _ _ _ _ _ g Hlc Hne2). intros Hin2. unfold announced. rewrite Hst. by apply Hcov.
    - intros live used cl Hv. apply H4. destruct Hv. split; rewrite ?Hst, ?Hcnt; done. }
  apply Hback in H1. rewrite Hr. cbn [res_bind]. destruct over; [by intros [= <-]|].
  intros Hloop. eapply installs_trans; [done|].
  by eapply (major_loop_installs _ contents2 st2 (LEVEL_0 + 1)), Hloop; auto.
Qed.

(** ** The storage *)

Abbreviation log_gen st := ((ti_log_writer (mt_inner (so_mem_table st))).2).

(** The log in use belongs to no table, and no table is forgotten. *)
Record held (st : Store T) (live : list Version) (used : list Z) (cl : Cleaner) : Prop := {
  he_versions : versions_ok st live used cl;
  he_log : log_gen st ∉ used;
  he_covers : covers [] st cl;
}.

Definition moves (st st' : Store T) : Prop :=
  ∀ live used cl, held st live used cl →
    (∀ g, g ∈ used → so_tables st' !! g = so_tables st !! g) ∧
    ∃ vs used', held st' (vs ++ live) used' cl ∧
      version_num <$> vs ≡ₚ installed (store_version st) (store_version st').

(** States with the same versions and the same log. *)
Definition calm (st st' : Store T) : Prop :=
  so_status st' = so_status st ∧ so_tables st' = so_tables st ∧
  log_gen st' = log_gen st ∧ gen_next st' = gen_next st.

#[local] Instance calm_preorder : PreOrder calm.
Proof. split; [done|]. intros a b c (? & ? & ? & ?) (? & ? & ? & ?). split_and!; congruence. Qed.

Lemma calm_moves (st st' : Store T) : calm st st' → moves st st'.
Proof.
  intros (Hs & Ht & Hl & Hg) live used cl [[Hc Hcur Hu] Hlog Hcov]. rewrite Ht. split; [done|]. exists [], used. split.
  - split; [split|..]; rewrite ?Hs, ?Hl, ?Hg; try done. intros g. unfold announced. rewrite Hs, Ht. apply Hcov.
  - unfold installed. by rewrite Hs, Z.sub_diag.
Qed.

Lemma run_task_moves contents (st : Store T) task st' :
  store_inv contents st → mem_inv contents st → task_ok config st task →
  run_task config task st = Some (Ok st') → moves st st'.
Proof.
  intros Hinv Hmem Hok. pose proof (go_bound _ _ (mi_gen _ _ Hmem)) as Hbound.
  destruct Hok as [Hready Hok]. destruct task as [scope level|tx];
    cbn [run_task task_ready task_safe] in *.
  { rename Hready into Hl, Hok into Hr. unfold major_compaction. case_decide; [done|]. intros Hloop%(inj Some).
    destruct (major_loop_ok config Hsize Htypes _ contents st level scope true Hinv Hr)
      as (contents' & st'' & Hl2 & _ & Hs & _). rewrite Hloop in Hl2. injection Hl2 as <-.
    destruct (major_loop_installs _ _ _ _ _ _ _ Hinv Hr Hloop) as [_ _ Hkeep Hcv Hi].
    intros live used cl [Hv Hlog Hcov]. split.
    { intros g Hg. apply Hkeep; [by apply (vo_used _ _ _ _ Hv)|apply not_elem_of_nil]. } destruct (Hi live used cl Hv) as (vs & used' & Hv' & Hp & Hu);
      [by intros g ?%not_elem_of_nil|]. exists vs, used'. split; [split; [done| |by apply Hcv]|done].
    rewrite (ss_mem _ _ Hs). intros [?|[?%not_elem_of_nil|?]]%Hu; [done..|lia]. }
  destruct Hready as [Htx Htx0]. unfold check_then_compaction.
  destruct (flush_swap contents st Hmem Htx0) as [Hsw|(mem & c & Hsw & Hne & Hrest)]; rewrite Hsw.
  { cbn [res_bind]. destruct tx as [[]|]; intros [= <-]; by apply calm_moves. }
  destruct Hrest as (Hwf & Htx' & _ & _ & Hnew & _ & Hgb).
  destruct (Hok _ _ _ _ Hsw) as [Hb Hr]. pose proof (flush_values_ok _ _ Hmem) as (Hs & Hkeys).
  destruct (latest _) as [|e l] eqn:El; [done|]. rewrite <- El in *.
  set (st1 := {| so_mem_table := mem; so_tables := so_tables st; so_status := so_status st;
                 so_seeks := so_seeks st; so_counters := c |}).
  intros Hrun. assert (minor_compaction config st1 (log_gen st)
    (latest (sm_iter (ti_mem (mt_inner (so_mem_table st))))) = Ok st') as Hmc.
  { destruct (minor_compaction _ _ _ _) as [st2| |]; cbn [res_bind] in Hrun; [|done..].
    by destruct tx as [[]|]; injection Hrun as <-. }
  assert (store_inv contents st1) as Hinv1 by (apply (set_mem_table_inv contents st mem c); [done|lia]).
  assert (gen_ok st1 (log_gen st)) as Hgen1.
  { destruct (mi_gen _ _ Hmem) as [Hg1 Hg2 Hg3]. split; try done. cbn. lia. }
  destruct (minor_compaction_ok config Hsize Htypes contents st1 (log_gen st)
    (latest (sm_iter (ti_mem (mt_inner (so_mem_table st)))))) as (contents' & st2 & Hmc2 & _ & Hgr & _); try done.
  rewrite Hmc in Hmc2. injection Hmc2 as <-.
  apply (minor_compaction_installs contents) in Hmc as [_ _ Hkeep Hcv Hi]; try done.
  intros live used cl [[Hc Hcur Hu] Hlog Hcov]. split.
  { intros g Hg. apply (Hkeep g); [cbn; specialize (Hu g Hg); lia|set_solver]. }
  destruct (Hi live used cl) as (vs & used' & Hv' & Hp & Hu').
  - split; [done..|]. intros g Hin. specialize (Hu g Hin). cbn. lia.
  - by intros g ->%list_elem_of_singleton.
  - exists vs, used'. split; [split; [done| |apply Hcv; intros g Hg; right; by destruct (Hcov g Hg) as [?%not_elem_of_nil|?]]|done]. rewrite (gr_mem _ _ _ Hgr). cbn [st1 so_mem_table]. rewrite Hnew.
    intros [Hin|[Hin%list_elem_of_singleton|Hin]]%Hu'; [specialize (Hu _ Hin); lia|lia|cbn in Hin; lia].
Qed.

(** Clients install nothing. *)
Lemma append_cmd_data_calm data (s : KipStorage T) r s' :
  append_cmd_data data s = (r, s') → calm (ks_inner s) (ks_inner s').
Proof.
  unfold append_cmd_data, insert_data. destruct (add_record _ _) as [[n w]| |]; [|by intros [= _ <-]..].
  cbn [res_bind internal_key_new seq_create].
  destruct (is_exceeded _); [|by intros [= _ <-]]. by destruct (try_send _ _); intros [= _ <-].
Qed.

Lemma storage_get_calm key (s : KipStorage T) r s' :
  storage_get key s = (r, s') → calm (ks_inner s) (ks_inner s').
Proof.
  unfold storage_get. destruct (mem_find _ _) as [[k v]|]; [by intros [= _ <-]|].
  destruct (query_and_compaction _ _ _ _ _) as [[o h] tx]. by intros [= _ <-].
Qed.

Lemma storage_exec_calm cmd (s : KipStorage T) r s' :
  storage_exec cmd s = (r, s') → calm (ks_inner s) (ks_inner s').
Proof.
  destruct cmd as [key value|key|key]; cbn [storage_exec].
  - unfold storage_set. destruct (append_cmd_data _ _) as [r1 s1] eqn:E. intros [= _ <-].
    by eapply append_cmd_data_calm.
  - unfold storage_remove. destruct (storage_get key s) as [r1 s1] eqn:Eg. apply storage_get_calm in Eg.
    destruct r1 as [[v|]| |]; [|by intros [= _ <-]..].
    destruct (append_cmd_data _ s1) as [r2 s2] eqn:E. intros [= _ <-].
    etrans; [done|]. by eapply append_cmd_data_calm.
  - apply storage_get_calm.
Qed.

Lemma send_task_calm task (s : KipStorage T) s' :
  send_task task s = Some (Ok s') → calm (ks_inner s) (ks_inner s').
Proof. unfold send_task. destruct (send _ _) as [[tx| |]|]; [|done..]. by intros [= <-]. Qed.

Lemma kip_step_moves contents (s : KipStorage T) l s' :
  ks_config s = config → kip_inv contents s → kip_step s l s' → event_safe (s, l) →
  moves (ks_inner s) (ks_inner s').
Proof.
  intros Hc Hk Hstep Hsafe.
  destruct Hstep as [s cmd r s' Hkey He|key value s s' Hkey Hg|key r s s' Hkey He|s s' Hs|s s' Hs
    |min max level s s' Hm|task rest s s' Hq Hb].
  - by eapply calm_moves, storage_exec_calm.
  - by eapply calm_moves, storage_get_calm.
  - by eapply calm_moves, append_cmd_data_calm.
  - by eapply calm_moves, send_task_calm.
  - by eapply calm_moves, send_task_calm.
  - apply calm_moves. unfold manual_compaction in Hm. destruct (le_b min max); [|by injection Hm as <-].
    cbn [from_range] in Hm. by eapply send_task_calm in Hm.
  - pose proof (background_ready s task rest s' Hq Hb) as Hready. unfold background_step in Hb. rewrite Hq in Hb.
    destruct (run_task _ _ _) as [[st| |]|] eqn:Er; cbn [res_bind] in Hb; [|done..]. injection Hb as <-.
    cbn [set_tx set_inner_store ks_inner]. unfold event_safe in Hsafe. cbn [fst snd] in Hsafe. rewrite Hc in Hsafe, Er.
    eapply (run_task_moves contents); [apply Hk..|by split|done].
Qed.
End reclaim.
