(* ===== verification/Recovery.v ===== *)
(** * Restarting the storage

    What the two logs hold while the storage runs: the write-ahead log has exactly the
    writes of the current memory table, the version log every edit of the version.  Both
    are kept by every step, so a storage opened again on the files of a running one
    (storage.rs, [open_with_config]) represents the same map.  The crashes the code does
    not survive are here as well. *)

From S2P Require Import Prelude Std Crates Block Iterator Io Log Config MemTable Scope BTreeTable Version Status Compactor.
From S2P Require Import CompactorCorrect Storage StorageCorrect StorageRefine.
From Stdlib Require Import ZArith Lia Strings.Byte Strings.String Sorted.
From stdpp Require Import base list gmap sorting.

Set Default Goal Selector "!".
Open Scope nat_scope.

(** ** The write-ahead log *)

Section wal.
Context {SM : SkipMapOps InternalKey (option bytes)} {SML : SkipMapLaws InternalKey (option bytes)}.
Context `{IE : IntegerEncoding} {IEL : IntegerEncodingLaws} {CRC : Crc32} {CRCL : Crc32Laws} {IT : Itertools}.

Definition fresh_log : LogWriter := log_writer_new {| sk_content := []; sk_pos := 0 |}.

Abbreviation mem_versions t := (sm_iter (ti_mem (mt_inner t))).
Abbreviation log_gen t := ((ti_log_writer (mt_inner t)).2).

(** The current log holds the writes [ws], which make up the memory table; every other
    log is older. *)
Record wal_logged (t : MemTable) (ws : list MemWrite) : Prop := {
  wl_wf : Forall write_wf ws;
  wl_log : write_records fresh_log (write_record <$> ws) = Ok (ti_log_writer (mt_inner t)).1;
  wl_mem k : visible (mem_versions t) k (λ _, true) = batch_get (concat (write_pairs <$> ws)) k;
  wl_keys kv : kv ∈ concat (write_pairs <$> ws) → kv.1 ≠ [];
  wl_old g : is_Some (ti_wal (mt_inner t) !! g) → (g < log_gen t)%Z;
}.

Lemma write_records_snoc w rs r w1 n w2 :
  write_records w rs = Ok w1 → add_record w1 r = Ok (n, w2) → write_records w (rs ++ [r]) = Ok w2.
Proof.
  intros H1 H2. unfold write_records in *. rewrite res_foldM_app, H1. cbn [res_bind res_foldM].
  by rewrite H2.
Qed.

Lemma insert_data_logged t c data ws exceeded t' c' :
  mem_wf t c → wal_logged t ws → data_wf data → data.1 ≠ [] →
  insert_data t data c = Ok (exceeded, t', c') → wal_logged t' (ws ++ [WriteOne data]).
Proof.
  intros [Hm _ _ _] [Hwf Hlog Hmem Hkeys Hold] Hd Hk. unfold insert_data.
  destruct (add_record _ _) as [[n w]| |] eqn:Ea; [|done..]. cbn [res_bind internal_key_new seq_create].
  intros [= <- <- <-].
  assert (concat (write_pairs <$> ws ++ [WriteOne data]) = concat (write_pairs <$> ws) ++ [data]) as Hpairs.
  { rewrite fmap_app, concat_app. cbn. done. }
  split; rewrite ?Hpairs; cbn [set_inner mt_inner ti_mem ti_wal ti_log_writer fst snd]; try done.
  - apply Forall_app. split; [done|]. repeat constructor; [done|apply Hd..].
  - rewrite fmap_app. cbn [fmap list_fmap]. eapply write_records_snoc; [done|].
    unfold write_record. cbn [write_pairs fmap list_fmap concat]. by rewrite app_nil_r.
  - intros k. rewrite sm_iter_insert.
    change (mkInternalKey data.1 (seq_count c)) with (new_with_seq data.1 (seq_count c)).
    rewrite visible_insert; [|apply sm_iter_sorted|intros s' v' Hin; apply Hm in Hin; lia].
    rewrite Hmem. unfold batch_get. rewrite filter_app, last_app, filter_cons, filter_nil.
    destruct (decide (data.1 = k)) as [<-|Hne]; [by rewrite decide_True|].
    by rewrite decide_False by naive_solver.
  - intros kv [?| ->%list_elem_of_singleton]%elem_of_app; [by apply Hkeys|done].
Qed.

(** The batch of a commit is one record; its number is the newest of its keys. *)
Lemma insert_batch_data_logged t kvs s ws exceeded t' :
  (∀ k s' v, k ∈ kvs.*1 → (new_with_seq k s', v) ∈ mem_versions t → (s' ≤ s)%Z) → wal_logged t ws →
  kvs ≠ [] → Forall data_wf kvs → Forall (λ e, e.1 ≠ []) kvs → insert_batch_data t kvs s = Ok (exceeded, t') →
  wal_logged t' (ws ++ [WriteBatch kvs]).
Proof.
  intros Hm [Hwf Hlog Hmem Hkeys Hold] Hne Hd Hk. unfold insert_batch_data.
  destruct (insert_batch_fold s kvs (ti_mem (mt_inner t)) (ti_trigger (mt_inner t)) [])
    as (m' & trigger' & -> & _ & Hvis); [done|]. rewrite app_nil_l.
  destruct (add_record _ _) as [[n w]| |] eqn:Ea; [|done..]. cbn [res_bind]. intros [= <- <-].
  assert (concat (write_pairs <$> ws ++ [WriteBatch kvs]) = concat (write_pairs <$> ws) ++ kvs) as Hpairs.
  { rewrite fmap_app, concat_app. cbn. by rewrite app_nil_r. }
  split; rewrite ?Hpairs; cbn [set_inner mt_inner ti_mem ti_wal ti_log_writer fst snd]; try done.
  - apply Forall_app. split; [done|]. by repeat constructor.
  - rewrite fmap_app. cbn [fmap list_fmap]. by eapply write_records_snoc.
  - intros k. rewrite Hvis, Hmem. unfold batch_get. rewrite filter_app, last_app.
    by destruct (last (filter _ kvs)).
  - intros kv [?|Hin]%elem_of_app; [by apply Hkeys|]. rewrite Forall_forall in Hk. by apply Hk.
Qed.

(** The number of transactions is not in the log. *)
Lemma wal_logged_same t t' ws : mt_inner t' = mt_inner t → wal_logged t ws → wal_logged t' ws.
Proof. intros E [? ? ? ? ?]. by split; rewrite ?E. Qed.

(** A swap starts an empty log. *)
Lemma swap_logged t c ws values t' c' :
  (log_gen t < gen_buf c)%Z → wal_logged t ws → swap t c = Some (Some values, t', c') →
  wal_logged t' [].
Proof.
  intros Hgen [Hwf Hlog Hmem Hkeys Hold]. unfold swap. case_decide; [done|].
  destruct (sm_is_empty _); [done|]. destruct (ti_log_writer (mt_inner t)) as [w g] eqn:Ew.
  cbn [gen_create fst snd] in *. intros [= <- <- <-].
  split; cbn [set_inner mt_inner ti_mem ti_wal ti_log_writer fst snd fmap list_fmap concat]; try done.
  - unfold log_loader_writer, file_content. rewrite lookup_insert_ne by lia.
    destruct (ti_wal (mt_inner t) !! gen_buf c) eqn:E; [|done].
    specialize (Hold (gen_buf c) ltac:(by eexists)). lia.
  - intros k. by rewrite sm_iter_new.
  - by intros kv ?%not_elem_of_nil.
  - intros g' [x Hx]. destruct (decide (g' = g)) as [->|Hne]; [done|].
    rewrite lookup_insert_ne in Hx by done. specialize (Hold g' ltac:(by eexists)). lia.
Qed.

(** The newest file of a directory. *)
Lemma sorted_gen_list_last (d : Dir) gen :
  is_Some (d !! gen) → (∀ g, is_Some (d !! g) → (g ≤ gen)%Z) → last (sorted_gen_list d) = Some gen.
Proof.
  intros [x Hx] Hmax. unfold sorted_gen_list.
  pose proof (merge_sort_Permutation Z.le (map_to_list d).*1) as Hp.
  pose proof (StronglySorted_merge_sort Z.le (map_to_list d).*1) as Hs.
  set (l := merge_sort Z.le (map_to_list d).*1) in *.
  assert (gen ∈ l) as Hin.
  { rewrite Hp. apply list_elem_of_fmap. exists (gen, x). split; [done|]. by apply elem_of_map_to_list. }
  destruct l as [|a l _] using rev_ind; [by apply not_elem_of_nil in Hin|]. rewrite last_snoc. f_equal.
  apply Z.le_antisymm.
  - apply Hmax. assert (a ∈ (map_to_list d).*1) as Ha by (rewrite <- Hp; set_solver).
    apply list_elem_of_fmap in Ha as ([g y] & -> & Hy%elem_of_map_to_list). by eexists.
  - apply elem_of_app in Hin as [Hin| ->%list_elem_of_singleton]; [|done].
    apply StronglySorted_app in Hs as (Hs & _). apply Hs; set_solver.
Qed.

(** A directory a storage may be opened on again: the current log as it was left, and
    other logs only if they are older. *)
Definition wal_left (t : MemTable) (d : Dir) : Prop :=
  d !! log_gen t = Some (sk_content (lw_dst (ti_log_writer (mt_inner t)).1)) ∧
  ∀ g, is_Some (d !! g) → (g ≤ log_gen t)%Z.

Lemma wal_files_left t ws : wal_logged t ws → wal_left t (wal_files t).
Proof.
  intros [_ _ _ _ Hold]. unfold wal_left, wal_files. split; [apply lookup_insert_eq|].
  intros g [x Hx]. destruct (decide (g = log_gen t)) as [->|Hne]; [done|].
  rewrite lookup_insert_ne in Hx by done. specialize (Hold g ltac:(by eexists)). lia.
Qed.

Lemma mem_table_reopen config t ws d c :
  wal_logged t ws → wal_left t d → (1 ≤ seq_count c ≤ SEQ_MAX)%Z →
  ∃ t' c', mem_table_new config d c = Some (Ok (t', c')) ∧ mem_wf t' c' ∧
    seq_count c' = seq_count c ∧ gen_buf c' = (gen_buf c + 1)%Z ∧ tx_count t' = 0 ∧
    ti_immut (mt_inner t') = None ∧ log_gen t' = log_gen t ∧
    (∀ k s v, (new_with_seq k s, v) ∈ mem_versions t' → k ≠ []) ∧
    ∀ k, visible (mem_versions t') k (λ _, true) = visible (mem_versions t) k (λ _, true).
Proof.
  intros [Hwf Hlog Hmem Hkeys Hold] [Hcur Hmax] Hseq. unfold mem_table_new, log_reload_gen.
  cbn [gen_create]. rewrite (sorted_gen_list_last d (log_gen t)) by (done || by eexists).
  cbn [default from_option id]. unfold file_content at 1. rewrite Hcur. cbn [default from_option id].
  set (content := sk_content (lw_dst (ti_log_writer (mt_inner t)).1)).
  destruct (one_chunk_ok content) as [Hch Hcat].
  destruct (log_records_load (write_record <$> ws) (one_chunk content) decode_wal_record [])
    as (w & Hw & Hload).
  { apply Forall_fmap. eapply Forall_impl; [done|]. intros. by apply write_record_nonempty. }
  unfold fresh_log in Hlog. rewrite Hw in Hlog. injection Hlog as Hlog.
  rewrite (Hload Hch) by (by rewrite Hcat, Hlog). rewrite res_foldM_decode by done. cbn [app].
  destruct (cfg_minor_trigger_with_threshold config). eexists _, _. split; [done|].
  set (L := concat (write_pairs <$> ws)) in *.
  assert (∀ k s v, (new_with_seq k s, v) ∈ btree_from_iter
    ((λ kv : KeyValue, (new_with_seq kv.1 0, kv.2)) <$> L) → s = 0%Z ∧ (k, v) ∈ L) as Hin.
  { intros k s v Hin%btree_from_iter_subset. apply list_elem_of_fmap in Hin as ([k1 v1] & ? & ?).
    by simplify_ik. }
  cbn [mt_inner ti_mem ti_immut ti_log_writer tx_count fst snd seq_count gen_buf].
  split_and!; try done.
  - split; cbn [mt_inner ti_mem ti_immut ti_log_writer fst seq_count]; [|done|lia|apply log_writer_new_ok].
    intros k s v. rewrite sm_iter_from_iter. intros [-> _]%Hin. lia.
  - intros k s v. rewrite sm_iter_from_iter. intros [_ ?]%Hin. by apply (Hkeys (k, v)).
  - intros k. rewrite sm_iter_from_iter, Hmem, <- (visible_recovered L k).
    symmetry. apply visible_all. intros s v [-> _]%Hin. unfold SEQ_MAX in *. lia.
Qed.
End wal.

(** ** The version log *)

(** Levels that hold the same tables, whatever their seek counters. *)
Definition same_levels (a b : LevelSlice) : Prop := strip_levels a = strip_levels b.

Lemma same_levels_lookup a b i l :
  same_levels a b → a !! i = Some l → ∃ l', b !! i = Some l' ∧ strip <$> l = strip <$> l'.
Proof.
  intros Hab Hl. pose proof (f_equal (lookup i) Hab) as H. unfold strip_levels in H.
  rewrite !list_lookup_fmap, Hl in H. destruct (b !! i) as [l'|]; [|done]. exists l'. by simplify_eq/=.
Qed.

Lemma same_scope (l l' : list Scope) s :
  strip <$> l = strip <$> l' → s ∈ l → ∃ s', s' ∈ l' ∧ strip s = strip s'.
Proof.
  intros Hl Hs. apply (list_elem_of_fmap_2 strip) in Hs. rewrite Hl in Hs.
  apply list_elem_of_fmap in Hs as (s' & ? & ?). eauto.
Qed.

Lemma same_levels_elem a b l s :
  same_levels a b → l ∈ a → s ∈ l → ∃ l' s', l' ∈ b ∧ s' ∈ l' ∧ strip s = strip s'.
Proof.
  intros Hab [i Hi]%list_elem_of_lookup_1 Hs.
  destruct (same_levels_lookup _ _ _ _ Hab Hi) as (l' & Hl' & Hst).
  destruct (same_scope _ _ _ Hst Hs) as (s' & Hs' & E). exists l', s'. split_and!; try done.
  by eapply list_elem_of_lookup_2.
Qed.

Lemma strip_levels_concat a : strip <$> concat a = concat (strip_levels a).
Proof.
  induction a as [|l a IH]; [done|]. cbn [concat]. unfold strip_levels in *. rewrite fmap_cons.
  cbn [concat]. by rewrite fmap_app, IH.
Qed.

(** Any function of the tables' keys and generations agrees. *)
Lemma same_levels_fmap {A} (f : Scope → A) a b :
  (∀ s, f (strip s) = f s) → same_levels a b → f <$> concat a = f <$> concat b.
Proof.
  intros Hf Hab.
  assert (∀ l, f <$> concat l = f <$> concat (strip_levels l)) as E.
  { intros l. rewrite <- strip_levels_concat, <- list_fmap_compose. apply list_fmap_ext.
    intros _ s _. cbn. by rewrite Hf. }
  by rewrite (E a), (E b), Hab.
Qed.

Lemma same_levels_gens v w :
  same_levels (level_slice v) (level_slice w) → version_gens v = version_gens w.
Proof. by apply same_levels_fmap. Qed.

Lemma version_find_same contents v w k :
  same_levels (level_slice v) (level_slice w) → version_find contents v k = version_find contents w k.
Proof.
  intros Hvw.
  assert (∀ l, first_some (scope_find contents k) l = first_some (scope_find contents k) (strip <$> l)) as E.
  { induction l as [|s l IH]; [done|]. rewrite fmap_cons. cbn [first_some]. by rewrite IH. }
  unfold version_find. rewrite (E (version_tables v)), (E (version_tables w)). f_equal.
  unfold version_tables, same_levels in *. rewrite !fmap_app, !fmap_reverse, !strip_levels_concat.
  unfold strip_levels in *. rewrite !fmap_drop, Hvw. do 2 f_equal.
  pose proof (f_equal head Hvw) as Hh. rewrite !head_lookup, !list_lookup_fmap in Hh. rewrite !head_lookup.
  destruct (level_slice v !! 0), (level_slice w !! 0); by simplify_eq/=.
Qed.

Lemma level_sorted_same l l' : strip <$> l = strip <$> l' → level_sorted l' → level_sorted l.
Proof.
  intros E [Hw Hss]. revert l E. induction Hss as [|s' l' _ IH Hall]; intros [|s l] E; try done.
  { repeat constructor. }
  rewrite !fmap_cons in E. injection E as Es Ee Eg E. apply Forall_cons in Hw as [Hw1 Hw].
  destruct (IH Hw l E) as [Hwl Hsl]. split; constructor; try done.
  - unfold scope_wf in *. by rewrite Es, Ee.
  - apply Forall_forall. intros x Hx. destruct (same_scope _ _ _ E Hx) as (x' & Hx' & Ex).
    injection Ex as Ex _ _. unfold scope_before. rewrite Ee, Ex. rewrite Forall_forall in Hall. by apply Hall.
Qed.

Section version_log.
Context `{IE : IntegerEncoding} {IEL : IntegerEncodingLaws} {CRC : Crc32} {CRCL : Crc32Laws}.
Context {IT : Itertools} {ITL : ItertoolsLaws}.
Context {BC : Bincode (list RawEdit)} {BCL : BincodeLaws (list RawEdit)}.

(** The log holds the batches [logs] of edits, with the seek counters they were written
    with, and the version is what they make of an empty one. *)
Record ver_logged (vs : VersionStatus) (logs : list (Seeks * list VersionEdit)) : Prop := {
  vl_seeks : Forall (λ p, seeks_ok p.1) logs;
  vl_only : vs_logs vs = ∅;
  vl_log : write_records fresh_log ((λ p, batch_record p.1 p.2) <$> logs)
           = Ok (vs_ver_log_writer vs).1;
  vl_levels : res_foldM levels_edit level_slice_new (concat logs.*2) = Ok (level_slice (vs_version vs));
  vl_meta : statistical_process {| vm_size_of_disk := 0; vm_len := 0 |} (edit_event <$> concat logs.*2)
            = Ok (meta_data (vs_version vs));
}.

(** As long as the count of edits is below the threshold no snapshot has been written. *)
Definition ver_kept (threshold : nat) (vs : VersionStatus) : Prop :=
  vs_edit_approximate_count vs < threshold → ∃ logs, ver_logged vs logs.

Lemma load_empty_kept c vs h c' threshold :
  load_with_path ∅ c = Some (Ok (vs, h, c')) → ver_kept threshold vs.
Proof.
  destruct (load_empty c) as (vs0 & g & c0 & -> & Hl & Hc & Hw & Hlev & Hm & _).
  intros [= <- _ _] _. exists []. split; try done.
  - by rewrite Hw.
  - by rewrite Hlev.
  - rewrite Hm, statistical_process_spec. cbv zeta. cbn. by rewrite decide_True by lia.
Qed.

Lemma log_and_apply_kept vs h c es threshold vs' c' :
  seeks_ok h → ver_kept threshold vs → log_and_apply vs h c es threshold = Ok (vs', c') →
  ver_kept threshold vs'.
Proof.
  intros Hh Hk Hla Hcount. destruct (decide (threshold ≤ vs_edit_approximate_count vs)) as [Ht|Ht].
  { apply snapshot_every_edit in Hla as [? _]; lia. }
  destruct Hk as [logs [Hs Ho Hl Hlev Hm]]; [lia|].
  apply log_and_apply_append in Hla as (_ & Hlogs & _ & (n & Hadd) & ch & ch' & Ha); [|lia].
  apply version_apply_levels in Ha as (_ & Hlev' & Hst & _).
  exists (logs ++ [(h, es)]).
  split; rewrite ?fmap_app, ?concat_app; cbn [fmap list_fmap concat fst snd]; rewrite ?app_nil_r.
  - apply Forall_app. by repeat constructor.
  - congruence.
  - by eapply write_records_snoc.
  - by rewrite res_foldM_app, Hlev.
  - rewrite fmap_app. by eapply statistical_process_app.
Qed.

(** *** Seek counters of recovered scopes *)

Definition raw_seeks_ok (r : RawEdit) : Prop :=
  match r with
  | RawDelete _ _ => True
  | RawNew (rs, _) _ _ => Forall (λ s, ∀ x, rs_seeks s = Some x → (0 ≤ x ≤ 101)%Z) rs
  end.

Definition edit_cells (h : Seeks) (e : VersionEdit) : Prop :=
  match e with DeleteFile _ _ => True | NewFile (ss, _) _ _ => Forall (scope_cell h) ss end.

Lemma edit_to_raw_ok h e : seeks_ok h → raw_seeks_ok (edit_to_raw h e).
Proof.
  intros Hh. destruct e as [file m|[ss level] i m]; [done|]. cbn. apply Forall_fmap, Forall_forall.
  intros s _ x. cbn. destruct (sc_allowed_seeks s) as [loc|]; [|done]. intros Hx.
  by apply (Forall_lookup_1 _ _ _ _ Hh Hx).
Qed.

Lemma scope_cell_grow h h' s : length h ≤ length h' → scope_cell h s → scope_cell h' s.
Proof. intros Hl Hc loc Hloc. specialize (Hc loc Hloc). lia. Qed.

Lemma scopes_of_raw_ok rs h :
  seeks_ok h → Forall (λ s, ∀ x, rs_seeks s = Some x → (0 ≤ x ≤ 101)%Z) rs →
  seeks_ok (scopes_of_raw rs h).2 ∧ length h ≤ length (scopes_of_raw rs h).2 ∧
  Forall (scope_cell (scopes_of_raw rs h).2) (scopes_of_raw rs h).1.
Proof.
  intros Hh Hrs. revert h Hh. induction Hrs as [|r rs Hr _ IH]; intros h Hh; [done|].
  cbn [scopes_of_raw]. destruct (scope_of_raw r h) as [s h1] eqn:E.
  assert (seeks_ok h1 ∧ length h ≤ length h1 ∧ scope_cell h1 s) as (H1 & H2 & H3).
  { unfold scope_of_raw in E. destruct (rs_seeks r) as [x|] eqn:Ex; injection E as <- <-.
    - split_and!; [|rewrite length_app; lia|].
      + apply Forall_app. split; [done|]. repeat constructor; by apply (Hr x).
      + intros loc [= <-]. rewrite length_app. cbn. lia.
    - split_and!; try done. }
  destruct (IH h1 H1) as (H4 & H5 & H6). destruct (scopes_of_raw rs h1) as [ss h2]. cbn in *.
  split_and!; [done|lia|]. constructor; [by eapply scope_cell_grow|done].
Qed.

Lemma edits_of_raw_ok rs h :
  seeks_ok h → Forall raw_seeks_ok rs →
  seeks_ok (edits_of_raw rs h).2 ∧ length h ≤ length (edits_of_raw rs h).2 ∧
  Forall (edit_cells (edits_of_raw rs h).2) (edits_of_raw rs h).1.
Proof.
  intros Hh Hrs. revert h Hh. induction Hrs as [|r rs Hr _ IH]; intros h Hh; [done|].
  cbn [edits_of_raw]. destruct (edit_of_raw r h) as [e h1] eqn:E.
  assert (seeks_ok h1 ∧ length h ≤ length h1 ∧ edit_cells h1 e) as (H1 & H2 & H3).
  { destruct r as [file m|[raws level] i m]; cbn in E; [by injection E as <- <-|].
    destruct (scopes_of_raw_ok raws h Hh Hr) as (? & ? & ?).
    destruct (scopes_of_raw raws h) as [ss h2]. by injection E as <- <-. }
  destruct (IH h1 H1) as (H4 & H5 & H6). destruct (edits_of_raw rs h1) as [es h2]. cbn in *.
  split_and!; [done|lia|]. constructor; [|done]. destruct e as [|[ss level] i m]; [done|].
  cbn in *. eapply Forall_impl; [done|]. intros s. by apply scope_cell_grow.
Qed.

(** Every scope of the levels comes from an edit. *)
Lemma levels_edit_cells h slice e slice' :
  (∀ l s, l ∈ slice → s ∈ l → scope_cell h s) → edit_cells h e → levels_edit slice e = Ok slice' →
  ∀ l s, l ∈ slice' → s ∈ l → scope_cell h s.
Proof.
  intros Hsl He. unfold levels_edit.
  assert (∀ level l0, slice !! level = Some l0 → ∀ l1, (∀ s, s ∈ l1 → scope_cell h s) →
    ∀ l s, l ∈ <[level := l1]> slice → s ∈ l → scope_cell h s) as Hins.
  { intros level l0 _ l1 Hl1 l s [i Hi]%list_elem_of_lookup_1 Hs.
    apply list_lookup_insert_Some in Hi as [(_ & <- & _)|[_ Hi]]; [by apply Hl1|].
    by eapply Hsl; [eapply list_elem_of_lookup_2|]. }
  destruct e as [[gens level] m|[ss level] i m]; cbn [apply_edit edit_cells] in *.
  - destruct (slice !! level) as [l0|] eqn:E; [|done]. cbn [or_panic res_bind fst]. intros [= <-].
    eapply Hins; [done|]. intros s [_ Hs]%list_elem_of_filter.
    by eapply Hsl; [eapply list_elem_of_lookup_2|].
  - destruct (slice !! level) as [l0|] eqn:E; [|done]. cbn [or_panic res_bind fst].
    assert (∀ s, s ∈ l0 → scope_cell h s) as Hl0
      by (intros s Hs; by eapply Hsl; [eapply list_elem_of_lookup_2|]).
    assert (∀ s, s ∈ sorted_by_key sc_gen ss → scope_cell h s) as Hss.
    { intros s Hs. rewrite sorted_by_key_perm in Hs. by eapply Forall_forall. }
    case_decide.
    + intros [= <-]. eapply Hins; [done|]. intros s [?|?]%elem_of_app; auto.
    + destruct (res_foldM _ _ _) as [l1| |] eqn:Ef; [|done..]. cbn [res_bind fst]. intros [= <-].
      eapply Hins; [done|]. revert l0 E Hl0 Ef. clear Hins. intros l0 _.
      assert (∀ s, s ∈ reverse (sorted_by_key sc_gen ss) → scope_cell h s) as Hrev
        by (intros s; rewrite elem_of_reverse; apply Hss).
      revert l0 Hrev. induction (reverse (sorted_by_key sc_gen ss)) as [|s0 r IH]; intros l0 Hrev Hl0;
        cbn [res_foldM]; [by intros [= <-]|].
      unfold vec_insert at 1. case_decide; [|done]. cbn [res_bind]. apply IH.
      * intros s Hs. apply Hrev. by right.
      * intros s. rewrite <- (take_drop i l0) in Hl0. rewrite !elem_of_app, elem_of_cons.
        intros [?|[->|?]]; [apply Hl0; set_solver|apply Hrev; by left|apply Hl0; set_solver].
Qed.

Lemma levels_edits_cells h es slice slice' :
  (∀ l s, l ∈ slice → s ∈ l → scope_cell h s) → Forall (edit_cells h) es →
  res_foldM levels_edit slice es = Ok slice' → ∀ l s, l ∈ slice' → s ∈ l → scope_cell h s.
Proof.
  intros Hsl Hes. revert slice Hsl. induction Hes as [|e es He _ IH]; intros slice Hsl; cbn [res_foldM].
  { by intros [= <-]. }
  destruct (levels_edit slice e) as [s1| |] eqn:E; [|done..]. cbn [res_bind]. apply IH.
  by eapply levels_edit_cells.
Qed.
(** *** Reopening *)

Definition raw_batches (logs : list (Seeks * list VersionEdit)) : list RawEdit :=
  concat ((λ p : Seeks * list VersionEdit, edit_to_raw p.1 <$> p.2) <$> logs).

Lemma decode_batches logs acc :
  res_foldM (λ acc b, decode_version_record b acc) acc ((λ p, batch_record p.1 p.2) <$> logs)
  = Ok (acc ++ raw_batches logs).
Proof.
  revert acc. induction logs as [|[h es] logs IH]; intros acc; [by rewrite app_nil_r|].
  pose proof (decode_records h [es] acc) as H1. cbn [concat] in H1. rewrite app_nil_r in H1.
  rewrite fmap_cons. cbn [res_foldM fst snd fmap list_fmap] in *.
  destruct (decode_version_record (batch_record h es) acc) as [acc'| |]; [|done..].
  cbn [res_bind] in *. injection H1 as ->. rewrite IH. unfold raw_batches. rewrite fmap_cons.
  cbn [concat fst snd]. by rewrite <- app_assoc.
Qed.

Lemma raw_batches_strip logs h :
  strip_edit <$> (edits_of_raw (raw_batches logs) h).1 = strip_edit <$> concat logs.*2.
Proof.
  revert h. induction logs as [|[h0 es] logs IH]; intros h; [done|].
  unfold raw_batches in *. rewrite !fmap_cons. cbn [concat fst snd].
  destruct (edits_of_raw_app (edit_to_raw h0 <$> es)
    (concat ((λ p : Seeks * list VersionEdit, edit_to_raw p.1 <$> p.2) <$> logs)) h) as (h' & ->).
  cbn [fst]. by rewrite !fmap_app, edits_of_raw_strip, IH.
Qed.

Lemma raw_batches_ok logs : Forall (λ p : Seeks * list VersionEdit, seeks_ok p.1) logs → Forall raw_seeks_ok (raw_batches logs).
Proof.
  intros Hl. unfold raw_batches. apply Forall_concat, Forall_fmap. eapply Forall_impl; [done|].
  intros [h es] Hh. apply Forall_fmap, Forall_forall. intros e _. by apply edit_to_raw_ok.
Qed.

Lemma status_reopen vs logs c :
  ver_logged vs logs →
  ∃ vs' h' c', load_with_path (status_files vs) c = Some (Ok (vs', h', c')) ∧
    same_levels (level_slice (vs_version vs')) (level_slice (vs_version vs)) ∧
    meta_data (vs_version vs') = meta_data (vs_version vs) ∧ seeks_ok h' ∧
    (∀ l s, l ∈ level_slice (vs_version vs') → s ∈ l → scope_cell h' s) ∧
    log_ok (vs_ver_log_writer vs').1 ∧ chan_open (vs_chan vs') = true ∧
    seq_count c' = seq_count c ∧ (gen_buf c ≤ gen_buf c')%Z.
Proof.
  intros [Hs Ho Hl Hlev Hm]. destruct (vs_ver_log_writer vs) as [w g] eqn:Ew. cbn [fst] in Hl.
  assert (status_files vs = {[ g := sk_content (lw_dst w) ]}) as -> by (unfold status_files; by rewrite Ew, Ho).
  set (content := sk_content (lw_dst w)). destruct (one_chunk_ok content) as [Hch Hcat].
  destruct (log_records_load ((λ p, batch_record p.1 p.2) <$> logs) (one_chunk content)
    decode_version_record []) as (w' & Hw & Hload).
  { apply Forall_fmap, Forall_forall. intros p _. apply serialize_nonempty. }
  unfold fresh_log in Hl. rewrite Hw in Hl. injection Hl as ->.
  specialize (Hload Hch Hcat). rewrite decode_batches in Hload. cbn [app] in Hload.
  pose proof (raw_batches_strip logs []) as Hstrip.
  destruct (levels_edits_same _ _ _ _ _ (eq_sym Hstrip) eq_refl Hlev) as (slice & Hs2 & Hsame).
  destruct (load_from_log_levels _ slice (meta_data (vs_version vs)) Hs2) as (v & ch & Hv & Hvs & Hvm).
  { by rewrite (edit_event_strip _ _ Hstrip). }
  destruct (edits_of_raw_ok (raw_batches logs) [] (Forall_nil_2 _) (raw_batches_ok _ Hs)) as (Hh & _ & Hcells).
  assert (sorted_gen_list {[g := content]} = [g]) as Hg
    by (unfold sorted_gen_list; by rewrite map_to_list_singleton).
  unfold load_with_path, snapshot_gen. rewrite Hg. cbn [reverse rev_append]. unfold log_reload_gen.
  cbn [gen_create default from_option id].
  replace (file_content {[g := content]} g) with content
    by (unfold file_content; by rewrite lookup_singleton_eq).
  rewrite Hload. destruct (edits_of_raw (raw_batches logs) []) as [es h']. cbn [fst snd] in *.
  rewrite Hv. cbn [res_bind]. eexists _, _, _. split; [reflexivity|].
  cbn [vs_version vs_ver_log_writer vs_chan fst log_seek_end]. split_and!.
  - by rewrite Hvs.
  - done.
  - done.
  - rewrite Hvs. eapply levels_edits_cells; [|done..].
    intros l s Hin. apply level_slice_new_elem in Hin as ->. by intros ?%not_elem_of_nil.
  - split; [done|apply Nat.le_0_l].
  - apply version_apply_levels in Hv as (_ & _ & _ & _ & dels & _ & ->). done.
  - done.
  - cbn. lia.
Qed.
End version_log.

(** ** What compaction does to the status

    The compactor changes the status by [log_and_apply] alone, so whatever that keeps, the
    whole compaction keeps. *)

Section frame.
Context {SM : SkipMapOps InternalKey (option bytes)}.
Context `{IE : IntegerEncoding} {CRC : Crc32} {IT : Itertools} {BC : Bincode (list RawEdit)}.
Context {T : Type} {TB : Table T} {BLD : TableBuilder T}.
Context (config : Config) (P : VersionStatus → Prop).
Context (HP : ∀ vs h c es vs' c', seeks_ok h → P vs →
  log_and_apply vs h c es (cfg_ver_log_snapshot_threshold config) = Ok (vs', c') → P vs').

Definition status_holds (st : Store T) : Prop := seeks_ok (so_seeks st) ∧ P (so_status st).

Definition frame (st st' : Store T) : Prop :=
  so_mem_table st' = so_mem_table st ∧ (status_holds st → status_holds st').

#[local] Instance frame_preorder : PreOrder frame.
Proof. split; [by split|]. intros a b c [H1 H2] [H3 H4]. split; [congruence|auto]. Qed.

Lemma loader_create_frame st gen data level tp scope meta st' :
  loader_create st gen data level tp = Ok (scope, meta, st') → frame st st'.
Proof.
  unfold loader_create, from_sorted_vec_data. destruct data as [|e data]; [done|]. cbn [res_bind from_range].
  destruct (build_table _ _ _ _) as [t| |]; [|done..]. cbn [res_bind]. intros [= <- <- <-].
  split; [done|]. intros [Hh Hp]. split; [|done]. apply Forall_app. split; [done|]. repeat constructor; lia.
Qed.

Lemma create_tables_frame shards level tp st created st' :
  create_tables st shards level tp = Ok (created, st') → frame st st'.
Proof.
  revert st created. induction shards as [|[gen data] shards IH]; intros st created; cbn [create_tables].
  { by intros [= <- <-]. }
  destruct (loader_create _ _ _ _ _) as [[[scope meta] st1]| |] eqn:E1; [|done..]. cbn [res_bind].
  destruct (create_tables st1 _ _ _) as [[rest st2]| |] eqn:E2; [|done..]. cbn [res_bind].
  intros [= <- <-]. etrans; [by eapply loader_create_frame|by eapply IH].
Qed.

Lemma data_loading_frame st level target skip r st' :
  data_loading_with_level config st level target skip = Ok (r, st') → frame st st'.
Proof.
  unfold data_loading_with_level. case_decide; [by intros [= <- <-]|].
  destruct (if skip then _ else _) as [exceeded| |]; [|done..]. cbn [res_bind].
  destruct (negb exceeded); [by intros [= <- <-]|].
  destruct (tables_by_scopes _ _ _ _) as [[[tl sl] ?]| |]; [|done..]. cbn [res_bind].
  destruct sl as [|s sl]; [by intros [= <- <-]|].
  destruct (tables_by_scopes _ _ _ _) as [[[tll ?] index]| |]; [|done..]. cbn [res_bind].
  destruct (collect_gen tl) as [dl| |]; [|done..]. cbn [res_bind].
  destruct (collect_gen tll) as [dll| |]; [|done..]. cbn [res_bind].
  destruct (data_merge_and_sharding _ _ _ _) as [[shards c]| |]; [|done..]. cbn [res_bind].
  by intros [= <- <-].
Qed.

Lemma compaction_round_frame st level scope edits skip over st' :
  compaction_round config st level scope edits skip = Ok (over, st') → frame st st'.
Proof.
  unfold compaction_round.
  destruct (data_loading_with_level _ _ _ _ _) as [[loaded st1]| |] eqn:E1; [|done..]. cbn [res_bind].
  apply data_loading_frame in E1.
  assert (∀ (o : bool) es st2, frame st st2 →
    match es with
    | [] => Ok (o, st2)
    | _ => let? (vs, c) := log_and_apply (so_status st2) (so_seeks st2) (so_counters st2) es
                             (cfg_ver_log_snapshot_threshold config) in
           Ok (o, set_status st2 vs c)
    end = Ok (over, st') → frame st st') as Hlog.
  { intros o es st2 H2. destruct es as [|e es]; [by intros [= <- <-]|].
    destruct (log_and_apply _ _ _ _ _) as [[vs c]| |] eqn:E; [|done..]. cbn [res_bind]. intros [= <- <-].
    etrans; [done|]. split; [done|]. intros [Hh Hp]. split; [done|]. by eapply HP. }
  destruct loaded as [[[index [dl dll]] shards]|]; [|by apply Hlog].
  destruct (cfg_level_table_type config !! (level + 1)) as [tp|]; [|done]. cbn [or_panic res_bind].
  destruct (create_tables _ _ _ _) as [[created st2]| |] eqn:E2; [|done..]. cbn [res_bind].
  apply create_tables_frame in E2. apply Hlog. by etrans.
Qed.

Lemma major_loop_frame fuel st level scope edits skip st' :
  major_loop fuel config st level scope edits skip = Ok st' → frame st st'.
Proof.
  revert st level edits skip. induction fuel as [|fuel IH]; intros st level edits skip; cbn [major_loop].
  { by intros [= <-]. }
  case_decide; [|by intros [= <-]].
  destruct (compaction_round _ _ _ _ _ _) as [[over st1]| |] eqn:E; [|done..]. cbn [res_bind].
  apply compaction_round_frame in E. destruct over; [by intros [= <-]|]. intros Hr. etrans; [done|]. by eapply IH.
Qed.

Lemma major_compaction_frame st level scope edits skip st' :
  major_compaction config st level scope edits skip = Ok st' → frame st st'.
Proof. unfold major_compaction. case_decide; [done|]. apply major_loop_frame. Qed.

Lemma minor_compaction_frame st gen values st' :
  minor_compaction config st gen values = Ok st' → frame st st'.
Proof.
  unfold minor_compaction. destruct values as [|e values]; [by intros [= <-]|].
  destruct (cfg_level_table_type config !! LEVEL_0) as [tp|]; [|done]. cbn [or_panic res_bind].
  destruct (loader_create _ _ _ _ _) as [[[scope meta] st1]| |] eqn:E; [|done..]. cbn [res_bind].
  intros Hr%major_compaction_frame. etrans; [by eapply loader_create_frame|done].
Qed.

(** A task: the memory table stays, empty if there was nothing to flush, or is the one the
    swap leaves. *)
Lemma run_task_frame task st st' :
  run_task config task st = Some (Ok st') →
  (status_holds st → status_holds st') ∧
  (so_mem_table st' = so_mem_table st ∧
     (∀ tx, task = TaskFlush tx → sm_is_empty (ti_mem (mt_inner (so_mem_table st))) = true) ∨
   ∃ values c, swap (so_mem_table st) (so_counters st) = Some (Some values, so_mem_table st', c)).
Proof.
  destruct task as [scope level|tx]; cbn [run_task].
  { intros [= [H1 H2]%major_compaction_frame]. split; [done|]. left. by split. }
  unfold check_then_compaction. destruct (swap _ _) as [[[o mem] c]|] eqn:Es; [|done]. intros Hr.
  set (st1 := {| so_mem_table := mem; so_tables := so_tables st; so_status := so_status st;
                 so_seeks := so_seeks st; so_counters := c |}) in Hr.
  assert (∃ st2, match o with
    | Some (gen, []) => Ok st1
    | Some (gen, (_ :: _) as values) => minor_compaction config st1 gen values
    | None => Ok st1 end = Ok st2 ∧ st2 = st') as (st2 & Ho & ->).
  { injection Hr as Hr. destruct o as [[gen [|e l]]|];
      [|destruct (minor_compaction _ _ _ _) as [st2| |]; [|done..]|]; cbn [res_bind] in Hr;
      (eexists; split; [done|]; by destruct tx as [[]|]; simplify_eq). }
  assert (frame st1 st') as [Hm Hs].
  { destruct o as [[gen [|e l]]|]; [by injection Ho as <-| |by injection Ho as <-].
    by apply minor_compaction_frame in Ho. }
  split; [exact Hs|]. rewrite Hm. cbn [st1 so_mem_table]. destruct o as [values|]; [eauto|].
  left. unfold swap in Es. case_decide; [done|]. destruct (sm_is_empty _) eqn:E; [by injection Es as <- _|].
  by destruct (ti_log_writer _).
Qed.
End frame.

(** ** The logs of a running storage *)

Section recovery.
Context {SM : SkipMapOps InternalKey (option bytes)} {SML : SkipMapLaws InternalKey (option bytes)}.
Context `{IE : IntegerEncoding} {IEL : IntegerEncodingLaws} {CRC : Crc32} {CRCL : Crc32Laws}.
Context {IT : Itertools} {ITL : ItertoolsLaws}.
Context {BC : Bincode (list RawEdit)} {BCL : BincodeLaws (list RawEdit)}.
Context {T : Type} {TB : Table T} {BLD : TableBuilder T} {BLDL : TableBuilderLaws T}.

Abbreviation store_version st := (vs_version (so_status st)).
Abbreviation seq_of s := (seq_count (so_counters (ks_inner s))).
Abbreviation threshold_of s := (cfg_ver_log_snapshot_threshold (ks_config s)).

Record disk_inv (s : KipStorage T) : Prop := {
  di_wal : ∃ ws, wal_logged (mem_table s) ws;
  di_ver : ver_kept (threshold_of s) (so_status (ks_inner s));
}.

(** What the log can hold of a command: lengths below 4 GiB and no empty value. *)
Definition label_wf (l : KLabel) : Prop :=
  match l with
  | LCmd (CmdSet key value) _ => data_wf (key, Some value)
  | LCmd (CmdRemove key) _ | LErase key _ => data_wf (key, None)
  | _ => True
  end.

(** States that differ in nothing the logs say. *)
Definition disk_same (s s' : KipStorage T) : Prop :=
  so_mem_table (ks_inner s') = so_mem_table (ks_inner s) ∧
  so_status (ks_inner s') = so_status (ks_inner s) ∧
  so_counters (ks_inner s') = so_counters (ks_inner s) ∧ ks_config s' = ks_config s.

Lemma disk_inv_same s s' : disk_same s s' → disk_inv s → disk_inv s'.
Proof.
  intros (Hm & Hs & _ & Hc) [[ws Hw] Hv]. split; [exists ws|by rewrite Hs, Hc]. unfold mem_table. by rewrite Hm.
Qed.

Lemma storage_get_same key s r s' : storage_get key s = (r, s') → disk_same s s'.
Proof.
  unfold storage_get. destruct (mem_find _ _) as [[k v]|]; [by intros [= <- <-]|].
  destruct (query_and_compaction _ _ _ _ _) as [[o h] tx]. by intros [= <- <-].
Qed.

Lemma append_cmd_data_disk data s r s' :
  mem_wf (mem_table s) (so_counters (ks_inner s)) → disk_inv s → data_wf data → data.1 ≠ [] →
  append_cmd_data data s = (r, s') → disk_inv s' ∧ ks_config s' = ks_config s.
Proof.
  intros Hwf Hd Hdata Hk. unfold append_cmd_data.
  destruct (insert_data _ _ _) as [[[ex m] c]| |] eqn:Ei; [|by intros [= <- <-]..].
  assert (∀ tx, disk_inv (set_tx (set_inner_store s (set_mem_table (ks_inner s) m c)) tx)) as Hset.
  { destruct Hd as [[ws Hw] Hv]. intros tx. split; [|done]. eexists. by eapply insert_data_logged. }
  pose proof (Hset (ks_compactor_tx s)) as Hset0. destruct ex; [|by intros [= <- <-]].
  destruct (try_send _ _) as [tx| |]; intros [= <- <-]; split; try done; apply Hset.
Qed.

Lemma storage_exec_disk contents cmd s r s' :
  kip_inv contents s → disk_inv s → label_wf (LCmd cmd r) → get_key cmd ≠ [] →
  storage_exec cmd s = (r, s') → disk_inv s' ∧ ks_config s' = ks_config s.
Proof.
  intros Hk Hd Hl Hkey. pose proof (mi_wf _ _ (ki_mem _ _ Hk)) as Hwf.
  destruct cmd as [key value|key|key]; cbn [storage_exec get_key label_wf] in *.
  - unfold storage_set. destruct (append_cmd_data _ _) as [r1 s1] eqn:E. intros [= _ <-].
    by apply append_cmd_data_disk in E.
  - unfold storage_remove. destruct (storage_get key s) as [r1 s1] eqn:Eg.
    apply storage_get_same in Eg. pose proof (disk_inv_same _ _ Eg Hd) as Hd1.
    destruct Eg as (Hm & Hst & Hc & Hcfg).
    destruct r1 as [[v|]| |]; [|by intros [= _ <-]..].
    destruct (append_cmd_data _ s1) as [r2 s2] eqn:E. intros [= _ <-].
    apply append_cmd_data_disk in E; try done; [by rewrite <- Hcfg|]. unfold mem_table in *. by rewrite Hm, Hc.
  - intros Hs%storage_get_same. split; [by eapply disk_inv_same|apply Hs].
Qed.

Lemma kip_step_disk contents s l s' :
  kip_inv contents s → disk_inv s → label_wf l → kip_step s l s' →
  disk_inv s' ∧ ks_config s' = ks_config s.
Proof.
  intros Hk Hd Hl Hstep.
  assert (∀ task s1 s2, send_task task s1 = Some (Ok s2) → disk_same s s1 → disk_same s s2) as Hsend.
  { intros task s1 s2. unfold send_task. destruct (send _ _) as [[tx| |]|]; [|done..]. by intros [= <-]. }
  assert (∀ s1, disk_same s s1 → disk_inv s1 ∧ ks_config s1 = ks_config s) as Hsame.
  { intros s1 H1. split; [by eapply disk_inv_same|apply H1]. }
  destruct Hstep as [s cmd r s' Hkey He|key value s s' Hkey Hg|key r s s' Hkey He|s s' Hs|s s' Hs
    |min max level s s' Hm|task rest s s' Hq Hb].
  - by eapply storage_exec_disk.
  - by eapply Hsame, storage_get_same.
  - by eapply append_cmd_data_disk, He; [apply (mi_wf _ _ (ki_mem _ _ Hk))|..].
  - by eapply Hsame, Hsend.
  - by eapply Hsame, Hsend.
  - apply Hsame. unfold manual_compaction in Hm. destruct (le_b min max); [|by injection Hm as <-].
    cbn [from_range] in Hm. by eapply Hsend.
  - unfold background_step in Hb. rewrite Hq in Hb.
    destruct (run_task _ _ _) as [[st| |]|] eqn:Er; cbn [res_bind] in Hb; [|done..]. injection Hb as <-.
    destruct Hd as [[ws Hw] Hv]. split; [|done].
    destruct (run_task_frame (ks_config s) (ver_kept (threshold_of s))
      (λ vs h c es vs' c', log_and_apply_kept vs h c es _ vs' c') task (ks_inner s) st Er) as [Hst Hmem].
    destruct Hst as [_ Hv']; [split; [apply (si_seeks _ _ (ki_store _ _ Hk))|done]|].
    split; [|done]. unfold mem_table in *. cbn [set_tx set_inner_store ks_inner].
    destruct Hmem as [[-> _]|(values & c & Hsw)]; [by exists ws|]. exists []. eapply swap_logged; [|done..].
    apply (mi_gen _ _ (ki_mem _ _ Hk)).
Qed.
(** ** Opening again *)

(** The tables of the version, as the loader reads them back. *)
Definition tables_left (st : Store T) (tables : gmap Z T) : Prop :=
  ∀ g t, g ∈ version_gens (store_version st) → so_tables st !! g = Some t →
    ∃ t', tables !! g = Some t' ∧ table_gen t' = table_gen t ∧
          table_meta_from t' = table_meta_from t ∧ ∀ l, table_holds t l → table_holds t' l.

Lemma tables_left_refl st : tables_left st (so_tables st).
Proof. intros g t _ Ht. by exists t. Qed.

Lemma scope_loaded_left contents (st : Store T) tables l s s' :
  tables_left st tables → version_wf (store_get st) contents (so_seeks st) (store_version st) →
  l ∈ level_slice (store_version st) → s ∈ l → strip s' = strip s →
  scope_loaded (λ g, tables !! g) contents s'.
Proof.
  intros Ht Hwf Hl Hs E. destruct (wf_loaded _ _ _ _ Hwf l s Hl Hs) as [(t & Hg & Hh & Htg) Hw Hwfs].
  unfold strip in E. injection E as Es Ee Eg. destruct (Ht (sc_gen s) t) as (t' & Hg' & Htg' & _ & Hh').
  { apply list_elem_of_fmap_2, elem_of_concat. eauto. } { done. }
  split; unfold scope_wf, meet_by_key in *; rewrite ?Eg, ?Es, ?Ee; try done.
  exists t'. split_and!; [done|by apply Hh'|congruence].
Qed.

(** The store with the same tables at the same places, new counters of seeks. *)
Lemma reopened_store_inv contents (st : Store T) tables mem vs h c :
  store_inv contents st → tables_left st tables →
  same_levels (level_slice (vs_version vs)) (level_slice (store_version st)) →
  meta_data (vs_version vs) = meta_data (store_version st) → seeks_ok h →
  (∀ l s, l ∈ level_slice (vs_version vs) → s ∈ l → scope_cell h s) →
  log_ok (vs_ver_log_writer vs).1 → chan_open (vs_chan vs) = true →
  (gen_buf (so_counters st) ≤ gen_buf c)%Z →
  store_inv contents {| so_mem_table := mem; so_tables := tables; so_status := vs; so_seeks := h;
                        so_counters := c |}.
Proof.
  intros [Hwf Hse Hg Hf H0 Hm Hlog Hch Hk Hne] Ht Hsame Hmeta Hh Hcell Hlog' Hch' Hc.
  pose proof (same_levels_gens _ _ Hsame) as Hgens.
  split; cbn [so_status so_seeks so_counters so_tables]; rewrite ?Hgens; try done.
  - split; cbn [so_status so_seeks].
    + rewrite <- (length_fmap (λ l : list Scope, strip <$> l)). unfold same_levels, strip_levels in Hsame.
      rewrite Hsame, length_fmap. apply Hwf.
    + intros l s Hl Hs. destruct (same_levels_elem _ _ _ _ Hsame Hl Hs) as (l' & s' & Hl' & Hs' & E).
      by eapply (scope_loaded_left contents st).
    + done.
    + intros l [i Hi]%list_elem_of_lookup_1. rewrite lookup_drop in Hi.
      destruct (same_levels_lookup _ _ _ _ Hsame Hi) as (l' & Hi' & E).
      assert (level_sorted l').
      { apply (wf_sorted _ _ _ _ Hwf). apply list_elem_of_lookup_2 with i. by rewrite lookup_drop. }
      by eapply level_sorted_same.
  - intros g Hin. specialize (Hf g Hin). lia.
  - intros l Hl. destruct (same_levels_lookup _ _ _ _ Hsame Hl) as (l' & Hl' & E).
    replace (sc_gen <$> l) with (sc_gen <$> (strip <$> l)) by (by rewrite <- list_fmap_compose).
    rewrite E, <- list_fmap_compose. by apply H0.
  - cbv zeta in *. rewrite Hmeta, Hm.
    rewrite (same_levels_fmap (scope_meta _) _ _ (λ s, eq_refl) Hsame).
    match goal with |- context [meta_sum (?f <$> ?l)] =>
      match goal with |- context [meta_sum (?g <$> l)] =>
        assert (f <$> l = g <$> l) as ->; [|done] end end.
    apply list_fmap_ext. intros i s Hi. apply list_elem_of_lookup_2 in Hi. unfold scope_meta, store_get. cbn [so_tables].
    destruct (so_tables st !! sc_gen s) as [t|] eqn:E.
    + destruct (Ht (sc_gen s) t) as (t' & -> & _ & Hmt & _); [by apply list_elem_of_fmap_2|done|]. by rewrite Hmt.
    + exfalso. apply elem_of_concat in Hi as (l & Hl & Hs).
      destruct (wf_loaded _ _ _ _ Hwf l s Hl Hs) as [(t & Hg' & _) _ _]. unfold store_get in Hg'. congruence.
Qed.

(** The immutable map hides nothing of the version. *)
Lemma store_view_mem contents (st : Store T) k :
  mem_inv contents st →
  store_view contents st k
  = match visible (sm_iter (ti_mem (mt_inner (so_mem_table st)))) k (λ _, true) with
    | Some v => v
    | None => default None (version_find contents (store_version st) k)
    end.
Proof.
  intros [Hwf _ Himm _]. unfold store_view. pose proof (wf_seq _ _ Hwf) as Hseq.
  rewrite (table_view_bound _ _ k SEQ_MAX Hwf) by lia.
  unfold table_view. destruct (visible _ k _) as [v|] eqn:E; [done|].
  destruct (ti_immut _) as [m|] eqn:Em; [|done].
  destruct (visible (sm_iter m) k _) as [v|] eqn:Ev; [|done]. by rewrite (Himm m k v eq_refl Ev).
Qed.
(** The storage opened on a version and on a log that holds the table [t]. *)
Lemma reopen_on contents (st : Store T) config t ws now try_lock wal tables c :
  store_inv contents st → gen_ok st (ti_log_writer (mt_inner t)).2 → wal_logged t ws →
  ver_kept (cfg_ver_log_snapshot_threshold config) (so_status st) →
  vs_edit_approximate_count (so_status st) < cfg_ver_log_snapshot_threshold config →
  (0 < cfg_sst_file_size config)%N → length (cfg_level_table_type config) = MAX_LEVEL →
  lock_or_time_out try_lock = Ok () → (gen_buf (so_counters st) ≤ now)%Z →
  (1 ≤ seq_count c ≤ SEQ_MAX)%Z → wal_left t wal → tables_left st tables →
  ∃ s', open_with_config config now try_lock wal (status_files (so_status st)) tables c = Some (Ok s') ∧
    kip_inv contents s' ∧
    keymap_eq (view contents s') (λ k,
      match visible (sm_iter (ti_mem (mt_inner t))) k (λ _, true) with
      | Some v => v
      | None => default None (version_find contents (store_version st) k)
      end).
Proof.
  intros Hst [Hg1 Hg2 Hg3] Hw Hv Hcount Hsize Htypes Hlock Hnow Hseq Hwal Htab.
  destruct (Hv Hcount) as [logs Hlogs]. unfold open_with_config, store_inner_new. rewrite Hlock.
  destruct (mem_table_reopen config _ ws wal (gen_init now c) Hw Hwal Hseq)
    as (t' & c1 & -> & Hwf & Hsq & Hgb & Htx & Himm & Hgen & Hkeys & Hvis).
  destruct (status_reopen _ logs c1 Hlogs)
    as (vs & h & c2 & -> & Hsame & Hmeta & Hh & Hcells & Hlog & Hch & Hsq2 & Hgb2).
  cbn [res_bind]. eexists. split; [done|]. cbn [gen_init gen_buf seq_count] in *.
  assert (mem_inv contents {| so_mem_table := t'; so_tables := tables; so_status := vs; so_seeks := h;
                              so_counters := c2 |}) as Hmem'.
  { destruct Hwf as [Hw1 Hw2 Hw3 Hw4].
    split; cbn [so_mem_table so_status so_counters]; [split; rewrite ?Hsq2; done|done|by rewrite Himm|].
    rewrite Hgen. split; cbn [so_status so_counters].
    - by rewrite (same_levels_gens _ _ Hsame).
    - intros l x Hl Hx. destruct (same_levels_lookup _ _ _ _ Hsame Hl) as (l' & Hl' & E).
      destruct (same_scope _ _ _ E Hx) as (x' & Hx' & Ex). injection Ex as _ _ ->. by eapply Hg2.
    - lia. }
  split_and!.
  - split; cbn [ks_inner ks_config ks_compactor_tx task_open]; try done.
    eapply (reopened_store_inv contents st); try done. lia.
  - intros k. unfold view. cbn [ks_inner]. rewrite (store_view_mem _ _ k Hmem').
    cbn [so_mem_table so_status]. rewrite Hvis.
    by rewrite (version_find_same contents _ _ k Hsame).
Qed.

Lemma storage_reopen contents (s : KipStorage T) now try_lock wal tables c :
  kip_inv contents s → disk_inv s → vs_edit_approximate_count (so_status (ks_inner s)) < threshold_of s →
  lock_or_time_out try_lock = Ok () → (gen_buf (so_counters (ks_inner s)) ≤ now)%Z →
  (1 ≤ seq_count c ≤ SEQ_MAX)%Z → wal_left (mem_table s) wal → tables_left (ks_inner s) tables →
  ∃ s', open_with_config (ks_config s) now try_lock wal (status_files (so_status (ks_inner s))) tables c
        = Some (Ok s') ∧
    kip_inv contents s' ∧ keymap_eq (view contents s') (view contents s).
Proof.
  intros [Hst Hmem Ho Hsize Htypes] [[ws Hw] Hv] Hcount Hlock Hnow Hseq Hwal Htab.
  destruct (reopen_on contents (ks_inner s) (ks_config s) (mem_table s) ws now try_lock wal tables c
    Hst (mi_gen _ _ Hmem)) as (s' & Hopen & Hk & Hview); try done.
  exists s'. split_and!; try done. intros k. rewrite (Hview k). unfold view. by rewrite (store_view_mem _ _ k Hmem).
Qed.

(** *** The logs along a run *)

Lemma kip_run_disk contents (s : KipStorage T) tr s' :
  kip_inv contents s → disk_inv s → Forall label_wf tr.*2 → kip_run s tr s' →
  Forall event_safe tr → Forall event_timely tr → (seq_of s + Z.of_nat (length tr) ≤ SEQ_MAX)%Z →
  ∃ contents', kip_inv contents' s' ∧ disk_inv s' ∧ ks_config s' = ks_config s ∧
    map_run (view contents s) tr.*2 (view contents' s').
Proof.
  intros Hk Hd Hls Hrun. revert contents Hk Hd Hls. induction Hrun as [s|s1 l s2 tr s3 Hstep _ IH];
    intros contents Hk Hd Hls Hsafe Htime Hseq; [by exists contents|].
  cbn [length fmap list_fmap snd] in *. apply Forall_cons in Hls as [Hl Hls].
  apply Forall_cons in Hsafe as [Hs Hsafe]. apply Forall_cons in Htime as [Ht Htime].
  destruct (kip_step_ok contents s1 l s2 Hk Hstep Hs ltac:(lia)) as (contents2 & Hk2 & Hsq & Hm).
  destruct (kip_step_disk contents s1 l s2 Hk Hd Hl Hstep) as [Hd2 Hc2].
  destruct (IH contents2 Hk2 Hd2 Hls Hsafe Htime ltac:(lia)) as (contents3 & Hk3 & Hd3 & Hc3 & Hms).
  exists contents3. split_and!; [done|done|congruence|]. cbn. eauto.
Qed.

Lemma open_empty_disk config now try_lock (tables : gmap Z T) c s :
  open_with_config config now try_lock ∅ ∅ tables c = Some (Ok s) → (0 ≤ seq_count c ≤ SEQ_MAX)%Z →
  disk_inv s ∧ ks_config s = config.
Proof.
  intros Hopen Hseq. unfold open_with_config, store_inner_new in Hopen.
  destruct (lock_or_time_out try_lock); [|done..].
  destruct (mem_table_new_empty config (gen_init now c) Hseq)
    as (t & c1 & Ht & Hwf & _ & _ & _ & Hmem & Hwal & Hlw & _). rewrite Ht in Hopen.
  destruct (load_with_path ∅ c1) as [[[[vs h] c2]| |]|] eqn:El; try done. cbn [res_bind] in Hopen.
  injection Hopen as <-. split; [|done]. split; [|by eapply load_empty_kept]. exists [].
  unfold mem_table. cbn [ks_inner so_mem_table]. split; try done.
  - by rewrite Hlw.
  - intros k. by rewrite Hmem.
  - by intros kv ?%not_elem_of_nil.
  - intros g. rewrite Hwal, lookup_empty. by intros [? ?].
Qed.
(** A storage opened on empty directories, used through any interleaving of commands,
    flushes and compactions with safe tasks and timely removals, and then opened again on the
    files it left (the current write-ahead log with nothing left in the writer's buffer, the
    version log, the tables of the version) once the clock has moved on, represents the map
    its commands have made: no committed write is lost and no deleted key comes back.  The
    writes are within the limits of the log format and no snapshot of the version log was
    taken. *)
Theorem storage_recovery config now try_lock (tables0 : gmap Z T) c s tr s' now' try_lock' wal tables c' :
  (0 ≤ seq_count c)%Z → (0 < cfg_sst_file_size config)%N →
  length (cfg_level_table_type config) = MAX_LEVEL → lock_or_time_out try_lock = Ok () →
  open_with_config config now try_lock ∅ ∅ tables0 c = Some (Ok s) →
  kip_run s tr s' → Forall event_safe tr → Forall event_timely tr → Forall label_wf tr.*2 →
  (seq_count c + Z.of_nat (length tr) ≤ SEQ_MAX)%Z →
  vs_edit_approximate_count (so_status (ks_inner s')) < cfg_ver_log_snapshot_threshold config →
  lock_or_time_out try_lock' = Ok () → (gen_buf (so_counters (ks_inner s')) ≤ now')%Z →
  (1 ≤ seq_count c' ≤ SEQ_MAX)%Z → wal_left (mem_table s') wal → tables_left (ks_inner s') tables →
  ∃ s'' contents,
    open_with_config config now' try_lock' wal (status_files (so_status (ks_inner s'))) tables c'
    = Some (Ok s'') ∧
    kip_inv contents s'' ∧ map_run (λ _, None) tr.*2 (view contents s'').
Proof.
  intros Hseq Hsize Htypes Hlock Hopen Hrun Hsafe Htime Hls Hmax Hcount Hlock' Hnow Hseq' Hwal Htab.
  destruct (open_empty_correct config now try_lock tables0 c Hlock ltac:(lia) Hsize Htypes)
    as (s0 & Hs0 & Hk0 & Hsq0 & _ & Hv0).
  rewrite Hopen in Hs0. injection Hs0 as <-.
  destruct (open_empty_disk config now try_lock tables0 c s Hopen ltac:(lia)) as [Hd0 Hcfg].
  destruct (kip_run_disk _ s tr s' Hk0 Hd0 Hls Hrun Hsafe Htime ltac:(lia)) as (contents & Hk & Hd & Hc & Hm).
  rewrite Hcfg in Hc. subst config. rewrite <- Hc in *.
  destruct (storage_reopen contents s' now' try_lock' wal tables c' Hk Hd)
    as (s'' & Ho & Hk' & Hv); try done.
  exists s'', contents. split_and!; [done|done|]. eapply map_run_proper; [symmetry; exact Hv0|exact Hv|exact Hm].
Qed.
(** C16: [flush] completes: when the channel has room and every task in front of it, and the
    flush itself, is ready (its level exists, no transaction is alive) and safe when its turn
    comes, it returns without an error, and then the memory table is empty and everything
    the storage represents, unchanged, is read from the tables of its version.  The code
    does not test the conditions: with a live transaction the flush does not return, and an
    unsafe selection changes the map. *)
Theorem flush_complete contents (s : KipStorage T) :
  kip_inv contents s → length (task_queue (ks_compactor_tx s)) < TASK_CAPACITY →
  tasks_ok (ks_config s) (task_queue (ks_compactor_tx s) ++ [TaskFlush (Some true)]) (ks_inner s) →
  ∃ contents' s', storage_flush s = Some (Ok s') ∧ kip_inv contents' s' ∧
    mem_is_empty (mem_table s') = true ∧
    keymap_eq (view contents' s') (view contents s) ∧
    keymap_eq (view contents s) (λ k, default None (version_find contents' (current_version s') k)).
Proof.
  intros Hk Hlen Hok. destruct (storage_flush_ok contents s Hk Hlen Hok)
    as (contents' & s1 & s' & Hf & Hq & Hb & Hk' & _ & Hv).
  assert (sm_iter (ti_mem (mt_inner (so_mem_table (ks_inner s')))) = []) as Hmem.
  { unfold background_step in Hb. rewrite Hq in Hb.
    destruct (run_task _ _ _) as [[st| |]|] eqn:Er; cbn [res_bind] in Hb; [|done..].
    injection Hb as <-. cbn [set_tx set_inner_store ks_inner].
    destruct (run_task_frame _ (λ _, True) (λ _ _ _ _ _ _ _ _ _, I) _ _ _ Er)
      as [_ [[-> He]|(values & c & Hsw)]]; [by eapply sm_is_empty_spec, He|].
    unfold swap in Hsw. case_decide; [done|]. destruct (sm_is_empty _); [done|].
    destruct (ti_log_writer _) as [w g]. cbn [gen_create] in Hsw. injection Hsw as _ <- _. apply sm_iter_new. }
  exists contents', s'. split_and!; try done.
  - by apply sm_is_empty_spec.
  - etrans; [symmetry; exact Hv|]. intros k. unfold view.
    by rewrite (store_view_mem _ _ k (ki_mem _ _ Hk')), Hmem.
Qed.

(** C17: a crash inside a flush loses every write since the last one.  Once the memory table
    is swapped, the newest log is an empty one, and opening reads no other: until the new
    table is in the version log, a storage opened on the files represents the version
    alone, without the swapped writes, although the log that holds them is still there. *)
Theorem crash_in_flush_loses_writes contents (s : KipStorage T) values mem c1 now try_lock tables c :
  kip_inv contents s → disk_inv s → vs_edit_approximate_count (so_status (ks_inner s)) < threshold_of s →
  swap (mem_table s) (so_counters (ks_inner s)) = Some (Some values, mem, c1) →
  lock_or_time_out try_lock = Ok () → (gen_buf c1 ≤ now)%Z → (1 ≤ seq_count c ≤ SEQ_MAX)%Z →
  tables_left (ks_inner s) tables →
  wal_files mem !! (ti_log_writer (mt_inner (mem_table s))).2
  = Some (sk_content (lw_dst (ti_log_writer (mt_inner (mem_table s))).1)) ∧
  ∃ s', open_with_config (ks_config s) now try_lock (wal_files mem)
          (status_files (so_status (ks_inner s))) tables c = Some (Ok s') ∧
    keymap_eq (view contents s') (λ k, default None (version_find contents (current_version s) k)).
Proof.
  intros [Hst Hmem Ho Hsize Htypes] [[ws Hw] Hv] Hcount Hswap Hlock Hnow Hseq Htab.
  pose proof (mi_gen _ _ Hmem) as [Hg1 Hg2 Hg3]. unfold mem_table in *.
  pose proof (swap_logged _ _ ws _ _ _ Hg3 Hw Hswap) as Hw'.
  assert (tx_count (so_mem_table (ks_inner s)) = 0) as Htx
    by (unfold swap in Hswap; case_decide; [done|lia]).
  pose proof (swap_spec (so_mem_table (ks_inner s)) (so_counters (ks_inner s)) Htx) as Hspec.
  destruct (sm_is_empty _); [congruence|].
  destruct Hspec as (mem' & c1' & Hsw & _ & Hgb & _ & _ & _ & _ & Hgen').
  rewrite Hswap in Hsw. injection Hsw as -> <- <-. split.
  { unfold wal_files. rewrite Hgen', lookup_insert_ne by lia. unfold swap in Hswap.
    rewrite decide_False in Hswap by lia. destruct (sm_is_empty _); [done|].
    destruct (ti_log_writer (mt_inner (so_mem_table (ks_inner s)))) as [w g]. cbn [gen_create fst snd] in *.
    injection Hswap as _ <- <-. cbn [set_inner mt_inner ti_wal]. by rewrite lookup_insert_eq. }
  destruct (reopen_on contents (set_mem_table (ks_inner s) mem c1) (ks_config s) mem [] now try_lock
    (wal_files mem) tables c) as (s' & Hopen & _ & Hview); try done.
  - apply set_mem_table_inv; [done|lia].
  - rewrite Hgen'. split; cbn [set_mem_table so_status so_counters].
    + intros Hin%(si_fresh _ _ Hst). lia.
    + intros l x Hl Hx. apply (si_fresh _ _ Hst). by eapply level_0_gens_in.
    + lia.
  - by eapply wal_files_left.
  - exists s'. split; [exact Hopen|]. intros k. rewrite (Hview k), (wl_mem _ _ Hw' k). done.
Qed.

End recovery.

(** ** Witnesses *)

Module RecoverySample.
Import Reference CompactorSample StorageSample.

Definition locked : nat → KernelResult bool := λ _, Ok true.

Definition open_on (now : Z) (wal ver : Dir) (tables : gmap Z BTreeTable) :=
  open_with_config config now locked wal ver tables (mkCounters 1 0).

Definition s0 : KipStorage BTreeTable := settle (open_on 1000 ∅ ∅ ∅) start.

(** Two keys set, one removed, a flush, one more key set. *)
Definition r1 := (storage_exec (CmdSet [x01] [xaa]) s0).2.
Definition r2 := (storage_exec (CmdSet [x02] [xbb]) r1).2.
Definition r3 := (storage_exec (CmdRemove [x01]) r2).2.
Definition r4 := settle (flush_background r3) r3.
Definition r5 := settle (background_step r4) r4.
Definition r6 := (storage_exec (CmdSet [x03] [xcc]) r5).2.

Definition log : list (KipStorage BTreeTable * KLabel) :=
  [(s0, LCmd (CmdSet [x01] [xaa]) (Ok None)); (r1, LCmd (CmdSet [x02] [xbb]) (Ok None));
   (r2, LCmd (CmdRemove [x01]) (Ok None)); (r3, LSilent); (r4, LTask (TaskFlush None));
   (r5, LCmd (CmdSet [x03] [xcc]) (Ok None))].

Lemma s0_opened : open_on 1000 ∅ ∅ ∅ = Some (Ok s0).
Proof. apply settle_Ok. vm_compute. reflexivity. Qed.

Lemma log_run : kip_run s0 log r6.
Proof.
  apply (run_cons _ _ r1); [by apply exec_step|]. apply (run_cons _ _ r2); [by apply exec_step|].
  apply (run_cons _ _ r3); [by apply exec_step|].
  apply (run_cons _ _ r4); [apply step_flush_background, settle_Ok; vm_compute; reflexivity|].
  apply (run_cons _ _ r5); [apply (step_task (TaskFlush None) []); [|apply settle_Ok]; vm_compute; reflexivity|].
  apply (run_cons _ _ r6); [by apply exec_step|]. constructor.
Qed.

Lemma log_wf : Forall label_wf log.*2.
Proof. repeat constructor; try done. Qed.

Lemma log_safe : Forall event_safe log.
Proof.
  do 4 (apply Forall_cons; split; [exact I|]). apply Forall_cons; split.
  { apply (flush_task_ok (ks_config r4) (ks_inner r4) None);
      [done|vm_compute; reflexivity|vm_compute; reflexivity|done]. }
  apply Forall_cons; split; [exact I|]. constructor.
Qed.

Lemma log_timely : Forall event_timely log.
Proof. do 6 (apply Forall_cons; split; [exact I|]). constructor. Qed.

Lemma r6_ok : ∃ contents, kip_inv contents r6 ∧ disk_inv r6.
Proof.
  destruct (open_empty_correct config 1000 locked (∅ : gmap Z BTreeTable) (mkCounters 1 0)) as (s & Hs & Hk & Hsq & _);
    [reflexivity|vm_compute; split; discriminate|reflexivity|reflexivity|].
  pose proof s0_opened as H0. unfold open_on in H0. rewrite Hs in H0. injection H0 as ->.
  destruct (open_empty_disk _ _ _ _ _ _ Hs) as [Hd _]; [vm_compute; split; discriminate|].
  destruct (kip_run_disk _ s0 log r6 Hk Hd log_wf log_run log_safe log_timely) as (contents & Hk' & Hd' & _);
    [rewrite Hsq; vm_compute; discriminate|]. eauto.
Qed.

Lemma storage_recovery_witness :
  ∃ s'' contents,
    open_on 2000 (wal_files (mem_table r6)) (status_files (so_status (ks_inner r6))) (so_tables (ks_inner r6))
    = Some (Ok s'') ∧
    kip_inv contents s'' ∧ map_run (λ _, None) log.*2 (view contents s'').
Proof.
  apply (storage_recovery config 1000 locked ∅ (mkCounters 1 0) s0 log r6 2000 locked).
  - vm_compute. discriminate.
  - vm_compute. reflexivity.
  - reflexivity.
  - reflexivity.
  - exact s0_opened.
  - exact log_run.
  - exact log_safe.
  - exact log_timely.
  - exact log_wf.
  - vm_compute. discriminate.
  - vm_compute. lia.
  - reflexivity.
  - vm_compute. discriminate.
  - vm_compute. split; discriminate.
  - destruct r6_ok as (contents & _ & [[ws Hw] _]). exact (wal_files_left _ ws Hw).
  - apply tables_left_refl.
Defined.

Lemma storage_stays_typed_witness : storage_typed r6.
Proof.
  apply (storage_stays_typed config 1000 locked ∅ (mkCounters 1 0) s0 log r6).
  - reflexivity.
  - vm_compute. discriminate.
  - vm_compute. reflexivity.
  - reflexivity.
  - exact s0_opened.
  - exact log_run.
  - exact log_safe.
  - vm_compute. discriminate.
Defined.

(** What the reopened storage answers. *)
Definition answers (s : KipStorage BTreeTable) : list (KernelResult (option bytes)) :=
  (λ b, (storage_get [b] s).1) <$> [x01; x02; x03].

Example reopened_answers :
  answers (settle (open_on 2000 (wal_files (mem_table r6)) (status_files (so_status (ks_inner r6)))
                     (so_tables (ks_inner r6))) start)
  = [Ok None; Ok (Some [xbb]); Ok (Some [xcc])].
Proof. vm_compute. reflexivity. Qed.

(** The key set after the flush is lost when the next flush crashes. *)
Lemma crash_in_flush_loses_writes_witness :
  ∃ contents values mem c1 s',
    swap (mem_table r6) (so_counters (ks_inner r6)) = Some (Some values, mem, c1) ∧
    open_on 2000 (wal_files mem) (status_files (so_status (ks_inner r6))) (so_tables (ks_inner r6))
    = Some (Ok s') ∧
    keymap_eq (view contents s') (λ k, default None (version_find contents (current_version r6) k)).
Proof.
  destruct r6_ok as (contents & Hk & Hd).
  assert (match swap (mem_table r6) (so_counters (ks_inner r6)) with
          | Some (Some _, _, c1) => bool_decide (gen_buf c1 ≤ 2000)%Z | _ => false end = true) as Hsw
    by (vm_compute; reflexivity).
  destruct (swap (mem_table r6) (so_counters (ks_inner r6))) as [[[[values|] mem] c1]|] eqn:Es; [|discriminate..].
  destruct (crash_in_flush_loses_writes contents r6 values mem c1 2000 locked
    (so_tables (ks_inner r6)) (mkCounters 1 0) Hk Hd) as (_ & s' & Hopen & Hview).
  - vm_compute. lia.
  - exact Es.
  - reflexivity.
  - by apply bool_decide_eq_true in Hsw.
  - vm_compute. split; discriminate.
  - apply tables_left_refl.
  - exists contents, values, mem, c1, s'. split; [reflexivity|]. split; [exact Hopen|exact Hview].
Defined.

Lemma flush_complete_witness :
  ∃ contents contents' s', storage_flush r6 = Some (Ok s') ∧ kip_inv contents' s' ∧
    mem_is_empty (mem_table s') = true ∧
    keymap_eq (view contents' s') (view contents r6) ∧
    keymap_eq (view contents r6) (λ k, default None (version_find contents' (current_version s') k)).
Proof.
  destruct r6_ok as (contents & Hk & _). exists contents. apply (flush_complete contents r6 Hk).
  - apply Nat.ltb_lt. vm_compute. reflexivity.
  - assert (task_queue (ks_compactor_tx r6) = []) as -> by (vm_compute; reflexivity). split; [|done].
    apply (flush_task_ok (ks_config r6) (ks_inner r6) (Some true));
      [discriminate|vm_compute; reflexivity|vm_compute; reflexivity|done].
Defined.


(** Writes after a restart destroy the log they were recovered from.  The log is reopened
    at its start, so the first write of the second session overwrites the record of the
    first one: after another restart the key set before the first is gone. *)
Theorem second_restart_loses_writes :
  let set b s := (storage_exec (CmdSet [b] [b]) s).2 in
  let restart now (s : KipStorage BTreeTable) :=
    settle (open_on now (wal_files (mem_table s)) (status_files (so_status (ks_inner s))) (so_tables (ks_inner s)))
      start in
  let session1 := set x01 s0 in
  let session2 := restart 2000%Z session1 in
  let session3 := restart 3000%Z (set x02 session2) in
  (answers session1, answers session2, answers session3)
  = ([Ok (Some [x01]); Ok None; Ok None], [Ok (Some [x01]); Ok None; Ok None],
     [Ok None; Ok (Some [x02]); Ok None]).
Proof. vm_compute. reflexivity. Qed.
(** The version log is reopened at its end, with the offset in the block taken to be 0: a
    record that fills the writer's block then runs over the reader's, and the next load
    fails on the subtraction of the offset from the block size. *)
Definition reopened (w : LogWriter) : LogWriter :=
  (log_seek_end (log_writer_new {| sk_content := sk_content (lw_dst w); sk_pos := 0 |})).1.

Remark reopened_log_misaligned :
  match write_records fresh_log [[x01]] with
  | Ok w1 =>
      match write_records (reopened w1) [replicate (BLOCK_SIZE - HEADER_SIZE) x02] with
      | Ok w2 => log_load (one_chunk (sk_content (lw_dst w2))) (λ b acc, Ok (acc ++ [length b])) []
      | _ => None
      end
  | _ => None
  end = Some Panic.
Proof. vm_compute. reflexivity. Qed.
End RecoverySample.

(** ** Past the snapshot threshold

    The recovery theorems ask for a version log without a snapshot.  The condition is
    needed: a run of sets and flushes past the threshold, with tables of level 1 whose
    generations are not in key order, is not recovered. *)
Module SnapshotLoss.
Import Reference StatusSample StorageSample RecoverySample.

(** One table makes level 0 full, and the fourth edit is the first to find a full count. *)
Definition config : Config :=
  config_ver_log_snapshot_threshold (config_major_threshold_with_sst_size (config_new "db"%string) 1) 4.

Definition open_at (now : Z) (wal ver : Dir) (tables : gmap Z BTreeTable) :=
  open_with_config config now locked wal ver tables (mkCounters 1 0).

(** The sets of one round, then [flush]. *)
Definition set_and_flush (s : KipStorage BTreeTable) (kvs : list (bytes * bytes))
    : KernelResult (KipStorage BTreeTable) :=
  let? s' := res_foldM (λ s '(key, value),
               let '(r, s') := storage_set key value s in let? _ := r in Ok s') s kvs in
  default Panic (storage_flush s').

(** The second round moves the table of keys 8 and 9 to level 1, the fourth puts the newer
    table of keys 1 and 2 before it, the sixth writes a snapshot first. *)
Definition rounds : list (list (bytes * bytes)) :=
  [[([x08], [xa8]); ([x09], [xa9])]; [([x09], [xb9])]; [([x01], [xa1]); ([x02], [xa2])];
   [([x01], [xb1])]; [([x05], [xa5])]; [([x06], [xa6])]].

Definition before : KernelResult (KipStorage BTreeTable) :=
  let? s := default Panic (open_at 1000 ∅ ∅ ∅) in res_foldM set_and_flush s rounds.

(** The same storage opened again on its files. *)
Definition after : KernelResult (KipStorage BTreeTable) :=
  let? s := before in
  default Panic (open_at 2000 (wal_files (mem_table s)) (status_files (so_status (ks_inner s)))
                   (so_tables (ks_inner s))).

(** Every call succeeds, the key is read before the restart and is gone after it. *)
Theorem snapshot_recovery_loses_key :
  ∃ s s', before = Ok s ∧ after = Ok s' ∧
    (storage_get [x08] s).1 = Ok (Some [xa8]) ∧ (storage_get [x08] s').1 = Ok None.
Proof.
  assert (∀ A (r : KernelResult A), match r with Ok _ => true | _ => false end = true → ∃ a, r = Ok a)
    as Hok by (intros A [a| |]; [by exists a|done..]).
  destruct (Hok _ after) as [s' Hs']; [vm_compute; reflexivity|].
  destruct (Hok _ before) as [s Hs]; [vm_compute; reflexivity|].
  exists s, s'. split_and!; [done|done| |].
  - assert (res_map (λ s, (storage_get [x08] s).1) before = Ok (Ok (Some [xa8]))) as H
      by (vm_compute; reflexivity).
    rewrite Hs in H. by injection H.
  - assert (res_map (λ s, (storage_get [x08] s).1) after = Ok (Ok None)) as H
      by (vm_compute; reflexivity).
    rewrite Hs' in H. by injection H.
Qed.
End SnapshotLoss.
