(* ===== verification/Engine.v ===== *)
(** * The storage over its table files

    The compactor and the storage are verified for every kind of table that keeps the
    promises of [TableBuilderLaws].  Here the tables are the ones of the table loader,
    boxed files and in-memory tables: files are written by [sst_new] with the format of
    [SSTable.v], and a restart reads them back with the loader's [load_table].  The file
    discharges the interface and closes the chain from the commands of a client to the
    bytes in the table directory: every table of a running storage was built from data its
    format can hold, so a storage that is opened again on the bytes of its three
    directories represents the same map. *)

From S2P Require Import Prelude Std Crates Block Iterator BlockIter Io Log Config Bloom Lru Builder MemTable Scope.
From S2P Require Import BTreeTable SSTable SSTableIter Version VersionIter Cleaner Status Compactor Loader CompactorCorrect Storage StorageCorrect StorageRefine Recovery.
From Stdlib Require Import ZArith Lia Strings.Byte Strings.String Sorted.
From stdpp Require Import base list gmap sorting.

Set Default Goal Selector "!".
Open Scope nat_scope.

(** ** Where the tables of a storage come from *)

Section made.
Context {SM : SkipMapOps InternalKey (option bytes)} {SML : SkipMapLaws InternalKey (option bytes)}.
Context `{IE : IntegerEncoding} {IEL : IntegerEncodingLaws} {CRC : Crc32} {CRCL : Crc32Laws}.
Context {IT : Itertools} {ITL : ItertoolsLaws} {BC : Bincode (list RawEdit)}.
Context {T : Type} {TB : Table T} {BLD : TableBuilder T} {BLDL : TableBuilderLaws T}.
Context (config : Config).

(** A table built, for some level, from data its format can hold. *)
Definition table_made (g : Z) (t : T) : Prop :=
  ∃ tp data level, tp ∈ cfg_level_table_type config ∧ buildable tp g data level ∧
    build_table tp g data level = Ok t.

Definition tables_made (st : Store T) : Prop :=
  ∀ g t, so_tables st !! g = Some t → table_made g t.

Lemma tables_made_same (st st' : Store T) : so_tables st' = so_tables st → tables_made st → tables_made st'.
Proof. intros E. unfold tables_made. by rewrite E. Qed.

Lemma loader_create_made st gen data level tp scope meta st' :
  tp ∈ cfg_level_table_type config → buildable tp gen data level → tables_made st →
  loader_create st gen data level tp = Ok (scope, meta, st') → tables_made st'.
Proof.
  intros Htp Hb Hm. unfold loader_create.
  destruct (from_sorted_vec_data _ _ _) as [[sc h]| |]; [|done..]. cbn [res_bind].
  destruct (build_table _ _ _ _) as [t| |] eqn:Et; [|done..]. cbn [res_bind]. intros [= _ _ <-] g t'.
  cbn [so_tables]. rewrite lookup_insert_Some. intros [[<- <-]|[_ Hg]]; [|by apply Hm]. by exists tp, data, level.
Qed.

Lemma create_tables_made shards level tp st created st' :
  tp ∈ cfg_level_table_type config → Forall (λ s : Z * list KeyValue, buildable tp s.1 s.2 level) shards →
  tables_made st → create_tables st shards level tp = Ok (created, st') → tables_made st'.
Proof.
  intros Htp. revert st created. induction shards as [|[gen data] shards IH]; intros st created Hall Hm;
    cbn [create_tables]; [by intros [= _ <-]|].
  apply Forall_cons in Hall as [Hb Hall].
  destruct (loader_create _ _ _ _ _) as [[[scope meta] st1]| |] eqn:E1; [|done..]. cbn [res_bind].
  destruct (create_tables st1 _ _ _) as [[rest st2]| |] eqn:E2; [|done..]. cbn [res_bind]. intros [= _ <-].
  eapply IH; [done| |done]. by eapply loader_create_made.
Qed.

Lemma data_loading_tables st level target skip r st' :
  data_loading_with_level config st level target skip = Ok (r, st') → so_tables st' = so_tables st.
Proof.
  unfold data_loading_with_level. case_decide; [by intros [= <- <-]|].
  destruct (if skip then _ else _) as [exceeded| |]; [|done..]. cbn [res_bind].
  destruct (negb exceeded); [by intros [= <- <-]|].
  destruct (tables_by_scopes _ _ _ _) as [[[tl sl] ?]| |]; [|done..]. cbn [res_bind].
  destruct sl as [|s sl]; [by intros [= <- <-]|].
  destruct (tables_by_scopes _ _ _ _) as [[[tll ?] index]| |]; [|done..]. cbn [res_bind].
  destruct (collect_gen tl) as [dl| |]; [|done..]. cbn [res_bind].
  destruct (collect_gen tll) as [dll| |]; [|done..]. cbn [res_bind].
  destruct (data_merge_and_sharding _ _ _ _) as [[shards c]| |]; [|done..]. cbn [res_bind].
  by intros [= <- <-].
Qed.

Lemma compaction_round_made contents st level target edits skip over st' :
  round_ok config contents st level target skip → tables_made st →
  compaction_round config st level target edits skip = Ok (over, st') → tables_made st'.
Proof.
  intros Hok Hm. unfold compaction_round.
  assert (∀ (o : bool) es st2, tables_made st2 →
    match es with
    | [] => Ok (o, st2)
    | _ => let? (vs, c) := log_and_apply (so_status st2) (so_seeks st2) (so_counters st2) es
                             (cfg_ver_log_snapshot_threshold config) in
           Ok (o, set_status st2 vs c)
    end = Ok (over, st') → tables_made st') as Hlog.
  { intros o es st2 H2. destruct es as [|e es]; [by intros [= _ <-]|].
    destruct (log_and_apply _ _ _ _ _) as [[vs c]| |]; [|done..]. cbn [res_bind]. by intros [= _ <-]. }
  destruct Hok as [->|[_ Hbuild]]; cbn [res_bind]; [by apply Hlog|].
  destruct (data_loading_with_level _ _ _ _ _) as [[loaded st1]| |] eqn:E1; [|done..]. cbn [res_bind].
  pose proof (data_loading_tables _ _ _ _ _ _ E1) as Ht.
  apply (tables_made_same _ _ Ht) in Hm.
  destruct loaded as [[[index [dl dll]] shards]|]; [|by apply Hlog].
  destruct (cfg_level_table_type config !! (level + 1)) as [tp|] eqn:Etp; [|done]. cbn [or_panic res_bind].
  destruct (create_tables _ _ _ _) as [[created st2]| |] eqn:E2; [|done..]. cbn [res_bind]. apply Hlog.
  eapply create_tables_made; [by eapply list_elem_of_lookup_2| |done|done]. by eapply Hbuild.
Qed.

Context (Hsize : (0 < cfg_sst_file_size config)%N)
        (Htypes : length (cfg_level_table_type config) = MAX_LEVEL).

Lemma major_loop_made fuel contents st level target skip st' :
  store_inv contents st → rounds_ok config fuel st level target [] skip → tables_made st →
  major_loop fuel config st level target [] skip = Ok st' → tables_made st'.
Proof.
  revert contents st level skip. induction fuel as [|fuel IH]; intros contents st level skip Hinv Hok Hm.
  { by intros [= <-]. }
  cbn [major_loop rounds_ok] in *. case_decide as Hl; [|by intros [= <-]].
  destruct (Hok Hl) as [Hsel Hnext]. specialize (Hsel _ Hinv).
  destruct (compaction_round_spec config contents st level target skip Hinv Hsel Hsize Hl Htypes)
    as (over & contents1 & st1 & Hr & Hi1 & _).
  pose proof (compaction_round_made _ _ _ _ _ _ _ _ Hsel Hm Hr) as Hm1.
  rewrite Hr. cbn [res_bind]. destruct over; [by intros [= <-]|]. by apply (IH contents1); auto.
Qed.

Lemma minor_compaction_made contents st gen values st' :
  store_inv contents st → gen_ok st gen → ksorted values → values ≠ [] → (∀ e, e ∈ values → e.1 ≠ []) →
  (∀ tp, cfg_level_table_type config !! LEVEL_0 = Some tp → buildable tp gen values LEVEL_0) →
  (∀ tp scope meta st1, loader_create st gen values LEVEL_0 tp = Ok (scope, meta, st1) →
     rounds_ok config (S MAX_LEVEL) st1 LEVEL_0 scope [NewFile ([scope], 0) 0 meta] false) →
  tables_made st → minor_compaction config st gen values = Ok st' → tables_made st'.
Proof.
  intros Hinv Hgen Hs Hne Hkeys Hbuild Hrounds Hm. unfold minor_compaction.
  destruct values as [|e vs] eqn:Ev; [done|]. rewrite <- Ev in *.
  destruct (cfg_level_table_type config !! LEVEL_0) as [tp|] eqn:Htp; [|done]. cbn [or_panic res_bind].
  specialize (Hbuild tp eq_refl).
  destruct (loader_create_ok config Hsize Htypes contents st gen values tp Hinv Hgen Hs Hne Hkeys Hbuild)
    as (scope & meta & st1 & Hlc & _ & _ & _ & _ & Hi1 & Hin).
  apply (loader_create_made st gen values LEVEL_0 tp scope meta st1) in Hm;
    [|by eapply list_elem_of_lookup_2|done|done].
  specialize (Hrounds tp scope meta st1 Hlc). rewrite Hlc. cbn [res_bind].
  unfold major_compaction. case_decide; [done|]. cbn [major_loop rounds_ok] in *.
  case_decide as Hl; [|by intros [= <-]]. destruct (Hrounds Hl) as [Hsel Hnext]. specialize (Hsel _ Hi1).
  destruct (minor_round config Hsize Htypes _ st1 scope meta Hi1 Hin Hsel) as (over & contents2 & st2 & Hr & Hi2 & _).
  pose proof (compaction_round_made _ _ _ _ _ _ _ _ Hsel Hm Hr) as Hm2.
  rewrite Hr. cbn [res_bind]. destruct over; [by intros [= <-]|].
  by apply (major_loop_made _ contents2); auto.
Qed.

Lemma run_task_made contents st task st' :
  store_inv contents st → mem_inv contents st → task_ok config st task → tables_made st →
  run_task config task st = Some (Ok st') → tables_made st'.
Proof.
  intros Hinv Hmem Hok Hm. destruct Hok as [Hready Hok]. destruct task as [scope level|tx];
    cbn [run_task task_ready task_safe] in *.
  { rename Hready into Hl, Hok into Hr. unfold major_compaction. case_decide; [done|]. intros [= Hloop].
    by eapply major_loop_made. }
  destruct Hready as [Htx Htx0]. unfold check_then_compaction.
  destruct (flush_swap contents st Hmem Htx0) as [Hsw|(mem & c & Hsw & Hne & Hrest)]; rewrite Hsw.
  { cbn [res_bind]. by destruct tx as [[]|]; intros [= <-]. }
  destruct Hrest as (Hwf & Htx' & _ & _ & _ & _ & Hgb).
  destruct (Hok _ _ _ _ Hsw) as [Hb Hr]. pose proof (flush_values_ok _ _ Hmem) as (Hs & Hkeys).
  destruct (latest _) as [|e l] eqn:El; [done|]. rewrite <- El in *.
  set (st1 := {| so_mem_table := mem; so_tables := so_tables st; so_status := so_status st;
                 so_seeks := so_seeks st; so_counters := c |}).
  intros Hrun. assert (minor_compaction config st1 (ti_log_writer (mt_inner (so_mem_table st))).2
    (latest (sm_iter (ti_mem (mt_inner (so_mem_table st))))) = Ok st') as Hmc.
  { destruct (minor_compaction _ _ _ _) as [st2| |]; cbn [res_bind] in Hrun; [|done..].
    by destruct tx as [[]|]; injection Hrun as <-. }
  apply (minor_compaction_made contents) in Hmc; try done.
  - apply (set_mem_table_inv contents st mem c); [done|lia].
  - destruct (mi_gen _ _ Hmem) as [Hg1 Hg2 Hg3]. split; try done. cbn. lia.
Qed.

(** Only the background task touches the tables. *)
Definition kept_tables (s s' : KipStorage T) : Prop :=
  so_tables (ks_inner s') = so_tables (ks_inner s) ∧ ks_config s' = ks_config s.

#[local] Instance kept_tables_trans : Transitive kept_tables.
Proof. intros a b c [? ?] [? ?]. split; congruence. Qed.

Lemma storage_get_kept key s r s' : storage_get key s = (r, s') → kept_tables s s'.
Proof.
  unfold storage_get. destruct (mem_find _ _) as [[k v]|]; [by intros [= <- <-]|].
  destruct (query_and_compaction _ _ _ _ _) as [[o h] tx]. by intros [= <- <-].
Qed.

Lemma append_cmd_data_kept data s r s' : append_cmd_data data s = (r, s') → kept_tables s s'.
Proof.
  unfold append_cmd_data. destruct (insert_data _ _ _) as [[[ex m] c]| |]; [|by intros [= <- <-]..].
  destruct ex; [|by intros [= <- <-]]. by destruct (try_send _ _); intros [= <- <-].
Qed.

Lemma storage_exec_kept cmd s r s' : storage_exec cmd s = (r, s') → kept_tables s s'.
Proof.
  destruct cmd as [key value|key|key]; cbn [storage_exec].
  - unfold storage_set. destruct (append_cmd_data _ _) as [r1 s1] eqn:E. intros [= _ <-].
    by eapply append_cmd_data_kept.
  - unfold storage_remove. destruct (storage_get key s) as [r1 s1] eqn:Eg. apply storage_get_kept in Eg.
    destruct r1 as [[v|]| |]; [|by intros [= _ <-]..].
    destruct (append_cmd_data _ s1) as [r2 s2] eqn:E. intros [= _ <-].
    etrans; [done|]. by eapply append_cmd_data_kept.
  - by apply storage_get_kept.
Qed.

Lemma send_task_kept task s s' : send_task task s = Some (Ok s') → kept_tables s s'.
Proof. unfold send_task. destruct (send _ _) as [[tx| |]|]; [|done..]. by intros [= <-]. Qed.

Lemma kip_step_made contents (s : KipStorage T) l s' :
  ks_config s = config → kip_inv contents s → kip_step s l s' → event_safe (s, l) → tables_made (ks_inner s) →
  tables_made (ks_inner s') ∧ ks_config s' = config.
Proof.
  intros Hc Hk Hstep Hsafe Hm.
  assert (∀ s1, kept_tables s s1 → tables_made (ks_inner s1) ∧ ks_config s1 = config) as Hkept.
  { intros s1 [Ht ->]. split; [by eapply tables_made_same|done]. }
  destruct Hstep as [s cmd r s' Hkey He|key value s s' Hkey Hg|key r s s' Hkey He|s s' Hs|s s' Hs
    |min max level s s' Hmc|task rest s s' Hq Hb].
  - by eapply Hkept, storage_exec_kept.
  - by eapply Hkept, storage_get_kept.
  - by eapply Hkept, append_cmd_data_kept.
  - by eapply Hkept, send_task_kept.
  - by eapply Hkept, send_task_kept.
  - apply Hkept. unfold manual_compaction in Hmc. destruct (le_b min max); [|by injection Hmc as <-].
    cbn [from_range] in Hmc. by eapply send_task_kept in Hmc.
  - pose proof (background_ready s task rest s' Hq Hb) as Hready. unfold background_step in Hb. rewrite Hq in Hb.
    destruct (run_task _ _ _) as [[st| |]|] eqn:Er; cbn [res_bind] in Hb; [|done..]. injection Hb as <-.
    split; [|done]. cbn [set_tx set_inner_store ks_inner]. unfold event_safe in Hsafe. cbn [fst snd] in Hsafe.
    rewrite Hc in Hsafe, Er. eapply (run_task_made contents); [apply Hk..|by split|done|done].
Qed.

End made.

(** ** Boxed tables as the tables of the compactor *)

(** The loader's [create] up to the cache, for the configuration of the storage; [seeds]
    are the seeds the bloom filter of each table draws.  The table is written into the
    directory under its own generation, whose file is new; [sst_new_files] below says
    that the other files of the directory play no part. *)
Section box.
Context `{IE : IntegerEncoding} {CRC : Crc32} {LZ : Lz4} {IT : Itertools}.
Context {DH : DefaultHasher} {FL : F64}.

Definition create_table (config : Config) (seeds : Z → Z * Z) (table_type : TableType) (gen : Z)
    (vec_data : list KeyValue) (level : nat) : KernelResult BoxTable :=
  match table_type with
  | SortedString =>
      let? (t, _) := sst_new ∅ config gen vec_data level IoDirect (seeds gen) in Ok (inl t)
  | BTree => Ok (inr (btree_table_new level gen vec_data))
  end.

(** The loader of a storage that starts: each table of the version is read back from its
    file, or from the write-ahead log of its generation. *)
Definition reload_tables (factory wal : Dir) (gens : list Z) : gmap Z BoxTable :=
  list_to_map (omap (λ g, match load_table factory wal g with
                          | Some (Ok t) => Some (g, t)
                          | _ => None
                          end) gens).
End box.

Section box_laws.
Context `{IE : IntegerEncoding} {CRC : Crc32} {LZ : Lz4} {IT : Itertools}.
Context {DH : DefaultHasher} {FL : F64}.
Context {IEL : IntegerEncodingLaws} {CRCL : Crc32Laws} {LZL : Lz4Laws} {ITL : ItertoolsLaws}.
Context {FLL : F64Laws}.

Lemma holds_inl (t : SSTable) l : table_holds t l → table_holds (inl t : BoxTable) l.
Proof.
  intros Hh. destruct (serves_inl _ _ (holds_serves _ _ Hh)) as [? ? ?]. split; try done. apply Hh.
Qed.

Lemma holds_inr (t : BTreeTable) l : table_holds t l → table_holds (inr t : BoxTable) l.
Proof.
  intros Hh. destruct (serves_inr _ _ (holds_serves _ _ Hh)) as [? ? ?]. split; try done. apply Hh.
Qed.

(** A table holds one list of entries. *)
Lemma table_holds_unique {T} `{Table T} (t : T) l1 l2 : table_holds t l1 → table_holds t l2 → l1 = l2.
Proof.
  intros [Hs1 Hq1 _ _] [Hs2 Hq2 _ _]. apply btree_get_ext; [done..|]. intros k.
  specialize (Hq1 k). rewrite Hq2 in Hq1. injection Hq1 as Hq.
  destruct (btree_get k l1), (btree_get k l2); cbn in Hq; congruence.
Qed.

(** *** The files of a directory do not disturb each other *)

Lemma sst_new_files d1 d2 config gen data level seeds t1 d1' :
  file_content d1 gen = [] → file_content d2 gen = [] →
  sst_new d1 config gen data level IoDirect seeds = Ok (t1, d1') →
  ∃ t2 d2', sst_new d2 config gen data level IoDirect seeds = Ok (t2, d2') ∧
    st_footer t2 = st_footer t1 ∧ st_meta t2 = st_meta t1 ∧ st_gen t2 = st_gen t1 ∧
    st_reader t2 = st_reader t1 ∧ file_content d2' gen = file_content d1' gen ∧
    ∀ g, g ≠ gen → file_content d2' g = file_content d2 g.
Proof.
  intros H1 H2 Hnew. destruct (sst_new d2 config gen data level IoDirect seeds) as [[t2 d2']| |] eqn:Hnew2.
  2-3: exfalso; revert Hnew Hnew2; unfold sst_new; destruct (res_foldM _ _ _) as [[filter builder]| |];
    [|done..]; cbn [res_bind]; by destruct (builder_build builder) as [[[bs0 n1] n2]| |].
  exists t2, d2'. assert (∀ g, g ≠ gen → file_content d2' g = file_content d2 g) as Hframe
    by (intros g; by eapply sst_new_frame).
  revert Hnew Hnew2. unfold sst_new.
  destruct (res_foldM _ _ _) as [[filter builder]| |]; [|done..]. cbn [res_bind].
  destruct (builder_build builder) as [[[bs0 n1] n2]| |]; [|done..]. cbn [res_bind io_reader].
  intros [= <- <-] [= <- <-]. cbn [st_footer st_meta st_gen st_reader]. split_and!; try done.
  by rewrite !open_file_content, !write_file_fresh.
Qed.

Context (config : Config) (seeds : Z → Z * Z).
Context (Hdata : 2 ≤ cfg_data_restart_interval config) (Hindex : 2 ≤ cfg_index_restart_interval config).
Context (Hseeds : ∀ g, (0 ≤ (seeds g).1 < 2 ^ 64)%Z ∧ (0 ≤ (seeds g).2 < 2 ^ 64)%Z).

(** What a table file can hold: data within the limits of the format, a file whose offsets
    are 32-bit numbers, no block that runs into the inverted checksum test. *)
Record file_holds (gen : Z) (data : list KeyValue) (level : nat) : Prop := {
  fh_data : sst_data_ok config data;
  fh_size n : sst_data_size config data = Ok n → fits_u32 n;
  fh_file t d : sst_new ∅ config gen data level IoDirect (seeds gen) = Ok (t, d) →
    fits_u32 (2 * length (file_content d gen)) ∧ sst_clear t;
}.

Lemma file_created gen data level :
  file_holds gen data level →
  ∃ t, create_table config seeds SortedString gen data level = Ok (inl t) ∧
    table_holds t data ∧ st_gen t = gen ∧
    ∀ d wal, file_content d gen = file_content (st_dir t) gen →
      ∃ t', load_table d wal gen = Some (Ok (inl t')) ∧ table_holds t' data ∧ st_gen t' = gen ∧
        table_meta_from t' = table_meta_from t.
Proof.
  intros [Hok Hsize Hfile]. cbn [create_table].
  destruct (sst_new_written config ∅ gen data level IoDirect (seeds gen) Hok)
    as (t & d' & chunks & filter & Hnew & Hw & Hwf & Hmark & Hle); [done|done|].
  rewrite Hnew. destruct (Hfile _ _ Hnew) as [Hfit Hcl]. cbn [res_bind].
  destruct (sw_gen _ _ _ _ _ _ _ _ Hw) as (Hg & _ & Hdir).
  pose proof (sst_new_built _ _ _ _ _ _ _ _ Hw Hwf Hmark Hfit) as Hb.
  exists t. split_and!; [done|by eapply sst_table_holds|done|]. rewrite Hdir. intros d wal Hd.
  destruct (sst_load_back wal t d' config gen data level chunks filter d) as (t' & Hl & Hh & Hg' & Hft & Hlen);
    try done; rewrite ?(bl_count _ _ Hle), ?(bl_hashers _ _ Hle); try apply f64_as_u64_range; try apply Hseeds.
  exists t'. split_and!; try done. unfold table_meta_from. cbn [table_size_of_disk table_len sst_table].
  unfold sst_size_of_disk. rewrite Hft, Hlen. unfold sst_len. by rewrite (sw_meta _ _ _ _ _ _ _ _ Hw).
Qed.

Definition box_builder : TableBuilder BoxTable := create_table config seeds.
#[local] Existing Instance box_builder.

Definition box_builder_laws : TableBuilderLaws BoxTable.
Proof.
  refine {| buildable tp gen data level :=
              match tp with SortedString => file_holds gen data level | BTree => True end |}.
  intros [] gen data level Hs Hne Hb.
  - destruct (file_created gen data level Hb) as (t & Ht & Hh & Hg & _). exists (inl t).
    split_and!; [exact Ht|by apply holds_inl|done].
  - eexists. split_and!; [done|by apply holds_inr, btree_table_holds|done].
Defined.
End box_laws.

(** ** Restarting from the bytes *)

Lemma open_tables {SM : SkipMapOps InternalKey (option bytes)} `{IE : IntegerEncoding} {CRC : Crc32}
    {IT : Itertools} {BC : Bincode (list RawEdit)} {T} config now try_lock wal ver (tables : gmap Z T) c s :
  open_with_config config now try_lock wal ver tables c = Some (Ok s) → so_tables (ks_inner s) = tables.
Proof.
  unfold open_with_config, store_inner_new. destruct (lock_or_time_out _); [|done..].
  destruct (mem_table_new _ _ _) as [[[t c1]| |]|]; [|done..].
  destruct (load_with_path _ _) as [[[[vs h] c2]| |]|]; [|done..]. cbn [res_bind]. by intros [= <-].
Qed.

Section engine.
Context {SM : SkipMapOps InternalKey (option bytes)} {SML : SkipMapLaws InternalKey (option bytes)}.
Context `{IE : IntegerEncoding} {CRC : Crc32} {LZ : Lz4} {IT : Itertools}.
Context {DH : DefaultHasher} {FL : F64}.
Context {IEL : IntegerEncodingLaws} {CRCL : Crc32Laws} {LZL : Lz4Laws} {ITL : ItertoolsLaws}.
Context {FLL : F64Laws} {BC : Bincode (list RawEdit)} {BCL : BincodeLaws (list RawEdit)}.
Context (config : Config) (seeds : Z → Z * Z).
Context (Hdata : 2 ≤ cfg_data_restart_interval config) (Hindex : 2 ≤ cfg_index_restart_interval config).
Context (Hseeds : ∀ g, (0 ≤ (seeds g).1 < 2 ^ 64)%Z ∧ (0 ≤ (seeds g).2 < 2 ^ 64)%Z).

#[local] Instance engine_builder : TableBuilder BoxTable := box_builder config seeds.
#[local] Instance engine_builder_laws : TableBuilderLaws BoxTable :=
  box_builder_laws config seeds Hdata Hindex Hseeds.

Abbreviation store_gens st := (version_gens (vs_version (so_status st))).

(** The table directory as a running storage leaves it: the file of every table of the
    version has the bytes that were written for it. *)
Definition files_left (st : Store BoxTable) (d : Dir) : Prop :=
  ∀ g t, g ∈ store_gens st → so_tables st !! g = Some (inl t) → file_content d g = file_content (st_dir t) g.

Lemma reload_tables_lookup d wal gens g t :
  g ∈ gens → load_table d wal g = Some (Ok t) → reload_tables d wal gens !! g = Some t.
Proof.
  intros Hg Hl. unfold reload_tables. apply elem_of_list_to_map_1'.
  - intros t' (g' & Hg' & E)%list_elem_of_omap. destruct (load_table d wal g') as [[]|] eqn:El; simplify_eq. congruence.
  - apply list_elem_of_omap. exists g. by rewrite Hl.
Qed.

(** A table that was built as a file is read back from the bytes of the file. *)
Lemma made_reloads g t :
  Forall (λ tp, tp = SortedString) (cfg_level_table_type config) → table_made config g t →
  ∃ ts, t = inl ts ∧ ∀ d wal, file_content d g = file_content (st_dir ts) g →
    ∃ t', load_table d wal g = Some (Ok t') ∧ table_gen t' = table_gen t ∧
          table_meta_from t' = table_meta_from t ∧ ∀ l, table_holds t l → table_holds t' l.
Proof.
  intros Htp (tp & data & level & Hin & Hb & Hbt). rewrite Forall_forall in Htp. rewrite (Htp tp Hin) in *.
  destruct (file_created config seeds Hdata Hindex Hseeds g data level Hb) as (ts & Hts & Hh & Hgen & Hback).
  unfold build_table, engine_builder, box_builder in Hbt. rewrite Hts in Hbt. injection Hbt as <-.
  exists ts. split; [done|]. intros d wal Hd. destruct (Hback d wal Hd) as (t' & Hl & Hh' & Hg' & Hmt).
  exists (inl t'). split_and!; [done|cbn; congruence|exact Hmt|].
  intros l Hlt. rewrite (table_holds_unique _ _ _ Hlt (holds_inl _ _ Hh)). by apply holds_inl.
Qed.

Lemma tables_reloaded st d wal :
  Forall (λ tp, tp = SortedString) (cfg_level_table_type config) → tables_made config st → files_left st d →
  tables_left st (reload_tables d wal (store_gens st)).
Proof.
  intros Htp Hmade Hfiles g t Hg Ht. destruct (made_reloads g t Htp (Hmade g t Ht)) as (ts & -> & Hback).
  destruct (Hback d wal (Hfiles g ts Hg Ht)) as (t' & Hl & Hrest). exists t'. split; [|done].
  by apply reload_tables_lookup.
Qed.

End engine.
