(* ===== verification/System.v ===== *)
(** * Transactions and clients together

    The storage with all its users: clients that read and write directly, the background
    task, and any number of transactions, interleaved at the grain of the locks: the check,
    the drawing of the number and the insertion of a commit are steps of their own, and so
    are the two halves of a removal.  The specification is a map under snapshot isolation: a
    transaction reads the map as it was when it began and its own writes, and commits if
    none of its keys was written in the meantime.  It also says what a race is.  Without
    races and with safe background tasks the running storage refines it, answer by answer,
    and keeps on disk what a restart needs. *)

From S2P Require Import Prelude Std Crates Block Iterator BlockIter Io Log Config Bloom Lru Builder MemTable Scope BTreeTable.
From S2P Require Import SSTable SSTableIter Version VersionIter Cleaner Status Compactor Loader CompactorCorrect Storage StorageCorrect StorageRefine Mvcc MvccCorrect Recovery Engine.
From Stdlib Require Import ZArith Lia Strings.Byte Strings.String Sorted.
From stdpp Require Import base list gmap sorting.

Set Default Goal Selector "!".
Open Scope nat_scope.

(** ** The specification *)

(** Transactions and removals have names; the names are not part of the program.  A commit
    is one step ([OpCommit]) or, when others come in between, three ([OpCheck], [OpDraw],
    [OpInsert]); a removal is one step or two ([OpFind], [OpErase]). *)
Inductive Op : Type :=
  | OpClient (cmd : CommandData)
  | OpFind (id : nat) (key : bytes)
  | OpErase (id : nat)
  | OpRequest
  | OpTask (task : CompactTask)
  | OpBegin (id : nat)
  | OpRead (id : nat) (key : bytes)
  | OpWrite (id : nat) (key value : bytes)
  | OpDelete (id : nat) (key : bytes)
  | OpCommit (id : nat)
  | OpCheck (id : nat)
  | OpDraw (id : nat)
  | OpInsert (id : nat)
  | OpRollback (id : nat).

Inductive Answer : Type :=
  | AnsNothing
  | AnsValue (r : KernelResult (option bytes))
  | AnsUnit (r : KernelResult unit).

(** A transaction of the specification: the map when it began, its writes, and the keys
    that others have written since. *)
Record SpecTx := mkSpecTx {
  sx_snapshot : KeyMap;
  sx_writes : list KeyValue;
  sx_dirty : list bytes;
}.

(** [sp_commits] are the commits under way and whether they have drawn their number,
    [sp_removals] the keys that removals under way have found. *)
Record Spec := mkSpec {
  sp_map : KeyMap;
  sp_live : gmap nat SpecTx;
  sp_commits : gmap nat bool;
  sp_removals : gmap nat bytes;
}.

Definition sx_read (x : SpecTx) (k : bytes) : option bytes :=
  match btree_get k (sx_writes x) with Some v => v | None => sx_snapshot x k end.

Definition sx_put (k : bytes) (v : option bytes) (x : SpecTx) : SpecTx :=
  {| sx_snapshot := sx_snapshot x; sx_writes := btree_insert k v (sx_writes x); sx_dirty := sx_dirty x |}.

Definition sx_touch (ks : list bytes) (x : SpecTx) : SpecTx :=
  {| sx_snapshot := sx_snapshot x; sx_writes := sx_writes x; sx_dirty := ks ++ sx_dirty x |}.

Definition sx_conflict (x : SpecTx) : bool :=
  existsb (λ e : KeyValue, bool_decide (e.1 ∈ sx_dirty x)) (sx_writes x).

Definition map_apply (kvs : list KeyValue) (m : KeyMap) : KeyMap :=
  λ k, match btree_get k kvs with Some v => v | None => m k end.

(** The map after writes of the keys [ks]. *)
Definition sp_write (ks : list bytes) (m : KeyMap) (st : Spec) : Spec :=
  mkSpec m (sx_touch ks <$> sp_live st) (sp_commits st) (sp_removals st).

Definition sp_update (id : nat) (x : SpecTx) (st : Spec) : Spec :=
  mkSpec (sp_map st) (<[id := x]> (sp_live st)) (sp_commits st) (sp_removals st).

Definition sp_end (id : nat) (st : Spec) : Spec :=
  mkSpec (sp_map st) (delete id (sp_live st)) (delete id (sp_commits st)) (sp_removals st).

Definition sp_phase (id : nat) (drawn : bool) (st : Spec) : Spec :=
  mkSpec (sp_map st) (sp_live st) (<[id := drawn]> (sp_commits st)) (sp_removals st).

(** A transaction that has not begun to commit. *)
Definition sp_running (id : nat) (st : Spec) : option SpecTx :=
  match sp_commits st !! id with Some _ => None | None => sp_live st !! id end.

Definition sp_insert (id : nat) (x : SpecTx) (st : Spec) : Spec :=
  sp_write (sx_writes x).*1 (map_apply (sx_writes x) (sp_map st)) (sp_end id st).

(** An operation of a transaction or removal that is not in the right state is not
    defined. *)
Definition spec_exec (op : Op) (st : Spec) : option (Answer * Spec) :=
  match op with
  | OpClient cmd =>
      let '(r, m) := map_exec cmd (sp_map st) in
      Some (AnsValue r, sp_write (cmd_writes cmd (sp_map st)) m st)
  | OpFind id key =>
      match sp_removals st !! id, sp_map st key with
      | Some _, _ => None
      | None, None => Some (AnsValue (Err KeyNotFound), st)
      | None, Some _ =>
          Some (AnsNothing, mkSpec (sp_map st) (sp_live st) (sp_commits st) (<[id := key]> (sp_removals st)))
      end
  | OpErase id =>
      key ← sp_removals st !! id;
      Some (AnsValue (Ok None),
        sp_write [key] (map_put (sp_map st) key None)
          (mkSpec (sp_map st) (sp_live st) (sp_commits st) (delete id (sp_removals st))))
  | OpRequest | OpTask _ => Some (AnsNothing, st)
  | OpBegin id =>
      match sp_live st !! id with
      | Some _ => None
      | None => Some (AnsNothing, sp_update id (mkSpecTx (sp_map st) [] []) st)
      end
  | OpRead id key => x ← sp_running id st; Some (AnsValue (Ok (sx_read x key)), st)
  | OpWrite id key value => x ← sp_running id st; Some (AnsNothing, sp_update id (sx_put key (Some value) x) st)
  | OpDelete id key =>
      x ← sp_running id st;
      Some (match sx_read x key with
            | Some _ => (AnsUnit (Ok ()), sp_update id (sx_put key None x) st)
            | None => (AnsUnit (Err KeyNotFound), st)
            end)
  | OpCommit id =>
      x ← sp_running id st;
      Some (if sx_conflict x then (AnsUnit (Err RepeatedWrite), sp_end id st)
            else (AnsUnit (Ok ()), sp_insert id x st))
  | OpCheck id =>
      x ← sp_running id st;
      Some (if sx_conflict x then (AnsUnit (Err RepeatedWrite), sp_end id st)
            else match sx_writes x with
                 | [] => (AnsUnit (Ok ()), sp_end id st)
                 | _ => (AnsNothing, sp_phase id false st)
                 end)
  | OpDraw id =>
      match sp_commits st !! id with
      | Some false => Some (AnsNothing, sp_phase id true st)
      | _ => None
      end
  | OpInsert id =>
      match sp_commits st !! id, sp_live st !! id with
      | Some true, Some x => Some (AnsUnit (Ok ()), sp_insert id x st)
      | _, _ => None
      end
  | OpRollback id => x ← sp_running id st; Some (AnsNothing, sp_end id st)
  end.

Fixpoint spec_run (ops : list Op) (st : Spec) : option (list Answer * Spec) :=
  match ops with
  | [] => Some ([], st)
  | op :: ops' =>
      '(a, st1) ← spec_exec op st;
      '(answers, st2) ← spec_run ops' st1;
      Some (a :: answers, st2)
  end.

(** What the locks do not exclude: a commit inserts a key that was written since its check;
    a transaction begins while a commit has drawn its number and not inserted; a removal
    writes when its key is gone. *)
Definition races (op : Op) (st : Spec) : bool :=
  match op with
  | OpInsert id => from_option sx_conflict false (sp_live st !! id)
  | OpBegin _ => existsb snd (map_to_list (sp_commits st))
  | OpErase id => from_option (λ key, negb (bool_decide (is_Some (sp_map st key)))) false (sp_removals st !! id)
  | _ => false
  end.

Fixpoint race_free (ops : list Op) (st : Spec) : bool :=
  match ops with
  | [] => true
  | op :: ops' =>
      negb (races op st) && match spec_exec op st with Some (_, st1) => race_free ops' st1 | None => true end
  end.

Definition spec_alone (m : KeyMap) : Spec := mkSpec m ∅ ∅ ∅.
Definition spec_empty : Spec := spec_alone (λ _, None).

(** ** The system *)

Section system.
Context {SM : SkipMapOps InternalKey (option bytes)} {SML : SkipMapLaws InternalKey (option bytes)}.
Context `{IE : IntegerEncoding} {IEL : IntegerEncodingLaws} {CRC : Crc32} {CRCL : Crc32Laws}.
Context {IT : Itertools} {ITL : ItertoolsLaws} {BC : Bincode (list RawEdit)}.
Context {T : Type} {TB : Table T} {BLD : TableBuilder T} {BLDL : TableBuilderLaws T}.

Abbreviation seq_of s := (seq_count (so_counters (ks_inner s))).
Abbreviation mem_of s := (so_mem_table (ks_inner s)).
Abbreviation mem_versions t := (sm_iter (ti_mem (mt_inner t))).

(** [sy_commits] are the commits under way: past the check, and with the number drawn;
    [sy_removals] the keys that removals under way have found. *)
Record System := mkSystem {
  sy_store : KipStorage T;
  sy_live : gmap nat Transaction;
  sy_commits : gmap nat (option Z);
  sy_removals : gmap nat bytes;
}.

Definition with_store (w : System) (s : KipStorage T) : System :=
  mkSystem s (sy_live w) (sy_commits w) (sy_removals w).

Definition with_tx (w : System) (s : KipStorage T) (id : nat) (tx : Transaction) : System :=
  mkSystem s (<[id := tx]> (sy_live w)) (sy_commits w) (sy_removals w).

Definition with_phase (w : System) (s : KipStorage T) (id : nat) (drawn : option Z) : System :=
  mkSystem s (sy_live w) (<[id := drawn]> (sy_commits w)) (sy_removals w).

(** [commit] takes the transaction and drops it at its end. *)
Definition end_tx (w : System) (s : KipStorage T) (id : nat) : System :=
  mkSystem s (delete id (sy_live w)) (delete id (sy_commits w)) (sy_removals w).

Definition running (w : System) (id : nat) : option Transaction :=
  match sy_commits w !! id with Some _ => None | None => sy_live w !! id end.

(** The storage and its background task run on their own, a transaction belongs to the
    client that began it. *)
Inductive system_step : System → Op → Answer → System → Prop :=
  | sys_client cmd r w s' :
      kip_step (sy_store w) (LCmd cmd r) s' → system_step w (OpClient cmd) (AnsValue r) (with_store w s')
  | sys_find_missing id key w s' :
      sy_removals w !! id = None → key ≠ [] → storage_get key (sy_store w) = (Ok None, s') →
      system_step w (OpFind id key) (AnsValue (Err KeyNotFound)) (with_store w s')
  | sys_find id key w s' :
      sy_removals w !! id = None → kip_step (sy_store w) (LFound key) s' →
      system_step w (OpFind id key) AnsNothing
        (mkSystem s' (sy_live w) (sy_commits w) (<[id := key]> (sy_removals w)))
  | sys_erase id key r w s' :
      sy_removals w !! id = Some key → kip_step (sy_store w) (LErase key r) s' →
      system_step w (OpErase id) (AnsValue r)
        (mkSystem s' (sy_live w) (sy_commits w) (delete id (sy_removals w)))
  | sys_request w s' :
      kip_step (sy_store w) LSilent s' → system_step w OpRequest AnsNothing (with_store w s')
  | sys_task task w s' :
      kip_step (sy_store w) (LTask task) s' → system_step w (OpTask task) AnsNothing (with_store w s')
  | sys_begin id ct w tx s' :
      sy_live w !! id = None → transaction_new ct (sy_store w) = (tx, s') →
      system_step w (OpBegin id) AnsNothing (with_tx w s' id tx)
  | sys_read id key tx r w s' :
      running w id = Some tx → transaction_get key tx (sy_store w) = (r, s') →
      system_step w (OpRead id key) (AnsValue r) (with_store w s')
  | sys_write id key value tx w :
      running w id = Some tx → key ≠ [] →
      system_step w (OpWrite id key value) AnsNothing
        (with_tx w (sy_store w) id (transaction_set key value tx))
  | sys_delete id key tx r tx' w s' :
      running w id = Some tx → key ≠ [] → transaction_remove key tx (sy_store w) = (r, tx', s') →
      system_step w (OpDelete id key) (AnsUnit r) (with_tx w s' id tx')
  | sys_commit id tx r w s' :
      running w id = Some tx → transaction_commit tx (sy_store w) = (r, s') →
      system_step w (OpCommit id) (AnsUnit r) (end_tx w s' id)
  | sys_check_nothing id tx w :
      running w id = Some tx → commit_check tx (sy_store w) = Ok None →
      system_step w (OpCheck id) (AnsUnit (Ok ())) (end_tx w (transaction_drop (sy_store w)) id)
  | sys_check_refused id tx e w :
      running w id = Some tx → commit_check tx (sy_store w) = Err e →
      system_step w (OpCheck id) (AnsUnit (Err e)) (end_tx w (transaction_drop (sy_store w)) id)
  | sys_check id tx batch w :
      running w id = Some tx → commit_check tx (sy_store w) = Ok (Some batch) →
      system_step w (OpCheck id) AnsNothing (with_phase w (sy_store w) id None)
  | sys_draw id n w s' :
      sy_commits w !! id = Some None → commit_draw (sy_store w) = (n, s') →
      system_step w (OpDraw id) AnsNothing (with_phase w s' id (Some n))
  | sys_insert id tx batch n r w s' :
      sy_live w !! id = Some tx → sy_commits w !! id = Some (Some n) → tx_write_buf tx = Some batch →
      commit_insert batch n (sy_store w) = (r, s') →
      system_step w (OpInsert id) (AnsUnit r) (end_tx w (transaction_drop s') id)
  | sys_rollback id tx w :
      running w id = Some tx →
      system_step w (OpRollback id) AnsNothing (end_tx w (transaction_drop (sy_store w)) id).

(** A run with the state each operation was performed in. *)
Abbreviation Trace := (list (System * Op)).

Inductive system_run : System → Trace → list Answer → System → Prop :=
  | sysrun_nil w : system_run w [] [] w
  | sysrun_cons w1 op a w2 tr answers w3 :
      system_step w1 op a w2 → system_run w2 tr answers w3 →
      system_run w1 ((w1, op) :: tr) (a :: answers) w3.

(** The background tasks that are run are safe where they are run. *)
Definition op_safe (e : System * Op) : Prop :=
  match e.2 with
  | OpTask task => task_safe (ks_config (sy_store e.1)) (ks_inner (sy_store e.1)) task
  | _ => True
  end.

(** *** The simulation *)

(** A transaction of the system and its counterpart; [contents] is what the tables held
    when it began. *)
Record tx_rep (s : KipStorage T) (tx : Transaction) (x : SpecTx) : Prop := {
  tr_snapshot : ∃ contents, tx_ok contents tx s ∧
                ∀ k, default None (snapshot contents tx s k) = sx_snapshot x k;
  tr_writes : write_buf_or_init tx = sx_writes x;
  tr_some : tx_write_buf tx ≠ Some [];
  tr_sorted : ksorted (sx_writes x);
  tr_keys : Forall (λ e, e.1 ≠ []) (sx_writes x);
  tr_dirty k : k ∈ sx_dirty x ↔
               ∃ n v, (new_with_seq k n, v) ∈ mem_versions (mem_of s) ∧ (tx_seq_id tx < n)%Z;
}.

Definition live_rep (s : KipStorage T) (live : gmap nat Transaction) (slive : gmap nat SpecTx) : Prop :=
  ∀ id, option_Forall2 (tx_rep s) (live !! id) (slive !! id).

(** A number that is drawn and not used is newer than every transaction. *)
Record pending_rep (w : System) (st : Spec) : Prop := {
  pr_commits : sp_commits st = (λ o : option Z, bool_decide (is_Some o)) <$> sy_commits w;
  pr_removals : sp_removals st = sy_removals w;
  pr_keys id key : sy_removals w !! id = Some key → key ≠ [];
  pr_drawn id n : sy_commits w !! id = Some (Some n) → (0 ≤ n < seq_of (sy_store w))%Z;
  pr_newer id n id' tx : sy_commits w !! id = Some (Some n) → sy_live w !! id' = Some tx → (tx_seq_id tx < n)%Z;
}.

Record system_rep (contents : Z → list KeyValue) (w : System) (st : Spec) : Prop := {
  sr_inv : kip_inv contents (sy_store w);
  sr_map : keymap_eq (view contents (sy_store w)) (sp_map st);
  sr_count : tx_count (mem_of (sy_store w)) = size (sy_live w);
  sr_live : live_rep (sy_store w) (sy_live w) (sp_live st);
  sr_pending : pending_rep w st;
}.

Lemma sx_touch_nil x : sx_touch [] x = x.
Proof. by destruct x. Qed.

Lemma touch_nothing (live : gmap nat SpecTx) : sx_touch [] <$> live = live.
Proof. rewrite <- (map_fmap_id live) at 2. apply map_fmap_ext. intros id x _. apply sx_touch_nil. Qed.

(** What others do leaves a transaction as it is, but for the keys they write. *)
Lemma tx_rep_evolves n ks (s s' : KipStorage T) tx x :
  tx_rep s tx x → (tx_seq_id tx < n)%Z → evolves n s s' → 0 < tx_count (mem_of s') → writes n ks s s' →
  tx_rep s' tx (sx_touch ks x).
Proof.
  intros [(contents & Htx & Hsnap) Hw Hb Hs Hk Hd] Hn Hev Hlive [Hnew Hkeys]. split; try done.
  - destruct (tx_ok_evolves n contents tx s s' Htx Hev Hn Hlive) as [Htx' Hsnap'].
    exists contents. split; [done|]. intros k. rewrite Hsnap'. apply Hsnap.
  - intros k. cbn [sx_touch sx_dirty]. rewrite elem_of_app, Hd. split.
    + intros [Hin|(q & v & Hin & Hq)].
      * destruct (Hkeys k Hin) as [v Hv]. by exists n, v.
      * destruct (ev_versions _ _ _ Hev _ _ _ Hin) as [v' Hv']. by exists q, v'.
    + intros (q & v & Hin & Hq). destruct (Hnew k q v Hin) as [[? ->]|?]; eauto.
Qed.

Lemma tx_rep_seq s tx x : tx_rep s tx x → (tx_seq_id tx < seq_of s)%Z.
Proof. intros [(contents & Htx & _) _ _ _ _ _]. apply Htx. Qed.

Lemma live_rep_lookup s live slive id tx :
  live_rep s live slive → live !! id = Some tx → ∃ x, slive !! id = Some x ∧ tx_rep s tx x.
Proof. intros Hr Hl. specialize (Hr id). rewrite Hl in Hr. inversion Hr as [? x Hx E1 E2|]; subst. eauto. Qed.

Lemma live_rep_insert s live slive id tx x :
  live_rep s live slive → tx_rep s tx x → live_rep s (<[id := tx]> live) (<[id := x]> slive).
Proof.
  intros Hr Hx id'. destruct (decide (id = id')) as [->|Hne]; [|by rewrite !lookup_insert_ne].
  rewrite !lookup_insert_eq. by constructor.
Qed.

Lemma live_rep_delete s live slive id :
  live_rep s live slive → live_rep s (delete id live) (delete id slive).
Proof.
  intros Hr id'. destruct (decide (id = id')) as [->|Hne]; [|by rewrite !lookup_delete_ne].
  rewrite !lookup_delete_eq. constructor.
Qed.

Lemma live_rep_seq s live slive id tx :
  live_rep s live slive → live !! id = Some tx → (tx_seq_id tx < seq_of s)%Z.
Proof. intros Hr Hl. destruct (live_rep_lookup _ _ _ _ _ Hr Hl) as (x & _ & Hx). by eapply tx_rep_seq. Qed.

Lemma live_evolves n ks (s s' : KipStorage T) live slive :
  live_rep s live slive → (∀ id tx, live !! id = Some tx → (tx_seq_id tx < n)%Z) →
  evolves n s s' → tx_count (mem_of s') = size live → writes n ks s s' →
  live_rep s' live (sx_touch ks <$> slive).
Proof.
  intros Hrep Hn Hev Hc Hw id. specialize (Hrep id). specialize (Hn id). rewrite lookup_fmap.
  destruct (live !! id) as [tx|] eqn:E; inversion Hrep as [? x Hx|]; cbn; constructor.
  eapply tx_rep_evolves; try done; [by apply Hn|]. rewrite Hc. apply Nat.neq_0_lt_0. intros Hz%map_size_empty_inv. by subst.
Qed.

Lemma live_same (s s' : KipStorage T) live slive :
  live_rep s live slive → evolves (seq_of s) s s' → tx_count (mem_of s') = size live →
  mt_inner (mem_of s') = mt_inner (mem_of s) → live_rep s' live slive.
Proof.
  intros Hr Hev Hn Hm. rewrite <- (touch_nothing slive).
  by eapply live_evolves; [|by intros; eapply live_rep_seq|..|apply writes_nothing].
Qed.

(** The operations under way, while the store and the live transactions change. *)
Lemma pending_kept w st w' st' :
  pending_rep w st → sy_commits w' = sy_commits w → sy_removals w' = sy_removals w →
  sp_commits st' = sp_commits st → sp_removals st' = sp_removals st →
  (seq_of (sy_store w) ≤ seq_of (sy_store w'))%Z →
  (∀ id tx, sy_live w' !! id = Some tx → ∃ tx0, sy_live w !! id = Some tx0 ∧ tx_seq_id tx0 = tx_seq_id tx) →
  pending_rep w' st'.
Proof.
  intros [Hc Hr Hk Hd Hn] Ec Er Ec' Er' Hsq Hlive. split; rewrite ?Ec, ?Er, ?Ec', ?Er'; try done.
  - intros id n Hid. specialize (Hd id n Hid). lia.
  - intros id n id' tx Hid Htx. destruct (Hlive id' tx Htx) as (tx0 & Htx0 & <-). by eapply Hn.
Qed.

(** A transaction that ends. *)
Lemma pending_end w st s id st' :
  pending_rep w st → (seq_of (sy_store w) ≤ seq_of s)%Z → sp_commits st' = delete id (sp_commits st) →
  sp_removals st' = sp_removals st → pending_rep (end_tx w s id) st'.
Proof.
  intros [Hc Hr Hk Hd Hn] Hsq Ec Er.
  split; cbn [end_tx sy_commits sy_removals sy_store sy_live]; rewrite ?Ec, ?Er, ?Hc; try done.
  - by rewrite fmap_delete.
  - intros id' n [_ Hid]%lookup_delete_Some. specialize (Hd id' n Hid). lia.
  - intros id' n id2 tx [_ Hid]%lookup_delete_Some [_ Htx]%lookup_delete_Some. by eapply Hn.
Qed.

Lemma running_rep w st id :
  pending_rep w st → live_rep (sy_store w) (sy_live w) (sp_live st) →
  option_Forall2 (tx_rep (sy_store w)) (running w id) (sp_running id st).
Proof.
  intros [Hc _ _ _ _] Hl. unfold running, sp_running. rewrite Hc, lookup_fmap.
  destruct (sy_commits w !! id); cbn; [constructor|apply Hl].
Qed.

Lemma running_lookup w st id tx :
  pending_rep w st → live_rep (sy_store w) (sy_live w) (sp_live st) → running w id = Some tx →
  sy_live w !! id = Some tx ∧ ∃ x, sp_running id st = Some x ∧ sp_live st !! id = Some x ∧ tx_rep (sy_store w) tx x.
Proof.
  intros Hp Hl Hrun. pose proof (running_rep w st id Hp Hl) as Hr. rewrite Hrun in Hr.
  inversion Hr as [? x Hx E1 E2|]; subst. unfold running in Hrun. unfold sp_running in *.
  destruct (sy_commits w !! id); [done|]. split; [done|]. exists x.
  destruct (sp_commits st !! id); [done|]. by split_and!.
Qed.

(** No commit has drawn its number. *)
Lemma none_drawn w st id n :
  pending_rep w st → existsb snd (map_to_list (sp_commits st)) = false → sy_commits w !! id ≠ Some (Some n).
Proof.
  intros Hp Hno Hid. apply not_true_iff_false in Hno. apply Hno, existsb_exists. exists (id, true).
  split; [|done]. apply list_elem_of_In, elem_of_map_to_list. rewrite (pr_commits _ _ Hp), lookup_fmap, Hid. done.
Qed.

Lemma cmd_writes_proper cmd m m' : keymap_eq m m' → cmd_writes cmd m = cmd_writes cmd m'.
Proof. intros E. destruct cmd as [| |]; cbn; [done| |done]. by rewrite E. Qed.

(** *** Each step *)

(** The storage counts the transactions that are alive. *)
Lemma kip_step_count contents (s : KipStorage T) l s' :
  kip_inv contents s → kip_step s l s' → event_safe (s, l) → (seq_of s < SEQ_MAX)%Z →
  tx_count (mem_of s') = tx_count (mem_of s) ∧ (seq_of s ≤ seq_of s')%Z.
Proof.
  intros Hk Hstep Hsafe Hseq. destruct (decide (0 < tx_count (mem_of s))) as [Hlive|Hlive].
  { destruct (kip_step_evolves contents s l s' Hk Hstep Hsafe Hseq Hlive) as (Hev & ? & _). split; [done|apply Hev]. }
  assert (∀ s1 : KipStorage T, ks_inner s1 = ks_inner s →
    tx_count (mem_of s1) = tx_count (mem_of s) ∧ (seq_of s ≤ seq_of s1)%Z) as Hsame by (by intros s1 ->).
  destruct Hstep as [s cmd r s' Hkey He|key value s s' Hkey Hg|key r s s' Hkey He|s s' Hs|s s' Hs
    |min max level s s' Hm|task rest s s' Hq Hb].
  - destruct (storage_exec_evolves contents s _ _ _ Hk Hseq He) as (Hev & ? & _). split; [done|apply Hev].
  - destruct (storage_get_evolves contents s _ _ _ Hk Hg) as (_ & ? & _ & Hsq). split; [done|lia].
  - destruct (append_cmd_data_evolves contents s _ _ _ Hk Hseq He) as (Hev & ? & _). split; [done|apply Hev].
  - apply Hsame. by eapply send_task_ok.
  - apply Hsame. by eapply send_task_ok.
  - unfold manual_compaction in Hm. destruct (le_b min max); [|by injection Hm as <-]. cbn [from_range] in Hm.
    unfold send_task in Hm. by destruct (send _ _) as [[?| |]|]; [injection Hm as <-|done..].
  - destruct (background_step_ok contents s task rest Hk Hq) as (c' & s1 & Hb' & _ & Hsq & _).
    { split; [by eapply background_ready|exact Hsafe]. }
    rewrite Hb in Hb'. injection Hb' as <-. split; [|lia].
    unfold background_step in Hb. rewrite Hq in Hb.
    destruct (run_task _ _ _) as [[st| |]|] eqn:Er; cbn [res_bind] in Hb; [|done..]. injection Hb as <-.
    destruct (run_task_frame (ks_config s) (λ _, True) (λ _ _ _ _ _ _ _ _ _, I) task (ks_inner s) st Er)
      as [_ [[Hmem _]|(values & c & Hsw)]]; cbn [set_tx set_inner_store ks_inner]; [by rewrite Hmem|].
    unfold swap in Hsw. case_decide; [done|]. destruct (sm_is_empty _); [done|].
    cbn [gen_create] in Hsw. destruct (ti_log_writer _). injection Hsw as _ <- _. done.
Qed.

(** A step of the storage itself, with transactions alive or not. *)
Lemma kip_step_rep contents w st l s' :
  system_rep contents w st → kip_step (sy_store w) l s' → event_safe (sy_store w, l) →
  event_timely (sy_store w, l) → (seq_of (sy_store w) < SEQ_MAX)%Z →
  ∃ contents', kip_inv contents' s' ∧ (seq_of s' ≤ seq_of (sy_store w) + 1)%Z ∧
    map_step (sp_map st) l (view contents' s') ∧
    (∀ m removals sremovals,
      keymap_eq (view contents' s') m → removals = sremovals → (∀ id key, removals !! id = Some key → key ≠ []) →
      system_rep contents' (mkSystem s' (sy_live w) (sy_commits w) removals)
        (mkSpec m (sx_touch (label_writes l (sp_map st)) <$> sp_live st) (sp_commits st) sremovals)).
Proof.
  intros [Hk Hm Hn Hl Hp] Hstep Hsafe Htime Hseq. set (s := sy_store w) in *.
  destruct (kip_step_ok contents s l s' Hk Hstep Hsafe Hseq) as (contents' & Hk' & Hsq & Hms).
  destruct (kip_step_count contents s l s' Hk Hstep Hsafe Hseq) as [Hn' Hsq'].
  exists contents'. split_and!; [done|done| |].
  { eapply map_step_proper; [symmetry; exact Hm|by apply Hms]. }
  intros m removals ? Hmm <- Hkeys. split; cbn [sy_store sy_live sy_commits sy_removals sp_map sp_live]; try done.
  - by rewrite Hn'.
  - destruct (decide (sy_live w = ∅)) as [He|Hne].
    { intros id. specialize (Hl id). rewrite He, lookup_empty in *. rewrite lookup_fmap. inversion Hl. constructor. }
    destruct (kip_step_evolves contents s l s' Hk Hstep Hsafe Hseq) as (Hev & _ & Hw).
    { rewrite Hn. apply Nat.neq_0_lt_0. by intros Hz%map_size_empty_inv. }
    replace (label_writes l (view contents s)) with (label_writes l (sp_map st)) in Hw.
    + by eapply live_evolves; [|by intros; eapply live_rep_seq|..|by rewrite Hn'|].
    + destruct l as [cmd r| | | |]; try done. symmetry. by apply cmd_writes_proper.
  - destruct Hp as [Hc _ _ Hd Hnew]. split; cbn [sy_store sy_live sy_commits sy_removals sp_commits sp_removals]; try done.
    intros id n Hid. specialize (Hd id n Hid). unfold s in *. lia.
Qed.

Lemma transaction_get_rep contents s tx x key :
  kip_inv contents s → tx_rep s tx x →
  ∃ s', transaction_get key tx s = (Ok (sx_read x key), s') ∧ kip_inv contents s' ∧
    keymap_eq (view contents s') (view contents s) ∧ (∀ b, evolves b s s') ∧
    mem_of s' = mem_of s ∧ seq_of s' = seq_of s.
Proof.
  intros Hk [(contents0 & Htx & Hsnap) Hw _ _ _ _].
  destruct (transaction_get_ok contents contents0 tx s key Hk Htx) as (s' & Hg & Hk' & Hm & Ht & Hc & Hh & Hv).
  exists s'. rewrite Hg, Hc. split_and!; try done.
  - do 2 f_equal. unfold tx_view, tx_find, sx_read. rewrite Hw.
    destruct (btree_get key (sx_writes x)); [done|apply Hsnap].
  - intros b. apply evolves_frame; rewrite ?Hm, ?Ht, ?Hc; (done || lia).
Qed.

(** A buffered write touches nobody else. *)
Lemma tx_rep_put s tx x key v :
  tx_rep s tx x → key ≠ [] →
  tx_rep s (set_write_buf tx (Some (btree_insert key v (write_buf_or_init tx)))) (sx_put key v x).
Proof.
  intros [(contents & Htx & Hsnap) Hw Hb Hs Hk Hd] Hne. split; cbn [sx_put sx_snapshot sx_writes sx_dirty]; try done.
  - exists contents. split; [by destruct Htx|done].
  - unfold write_buf_or_init at 1. cbn. by rewrite Hw.
  - cbn [set_write_buf tx_write_buf]. intros [= E].
    assert ((key, v) ∈ ([] : list KeyValue)) as []%not_elem_of_nil.
    rewrite <- E. apply btree_insert_elem; [by rewrite Hw|by left].
  - by apply btree_insert_sorted.
  - apply Forall_forall. intros e He. rewrite btree_insert_elem in He by done. rewrite Forall_forall in Hk.
    destruct He as [->|[He _]]; [done|by apply Hk].
Qed.

Lemma conflict_rep s tx x : tx_rep s tx x → conflict tx s = sx_conflict x.
Proof.
  intros [_ Hw _ _ _ Hd]. apply eq_bool_prop_intro. unfold conflict, sx_conflict. rewrite Hw, !Is_true_true.
  rewrite check_key_conflict_spec, existsb_exists. split.
  - intros (kv & n & v & Hin & Hv & Hn). exists kv. rewrite <- list_elem_of_In, bool_decide_eq_true, Hd. eauto.
  - intros (kv & Hin & (n & v & Hv)%bool_decide_eq_true%Hd). exists kv, n, v. by rewrite list_elem_of_In.
Qed.

Lemma begin_rep contents w st id ct tx s' :
  system_rep contents w st → (seq_of (sy_store w) < SEQ_MAX)%Z → sy_live w !! id = None →
  existsb snd (map_to_list (sp_commits st)) = false → transaction_new ct (sy_store w) = (tx, s') →
  sp_live st !! id = None ∧ seq_of s' = (seq_of (sy_store w) + 1)%Z ∧
  system_rep contents (with_tx w s' id tx) (sp_update id (mkSpecTx (sp_map st) [] []) st).
Proof.
  intros [Hk Hm Hn Hl Hp] Hseq Hid Hno Hnew. set (s := sy_store w) in *.
  destruct (transaction_new_ok contents s ct tx s' Hk Hseq Hnew) as (Hk' & Htx & Hbuf & Hsq & Hn' & Hmem & Hv & Htv).
  pose proof (Hl id) as Hid'. rewrite Hid in Hid'. split; [by inversion Hid'|]. split; [done|].
  assert (∀ b, evolves b s s') as Hev by (intros b; injection Hnew as _ <-; apply evolves_frame; cbn; done || lia).
  assert (tx_seq_id tx = seq_of s) as Hid2 by (by injection Hnew as <- _).
  split; cbn [with_tx sp_update sy_store sy_live sp_map sp_live]; [done|by rewrite Hv| | |].
  - rewrite Hn', Hn, map_size_insert_None by done. lia.
  - apply live_rep_insert.
    + intros id'. specialize (Hl id'). destruct (sy_live w !! id') as [tx'|]; inversion Hl as [? x Hx|]; constructor.
      rewrite <- (sx_touch_nil x).
      apply (tx_rep_evolves (seq_of s) [] s s'); [done|by eapply tx_rep_seq|done|lia|by apply writes_nothing].
    + split; cbn [sx_snapshot sx_writes sx_dirty].
      * exists contents. split; [done|]. intros k. rewrite <- Hm, <- Htv. unfold tx_view, tx_find, write_buf_or_init.
        by rewrite Hbuf.
      * unfold write_buf_or_init. by rewrite Hbuf.
      * by rewrite Hbuf.
      * constructor.
      * constructor.
      * intros k. split; [by intros ?%not_elem_of_nil|]. intros (n & v & Hin & Hlt). rewrite Hmem in Hin.
        apply (wf_mem _ _ (mi_wf _ _ (ki_mem _ _ Hk))) in Hin. lia.
  - pose proof Hp as [Hc Hr Hkeys _ _].
    split; cbn [with_tx sp_update sy_store sy_commits sy_removals sp_commits sp_removals]; try done;
      [intros id' n Hid'2|intros id' n id2 tx2 Hid'2 _]; by destruct (none_drawn w st id' n Hp Hno).
Qed.

(** The end of a transaction that writes nothing. *)
Lemma end_rep contents w st id tx s' :
  system_rep contents w st → sy_live w !! id = Some tx → kip_inv contents s' →
  keymap_eq (view contents s') (sp_map st) → tx_count (mem_of s') = tx_count (mem_of (sy_store w)) - 1 →
  mt_inner (mem_of s') = mt_inner (mem_of (sy_store w)) → evolves (seq_of (sy_store w)) (sy_store w) s' →
  system_rep contents (end_tx w s' id) (sp_end id st).
Proof.
  intros [Hk Hm Hn Hl Hp] Hid Hk' Hv Hn' Hmem Hev.
  assert (tx_count (mem_of s') = size (delete id (sy_live w))) as Hn2
    by (rewrite map_size_delete_Some by eauto; lia).
  split; cbn [end_tx sp_end sy_store sy_live sp_map sp_live]; try done.
  - by apply (live_same (sy_store w)); [apply live_rep_delete|..].
  - apply (pending_end w st); try done. apply Hev.
Qed.

Lemma drop_rep contents w st id tx :
  system_rep contents w st → sy_live w !! id = Some tx →
  system_rep contents (end_tx w (transaction_drop (sy_store w)) id) (sp_end id st).
Proof.
  intros Hr Hid. pose proof Hr as [Hk Hm _ _ _].
  destruct (transaction_drop_ok contents (sy_store w) Hk) as [Hk' Hev]. by apply (end_rep contents w st id tx).
Qed.

(** The insertion of a batch under a number that is newer than every transaction and every
    version of its keys. *)
Lemma insert_rep contents w st id tx x n s' :
  system_rep contents w st → sy_live w !! id = Some tx → tx_rep (sy_store w) tx x →
  (∀ id' tx', sy_live w !! id' = Some tx' → (tx_seq_id tx' < n)%Z) →
  kip_inv contents s' → evolves n (sy_store w) s' → tx_count (mem_of s') = tx_count (mem_of (sy_store w)) - 1 →
  writes n (sx_writes x).*1 (sy_store w) s' →
  (∀ k, view contents s' k = match batch_get (sx_writes x) k with Some v => v | None => view contents (sy_store w) k end) →
  system_rep contents (end_tx w s' id) (sp_insert id x st).
Proof.
  intros [Hk Hm Hn Hl Hp] Hid Htx Hnew Hk' Hev Hn' Hw Hv.
  assert (tx_count (mem_of s') = size (delete id (sy_live w))) as Hn2
    by (rewrite map_size_delete_Some by eauto; lia).
  split; cbn [end_tx sp_insert sp_write sp_end sy_store sy_live sp_map sp_live]; try done.
  - intros k. rewrite Hv. unfold map_apply. rewrite (Hm k), batch_get_sorted by apply Htx. done.
  - eapply live_evolves; try done; [by apply live_rep_delete|].
    intros id' tx' [_ Hid']%lookup_delete_Some. by eapply Hnew.
  - apply (pending_end w st); try done. apply Hev.
Qed.

Lemma commit_rep contents w st id tx x r s' :
  system_rep contents w st → (seq_of (sy_store w) < SEQ_MAX)%Z → sy_live w !! id = Some tx →
  tx_rep (sy_store w) tx x → transaction_commit tx (sy_store w) = (r, s') →
  (seq_of s' ≤ seq_of (sy_store w) + 1)%Z ∧
  if sx_conflict x then r = Err RepeatedWrite ∧ system_rep contents (end_tx w s' id) (sp_end id st)
  else r = Ok () ∧ system_rep contents (end_tx w s' id) (sp_insert id x st).
Proof.
  intros Hr Hseq Hid Htx Hc. pose proof Hr as [Hk Hm Hn Hl Hp].
  pose proof (tr_keys _ _ _ Htx) as Hne. rewrite <- (tr_writes _ _ _ Htx) in Hne.
  destruct (transaction_commit_ok contents tx (sy_store w) Hk Hseq Hne) as (s1 & Hc' & Hk' & Hev & Hsq & Hn' & Hw & Hv).
  rewrite Hc in Hc'. injection Hc' as -> ->. split; [done|].
  destruct (conflict tx (sy_store w)) eqn:Ec; rewrite (conflict_rep _ tx x Htx) in Ec; rewrite Ec; (split; [done|]).
  - assert (s1 = transaction_drop (sy_store w)) as ->; [|by eapply drop_rep].
    revert Hc. unfold transaction_commit, commit_body. rewrite commit_check_conflict, (conflict_rep _ tx x Htx), Ec.
    by intros [= <-].
  - apply (insert_rep contents w st id tx x (seq_of (sy_store w))); try done;
      [by intros; eapply live_rep_seq|by rewrite <- (tr_writes _ _ _ Htx)|by rewrite <- (tr_writes _ _ _ Htx)].
Qed.

(** A key without a conflict has no version newer than the transaction. *)
Lemma no_conflict_fresh s tx x n k q v :
  tx_rep s tx x → sx_conflict x = false → (tx_seq_id tx < n)%Z → k ∈ (sx_writes x).*1 →
  (new_with_seq k q, v) ∈ mem_versions (mem_of s) → (q ≤ n)%Z.
Proof.
  intros Htx Hc Hn (e & -> & He)%list_elem_of_fmap Hin. destruct (decide (q ≤ tx_seq_id tx)%Z); [lia|exfalso].
  apply not_true_iff_false in Hc. apply Hc, existsb_exists. exists e. split; [by apply list_elem_of_In|].
  apply bool_decide_eq_true, (tr_dirty _ _ _ Htx). exists q, v. split; [done|lia].
Qed.

Lemma batch_rep s tx x batch : tx_rep s tx x → tx_write_buf tx = Some batch → sx_writes x = batch ∧ batch ≠ [].
Proof.
  intros [_ Hw Hb _ _ _] E. unfold write_buf_or_init in Hw. rewrite E in Hw, Hb. cbn in Hw. split; [done|]. congruence.
Qed.

Lemma insert_step_rep contents w st id tx x batch n r s' :
  system_rep contents w st → sy_live w !! id = Some tx → tx_rep (sy_store w) tx x →
  sy_commits w !! id = Some (Some n) → sx_conflict x = false → tx_write_buf tx = Some batch →
  commit_insert batch n (sy_store w) = (r, s') →
  r = Ok () ∧ seq_of s' = seq_of (sy_store w) ∧
  system_rep contents (end_tx w (transaction_drop s') id) (sp_insert id x st).
Proof.
  intros Hr Hid Htx Hn Hc Hb Hi. pose proof Hr as [Hk Hm Hcnt Hl Hp].
  destruct (batch_rep _ _ _ _ Htx Hb) as [<- _].
  destruct (commit_insert_ok contents (sx_writes x) n (sy_store w) Hk (pr_drawn _ _ Hp _ _ Hn) (tr_keys _ _ _ Htx))
    as (s1 & Hi' & Hk1 & Hev & Hsq & Htxc & Hw & Hv). rewrite Hi in Hi'. injection Hi' as -> ->.
  destruct (transaction_drop_ok contents s1 Hk1) as [Hk' Hev']. split_and!; [done|done|].
  apply (insert_rep contents w st id tx x n); try done.
  - intros id' tx'. by eapply pr_newer.
  - by etrans.
  - cbn. unfold mem_table. by rewrite Htxc.
  - by apply (writes_before _ _ _ s1).
  - apply Hv. intros k q v Hin. eapply (no_conflict_fresh _ tx x n); try done. by eapply pr_newer.
Qed.

(** A removal is timely when its key is still there. *)
Lemma erase_timely contents w st id key r :
  system_rep contents w st → sy_removals w !! id = Some key → races (OpErase id) st = false →
  event_timely (sy_store w, LErase key r).
Proof.
  intros [Hk Hm _ _ Hp] Hid Hrace. cbn [races] in Hrace. rewrite (pr_removals _ _ Hp), Hid in Hrace. cbn in Hrace.
  apply negb_false_iff, bool_decide_eq_true in Hrace as [v Hv]. exists v. cbn [fst].
  destruct (storage_get_ok contents (sy_store w) key Hk) as (s1 & -> & _). cbn [fst]. by rewrite (Hm key), Hv.
Qed.

Lemma read_rep contents w st s' :
  system_rep contents w st → kip_inv contents s' → keymap_eq (view contents s') (view contents (sy_store w)) →
  (∀ b, evolves b (sy_store w) s') → mem_of s' = mem_of (sy_store w) → system_rep contents (with_store w s') st.
Proof.
  intros [Hk Hm Hn Hl Hp] Hk' Hv Hev Hmem. split; cbn [with_store sy_store sy_live]; try done.
  - by rewrite Hv.
  - by rewrite Hmem.
  - apply (live_same (sy_store w)); by rewrite ?Hmem.
  - apply (pending_kept w st); try done; [by apply (ev_seq 0)|]. by eauto.
Qed.

Lemma put_rep contents w st id tx tx' x' :
  system_rep contents w st → sy_live w !! id = Some tx → tx_seq_id tx' = tx_seq_id tx → tx_rep (sy_store w) tx' x' →
  system_rep contents (with_tx w (sy_store w) id tx') (sp_update id x' st).
Proof.
  intros [Hk Hm Hn Hl Hp] Hid Hseq Hx. split; cbn [with_tx sp_update sy_store sy_live sp_map sp_live]; try done.
  - by rewrite map_size_insert, Hid.
  - by apply live_rep_insert.
  - apply (pending_kept w st); try done. intros id' tx2. cbn [with_tx sy_live]. rewrite lookup_insert_Some.
    intros [[<- <-]|[_ ?]]; eauto.
Qed.

Lemma phase_rep contents w st s' id (d : option Z) :
  system_rep contents w st → kip_inv contents s' → keymap_eq (view contents s') (view contents (sy_store w)) →
  (∀ b, evolves b (sy_store w) s') → mem_of s' = mem_of (sy_store w) →
  (∀ n, d = Some n → (0 ≤ n < seq_of s')%Z ∧ (seq_of (sy_store w) ≤ n)%Z) →
  system_rep contents (with_phase w s' id d) (sp_phase id (bool_decide (is_Some d)) st).
Proof.
  intros Hr Hk' Hv Hev Hmem Hd. pose proof (read_rep contents w st s' Hr Hk' Hv Hev Hmem) as [_ Hm' Hn' Hl' Hp'].
  split; cbn [with_phase sp_phase sy_store sy_live sp_map sp_live]; try done.
  destruct Hp' as [Hc Hrm Hkeys Hdr Hnew]. cbn [with_store sy_commits sy_removals sy_store sy_live] in *.
  split; cbn [with_phase sp_phase sy_store sy_live sy_commits sy_removals sp_commits sp_removals]; try done.
  - by rewrite Hc, fmap_insert.
  - intros id' n. rewrite lookup_insert_Some. intros [[_ ->]|[_ ?]]; [by apply Hd|by eapply Hdr].
  - intros id' n id2 tx2. rewrite lookup_insert_Some. intros [[_ ->]|[_ ?]] Htx2; [|by eapply Hnew].
    pose proof (live_rep_seq _ _ _ _ _ (sr_live _ _ _ Hr) Htx2). destruct (Hd n eq_refl). lia.
Qed.

Lemma spec_touch_nothing st : sp_write [] (sp_map st) st = st.
Proof. destruct st. unfold sp_write. cbn. by rewrite touch_nothing. Qed.

Lemma system_step_ok contents w op a w' st :
  system_rep contents w st → system_step w op a w' → op_safe (w, op) → races op st = false →
  (seq_of (sy_store w) < SEQ_MAX)%Z →
  ∃ contents' st', spec_exec op st = Some (a, st') ∧ system_rep contents' w' st' ∧
    (seq_of (sy_store w') ≤ seq_of (sy_store w) + 1)%Z.
Proof.
  intros Hr Hstep Hsafe Hrace Hseq. pose proof Hr as [Hk Hm Hn Hl Hp].
  destruct Hstep as [cmd r w s' Hs|id key w s' Hid Hkey Hg|id key w s' Hid Hs|id key r w s' Hid Hs|w s' Hs|task w s' Hs
    |id ct w tx s' Hid Hnew|id key tx r w s' Hrun Hg|id key value tx w Hrun Hne|id key tx r tx' w s' Hrun Hne Hd
    |id tx r w s' Hrun Hc|id tx w Hrun Hc|id tx e w Hrun Hc|id tx batch w Hrun Hc|id n w s' Hid Hd
    |id tx batch n r w s' Hid Hcm Hb Hi|id tx w Hrun].
  - destruct (kip_step_rep contents w st _ s' Hr Hs I I Hseq) as (contents' & Hk' & Hsq & [<- Hv] & Hrep).
    exists contents', (sp_write (cmd_writes cmd (sp_map st)) (map_exec cmd (sp_map st)).2 st). cbn [spec_exec].
    split_and!; [by destruct (map_exec cmd (sp_map st))| |done].
    apply Hrep; [done|by rewrite (pr_removals _ _ Hp)|by apply (pr_keys _ _ Hp)].
  - destruct (storage_get_ok contents (sy_store w) key Hk) as (s1 & Hg' & Hk' & Hsq & Hmem & Hv).
    destruct (storage_get_evolves contents (sy_store w) key _ _ Hk Hg) as (Hev & _).
    rewrite Hg in Hg'. injection Hg' as Hval <-. cbn [spec_exec]. rewrite (pr_removals _ _ Hp), Hid, <- (Hm key), <- Hval.
    exists contents, st. split_and!; [done|by apply read_rep|cbn; lia].
  - destruct (kip_step_rep contents w st _ s' Hr Hs I I Hseq) as (contents' & Hk' & Hsq & [[v Hv] Hvw] & Hrep).
    cbn [spec_exec]. rewrite (pr_removals _ _ Hp), Hid, Hv. eexists contents', _. split_and!; [done| |done].
    cbn [label_writes] in Hrep. rewrite touch_nothing in Hrep. apply Hrep; [done|done|].
    intros id' key'. rewrite lookup_insert_Some. intros [[_ <-]|[_ ?]]; [by inversion Hs|by eapply pr_keys].
  - destruct (kip_step_rep contents w st _ s' Hr Hs I) as (contents' & Hk' & Hsq & [Hans Hv] & Hrep);
      [by eapply erase_timely|done|].
    cbn [spec_exec races] in *. rewrite (pr_removals _ _ Hp), Hid in *. cbn in Hrace |- *.
    apply negb_false_iff, bool_decide_eq_true in Hrace as [v Hval]. cbn [map_exec] in Hans, Hv. rewrite Hval in Hans, Hv.
    subst r. eexists contents', _. split_and!; [done| |done]. apply Hrep; [done|done|].
    intros id' key'. rewrite lookup_delete_Some. intros [_ ?]. by eapply pr_keys.
  - destruct (kip_step_rep contents w st _ s' Hr Hs I I Hseq) as (contents' & Hk' & Hsq & Hv & Hrep).
    cbn [label_writes] in Hrep. rewrite touch_nothing in Hrep. eexists contents', st. split_and!; [done| |done].
    pose proof (Hrep (sp_map st) _ _ Hv (eq_sym (pr_removals _ _ Hp)) (pr_keys _ _ Hp)) as Hr'. by destruct st.
  - destruct (kip_step_rep contents w st _ s' Hr Hs Hsafe I Hseq) as (contents' & Hk' & Hsq & Hv & Hrep).
    cbn [label_writes] in Hrep. rewrite touch_nothing in Hrep. eexists contents', st. split_and!; [done| |done].
    pose proof (Hrep (sp_map st) _ _ Hv (eq_sym (pr_removals _ _ Hp)) (pr_keys _ _ Hp)) as Hr'. by destruct st.
  - destruct (begin_rep contents w st id ct tx s' Hr Hseq Hid Hrace Hnew) as (Hx & Hsq & Hr').
    eexists contents, _. cbn [spec_exec]. rewrite Hx. split_and!; [done|done|cbn; lia].
  - destruct (running_lookup w st id tx Hp Hl Hrun) as (Hid & x & Hx & _ & Htx).
    destruct (transaction_get_rep contents (sy_store w) tx x key Hk Htx) as (s1 & Hg' & Hk' & Hv & Hev & Hmem & Hsq).
    rewrite Hg in Hg'. injection Hg' as -> ->. cbn [spec_exec]. rewrite Hx. eexists contents, st.
    split_and!; [done|by apply read_rep|cbn; lia].
  - destruct (running_lookup w st id tx Hp Hl Hrun) as (Hid & x & Hx & _ & Htx). cbn [spec_exec]. rewrite Hx.
    eexists contents, _. split_and!; [done| |cbn; lia]. apply (put_rep contents w st id tx); try done. by apply tx_rep_put.
  - destruct (running_lookup w st id tx Hp Hl Hrun) as (Hid & x & Hx & Hlx & Htx).
    destruct (transaction_get_rep contents (sy_store w) tx x key Hk Htx) as (s1 & Hg' & Hk' & Hv & Hev & Hmem & Hsq).
    unfold transaction_remove in Hd. rewrite Hg' in Hd. cbn [spec_exec]. rewrite Hx. cbn.
    pose proof (read_rep contents w st s1 Hr Hk' Hv Hev Hmem) as Hr1.
    destruct (live_rep_lookup _ _ _ _ _ (sr_live _ _ _ Hr1) Hid) as (x1 & Hx1 & Htx1). cbn [with_store sy_store] in Htx1.
    rewrite Hlx in Hx1. injection Hx1 as <-.
    destruct (sx_read x key) as [v|]; injection Hd as <- <- <-; eexists contents, _; (split_and!; [done| |cbn; lia]).
    + apply (put_rep contents (with_store w s1) st id tx); try done. by apply tx_rep_put.
    + pose proof (put_rep contents (with_store w s1) st id tx tx x Hr1 Hid eq_refl Htx1) as Hr2.
      unfold sp_update in Hr2. rewrite (insert_id (sp_live st) id x Hlx) in Hr2. by destruct st.
  - destruct (running_lookup w st id tx Hp Hl Hrun) as (Hid & x & Hx & _ & Htx). cbn [spec_exec]. rewrite Hx. cbn.
    destruct (commit_rep contents w st id tx x r s' Hr Hseq Hid Htx Hc) as [Hsq Hend].
    destruct (sx_conflict x); destruct Hend as [-> Hr']; eexists contents, _; by split_and!.
  - destruct (running_lookup w st id tx Hp Hl Hrun) as (Hid & x & Hx & _ & Htx). cbn [spec_exec]. rewrite Hx. cbn.
    rewrite commit_check_conflict, (conflict_rep _ _ _ Htx) in Hc. destruct (sx_conflict x); [done|]. injection Hc as Hc.
    pose proof (tr_writes _ _ _ Htx) as Hw. unfold write_buf_or_init in Hw. rewrite Hc in Hw. cbn in Hw. rewrite <- Hw.
    eexists contents, _. split_and!; [done|by eapply drop_rep|cbn; lia].
  - destruct (running_lookup w st id tx Hp Hl Hrun) as (Hid & x & Hx & _ & Htx). cbn [spec_exec]. rewrite Hx. cbn.
    rewrite commit_check_conflict, (conflict_rep _ _ _ Htx) in Hc. destruct (sx_conflict x); [|done]. injection Hc as <-.
    eexists contents, _. split_and!; [done|by eapply drop_rep|cbn; lia].
  - destruct (running_lookup w st id tx Hp Hl Hrun) as (Hid & x & Hx & _ & Htx). cbn [spec_exec]. rewrite Hx. cbn.
    rewrite commit_check_conflict, (conflict_rep _ _ _ Htx) in Hc. destruct (sx_conflict x); [done|]. injection Hc as Hc.
    destruct (batch_rep _ _ _ _ Htx Hc) as [-> Hne]. destruct batch as [|e batch]; [done|].
    eexists contents, _. split_and!; [done| |cbn; lia].
    by apply (phase_rep contents w st (sy_store w) id None).
  - cbn [spec_exec]. rewrite (pr_commits _ _ Hp), lookup_fmap, Hid. cbn.
    destruct (commit_draw_ok contents (sy_store w) n s' Hk Hseq Hd) as (-> & Hk' & Hev & Hsq & Hmem & Hv).
    pose proof (wf_seq _ _ (mi_wf _ _ (ki_mem _ _ Hk))) as Hs0.
    eexists contents, _. split_and!; [done| |cbn; lia].
    apply (phase_rep contents w st s' id (Some (seq_of (sy_store w)))); try done. intros n [= <-]. lia.
  - destruct (live_rep_lookup _ _ _ _ _ Hl Hid) as (x & Hx & Htx). cbn [spec_exec races] in *.
    rewrite (pr_commits _ _ Hp), lookup_fmap, Hcm, Hx. rewrite Hx in Hrace. cbn in Hrace |- *.
    destruct (insert_step_rep contents w st id tx x batch n r s' Hr Hid Htx Hcm Hrace Hb Hi) as (-> & Hsq & Hr').
    eexists contents, _. split_and!; [done|done|cbn; lia].
  - destruct (running_lookup w st id tx Hp Hl Hrun) as (Hid & x & Hx & _ & Htx). cbn [spec_exec]. rewrite Hx.
    eexists contents, _. split_and!; [done|by eapply drop_rep|cbn; lia].
Qed.

(** C1: the storage with its clients, its background task and any number of transactions,
    interleaved at the grain of its locks, gives every answer the specification gives, as
    long as the background tasks that are run are safe and no race happens: clients act on
    one map, a transaction reads the map as it was when it began and its own writes, and its
    commit puts all its writes on the map at once, or is refused when one of its keys was
    written between its beginning and its check, and only then.  The races are those of
    [races]: a key of a commit is written between its check and its insertion, a
    transaction begins between the drawing of a commit's number and its insertion, a key
    is removed by another between the two halves of its removal.  Keys are not empty, and
    the sequence numbers last for the run. *)
Theorem system_refines_spec contents w st tr answers w' :
  system_rep contents w st → system_run w tr answers w' →
  Forall op_safe tr → race_free tr.*2 st = true →
  (seq_of (sy_store w) + Z.of_nat (length tr) ≤ SEQ_MAX)%Z →
  ∃ contents' st', spec_run tr.*2 st = Some (answers, st') ∧ system_rep contents' w' st'.
Proof.
  intros Hr Hrun. revert contents st Hr. induction Hrun as [w|w1 op a w2 tr answers w3 Hstep _ IH];
    intros contents st Hr Hsafe Hrace Hseq; [by exists contents, st|].
  cbn [length fmap list_fmap snd race_free] in *. apply Forall_cons in Hsafe as [Hs Hsafe].
  apply andb_true_iff in Hrace as [Ho%negb_true_iff Hrace].
  destruct (system_step_ok contents w1 op a w2 st Hr Hstep Hs Ho ltac:(lia)) as (contents2 & st2 & He & Hr2 & Hsq).
  rewrite He in Hrace. destruct (IH contents2 st2 Hr2 Hsafe Hrace ltac:(lia)) as (contents3 & st3 & Hsp & Hr3).
  exists contents3, st3. split; [|done]. cbn [spec_run]. rewrite He. cbn. by rewrite Hsp.
Qed.

(** A storage starts without transactions. *)
Definition alone (s : KipStorage T) : System := mkSystem s ∅ ∅ ∅.

Lemma open_count config now try_lock wal ver (tables : gmap Z T) c (s : KipStorage T) :
  open_with_config config now try_lock wal ver tables c = Some (Ok s) → tx_count (mem_of s) = 0.
Proof.
  unfold open_with_config, store_inner_new, mem_table_new. destruct (lock_or_time_out _); [|done..].
  destruct (log_reload_gen _ _ _) as [g c1]. destruct (log_load _ _ _) as [[recs| |]|]; [|done..].
  destruct (cfg_minor_trigger_with_threshold config) as [tt th].
  destruct (load_with_path _ _) as [[[[vs h] c2]| |]|]; [|done..]. cbn [res_bind]. by intros [= <-].
Qed.

Lemma system_rep_alone contents (s : KipStorage T) m :
  kip_inv contents s → keymap_eq (view contents s) m → tx_count (mem_of s) = 0 →
  system_rep contents (alone s) (spec_alone m).
Proof.
  intros Hk Hv Hn. split; try done. intros id. cbn. rewrite !lookup_empty. constructor.
Qed.

(** ** What is on disk *)

(** What the log can hold of the writes. *)
Definition op_wf (op : Op) : Prop :=
  match op with
  | OpClient cmd => label_wf (LCmd cmd (Ok None))
  | OpFind _ key => data_wf (key, None)
  | OpWrite _ key value => data_wf (key, Some value)
  | OpDelete _ key => data_wf (key, None)
  | _ => True
  end.

(** A buffer is made by the first write into it. *)
Definition buffer_wf (tx : Transaction) : Prop :=
  ∀ b, tx_write_buf tx = Some b → b ≠ [] ∧ ksorted b ∧ Forall data_wf b ∧ Forall (λ e, e.1 ≠ []) b.

Record system_disk (w : System) : Prop := {
  sd_disk : disk_inv (sy_store w);
  sd_buffers id tx : sy_live w !! id = Some tx → buffer_wf tx;
  sd_removals id key : sy_removals w !! id = Some key → data_wf (key, None);
}.

Lemma buffer_put tx key v :
  buffer_wf tx → key ≠ [] → data_wf (key, v) →
  buffer_wf (set_write_buf tx (Some (btree_insert key v (write_buf_or_init tx)))).
Proof.
  intros Hb Hne Hd b [= <-]. unfold write_buf_or_init.
  assert (ksorted (default [] (tx_write_buf tx)) ∧ Forall data_wf (default [] (tx_write_buf tx)) ∧
    Forall (λ e, e.1 ≠ []) (default [] (tx_write_buf tx))) as (Hs & Hf & Hk).
  { destruct (tx_write_buf tx) as [b|] eqn:E; cbn; [|by repeat constructor]. by destruct (Hb b E) as (_ & ? & ? & ?). }
  assert (∀ e, e ∈ btree_insert key v (default [] (tx_write_buf tx)) →
    e = (key, v) ∨ e ∈ default [] (tx_write_buf tx)) as Hin.
  { intros e. rewrite btree_insert_elem by done. naive_solver. }
  rewrite Forall_forall in Hf, Hk. split_and!.
  - intros E. assert ((key, v) ∈ ([] : list KeyValue)) as []%not_elem_of_nil. rewrite <- E.
    apply btree_insert_elem; [done|]. by left.
  - by apply btree_insert_sorted.
  - apply Forall_forall. intros e [->|?]%Hin; [done|by apply Hf].
  - apply Forall_forall. intros e [->|?]%Hin; [done|by apply Hk].
Qed.

(** What transactions leave alone of the storage. *)
Definition rest_same (s s' : KipStorage T) : Prop :=
  so_status (ks_inner s') = so_status (ks_inner s) ∧ so_tables (ks_inner s') = so_tables (ks_inner s) ∧
  ks_config s' = ks_config s.

Lemma disk_inv_rest (s s' : KipStorage T) ws :
  rest_same s s' → disk_inv s → wal_logged (mem_of s') ws → disk_inv s'.
Proof. intros (Hst & _ & Hc) [_ Hv] Hw. split; [by exists ws|]. by rewrite Hst, Hc. Qed.

Lemma disk_inv_mem (s s' : KipStorage T) :
  rest_same s s' → mt_inner (mem_of s') = mt_inner (mem_of s) → disk_inv s → disk_inv s'.
Proof. intros Hr Hm Hd. destruct (di_wal _ Hd) as [ws Hw]. eapply disk_inv_rest; [done..|by eapply wal_logged_same]. Qed.

Lemma transaction_get_rest key tx (s : KipStorage T) r s' :
  transaction_get key tx s = (r, s') → rest_same s s' ∧ mem_of s' = mem_of s.
Proof.
  unfold transaction_get. destruct (tx_write_buf tx ≫= _); [by intros [= _ <-]|].
  destruct (find_with_sequence_id _ _ _) as [[? ?]|]; [by intros [= _ <-]|].
  destruct (query_and_compaction _ _ _ _ _) as [[o h] ch]. by intros [= _ <-].
Qed.

Lemma commit_insert_disk batch n (s : KipStorage T) r s' :
  disk_inv s → batch ≠ [] → Forall data_wf batch → Forall (λ e, e.1 ≠ []) batch →
  (∀ k q v, k ∈ batch.*1 → (new_with_seq k q, v) ∈ mem_versions (mem_of s) → (q ≤ n)%Z) →
  commit_insert batch n s = (r, s') → rest_same s s' ∧ disk_inv s'.
Proof.
  intros Hd Hne Hf Hkeys Hfresh. unfold commit_insert.
  destruct (insert_batch_data _ _ _) as [[ex m]| |] eqn:Ei; [|by intros [= _ <-]..].
  assert (∀ ch, let s2 := set_tx (set_inner_store s (set_mem_table (ks_inner s) m (so_counters (ks_inner s)))) ch in
    rest_same s s2 ∧ disk_inv s2) as Hset.
  { intros ch. split; [done|]. destruct (di_wal _ Hd) as [ws Hw].
    eapply (disk_inv_rest s); [done..|]. cbn [set_tx set_inner_store set_mem_table ks_inner so_mem_table].
    by eapply (insert_batch_data_logged (mem_of s) batch n). }
  destruct ex; [|intros [= _ <-]; by apply (Hset (ks_compactor_tx s))].
  destruct (try_send _ _) as [ch| |]; intros [= _ <-]; apply Hset || apply (Hset (ks_compactor_tx s)).
Qed.

Lemma transaction_commit_disk contents tx (s : KipStorage T) r s' :
  kip_inv contents s → disk_inv s → buffer_wf tx → transaction_commit tx s = (r, s') →
  rest_same s s' ∧ disk_inv s'.
Proof.
  intros Hk Hd Hb. unfold transaction_commit. destruct (commit_body tx s) as [r1 s1] eqn:E. intros [= _ <-].
  assert (rest_same s s1 ∧ disk_inv s1) as [Hr1 Hd1]; cycle 1.
  { split; [done|]. by apply (disk_inv_mem s1). }
  revert E. unfold commit_body. rewrite commit_check_conflict. destruct (conflict tx s); [by intros [= _ <-]|].
  destruct (tx_write_buf tx) as [b|] eqn:Eb; [|by intros [= _ <-]].
  destruct (Hb b Eb) as (Hne & _ & Hf & Hkeys). unfold commit_draw. cbn [seq_create]. intros Hi.
  eapply commit_insert_disk in Hi as [Hr Hd']; [by split|by apply (disk_inv_mem s)|done..|].
  intros k q v _ Hin. apply (wf_mem _ _ (mi_wf _ _ (ki_mem _ _ Hk))) in Hin. lia.
Qed.

(** *** Each step *)

Context {BCL : BincodeLaws (list RawEdit)}.
Context (config : Config) (Hsize : (0 < cfg_sst_file_size config)%N)
        (Htypes : length (cfg_level_table_type config) = MAX_LEVEL).

Record durable (w : System) : Prop := {
  du_config : ks_config (sy_store w) = config;
  du_disk : system_disk w;
  du_tables : tables_made config (ks_inner (sy_store w));
}.

Lemma durable_kip contents w l s' removals :
  kip_inv contents (sy_store w) → label_wf l → kip_step (sy_store w) l s' → event_safe (sy_store w, l) → durable w →
  (∀ id key, removals !! id = Some key → data_wf (key, None)) →
  durable (mkSystem s' (sy_live w) (sy_commits w) removals).
Proof.
  intros Hk Hl Hstep Hsafe [Hc [Hd Hb Hrm] Ht] Hrem.
  destruct (kip_step_disk contents _ l s' Hk Hd Hl Hstep) as [Hd' Hc'].
  destruct (kip_step_made config Hsize Htypes contents _ l s' Hc Hk Hstep Hsafe Ht) as [Ht' _].
  split; [by rewrite <- Hc|by split|done].
Qed.

Lemma durable_rest w w' :
  durable w → rest_same (sy_store w) (sy_store w') → disk_inv (sy_store w') → sy_removals w' = sy_removals w →
  (∀ id tx, sy_live w' !! id = Some tx → sy_live w !! id = Some tx ∨ buffer_wf tx) → durable w'.
Proof.
  intros [Hc [Hd Hb Hrm] Ht] (Hst & Htab & Hcfg) Hd' Er Hlive. split.
  - congruence.
  - split; [done| |by rewrite Er]. intros id tx Hid. destruct (Hlive id tx Hid) as [Hold|?]; [by eapply Hb|done].
  - by eapply tables_made_same.
Qed.

(** The store as it was, or with the same memory. *)
Lemma durable_mem w w' :
  durable w → rest_same (sy_store w) (sy_store w') → mt_inner (mem_of (sy_store w')) = mt_inner (mem_of (sy_store w)) →
  sy_removals w' = sy_removals w →
  (∀ id tx, sy_live w' !! id = Some tx → sy_live w !! id = Some tx ∨ buffer_wf tx) → durable w'.
Proof.
  intros Hd Hr Hm Er Hl. apply (durable_rest w); try done. apply (disk_inv_mem (sy_store w)); try done. apply Hd.
Qed.

Lemma system_step_durable contents w op a w' st :
  system_rep contents w st → durable w → op_wf op → system_step w op a w' → op_safe (w, op) → races op st = false →
  durable w'.
Proof.
  intros Hr Hd Hop Hstep Hsafe Hrace. pose proof Hr as [Hk _ _ Hl Hp]. pose proof (du_disk _ Hd) as [Hdisk Hbuf Hrem].
  assert (∀ id tx, running w id = Some tx → buffer_wf tx) as Hrb.
  { intros id tx Hrun. destruct (running_lookup w st id tx Hp Hl Hrun) as [Hid _]. by eapply Hbuf. }
  assert (∀ id id' tx, delete id (sy_live w) !! id' = Some tx → sy_live w !! id' = Some tx ∨ buffer_wf tx) as Hdel.
  { intros id id' tx. rewrite lookup_delete_Some. intros [_ ?]. by left. }
  assert (∀ id tx0 id' tx, buffer_wf tx0 → <[id := tx0]> (sy_live w) !! id' = Some tx →
    sy_live w !! id' = Some tx ∨ buffer_wf tx) as Hins.
  { intros id tx0 id' tx H0. rewrite lookup_insert_Some. intros [[_ <-]|[_ ?]]; auto. }
  destruct Hstep as [cmd r w s' Hs|id key w s' Hid Hkey Hg|id key w s' Hid Hs|id key r w s' Hid Hs|w s' Hs|task w s' Hs
    |id ct w tx s' Hid Hnew|id key tx r w s' Hrun Hg|id key value tx w Hrun Hne|id key tx r tx' w s' Hrun Hne Hdl
    |id tx r w s' Hrun Hc|id tx w Hrun Hc|id tx e w Hrun Hc|id tx batch w Hrun Hc|id n w s' Hid Hdr
    |id tx batch n r w s' Hid Hcm Hb Hi|id tx w Hrun]; cbn [op_wf] in Hop.
  - apply (durable_kip contents w (LCmd cmd r)); try done.
  - destruct (storage_get_same _ _ _ _ Hg) as (Hm & Hst & Hc & Hcfg).
    destruct (storage_get_kept _ _ _ _ Hg) as [Ht _].
    apply (durable_mem w); try done; [cbn [with_store sy_store]; by rewrite Hm|by left].
  - apply (durable_kip contents w (LFound key)); try done. intros id' key'. rewrite lookup_insert_Some. intros [[_ <-]|[_ ?]]; [done|by eapply Hrem].
  - apply (durable_kip contents w (LErase key r)); try done; [by apply (Hrem id)|].
    intros id' key'. rewrite lookup_delete_Some. intros [_ ?]. by eapply Hrem.
  - by apply (durable_kip contents w LSilent).
  - by apply (durable_kip contents w (LTask task)).
  - apply (durable_mem w); cbn [with_tx sy_store sy_live sy_removals]; try done; [by injection Hnew as _ <-..|].
    intros id' tx'. apply Hins. injection Hnew as <- _. by intros b.
  - destruct (transaction_get_rest key tx _ r s' Hg) as [Hrest Hm].
    apply (durable_mem w); try done; [cbn [with_store sy_store]; by rewrite Hm|by left].
  - apply (durable_mem w); try done. intros id' tx'. apply Hins. apply buffer_put; [by eapply Hrb|done..].
  - unfold transaction_remove in Hdl. destruct (transaction_get key tx (sy_store w)) as [o s1] eqn:Eg.
    destruct (transaction_get_rest key tx _ o s1 Eg) as [Hrest Hm].
    assert (s1 = s' ∧ buffer_wf tx') as [<- Htx].
    { destruct o as [[v|]| |]; injection Hdl as _ <- <-; (split; [done|]); [|by eapply Hrb..].
      apply buffer_put; [by eapply Hrb|done..]. }
    apply (durable_mem w); try done; [cbn [with_tx sy_store]; by rewrite Hm|]. intros id' tx2. by apply Hins.
  - destruct (transaction_commit_disk contents tx (sy_store w) r s' Hk Hdisk) as [Hrest Hd']; [by eapply Hrb|done|].
    apply (durable_rest w); try done. intros id' tx'. apply Hdel.
  - apply (durable_mem w); try done. intros id' tx'. apply Hdel.
  - apply (durable_mem w); try done. intros id' tx'. apply Hdel.
  - apply (durable_mem w); try done. by left.
  - unfold commit_draw in Hdr. injection Hdr as _ <-. apply (durable_mem w); try done. by left.
  - destruct (live_rep_lookup _ _ _ _ _ Hl Hid) as (x & Hx & Htx). cbn [races] in Hrace. rewrite Hx in Hrace.
    destruct (batch_rep _ _ _ _ Htx Hb) as [Ex _]. destruct (Hbuf id tx Hid batch Hb) as (Hne & _ & Hf & Hkeys).
    destruct (commit_insert_disk batch n (sy_store w) r s' Hdisk) as [Hrest Hd']; try done.
    { intros k q v Hin. rewrite <- Ex in Hin. eapply (no_conflict_fresh _ tx x n); try done. by eapply pr_newer. }
    apply (durable_rest w); try done; [by apply (disk_inv_mem s')|]. intros id' tx'. apply Hdel.
  - apply (durable_mem w); try done. intros id' tx'. apply Hdel.
Qed.

(** A storage opened on empty directories, before any transaction. *)
Lemma system_opened now try_lock c (s : KipStorage T) :
  (0 ≤ seq_count c ≤ SEQ_MAX)%Z → lock_or_time_out try_lock = Ok () →
  open_with_config config now try_lock ∅ ∅ ∅ c = Some (Ok s) →
  system_rep (λ _, []) (alone s) spec_empty ∧ durable (alone s) ∧ seq_of s = seq_count c.
Proof.
  intros Hseq Hlock Hopen.
  destruct (open_empty_correct config now try_lock (∅ : gmap Z T) c Hlock Hseq Hsize Htypes)
    as (s0 & Hs0 & Hk0 & Hsq0 & _ & Hv0). rewrite Hopen in Hs0. injection Hs0 as <-.
  destruct (open_empty_disk config now try_lock ∅ c s Hopen Hseq) as [Hd0 Hcfg].
  split_and!; [|split|done]; cbn [sy_store].
  - apply system_rep_alone; [done..|]. by eapply open_count.
  - done.
  - split; [done|intros id tx; cbn; by rewrite lookup_empty..].
  - intros g t. cbn [alone sy_store]. by rewrite (open_tables _ _ _ _ _ _ _ _ Hopen).
Qed.
End system.
Arguments System {_} T.

(** ** Running clients and transactions *)

Section perform.
Context {SM : SkipMapOps InternalKey (option bytes)} {SML : SkipMapLaws InternalKey (option bytes)}.
Context `{IE : IntegerEncoding} {IEL : IntegerEncodingLaws} {CRC : Crc32} {CRCL : Crc32Laws}.
Context {IT : Itertools} {ITL : ItertoolsLaws} {BC : Bincode (list RawEdit)}.
Context {T : Type} {TB : Table T} {BLD : TableBuilder T} {BLDL : TableBuilderLaws T}.

(** The steps of clients and transactions as a function. *)
Definition perform (op : Op) (w : System T) : option (Answer * System T) :=
  let s := sy_store w in
  match op with
  | OpClient cmd =>
      if decide (get_key cmd = []) then None
      else let '(r, s') := storage_exec cmd s in Some (AnsValue r, with_store w s')
  | OpFind id key =>
      match sy_removals w !! id with
      | Some _ => None
      | None =>
          if decide (key = []) then None
          else match storage_get key s with
               | (Ok None, s') => Some (AnsValue (Err KeyNotFound), with_store w s')
               | (Ok (Some _), s') =>
                   Some (AnsNothing, mkSystem s' (sy_live w) (sy_commits w) (<[id := key]> (sy_removals w)))
               | _ => None
               end
      end
  | OpErase id =>
      key ← sy_removals w !! id;
      if decide (key = []) then None
      else let '(r, s') := append_cmd_data (key, None) s in
           Some (AnsValue (let? _ := r in Ok None),
             mkSystem s' (sy_live w) (sy_commits w) (delete id (sy_removals w)))
  | OpRequest | OpTask _ => None
  | OpBegin id =>
      match sy_live w !! id with
      | Some _ => None
      | None => let '(tx, s') := transaction_new Optimistic s in Some (AnsNothing, with_tx w s' id tx)
      end
  | OpRead id key => tx ← running w id; let '(r, s') := transaction_get key tx s in Some (AnsValue r, with_store w s')
  | OpWrite id key value =>
      tx ← running w id;
      if decide (key = []) then None
      else Some (AnsNothing, with_tx w s id (transaction_set key value tx))
  | OpDelete id key =>
      tx ← running w id;
      if decide (key = []) then None
      else let '(r, tx', s') := transaction_remove key tx s in Some (AnsUnit r, with_tx w s' id tx')
  | OpCommit id => tx ← running w id; let '(r, s') := transaction_commit tx s in Some (AnsUnit r, end_tx w s' id)
  | OpCheck id =>
      tx ← running w id;
      match commit_check tx s with
      | Ok None => Some (AnsUnit (Ok ()), end_tx w (transaction_drop s) id)
      | Ok (Some _) => Some (AnsNothing, with_phase w s id None)
      | Err e => Some (AnsUnit (Err e), end_tx w (transaction_drop s) id)
      | Panic => None
      end
  | OpDraw id =>
      match sy_commits w !! id with
      | Some None => let '(n, s') := commit_draw s in Some (AnsNothing, with_phase w s' id (Some n))
      | _ => None
      end
  | OpInsert id =>
      match sy_commits w !! id, sy_live w !! id with
      | Some (Some n), Some tx =>
          batch ← tx_write_buf tx;
          let '(r, s') := commit_insert batch n s in Some (AnsUnit r, end_tx w (transaction_drop s') id)
      | _, _ => None
      end
  | OpRollback id => tx ← running w id; Some (AnsNothing, end_tx w (transaction_drop s) id)
  end.

Fixpoint performs (ops : list Op) (w : System T) : option (list Answer * System T) :=
  match ops with
  | [] => Some ([], w)
  | op :: ops' =>
      '(a, w1) ← perform op w;
      '(answers, w2) ← performs ops' w1;
      Some (a :: answers, w2)
  end.

Lemma perform_step op w a w' : perform op w = Some (a, w') → system_step w op a w' ∧ op_safe (w, op).
Proof.
  intros Hp. split; [|by destruct op]. revert Hp.
  destruct op as [cmd|id key|id| |task|id|id key|id key value|id key|id|id|id|id|id]; cbn [perform].
  - case_decide; [done|]. destruct (storage_exec cmd _) as [r s'] eqn:E. intros [= <- <-]. by do 2 constructor.
  - destruct (sy_removals w !! id) eqn:E; [done|]. case_decide; [done|].
    destruct (storage_get key _) as [[[v|]| |] s'] eqn:Eg; intros [= <- <-].
    + apply sys_find; [done|]. by apply (step_found key v).
    + by apply sys_find_missing.
  - destruct (sy_removals w !! id) as [key|] eqn:E; [cbn|done]. case_decide; [done|].
    destruct (append_cmd_data _ _) as [r s'] eqn:Ea. intros [= <- <-]. apply (sys_erase id key); [done|].
    by apply (step_erase key r).
  - done.
  - done.
  - destruct (sy_live w !! id) eqn:E; [done|]. destruct (transaction_new Optimistic _) as [tx s'] eqn:En.
    intros [= <- <-]. by econstructor.
  - destruct (running w id) as [tx|] eqn:E; [cbn|done]. destruct (transaction_get key tx _) as [r s'] eqn:Eg.
    intros [= <- <-]. by econstructor.
  - destruct (running w id) as [tx|] eqn:E; [cbn|done]. case_decide; [done|]. intros [= <- <-]. by econstructor.
  - destruct (running w id) as [tx|] eqn:E; [cbn|done]. case_decide; [done|].
    destruct (transaction_remove key tx _) as [[r tx'] s'] eqn:Er. intros [= <- <-]. by econstructor.
  - destruct (running w id) as [tx|] eqn:E; [cbn|done]. destruct (transaction_commit tx _) as [r s'] eqn:Ec.
    intros [= <- <-]. by econstructor.
  - destruct (running w id) as [tx|] eqn:E; [cbn|done].
    destruct (commit_check tx _) as [[batch|]|e|] eqn:Ec; intros [= <- <-];
      [by eapply sys_check|by eapply sys_check_nothing|by eapply sys_check_refused].
  - destruct (sy_commits w !! id) as [[n|]|] eqn:E; [done| |done]. destruct (commit_draw _) as [n s'] eqn:Ed.
    intros [= <- <-]. by econstructor.
  - destruct (sy_commits w !! id) as [[n|]|] eqn:E; [|done..]. destruct (sy_live w !! id) as [tx|] eqn:El; [|done].
    destruct (tx_write_buf tx) as [batch|] eqn:Eb; [cbn|done].
    destruct (commit_insert _ _ _) as [r s'] eqn:Ei. intros [= <- <-]. by econstructor.
  - destruct (running w id) as [tx|] eqn:E; [cbn|done]. intros [= <- <-]. by econstructor.
Qed.

(** A run of the operations [ops] whose background tasks are safe. *)
Definition safe_run (w : System T) (ops : list Op) (answers : list Answer) (w' : System T) : Prop :=
  ∃ tr, system_run w tr answers w' ∧ tr.*2 = ops ∧ Forall op_safe tr.

Lemma safe_run_nil w : safe_run w [] [] w.
Proof. exists []. by repeat constructor. Qed.

Lemma safe_run_cons w1 op a w2 ops answers w3 :
  system_step w1 op a w2 → op_safe (w1, op) → safe_run w2 ops answers w3 →
  safe_run w1 (op :: ops) (a :: answers) w3.
Proof. intros Hs Ho (tr & Hr & <- & Hf). exists ((w1, op) :: tr). split_and!; [by econstructor|done|by constructor]. Qed.

Lemma safe_run_app w1 w2 w3 ops1 ops2 as1 as2 :
  safe_run w1 ops1 as1 w2 → safe_run w2 ops2 as2 w3 → safe_run w1 (ops1 ++ ops2) (as1 ++ as2) w3.
Proof.
  intros (tr & Hr & <- & Hf). induction Hr as [w|w op a w' tr answers w'' Hs _ IH]; intros H2; [done|].
  apply Forall_cons in Hf as [Ho Hf]. cbn. eapply safe_run_cons; [done..|]. by apply IH.
Qed.

Lemma performs_run ops w answers w' : performs ops w = Some (answers, w') → safe_run w ops answers w'.
Proof.
  revert w answers. induction ops as [|op ops IH]; intros w answers; cbn [performs].
  { intros [= <- <-]. apply safe_run_nil. }
  destruct (perform op w) as [[a w1]|] eqn:E; cbn; [|done].
  destruct (performs ops w1) as [[as1 w2]|] eqn:E2; cbn; [|done]. intros [= <- <-].
  apply perform_step in E as [Hs Ho]. by eapply safe_run_cons, IH.
Qed.

Definition reached (ops : list Op) (w : System T) : System T :=
  default w (snd <$> performs ops w).

Lemma reached_run l w as0 : fst <$> performs l w = Some as0 → safe_run w l as0 (reached l w).
Proof.
  intros E. apply performs_run. unfold reached. destruct (performs l w) as [[as1 w']|]; [|done].
  by injection E as ->.
Qed.
End perform.

(** ** Witnesses *)

Module SystemSample.
Import Reference CompactorSample StorageSample.

(** The default configuration: every level is made of table files. *)
Definition config : Config := config_new "db"%string.
Definition seeds (g : Z) : Z * Z := (Z.land g 255, 22)%Z.
Definition locked : nat → KernelResult bool := λ _, Ok true.

Lemma data_interval : 2 ≤ cfg_data_restart_interval config.
Proof. vm_compute. lia. Qed.
Lemma index_interval : 2 ≤ cfg_index_restart_interval config.
Proof. vm_compute. lia. Qed.
Lemma seeds_range g : (0 ≤ (seeds g).1 < 2 ^ 64)%Z ∧ (0 ≤ (seeds g).2 < 2 ^ 64)%Z.
Proof.
  cbn [seeds fst snd]. split; [|lia]. change 255%Z with (Z.ones 8). rewrite Z.land_ones by lia.
  pose proof (Z.mod_pos_bound g (2 ^ 8) ltac:(lia)). lia.
Qed.

#[local] Instance builder : TableBuilder BoxTable := box_builder config seeds.
#[local] Instance builder_laws : TableBuilderLaws BoxTable :=
  box_builder_laws config seeds data_interval index_interval seeds_range.

Definition open_on (now : Z) (wal ver : Dir) (tables : gmap Z BoxTable) :=
  open_with_config config now locked wal ver tables (mkCounters 1 0).

Definition nothing : KipStorage BoxTable :=
  {| ks_inner := {| so_mem_table := mem; so_tables := ∅; so_status := so_status (ks_inner start);
                    so_seeks := []; so_counters := mkCounters 1 0 |};
     ks_config := config; ks_locked := false; ks_compactor_tx := ks_compactor_tx start |}.

(** A client's write and a transaction that overwrites it and commits; a flush; a
    transaction that loses against a client, one that reads its own deletion and is rolled
    back, one that commits in three steps with a client's write, and a removal in two halves,
    in between; and one that is alive at the end. *)
Definition before : list Op :=
  [OpClient (CmdSet [x01] [xaa]); OpBegin 0; OpWrite 0 [x02] [xbb]; OpDelete 0 [x01]; OpRead 0 [x01]; OpCommit 0].
Definition later : list Op :=
  [OpBegin 1; OpWrite 1 [x04] [x11]; OpClient (CmdSet [x04] [x22]); OpCommit 1;
   OpBegin 2; OpDelete 2 [x02]; OpRead 2 [x02]; OpDelete 2 [x01]; OpRollback 2;
   OpBegin 4; OpWrite 4 [x06] [x44]; OpCheck 4; OpFind 0 [x04]; OpDraw 4; OpClient (CmdSet [x07] [x55]);
   OpErase 0; OpInsert 4;
   OpBegin 3; OpWrite 3 [x05] [x33]; OpClient (CmdGet [x02])].
Definition ops : list Op := before ++ [OpRequest; OpTask (TaskFlush None)] ++ later.

Definition answers : list Answer :=
  [AnsValue (Ok None); AnsNothing; AnsNothing; AnsUnit (Ok ()); AnsValue (Ok None); AnsUnit (Ok ())] ++
  [AnsNothing; AnsNothing] ++
  [AnsNothing; AnsNothing; AnsValue (Ok None); AnsUnit (Err RepeatedWrite);
   AnsNothing; AnsUnit (Ok ()); AnsValue (Ok None); AnsUnit (Err KeyNotFound); AnsNothing;
   AnsNothing; AnsNothing; AnsNothing; AnsNothing; AnsNothing; AnsValue (Ok None); AnsValue (Ok None); AnsUnit (Ok ());
   AnsNothing; AnsNothing; AnsValue (Ok (Some [xbb]))].

Definition s0 : KipStorage BoxTable := settle (open_on 1000 ∅ ∅ ∅) nothing.
Definition w1 := reached before (alone s0).
Definition w2 := with_store w1 (settle (flush_background (sy_store w1)) (sy_store w1)).
Definition w3 := with_store w2 (settle (background_step (sy_store w2)) (sy_store w2)).
Definition w4 := reached later w3.

Lemma start_opened : open_on 1000 ∅ ∅ ∅ = Some (Ok s0).
Proof. apply settle_Ok. vm_compute. reflexivity. Qed.

(** The table of the flush is within the limits of the format. *)
Definition flushed : list KeyValue := [([x01], None); ([x02], Some [xbb])].

Lemma flushed_holds : file_holds config seeds 1000 flushed LEVEL_0.
Proof.
  unfold flushed. split.
  - split; try done; [repeat constructor| |vm_compute; lia].
    intros kv Hkv. repeat (apply elem_of_cons in Hkv as [->|Hkv]; [done|]). by apply elem_of_nil in Hkv.
  - intros n E. vm_compute in E. by injection E as <-.
  - intros t d E. vm_compute in E. injection E as <- <-. split; [vm_compute; done|split; [vm_compute; done|]].
    intros b e Hb He. vm_compute in Hb. injection Hb as <-.
    repeat (apply elem_of_cons in He as [->|He]; [vm_compute; done|]). by apply elem_of_nil in He.
Qed.

Lemma flush_ok (s : KipStorage BoxTable) gen values :
  is_threshold_exceeded_major (vs_version (so_status (ks_inner s))) config LEVEL_0 = Ok false →
  tx_count (so_mem_table (ks_inner s)) = 0 →
  (λ r, r.1.1) <$> swap (so_mem_table (ks_inner s)) (so_counters (ks_inner s)) = Some (Some (gen, values)) →
  file_holds config seeds gen values LEVEL_0 → ks_config s = config →
  task_safe (ks_config s) (ks_inner s) (TaskFlush None).
Proof.
  intros Hex Htx Hsw Hf Hc. rewrite Hc. apply (flush_task_ok config (ks_inner s) None); try done. intros g vs mem c tp E Htp. rewrite E in Hsw.
  injection Hsw as -> ->. vm_compute in Htp. by injection Htp as <-.
Qed.

Lemma sample_run : safe_run (alone s0) ops answers w4.
Proof.
  apply (safe_run_app _ w1); [apply reached_run; vm_compute; reflexivity|].
  apply (safe_run_app _ w3); [|apply reached_run; vm_compute; reflexivity].
  apply (safe_run_cons _ _ _ w2); [apply sys_request, step_flush_background, settle_Ok; vm_compute; reflexivity|exact I|].
  apply (safe_run_cons _ _ _ w3); [| |apply safe_run_nil].
  - apply sys_task, (step_task (TaskFlush None) []); [|apply settle_Ok]; vm_compute; reflexivity.
  - apply (flush_ok (sy_store w2) 1000 flushed); [vm_compute; reflexivity..|apply flushed_holds|vm_compute; reflexivity].
Qed.

Lemma ops_wf : Forall op_wf ops.
Proof. repeat constructor; try done. Qed.

Lemma opened : system_rep (λ _, []) (alone s0) spec_empty ∧ durable config (alone s0) ∧
  seq_count (so_counters (ks_inner s0)) = 1%Z.
Proof.
  apply (system_opened config eq_refl eq_refl 1000 locked (mkCounters 1 0));
    [vm_compute; split; discriminate|reflexivity|exact start_opened].
Qed.

Lemma system_refines_spec_witness :
  ∃ contents' st', spec_run ops spec_empty = Some (answers, st') ∧ system_rep contents' w4 st'.
Proof.
  destruct sample_run as (tr & Hrun & Hops & Hsafe).
  assert (length tr = length ops) as Hlen by (by rewrite <- Hops, length_fmap).
  rewrite <- Hops.
  apply (system_refines_spec (λ _, []) (alone s0) spec_empty tr answers w4).
  - apply opened.
  - exact Hrun.
  - exact Hsafe.
  - rewrite Hops. vm_compute. reflexivity.
  - rewrite Hlen. vm_compute. discriminate.
Defined.

End SystemSample.
