(* ===== verification/Database.v ===== *)
(** * The whole database: clients, transactions, compaction, cleaner and files

    [System.v] runs the storage with its clients, its background task and its transactions;
    here the rest of the process is added: the handles that keep versions alive, the
    cleaner that works through its channel in its own task, the files it deletes from the
    directories of tables and of logs (version/cleaner.rs, table/loader.rs [clean]), the
    storage that is dropped and the bytes of the log that are on disk.  The cleaner and the
    tasks take turns: a flush or a compaction is one step.  As long as the tasks are safe
    and no race happens, whatever the order of their steps, no file that the current version
    or a transaction needs is deleted, a restart finds everything it needs in the
    directories the cleaner left, and a database that closes leaves no other table file
    behind. *)

From S2P Require Import Prelude Std Crates Block Iterator BlockIter Io Log Config Bloom Lru Builder MemTable Scope BTreeTable.
From S2P Require Import SSTable SSTableIter Version VersionIter Cleaner Status Compactor Loader CompactorCorrect Storage StorageCorrect StorageRefine Mvcc MvccCorrect Reclaim Recovery Engine System.
From Stdlib Require Import ZArith Lia Strings.Byte Strings.String Sorted.
From stdpp Require Import base list list_numbers gmap sorting.

Set Default Goal Selector "!".
Open Scope nat_scope.

(** ** Steps of the system *)

Section system_moves.
Context {SM : SkipMapOps InternalKey (option bytes)} {SML : SkipMapLaws InternalKey (option bytes)}.
Context `{IE : IntegerEncoding} {IEL : IntegerEncodingLaws} {CRC : Crc32} {CRCL : Crc32Laws}.
Context {IT : Itertools} {ITL : ItertoolsLaws} {BC : Bincode (list RawEdit)}.
Context {T : Type} {TB : Table T} {BLD : TableBuilder T} {BLDL : TableBuilderLaws T}.
Context (config : Config) (Hsize : (0 < cfg_sst_file_size config)%N)
        (Htypes : length (cfg_level_table_type config) = MAX_LEVEL).

Lemma transaction_get_calm key tx (s : KipStorage T) r s' :
  transaction_get key tx s = (r, s') → calm (ks_inner s) (ks_inner s').
Proof.
  unfold transaction_get. destruct (tx_write_buf tx ≫= _); [by intros [= _ <-]|].
  destruct (find_with_sequence_id _ _ _) as [[? ?]|]; [by intros [= _ <-]|].
  destruct (query_and_compaction _ _ _ _ _) as [[o h] ch]. by intros [= _ <-].
Qed.

Lemma commit_insert_calm batch n (s : KipStorage T) r s' :
  commit_insert batch n s = (r, s') → calm (ks_inner s) (ks_inner s').
Proof.
  unfold commit_insert, insert_batch_data. destruct (fold_left _ _ _) as [[m trigger] buf].
  destruct (add_record _ _) as [[len w]| |]; cbn [res_bind]; [|by intros [= _ <-]..].
  destruct (is_exceeded trigger); [|by intros [= _ <-]]. by destruct (try_send _ _); intros [= _ <-].
Qed.

Lemma transaction_commit_calm tx (s : KipStorage T) r s' :
  transaction_commit tx s = (r, s') → calm (ks_inner s) (ks_inner s').
Proof.
  unfold transaction_commit. destruct (commit_body tx s) as [r1 s1] eqn:E. intros [= _ <-].
  assert (calm (ks_inner s) (ks_inner s1)); [|done].
  revert E. unfold commit_body. destruct (commit_check tx s) as [[b|]| |]; [|by intros [= _ <-]..].
  unfold commit_draw. cbn [seq_create]. by intros Hi%commit_insert_calm.
Qed.

Lemma transaction_remove_calm key tx (s : KipStorage T) r tx' s' :
  transaction_remove key tx s = (r, tx', s') →
  calm (ks_inner s) (ks_inner s') ∧ tx_version tx' = tx_version tx.
Proof.
  unfold transaction_remove. destruct (transaction_get key tx s) as [o s1] eqn:E.
  apply transaction_get_calm in E. by destruct o as [[v|]| |]; intros [= _ <- <-].
Qed.

Lemma running_live (w : System T) id tx : running w id = Some tx → sy_live w !! id = Some tx.
Proof. unfold running. by destruct (sy_commits w !! id). Qed.

(** Only the background task installs versions; a transaction keeps the version it began
    with. *)
Lemma system_step_moves contents (w : System T) op a w' :
  ks_config (sy_store w) = config → kip_inv contents (sy_store w) → system_step w op a w' → op_safe (w, op) →
  moves (ks_inner (sy_store w)) (ks_inner (sy_store w')) ∧
  ∀ id tx, sy_live w' !! id = Some tx →
    tx_version tx = current_version (sy_store w) ∨
    ∃ tx0, sy_live w !! id = Some tx0 ∧ tx_version tx = tx_version tx0.
Proof.
  intros Hc Hk Hstep Hsafe.
  assert (∀ id tx, sy_live w !! id = Some tx → tx_version tx = current_version (sy_store w) ∨
    ∃ tx0, sy_live w !! id = Some tx0 ∧ tx_version tx = tx_version tx0) as Hsame by eauto.
  assert (∀ id id' tx, delete id (sy_live w) !! id' = Some tx → tx_version tx = current_version (sy_store w) ∨
    ∃ tx0, sy_live w !! id' = Some tx0 ∧ tx_version tx = tx_version tx0) as Hdel.
  { intros id id' tx'. rewrite lookup_delete_Some. intros [_ ?]. by eauto. }
  destruct Hstep as [cmd r w s' Hs|id key w s' Hid Hkey Hg|id key w s' Hid Hs|id key r w s' Hid Hs|w s' Hs|task w s' Hs
    |id ct w tx s' Hid Hnew|id key tx r w s' Hrun Hg|id key value tx w Hrun Hne|id key tx r tx' w s' Hrun Hne Hd
    |id tx r w s' Hrun Hcm|id tx w Hrun Hcm|id tx e w Hrun Hcm|id tx batch w Hrun Hcm|id n w s' Hid Hdr
    |id tx batch n r w s' Hid Hcm Hb Hi|id tx w Hrun];
    (split; [|try exact Hsame; try (intros id' tx2; apply Hdel)]).
  - by apply (kip_step_moves config Hsize Htypes contents _ (LCmd cmd r)).
  - by eapply calm_moves, storage_get_calm.
  - by apply (kip_step_moves config Hsize Htypes contents _ (LFound key)).
  - by apply (kip_step_moves config Hsize Htypes contents _ (LErase key r)).
  - by apply (kip_step_moves config Hsize Htypes contents _ LSilent).
  - by apply (kip_step_moves config Hsize Htypes contents _ (LTask task)).
  - apply calm_moves. by injection Hnew as _ <-.
  - intros id' tx'. cbn [with_tx sy_live]. rewrite lookup_insert_Some. intros [[_ <-]|[_ ?]]; [|by eauto].
    left. by injection Hnew as <- _.
  - by eapply calm_moves, transaction_get_calm.
  - by apply calm_moves.
  - intros id' tx'. cbn [with_tx sy_live]. rewrite lookup_insert_Some. intros [[<- <-]|[_ ?]]; [|by eauto].
    apply running_live in Hrun. by eauto.
  - by eapply calm_moves, transaction_remove_calm.
  - intros id' tx2. cbn [with_tx sy_live]. rewrite lookup_insert_Some. intros [[<- <-]|[_ ?]]; [|by eauto].
    apply running_live in Hrun. apply transaction_remove_calm in Hd as [_ ->]. by eauto.
  - by eapply calm_moves, transaction_commit_calm.
  - by apply calm_moves.
  - by apply calm_moves.
  - by apply calm_moves.
  - apply calm_moves. unfold commit_draw in Hdr. by injection Hdr as _ <-.
  - apply calm_moves. apply commit_insert_calm in Hi. exact Hi.
  - by apply calm_moves.
Qed.

(** *** A message on the channel *)

Definition set_chan (s : KipStorage T) (ch : CleanChan) : KipStorage T :=
  let vs := so_status (ks_inner s) in
  set_inner_store s (set_status (ks_inner s)
    {| vs_version := vs_version vs; vs_ver_log_writer := vs_ver_log_writer vs; vs_logs := vs_logs vs;
       vs_edit_approximate_count := vs_edit_approximate_count vs; vs_chan := ch |}
    (so_counters (ks_inner s))).

Definition chan_of (w : System T) : CleanChan := vs_chan (so_status (ks_inner (sy_store w))).

Definition send_tags (w : System T) (ch : CleanChan) : System T :=
  with_store w (set_chan (sy_store w) ch).

Lemma set_chan_inv contents (s : KipStorage T) ch :
  kip_inv contents s → chan_open ch = true → kip_inv contents (set_chan s ch).
Proof.
  intros [[? ? ? ? ? ? ? ? ? ?] [? ? ? []] ? ? ?] Hch. split; [by split|split; try done; by split|done..].
Qed.

Lemma set_chan_rep contents (w : System T) st ch :
  system_rep contents w st → chan_open ch = true → system_rep contents (send_tags w ch) st.
Proof.
  intros Hr Hch. apply read_rep; [done|by apply set_chan_inv; [apply Hr|]|done| |done].
  intros b. by apply evolves_frame.
Qed.

Context {BCL : BincodeLaws (list RawEdit)}.

Lemma set_chan_durable (w : System T) ch : durable config w → durable config (send_tags w ch).
Proof.
  intros [Hc [[Hw Hv] Hb Hrm] Ht]. split; [done| |done]. split; [|done..]. split; [done|].
  intros Hcount. destruct (Hv Hcount) as [logs [? ? ? ? ?]]. by exists logs.
Qed.

(** *** The storage is dropped *)

Definition leave (w : System T) : System T := with_store w (storage_drop (sy_store w)).

Lemma leave_rep contents (w : System T) st : system_rep contents w st → system_rep contents (leave w) st.
Proof.
  intros Hr. apply read_rep; [done| |done| |done].
  - destruct (sr_inv _ _ _ Hr) as [Hst Hmem Ho Hs Ht]. split; try done. unfold storage_drop. cbn [ks_compactor_tx].
    destruct (try_send_open (ks_compactor_tx (sy_store w)) (TaskFlush None) Ho) as (ch & -> & Hch). done.
  - intros b. by apply evolves_frame.
Qed.

Lemma leave_durable (w : System T) : durable config w → durable config (leave w).
Proof. intros Hd. apply (durable_mem config w); try done. by left. Qed.
End system_moves.

(** ** The database *)

Section database.
Context {SM : SkipMapOps InternalKey (option bytes)} {SML : SkipMapLaws InternalKey (option bytes)}.
Context `{IE : IntegerEncoding} {CRC : Crc32} {LZ : Lz4} {IT : Itertools}.
Context {DH : DefaultHasher} {FL : F64}.
Context {IEL : IntegerEncodingLaws} {CRCL : Crc32Laws} {LZL : Lz4Laws} {ITL : ItertoolsLaws}.
Context {FLL : F64Laws} {BC : Bincode (list RawEdit)} {BCL : BincodeLaws (list RawEdit)}.
Context (config : Config) (seeds : Z → Z * Z).
Context (Hdata : 2 ≤ cfg_data_restart_interval config) (Hindex : 2 ≤ cfg_index_restart_interval config).
Context (Hseeds : ∀ g, (0 ≤ (seeds g).1 < 2 ^ 64)%Z ∧ (0 ≤ (seeds g).2 < 2 ^ 64)%Z).

#[local] Instance database_builder : TableBuilder BoxTable := box_builder config seeds.
#[local] Instance database_builder_laws : TableBuilderLaws BoxTable :=
  box_builder_laws config seeds Hdata Hindex Hseeds.

Abbreviation store_of w := (ks_inner (sy_store w)).

(** The files the cleaner has deleted, of tables and of logs. *)
Record Gone := mkGone {
  gone_tables : list Z;
  gone_logs : list Z;
}.

(** A generation is given out once, to one log or table: the directories hold what was
    written and is not deleted. *)
Definition table_files (st : Store BoxTable) (gone : list Z) : Dir :=
  map_imap (λ g t, if decide (g ∈ gone) then None
                   else match t with inl t => Some (file_content (st_dir t) g) | inr _ => None end)
    (so_tables st).

Definition log_files (st : Store BoxTable) (gone : list Z) : Dir :=
  filter (λ e : Z * bytes, e.1 ∉ gone) (wal_files (so_mem_table st)).

(** [TableLoader::clean] on the directories: without the file of the table its log stays;
    an error is only logged by the cleaner. *)
Definition clean_files (st : Store BoxTable) (gone : Gone) (gen : Z) : Gone :=
  match io_clean (table_files st (gone_tables gone)) gen with
  | Ok _ =>
      match io_clean (log_files st (gone_logs gone)) gen with
      | Ok _ => mkGone (gen :: gone_tables gone) (gen :: gone_logs gone)
      | _ => mkGone (gen :: gone_tables gone) (gone_logs gone)
      end
  | _ => gone
  end.

(** The calls of [clean] a cleaner has made on its way to another state. *)
Definition cleaned_since (cl cl' : Cleaner) : list Z := drop (length (cl_cleaned cl)) (cl_cleaned cl').

(** [db_handles] are the numbers of the versions that are not dropped yet. *)
Record Database := mkDatabase {
  db_system : System BoxTable;
  db_handles : list Z;
  db_cleaner : Cleaner;
  db_gone : Gone;
}.

Definition database_new (s : KipStorage BoxTable) : Database :=
  mkDatabase (alone s) [version_num (current_version s)] cleaner_new (mkGone [] []).

Definition table_dir (d : Database) : Dir := table_files (store_of (db_system d)) (gone_tables (db_gone d)).
Definition log_dir (d : Database) : Dir := log_files (store_of (db_system d)) (gone_logs (db_gone d)).
Definition version_dir (d : Database) : Dir := status_files (so_status (store_of (db_system d))).

(** The storage, its background task and its transactions run ([db_operate]); the last
    handle on an old version goes and its [Drop] tells the cleaner ([db_drop]); the cleaner
    takes a message and deletes files ([db_receive]); the storage is dropped, which unlocks
    the lock file and asks for a flush that the background task may still run ([db_leave]).
    The current version is held by the status, the version of a transaction by the
    transaction; readers may hold others for as long as they like. *)
Inductive database_step : Database → option (Op * Answer) → Database → Prop :=
  | db_operate w op a w' handles cl gone :
      system_step w op a w' →
      database_step (mkDatabase w handles cl gone) (Some (op, a))
        (mkDatabase w' (installed (current_version (sy_store w)) (current_version (sy_store w')) ++ handles) cl gone)
  | db_drop w v pre post cl gone :
      version_num v ≠ version_num (current_version (sy_store w)) →
      (∀ id tx, sy_live w !! id = Some tx → version_num v ≠ version_num (tx_version tx)) →
      database_step (mkDatabase w (pre ++ version_num v :: post) cl gone) None
        (mkDatabase (send_tags w (version_drop v (chan_of w))) (pre ++ post) cl gone)
  | db_receive w tag queue handles cl gone :
      chan_of w = {| chan_open := true; chan_queue := tag :: queue |} →
      database_step (mkDatabase w handles cl gone) None
        (mkDatabase (send_tags w {| chan_open := true; chan_queue := queue |}) handles (cleaner_recv cl tag)
           (fold_left (clean_files (store_of w)) (cleaned_since cl (cleaner_recv cl tag)) gone))
  | db_leave w handles cl gone :
      database_step (mkDatabase w handles cl gone) None (mkDatabase (leave w) handles cl gone).

(** A run with the state of the system each operation was performed in. *)
Inductive database_run : Database → list (System BoxTable * Op) → list Answer → Database → Prop :=
  | dbrun_nil d : database_run d [] [] d
  | dbrun_op d1 op a d2 tr answers d3 :
      database_step d1 (Some (op, a)) d2 → database_run d2 tr answers d3 →
      database_run d1 ((db_system d1, op) :: tr) (a :: answers) d3
  | dbrun_silent d1 d2 tr answers d3 :
      database_step d1 None d2 → database_run d2 tr answers d3 → database_run d1 tr answers d3.

(** The log in use: what was written to it, and its number. *)
Definition log_of (d : Database) : LogWriter * Z := ti_log_writer (mt_inner (so_mem_table (store_of (db_system d)))).

(** The logs when the process is killed: of the log in use the bytes [b] are on disk. *)
Definition crash_logs (d : Database) (b : bytes) : Dir := <[(log_of d).2 := b]> (log_dir d).

(** The end of a process whose storage was dropped: the versions are dropped, in some
    [order], the cleaner works through its channel and then through what it has kept, and
    the writers are dropped, which flushes them. *)
Definition database_close (order : list Z) (d : Database) : Database :=
  let w := db_system d in
  let cl := cleaner_listen (db_cleaner d) (chan_queue (chan_of w) ++ (TagClean <$> order)) in
  {| db_system := send_tags w {| chan_open := false; chan_queue := [] |};
     db_handles := [];
     db_cleaner := cl;
     db_gone := fold_left (clean_files (store_of w)) (cleaned_since (db_cleaner d) cl) (db_gone d) |}.

(** *** Deleting files *)

Lemma table_files_lookup st gone g c :
  table_files st gone !! g = Some c ↔
  g ∉ gone ∧ ∃ t, so_tables st !! g = Some (inl t) ∧ c = file_content (st_dir t) g.
Proof.
  unfold table_files. rewrite map_lookup_imap. destruct (so_tables st !! g) as [[t|t]|]; cbn;
    [|case_decide; naive_solver|naive_solver].
  case_decide; naive_solver.
Qed.

Lemma clean_files_gone st gone gen g :
  g ∈ gone_tables (clean_files st gone gen) ∨ g ∈ gone_logs (clean_files st gone gen) →
  g ∈ gone_tables gone ∨ g ∈ gone_logs gone ∨ g = gen.
Proof.
  unfold clean_files. destruct (io_clean _ _); [|naive_solver..].
  destruct (io_clean _ _); cbn [gone_tables gone_logs]; rewrite ?elem_of_cons; naive_solver.
Qed.

Lemma clean_files_mono st gone gen g : g ∈ gone_tables gone → g ∈ gone_tables (clean_files st gone gen).
Proof.
  unfold clean_files. destruct (io_clean _ _); [|done..].
  destruct (io_clean _ _); cbn [gone_tables]; rewrite elem_of_cons; auto.
Qed.

Lemma clean_files_done st gone gen t :
  so_tables st !! gen = Some (inl t) → gen ∈ gone_tables (clean_files st gone gen).
Proof.
  intros Ht. unfold clean_files, io_clean.
  destruct (table_files st (gone_tables gone) !! gen) eqn:E.
  - destruct (match log_files st (gone_logs gone) !! gen with Some _ => _ | None => _ end); by left.
  - destruct (decide (gen ∈ gone_tables gone)) as [?|Hn]; [done|].
    assert (table_files st (gone_tables gone) !! gen = Some (file_content (st_dir t) gen)); [|congruence].
    apply table_files_lookup. eauto.
Qed.

Lemma cleaned_files st gens gone :
  let gone' := fold_left (clean_files st) gens gone in
  (∀ g, g ∈ gone_tables gone' ∨ g ∈ gone_logs gone' → g ∈ gone_tables gone ∨ g ∈ gone_logs gone ∨ g ∈ gens) ∧
  (∀ g, g ∈ gone_tables gone → g ∈ gone_tables gone') ∧
  ∀ g t, g ∈ gens → so_tables st !! g = Some (inl t) → g ∈ gone_tables gone'.
Proof.
  cbv zeta. revert gone. induction gens as [|gen gens IH]; intros gone; cbn [fold_left].
  { split_and!; [naive_solver|done|by intros g t ?%not_elem_of_nil]. }
  destruct (IH (clean_files st gone gen)) as (H1 & H2 & H3). split_and!.
  - intros g Hg. destruct (H1 g Hg) as [Hin|[Hin|Hin]]; [..|right; right; by right].
    + destruct (clean_files_gone st gone gen g (or_introl Hin)) as [?|[?| ->]]; auto. right. right. by left.
    + destruct (clean_files_gone st gone gen g (or_intror Hin)) as [?|[?| ->]]; auto. right. right. by left.
  - intros g Hg. by apply H2, clean_files_mono.
  - intros g t [->|Hg]%elem_of_cons Ht; [by eapply H2, clean_files_done|by eapply H3].
Qed.

(** *** The invariant *)

Context (Hsize : (0 < cfg_sst_file_size config)%N)
        (Htypes : length (cfg_level_table_type config) = MAX_LEVEL).

(** Every live version has a handle, [live] are these versions; what is deleted was deleted
    by the cleaner, and all of it. *)
Record database_inv (contents : Z → list KeyValue) (st : Spec) (live : list Version) (used : list Z)
    (d : Database) : Prop := {
  bi_rep : system_rep contents (db_system d) st;
  bi_durable : durable config (db_system d);
  bi_held : held (store_of (db_system d)) live used (db_cleaner d);
  bi_handles : version_num <$> live ≡ₚ db_handles d;
  bi_tx id tx : sy_live (db_system d) !! id = Some tx → tx_version tx ∈ live;
  bi_gone g : g ∈ gone_tables (db_gone d) ∨ g ∈ gone_logs (db_gone d) → g ∈ cl_cleaned (db_cleaner d);
  bi_deleted g t : g ∈ cl_cleaned (db_cleaner d) →
    so_tables (store_of (db_system d)) !! g = Some (inl t) → g ∈ gone_tables (db_gone d);
}.

Abbreviation seq_of w := (seq_count (so_counters (store_of w))).

Lemma held_cleaned (st : Store BoxTable) live used cl g :
  held st live used cl → g ∈ cl_cleaned cl → g ∈ used ∧ ∀ v, v ∈ live → g ∉ version_gens v.
Proof. intros [[Hc _ _] _ _] Hg. apply (inv_cleaned _ Hc g Hg). Qed.

Lemma operate_ok contents st live used w op a w' handles cl gone :
  database_inv contents st live used (mkDatabase w handles cl gone) → system_step w op a w' → op_safe (w, op) →
  races op st = false → op_wf op → (seq_of w < SEQ_MAX)%Z →
  ∃ contents' st' live' used', spec_exec op st = Some (a, st') ∧ (seq_of w' ≤ seq_of w + 1)%Z ∧
    database_inv contents' st' live' used'
      (mkDatabase w' (installed (current_version (sy_store w)) (current_version (sy_store w')) ++ handles) cl gone).
Proof.
  intros [Hr Hd Hh Hp Htx Hgone Hdel] Hstep Hsafe Hrace Hop Hseq. cbn [db_system db_handles db_cleaner db_gone] in *.
  destruct (system_step_ok contents w op a w' st Hr Hstep Hsafe Hrace Hseq) as (contents' & st' & He & Hr' & Hsq).
  pose proof (system_step_durable config Hsize Htypes contents w op a w' st Hr Hd Hop Hstep Hsafe Hrace) as Hd'.
  destruct (system_step_moves config Hsize Htypes contents w op a w' (du_config _ _ Hd) (sr_inv _ _ _ Hr) Hstep Hsafe)
    as [Hm Hlive].
  destruct (Hm live used cl Hh) as (Htab & vs & used' & Hh' & Hnums).
  exists contents', st', (vs ++ live), used'. split_and!; [done|done|].
  split; cbn [db_system db_handles db_cleaner db_gone]; try done.
  - by rewrite fmap_app, Hnums, Hp.
  - intros id tx Hid. apply elem_of_app. right. destruct (Hlive id tx Hid) as [->|(tx0 & Hid0 & ->)].
    + apply (vo_current _ _ _ _ (he_versions _ _ _ _ Hh)).
    + by eapply Htx.
  - intros g t Hg Ht. apply (Hdel g t Hg). rewrite <- Htab; [done|]. by eapply held_cleaned.
Qed.

(** A message changes the channel and nothing else of the store. *)
Lemma held_chan (w : System BoxTable) live used cl live' cl' ch :
  held (store_of w) live used cl →
  clean_inv (mkCleanSys (current_version (sy_store w)) live' used ch cl') → current_version (sy_store w) ∈ live' →
  covers [] (store_of (send_tags w ch)) cl' → held (store_of (send_tags w ch)) live' used cl'.
Proof. intros [[_ _ Hu] Hlog _] Hc Hcur Hcov. split; [split|..]; done. Qed.

Lemma drop_ok contents st live used w v pre post cl gone :
  database_inv contents st live used (mkDatabase w (pre ++ version_num v :: post) cl gone) →
  version_num v ≠ version_num (current_version (sy_store w)) →
  (∀ id tx, sy_live w !! id = Some tx → version_num v ≠ version_num (tx_version tx)) →
  ∃ live', database_inv contents st live' used
    (mkDatabase (send_tags w (version_drop v (chan_of w))) (pre ++ post) cl gone).
Proof.
  intros [Hr Hd Hh Hp Htx Hgone Hdel] Hcur Hlive. cbn [db_system db_handles db_cleaner db_gone] in *.
  assert (version_num v ∈ version_num <$> live) as (u & Eu & Hu)%list_elem_of_fmap by (rewrite Hp; set_solver).
  apply list_elem_of_split in Hu as (l1 & l2 & ->).
  pose proof (he_versions _ _ _ _ Hh) as [Hc Hcl _].
  pose proof (inv_open _ Hc) as Hopen. cbn [cs_chan] in Hopen.
  assert (version_drop v (chan_of w) = version_drop u (chan_of w)) as -> by (unfold version_drop; by rewrite Eu).
  assert (∀ x, version_num v ≠ version_num x → x ∈ l1 ++ u :: l2 → x ∈ l1 ++ l2) as Hother.
  { intros x Hne. rewrite !elem_of_app, elem_of_cons. naive_solver. }
  exists (l1 ++ l2). split; cbn [db_system db_handles db_cleaner db_gone]; try done.
  - apply set_chan_rep; [done|]. unfold version_drop, chan_send, chan_of. by rewrite Hopen.
  - by apply set_chan_durable.
  - apply (held_chan w (l1 ++ u :: l2) used cl); [done|by apply inv_drop|by apply Hother|].
    intros g Hg. destruct (he_covers _ _ _ _ Hh g Hg) as [?|[?|[Ha|?]]]; [by left|by right; left| |by auto].
    right. right. left. revert Ha. unfold announced. cbn [send_tags with_store sy_store set_chan set_inner_store ks_inner
      set_status so_status vs_chan]. unfold version_drop, chan_send, chan_of. rewrite Hopen. cbn [chan_queue].
    rewrite omap_app. cbn [omap list_omap tag_entry]. by rewrite app_nil_r.
  - rewrite fmap_app in Hp |- *. cbn [fmap list_fmap] in Hp. rewrite <- Eu in Hp.
    rewrite <- !Permutation_middle in Hp. by apply Permutation_cons_inv in Hp.
  - intros id tx Hid. apply Hother; [by eapply Hlive|by eapply Htx].
Qed.

Lemma cleaned_since_app cl cl' : cl_cleaned cl `prefix_of` cl_cleaned cl' →
  cl_cleaned cl' = cl_cleaned cl ++ cleaned_since cl cl'.
Proof. intros [k Hk]. unfold cleaned_since. by rewrite Hk, drop_app_length. Qed.

(** What stays true of the files while the cleaner deletes some. *)
Lemma gone_cleaned (st : Store BoxTable) cl cl' gone :
  cl_cleaned cl `prefix_of` cl_cleaned cl' →
  (∀ g, g ∈ gone_tables gone ∨ g ∈ gone_logs gone → g ∈ cl_cleaned cl) →
  (∀ g t, g ∈ cl_cleaned cl → so_tables st !! g = Some (inl t) → g ∈ gone_tables gone) →
  let gone' := fold_left (clean_files st) (cleaned_since cl cl') gone in
  (∀ g, g ∈ gone_tables gone' ∨ g ∈ gone_logs gone' → g ∈ cl_cleaned cl') ∧
  (∀ g t, g ∈ cl_cleaned cl' → so_tables st !! g = Some (inl t) → g ∈ gone_tables gone').
Proof.
  intros Hpre%cleaned_since_app Hgone Hdel. cbv zeta. rewrite Hpre.
  destruct (cleaned_files st (cleaned_since cl cl') gone) as (H1 & H2 & H3). split.
  - intros g Hg. rewrite elem_of_app. destruct (H1 g Hg) as [?|[?|?]]; auto.
  - intros g t [Hg|Hg]%elem_of_app Ht; [by eapply H2, Hdel|by eapply H3].
Qed.

Lemma receive_ok contents st live used w tag queue handles cl gone :
  database_inv contents st live used (mkDatabase w handles cl gone) →
  chan_of w = {| chan_open := true; chan_queue := tag :: queue |} →
  database_inv contents st live used
    (mkDatabase (send_tags w {| chan_open := true; chan_queue := queue |}) handles (cleaner_recv cl tag)
       (fold_left (clean_files (store_of w)) (cleaned_since cl (cleaner_recv cl tag)) gone)).
Proof.
  intros [Hr Hd Hh Hp Htx Hgone Hdel] Hch. cbn [db_system db_handles db_cleaner db_gone] in *.
  pose proof (he_versions _ _ _ _ Hh) as [Hc Hcl _]. unfold chan_of in Hch. rewrite Hch in Hc.
  destruct (gone_cleaned (store_of w) cl (cleaner_recv cl tag) gone (cleaner_recv_prefix cl tag) Hgone Hdel)
    as [Hgone' Hdel'].
  split; cbn [db_system db_handles db_cleaner db_gone]; try done.
  - by apply set_chan_rep.
  - by apply set_chan_durable.
  - apply (held_chan w live used cl); [done|by apply inv_recv|done|].
    intros g Hg. destruct (he_covers _ _ _ _ Hh g Hg) as [?|[?|Ha]]; [by left|by right; left|]. right. right.
    apply or_comm, elem_of_app. apply or_comm, elem_of_app in Ha. revert Ha.
    unfold announced, all_gens. cbn [send_tags with_store sy_store set_chan set_inner_store ks_inner set_status so_status vs_chan].
    rewrite Hch, !fmap_app, !concat_app. cbn [chan_queue].
    pose proof (cleaner_recv_perm cl tag) as Hperm. unfold all_gens in Hperm.
    rewrite (app_assoc (cl_cleaned (cleaner_recv cl tag))), Hperm. destruct tag as [n|n gs]; cbn; set_solver.
Qed.

Lemma leave_ok contents st live used w handles cl gone :
  database_inv contents st live used (mkDatabase w handles cl gone) →
  database_inv contents st live used (mkDatabase (leave w) handles cl gone).
Proof.
  intros [Hr Hd Hh Hp Htx Hgone Hdel]. split; try done; [by apply leave_rep|by apply leave_durable].
Qed.

Lemma database_run_ok contents st live used d tr answers d' :
  database_inv contents st live used d → database_run d tr answers d' →
  Forall op_safe tr → race_free tr.*2 st = true → Forall op_wf tr.*2 →
  (seq_of (db_system d) + Z.of_nat (length tr) ≤ SEQ_MAX)%Z →
  ∃ contents' st' live' used', spec_run tr.*2 st = Some (answers, st') ∧ database_inv contents' st' live' used' d'.
Proof.
  intros Hi Hrun. revert contents st live used Hi.
  induction Hrun as [d|d1 op a d2 tr answers d3 Hstep _ IH|d1 d2 tr answers d3 Hstep _ IH];
    intros contents st live used Hi Hsafe Hrace Hops Hseq; [by exists contents, st, live, used| |].
  - cbn [length fmap list_fmap snd race_free] in *. apply Forall_cons in Hops as [Hop Hops].
    apply Forall_cons in Hsafe as [Hs Hsafe]. apply andb_true_iff in Hrace as [Ho%negb_true_iff Hrace].
    inversion Hstep as [w op' a' w' handles cl gone Hst| | |]. subst. cbn [db_system] in Hseq, Hs.
    destruct (operate_ok contents st live used w op a w' handles cl gone Hi Hst Hs Ho Hop)
      as (contents2 & st2 & live2 & used2 & He & Hsq & Hi2); [lia|]. rewrite He in Hrace.
    destruct (IH contents2 st2 live2 used2 Hi2 Hsafe Hrace Hops) as (contents3 & st3 & live3 & used3 & Hsp & Hi3);
      [cbn [db_system]; lia|].
    exists contents3, st3, live3, used3. split; [|done]. cbn [spec_run]. rewrite He. cbn. by rewrite Hsp.
  - inversion Hstep as [|w v pre post cl gone Hv Htx|w tag queue handles cl gone Hch|w handles cl gone]; subst.
    + destruct (drop_ok contents st live used w v pre post cl gone Hi Hv Htx) as [live2 Hi2].
      by apply (IH contents st live2 used).
    + apply (IH contents st live used); [by apply receive_ok|done..].
    + apply (IH contents st live used); [by apply leave_ok|done..].
Qed.

(** A storage opened on empty directories, with its first version. *)
Lemma database_opened now try_lock c (s : KipStorage BoxTable) :
  (0 ≤ seq_count c ≤ SEQ_MAX)%Z → lock_or_time_out try_lock = Ok () →
  open_with_config config now try_lock ∅ ∅ ∅ c = Some (Ok s) →
  database_inv (λ _, []) spec_empty [current_version s] [] (database_new s) ∧
  seq_count (so_counters (ks_inner s)) = seq_count c.
Proof.
  intros Hseq Hlock Hopen.
  destruct (system_opened config Hsize Htypes now try_lock c s Hseq Hlock Hopen) as (Hr & Hd & Hsq).
  split; [|done]. pose proof (open_tables _ _ _ _ _ _ _ _ Hopen) as Htab.
  assert (load_from_log [] chan_new = Ok (current_version s, vs_chan (so_status (ks_inner s))) ∧
    version_gens (current_version s) = []) as [Hload Hgens].
  { revert Hopen. unfold open_with_config, store_inner_new. rewrite Hlock.
    destruct (mem_table_new _ _ _) as [[[t c1]| |]|]; [|done..].
    destruct (load_empty c1) as (vs & g & c2 & -> & _ & _ & _ & Hlev & _ & _ & _ & _ & Hload).
    cbn [res_bind]. intros [= <-]. split; [done|]. unfold version_gens, current_version. cbn [ks_inner so_status].
    by rewrite Hlev. }
  split; cbn [database_new alone db_system db_handles db_cleaner db_gone sy_store sy_live]; try done.
  - split; [split|..]; try done.
    + assert (clean_init (mkCleanSys (current_version s) [current_version s] (version_gens (current_version s) ++ [])
        (vs_chan (so_status (ks_inner s))) cleaner_new)) as Hi%inv_init.
      { apply (init_loaded []); [done|]. split; rewrite ?Hgens; by intros ? ?%not_elem_of_nil. }
      by rewrite Hgens in Hi.
    + by left.
    + by intros g ?%not_elem_of_nil.
    + intros ?%not_elem_of_nil. done.
    + intros g. rewrite Htab, lookup_empty. by intros [? ?].
  - by intros g [?|?].
Qed.

(** *** Reading the files back *)

Context (Hfiles : Forall (λ tp, tp = SortedString) (cfg_level_table_type config)).

Lemma table_files_content st gone g t :
  so_tables st !! g = Some (inl t) → g ∉ gone → file_content (table_files st gone) g = file_content (st_dir t) g.
Proof.
  intros Ht Hg. unfold file_content at 1.
  assert (table_files st gone !! g = Some (file_content (st_dir t) g)) as -> by (apply table_files_lookup; eauto).
  done.
Qed.

Lemma log_files_left (st : Store BoxTable) gone ws :
  wal_logged (so_mem_table st) ws → (ti_log_writer (mt_inner (so_mem_table st))).2 ∉ gone →
  wal_left (so_mem_table st) (log_files st gone).
Proof.
  intros Hw Hg. destruct (wal_files_left _ _ Hw) as [Hcur Hold]. unfold log_files. split.
  - by apply map_lookup_filter_Some_2.
  - intros g [x Hx%map_lookup_filter_Some_1_1]. apply Hold. by exists x.
Qed.

(** A restart on files that hold the log in use and the tables of the version. *)
Lemma restart_on contents st w gone now try_lock c :
  system_rep contents w st → durable config w →
  (∀ g, g ∈ version_gens (current_version (sy_store w)) → g ∉ gone_tables gone) →
  (ti_log_writer (mt_inner (so_mem_table (store_of w)))).2 ∉ gone_logs gone →
  vs_edit_approximate_count (so_status (store_of w)) < cfg_ver_log_snapshot_threshold config →
  lock_or_time_out try_lock = Ok () → (gen_buf (so_counters (store_of w)) ≤ now)%Z →
  (1 ≤ seq_count c ≤ SEQ_MAX)%Z →
  let wal := log_files (store_of w) (gone_logs gone) in
  ∃ (s' : KipStorage BoxTable),
    open_with_config config now try_lock wal (status_files (so_status (store_of w)))
      (reload_tables (table_files (store_of w) (gone_tables gone)) wal
         (version_gens (current_version (sy_store w)))) c = Some (Ok s') ∧
    system_rep contents (alone s') (spec_alone (sp_map st)).
Proof.
  intros [Hk Hm _ _ _] [Hc [Hd _ _] Ht] Hg Hlog Hcount Hlock Hnow Hseq. cbv zeta. destruct (di_wal _ Hd) as [ws Hw].
  destruct (storage_reopen contents (sy_store w) now try_lock (log_files (store_of w) (gone_logs gone))
    (reload_tables (table_files (store_of w) (gone_tables gone)) (log_files (store_of w) (gone_logs gone))
       (version_gens (current_version (sy_store w)))) c Hk Hd)
    as (s' & Ho & Hk' & Hv); rewrite ?Hc; try done.
  - by eapply log_files_left.
  - apply (tables_reloaded config seeds Hdata Hindex Hseeds); try done.
    intros g t Hin Hlk. apply table_files_content; [done|by apply Hg].
  - rewrite Hc in Ho. exists s'. split; [done|].
    apply system_rep_alone; [done|by rewrite Hv|by eapply open_count].
Qed.

Lemma database_kept contents st live used d :
  database_inv contents st live used d →
  (∀ v g, v ∈ live → g ∈ version_gens v → g ∉ gone_tables (db_gone d)) ∧
  (ti_log_writer (mt_inner (so_mem_table (store_of (db_system d))))).2 ∉ gone_logs (db_gone d).
Proof.
  intros [_ _ Hh _ _ Hgone _]. split.
  - intros v g Hv Hg Hin. apply (held_cleaned _ _ _ _ g Hh) in Hv; [done|]. apply Hgone. by left.
  - intros Hin. apply (he_log _ _ _ _ Hh). eapply held_cleaned; [done|]. apply Hgone. by right.
Qed.

(** ** What the database guarantees *)

(** The tables of a version are known to the store. *)
Lemma version_tables_loaded (st : Store BoxTable) contents h v g :
  version_wf (store_get st) contents h v → g ∈ version_gens v →
  ∃ t l, so_tables st !! g = Some t ∧ table_holds t l ∧ table_gen t = g.
Proof.
  intros Hwf (s & -> & (l & Hl & Hs)%elem_of_concat)%list_elem_of_fmap.
  destruct (wf_loaded _ _ _ _ Hwf l s Hl Hs) as [(t & Ht & Hh & Hg) _ _]. eauto.
Qed.

Lemma database_reached now try_lock c s tr answers d :
  (0 ≤ seq_count c)%Z → lock_or_time_out try_lock = Ok () →
  open_with_config config now try_lock ∅ ∅ ∅ c = Some (Ok s) →
  database_run (database_new s) tr answers d →
  Forall op_safe tr → race_free tr.*2 spec_empty = true → Forall op_wf tr.*2 →
  (seq_count c + Z.of_nat (length tr) ≤ SEQ_MAX)%Z →
  ∃ contents st live used, spec_run tr.*2 spec_empty = Some (answers, st) ∧ database_inv contents st live used d.
Proof.
  intros Hseq Hlock Hopen Hrun Hsafe Hrace Hops Hmax.
  destruct (database_opened now try_lock c s) as [Hi Hsq]; [lia|done..|].
  apply (database_run_ok _ _ _ _ _ _ _ _ Hi Hrun Hsafe Hrace Hops). cbn [database_new db_system alone sy_store]. lia.
Qed.

(** C3: for a database over table files with restart intervals of at least two, opened on
    empty directories, whatever the order in which clients, transactions, flushes,
    compactions, dropped versions and the cleaner take their steps, each task one step, as
    long as the tasks that are run are safe (which includes that their tables are within
    the limits of the format, without present empty values and without a block that runs
    into the inverted checksum test), no race happens and the writes are within the limits
    of the log: the table directory has the file of every table of the current version and
    of the version of every transaction that is alive, the loader reads from it a table
    with the same entries, and the log in use has not been deleted and has what was given to
    its writer. *)
Theorem database_files_safe now try_lock c s tr answers d :
  (0 ≤ seq_count c)%Z → lock_or_time_out try_lock = Ok () →
  open_with_config config now try_lock ∅ ∅ ∅ c = Some (Ok s) →
  database_run (database_new s) tr answers d →
  Forall op_safe tr → race_free tr.*2 spec_empty = true → Forall op_wf tr.*2 →
  (seq_count c + Z.of_nat (length tr) ≤ SEQ_MAX)%Z →
  let w := db_system d in
  (∀ v g, v = current_version (sy_store w) ∨ (∃ id tx, sy_live w !! id = Some tx ∧ v = tx_version tx) →
     g ∈ version_gens v →
     ∃ t t' l, so_tables (store_of w) !! g = Some t ∧ table_holds t l ∧
       load_table (table_dir d) (log_dir d) g = Some (Ok t') ∧ table_gen t' = g ∧ table_holds t' l) ∧
  wal_left (so_mem_table (store_of w)) (log_dir d).
Proof.
  intros Hseq Hlock Hopen Hrun Hsafe Hrace Hops Hmax w.
  destruct (database_reached now try_lock c s tr answers d) as (contents & st & live & used & _ & Hi); try done.
  destruct (database_kept _ _ _ _ _ Hi) as [Hkept Hlog]. pose proof Hi as [[Hk _ _ Hl _] [_ [Hd _ _] Hmade] Hh _ Htx _ _].
  split; [|destruct (di_wal _ Hd) as [ws Hw]; by eapply log_files_left].
  intros v g Hv Hg.
  assert (v ∈ live ∧ ∃ t l, so_tables (store_of w) !! g = Some t ∧ table_holds t l ∧ table_gen t = g)
    as (Hvl & t & l & Ht & Hhl & Htg).
  { destruct Hv as [->|(id & tx & Hid & ->)].
    - split; [apply (vo_current _ _ _ _ (he_versions _ _ _ _ Hh))|].
      by eapply version_tables_loaded, Hg; apply (si_wf _ _ (ki_store _ _ Hk)).
    - split; [by eapply Htx|]. destruct (live_rep_lookup _ _ _ _ _ Hl Hid) as (x & _ & [(contents0 & Hok & _) _ _ _ _ _]).
      by eapply version_tables_loaded, Hg; apply (to_wf _ _ _ Hok). }
  destruct (made_reloads config seeds Hdata Hindex Hseeds g t Hfiles (Hmade g t Ht)) as (ts & -> & Hback).
  destruct (Hback (table_dir d) (log_dir d)) as (t' & Hload & Hgen & _ & Hsame).
  { apply table_files_content; [done|by eapply Hkept]. }
  exists (inl ts), t', l. split_and!; try done; [congruence|by apply Hsame].
Qed.

(** When nothing is left in the buffer of its writer, the log in use is on disk. *)
Lemma crash_logs_flushed d b ws :
  wal_logged (so_mem_table (store_of (db_system d))) ws → (log_of d).2 ∉ gone_logs (db_gone d) →
  log_on_disk (cfg_wal_io_type config) (sk_content (lw_dst (log_of d).1)) b →
  cfg_wal_io_type config = IoDirect ∨ length (sk_content (lw_dst (log_of d).1)) ≤ length b →
  crash_logs d b = log_dir d.
Proof.
  intros Hw Hg (pending & Hc & _ & Hdirect)%log_on_disk_prefix Hfl.
  assert (pending = []) as ->.
  { destruct Hfl as [?|Hfl]; [by apply Hdirect|]. rewrite Hc, length_app in Hfl. apply nil_length_inv. lia. }
  rewrite app_nil_r in Hc. apply insert_id. rewrite <- Hc. by eapply log_files_left.
Qed.

(** C2: a database over table files with restart intervals of at least two, opened on empty
    directories and used by clients and transactions in any interleaving with flushes,
    compactions, dropped versions and the cleaner, with safe tasks, without races, with
    writes within the limits of the log (no present empty value) and with fewer edits than
    the version log's snapshot threshold; killed between two steps, no task being under way,
    with nothing left in the buffer of the log's writer (always so with direct I/O); and
    opened again on the bytes of its three directories as the cleaner left them (the logs,
    the version log and the table files, read back and decoded by the loader): it has given
    every answer of the specification and represents its map, without transactions: every
    committed write is there, of the transactions that were alive nothing is. *)
Theorem database_recovery now try_lock c s tr answers d b now' try_lock' c' :
  (0 ≤ seq_count c)%Z → lock_or_time_out try_lock = Ok () →
  open_with_config config now try_lock ∅ ∅ ∅ c = Some (Ok s) →
  database_run (database_new s) tr answers d →
  Forall op_safe tr → race_free tr.*2 spec_empty = true → Forall op_wf tr.*2 →
  (seq_count c + Z.of_nat (length tr) ≤ SEQ_MAX)%Z →
  let w := db_system d in
  let log := sk_content (lw_dst (log_of d).1) in
  vs_edit_approximate_count (so_status (store_of w)) < cfg_ver_log_snapshot_threshold config →
  log_on_disk (cfg_wal_io_type config) log b →
  cfg_wal_io_type config = IoDirect ∨ length log ≤ length b →
  lock_or_time_out try_lock' = Ok () → (gen_buf (so_counters (store_of w)) ≤ now')%Z →
  (1 ≤ seq_count c' ≤ SEQ_MAX)%Z →
  ∃ st (s' : KipStorage BoxTable) contents,
    spec_run tr.*2 spec_empty = Some (answers, st) ∧
    open_with_config config now' try_lock' (crash_logs d b) (version_dir d)
      (reload_tables (table_dir d) (crash_logs d b) (version_gens (current_version (sy_store w)))) c' = Some (Ok s') ∧
    system_rep contents (alone s') (spec_alone (sp_map st)).
Proof.
  intros Hseq Hlock Hopen Hrun Hsafe Hrace Hops Hmax w log Hcount Hdisk Hfl Hlock' Hnow Hseq'.
  destruct (database_reached now try_lock c s tr answers d) as (contents & st & live & used & Hspec & Hi); try done.
  destruct (database_kept _ _ _ _ _ Hi) as [Hkept Hlog].
  destruct (di_wal _ (sd_disk _ (du_disk _ _ (bi_durable _ _ _ _ _ Hi)))) as [ws Hw].
  rewrite (crash_logs_flushed d b ws Hw Hlog Hdisk Hfl).
  destruct (restart_on contents st w (db_gone d) now' try_lock' c' (bi_rep _ _ _ _ _ Hi) (bi_durable _ _ _ _ _ Hi))
    as (s' & Hopen' & Hr'); try done; [|by exists st, s', contents].
  intros g. apply Hkept, (vo_current _ _ _ _ (he_versions _ _ _ _ (bi_held _ _ _ _ _ Hi))).
Qed.

(** What the cleaner has deleted once the channel is closed. *)
Lemma closed_cleaned (w : System BoxTable) order cl g :
  g ∈ cl_cleaned (cleaner_listen cl (chan_queue (chan_of w) ++ (TagClean <$> order))) ↔
  g ∈ announced (store_of w) cl ∨ g ∈ cl_cleaned cl.
Proof.
  rewrite cleaner_listen_perm, fmap_app, concat_app, tag_gens_entries.
  replace (concat (tag_gens <$> (TagClean <$> order))) with ([] : list Z)
    by (induction order as [|n order IH]; [done|exact IH]).
  unfold announced, all_gens, chan_of. rewrite fmap_app, concat_app, app_nil_r, elem_of_app. naive_solver.
Qed.

(** Nothing announced is in the current version, or is the log in use. *)
Lemma held_announced (st : Store BoxTable) live used cl g :
  held st live used cl → g ∈ announced st cl ∨ g ∈ cl_cleaned cl →
  g ∉ version_gens (vs_version (so_status st)) ∧ g ∈ used.
Proof.
  intros Hh [Ha|Hc]; [|destruct (held_cleaned _ _ _ _ _ Hh Hc) as [Hu Hv]; split; [|done];
    apply Hv, (vo_current _ _ _ _ (he_versions _ _ _ _ Hh))].
  destruct Hh as [[Hc Hcur _] _ _]. unfold announced, all_gens in Ha.
  apply elem_of_concat in Ha as (gs & ([n gs'] & -> & Hin)%list_elem_of_fmap & Hg). cbn [snd] in Hg.
  split; [|by eapply (inv_used _ Hc n)]. pose proof (inv_bound _ Hc _ _ Hin) as Hb. cbn [cs_current] in Hb.
  destruct (decide (n = version_num (vs_version (so_status st)))) as [->|Hne].
  - by eapply (inv_current _ Hc).
  - eapply (inv_entry _ Hc n); [done..|]. cbn. lia.
Qed.

(** C4: a database under the conditions of the recovery theorem (table files, safe tasks, no
    races, writes within the limits of the log and without present empty values, fewer edits
    than the version log's snapshot threshold) that ends in order, the storage dropped at
    any time and the flush this asks for run or not, its versions dropped in any order, the
    channel of the cleaner closed and the writers flushed, has exactly the files of the
    tables of its last version in the table directory: nothing leaks, and nothing a restart
    needs is gone; and it represents the map of the specification when it is opened again. *)
Theorem database_close_exact now try_lock c s tr answers d order now' try_lock' c' :
  (0 ≤ seq_count c)%Z → lock_or_time_out try_lock = Ok () →
  open_with_config config now try_lock ∅ ∅ ∅ c = Some (Ok s) →
  database_run (database_new s) tr answers d →
  Forall op_safe tr → race_free tr.*2 spec_empty = true → Forall op_wf tr.*2 →
  (seq_count c + Z.of_nat (length tr) ≤ SEQ_MAX)%Z →
  let w := db_system d in
  let d' := database_close order d in
  vs_edit_approximate_count (so_status (store_of w)) < cfg_ver_log_snapshot_threshold config →
  lock_or_time_out try_lock' = Ok () → (gen_buf (so_counters (store_of w)) ≤ now')%Z →
  (1 ≤ seq_count c' ≤ SEQ_MAX)%Z →
  (∀ g, is_Some (table_dir d' !! g) ↔ g ∈ version_gens (current_version (sy_store w))) ∧
  ∃ st (s' : KipStorage BoxTable) contents,
    spec_run tr.*2 spec_empty = Some (answers, st) ∧
    open_with_config config now' try_lock' (log_dir d') (version_dir d')
      (reload_tables (table_dir d') (log_dir d') (version_gens (current_version (sy_store w)))) c' = Some (Ok s') ∧
    system_rep contents (alone s') (spec_alone (sp_map st)).
Proof.
  intros Hseq Hlock Hopen Hrun Hsafe Hrace Hops Hmax w d' Hcount Hlock' Hnow Hseq'.
  destruct (database_reached now try_lock c s tr answers d) as (contents & st & live & used & Hspec & Hi); try done.
  pose proof Hi as [Hr Hdur Hh _ _ Hgone Hdel].
  destruct (gone_cleaned (store_of w) (db_cleaner d) (db_cleaner d') (db_gone d) (cleaner_listen_prefix _ _) Hgone Hdel)
    as [Hgone' Hdel'].
  assert (∀ g, g ∈ cl_cleaned (db_cleaner d') ↔ g ∈ announced (store_of w) (db_cleaner d) ∨ g ∈ cl_cleaned (db_cleaner d))
    as Hcl by (intros g; apply (closed_cleaned w order)).
  assert (∀ g, g ∈ gone_tables (db_gone d') ∨ g ∈ gone_logs (db_gone d') →
    g ∉ version_gens (current_version (sy_store w)) ∧ g ∈ used) as Hout.
  { intros g Hg. by apply (held_announced _ _ _ _ g Hh), Hcl, Hgone'. }
  split.
  - intros g. split.
    + intros [x (Hn & t & Ht & _)%table_files_lookup].
      destruct (he_covers _ _ _ _ Hh g (ex_intro _ _ Ht)) as [?%not_elem_of_nil|[?|Hin]]; [done..|].
      destruct Hn. by eapply Hdel', Ht; apply Hcl.
    + intros Hg. destruct (version_tables_loaded _ _ _ _ g (si_wf _ _ (ki_store _ _ (sr_inv _ _ _ Hr))) Hg)
        as (t & _ & Ht & _).
      destruct (made_reloads config seeds Hdata Hindex Hseeds g t Hfiles (du_tables _ _ Hdur g t Ht)) as (ts & -> & _).
      eexists. apply table_files_lookup. split; [|by eauto]. intros Hin. by apply (Hout g (or_introl Hin)).
  - destruct (restart_on contents st w (db_gone d') now' try_lock' c' Hr Hdur) as (s' & Hopen' & Hr'); try done.
    + intros g Hg Hin. by apply (Hout g (or_introl Hin)).
    + intros Hin. apply (he_log _ _ _ _ Hh). by apply (Hout _ (or_intror Hin)).
    + by exists st, s', contents.
Qed.
End database.

(** ** Witnesses *)

Module DatabaseSample.
Import Reference CompactorSample StorageSample.
Import SystemSample (locked, nothing).

(** One table makes level 0 full; the log is written directly. *)
Definition config : Config :=
  config_wal_io_type (config_major_threshold_with_sst_size (config_new "db"%string) 1) IoDirect.
Definition seeds : Z → Z * Z := SystemSample.seeds.

Lemma db_data_interval : 2 ≤ cfg_data_restart_interval config.
Proof. vm_compute. lia. Qed.
Lemma db_index_interval : 2 ≤ cfg_index_restart_interval config.
Proof. vm_compute. lia. Qed.

#[local] Instance builder : TableBuilder BoxTable := box_builder config seeds.
#[local] Instance builder_laws : TableBuilderLaws BoxTable :=
  box_builder_laws config seeds db_data_interval db_index_interval SystemSample.seeds_range.

Definition open_on (now : Z) (wal ver : Dir) (tables : gmap Z BoxTable) :=
  open_with_config config now locked wal ver tables (mkCounters 1 0).

(** *** The steps of the database as functions *)

Abbreviation step := (database_step config seeds).
Abbreviation run := (database_run config seeds).

Definition operate (w' : System BoxTable) (d : Database) : Database :=
  mkDatabase w' (installed (current_version (sy_store (db_system d))) (current_version (sy_store w')) ++ db_handles d)
    (db_cleaner d) (db_gone d).

Lemma operate_step d op a w' : system_step (db_system d) op a w' → step d (Some (op, a)) (operate w' d).
Proof. destruct d. apply db_operate. Qed.

Definition drop_version (n : Z) (d : Database) : Database :=
  let v := {| version_num := n; level_slice := []; meta_data := meta_data version_empty |} in
  mkDatabase (send_tags (db_system d) (version_drop v (chan_of (db_system d))))
    (filter (λ m, m ≠ n) (db_handles d)) (db_cleaner d) (db_gone d).

Definition receive (d : Database) : Database :=
  match chan_queue (chan_of (db_system d)) with
  | tag :: queue =>
      let cl := cleaner_recv (db_cleaner d) tag in
      mkDatabase (send_tags (db_system d) {| chan_open := true; chan_queue := queue |}) (db_handles d) cl
        (fold_left (clean_files (ks_inner (sy_store (db_system d)))) (cleaned_since (db_cleaner d) cl) (db_gone d))
  | [] => d
  end.

Lemma drop_step n d pre post :
  db_handles d = pre ++ n :: post → bool_decide (n ∈ pre ++ post) = false →
  Z.eqb n (version_num (current_version (sy_store (db_system d)))) = false →
  sy_live (db_system d) = ∅ → step d None (drop_version n d).
Proof.
  intros Hh Hn%bool_decide_eq_false Hcur%Z.eqb_neq Hl. destruct d as [w handles cl gone]. cbn [db_handles db_system] in *. subst handles.
  unfold drop_version. cbn [db_handles db_system db_cleaner db_gone].
  assert (filter (λ m, m ≠ n) (pre ++ n :: post) = pre ++ post) as ->.
  { rewrite filter_app, filter_cons_False by naive_solver. rewrite <- filter_app. apply filter_all. set_solver. }
  apply (db_drop _ _ w {| version_num := n; level_slice := []; meta_data := meta_data version_empty |}); [done|].
  intros id tx. by rewrite Hl, lookup_empty.
Qed.

Lemma receive_step d :
  chan_open (chan_of (db_system d)) = true → chan_queue (chan_of (db_system d)) ≠ [] → step d None (receive d).
Proof.
  intros Ho Hq. unfold receive. destruct d as [w handles cl gone]. cbn [db_handles db_system db_cleaner db_gone] in *.
  destruct (chan_of w) as [o [|tag queue]] eqn:E; [done|]. cbn in Ho. subst o. by apply db_receive.
Qed.

(** *** A run *)

(** The value of a key is set and flushed; it is set again, and the flush compacts the
    first table into level 1; another key is set and flushed; a transaction is alive. *)
Definition put (k v : byte) (d : Database) : Database :=
  operate (reached [OpClient (CmdSet [k] [v])] (db_system d)) d.
Definition ask (d : Database) : Database :=
  let w := db_system d in operate (with_store w (settle (flush_background (sy_store w)) (sy_store w))) d.
Definition work (d : Database) : Database :=
  let w := db_system d in operate (with_store w (settle (background_step (sy_store w)) (sy_store w))) d.

Definition s0 : KipStorage BoxTable := settle (open_on 1000 ∅ ∅ ∅) nothing.
Definition d0 : Database := database_new s0.
Definition d1 : Database := ask (put x01 xaa d0).
Definition d2 : Database := work d1.
Definition d3 : Database := ask (put x01 xbb d2).
Definition d4 : Database := work d3.
Definition d5 : Database := ask (put x09 xcc d4).
Definition d6 : Database := work d5.

(** The old versions go, the cleaner takes all messages, a transaction begins and a key is
    set that is only in the log. *)
Definition d7 : Database := drop_version 3 (drop_version 2 (drop_version 1 d6)).
Definition d8 : Database := Nat.iter 7 receive d7.
Definition d9 : Database := operate (reached [OpBegin 0] (db_system d8)) d8.
Definition d10 : Database := put x02 xdd (operate (reached [OpWrite 0 [x05] [x33]] (db_system d9)) d9).

Definition ops : list Op :=
  [OpClient (CmdSet [x01] [xaa]); OpRequest; OpTask (TaskFlush None); OpClient (CmdSet [x01] [xbb]); OpRequest;
   OpTask (TaskFlush None); OpClient (CmdSet [x09] [xcc]); OpRequest; OpTask (TaskFlush None); OpBegin 0;
   OpWrite 0 [x05] [x33]; OpClient (CmdSet [x02] [xdd])].
Definition answers : list Answer :=
  [AnsValue (Ok None); AnsNothing; AnsNothing; AnsValue (Ok None); AnsNothing; AnsNothing;
   AnsValue (Ok None); AnsNothing; AnsNothing; AnsNothing; AnsNothing; AnsValue (Ok None)].

(** The cleaner has deleted the file and the log of the first table, and no other. *)
Example cleaner_deleted :
  (sorted_gen_list (table_dir d6), sorted_gen_list (log_dir d6)) = ([1000; 1003; 1004; 1005], [1000; 1003; 1004; 1006])%Z ∧
  (sorted_gen_list (table_dir d10), sorted_gen_list (log_dir d10)) = ([1003; 1004; 1005], [1003; 1004; 1006])%Z.
Proof. split; vm_compute; reflexivity. Qed.

(** *** The flushes are in order *)

Ltac holds_by_computation :=
  split;
  [ split; try done; [repeat constructor| |vm_compute; lia];
    intros kv Hkv; repeat (apply elem_of_cons in Hkv as [->|Hkv]; [done|]); by apply elem_of_nil in Hkv
  | intros n E; vm_compute in E; by injection E as <-
  | intros t d E; vm_compute in E; injection E as <- <-; split; [vm_compute; done|split; [vm_compute; done|]];
    intros b e Hb He; vm_compute in Hb; injection Hb as <-;
    repeat (apply elem_of_cons in He as [->|He]; [vm_compute; done|]); by apply elem_of_nil in He ].

Lemma holds_first : file_holds config seeds 1000 [([x01], Some [xaa])] LEVEL_0.
Proof. holds_by_computation. Qed.
Lemma holds_second : file_holds config seeds 1003 [([x01], Some [xbb])] LEVEL_0.
Proof. holds_by_computation. Qed.
Lemma holds_third : file_holds config seeds 1004 [([x09], Some [xcc])] LEVEL_0.
Proof. holds_by_computation. Qed.
Lemma holds_merged : file_holds config seeds 1005 [([x01], Some [xaa])] (LEVEL_0 + 1).
Proof. holds_by_computation. Qed.

(** The store of a flush with its new table. *)
Definition flush_created (s : KipStorage BoxTable) (tp : TableType)
    : KernelResult (Scope * TableMeta * Store BoxTable) :=
  match swap (so_mem_table (ks_inner s)) (so_counters (ks_inner s)) with
  | Some (Some (gen, values), mem, c) => loader_create (set_mem_table (ks_inner s) mem c) gen values LEVEL_0 tp
  | _ => Panic
  end.

Lemma db_flush_ok (s : KipStorage BoxTable) gen values :
  (λ r, r.1.1) <$> swap (so_mem_table (ks_inner s)) (so_counters (ks_inner s)) = Some (Some (gen, values)) →
  file_holds config seeds gen values LEVEL_0 →
  (∀ tp scope meta st1, flush_created s tp = Ok (scope, meta, st1) →
     rounds_ok config (S MAX_LEVEL) st1 LEVEL_0 scope [NewFile ([scope], 0) 0 meta] false) →
  task_safe config (ks_inner s) (TaskFlush None).
Proof.
  intros Hsw Hf Hr g vs mem c E. rewrite E in Hsw. injection Hsw as -> ->. split.
  - intros tp Htp. vm_compute in Htp. by injection Htp as <-.
  - intros tp scope meta st1 Hc. apply (Hr tp). unfold flush_created. by rewrite E.
Qed.

(** A fact about what a computation returns. *)
Lemma returns {A B} (f : A → B) (r : KernelResult A) a b : r = Ok a → res_map f r = Ok b → f a = b.
Proof. intros ->. by intros [= ?]. Qed.

Lemma not_exceeded (st : Store BoxTable) level target :
  is_threshold_exceeded_major (vs_version (so_status st)) config level = Ok false →
  data_loading_with_level config st level target false = Ok (None, st).
Proof. intros H. unfold data_loading_with_level. case_decide; [done|]. by rewrite H. Qed.

Lemma first_rounds tp scope meta st1 :
  flush_created (sy_store (db_system d1)) tp = Ok (scope, meta, st1) →
  rounds_ok config (S MAX_LEVEL) st1 LEVEL_0 scope [NewFile ([scope], 0) 0 meta] false.
Proof.
  intros Hc. apply idle_rounds, not_exceeded.
  apply (returns (λ r : _ * Store BoxTable, is_threshold_exceeded_major (vs_version (so_status r.2)) config LEVEL_0) _ _ _ Hc).
  destruct tp; vm_compute; reflexivity.
Qed.

Lemma third_rounds tp scope meta st1 :
  flush_created (sy_store (db_system d5)) tp = Ok (scope, meta, st1) →
  rounds_ok config (S MAX_LEVEL) st1 LEVEL_0 scope [NewFile ([scope], 0) 0 meta] false.
Proof.
  intros Hc. apply idle_rounds.
  pose proof (returns (λ r : Scope * TableMeta * Store BoxTable,
    (is_threshold_exceeded_major (vs_version (so_status r.2)) config LEVEL_0,
     res_map (λ x, x.1.2) (tables_by_scopes (store_get r.2) (vs_version (so_status r.2)) LEVEL_0 r.1.1)))
    _ _ (Ok true, Ok []) Hc ltac:(destruct tp; vm_compute; reflexivity)) as [He Ht]%pair_equal_spec.
  cbn [fst snd] in He, Ht. unfold data_loading_with_level. rewrite decide_False by (unfold LEVEL_0, MAX_LEVEL; lia).
  rewrite He. cbn [res_bind negb]. destruct (tables_by_scopes _ _ _ _) as [[[tl sl] ?]| |]; [|done..].
  cbn [res_map res_bind fst snd] in Ht |- *. by injection Ht as ->.
Qed.

(** A round that takes a whole level to an empty one. *)
Lemma whole_level contents (st : Store BoxTable) level target :
  default [] (level_slice (vs_version (so_status st)) !! (level + 1)) = [] →
  forallb (λ s, scope_meet s target) (default [] (level_slice (vs_version (so_status st)) !! level)) = true →
  selection_ok contents st level target.
Proof.
  intros H1 H0 A B HA HB. rewrite HA in H0. rewrite HB in H1. cbn [default from_option id] in H0, H1. subst B. split.
  - intros _ s t k Hs _ Hno. pose proof (proj1 (forallb_forall _ _) H0 s (proj1 (list_elem_of_In _ _) Hs)). congruence.
  - intros f _. right. by intros s ?%not_elem_of_nil.
Qed.

Lemma second_selection tp scope meta st1 contents :
  flush_created (sy_store (db_system d3)) tp = Ok (scope, meta, st1) → selection_ok contents st1 LEVEL_0 scope.
Proof.
  intros Hc. apply whole_level.
  - apply (returns (λ r : Scope * TableMeta * Store BoxTable,
      default [] (level_slice (vs_version (so_status r.2)) !! (LEVEL_0 + 1))) _ _ _ Hc).
    destruct tp; vm_compute; reflexivity.
  - apply (returns (λ r : Scope * TableMeta * Store BoxTable,
      forallb (λ s, scope_meet s r.1.1) (default [] (level_slice (vs_version (so_status r.2)) !! LEVEL_0))) _ _ _ Hc).
    destruct tp; vm_compute; reflexivity.
Qed.

Lemma second_rounds tp scope meta st1 :
  flush_created (sy_store (db_system d3)) tp = Ok (scope, meta, st1) →
  rounds_ok config (S MAX_LEVEL) st1 LEVEL_0 scope [NewFile ([scope], 0) 0 meta] false.
Proof.
  intros Hc _. split.
  - intros contents _. right. split; [by eapply second_selection|].
    intros index dels shards st2 tp2 Hload Htp. vm_compute in Htp. injection Htp as <-.
    pose proof (returns (λ r : Scope * TableMeta * Store BoxTable,
      res_map (λ x, snd <$> x.1) (data_loading_with_level config r.2 LEVEL_0 r.1.1 false))
      _ _ (Ok (Some [(1005%Z, [([x01], Some [xaa])])])) Hc ltac:(destruct tp; vm_compute; reflexivity)) as E.
    cbn [fst snd] in E. rewrite Hload in E. cbn in E. injection E as ->. constructor; [apply holds_merged|constructor].
  - intros st2 Hr. apply idle_rounds, not_exceeded.
    pose proof (returns (λ r : Scope * TableMeta * Store BoxTable,
      res_map (λ x : bool * Store BoxTable, is_threshold_exceeded_major (vs_version (so_status x.2)) config (LEVEL_0 + 1))
        (compaction_round config r.2 LEVEL_0 r.1.1 [NewFile ([r.1.1], 0) 0 r.1.2] false))
      _ _ (Ok (Ok false)) Hc ltac:(destruct tp; vm_compute; reflexivity)) as E.
    cbn [fst snd] in E. rewrite Hr in E. by injection E.
Qed.

(** *** The run *)

(** A run of the operations [ops] whose tasks are safe. *)
Definition safe (d : Database) (ops : list Op) (answers : list Answer) (d' : Database) : Prop :=
  ∃ tr, run d tr answers d' ∧ tr.*2 = ops ∧ Forall op_safe tr.

Lemma safe_op d op a d1 ops answers d' :
  step d (Some (op, a)) d1 → op_safe (db_system d, op) → safe d1 ops answers d' →
  safe d (op :: ops) (a :: answers) d'.
Proof.
  intros Hs Ho (tr & Hr & <- & Hf). exists ((db_system d, op) :: tr).
  split_and!; [by apply (dbrun_op _ _ _ _ _ d1)|done|by constructor].
Qed.

Lemma safe_silent d d1 ops answers d' : step d None d1 → safe d1 ops answers d' → safe d ops answers d'.
Proof. intros Hs (tr & Hr & Ho & Hf). exists tr. split_and!; [by eapply dbrun_silent|done|done]. Qed.

Lemma perform_db op a d ops answers d' :
  fst <$> perform op (db_system d) = Some a → safe (operate (reached [op] (db_system d)) d) ops answers d' →
  safe d (op :: ops) (a :: answers) d'.
Proof.
  intros E Hrun. unfold reached in Hrun. cbn [performs] in Hrun.
  destruct (perform op (db_system d)) as [[a' w']|] eqn:Ep; [|done]. injection E as ->.
  apply perform_step in Ep as [Hs Ho]. eapply safe_op; [by apply operate_step|done|exact Hrun].
Qed.

Lemma ask_db d ops answers d' :
  settled (flush_background (sy_store (db_system d))) = true → safe (ask d) ops answers d' →
  safe d (OpRequest :: ops) (AnsNothing :: answers) d'.
Proof.
  intros E Hrun. eapply safe_op; [|exact I|exact Hrun]. apply operate_step, sys_request, step_flush_background.
  by apply settle_Ok.
Qed.

Lemma work_db d task rest ops answers d' :
  task_queue (ks_compactor_tx (sy_store (db_system d))) = task :: rest →
  task_safe config (ks_inner (sy_store (db_system d))) task → ks_config (sy_store (db_system d)) = config →
  settled (background_step (sy_store (db_system d))) = true → safe (work d) ops answers d' →
  safe d (OpTask task :: ops) (AnsNothing :: answers) d'.
Proof.
  intros Hq Hok Hc E Hrun. eapply safe_op; [| |exact Hrun].
  - apply operate_step, sys_task, (step_task task rest); [done|]. by apply settle_Ok.
  - unfold op_safe. cbn [fst snd]. by rewrite Hc.
Qed.

Lemma receives_run n d d1 ops answers d' :
  d1 = Nat.iter n receive d → n ≤ length (chan_queue (chan_of (db_system d))) → chan_open (chan_of (db_system d)) = true →
  safe d1 ops answers d' → safe d ops answers d'.
Proof.
  intros ->. revert d. induction n as [|n IH]; intros d Hn Ho Hr; [done|]. rewrite Nat.iter_succ_r in Hr.
  eapply safe_silent; [apply receive_step; [done|intros E; rewrite E in Hn; cbn in Hn; lia]|]. apply IH; [..|done];
    unfold receive; destruct (chan_queue (chan_of (db_system d))) as [|tag queue]; cbn in Hn |- *; [lia..|done].
Qed.

Lemma flushes_ok :
  task_safe config (ks_inner (sy_store (db_system d1))) (TaskFlush None) ∧
  task_safe config (ks_inner (sy_store (db_system d3))) (TaskFlush None) ∧
  task_safe config (ks_inner (sy_store (db_system d5))) (TaskFlush None).
Proof.
  split_and!; (eapply db_flush_ok; [vm_compute; reflexivity|..]);
    [apply holds_first|apply first_rounds|apply holds_second|apply second_rounds|apply holds_third|apply third_rounds].
Qed.

Lemma received : d8 = Nat.iter 7 receive d7.
Proof. unfold d8. reflexivity. Qed.

Lemma transaction_run d' :
  safe d10 [] [] d' →
  safe d8 [OpBegin 0; OpWrite 0 [x05] [x33]; OpClient (CmdSet [x02] [xdd])] [AnsNothing; AnsNothing; AnsValue (Ok None)] d'.
Proof.
  intros Hr. do 3 (apply perform_db; [vm_compute; reflexivity|]). exact Hr.
Qed.

Lemma db_sample_run d' : safe d10 [] [] d' → safe d0 ops answers d'.
Proof.
  intros Hend. destruct flushes_ok as (F1 & F2 & F3).
  apply perform_db; [vm_compute; reflexivity|]. apply ask_db; [vm_compute; reflexivity|].
  apply (work_db d1 (TaskFlush None) []); [vm_compute; reflexivity|exact F1|vm_compute; reflexivity..|].
  apply perform_db; [vm_compute; reflexivity|]. apply ask_db; [vm_compute; reflexivity|].
  apply (work_db d3 (TaskFlush None) []); [vm_compute; reflexivity|exact F2|vm_compute; reflexivity..|].
  apply perform_db; [vm_compute; reflexivity|]. apply ask_db; [vm_compute; reflexivity|].
  apply (work_db d5 (TaskFlush None) []); [vm_compute; reflexivity|exact F3|vm_compute; reflexivity..|].
  eapply safe_silent; [apply (drop_step 1 d6 [4; 3; 2]%Z []); vm_compute; reflexivity|].
  eapply safe_silent; [apply (drop_step 2 _ [4; 3]%Z []); vm_compute; reflexivity|].
  eapply safe_silent; [apply (drop_step 3 _ [4]%Z []); vm_compute; reflexivity|].
  apply (receives_run 7 d7 d8); [exact received|vm_compute; apply le_n|vm_compute; reflexivity|by apply transaction_run].
Qed.

Lemma safe_refl d : safe d [] [] d.
Proof. exists []. by repeat constructor. Qed.

(** The storage is dropped at the end; the flush it asks for waits for the transaction. *)
Definition d11 : Database := mkDatabase (leave (db_system d10)) (db_handles d10) (db_cleaner d10) (db_gone d10).

Lemma left_run : safe d10 [] [] d11.
Proof.
  eapply safe_silent; [|apply safe_refl]. unfold d11. destruct d10 as [w handles cl gone]. apply db_leave.
Qed.

Lemma db_start_opened : open_on 1000 ∅ ∅ ∅ = Some (Ok s0).
Proof. apply settle_Ok. vm_compute. reflexivity. Qed.

Lemma db_ops_wf : Forall op_wf ops.
Proof. repeat constructor; try done. Qed.

Lemma types : Forall (λ tp, tp = SortedString) (cfg_level_table_type config).
Proof. repeat constructor. Qed.

Lemma race_free_ops : race_free ops spec_empty = true.
Proof. vm_compute. reflexivity. Qed.

Lemma ops_fit (tr : list (System BoxTable * Op)) : tr.*2 = ops → (seq_count (mkCounters 1 0) + Z.of_nat (length tr) ≤ SEQ_MAX)%Z.
Proof. intros E. rewrite <- (length_fmap snd), E. vm_compute. discriminate. Qed.

(** The table that holds the first value, now in level 1. *)
Lemma database_files_safe_witness :
  ∃ t t' l, so_tables (ks_inner (sy_store (db_system d10))) !! 1005%Z = Some t ∧ table_holds t l ∧
    load_table (table_dir d10) (log_dir d10) 1005 = Some (Ok t') ∧ table_gen t' = 1005%Z ∧ table_holds t' l.
Proof.
  destruct (db_sample_run d10 (safe_refl d10)) as (tr & Hrun & Hops & Hsafe).
  apply (proj1 (database_files_safe config seeds db_data_interval db_index_interval SystemSample.seeds_range eq_refl eq_refl
    types 1000 locked (mkCounters 1 0) s0 tr answers d10 ltac:(vm_compute; discriminate) eq_refl db_start_opened Hrun
    Hsafe ltac:(rewrite Hops; exact race_free_ops) ltac:(rewrite Hops; exact db_ops_wf) (ops_fit tr Hops))
    (current_version (sy_store (db_system d10)))).
  - left. reflexivity.
  - apply (bool_decide_unpack _). vm_compute. exact I.
Defined.

(** The database opened again on its directories. *)
Definition reopen (d : Database) : option (KernelResult (KipStorage BoxTable)) :=
  open_on 2000 (log_dir d) (version_dir d)
    (reload_tables (table_dir d) (log_dir d) (version_gens (current_version (sy_store (db_system d10))))).

(** The database killed with its log written. *)
Definition flushed_log : bytes := sk_content (lw_dst (log_of d10).1).
Definition reopen_killed : option (KernelResult (KipStorage BoxTable)) :=
  open_on 2000 (crash_logs d10 flushed_log) (version_dir d10)
    (reload_tables (table_dir d10) (crash_logs d10 flushed_log) (version_gens (current_version (sy_store (db_system d10))))).

Lemma database_recovery_witness :
  ∃ st s' contents, spec_run ops spec_empty = Some (answers, st) ∧ reopen_killed = Some (Ok s') ∧
    system_rep contents (alone s') (spec_alone (sp_map st)).
Proof.
  destruct (db_sample_run d10 (safe_refl d10)) as (tr & Hrun & Hops & Hsafe). rewrite <- Hops.
  unfold reopen_killed, open_on.
  apply (database_recovery config seeds db_data_interval db_index_interval SystemSample.seeds_range eq_refl eq_refl
    types 1000 locked (mkCounters 1 0) s0 tr answers d10 flushed_log 2000 locked (mkCounters 1 0)).
  - vm_compute. discriminate.
  - reflexivity.
  - exact db_start_opened.
  - exact Hrun.
  - exact Hsafe.
  - rewrite Hops. exact race_free_ops.
  - rewrite Hops. exact db_ops_wf.
  - exact (ops_fit tr Hops).
  - apply Nat.ltb_lt. vm_compute. reflexivity.
  - exists [flushed_log]. split; vm_compute; reflexivity.
  - left. reflexivity.
  - reflexivity.
  - vm_compute. discriminate.
  - vm_compute. split; discriminate.
Defined.

Definition closed : Database := database_close [4%Z] d11.

Lemma database_close_exact_witness :
  (∀ g, is_Some (table_dir closed !! g) ↔ g ∈ version_gens (current_version (sy_store (db_system d11)))) ∧
  ∃ st s' contents, spec_run ops spec_empty = Some (answers, st) ∧
    open_on 2000 (log_dir closed) (version_dir closed) (reload_tables (table_dir closed) (log_dir closed)
      (version_gens (current_version (sy_store (db_system d11))))) = Some (Ok s') ∧
    system_rep contents (alone s') (spec_alone (sp_map st)).
Proof.
  destruct (db_sample_run d11 left_run) as (tr & Hrun & Hops & Hsafe). rewrite <- Hops.
  unfold open_on, closed.
  apply (database_close_exact config seeds db_data_interval db_index_interval SystemSample.seeds_range eq_refl eq_refl
    types 1000 locked (mkCounters 1 0) s0 tr answers d11 [4%Z] 2000 locked (mkCounters 1 0)).
  - vm_compute. discriminate.
  - reflexivity.
  - exact db_start_opened.
  - exact Hrun.
  - exact Hsafe.
  - rewrite Hops. exact race_free_ops.
  - rewrite Hops. exact db_ops_wf.
  - exact (ops_fit tr Hops).
  - apply Nat.ltb_lt. vm_compute. reflexivity.
  - reflexivity.
  - vm_compute. discriminate.
  - vm_compute. split; discriminate.
Defined.

(** What clients read before and after, and the files of a database that is closed with
    the deletion of the first table still pending. *)
Definition reads (s : KipStorage BoxTable) : list (KernelResult (option bytes)) :=
  (λ k, (storage_get k s).1) <$> [[x01]; [x02]; [x05]; [x09]].

Example recovered_reads :
  reads (sy_store (db_system d10)) = [Ok (Some [xbb]); Ok (Some [xdd]); Ok None; Ok (Some [xcc])] ∧
  reads (settle reopen_killed nothing) = reads (sy_store (db_system d10)) ∧
  reads (settle (reopen closed) nothing) = reads (sy_store (db_system d10)).
Proof. split_and!; vm_compute; reflexivity. Qed.

Example closed_files :
  sorted_gen_list (table_dir d4) = [1000; 1003; 1005]%Z ∧
  sorted_gen_list (table_dir (database_close [1; 3; 2]%Z d4)) = [1003; 1005]%Z.
Proof. split; vm_compute; reflexivity. Qed.
End DatabaseSample.
