(* ===== verification/Backend.v ===== *)
(** * The storage trait and its back ends (src/kernel/mod.rs, src/kernel/sled_storage.rs,
    src/kernel/rocksdb_storage.rs)

    The trait [Storage] as a class, what its users rely on as laws over an abstract map,
    and its implementations: [KipStorage], whose laws follow from the refinement theorem's
    lemmas, and the wrappers around sled and rocksdb, over those libraries as parameters. *)

From S2P Require Import Prelude Std Crates Block Iterator Io Log Config MemTable Scope BTreeTable Version Status Compactor.
From S2P Require Import CompactorCorrect Storage StorageCorrect StorageRefine.
From Stdlib Require Import ZArith Lia Strings.Byte Strings.String.
From stdpp Require Import base list gmap.

Set Default Goal Selector "!".
Open Scope nat_scope.

(** ** The trait

    [open] is not a method here: its arguments are the files of each back end.  A flush
    that waits for something else is [None]. *)

Class KVStorage (S : Type) := {
  kv_name : string;
  kv_flush : S → option (KernelResult S);
  kv_set : bytes → bytes → S → KernelResult unit * S;
  kv_get : bytes → S → KernelResult (option bytes) * S;
  kv_remove : bytes → S → KernelResult unit * S;
  kv_size_of_disk : S → KernelResult N;
  kv_len : S → KernelResult nat;
  kv_is_empty : S → KernelResult bool;
}.

(** What the removal of a key answers and leaves. *)
Definition map_remove (m : KeyMap) (k : bytes) : KernelResult unit * KeyMap :=
  match m k with Some _ => (Ok (), map_put m k None) | None => (Err KeyNotFound, m) end.

(** [kv_rep n s m]: the state [s] represents the map [m] and takes [n] more writes. *)
Class KVStorageLaws (S : Type) `{KVStorage S} := {
  kv_rep : nat → S → KeyMap → Prop;
  kv_get_law n s m k :
    kv_rep n s m → ∃ s', kv_get k s = (Ok (m k), s') ∧ kv_rep n s' m;
  kv_set_law n s m k v :
    kv_rep (Datatypes.S n) s m → k ≠ [] →
    ∃ s', kv_set k v s = (Ok (), s') ∧ kv_rep n s' (map_put m k (Some v));
  kv_remove_law n s m k :
    kv_rep (Datatypes.S n) s m → k ≠ [] →
    ∃ s', kv_remove k s = ((map_remove m k).1, s') ∧ kv_rep n s' (map_remove m k).2;
}.

(** What a flush promises: in a state where it can be relied on, it returns and leaves the
    map as it is. *)
Class KVFlushLaws (S : Type) `{KVStorageLaws S} := {
  kv_flush_ok : S → Prop;
  kv_flush_law n s m :
    kv_rep n s m → kv_flush_ok s → ∃ s', kv_flush s = Some (Ok s') ∧ kv_rep n s' m;
}.

(** ** KipDB *)

Section kip.
Context {SM : SkipMapOps InternalKey (option bytes)} {SML : SkipMapLaws InternalKey (option bytes)}.
Context `{IE : IntegerEncoding} {IEL : IntegerEncodingLaws} {CRC : Crc32} {CRCL : Crc32Laws}.
Context {IT : Itertools} {ITL : ItertoolsLaws} {BC : Bincode (list RawEdit)}.
Context {T : Type} {TB : Table T} {BLD : TableBuilder T} {BLDL : TableBuilderLaws T}.

#[global] Instance kip_storage : KVStorage (KipStorage T) := {
  kv_name := "KipDB";
  kv_flush := storage_flush;
  kv_set := storage_set;
  kv_get := storage_get;
  kv_remove := storage_remove;
  kv_size_of_disk := storage_size_of_disk;
  kv_len := storage_len;
  kv_is_empty s := Ok (storage_is_empty s);
}.

Definition kip_rep (n : nat) (s : KipStorage T) (m : KeyMap) : Prop :=
  ∃ contents, kip_inv contents s ∧ keymap_eq (view contents s) m ∧
    (seq_count (so_counters (ks_inner s)) + Z.of_nat n ≤ SEQ_MAX)%Z.

#[global] Instance kip_storage_laws : KVStorageLaws (KipStorage T).
Proof.
  refine {| kv_rep := kip_rep |}.
  - intros n s m k (contents & Hk & Hm & Hseq). cbn [kv_get kip_storage].
    destruct (storage_get_ok contents s k Hk) as (s' & -> & Hk' & Hsq & _ & Hv).
    exists s'. rewrite (Hm k). split; [done|]. exists contents. split_and!; [done|by etrans|lia].
  - intros n s m k v (contents & Hk & Hm & Hseq) Hkey. cbn [kv_set kip_storage]. unfold storage_set.
    destruct (append_cmd_data_ok contents s (k, Some v) Hk Hkey ltac:(lia)) as (s' & -> & Hk' & Hsq & _ & Hv).
    exists s'. split; [done|]. exists contents. split_and!; [done| |lia]. cbn [fst snd] in Hv.
    by rewrite Hv, Hm.
  - intros n s m k (contents & Hk & Hm & Hseq) Hkey. cbn [kv_remove kip_storage]. unfold storage_remove, map_remove.
    destruct (storage_get_ok contents s k Hk) as (s1 & -> & Hk1 & Hsq1 & _ & Hv1). rewrite (Hm k).
    destruct (m k) as [v|]; cbn [fst snd].
    + destruct (append_cmd_data_ok contents s1 (k, None) Hk1 Hkey ltac:(lia)) as (s' & -> & Hk' & Hsq & _ & Hv).
      exists s'. split; [done|]. exists contents. split_and!; [done| |lia]. cbn [fst snd] in Hv.
      by rewrite Hv, Hv1, Hm.
    + exists s1. split; [done|]. exists contents. split_and!; [done|by etrans|lia].
Defined.

(** The channel has room, and each task in it and the flush is ready and safe at its turn. *)
#[global] Instance kip_flush_laws : KVFlushLaws (KipStorage T).
Proof.
  refine {| kv_flush_ok s := length (task_queue (ks_compactor_tx s)) < TASK_CAPACITY ∧
              tasks_ok (ks_config s) (task_queue (ks_compactor_tx s) ++ [TaskFlush (Some true)]) (ks_inner s) |}.
  intros n s m (contents & Hk & Hm & Hseq) [Hlen Hok]. cbn [kv_flush kip_storage].
  destruct (storage_flush_ok contents s Hk Hlen Hok) as (contents' & _ & s' & -> & _ & _ & Hk' & Hsq & Hv).
  exists s'. split; [done|]. exists contents'. split_and!; [done|by etrans|]. lia.
Defined.
End kip.

(** ** Sled

    The database behind [sled::Db]; [None] is an error of the library. *)

Class SledDb (D : Type) := {
  sled_insert : bytes → bytes → D → option (option bytes * D);
  sled_get : bytes → D → option (option bytes);
  sled_remove : bytes → D → option (option bytes * D);
  sled_flush : D → option nat;
  sled_size_on_disk : D → option N;
  sled_len : D → nat;
  sled_is_empty : D → bool;
}.

(** The documented behaviour of a database whose calls do not fail: an ordered map, an
    insertion and a removal return the previous value. *)
Class SledDbLaws (D : Type) `{SledDb D} := {
  sled_map : D → KeyMap;
  sled_get_law k d : sled_get k d = Some (sled_map d k);
  sled_insert_law k v d :
    ∃ d', sled_insert k v d = Some (sled_map d k, d') ∧ keymap_eq (sled_map d') (map_put (sled_map d) k (Some v));
  sled_remove_law k d :
    ∃ d', sled_remove k d = Some (sled_map d k, d') ∧ keymap_eq (sled_map d') (map_put (sled_map d) k None);
}.

Section sled.
Context {D : Type} {SD : SledDb D}.

Record SledStorage := mkSledStorage { sled_data_base : D }.

Definition sled_storage_flush (s : SledStorage) : option (KernelResult SledStorage) :=
  Some (let? _ := ok_or (sled_flush (sled_data_base s)) SledErr in Ok s).

Definition sled_storage_set (key value : bytes) (s : SledStorage) : KernelResult unit * SledStorage :=
  match sled_insert key value (sled_data_base s) with
  | Some (_, d) => (Ok (), {| sled_data_base := d |})
  | None => (Err SledErr, s)
  end.

Definition sled_storage_get (key : bytes) (s : SledStorage) : KernelResult (option bytes) * SledStorage :=
  (ok_or (sled_get key (sled_data_base s)) SledErr, s).

Definition sled_storage_remove (key : bytes) (s : SledStorage) : KernelResult unit * SledStorage :=
  match sled_remove key (sled_data_base s) with
  | Some (Some _, d) => (Ok (), {| sled_data_base := d |})
  | Some (None, d) => (Err KeyNotFound, {| sled_data_base := d |})
  | None => (Err SledErr, s)
  end.

#[global] Instance sled_storage : KVStorage SledStorage := {
  kv_name := "Sled";
  kv_flush := sled_storage_flush;
  kv_set := sled_storage_set;
  kv_get := sled_storage_get;
  kv_remove := sled_storage_remove;
  kv_size_of_disk s := ok_or (sled_size_on_disk (sled_data_base s)) SledErr;
  kv_len s := Ok (sled_len (sled_data_base s));
  kv_is_empty s := Ok (sled_is_empty (sled_data_base s));
}.

Context {SDL : SledDbLaws D}.

(** A removal of an absent key changes nothing. *)
Lemma map_put_absent (m : KeyMap) k : m k = None → keymap_eq (map_put m k None) m.
Proof. intros Hk k'. unfold map_put. by case_decide; subst. Qed.

#[global] Instance sled_storage_laws : KVStorageLaws SledStorage.
Proof.
  refine {| kv_rep n s m := keymap_eq (sled_map (sled_data_base s)) m |}.
  - intros n s m k Hm. exists s. split; [|done]. cbn. unfold sled_storage_get. by rewrite sled_get_law, (Hm k).
  - intros n s m k v Hm _. cbn. unfold sled_storage_set.
    destruct (sled_insert_law k v (sled_data_base s)) as (d & -> & Hd). eexists. split; [done|]. cbn.
    by rewrite Hd, Hm.
  - intros n s m k Hm _. cbn. unfold sled_storage_remove, map_remove.
    destruct (sled_remove_law k (sled_data_base s)) as (d & -> & Hd). rewrite (Hm k).
    destruct (m k) eqn:E; (eexists; split; [done|]); cbn; rewrite Hd, Hm; [done|]. by apply map_put_absent.
Defined.

(** The library reports no error of the flush. *)
#[global] Instance sled_flush_laws : KVFlushLaws SledStorage.
Proof.
  refine {| kv_flush_ok s := is_Some (sled_flush (sled_data_base s)) |}.
  intros n s m Hr [x Hx]. exists s. cbn. unfold sled_storage_flush. by rewrite Hx.
Defined.
End sled.
Arguments SledStorage D : clear implicits.

(** ** RocksDB *)

Class RocksDb (D : Type) := {
  rocks_put : bytes → bytes → D → option D;
  rocks_get : bytes → D → option (option bytes);
  rocks_delete : bytes → D → option D;
  rocks_flush : D → option unit;
}.

(** As documented, [delete] of a key that is not there succeeds. *)
Class RocksDbLaws (D : Type) `{RocksDb D} := {
  rocks_map : D → KeyMap;
  rocks_get_law k d : rocks_get k d = Some (rocks_map d k);
  rocks_put_law k v d :
    ∃ d', rocks_put k v d = Some d' ∧ keymap_eq (rocks_map d') (map_put (rocks_map d) k (Some v));
  rocks_delete_law k d :
    ∃ d', rocks_delete k d = Some d' ∧ keymap_eq (rocks_map d') (map_put (rocks_map d) k None);
}.

Section rocksdb.
Context {D : Type} {RD : RocksDb D}.

Record RocksdbStorage := mkRocksdbStorage { rocks_data_base : D }.

Definition rocksdb_storage_flush (s : RocksdbStorage) : option (KernelResult RocksdbStorage) :=
  Some (let? _ := ok_or (rocks_flush (rocks_data_base s)) RocksdbErr in Ok s).

Definition rocksdb_storage_set (key value : bytes) (s : RocksdbStorage) : KernelResult unit * RocksdbStorage :=
  match rocks_put key value (rocks_data_base s) with
  | Some d => (Ok (), {| rocks_data_base := d |})
  | None => (Err RocksdbErr, s)
  end.

Definition rocksdb_storage_get (key : bytes) (s : RocksdbStorage)
    : KernelResult (option bytes) * RocksdbStorage :=
  (ok_or (rocks_get key (rocks_data_base s)) RocksdbErr, s).

Definition rocksdb_storage_remove (key : bytes) (s : RocksdbStorage) : KernelResult unit * RocksdbStorage :=
  match rocks_delete key (rocks_data_base s) with
  | Some d => (Ok (), {| rocks_data_base := d |})
  | None => (Err RocksdbErr, s)
  end.

#[global] Instance rocksdb_storage : KVStorage RocksdbStorage := {
  kv_name := "Rocksdb";
  kv_flush := rocksdb_storage_flush;
  kv_set := rocksdb_storage_set;
  kv_get := rocksdb_storage_get;
  kv_remove := rocksdb_storage_remove;
  kv_size_of_disk _ := Err (NotSupport "Rocksdb does not support size_of_disk()");
  kv_len _ := Err (NotSupport "Rocksdb does not support len()");
  kv_is_empty _ := Panic;
}.

Context {RDL : RocksDbLaws D}.

(** The back ends do not implement the same trait: removing a key that is not stored
    succeeds on rocksdb, where KipDB and sled answer [KeyNotFound]. *)
Theorem rocksdb_remove_missing (s : RocksdbStorage) k :
  (kv_get k s).1 = Ok None →
  ∃ s', kv_remove k s = (Ok (), s') ∧
    (∀ k', (kv_get k' s').1 = (kv_get k' s).1) ∧
    (kv_remove k s).1 ≠ (map_remove (rocks_map (rocks_data_base s)) k).1.
Proof.
  cbn. unfold rocksdb_storage_get, rocksdb_storage_remove, map_remove. cbn [fst].
  rewrite rocks_get_law. intros [= Hk]. destruct (rocks_delete_law k (rocks_data_base s)) as (d & -> & Hd).
  eexists. split; [done|]. split; [|by rewrite Hk]. intros k'. cbn. rewrite !rocks_get_law, (Hd k').
  unfold map_put. by case_decide; subst; rewrite ?Hk.
Qed.
End rocksdb.
Arguments RocksdbStorage D : clear implicits.

(** ** The libraries can be as assumed *)

Module BackendSample.
Import Reference.

#[export] Instance map_sled : SledDb (gmap bytes bytes) := {
  sled_insert k v d := Some (d !! k, <[k := v]> d);
  sled_get k d := Some (d !! k);
  sled_remove k d := Some (d !! k, delete k d);
  sled_flush _ := Some 0;
  sled_size_on_disk d := Some (N.of_nat (size d));
  sled_len d := size d;
  sled_is_empty d := bool_decide (d = ∅);
}.

#[export] Instance map_sled_laws : SledDbLaws (gmap bytes bytes).
Proof.
  refine {| sled_map d := λ k, d !! k |}; [done|..].
  - intros k v d. eexists. split; [done|]. intros k'. unfold map_put. by destruct (decide (k' = k)) as [->|?]; simplify_map_eq.
  - intros k d. eexists. split; [done|]. intros k'. unfold map_put. by destruct (decide (k' = k)) as [->|?]; simplify_map_eq.
Defined.

#[export] Instance map_rocks : RocksDb (gmap bytes bytes) := {
  rocks_put k v d := Some (<[k := v]> d);
  rocks_get k d := Some (d !! k);
  rocks_delete k d := Some (delete k d);
  rocks_flush _ := Some ();
}.

#[export] Instance map_rocks_laws : RocksDbLaws (gmap bytes bytes).
Proof.
  refine {| rocks_map d := λ k, d !! k |}; [done|..].
  - intros k v d. eexists. split; [done|]. intros k'. unfold map_put. by destruct (decide (k' = k)) as [->|?]; simplify_map_eq.
  - intros k d. eexists. split; [done|]. intros k'. unfold map_put. by destruct (decide (k' = k)) as [->|?]; simplify_map_eq.
Defined.

Lemma rocksdb_remove_missing_witness :
  ∃ s' : RocksdbStorage (gmap bytes bytes), kv_remove [x01] (mkRocksdbStorage ∅) = (Ok (), s').
Proof.
  destruct (rocksdb_remove_missing (mkRocksdbStorage (∅ : gmap bytes bytes)) [x01]) as (s' & H & _).
  - reflexivity.
  - exists s'. exact H.
Defined.
End BackendSample.
