(* ===== verification/Server.v ===== *)
(** * The server and its client (src/server/server.rs, src/server/client.rs)

    The handlers of the gRPC service over any storage that satisfies the laws of the
    trait, and the client's calls through them.  The generated code and the transport are
    left out: a call reaches the handler and its response comes back, and a handler that
    panics or answers with a status fails the call. *)

From S2P Require Import Prelude Std Crates Block Iterator Io Log Config MemTable Scope BTreeTable Version Status Compactor.
From S2P Require Import CompactorCorrect Storage StorageCorrect StorageRefine Backend.
From Stdlib Require Import ZArith Lia Strings.Byte Strings.String.
From stdpp Require Import base list gmap.

Set Default Goal Selector "!".
Open Scope nat_scope.

(** ** The handlers *)

(** [Result<Response<_>, Status>], or a panic of the handler. *)
Inductive RpcResult (A : Type) : Type :=
  | RpcOk (a : A)
  | RpcStatus (msg : string)
  | RpcPanic.
Arguments RpcOk {A} a.
Arguments RpcStatus {A} msg.
Arguments RpcPanic {A}.

Definition rpc_bind {A B} (r : RpcResult A) (f : A → RpcResult B) : RpcResult B :=
  match r with RpcOk a => f a | RpcStatus msg => RpcStatus msg | RpcPanic => RpcPanic end.

(** [result.map_or(default, f)]. *)
Definition map_or {A B} (default : B) (f : A → B) (r : KernelResult A) : RpcResult B :=
  match r with Ok a => RpcOk (f a) | Err _ => RpcOk default | Panic => RpcPanic end.

Section server.
Context {S : Type} {ST : KVStorage S}.

Record KipdbServer := mkKipdbServer { kv_store : S }.

Definition with_store (r : S) : KipdbServer := {| kv_store := r |}.

Definition server_set (key value : bytes) (srv : KipdbServer) : RpcResult bool * KipdbServer :=
  let '(r, s) := kv_set key value (kv_store srv) in
  (map_or false (λ _, true) r, with_store s).

Definition server_remove (key : bytes) (srv : KipdbServer) : RpcResult bool * KipdbServer :=
  let '(r, s) := kv_remove key (kv_store srv) in
  (map_or false (λ _, true) r, with_store s).

Definition server_get (key : bytes) (srv : KipdbServer) : RpcResult (option bytes) * KipdbServer :=
  let '(r, s) := kv_get key (kv_store srv) in
  (map_or None (λ v, v) r, with_store s).

Fixpoint batch_set_loop (kvs : list (bytes * bytes)) (failure : list (bytes * bytes)) (srv : KipdbServer)
    : RpcResult (list (bytes * bytes)) * KipdbServer :=
  match kvs with
  | [] => (RpcOk failure, srv)
  | kv :: kvs' =>
      match server_set kv.1 kv.2 srv with
      | (RpcOk success, srv') =>
          batch_set_loop kvs' (if (success : bool) then failure else failure ++ [kv]) srv'
      | (RpcStatus msg, srv') => (RpcStatus msg, srv')
      | (RpcPanic, srv') => (RpcPanic, srv')
      end
  end.

Definition server_batch_set (kvs : list (bytes * bytes)) := batch_set_loop kvs [].

Fixpoint batch_remove_loop (keys failure : list bytes) (srv : KipdbServer)
    : RpcResult (list bytes) * KipdbServer :=
  match keys with
  | [] => (RpcOk failure, srv)
  | key :: keys' =>
      match server_remove key srv with
      | (RpcOk success, srv') =>
          batch_remove_loop keys' (if (success : bool) then failure else failure ++ [key]) srv'
      | (RpcStatus msg, srv') => (RpcStatus msg, srv')
      | (RpcPanic, srv') => (RpcPanic, srv')
      end
  end.

Definition server_batch_remove (keys : list bytes) := batch_remove_loop keys [].

Fixpoint batch_get_loop (keys values : list bytes) (srv : KipdbServer)
    : RpcResult (list bytes) * KipdbServer :=
  match keys with
  | [] => (RpcOk values, srv)
  | key :: keys' =>
      match server_get key srv with
      | (RpcOk value, srv') => batch_get_loop keys' (values ++ [default [] value]) srv'
      | (RpcStatus msg, srv') => (RpcStatus msg, srv')
      | (RpcPanic, srv') => (RpcPanic, srv')
      end
  end.

Definition server_batch_get (keys : list bytes) := batch_get_loop keys [].

Definition server_size_of_disk (srv : KipdbServer) : RpcResult N :=
  match kv_size_of_disk (kv_store srv) with
  | Ok size => RpcOk size
  | Err _ => RpcStatus "Failed to get size of disk"
  | Panic => RpcPanic
  end.

Definition server_len (srv : KipdbServer) : RpcResult nat :=
  match kv_len (kv_store srv) with
  | Ok len => RpcOk len
  | Err _ => RpcStatus "Failed to get len"
  | Panic => RpcPanic
  end.

Definition server_flush (srv : KipdbServer) : option (RpcResult bool * KipdbServer) :=
  match kv_flush (kv_store srv) with
  | Some (Ok s) => Some (RpcOk true, with_store s)
  | Some (Err _) => Some (RpcOk false, srv)
  | Some Panic => Some (RpcPanic, srv)
  | None => None
  end.

(** ** The client *)

Inductive ConnectionError : Type :=
  | ConnIO
  | Disconnected
  | WriteFailed
  | WrongInstruction
  | EncodeErr
  | DecodeErr
  | FlushError
  | TonicTransportErr
  | TonicFailureStatus
  | AddrParseError
  | ConnKernelError (e : KernelError).

Inductive ConnectionResult (A : Type) : Type :=
  | COk (a : A)
  | CErr (e : ConnectionError).
#[global] Arguments COk {A} a.
#[global] Arguments CErr {A} e.

(** [self.conn.call(req).await?.into_inner()] *)
Definition respond {A B} (r : RpcResult A) (f : A → ConnectionResult B) : ConnectionResult B :=
  match r with RpcOk a => f a | RpcStatus _ | RpcPanic => CErr TonicFailureStatus end.

Definition success_or (e : ConnectionError) (success : bool) : ConnectionResult unit :=
  if success then COk () else CErr e.

Definition client_set (key value : bytes) (srv : KipdbServer) : ConnectionResult unit * KipdbServer :=
  let '(r, srv') := server_set key value srv in (respond r (success_or WriteFailed), srv').

Definition client_remove (key : bytes) (srv : KipdbServer) : ConnectionResult unit * KipdbServer :=
  let '(r, srv') := server_remove key srv in (respond r (success_or WriteFailed), srv').

Definition client_get (key : bytes) (srv : KipdbServer) : ConnectionResult (option bytes) * KipdbServer :=
  let '(r, srv') := server_get key srv in (respond r COk, srv').

Definition client_batch_set (kvs : list (bytes * bytes)) (srv : KipdbServer)
    : ConnectionResult (list (bytes * bytes)) * KipdbServer :=
  let '(r, srv') := server_batch_set kvs srv in (respond r COk, srv').

Definition client_batch_remove (keys : list bytes) (srv : KipdbServer)
    : ConnectionResult (list bytes) * KipdbServer :=
  let '(r, srv') := server_batch_remove keys srv in (respond r COk, srv').

Definition client_batch_get (keys : list bytes) (srv : KipdbServer)
    : ConnectionResult (list bytes) * KipdbServer :=
  let '(r, srv') := server_batch_get keys srv in (respond r COk, srv').

Definition client_flush (srv : KipdbServer) : option (ConnectionResult unit * KipdbServer) :=
  match server_flush srv with
  | Some (r, srv') => Some (respond r (success_or FlushError), srv')
  | None => None
  end.

Definition client_size_of_disk (srv : KipdbServer) : ConnectionResult N :=
  respond (server_size_of_disk srv) COk.

Definition client_len (srv : KipdbServer) : ConnectionResult nat := respond (server_len srv) COk.

(** *** Calls and replies *)

Inductive Call : Type :=
  | CallSet (key value : bytes)
  | CallRemove (key : bytes)
  | CallGet (key : bytes)
  | CallBatchSet (kvs : list (bytes * bytes))
  | CallBatchRemove (keys : list bytes)
  | CallBatchGet (keys : list bytes).

Inductive Reply : Type :=
  | ReplyUnit (r : ConnectionResult unit)
  | ReplyValue (r : ConnectionResult (option bytes))
  | ReplyKvs (r : ConnectionResult (list (bytes * bytes)))
  | ReplyKeys (r : ConnectionResult (list bytes))
  | ReplyValues (r : ConnectionResult (list bytes)).

Definition client_exec (call : Call) (srv : KipdbServer) : Reply * KipdbServer :=
  match call with
  | CallSet key value => let '(r, srv') := client_set key value srv in (ReplyUnit r, srv')
  | CallRemove key => let '(r, srv') := client_remove key srv in (ReplyUnit r, srv')
  | CallGet key => let '(r, srv') := client_get key srv in (ReplyValue r, srv')
  | CallBatchSet kvs => let '(r, srv') := client_batch_set kvs srv in (ReplyKvs r, srv')
  | CallBatchRemove keys => let '(r, srv') := client_batch_remove keys srv in (ReplyKeys r, srv')
  | CallBatchGet keys => let '(r, srv') := client_batch_get keys srv in (ReplyValues r, srv')
  end.

Fixpoint client_run (calls : list Call) (srv : KipdbServer) : list Reply * KipdbServer :=
  match calls with
  | [] => ([], srv)
  | call :: calls' =>
      let '(r, srv') := client_exec call srv in
      let '(rs, srv'') := client_run calls' srv' in (r :: rs, srv'')
  end.
End server.
Arguments KipdbServer S : clear implicits.

(** ** The service over a map *)

(** The keys that are not there when their turn comes, and what is left. *)
Fixpoint remove_all (keys : list bytes) (m : KeyMap) : list bytes * KeyMap :=
  match keys with
  | [] => ([], m)
  | key :: keys' =>
      match m key with
      | Some _ => remove_all keys' (map_put m key None)
      | None => let '(missing, m') := remove_all keys' m in (key :: missing, m')
      end
  end.

Definition put_all (kvs : list (bytes * bytes)) (m : KeyMap) : KeyMap :=
  foldl (λ m kv, map_put m kv.1 (Some kv.2)) m kvs.

Definition map_call (call : Call) (m : KeyMap) : Reply * KeyMap :=
  match call with
  | CallSet key value => (ReplyUnit (COk ()), map_put m key (Some value))
  | CallRemove key =>
      (ReplyUnit (match m key with Some _ => COk () | None => CErr WriteFailed end),
       map_put m key None)
  | CallGet key => (ReplyValue (COk (m key)), m)
  | CallBatchSet kvs => (ReplyKvs (COk []), put_all kvs m)
  | CallBatchRemove keys => let '(missing, m') := remove_all keys m in (ReplyKeys (COk missing), m')
  | CallBatchGet keys => (ReplyValues (COk ((λ key, default [] (m key)) <$> keys)), m)
  end.

Fixpoint map_calls (calls : list Call) (m : KeyMap) : list Reply * KeyMap :=
  match calls with
  | [] => ([], m)
  | call :: calls' =>
      let '(r, m') := map_call call m in
      let '(rs, m'') := map_calls calls' m' in (r :: rs, m'')
  end.

(** The keys a call may write. *)
Definition call_writes (call : Call) : list bytes :=
  match call with
  | CallSet key _ | CallRemove key => [key]
  | CallBatchSet kvs => kvs.*1
  | CallBatchRemove keys => keys
  | CallGet _ | CallBatchGet _ => []
  end.

(** *** Equal maps give equal replies *)

Lemma remove_all_proper keys m1 m2 :
  keymap_eq m1 m2 →
  (remove_all keys m1).1 = (remove_all keys m2).1 ∧ keymap_eq (remove_all keys m1).2 (remove_all keys m2).2.
Proof.
  revert m1 m2. induction keys as [|k keys IH]; intros m1 m2 Hm; [done|]. cbn [remove_all]. rewrite (Hm k).
  destruct (m2 k); [apply IH; by rewrite Hm|]. destruct (IH m1 m2 Hm) as [E1 E2].
  destruct (remove_all keys m1), (remove_all keys m2). cbn in *. by rewrite E1.
Qed.

(** ** The service over a storage *)

Section service.
Context {S : Type} {ST : KVStorage S} {STL : KVStorageLaws S}.

(** The server's storage represents a map that equals [m]. *)
Definition server_rep (n : nat) (srv : KipdbServer S) (m : KeyMap) : Prop :=
  ∃ m', kv_rep n (kv_store srv) m' ∧ keymap_eq m' m.

Lemma server_get_ok n srv m k :
  server_rep n srv m → ∃ srv', server_get k srv = (RpcOk (m k), srv') ∧ server_rep n srv' m.
Proof.
  intros (m' & Hr & Hm). unfold server_get. destruct (kv_get_law n _ _ k Hr) as (s' & -> & Hr').
  eexists. cbn [map_or]. rewrite (Hm k). split; [done|]. by exists m'.
Qed.

Lemma server_set_ok n srv m k v :
  server_rep (Datatypes.S n) srv m → k ≠ [] →
  ∃ srv', server_set k v srv = (RpcOk true, srv') ∧ server_rep n srv' (map_put m k (Some v)).
Proof.
  intros (m' & Hr & Hm) Hk. unfold server_set. destruct (kv_set_law n _ _ k v Hr Hk) as (s' & -> & Hr').
  eexists. split; [done|]. eexists. split; [done|]. by rewrite Hm.
Qed.

Lemma server_remove_ok n srv m k :
  server_rep (Datatypes.S n) srv m → k ≠ [] →
  ∃ srv', server_remove k srv = (RpcOk (bool_decide (is_Some (m k))), srv') ∧
          server_rep n srv' (map_put m k None).
Proof.
  intros (m' & Hr & Hm) Hk. unfold server_remove.
  destruct (kv_remove_law n _ _ k Hr Hk) as (s' & -> & Hr'). unfold map_remove in *. rewrite (Hm k) in *.
  eexists. destruct (m k) as [v|] eqn:E; (split; [done|]); (eexists; split; [done|]); rewrite Hm; [done|].
  symmetry. by apply map_put_absent.
Qed.

Lemma batch_set_ok n kvs failure srv m :
  server_rep (length kvs + n) srv m → Forall (λ k, k ≠ []) kvs.*1 →
  ∃ srv', batch_set_loop kvs failure srv = (RpcOk failure, srv') ∧ server_rep n srv' (put_all kvs m).
Proof.
  revert srv m. induction kvs as [|[k v] kvs IH]; intros srv m Hr Hk; [by exists srv|].
  rewrite fmap_cons in Hk. apply Forall_cons in Hk as [Hk Hks].
  destruct (server_set_ok (length kvs + n) srv m k v Hr Hk) as (srv1 & Hs & Hr1).
  cbn [batch_set_loop fst snd]. rewrite Hs. by apply IH.
Qed.

Lemma batch_remove_ok n keys failure srv m :
  server_rep (length keys + n) srv m → Forall (λ k, k ≠ []) keys →
  ∃ srv', batch_remove_loop keys failure srv = (RpcOk (failure ++ (remove_all keys m).1), srv') ∧
          server_rep n srv' (remove_all keys m).2.
Proof.
  intros Hr Hk. revert failure srv m Hr. induction Hk as [|k keys Hk _ IH]; intros failure srv m Hr.
  { exists srv. cbn. by rewrite app_nil_r. }
  destruct (server_remove_ok (length keys + n) srv m k Hr Hk) as (srv1 & Hs & Hr1).
  cbn [batch_remove_loop remove_all]. rewrite Hs. destruct (m k) as [v|] eqn:E.
  - rewrite bool_decide_true by eauto. by apply IH.
  - rewrite bool_decide_false by (by intros [? ?]).
    destruct (IH (failure ++ [k]) srv1 _ Hr1) as (srv' & -> & Hr').
    destruct (remove_all_proper keys _ _ (map_put_absent m k E)) as [E1 E2].
    exists srv'. destruct (remove_all keys m). cbn [fst snd] in *. split; [by rewrite E1, <- app_assoc|].
    destruct Hr' as (m2 & ? & Hm2). exists m2. split; [done|]. by rewrite Hm2.
Qed.

Lemma batch_get_ok n keys values srv m :
  server_rep n srv m →
  ∃ srv', batch_get_loop keys values srv = (RpcOk (values ++ ((λ k, default [] (m k)) <$> keys)), srv') ∧
          server_rep n srv' m.
Proof.
  revert values srv. induction keys as [|k keys IH]; intros values srv Hr.
  { exists srv. cbn. by rewrite app_nil_r. }
  destruct (server_get_ok n srv m k Hr) as (srv1 & Hs & Hr1). cbn [batch_get_loop]. rewrite Hs.
  destruct (IH (values ++ [default [] (m k)]) srv1 Hr1) as (srv' & -> & Hr'). exists srv'.
  by rewrite <- app_assoc.
Qed.

Lemma client_exec_ok n call srv m :
  server_rep (length (call_writes call) + n) srv m → Forall (λ k, k ≠ []) (call_writes call) →
  ∃ srv', client_exec call srv = ((map_call call m).1, srv') ∧ server_rep n srv' (map_call call m).2.
Proof.
  intros Hr Hk. destruct call as [k v|k|k|kvs|ks|ks];
    cbn [client_exec map_call call_writes length Nat.add] in *.
  - destruct (server_set_ok n srv m k v Hr (Forall_inv Hk)) as (srv' & Hs & Hr').
    unfold client_set. rewrite Hs. eauto.
  - destruct (server_remove_ok n srv m k Hr (Forall_inv Hk)) as (srv' & Hs & Hr').
    unfold client_remove. rewrite Hs. exists srv'. split; [|done]. by destruct (m k).
  - destruct (server_get_ok n srv m k Hr) as (srv' & Hs & Hr'). unfold client_get. rewrite Hs. eauto.
  - rewrite length_fmap in Hr. destruct (batch_set_ok n kvs [] srv m Hr Hk) as (srv' & Hs & Hr').
    unfold client_batch_set, server_batch_set. rewrite Hs. eauto.
  - destruct (batch_remove_ok n ks [] srv m Hr Hk) as (srv' & Hs & Hr').
    unfold client_batch_remove, server_batch_remove. rewrite Hs. exists srv'. by destruct (remove_all ks m).
  - destruct (batch_get_ok n ks [] srv m Hr) as (srv' & Hs & Hr').
    unfold client_batch_get, server_batch_get. rewrite Hs. eauto.
Qed.

Lemma client_run_ok n calls srv m :
  server_rep (length (concat (call_writes <$> calls)) + n) srv m →
  Forall (λ k, k ≠ []) (concat (call_writes <$> calls)) →
  ∃ srv', client_run calls srv = ((map_calls calls m).1, srv') ∧ server_rep n srv' (map_calls calls m).2.
Proof.
  revert srv m. induction calls as [|call calls IH]; intros srv m; [by exists srv|].
  rewrite fmap_cons. cbn [concat]. rewrite length_app, <- Nat.add_assoc. intros Hr [Hk Hks]%Forall_app.
  destruct (client_exec_ok _ call srv m Hr Hk) as (srv1 & He & Hr1).
  destruct (IH srv1 _ Hr1 Hks) as (srv' & Hc & Hr'). exists srv'. cbn [client_run map_calls]. rewrite He, Hc.
  destruct (map_call call m) as [r m1]. cbn [fst snd] in *. by destruct (map_calls calls m1).
Qed.

(** C14: a client of the server sees a map, whatever the storage behind it, as long as that
    storage keeps the laws of the trait: single and batched calls in any order answer as
    the map does, no call fails for another reason than a missing key, and a batch reports
    exactly the keys that were missing when their turn came. *)
Theorem client_refines_map calls (srv : KipdbServer S) m :
  kv_rep (length (concat (call_writes <$> calls))) (kv_store srv) m →
  Forall (λ k, k ≠ []) (concat (call_writes <$> calls)) →
  ∃ srv' m', client_run calls srv = ((map_calls calls m).1, srv') ∧
    kv_rep 0 (kv_store srv') m' ∧ keymap_eq m' (map_calls calls m).2.
Proof.
  intros Hr Hk. destruct (client_run_ok 0 calls srv m) as (srv' & Hc & m' & Hr' & Hm); [|done|].
  - rewrite Nat.add_0_r. by exists m.
  - by exists srv', m'.
Qed.
End service.

(** ** Witnesses *)

Module ServerSample.
Import Reference CompactorSample StorageSample BackendSample.

(** A batch that sets a key twice and another to the empty value, a removal with a missing
    and a repeated key, reads. *)
Definition calls : list Call :=
  [CallBatchSet [([x02], [xaa]); ([x02], [xbb]); ([x04], [])]; CallBatchRemove [[x06]; [x07]; [x06]];
   CallGet [x02]; CallRemove [x07]; CallBatchGet [[x01]; [x04]; [x07]]; CallSet [x07] [xcc]; CallGet [x07]].

Definition replies : list Reply :=
  [ReplyKvs (COk []); ReplyKeys (COk [[x07]; [x06]]); ReplyValue (COk (Some [xbb]));
   ReplyUnit (CErr WriteFailed); ReplyValues (COk [[x11]; []; []]); ReplyUnit (COk ());
   ReplyValue (COk (Some [xcc]))].

Lemma calls_keys : Forall (λ k : bytes, k ≠ []) (concat (call_writes <$> calls)).
Proof. repeat constructor; discriminate. Qed.

(** Over KipDB, from the two tables of [StorageSample.start]. *)
Lemma client_refines_map_witness :
  ∃ srv' m', client_run calls (mkKipdbServer start)
             = ((map_calls calls (view (demo_contents data2) start)).1, srv') ∧
    kv_rep 0 (kv_store srv') m' ∧ keymap_eq m' (map_calls calls (view (demo_contents data2) start)).2.
Proof.
  apply (client_refines_map calls (mkKipdbServer start)).
  - exists (demo_contents data2). split; [exact start_inv|]. split; [reflexivity|]. vm_compute. discriminate.
  - exact calls_keys.
Defined.

Example kip_replies : (client_run calls (mkKipdbServer start)).1 = replies.
Proof. vm_compute. reflexivity. Qed.

(** The same calls over sled and rocksdb with the same data: only rocksdb differs, on the
    removals of missing keys. *)
Definition pairs : gmap bytes bytes := {[ [x01] := [x11]; [x03] := [x31]; [x06] := [x62] ]}.

Example sled_replies : (client_run calls (mkKipdbServer (mkSledStorage pairs))).1 = replies.
Proof. vm_compute. reflexivity. Qed.

Example rocksdb_replies :
  (client_run calls (mkKipdbServer (mkRocksdbStorage pairs))).1
  = [ReplyKvs (COk []); ReplyKeys (COk []); ReplyValue (COk (Some [xbb]));
     ReplyUnit (COk ()); ReplyValues (COk [[x11]; []; []]); ReplyUnit (COk ());
     ReplyValue (COk (Some [xcc]))].
Proof. vm_compute. reflexivity. Qed.
End ServerSample.
