(* ===== verification/Cli.v ===== *)
(** * The command line client (src/bin/cli.rs)

    One command per process: the arguments are strings, which are sent to the server in
    the encoding of bincode, and the answers are decoded again.  The parser of the
    arguments, the address and the logger are left out; the line that is logged is the
    value that is formatted.  A sequence of commands acts on a map of strings, and a read
    of several keys of which one is missing makes the process panic. *)

From S2P Require Import Prelude Std Crates Block Iterator Io Log Config MemTable Scope BTreeTable Version Status Compactor.
From S2P Require Import CompactorCorrect Storage StorageCorrect StorageRefine Backend Server.
From Stdlib Require Import ZArith Lia Strings.Byte Strings.String.
From stdpp Require Import base list gmap strings pretty.

Set Default Goal Selector "!".
Open Scope nat_scope.

(** ** Addresses

    The defaults of the server (src/bin/server.rs) and of the client; ports are [u16]. *)

Definition DEFAULT_PORT : N := 6333.
Definition LOCAL_IP : string := "127.0.0.1".

(** What the server binds to: [main], then the address in [serve]. *)
Definition server_main_args (ip : option string) (port : option N) : string * N :=
  (default LOCAL_IP ip, default DEFAULT_PORT port).
Definition serve_addr (ip : string) (port : N) : string := (ip +:+ ":" +:+ pretty port)%string.

(** [Cli] of the client, [host] with the default of its attribute. *)
Record CliArgs := mkCliArgs { cli_host : option string; cli_port : option N }.
Definition cli_addr (cli : CliArgs) : string :=
  ("http://" +:+ default "127.0.0.1" (cli_host cli) +:+ ":" +:+ pretty (default DEFAULT_PORT (cli_port cli)))%string.

(** ** The program *)

Definition DONE : string := "Done!".

Inductive Command : Type :=
  | CommandSet (key value : string)
  | CommandRemove (key : string)
  | CommandGet (key : string)
  | CommandFlush
  | CommandBatchSet (batch : list string)
  | CommandBatchRemove (keys : list string)
  | CommandBatchGet (keys : list string)
  | CommandSizeOfDisk
  | CommandLen.

#[export] Instance command_eq_dec : EqDecision Command.
Proof. solve_decision. Defined.

(** What the program logs. *)
Inductive Line : Type :=
  | LineText (s : string)
  | LineValue (v : option string)
  | LineValues (vs : list string)
  | LineNumber (n : N).

(** How the process ends. *)
Inductive Exit : Type :=
  | ExitOk (line : Line)
  | ExitErr (e : ConnectionError)
  | ExitPanic.

Section cli.
Context {BC : Bincode string}.

Definition encode (value : string) : bytes := serialize value.

(** [None]: [unwrap] panics. *)
Definition decode (value : bytes) : option string := deserialize value.

(** [BatchSet]: the first half of the arguments are the keys.  An odd number of them is
    logged as an error, and the command goes on. *)
Definition batch_pairs (batch : list string) : list (bytes * bytes) :=
  let keys := take (length batch / 2) batch in
  let values := drop (length batch / 2) batch in
  (λ kv : string * string, (encode kv.1, encode kv.2)) <$> zip keys values.

(** [result?] *)
Definition exit_with {A} (r : ConnectionResult A) (f : A → Exit) : Exit :=
  match r with COk a => f a | CErr e => ExitErr e end.

Definition or_exit (line : option Line) : Exit :=
  match line with Some line => ExitOk line | None => ExitPanic end.

Context {S : Type} {ST : KVStorage S}.

(** [main]; [None]: the flush does not return. *)
Definition cli_main (command : Command) (srv : KipdbServer S) : option (Exit * KipdbServer S) :=
  match command with
  | CommandSet key value =>
      let '(r, srv') := client_set (encode key) (encode value) srv in
      Some (exit_with r (λ _, ExitOk (LineText DONE)), srv')
  | CommandRemove key =>
      let '(r, srv') := client_remove (encode key) srv in
      Some (exit_with r (λ _, ExitOk (LineText DONE)), srv')
  | CommandGet key =>
      let '(r, srv') := client_get (encode key) srv in
      Some (exit_with r (λ value, or_exit
        match value with
        | Some bs => v ← decode bs; Some (LineValue (Some v))
        | None => Some (LineValue None)
        end), srv')
  | CommandBatchSet batch =>
      let '(r, srv') := client_batch_set (batch_pairs batch) srv in
      Some (exit_with r (λ _, ExitOk (LineText DONE)), srv')
  | CommandBatchRemove keys =>
      let '(r, srv') := client_batch_remove (encode <$> keys) srv in
      Some (exit_with r (λ _, ExitOk (LineText DONE)), srv')
  | CommandBatchGet keys =>
      let '(r, srv') := client_batch_get (encode <$> keys) srv in
      Some (exit_with r (λ values, or_exit (LineValues <$> mapM decode values)), srv')
  | CommandSizeOfDisk => Some (exit_with (client_size_of_disk srv) (λ n, ExitOk (LineNumber n)), srv)
  | CommandLen => Some (exit_with (client_len srv) (λ n, ExitOk (LineNumber (N.of_nat n))), srv)
  | CommandFlush =>
      '(r, srv') ← client_flush srv;
      Some (exit_with r (λ _, ExitOk (LineText DONE)), srv')
  end.

(** One process after the other, against the same server. *)
Fixpoint cli_session (commands : list Command) (srv : KipdbServer S) : option (list Exit * KipdbServer S) :=
  match commands with
  | [] => Some ([], srv)
  | command :: commands' =>
      '(e, srv1) ← cli_main command srv;
      '(es, srv2) ← cli_session commands' srv1;
      Some (e :: es, srv2)
  end.
End cli.

(** ** The map of strings *)








(** ** Refinement *)

Section refine.
Context {BC : Bincode string} {BCL : BincodeLaws string}.
Context {S : Type} {ST : KVStorage S} {STL : KVStorageLaws S} {SFL : KVFlushLaws S}.


#[local] Instance encode_inj : Inj (=) (=) encode.
Proof. intros a b E. apply (f_equal deserialize) in E. unfold encode in E. rewrite !deserialize_serialize in E. by injection E. Qed.












End refine.

(** ** Witnesses *)

Module CliSample.
Import Reference CompactorSample StorageSample.

(** A server over a storage opened on empty directories. *)
Definition opened : option (KernelResult (KipStorage BTreeTable)) :=
  open_with_config config 1000 (λ _, Ok true) ∅ ∅ ∅ (mkCounters 1 0).
Definition server : KipdbServer (KipStorage BTreeTable) := mkKipdbServer (settle opened start).


Definition commands1 : list Command :=
  [CommandSet "apple" "red"; CommandBatchSet ["pear"; "plum"; "green"; "blue"; "black"]; CommandGet "plum";
   CommandBatchGet ["apple"; "pear"]; CommandLen]%string.
Definition commands2 : list Command :=
  [CommandRemove "apple"; CommandRemove "apple"; CommandBatchRemove ["apple"; "plum"]; CommandSizeOfDisk;
   CommandGet "plum"; CommandBatchGet ["pear"; "apple"]]%string.
Definition commands : list Command := commands1 ++ CommandFlush :: commands2.





Definition exits : list Exit :=
  [ExitOk (LineText DONE); ExitOk (LineText DONE); ExitOk (LineValue (Some "blue"));
   ExitOk (LineValues ["red"; "green"]); ExitOk (LineNumber 3); ExitOk (LineText DONE); ExitOk (LineText DONE);
   ExitErr WriteFailed; ExitOk (LineText DONE); ExitOk (LineNumber 0); ExitOk (LineValue None); ExitPanic]%string.


(** Without options the client calls the server started without options. *)
Example default_address :
  let '(ip, port) := server_main_args None None in
  cli_addr (mkCliArgs None None) = ("http://" +:+ serve_addr ip port)%string ∧
  serve_addr ip port = "127.0.0.1:6333"%string.
Proof. vm_compute. split; reflexivity. Qed.

(** The answers of the program itself, evaluated. *)
Example cli_exits : fst <$> cli_session commands server = Some exits.
Proof. vm_compute. reflexivity. Qed.

(** A flush, and the number of entries after it. *)
Example cli_flush :
  fst <$> cli_session [CommandSet "a" "b"; CommandFlush; CommandLen; CommandGet "a"]%string server
  = Some [ExitOk (LineText DONE); ExitOk (LineText DONE); ExitOk (LineNumber 1); ExitOk (LineValue (Some "b"%string))].
Proof. vm_compute. reflexivity. Qed.

(** [batch-get] of a key that is not there: the server answers with an empty value, which
    the client does not decode. *)
Remark batch_get_missing_panics :
  fst <$> cli_session [CommandGet "a"; CommandBatchGet ["a"]]%string server
  = Some [ExitOk (LineValue None); ExitPanic].
Proof. vm_compute. reflexivity. Qed.
End CliSample.
