(* ===== verification/UnitTests.v ===== *)
(** * The repository's unit tests, run on the model

    The unit tests of the sources, translated statement by statement into programs over
    the definitions of this development and evaluated: a test that passes in the repository
    is a computation that ends in [Ok tt] here.  An [assert!] that fails, an [unwrap] of
    [None] and a loop that does not return are [Panic].  The libraries are the [Reference]
    ones; the counters, the clock, the seeds of the filters and the hasher of the caches,
    which the tests take from the process, are arguments, and so are the number of entries of
    the tests that generate thousands and the positions in them.  Left out are the tests of
    the filter over hashes of integers, which say what one hasher does. *)

From S2P Require Import Prelude Std Crates Block Iterator BlockIter Io Log Config Bloom Lru MemTable.
From S2P Require Import Scope BTreeTable SSTable SSTableIter Version VersionIter Cleaner Status Compactor Loader.
From S2P Require Import Storage StorageRefine Mvcc Engine.
From Stdlib Require Import ZArith Lia Strings.Byte Strings.String.
From stdpp Require Import base list gmap countable.

Import Reference.
Set Default Goal Selector "!".
Open Scope nat_scope.

(** ** The language of the tests *)

Definition assert_eq {A} `{EqDecision A} (a b : A) : KernelResult unit :=
  if decide (a = b) then Ok tt else Panic.

Definition assert_true (b : bool) : KernelResult unit := if b then Ok tt else Panic.

(** A call that must return. *)
Definition returned {A} (o : option (KernelResult A)) : KernelResult A :=
  match o with Some r => r | None => Panic end.

(** [it.try_next()?] compared with what is expected. *)
Definition assert_next {It Item} `{Iter It Item} `{EqDecision Item} (it : It) (expected : option Item)
    : KernelResult It :=
  let? (item, it') := try_next it in
  let? _ := assert_eq item expected in
  Ok it'.

(** [vec.pop()] compared with what is expected. *)
Definition assert_pop {A} `{EqDecision A} (vec : list A) (expected : option A)
    : KernelResult (list A) :=
  let? _ := assert_eq (list.last vec) expected in
  Ok (removelast vec).

Definition b (s : string) : bytes := list_byte_of_string s.

(** ** Identifiers (storage.rs) *)

Definition test_seq_create (c : Counters) : KernelResult unit :=
  let '(i_1, c1) := seq_create c in
  let '(i_2, _) := seq_create c1 in
  assert_true (bool_decide (i_1 < i_2)%Z).

(** The clock at the three calls of [init], which the sleeps keep apart. *)
Definition test_gen_create (now_1 now_2 now_3 : Z) (c : Counters) : KernelResult unit :=
  let '(i_1, c1) := gen_create (gen_init now_1 c) in
  let '(i_2, c2) := gen_create c1 in
  let? _ := assert_true (bool_decide (i_1 < i_2)%Z) in
  let '(i_3, c3) := gen_create (gen_init now_2 c2) in
  let '(i_4, _) := gen_create (gen_init now_3 c3) in
  let? _ := assert_true (bool_decide (i_3 > i_2)%Z) in
  assert_true (bool_decide (i_4 > i_3)%Z).

(** [test_seq_create] passes whatever the counter holds. *)
Lemma test_seq_create_passes c : test_seq_create c = Ok tt.
Proof. unfold test_seq_create, seq_create, assert_true. simpl. by rewrite bool_decide_true by lia. Qed.

(** [test_gen_create] passes exactly when the clock advances by the sleeps: two identifiers
    are drawn before the second [init], one before the third. *)
Lemma test_gen_create_passes now_1 now_2 now_3 c :
  test_gen_create now_1 now_2 now_3 c = Ok tt ↔ (now_1 + 2 ≤ now_2 ∧ now_2 + 1 ≤ now_3)%Z.
Proof.
  unfold test_gen_create, gen_create, gen_init, assert_true. simpl.
  rewrite (bool_decide_true (now_1 < _)%Z) by lia. simpl.
  destruct (bool_decide_reflect (now_2 > now_1 + 1)%Z); simpl; [|naive_solver lia].
  destruct (bool_decide_reflect (now_3 > now_2)%Z); naive_solver lia.
Qed.

(** ** Triggers (trigger.rs) *)

Definition test_count_trigger : KernelResult unit :=
  let trigger := trigger_create TriggerCount 2 in
  let trigger := item_process trigger ([], None) in
  let? _ := assert_true (negb (is_exceeded trigger)) in
  let trigger := item_process trigger ([], None) in
  assert_true (is_exceeded trigger).

Definition test_size_of_mem_trigger : KernelResult unit :=
  let trigger := trigger_create TriggerSizeOfMem 2 in
  let trigger := item_process trigger (b "0", None) in
  let? _ := assert_true (negb (is_exceeded trigger)) in
  let trigger := item_process trigger (b "0", None) in
  assert_true (is_exceeded trigger).

Example test_count_trigger_passes : test_count_trigger = Ok tt.
Proof. reflexivity. Qed.
Example test_size_of_mem_trigger_passes : test_size_of_mem_trigger = Ok tt.
Proof. reflexivity. Qed.

(** ** The log (log.rs) *)

Definition writer_data : list bytes :=
  [b "hello world. My first log entry."; b "and my second"; b "and my third"].

(** [let _ = lw.add_record(d)] for every [d]: a failure is ignored. *)
Definition add_records (lw : LogWriter) (data : list bytes) : LogWriter :=
  fold_left (λ w d, match add_record w d with Ok (_, w') => w' | _ => w end) data lw.

Definition test_writer : KernelResult unit :=
  let lw := log_writer_new {| sk_content := []; sk_pos := 0 |} in
  let total_len := fold_left (λ l d, l + length d) writer_data 0 in
  let lw := add_records lw writer_data in
  assert_eq (lw_offset lw) (total_len + 3 * HEADER_SIZE).

(** The second writer is over the slice of [dst] from [offset]. *)
Definition test_writer_append : KernelResult unit :=
  let dst := replicate 1024 x00 in
  let lw := add_records (log_writer_new {| sk_content := dst; sk_pos := 0 |}) writer_data in
  let dst := sk_content (lw_dst lw) in
  let old := dst in
  let? first := or_panic (head writer_data) in
  let offset := length first + HEADER_SIZE in
  let lw := log_writer_new_with_off {| sk_content := drop offset dst; sk_pos := 0 |} offset in
  let lw := add_records lw (tail writer_data) in
  let dst := take offset dst ++ sk_content (lw_dst lw) in
  assert_eq old dst.

Definition reader_data : list bytes :=
  [b "abcdefghi"; b "123456789012"; b "0101010101010101010101"].

(** The [loop]: the number of records read, the records compared on the way. *)
Fixpoint reader_loop (rounds : nat) (lr : LogReader) (i : nat) : KernelResult nat :=
  match rounds with
  | O => Panic
  | S rounds' =>
      match log_read 16 lr with
      | Some (Ok (n, dst, lr')) =>
          if decide (n = 0) then Ok i
          else
            let? expected := or_panic (reader_data !! i) in
            let? _ := assert_eq dst expected in
            reader_loop rounds' lr' (i + 1)
      | _ => Panic
      end
  end.

Definition test_reader : KernelResult unit :=
  let? lw := res_foldM (λ w e, let? (_, w') := add_record w e in Ok w')
               (log_writer_new {| sk_content := []; sk_pos := 0 |}) reader_data in
  let file := sk_content (lw_dst lw) in
  let? _ := assert_eq (length file) 70 in
  let? i := reader_loop 5 (log_reader_new (one_chunk file)) 0 in
  assert_eq i (length reader_data).

(** [LogLoader::reload] of a directory of logs: the generation and the records. *)
Definition reload {R} (d : Dir) (name : option Z) (fn_decode : bytes → list R → KernelResult (list R))
    (records : list R) (c : Counters) : KernelResult (Z * list R * Counters) :=
  let '(gen, c') := log_reload_gen d name c in
  let? records' := returned (log_load (one_chunk (file_content d gen)) fn_decode records) in
  Ok (gen, records', c').

Definition push_record (bs : bytes) (records : list bytes) : KernelResult (list bytes) :=
  Ok (records ++ [bs]).

Definition test_log_loader (c : Counters) : KernelResult unit :=
  let? (_, _, c) := reload ∅ (Some 1%Z) (λ _ records, Ok records) [0] c in
  let writer := log_loader_writer ∅ 1 in
  let? (_, writer) := add_record writer (b "kip_key_1") in
  let? (_, writer) := add_record writer (b "kip_key_2") in
  let wal : Dir := {[ 1%Z := sk_content (lw_dst writer) ]} in
  let? (log_gen, reload_data_1, _) := reload wal (Some 1%Z) push_record [] c in
  let? reload_data_2 := returned (log_load (one_chunk (file_content wal 1)) push_record []) in
  let? _ := assert_eq log_gen 1%Z in
  let? _ := assert_eq reload_data_1 [b "kip_key_1"; b "kip_key_2"] in
  assert_eq reload_data_1 reload_data_2.

Example test_writer_passes : test_writer = Ok tt.
Proof. vm_compute. reflexivity. Qed.
Example test_writer_append_passes : test_writer_append = Ok tt.
Proof. vm_compute. reflexivity. Qed.
Example test_reader_passes : test_reader = Ok tt.
Proof. vm_compute. reflexivity. Qed.
Example test_log_loader_passes : test_log_loader (mkCounters 1 100) = Ok tt.
Proof. vm_compute. reflexivity. Qed.

(** ** The memory table (mem_table.rs) *)

(** [MemTable::new(&Config::new(temp_dir.path()))?] in an empty directory. *)
Definition new_mem_table (c : Counters) : KernelResult (MemTable * Counters) :=
  returned (mem_table_new (config_new EmptyString) ∅ c).

(** [insert_data] without its answer. *)
Definition put_data (tc : MemTable * Counters) (data : KeyValue) : KernelResult (MemTable * Counters) :=
  let? (_, t, c) := insert_data tc.1 data tc.2 in Ok (t, c).

Definition insert_data_with_seq (t : MemTable) (data : KeyValue) (seq : Z) : KernelResult (nat * MemTable) :=
  let i := mt_inner t in
  let? (_, w) := add_record (ti_log_writer i).1 (data_to_bytes data) in
  let m := sm_insert (new_with_seq data.1 seq) data.2 (ti_mem i) in
  Ok (sm_len m,
      set_inner t {| ti_mem := m; ti_immut := ti_immut i; ti_wal := ti_wal i;
                     ti_log_writer := (w, (ti_log_writer i).2); ti_trigger := ti_trigger i |}).

Definition test_mem_table_find (c : Counters) : KernelResult unit :=
  let? tc := new_mem_table c in
  let data_1 := (b "k", Some (b "1")) in
  let data_2 := (b "k", Some (b "2")) in
  let? (t, c) := put_data tc data_1 in
  let '(old_seq_id, c) := seq_create c in
  let? _ := assert_eq (mem_find t (b "k")) (Some (b "k", Some (b "1"))) in
  let? (t, c) := put_data (t, c) data_2 in
  let? _ := assert_eq (mem_find t (b "k")) (Some (b "k", Some (b "2"))) in
  let? _ := assert_eq (find_with_sequence_id t (b "k") old_seq_id) (Some (b "k", Some (b "1"))) in
  let '(new_seq_id, c) := seq_create c in
  assert_eq (find_with_sequence_id t (b "k") new_seq_id) (Some (b "k", Some (b "2"))).

Definition test_mem_table_swap (c : Counters) : KernelResult unit :=
  let? tc := new_mem_table c in
  let? tc := put_data tc (b "k1", Some (b "1")) in
  let? tc := put_data tc (b "k1", Some (b "2")) in
  let? tc := put_data tc (b "k2", Some (b "1")) in
  let? (t, c) := put_data tc (b "k2", Some (b "2")) in
  let? (swapped, _, _) := or_panic (swap t c) in
  let? (_, vec) := or_panic swapped in
  let? vec := assert_pop vec (Some (b "k2", Some (b "2"))) in
  let? _ := assert_pop vec (Some (b "k1", Some (b "2"))) in
  Ok tt.

Definition test_mem_table_check_key_conflict (c : Counters) : KernelResult unit :=
  let? (t, _) := new_mem_table c in
  let kv_1 := (b "k1", Some (b "k1")) in
  let kv_2 := (b "k2", Some (b "k2")) in
  let? (_, t) := insert_data_with_seq t kv_1 0 in
  let? (_, t) := insert_data_with_seq t kv_1 1 in
  let? (_, t) := insert_data_with_seq t kv_1 2 in
  let? (_, t) := insert_data_with_seq t kv_2 3 in
  let? _ := assert_true (check_key_conflict t [kv_1] 1) in
  assert_true (negb (check_key_conflict t [kv_1] 2)).

(** [assert_eq!(mem_table.insert_data_with_seq(data, seq)?, len)] for each triple. *)
Definition assert_inserts (t : MemTable) (inserts : list (KeyValue * Z * nat)) : KernelResult MemTable :=
  res_foldM (λ t '(data, seq, len),
    let? (n, t') := insert_data_with_seq t data seq in
    let? _ := assert_eq n len in
    Ok t') t inserts.

(** The length of a scan, then its elements from the last. *)
Definition assert_scan (t : MemTable) (min max : Bound bytes) (option_seq : option Z)
    (expected : list KeyValue) : KernelResult unit :=
  let? vec := range_scan t min max option_seq in
  let? _ := assert_eq (length vec) (length expected) in
  let? _ := res_foldM (λ vec kv, assert_pop vec (Some kv)) vec expected in
  Ok tt.

Definition test_mem_table_range_scan (c : Counters) : KernelResult unit :=
  let? (t, c) := new_mem_table c in
  let? t := assert_inserts t
    [((b "k1", None), 1%Z, 1); ((b "k1", None), 2%Z, 2); ((b "k2", None), 3%Z, 3);
     ((b "k2", None), 4%Z, 4); ((b "k3", None), 5%Z, 5); ((b "k3", None), 6%Z, 6)] in
  let? (_, t, _) := or_panic (swap t c) in
  let? t := assert_inserts t
    [((b "k1", Some (b "1")), 1%Z, 1); ((b "k1", Some (b "2")), 2%Z, 2);
     ((b "k2", Some (b "1")), 3%Z, 3); ((b "k2", Some (b "2")), 4%Z, 4);
     ((b "k3", Some (b "1")), 5%Z, 5); ((b "k3", Some (b "2")), 6%Z, 6)] in
  let? _ := assert_scan t (Included (b "k1")) (Included (b "k2")) None
              [(b "k2", Some (b "2")); (b "k1", Some (b "2"))] in
  let? _ := assert_scan t (Excluded (b "k1")) (Excluded (b "k3")) None [(b "k2", Some (b "2"))] in
  let? _ := assert_scan t Unbounded Unbounded None
              [(b "k3", Some (b "2")); (b "k2", Some (b "2")); (b "k1", Some (b "2"))] in
  assert_scan t Unbounded Unbounded (Some 3%Z) [(b "k2", Some (b "1")); (b "k1", Some (b "2"))].

Definition test_mem_map_iter (c : Counters) : KernelResult unit :=
  let '(key_1_1, c) := internal_key_new (b "1") c in
  let '(key_1_2, c) := internal_key_new (b "1") c in
  let '(key_2_1, c) := internal_key_new (b "2") c in
  let '(key_2_2, c) := internal_key_new (b "2") c in
  let '(key_4_1, c) := internal_key_new (b "4") c in
  let '(key_4_2, c) := internal_key_new (b "4") c in
  let map : skipmap InternalKey (option bytes) :=
    sm_insert key_4_2 None (sm_insert key_4_1 (Some [])
      (sm_insert key_2_2 None (sm_insert key_2_1 (Some [])
        (sm_insert key_1_2 None (sm_insert key_1_1 (Some []) sm_new))))) in
  let iter := mem_map_iter_new map in
  let? iter := assert_next iter (Some (ikey key_1_2, None)) in
  let? iter := assert_next iter (Some (ikey key_2_2, None)) in
  let? iter := assert_next iter (Some (ikey key_4_2, None)) in
  let? iter := seek SeekFirst iter in
  let? iter := assert_next iter (Some (ikey key_1_2, None)) in
  let? iter := seek SeekLast iter in
  let? iter := assert_next iter None in
  let? iter := seek (SeekBackward (b "3")) iter in
  let? _ := assert_next iter (Some (ikey key_4_2, None)) in
  Ok tt.

Example test_mem_table_find_passes : test_mem_table_find (mkCounters 1 100) = Ok tt.
Proof. vm_compute. reflexivity. Qed.
Example test_mem_table_swap_passes : test_mem_table_swap (mkCounters 1 100) = Ok tt.
Proof. vm_compute. reflexivity. Qed.
Example test_mem_table_check_key_conflict_passes :
  test_mem_table_check_key_conflict (mkCounters 1 100) = Ok tt.
Proof. vm_compute. reflexivity. Qed.
Example test_mem_table_range_scan_passes : test_mem_table_range_scan (mkCounters 1 100) = Ok tt.
Proof. vm_compute. reflexivity. Qed.
Example test_mem_map_iter_passes : test_mem_map_iter (mkCounters 1 100) = Ok tt.
Proof. vm_compute. reflexivity. Qed.

(** ** The caches (lru_cache.rs) *)

Definition assert_put (lru : LruCache nat nat) (key value : nat) (expected : option nat)
    : KernelResult (LruCache nat nat) :=
  let? (old, lru') := or_panic (lru_put key value lru) in
  let? _ := assert_eq old expected in
  Ok lru'.

Definition assert_get (lru : LruCache nat nat) (key : nat) (expected : option nat)
    : KernelResult (LruCache nat nat) :=
  let? (value, lru') := or_panic (lru_get key lru) in
  let? _ := assert_eq value expected in
  Ok lru'.

Definition test_lru_cache : KernelResult unit :=
  let? lru := lru_new 3 in
  let? _ := assert_true (lru_is_empty lru) in
  let? lru := assert_put lru 1 10 None in
  let? lru := assert_put lru 2 20 None in
  let? lru := assert_put lru 3 30 None in
  let? lru := assert_get lru 1 (Some 10) in
  let? lru := assert_put lru 2 200 (Some 20) in
  let? lru := assert_put lru 4 40 None in
  let? lru := assert_get lru 2 (Some 200) in
  let? lru := assert_get lru 3 None in
  let? (inserted, lru) := or_panic (lru_get_or_insert 9 (λ _, Ok 9) lru) in
  let? inserted := inserted in
  let? _ := assert_eq inserted 9 in
  let? _ := assert_eq (lru_len lru) 3 in
  let? _ := assert_true (negb (lru_is_empty lru)) in
  let? items := or_panic (lru_iter lru) in
  let? _ := res_foldM (λ (set : gset (nat * nat)) item,
              let? _ := assert_true (bool_decide (item ∈ set)) in
              Ok (set ∖ {[ item ]})) {[ (9, 9); (2, 200); (4, 40) ]} items in
  Ok tt.

Definition test_sharding_cache (hash : nat → N) : KernelResult unit :=
  let? lru := sharding_new 4 2 in
  let? _ := assert_true (sharding_is_empty lru) in
  let? (old, lru) := returned (sharding_put hash 1 10 lru) in
  let? _ := assert_eq old None in
  let? (value, lru) := returned (sharding_get hash 1 lru) in
  let? _ := assert_eq value (Some 10) in
  let? _ := assert_true (negb (sharding_is_empty lru)) in
  let? (inserted, _) := returned (sharding_get_or_insert hash 9 (λ _, Ok 9) lru) in
  let? inserted := inserted in
  assert_eq inserted 9.

Example test_lru_cache_passes : test_lru_cache = Ok tt.
Proof. vm_compute. reflexivity. Qed.

(** [RandomState] is seeded anew in each process: keys 1 and 9 may share a shard or not. *)
Example test_sharding_cache_passes :
  test_sharding_cache N.of_nat = Ok tt ∧ test_sharding_cache (λ key, N.of_nat (key / 2)) = Ok tt
  ∧ test_sharding_cache (λ _, 2 ^ 64 - 1)%N = Ok tt.
Proof. by vm_compute. Qed.

(** ** The bit vector (bloom_filter.rs) *)

(** [for i in 0..98 { assert!(!vector.get_bit(i)) }], then bit 99. *)
Definition assert_last_bit (vector : BitVector) : KernelResult unit :=
  let? _ := res_mapM (λ i, let? bit := get_bit vector i in assert_true (negb bit)) (seq 0 98) in
  let? bit := get_bit vector 99 in
  assert_true bit.

Definition bit_vector_serialization : KernelResult unit :=
  let? vector := set_bit (bit_vector_new 100) 99 true in
  let? vector := bit_vector_from_raw (bit_vector_to_raw vector []) in
  assert_last_bit vector.

Definition bit_vector_simple : KernelResult unit :=
  let? vector := set_bit (bit_vector_new 100) 99 true in
  assert_last_bit vector.

Example bit_vector_serialization_passes : bit_vector_serialization = Ok tt.
Proof. vm_compute. reflexivity. Qed.
Example bit_vector_simple_passes : bit_vector_simple = Ok tt.
Proof. vm_compute. reflexivity. Qed.

(** ** Blocks, their iterator and the footer (ss_table) *)

#[local] Instance value_eq_dec : EqDecision Value.
Proof. solve_decision. Defined.
#[local] Instance entry_eq_dec {T} `{EqDecision T} : EqDecision (Entry T).
Proof. solve_decision. Defined.

Definition test_entry_serialization : KernelResult unit :=
  let entry1 := entry_new 0 1 (b "1") (value_from (Some (b "1"))) in
  let entry2 := entry_new 0 1 (b "1") (value_from (Some (b "1"))) in
  let bytes := entry_encode entry2 (entry_encode entry1 []) in
  let? vec_entry := batch_decode bytes in
  assert_eq [(0, entry1); (1, entry2)] vec_entry.

Definition test_footer : KernelResult unit :=
  let info := {| ft_level := 0; ft_index_offset := 0; ft_index_len := 0;
                 ft_meta_offset := 0; ft_meta_len := 0; ft_size_of_disk := 0 |} in
  assert_eq (length (footer_to_raw info [])) TABLE_FOOTER_SIZE.

(** [it.try_prev()?] compared with what is expected. *)
Definition assert_prev {It Item} `{ForwardIter It Item} `{EqDecision Item} (it : It)
    (expected : option Item) : KernelResult It :=
  let? (item, it') := try_prev it in
  let? _ := assert_eq item expected in
  Ok it'.

Definition block_test_iterator : KernelResult unit :=
  let data := [(b "1", value_from None); (b "2", value_from (Some (b "0"))); (b "4", value_from None)] in
  let? block := block_new data DEFAULT_DATA_RESTART_INTERVAL in
  let? it := block_iter_new block in
  let? _ := assert_true (negb (is_valid it)) in
  let? it := assert_next it (Some (b "1", value_from None)) in
  let? it := assert_next it (Some (b "2", value_from (Some (b "0")))) in
  let? it := assert_next it (Some (b "4", value_from None)) in
  let? it := assert_next it None in
  let? it := assert_prev it (Some (b "4", value_from None)) in
  let? it := assert_prev it (Some (b "2", value_from (Some (b "0")))) in
  let? it := assert_prev it (Some (b "1", value_from None)) in
  let? it := assert_prev it None in
  let? it := seek SeekFirst it in
  let? it := assert_next it (Some (b "1", value_from None)) in
  let? it := seek SeekLast it in
  let? it := assert_next it None in
  let? it := seek (SeekBackward (b "2")) it in
  let? it := assert_next it (Some (b "2", value_from (Some (b "0")))) in
  let? it := seek (SeekBackward (b "3")) it in
  let? _ := assert_next it (Some (b "4", value_from None)) in
  Ok tt.

Example test_entry_serialization_passes : test_entry_serialization = Ok tt.
Proof. vm_compute. reflexivity. Qed.
Example test_footer_passes : test_footer = Ok tt.
Proof. vm_compute. reflexivity. Qed.
Example block_test_iterator_passes : block_test_iterator = Ok tt.
Proof. vm_compute. reflexivity. Qed.

(** ** The in-memory table (btree_table/iter.rs) *)

Definition btree_test_iterator : KernelResult unit :=
  let vec : list KeyValue :=
    [(b "1", None); (b "2", Some (b "1")); (b "3", None); (b "4", None);
     (b "5", Some (b "2")); (b "6", None)] in
  let table := btree_table_new 0 0 vec in
  let? it := table_iter table in
  let? it := res_foldM (λ it test_data, assert_next it (Some test_data)) it vec in
  let? it := assert_next it None in
  let? it := seek SeekFirst it in
  let? it := assert_next it (vec !! 0) in
  let? it := seek (SeekBackward (b "3")) it in
  let? it := assert_next it (vec !! 2) in
  let? it := seek SeekLast it in
  let? _ := assert_next it None in
  Ok tt.

Example btree_test_iterator_passes : btree_test_iterator = Ok tt.
Proof. vm_compute. reflexivity. Qed.

(** ** Merging (merging_iter.rs) *)

(** Both kinds of iterators in one vector, as [Box<dyn SeekIter>]. *)
Definition test_with_data (data_1 data_2 : list KeyValue) (sequence : list (option KeyValue))
    (seeds : Z * Z) : KernelResult unit :=
  let btree_table := btree_table_new 0 0 data_1 in
  let config := config_new EmptyString in
  let? (ss_table, _) := sst_new ∅ config 1 data_2 0 IoDirect seeds in
  let bt_iter := btree_table_iter_new btree_table in
  let? sst_iter := (sst_iter_new ss_table ()).1 in
  let expected i := mjoin (sequence !! i) in
  let? it := merging_new (It:=SSTableIter + BTreeTableIter) [inr bt_iter; inl sst_iter] in
  let? it := assert_next it (expected 0) in
  let? it := assert_next it (expected 1) in
  let? it := assert_next it (expected 2) in
  let? it := assert_next it (expected 3) in
  let? it := assert_next it (expected 4) in
  let? it := assert_next it (expected 5) in
  let? it := seek SeekFirst it in
  let? it := assert_next it (expected 6) in
  let? it := seek SeekLast it in
  let? it := assert_next it (expected 7) in
  let? it := seek (SeekBackward (b "5")) it in
  let? _ := assert_next it (expected 8) in
  Ok tt.

Definition test_sequential_iterator : Z * Z → KernelResult unit :=
  test_with_data
    [(b "1", None); (b "2", Some (b "0")); (b "4", None)]
    [(b "6", None); (b "7", Some (b "1")); (b "8", None)]
    [Some (b "1", None); Some (b "2", Some (b "0")); Some (b "4", None); Some (b "6", None);
     Some (b "7", Some (b "1")); Some (b "8", None); Some (b "1", None); None; Some (b "6", None)].

Definition test_cross_iterator : Z * Z → KernelResult unit :=
  test_with_data
    [(b "1", None); (b "2", Some (b "0")); (b "6", None)]
    [(b "4", None); (b "7", Some (b "1")); (b "8", None)]
    [Some (b "1", None); Some (b "2", Some (b "0")); Some (b "4", None); Some (b "6", None);
     Some (b "7", Some (b "1")); Some (b "8", None); Some (b "1", None); None; Some (b "6", None)].

Definition test_same_key_iterator : Z * Z → KernelResult unit :=
  test_with_data
    [(b "4", Some (b "0")); (b "5", None); (b "6", Some (b "0"))]
    [(b "4", None); (b "5", Some (b "1")); (b "6", None)]
    [Some (b "4", Some (b "0")); Some (b "5", None); Some (b "6", Some (b "0")); None; None; None;
     Some (b "4", Some (b "0")); None; Some (b "5", None)].

Example test_sequential_iterator_passes : test_sequential_iterator (11, 22)%Z = Ok tt.
Proof. vm_compute. reflexivity. Qed.
Example test_cross_iterator_passes : test_cross_iterator (11, 22)%Z = Ok tt.
Proof. vm_compute. reflexivity. Qed.
Example test_same_key_iterator_passes : test_same_key_iterator (11, 22)%Z = Ok tt.
Proof. vm_compute. reflexivity. Qed.

(** ** Versions and their log (version/test.rs) *)

Import StatusSample.

#[local] Instance version_meta_eq_dec : EqDecision VersionMeta.
Proof. solve_decision. Defined.

(** A status with its loader, the counters of the scopes and the identifiers. *)
Record Fixture := mkFixture {
  fx_loader : TableLoader;
  fx_status : VersionStatus;
  fx_seeks : Seeks;
  fx_counters : Counters;
}.

(** The tests open a log of generation 1 in the directory of the version logs, which
    creates its file, and give it to the status. *)
Definition load_status (config : Config) (d : Dir) (hash : Z → N) (c : Counters) : KernelResult Fixture :=
  let? (vs, h, c') := returned (load_with_path d c) in
  let? loader := table_loader_new config ∅ d hash in
  Ok {| fx_loader := loader; fx_status := vs; fx_seeks := h; fx_counters := c' |}.

Definition create_test_table (gen : Z) (vec_data : list KeyValue) (fx : Fixture)
    : KernelResult (Scope * TableMeta * Fixture) :=
  let? (scope, meta, h, loader) :=
    returned (table_loader_create gen vec_data 0 SortedString (11, 22)%Z (fx_seeks fx) (fx_loader fx)) in
  Ok (scope, meta, {| fx_loader := loader; fx_status := fx_status fx; fx_seeks := h;
                      fx_counters := fx_counters fx |}).

Definition apply_edits (edits : list VersionEdit) (threshold : nat) (fx : Fixture) : KernelResult Fixture :=
  let? (vs, c) := log_and_apply (fx_status fx) (fx_seeks fx) (fx_counters fx) edits threshold in
  Ok {| fx_loader := fx_loader fx; fx_status := vs; fx_seeks := fx_seeks fx; fx_counters := c |}.

(** The last reference to a version goes. *)
Definition drop_version (v : Version) (fx : Fixture) : Fixture :=
  {| fx_loader := fx_loader fx;
     fx_status := {| vs_version := vs_version (fx_status fx);
                     vs_ver_log_writer := vs_ver_log_writer (fx_status fx);
                     vs_logs := vs_logs (fx_status fx);
                     vs_edit_approximate_count := vs_edit_approximate_count (fx_status fx);
                     vs_chan := version_drop v (vs_chan (fx_status fx)) |};
     fx_seeks := fx_seeks fx; fx_counters := fx_counters fx |}.

(** The loader once the cleaner has handled all messages sent so far, [closed] when the
    senders are gone; the tests' logs are the version logs. *)
Definition cleaned (closed : bool) (fx : Fixture) : KernelResult TableLoader :=
  let queue := chan_queue (vs_chan (fx_status fx)) in
  let cleaner := fold_left cleaner_recv queue cleaner_new in
  let cleaner := if closed then cleaner_close cleaner else cleaner in
  let l := set_loader (fx_loader fx) (tl_inner (fx_loader fx)) (tl_factory (fx_loader fx))
             (status_files (fx_status fx)) in
  res_foldM (λ l gen, let? (_, l') := or_panic (table_loader_clean gen l) in Ok l') l (cl_cleaned cleaner).

(** Which of the table files 1 and 2 exist. *)
Definition assert_files (file_1 file_2 : bool) (l : TableLoader) : KernelResult unit :=
  let? _ := assert_eq (is_table_file_exist 1 l) file_1 in
  assert_eq (is_table_file_exist 2 l) file_2.

Definition test_version_clean (hash : Z → N) (c : Counters) : KernelResult unit :=
  let? (_, _, c) := reload ∅ (Some 1%Z) (λ _ records, Ok records) [0] c in
  let wal := open_file ∅ 1 in
  let? fx := load_status (config_new EmptyString) wal hash c in
  let? (scope_1, meta_1, fx) := create_test_table 1 [(b "test", None)] fx in
  let? (scope_2, meta_2, fx) := create_test_table 2 [(b "test", None)] fx in
  let version_0 := vs_version (fx_status fx) in
  let? fx := apply_edits [NewFile ([scope_1], 0) 0 meta_1] 2 fx in
  let fx := drop_version version_0 fx in
  let version_1 := vs_version (fx_status fx) in
  let? fx := apply_edits [NewFile ([scope_2], 0) 0 meta_2; DeleteFile ([1%Z], 0) meta_1] 2 fx in
  let version_2 := vs_version (fx_status fx) in
  let? fx := apply_edits [DeleteFile ([2%Z], 0) meta_2] 2 fx in
  let? (_, snapshot, _) :=
    reload (status_files (fx_status fx)) None decode_version_record [] (fx_counters fx) in
  let? _ := assert_eq snapshot
              (edit_to_raw (fx_seeks fx) <$>
                 [NewFile ([scope_2], 0) 0 meta_2; DeleteFile ([2%Z], 0) meta_2]) in
  let? l := cleaned false fx in
  let? _ := assert_files true true l in
  let fx := drop_version version_2 fx in
  let? l := cleaned false fx in
  let? _ := assert_files true true l in
  let fx := drop_version version_1 fx in
  let? l := cleaned false fx in
  let? _ := assert_files false true l in
  let fx := drop_version (vs_version (fx_status fx)) fx in
  let? l := cleaned true fx in
  assert_files false false l.

(** [assert_eq!] of two level slices, whose counters may be of different processes: scopes
    without a counter are not equal to anything. *)
Definition assert_levels (h_1 h_2 : Seeks) (l_1 l_2 : LevelSlice) : KernelResult unit :=
  let raw h (l : LevelSlice) : list (list RawScope) := map (map (scope_to_raw h)) l in
  let? _ := assert_eq (raw h_1 l_1) (raw h_2 l_2) in
  assert_true (forallb (forallb (λ s, bool_decide (is_Some (rs_seeks s)))) (raw h_1 l_1)).

Definition test_version_apply_and_log (hash : Z → N) (c : Counters) : KernelResult unit :=
  let? (_, _, c) := reload ∅ (Some 1%Z) (λ _ records, Ok records) [0] c in
  let wal := open_file ∅ 1 in
  let config := config_new EmptyString in
  let? fx := load_status config wal hash c in
  let? (scope_1, meta_1, fx) := create_test_table 1 [(b "test", None)] fx in
  let? (scope_2, meta_2, fx) := create_test_table 2 [(b "test", None)] fx in
  let? fx := apply_edits [NewFile ([scope_1], 0) 0 meta_1; NewFile ([scope_2], 0) 0 meta_2;
                          DeleteFile ([2%Z], 0) meta_2] 10 fx in
  let? (scope_3, meta_3, fx) := create_test_table 3 [(b "test3", None)] fx in
  let? (scope_4, meta_4, fx) := create_test_table 4 [(b "test4", None)] fx in
  let? fx := apply_edits [NewFile ([scope_3], 0) 0 meta_3; NewFile ([scope_4], 0) 0 meta_4] 10 fx in
  let version_1 := vs_version (fx_status fx) in
  let? fx_2 := load_status config (status_files (fx_status fx)) hash (fx_counters fx) in
  let version_2 := vs_version (fx_status fx_2) in
  let? _ := assert_levels (fx_seeks fx) (fx_seeks fx_2) (level_slice version_1) (level_slice version_2) in
  assert_eq (meta_data version_1) (meta_data version_2).

Example test_version_clean_passes : test_version_clean Z.to_N (mkCounters 1 100) = Ok tt.
Proof. vm_compute. reflexivity. Qed.
Example test_version_apply_and_log_passes : test_version_apply_and_log Z.to_N (mkCounters 1 100) = Ok tt.
Proof. vm_compute. reflexivity. Qed.

(** ** Transactions (mvcc.rs) *)

Definition test_transaction_check_optimistic (now : Z) (c : Counters)
    : KernelResult unit :=
  let config := config_major_threshold_with_sst_size (config_new EmptyString) 4 in
  let? kv_store := returned (open_with_config (T:=BoxTable) config now (λ _, Ok true) ∅ ∅ ∅ c) in
  let '(tx_1, kv_store) := transaction_new Optimistic kv_store in
  let '(tx_2, kv_store) := transaction_new Optimistic kv_store in
  let tx_1 := transaction_set (b "same_key") [] tx_1 in
  let tx_2 := transaction_set (b "same_key") [] tx_2 in
  let '(r_1, kv_store) := transaction_commit tx_1 kv_store in
  let? _ := r_1 in
  let '(r_2, kv_store) := transaction_commit tx_2 kv_store in
  assert_true (match r_2 with Err RepeatedWrite => true | _ => false end).

Example test_transaction_check_optimistic_passes :
  test_transaction_check_optimistic 1000 (mkCounters 1 100) = Ok tt.
Proof. vm_compute. reflexivity. Qed.

(** ** Compaction (compactor.rs) *)

Definition kv (k v : string) : KeyValue := (b k, Some (b v)).

Definition test_data_merge (seeds : Z * Z) (c : Counters) : KernelResult unit :=
  let config := config_new EmptyString in
  let? (ss_table_1, d) :=
    sst_new ∅ config 1 [kv "1" "1"; kv "2" "2"; kv "3" "31"] 0 IoDirect seeds in
  let? (ss_table_2, d) := sst_new d config 2 [kv "3" "3"; kv "4" "4"] 0 IoDirect seeds in
  let? (ss_table_3, d) := sst_new d config 3 [kv "1" "11"; kv "2" "21"] 1 IoDirect seeds in
  let? (ss_table_4, d) :=
    sst_new d config 4 [kv "3" "32"; kv "4" "41"; kv "5" "5"] 1 IoDirect seeds in
  let? (shards, _) :=
    data_merge_and_sharding [ss_table_1; ss_table_2] [ss_table_3; ss_table_4]
      (N.to_nat (cfg_sst_file_size config)) c in
  let? (_, vec_data) := or_panic (head shards) in
  assert_eq vec_data [kv "1" "1"; kv "2" "2"; kv "3" "3"; kv "4" "4"; kv "5" "5"].

Example test_data_merge_passes : test_data_merge (11, 22)%Z (mkCounters 1 100) = Ok tt.
Proof. vm_compute. reflexivity. Qed.

(** The tables of the test, by generation, level and keys. *)
Definition seek_tables : list (Z * nat * list string) :=
  [(1%Z, 1, ["1"; "2"]); (2%Z, 1, ["3"; "5"; "6"]); (3%Z, 2, ["1"; "2"]); (4%Z, 2, ["3"; "4"]);
   (5%Z, 2, ["5"; "6"])]%string.

(** The [loop]: queries until one reports a scope to compact, 200 at most. *)
Fixpoint seek_loop (rounds : nat) (version : Version) (config : Config) (st : Store BTreeTable)
    : KernelResult (Store BTreeTable) :=
  match rounds with
  | O => Panic
  | S rounds' =>
      let '(r, h) := query (store_get st) version (b "4") (so_seeks st) in
      let st' := set_seeks st h in
      let? (_, seek) := r in
      match seek with
      | Some (scope, level) => major_compaction config st' level scope [] true
      | None => seek_loop rounds' version config st'
      end
  end.

Definition seek_count (st : Store BTreeTable) (s : Scope) : option Z :=
  sc_allowed_seeks s ≫= λ loc, so_seeks st !! loc.

Definition test_seek_compaction (c : Counters) : KernelResult unit :=
  let config := config_new EmptyString in
  let? st := returned (store_inner_new config ∅ ∅ ∅ c) in
  let? (created, st) :=
    res_foldM (λ '(created, st) '(gen, level, keys),
      let? (scope, meta, st') :=
        loader_create st gen ((λ k, (b k, None)) <$> (keys : list string)) level BTree in
      Ok (created ++ [(scope, meta)], st')) ([], st) seek_tables in
  let level_1 := take 2 created in
  let level_2 := drop 2 created in
  let? (vs, c) :=
    log_and_apply (so_status st) (so_seeks st) (so_counters st)
      [NewFile (level_1.*1, 1) 0 (table_meta_fusion level_1.*2);
       NewFile (level_2.*1, 2) 0 (table_meta_fusion level_2.*2)] (N.to_nat 114514) in
  let st := set_status st vs c in
  let? st := seek_loop 200 (vs_version vs) config st in
  let slices := level_slice (vs_version (so_status st)) in
  let? slice_1 := or_panic (slices !! 1) in
  let? slice_2 := or_panic (slices !! 2) in
  let? _ := assert_true (negb (bool_decide (slice_1 = []))) in
  let? _ := assert_true (negb (bool_decide (slice_2 = []))) in
  let? final_scope_1 := or_panic (slice_2 !! 0) in
  let? final_scope_2 := or_panic (slice_2 !! 1) in
  let? _ := assert_eq (sc_start final_scope_1) (b "1") in
  let? _ := assert_eq (sc_end final_scope_1) (b "2") in
  let? _ := assert_eq (sc_start final_scope_2) (b "3") in
  let? _ := assert_eq (sc_end final_scope_2) (b "6") in
  let? _ := assert_eq (seek_count st final_scope_1) (Some 0%Z) in
  assert_eq (seek_count st final_scope_2) (Some 0%Z).

Example test_seek_compaction_passes : test_seek_compaction (mkCounters 1 100) = Ok tt.
Proof. vm_compute. reflexivity. Qed.

(** ** Tests over generated data

    [serialize i] is [bincode::options().with_big_endian().serialize(&i)], or
    [bincode::serialize(&i)] in the test of the compactor, and [times] the number of
    entries.  The repository runs them with some thousands of entries; the
    examples below evaluate them with fewer. *)

#[local] Instance index_countable : Countable Index.
Proof.
  refine (inj_countable' (λ i, (i_offset i, i_len i)) (λ '(o, l), mkIndex o l) _). by intros [].
Defined.

#[local] Instance block_eq_dec {T} `{EqDecision T} : EqDecision (Block T).
Proof. solve_decision. Defined.

Section generated.
Context (serialize : nat → bytes) (times : nat).

Definition shadow : bytes := b "What you are you do not see, what you see is your shadow.".
Definition flowers : bytes := b "Let life be beautiful like summer flowers".
Definition stars : bytes := b "If you shed tears when you miss the sun, you also miss the stars.".

(** The keys [KipDB-i] and [i], all with one value. *)
Definition kip_data (value : bytes) : list KeyValue :=
  (λ i, (b "KipDB-" ++ serialize i, Some value)) <$> seq 0 times.
Definition plain_data (value : bytes) : list KeyValue :=
  (λ i, (serialize i, Some value)) <$> seq 0 times.

Definition block_test_iterator_1000 : KernelResult unit :=
  let vec_data := (λ kv : KeyValue, (kv.1, value_from kv.2)) <$> kip_data shadow in
  let? block := block_new vec_data DEFAULT_DATA_RESTART_INTERVAL in
  let? it := block_iter_new block in
  let? it := res_foldM (λ it kv, assert_next it (Some kv)) it vec_data in
  let? _ := res_foldM (λ it i, let? kv := or_panic (vec_data !! i) in assert_prev it (Some kv)) it
              (reverse (seq 0 (times - 1))) in
  Ok tt.

Definition test_block_serialization_ (block : Block Value) (compress_type : CompressType)
    (interval : nat) : KernelResult unit :=
  let? de_block := block_decode (block_encode block compress_type []) compress_type interval in
  assert_eq block de_block.

Definition test_block : KernelResult unit :=
  let vec_data := kip_data flowers in
  let options := block_options_new in
  let? builder := res_foldM (λ bd (kv : KeyValue), builder_add bd (kv.1, value_from kv.2))
                    (block_builder_new options) vec_data in
  let? (block, _) := or_panic (head (bb_vec_block builder)) in
  let? (full_bytes, data_len, _) := builder_build builder in
  let? index_block := block_decode (T:=Index) (drop data_len full_bytes) CompressNone
                        (opt_index_restart_interval options) in
  let? cache := lru_new 5 in
  let? _ :=
    res_foldM (λ (cache : LruCache Index (Block Value)) (kv : KeyValue),
      let? index := find_with_upper index_block kv.1 in
      let? (r, cache') :=
        or_panic (lru_get_or_insert index (λ i,
          block_decode (take (i_len i) (drop (Z.to_nat (i_offset i)) full_bytes))
            (opt_compress_type options) (opt_data_restart_interval options)) cache) in
      let? data_block := r in
      let? found := block_find data_block kv.1 in
      let? _ := assert_eq found (Some flowers, true) in
      Ok cache') cache vec_data in
  let? _ := test_block_serialization_ block CompressNone (opt_data_restart_interval options) in
  test_block_serialization_ block CompressLZ4 (opt_data_restart_interval options).

Definition sst_test_iterator (seeds : Z * Z) : KernelResult unit :=
  let vec_data := kip_data shadow in
  let? (ss_table, _) := sst_new ∅ (config_new EmptyString) 1 vec_data 0 IoDirect seeds in
  let? it := (sst_iter_new ss_table ()).1 in
  let? it := res_foldM (λ it kv, assert_next it (Some kv)) it vec_data in
  let? it := res_foldM (λ it i, assert_prev it (vec_data !! i)) it (reverse (seq 0 (times - 1))) in
  let? kv_114 := or_panic (vec_data !! 114) in
  let? it := seek (SeekBackward kv_114.1) it in
  let? it := assert_next it (Some kv_114) in
  let? it := seek SeekFirst it in
  let? it := assert_next it (vec_data !! 0) in
  let? it := seek SeekLast it in
  let? _ := assert_next it None in
  Ok tt.

(** [ss_table.query(&kv.0)?.unwrap().1] is the value for each pair. *)
Definition assert_queries {T} `{Table T} (t : T) (vec_data : list KeyValue) (value : bytes) : KernelResult unit :=
  let? _ := res_mapM (λ kv : KeyValue,
              let? o := table_query t kv.1 in
              let? found := or_panic o in
              assert_eq found.2 (Some value)) vec_data in
  Ok tt.

Definition test_ss_table (hash : Z → N) (seeds : Z * Z) (c : Counters) : KernelResult unit :=
  let config := config_new EmptyString in
  let? (_, _, c) := reload ∅ (Some 1%Z) (λ _ records, Ok records) [0] c in
  let? sst_loader := table_loader_new config ∅ (open_file ∅ 1) hash in
  let vec_data := plain_data stars in
  let? (_, _, _, sst_loader) :=
    returned (table_loader_create 1 vec_data 1 SortedString seeds [] sst_loader) in
  let? _ := assert_true (is_table_file_exist 1 sst_loader) in
  let? (o, sst_loader) := or_panic (table_loader_get 1 sst_loader) in
  let? o := o in
  let? ss_table := or_panic o in
  let? _ := assert_queries ss_table vec_data stars in
  let '(d, reader) := io_reader (tl_factory sst_loader) 1 IoDirect in
  let? ss_table := sst_load_from_file d reader in
  assert_queries ss_table vec_data stars.

(** [sst_loader.get(1).unwrap()] answers for the repeated key and for the others. *)
Definition assert_loaded (sst_loader : TableLoader) (repeat_data : KeyValue) (vec_data : list KeyValue)
    : KernelResult TableLoader :=
  let? (o, sst_loader) := or_panic (table_loader_get 1 sst_loader) in
  let? o := o in
  let? t := or_panic o in
  let? found := table_query t repeat_data.1 in
  let? _ := assert_eq found (Some repeat_data) in
  let? _ := assert_queries t (drop 1 vec_data) stars in
  Ok sst_loader.

(** [assert!(remove(&1).is_some())] and [assert!(is_emtpy())]. *)
Definition assert_removed (sst_loader : TableLoader) : KernelResult TableLoader :=
  let? (o, sst_loader) := returned (table_loader_remove 1 sst_loader) in
  let? _ := assert_true (match o with Some _ => true | None => false end) in
  let? _ := assert_true (table_loader_is_empty sst_loader) in
  Ok sst_loader.

Definition test_ss_table_loader (hash : Z → N) (seeds : Z * Z) (c : Counters) : KernelResult unit :=
  let config := config_new EmptyString in
  let? (_, _, c) := reload ∅ (Some 1%Z) (λ _ records, Ok records) [0] c in
  let vec_data := plain_data stars in
  let? first := or_panic (head vec_data) in
  let repeat_data : KeyValue := (first.1, None) in
  let? log_writer := res_foldM (λ w kv, let? (_, w') := add_record w (data_to_bytes kv) in Ok w')
                       (log_loader_writer ∅ 1) (vec_data ++ [repeat_data]) in
  let vec_data := <[0 := repeat_data]> vec_data in
  let wal : Dir := {[ 1%Z := sk_content (lw_dst log_writer) ]} in
  let? sst_loader := table_loader_new config ∅ wal hash in
  let? (_, _, _, sst_loader) :=
    returned (table_loader_create 1 vec_data 0 SortedString seeds [] sst_loader) in
  let? sst_loader := assert_removed sst_loader in
  let? sst_loader := assert_loaded sst_loader repeat_data vec_data in
  let? sst_loader := assert_removed sst_loader in
  let? d := io_clean (tl_factory sst_loader) 1 in
  let sst_loader := set_loader sst_loader (tl_inner sst_loader) d (tl_wal sst_loader) in
  let? _ := assert_true (negb (io_exists (tl_factory sst_loader) 1)) in
  let? _ := assert_loaded sst_loader repeat_data vec_data in
  Ok tt.

(** [loader.create] and the tables of the loader. *)
Definition create_at (gen : Z) (vec_data : list KeyValue) (level : nat) (tp : TableType) (seeds : Z * Z)
    (fx : Fixture) : KernelResult (Scope * TableMeta * Fixture) :=
  let? (scope, meta, h, loader) :=
    returned (table_loader_create gen vec_data level tp seeds (fx_seeks fx) (fx_loader fx)) in
  Ok (scope, meta, {| fx_loader := loader; fx_status := fx_status fx; fx_seeks := h;
                      fx_counters := fx_counters fx |}).

Definition fx_get (fx : Fixture) (gen : Z) : option BoxTable :=
  match table_loader_get gen (fx_loader fx) with Some (Ok o, _) => o | _ => None end.

(** [half] is where the data is split, [near], [far] and [other] are the positions of the
    entries sought: 2000, 114, 2048 and 3333 of 4000 in the repository. *)
Definition level_test_iterator (half near far other : nat) (hash : Z → N) (seeds : Z * Z) (c : Counters)
    : KernelResult unit :=
  let config := config_new EmptyString in
  let? (_, _, c) := reload ∅ (Some 1%Z) (λ _ records, Ok records) [0] c in
  let? (vs, h, c) := returned (load_with_path ∅ c) in
  let? loader := table_loader_new config ∅ (open_file ∅ 1) hash in
  let fx := {| fx_loader := loader; fx_status := vs; fx_seeks := h; fx_counters := c |} in
  let vec_data := kip_data shadow in
  let? (scope_1, meta_1, fx) := create_at 1 (take half vec_data) 1 SortedString seeds fx in
  let? (scope_2, meta_2, fx) := create_at 2 (drop half vec_data) 1 BTree seeds fx in
  let? fx := apply_edits [NewFile ([scope_1], 0) 0 {| tm_size_of_disk := 0; tm_len := 0 |};
                          NewFile ([scope_1; scope_2], 1) 0 (table_meta_fusion [meta_1; meta_2])] 10 fx in
  let version := vs_version (fx_status fx) in
  let? it := level_iter_new (fx_get fx) version 1 in
  let? it := res_foldM (λ it kv, assert_next it (Some kv)) it vec_data in
  let? kv_near := or_panic (vec_data !! near) in
  let? it := seek (SeekBackward kv_near.1) it in
  let? it := assert_next it (Some kv_near) in
  let? kv_far := or_panic (vec_data !! far) in
  let? it := seek (SeekBackward kv_far.1) it in
  let? it := assert_next it (Some kv_far) in
  let? it := seek SeekFirst it in
  let? it := assert_next it (vec_data !! 0) in
  let? it := seek SeekLast it in
  let? _ := assert_next it None in
  let? it_level_0 := level_iter_new (fx_get fx) version 0 in
  let? kv_other := or_panic (vec_data !! other) in
  assert_true (match seek (SeekBackward kv_other.1) it_level_0 with Err _ => true | _ => false end).

(** [kv_store.set] for each pair. *)
Definition set_all {T} (kvs : list (bytes * bytes)) (s : KipStorage T) : KernelResult (KipStorage T) :=
  res_foldM (λ s '(key, value), let '(r, s') := storage_set key value s in let? _ := r in Ok s') s kvs.

(** [kv_store.get] compared with what is expected of each pair. *)
Definition assert_stored {T} `{Table T} (kvs : list (bytes * bytes)) (expected : bytes → option bytes)
    (s : KipStorage T) : KernelResult (KipStorage T) :=
  res_foldM (λ s '(key, value),
    let '(r, s') := storage_get key s in
    let? found := r in
    let? _ := assert_eq found (expected value) in
    Ok s') s kvs.

(** [tx_1.get] for each pair. *)
Definition assert_seen (kvs : list (bytes * bytes)) (tx : Transaction) (s : KipStorage BTreeTable)
    : KernelResult (KipStorage BTreeTable) :=
  res_foldM (λ s '(key, value),
    let '(r, s') := transaction_get key tx s in
    let? found := r in
    let? _ := assert_eq found (Some value) in
    Ok s') s kvs.

(** The storage over tables in memory, which are what the table files hold. *)
Definition test_transaction (now : Z) (c : Counters) : KernelResult unit :=
  let config := config_major_threshold_with_sst_size (config_new EmptyString) 4 in
  let? s := returned (open_with_config config now (λ _, Ok true) ∅ ∅ ∅ c) in
  let vec_kv := (λ i, (serialize i, serialize i ++ b "0")) <$> seq 0 times in
  let? s := set_all (take 50 vec_kv) s in
  let? s := returned (storage_flush s) in
  let? s := set_all (drop 50 (take 100 vec_kv)) s in
  let '(tx_1, s) := transaction_new Optimistic s in
  let tx_1 := fold_left (λ tx '(key, value), transaction_set key value tx) (drop 100 vec_kv) tx_1 in
  let? (last_key, _) := or_panic (vec_kv !! (times - 1)) in
  let '(r, tx_1, s) := transaction_remove last_key tx_1 s in
  let? _ := r in
  let? s := assert_seen (take (times - 1) vec_kv) tx_1 s in
  let '(r, s) := transaction_get last_key tx_1 s in
  let? found := r in
  let? _ := assert_eq found None in
  let? s := assert_stored (drop 100 vec_kv) (λ _, None) s in
  let vec_test := (λ kv : bytes * bytes, (kv.1, Some kv.2)) <$> drop 25 vec_kv in
  let? (key_25, _) := or_panic (vec_kv !! 25) in
  let? it := transaction_iter (Included key_25) Unbounded tx_1 s in
  let? _ := res_foldM (λ it kv,
              let? (item, it') := transaction_iter_try_next (S times) it in
              let? _ := assert_eq item (Some kv) in
              Ok it') it (take (length vec_test - 1) vec_test) in
  let '(r, s) := transaction_commit tx_1 s in
  let? _ := r in
  let? _ := assert_stored (take (times - 1) vec_kv) Some s in
  Ok tt.

(** The background loop works through the tasks that the writes have left, and then runs
    the [flush]. *)
Fixpoint run_tasks {T} `{Table T} `{TableBuilder T} (tasks : nat) (s : KipStorage T)
    : KernelResult (KipStorage T) :=
  match tasks with
  | O => Ok s
  | S tasks' => let? s' := returned (background_step s) in run_tasks tasks' s'
  end.

Definition flush_queue {T} `{Table T} `{TableBuilder T} (s : KipStorage T) : KernelResult (KipStorage T) :=
  let? s1 := run_tasks (length (task_queue (ks_compactor_tx s))) s in
  returned (storage_flush s1).

Definition birds : bytes := b "Stray birds of summer come to my window to sing and fly away.
            And yellow leaves of autumn, which have no songs, flutter and fall
            there with a sign.".

(** The tables of a level after the first lie one after the other. *)
Fixpoint assert_ordered (slice : list Scope) : KernelResult unit :=
  match slice with
  | last_scope :: (scope :: _) as rest =>
      let? _ := assert_true (lt_b (sc_end last_scope) (sc_start scope)) in assert_ordered rest
  | _ => Ok tt
  end.

(** [batch] is the threshold of the memory table and the number of writes before a flush,
    1000 of 30000 in the repository. *)
Definition test_lsm_major_compactor (batch : nat) (seeds : Z → Z * Z) (now : Z) (c : Counters)
    : KernelResult unit :=
  let? config :=
    enable_level_0_memorization
      (config_level_sst_magnification (config_major_threshold_with_sst_size (config_new EmptyString) 4) 1) in
  let config := config_minor_trigger_with_threshold config TriggerCount (N.of_nat batch) in
  let builder : TableBuilder BoxTable := box_builder config seeds in
  let? s := returned (open_with_config (T:=BoxTable) config now (λ _, Ok true) ∅ ∅ ∅ c) in
  let vec_kv := (λ i, (serialize i, serialize i ++ birds)) <$> seq 0 times in
  let? _ := assert_eq (times `mod` batch) 0 in
  let? s := res_foldM (λ s i,
              let? s := set_all (take batch (drop (i * batch) vec_kv)) s in
              flush_queue s) s (seq 0 (times / batch)) in
  let slices := level_slice (current_version s) in
  let non_empty i := match slices !! i with Some (_ :: _) => true | _ => false end in
  let? _ := assert_true (non_empty 0) in
  let? _ := assert_true (non_empty 1 || non_empty 2 || non_empty 3) in
  let? _ := res_mapM assert_ordered (drop 1 slices) in
  let? n := storage_len s in
  let? _ := assert_eq n times in
  let? s := assert_stored vec_kv Some s in
  let? _ := flush_queue s in
  Ok tt.
End generated.

(** The variable-length encoding bincode documents: one byte below 251, else the byte 251
    and two bytes, the most significant first. *)
Definition varint_be (i : nat) : bytes :=
  if decide (i < 251) then [byte_of_Z (Z.of_nat i)]
  else [byte_of_Z 251; byte_of_Z (Z.of_nat (i / 256)); byte_of_Z (Z.of_nat (i `mod` 256))].

Example block_test_iterator_1000_passes : block_test_iterator_1000 varint_be 100 = Ok tt.
Proof. vm_compute. reflexivity. Qed.
Example test_block_passes : test_block varint_be 100 = Ok tt.
Proof. vm_compute. reflexivity. Qed.
Example sst_test_iterator_passes : sst_test_iterator varint_be 120 (11, 22)%Z = Ok tt.
Proof. vm_compute. reflexivity. Qed.
Example test_ss_table_passes : test_ss_table varint_be 12 Z.to_N (11, 22)%Z (mkCounters 1 100) = Ok tt.
Proof. vm_compute. reflexivity. Qed.
Example test_ss_table_loader_passes :
  test_ss_table_loader varint_be 12 Z.to_N (11, 22)%Z (mkCounters 1 100) = Ok tt.
Proof. vm_compute. reflexivity. Qed.
Example test_transaction_passes : test_transaction varint_be 110 1000 (mkCounters 1 100) = Ok tt.
Proof. vm_compute. reflexivity. Qed.
Example level_test_iterator_passes :
  level_test_iterator varint_be 60 30 11 40 50 Z.to_N (11, 22)%Z (mkCounters 1 100) = Ok tt.
Proof. vm_compute. reflexivity. Qed.

(** A fixed-width encoding with the least significant digit first, as [bincode::serialize]
    has, in two digits to the base 4. *)
Definition digits_le (i : nat) : bytes := [byte_of_Z (Z.of_nat (i `mod` 4)); byte_of_Z (Z.of_nat (i / 4))].

Example test_lsm_major_compactor_passes :
  test_lsm_major_compactor digits_le 15 3 (λ _, (11, 22)%Z) 1000 (mkCounters 1 100) = Ok tt.
Proof. vm_compute. reflexivity. Qed.
